(* ===== verification/_CoqProject ===== *)
-Q . S2P
Prelude.v
Std.v
Deps.v
Registration.v
RefDeps.v
World.v
RefWorld.v
Timers.v
Source.v
Reactor.v
Ready.v
Timer.v
Async.v
Net.v
Sockets.v
Examples.v
Os.v
Process.v
Driver.v
Calls.v
System.v
Steps.v
Interleaving.v
Progress.v
Wakes.v
Sleep.v
Tasks.v
Adapters.v
Runtime.v
Evolve.v
Safe.v
Background.v
