(* ===== verification/Prelude.v ===== *)
(** * A verification of async-io

    The crate (src/src/) adapts blocking I/O handles and timers to [async]/[await]. One
    [Reactor] waits for I/O events with [polling::Poller] and for the next timer, and
    wakes the tasks that wait for them; [Async] wraps a handle and [Timer] a deadline,
    both clients of the reactor; [block_on] runs a future and drives the reactor while
    it is idle, as does the "async-io" thread when no one else does.

    ** Files

    - [Prelude]: the state monad with panics and fuel in which the code is written,
      total-correctness specifications ([wp]), [io::Result], [Poll], machine words.
    - [Std]: the parts of the standard library the crate computes with: [Duration] and
      [Instant] in nanoseconds (with the bound of the 64-bit seconds of the Unix clock),
      [Waker] and [will_wake], the [BTreeMap] of timers.
    - [Deps]: third-party code and the operating system as interfaces: for each a class
      of operations, which definitions take as an argument, and a class of laws with the
      documented behaviour that theorems use ([slab], [concurrent_queue], [polling] and
      the clock, handles, sockets, [parking]).
    - [Registration] (reactor/unix.rs, kqueue.rs, windows.rs): the three [Registration]s
      over the poller's operations; [unix_reg_laws] and [windows_reg_laws] derive the laws
      the reactor relies on for those of Unix and of Windows.
    - [RefDeps], [RefWorld]: concrete instances of all interfaces, which satisfy the
      laws; the witnesses run on them by computation.
    - [World] (reactor.rs): the data of the reactor. A [World] is the whole state: the
      fields of [Reactor], the counters, the [Source]s the [Arc]s point to in a shared
      store ([w_heap]), the outside ([w_env]), and the log of [Waker::wake] calls.
    - [Timers] (reactor.rs: [insert_timer], which is [push_timer] and then [notify],
      [remove_timer], [process_timer_ops],
      [process_timers], [notify]): [live_timers], the map with the queued operations
      applied, is the abstract store of timers that these operations refine.
    - [Source] (reactor.rs: [Direction::is_empty], [drain_into], interest events).
    - [Reactor] (reactor.rs: [insert_io], [remove_io], [ReactorLock::react]).
    - [Ready] (reactor.rs: [Source::poll_ready]; the futures [Ready], [Readable] and
      [Writable] with their [poll] and [drop]).
    - [Timer] (lib.rs: the future and stream [Timer]).
    - [Async] (lib.rs: creating and dropping [Async], [into_inner], the futures of
      [read_with] and its variants, the polls of [AsyncRead] and [AsyncWrite]).
    - [Net] (lib.rs: [connect], [setup_networking], [convert_path_to_socket_address], and
      what the methods of the networking types have in common: [bind], [pair], [accept],
      the future of [connect]).
    - [Sockets] (lib.rs: the methods of [TcpListener], [TcpStream], [UdpSocket],
      [UnixListener], [UnixStream] and [UnixDatagram], a Module each; [Incoming]).
    - [Os] (os/kqueue.rs, os/windows.rs: [Filter], [Signal], [Exit], [Waitable]; lib.rs:
      [Async] on Windows; os/unix.rs: [reactor_fd]).
    - [Process] (examples/kqueue-process.rs, windows-command.rs): the tasks that wait for a
      process to exit. [Examples] (examples/linux-timerfd.rs, linux-inotify.rs): two
      programs over [Async].
    - [Driver] (driver.rs: [main_loop], and one call of [block_on] with its wakers).
    - [Calls] (driver.rs): the calls of [block_on] of all threads, their parkers, the cache
      and [BLOCK_ON_COUNT]; the start of the "async-io" thread ([unparker]). A call begins
      with one step ([enter]) and ends with four ([finish], [release], [uncount],
      [unpark_main]), between which others may wake it, and its future may make calls
      while it is dropped.
    - [System] (reactor.rs, as a whole): the reactor with its tasks as a transition system,
      [exec] its step function, [reachable] its states, [sys_ok] its invariant; a round of
      [react] is a sequence of steps ([round_start], [round_step]), and tasks create, poll
      and drop sources, futures and timers between them. The state also records who waits
      ([Waits]), what was delivered ([s_log]), and whether the poller has refused to modify
      an interest ([s_errs]).
    - [Steps]: every step keeps the invariant. [Interleaving], [Progress]: what follows from
      it in every interleaving, and what rounds achieve. [Wakes]: the same for the waits of
      [poll_ready] and of timers, along whole runs. [Sleep]: how long a round
      waits. [Tasks]: the polls of [Async] and
      [Timer] are runs of the system, so all of it holds of the tasks that use them.
      [Adapters]: so are [Async::new], [drop] and [into_inner].
    - [Runtime] (driver.rs with reactor.rs): a thread in [block_on] and the reactor it
      drives, one transition system made of [Driver] and [System]. Its rounds are rounds of
      the reactor, which run while the lock is held; the wakers they wake unpark it.
    - [Evolve]: what every step of [System] keeps, for any relation between environments
      that all calls respect ([Evolves]), such as that the clock does not go back.
    - [Background] (driver.rs: [main_loop], beside [Runtime]): the "async-io" thread, one
      atomic step at a time ([main]), with its parker and its variables; [exec] interleaves
      it with the steps of [Runtime], from which it takes the lock and the rounds away while
      it has them; [bt_dids] records its iterations, and [observed] what each of them read.
    - [Safe] (lib.rs: [IoSafe]; build.rs; examples/windows-uds.rs): the contract of the trait
      as a class of laws, the types that have it as its instances, and what it guarantees of
      an adapter through its life.

    ** How the code is translated

    An operation is a function in the monad [M W A := W -> outcome (A * W)]; [panic] is a
    panic ([unwrap], [expect], indexing), [out_of_fuel] the end of the fuel of a loop,
    and [wp m Q w] says that [m] returns, so that every theorem in terms of [wp] is
    also a proof that the code neither panics nor loops. A call of the operating system
    or the poller ([env_call]) is a function of the environment, which is arbitrary up to
    its laws: theorems hold for every answer. What a lock protects is one step of the
    sequential definitions; interleavings are explicit: all operations of the reactor
    against the rounds of [react] in [System], one step per acquisition of a lock; pushes
    during a drain of the queue ([process_timer_ops_shared]); [block_on] against its
    wakers ([BlockOn.exec], one step per atomic operation); and all of it together
    ([Runtime.exec], and with the "async-io" thread [Background.exec]). [async fn]s are state machines,
    one poll at a time ([WithFut], [ConnFut]), with the drops the compiler inserts written
    out.

    ** Bounds and fuel

    [usize] has 64 bits: tickers and timer IDs wrap around, and theorems that need
    distinct IDs assume that fewer than 2^64 were generated. Fuel: [PUSH_FUEL] = 2
    pushes (one drain makes room), [WITH_FUEL] = 3 transitions and [IO_FUEL] = 2 calls
    per poll; the theorems about these loops are [wp]s, hence show that it is enough. The
    loop of the inotify example takes as much as there are reads, and one more.
    [Background.ENOUGH] = 122 steps are the most the "async-io" thread takes until it reacts
    if no one else does: five for each of ten sleeps, five for a tick it has not seen and
    five for one that is under way, 55 for a token in its parker, and seven to the end of the
    iteration.

    ** What the theorems show

    - Timers: the operations refine the abstract store; exactly the due timers fire, in
      order; the reactor never sleeps past a timer by more than the time between its reading
      of the clock and its call of the poller, not even one that is set while a round is about
      to wait, once the reactor has been notified of it; a registered [Timer] is woken; it
      never completes early; periodic timers do not drift; dropping leaves no entry.
    - I/O: a round of [react] wakes all it should and re-arms its sources; both kinds of
      polls complete exactly on an event after their registration, and leave the waker
      registered otherwise; cancelling is clean; the futures of [Async] call the
      operation once or twice per poll and never return [WouldBlock].
    - Resources: every path of [new], [into_inner], [drop], [connect], [accept], [pair]
      leaves the table of sources, and the descriptors, as it should.
    - Tasks and rounds interleaved: the invariant is kept and no step panics; no wakeup of a
      future, of a [poll_ready] or of a timer is lost; an event the poller has reported wakes
      the task that waits for it by the end of the round, and a round wakes the timers due
      at its start; a future is ready exactly when a round that began after its first poll
      has delivered an event of its direction; rounds end, and are [react]; polls of
      [read_with], [AsyncRead] and [Timer] are runs of the system, so that a task that
      reads is woken when its handle is ready, and one that waits for a [Timer] in time. All
      of this about wakeups holds as long as the poller has refused to modify no interest
      ([s_errs]): a refusal ends the round, and wakes no one ([react_modify_error_wakes_none]).
    - End to end: a thread that blocks on such a task polls it again within ten steps of its
      own once the event has been reported, or a round has found the timer due
      ([block_on_reads], [block_on_timer]); it is never stuck; the lock is held by whoever
      runs a round; and no round sleeps past a timer ([reactor_never_oversleeps]).
    - The reactor is driven: the "async-io" thread refines the sequential [main_loop], with
      the observations its steps have made ([background_refines]); while a call of [block_on] is active some thread begins a round
      within a bounded number of its steps ([someone_reacts]); it is never stuck except in
      [lock()]; so a [Timer] that a thread blocks on is polled again once it is due, with no
      assumption that anyone reacts ([block_on_timer_driven]).
    - [IoSafe]: if the I/O operations of a handle keep their source, an adapter stays
      registered under the descriptor of its handle, and deregisters the one it closes
      ([io_safe_life]); a handle that swaps descriptors does neither ([swap_breaks]).
    - Networking: [incoming] is equivalent to repeated [accept]; [connect] reports the
      outcome the operating system gives.
    - Threads: no wakeup of [block_on] is lost; calls within calls, and of other threads,
      have parkers of their own and leave everything as it was, even if they panic, but for a
      wake that comes after the parker was reset; the "async-io" thread is started once and
      takes over in bounded time.
    - Four theorems show behaviour that contradicts the documentation or the apparent
      intent: [react_modify_error_wakes_none], [poll_ready_error_sticks],
      [set_at_keeps_period], [blank_poll_not_registered].

    ** Not modelled

    [Debug] instances, tracing, and poisoning of mutexes; [IoSafe] of buffered readers and
    writers and of [Cow], which are no handles, so that there is no [Async] of them. Wakers are data: what a task does when woken is not part of the
    crate, except that those of [block_on] unpark its thread. [stream::unfold] is a parameter
    with laws ([UnfoldLaws]). Of the examples, those that only string together calls of other
    crates (unix-signal.rs, the client and the server of windows-uds.rs); the benches.

    In [System], the polls read the ticker and call [modify] at the moment they hold the lock
    of their source; the last step of [insert_io] may come at any time after the first;
    setting a timer is a push and a notification, and removing one a push, and a push that
    finds the queue full drains it in the same step ([process_timer_ops_linearizable] is about
    pushes during a drain). [Reactor::get] starts the "async-io" thread ([Calls.init]) before
    anything else, which [reactor_new] leaves out. In [Calls], the beginning of a call, from
    [fetch_add] to the borrow of the cache, is one step. A step of [ECall] may close a handle only if no live source is registered
    with it, as ownership of the handle guarantees. In [Runtime] there is one thread in
    [block_on] with one waker; all others may take the lock, run rounds and tasks, and call
    the waker at any time, in any order; [Background] singles out the "async-io" thread among
    them. That a thread is scheduled is an assumption: theorems count its steps. A sleep of
    the "async-io" thread may end at any time; how long its sleeps add up to is a theorem
    about the sequential loop ([main_loop_takes_over]).

    The laws of registrations are not derived for kqueue: that adding a filter for a signal
    or process which has one already fails, which the reactor would need to tell two sources
    apart, is not documented. *)
From stdpp Require Export base tactics numbers list fin_maps gmap sorting relations.
From Stdlib Require Export Lia ZArith.

(** * Notations of the development *)

Declare Scope aio_scope.
Delimit Scope aio_scope with aio.
#[global] Open Scope Z_scope.
#[global] Open Scope aio_scope.

(** * Effects: a state monad with panics and fuel

    A computation of the crate reads and writes a state of type [W]; it returns
    ([Ret]), panics ([Panic]), or is a loop of the model whose fuel is used up
    ([OutOfFuel], which no Rust program can observe and which the termination
    theorems exclude). *)
Inductive outcome (A : Type) : Type :=
  | Ret (a : A)
  | Panic
  | OutOfFuel.
Arguments Ret {A} a.
Arguments Panic {A}.
Arguments OutOfFuel {A}.

Definition M (W A : Type) : Type := W → outcome (A * W).

#[export] Instance M_ret {W} : MRet (M W) := λ A a w, Ret (a, w).

#[export] Instance M_bind {W} : MBind (M W) := λ A B f m w,
  match m w with
  | Ret (a, w') => f a w'
  | Panic => Panic
  | OutOfFuel => OutOfFuel
  end.

(** Reading, writing and running a function of the state. *)
Definition gets {W A} (f : W → A) : M W A := λ w, Ret (f w, w).
Definition modify {W} (f : W → W) : M W unit := λ w, Ret (tt, f w).
Definition panic {W A} : M W A := λ _, Panic.
Definition out_of_fuel {W A} : M W A := λ _, OutOfFuel.

(** [Option::unwrap] and the indexing operators: [None] panics. *)
Definition unwrap {W A} (o : option A) : M W A :=
  match o with Some a => mret a | None => panic end.

(** * [io::Result] and [Poll] *)

(** The kinds of [io::Error] the crate tells apart; every other kind is [Other]
    with the code of the error. *)
Inductive io_error : Type :=
  | WouldBlock
  | Interrupted
  | Other (code : Z).

#[export] Instance io_error_eq_dec : EqDecision io_error.
Proof. solve_decision. Defined.

Inductive io_result (A : Type) : Type :=
  | Ok (a : A)
  | Err (e : io_error).
Arguments Ok {A} a.
Arguments Err {A} e.

Inductive Poll (A : Type) : Type :=
  | Ready (a : A)
  | Pending.
Arguments Ready {A} a.
Arguments Pending {A}.

Definition is_ok {A} (r : io_result A) : bool :=
  match r with Ok _ => true | Err _ => false end.

(** [Result::ok] *)
Definition result_ok {A} (r : io_result A) : option A :=
  match r with Ok a => Some a | Err _ => None end.

(** * Total-correctness specifications

    [wp m Q w]: run from [w], the computation [m] returns (it neither panics nor
    runs out of fuel) and its result and final state satisfy [Q]. *)
Definition wp {W A} (m : M W A) (Q : A → W → Prop) (w : W) : Prop :=
  ∃ a w', m w = Ret (a, w') ∧ Q a w'.

Section wp.
Context {W : Type}.
Implicit Types w : W.

Lemma wp_ret {A} (a : A) (Q : A → W → Prop) w : Q a w → wp (mret a) Q w.
Proof. intros HQ. by exists a, w. Qed.

Lemma wp_bind {A B} (m : M W A) (f : A → M W B) (Q : B → W → Prop) w :
  wp m (λ a, wp (f a) Q) w → wp (m ≫= f) Q w.
Proof.
  intros (a & w' & Hm & (b & w'' & Hf & HQ)).
  exists b, w''. split; [|done]. unfold mbind, M_bind. by rewrite Hm.
Qed.

Lemma wp_mono {A} (m : M W A) (P Q : A → W → Prop) w :
  wp m P w → (∀ a w', P a w' → Q a w') → wp m Q w.
Proof. intros (a & w' & Hm & HP) Hi. exists a, w'. auto. Qed.

Lemma wp_gets {A} (f : W → A) (Q : A → W → Prop) w : Q (f w) w → wp (gets f) Q w.
Proof. intros HQ. by exists (f w), w. Qed.

Lemma wp_modify (f : W → W) (Q : unit → W → Prop) w : Q tt (f w) → wp (modify f) Q w.
Proof. intros HQ. by exists tt, (f w). Qed.

Lemma wp_unwrap {A} (o : option A) (a : A) (Q : A → W → Prop) w :
  o = Some a → Q a w → wp (unwrap o) Q w.
Proof. intros -> HQ. by apply wp_ret. Qed.

(** Specifications are about the one run there is. *)
Lemma wp_det {A} (m : M W A) (Q : A → W → Prop) w a w' :
  wp m Q w → m w = Ret (a, w') → Q a w'.
Proof. intros (b & w'' & Hm & HQ) Hr. rewrite Hm in Hr. by simplify_eq. Qed.

Lemma wp_and {A} (m : M W A) (P Q : A → W → Prop) w :
  wp m P w → wp m Q w → wp m (λ a w', P a w' ∧ Q a w') w.
Proof.
  intros (a & w' & Hm & HP) HQ. exists a, w'. split_and!; try done.
  by eapply wp_det.
Qed.

Lemma bind_ret_inv {A B} (m : M W A) (f : A → M W B) w b w'' :
  (m ≫= f) w = Ret (b, w'') → ∃ a w', m w = Ret (a, w') ∧ f a w' = Ret (b, w'').
Proof.
  unfold mbind, M_bind. destruct (m w) as [[a w']| |]; intros H; try done. eauto.
Qed.
End wp.

(** One step of symbolic execution of a monadic body. *)
Ltac wp_step :=
  match goal with
  | |- wp (mret _) _ _ => apply wp_ret
  | |- wp (mbind _ _) _ _ => apply wp_bind
  | |- wp (gets _) _ _ => apply wp_gets
  | |- wp (modify _) _ _ => apply wp_modify
  end.
Ltac wp_steps := repeat (wp_step; cbn beta iota).

(** Opens a hypothesis that a monadic body returned. *)
Ltac ret_inv H :=
  repeat match type of H with
  | (mbind _ _) _ = Ret _ =>
      let a := fresh "a" in let w := fresh "w" in let H1 := fresh "Hrun" in
      apply bind_ret_inv in H as (a & w & H1 & H)
  end.

(** * Lists *)

Lemma elem_of_drop_le {A} (x : A) (n m : nat) (l : list A) :
  (n ≤ m)%nat → x ∈ drop m l → x ∈ drop n l.
Proof.
  intros Hle Hx. rewrite <- (take_drop (m - n) (drop n l)), drop_drop.
  apply elem_of_app. right. by replace (n + (m - n))%nat with m by lia.
Qed.

(** * Machine words *)

(** [usize] is 64 bits wide; [AtomicUsize::fetch_add] and [wrapping_add] wrap. *)
Definition USIZE_MOD : Z := 2 ^ 64.
Definition usize_wrap (z : Z) : Z := z mod USIZE_MOD.

Lemma usize_wrap_small z : 0 ≤ z < USIZE_MOD → usize_wrap z = z.
Proof. apply Z.mod_small. Qed.

Lemma usize_wrap_range z : 0 ≤ usize_wrap z < USIZE_MOD.
Proof. by apply Z.mod_pos_bound. Qed.

Create HintDb aio discriminated.
#[export] Hint Resolve wp_ret wp_gets wp_modify usize_wrap_range : aio.
