(* ===== verification/Std.v ===== *)
(** The parts of the Rust standard library the crate computes with: [Duration]
    and [Instant] in nanoseconds (with the 64-bit seconds of the Unix clock as the
    only bound), task [Waker]s, and the [BTreeMap] of timers, an extensional map
    with the operations that depend on the order of its keys. *)
From S2P Require Import Prelude.

(** * Time *)

Definition NANOS_PER_SEC : Z := 1000000000.
Definition U64_MAX : Z := 2 ^ 64 - 1.
Definition I64_MAX : Z := 2 ^ 63 - 1.
Definition I64_MIN : Z := - 2 ^ 63.

(** A [Duration], in nanoseconds: [u64] seconds and a sub-second part. *)
Abbreviation Duration := Z (only parsing).
Definition duration_valid (d : Duration) : Prop := 0 ≤ d ∧ d / NANOS_PER_SEC ≤ U64_MAX.
Definition DURATION_MAX : Duration := U64_MAX * NANOS_PER_SEC + (NANOS_PER_SEC - 1).
Definition from_secs (s : Z) : Duration := s * NANOS_PER_SEC.
Definition from_micros (us : Z) : Duration := us * 1000.
Definition from_nanos (ns : Z) : Duration := ns.

(** An [Instant], in nanoseconds of the monotonic clock: [i64] seconds and a
    sub-second part. *)
Abbreviation Instant := Z (only parsing).
Definition tv_sec (t : Instant) : Z := t / NANOS_PER_SEC.
Definition instant_valid (t : Instant) : Prop := I64_MIN ≤ tv_sec t ≤ I64_MAX.

(** [Instant::checked_add] *)
Definition checked_add (t : Instant) (d : Duration) : option Instant :=
  if decide (tv_sec (t + d) ≤ I64_MAX) then Some (t + d) else None.

(** [Instant::saturating_duration_since] *)
Definition saturating_duration_since (later earlier : Instant) : Duration :=
  Z.max 0 (later - earlier).

(** * Wakers *)

(** A [Waker] is a data pointer and a vtable pointer; [clone] keeps both, and
    [will_wake] compares both. *)
Record Waker : Type := mkWaker { waker_data : Z; waker_vtable : Z }.

#[export] Instance Waker_eq_dec : EqDecision Waker.
Proof. solve_decision. Defined.

Definition will_wake (w1 w2 : Waker) : bool :=
  bool_decide (waker_data w1 = waker_data w2 ∧ waker_vtable w1 = waker_vtable w2).

(** * [BTreeMap<(Instant, usize), Waker>] *)

Definition TimerKey : Type := Instant * Z.

Definition key_le (k1 k2 : TimerKey) : Prop :=
  k1.1 < k2.1 ∨ (k1.1 = k2.1 ∧ k1.2 ≤ k2.2).
Definition key_lt (k1 k2 : TimerKey) : Prop :=
  k1.1 < k2.1 ∨ (k1.1 = k2.1 ∧ k1.2 < k2.2).

#[export] Instance key_le_dec : RelDecision key_le.
Proof. unfold RelDecision, key_le. intros. apply _. Defined.
#[export] Instance key_lt_dec : RelDecision key_lt.
Proof. unfold RelDecision, key_lt. intros. apply _. Defined.

Abbreviation TimerMap := (gmap (Z * Z) Waker).

Definition entry_le (e1 e2 : TimerKey * Waker) : Prop := key_le e1.1 e2.1.
#[export] Instance entry_le_dec : RelDecision entry_le.
Proof. unfold RelDecision, entry_le. intros. apply _. Defined.

(** Iteration, in ascending order of the keys. *)
Definition btree_iter (m : TimerMap) : list (TimerKey * Waker) :=
  merge_sort entry_le (map_to_list m).

(** [m.keys().next()] *)
Definition btree_first_key (m : TimerMap) : option TimerKey :=
  fst <$> head (btree_iter m).

(** [m.split_off(&k)]: what stays in [m] (the keys below [k]) and what is
    returned (the keys at or above [k]). *)
Definition btree_split_off (m : TimerMap) (k : TimerKey) : TimerMap * TimerMap :=
  (filter (λ e, key_lt e.1 k) m, filter (λ e, ¬ key_lt e.1 k) m).

(** * Facts about time *)

Lemma tv_sec_le t1 t2 : t1 ≤ t2 → tv_sec t1 ≤ tv_sec t2.
Proof. intros. by apply Z.div_le_mono. Qed.

Lemma checked_add_Some t d t' :
  checked_add t d = Some t' ↔ t' = t + d ∧ tv_sec (t + d) ≤ I64_MAX.
Proof. unfold checked_add. case_decide; naive_solver. Qed.

Lemma checked_add_None t d : checked_add t d = None ↔ I64_MAX < tv_sec (t + d).
Proof. unfold checked_add. case_decide; split; intros; try done; lia. Qed.

Lemma checked_add_valid t d t' :
  instant_valid t → 0 ≤ d → checked_add t d = Some t' → instant_valid t'.
Proof.
  intros [Hlo _] Hd [-> Hhi]%checked_add_Some. split; [|done].
  etrans; [exact Hlo|]. apply tv_sec_le. lia.
Qed.

(** Adding [Duration::MAX] overflows from every instant the clock can show, bar
    those of the very first of its 2^64 seconds. *)
Lemma checked_add_DURATION_MAX t :
  I64_MIN < tv_sec t → checked_add t DURATION_MAX = None.
Proof.
  intros Hlo. apply checked_add_None. unfold tv_sec in *.
  apply Z.lt_le_trans with ((I64_MAX + 1) * NANOS_PER_SEC / NANOS_PER_SEC).
  - rewrite Z.div_mul by done. lia.
  - apply Z.div_le_mono; [done|].
    assert ((I64_MIN + 1) * NANOS_PER_SEC ≤ t).
    { pose proof (Z.mul_div_le t NANOS_PER_SEC ltac:(done)).
      unfold NANOS_PER_SEC, I64_MIN in *. lia. }
    unfold I64_MAX, I64_MIN, DURATION_MAX, U64_MAX, NANOS_PER_SEC in *. lia.
Qed.

Lemma saturating_duration_since_nonneg t1 t2 : 0 ≤ saturating_duration_since t1 t2.
Proof. unfold saturating_duration_since. lia. Qed.

(** * Facts about wakers *)

Lemma will_wake_spec w1 w2 : will_wake w1 w2 = true ↔ w1 = w2.
Proof.
  unfold will_wake. rewrite bool_decide_eq_true.
  destruct w1, w2; naive_solver.
Qed.

Lemma will_wake_refl w : will_wake w w = true.
Proof. by apply will_wake_spec. Qed.

(** * Facts about the timer map *)

#[export] Instance entry_le_trans : Transitive entry_le.
Proof. intros [[] ?] [[] ?] [[] ?]. unfold entry_le, key_le. cbn. lia. Qed.
#[export] Instance entry_le_total : Total entry_le.
Proof. intros [[] ?] [[] ?]. unfold entry_le, key_le. cbn. lia. Qed.

Lemma key_lt_not_le k1 k2 : ¬ key_lt k1 k2 ↔ key_le k2 k1.
Proof. destruct k1, k2. unfold key_lt, key_le. cbn. lia. Qed.

Lemma btree_iter_perm m : btree_iter m ≡ₚ map_to_list m.
Proof. apply merge_sort_Permutation. Qed.

Lemma btree_iter_sorted m : StronglySorted entry_le (btree_iter m).
Proof. apply StronglySorted_merge_sort; apply _. Qed.

Lemma elem_of_btree_iter m k w : (k, w) ∈ btree_iter m ↔ m !! k = Some w.
Proof. by rewrite btree_iter_perm, elem_of_map_to_list. Qed.

Lemma btree_iter_nil m : btree_iter m = [] ↔ m = ∅.
Proof.
  split.
  - intros Hm. apply map_to_list_empty_iff, Permutation_nil_r.
    by rewrite <- btree_iter_perm, Hm.
  - by intros ->.
Qed.

Lemma btree_first_key_None m : btree_first_key m = None ↔ m = ∅.
Proof.
  unfold btree_first_key. rewrite <- (btree_iter_nil m).
  destruct (btree_iter m); naive_solver.
Qed.

(** The first key is the least one. *)
Lemma btree_first_key_Some m k :
  btree_first_key m = Some k → is_Some (m !! k) ∧ ∀ k', is_Some (m !! k') → key_le k k'.
Proof.
  unfold btree_first_key. intros Hk.
  destruct (btree_iter m) as [|[k0 w0] l] eqn:Hl; simplify_eq/=.
  pose proof (btree_iter_sorted m) as Hs. rewrite Hl in Hs.
  apply StronglySorted_cons in Hs as [Hall _]. split.
  - exists w0. apply elem_of_btree_iter. rewrite Hl. by left.
  - intros k' [w' Hw']. apply elem_of_btree_iter in Hw'. rewrite Hl in Hw'.
    apply elem_of_cons in Hw' as [[= -> ->]|Hin].
    + unfold key_le. lia.
    + rewrite Forall_forall in Hall. by apply (Hall (k', w')).
Qed.

(** Splitting at one nanosecond past [now], with the ID 0, separates the timers
    due at [now] or before from the later ones, whatever their IDs. *)
Lemma split_key_lt (now : Instant) (k : TimerKey) :
  0 ≤ k.2 → key_lt k (now + from_nanos 1, 0) ↔ k.1 ≤ now.
Proof. destruct k as [t i]. unfold key_lt, from_nanos. cbn. lia. Qed.

#[export] Hint Resolve saturating_duration_since_nonneg will_wake_refl : aio.
