(* ===== verification/Deps.v ===== *)
(** The third-party packages the crate calls, as interfaces: for each one a class
    of its operations, which the definitions of the development take as an
    argument, and a class of laws, the documented behaviour the theorems use.

    - [slab::Slab]: [SlabOps], [SlabLaws];
    - [concurrent_queue::ConcurrentQueue] (bounded): [QueueOps], [QueueLaws];
    - [polling::Poller] and the operating system's clock: [EnvOps], [ClockLaws],
      [NotifyLaws]; registrations with the poller: [RegOps], [RegLaws];
      other calls: [CallOps], [CallLaws];
    - handles and sockets: [HandleOps], [ReadWriteOps], [TcpOps], [UdpOps], [UnixNetOps],
      [FdOps], [SocketOps], [SocketLaws];
    - [futures_lite::stream::unfold]: [UnfoldOps], [UnfoldLaws];
    - [parking]: [ParkerOps], [ParkerLaws].

    Both sides of an interface are separate so that definitions do not depend on
    laws. Concrete instances live in [RefDeps]. *)
From S2P Require Import Prelude Std.

(** * [slab::Slab] *)

Class SlabOps (S : Type → Type) : Type := {
  slab_new : ∀ {A}, S A;
  slab_vacant_key : ∀ {A}, S A → Z;             (* [vacant_entry().key()] *)
  slab_insert : ∀ {A}, S A → A → Z * S A;
  slab_get : ∀ {A}, S A → Z → option A;
  slab_remove : ∀ {A}, S A → Z → option (A * S A); (* [None]: panics *)
  slab_write : ∀ {A}, S A → Z → A → S A;        (* through a [&mut] to an entry *)
  slab_iter : ∀ {A}, S A → list (Z * A);
}.

Definition slab_contains {S} `{SlabOps S} {A} (s : S A) (k : Z) : bool :=
  match slab_get s k with Some _ => true | None => false end.

(** [s[k] = a]: indexing a vacant key panics. *)
Definition slab_index_write {S} `{SlabOps S} {A} (s : S A) (k : Z) (a : A) : option (S A) :=
  if slab_contains s k then Some (slab_write s k a) else None.

(** A slab is a finite map from keys to entries: [insert] uses the key
    [vacant_entry] announces, which is not in use, and iteration visits each entry
    once, in an order that is not relied on. *)
Class SlabLaws (S : Type → Type) `{SlabOps S} : Type := {
  slab_map : ∀ {A}, S A → gmap Z A;
  slab_map_new : ∀ {A}, slab_map (slab_new : S A) = ∅;
  slab_vacant : ∀ {A} (s : S A), slab_map s !! slab_vacant_key s = None;
  slab_insert_key : ∀ {A} (s : S A) a, (slab_insert s a).1 = slab_vacant_key s;
  slab_map_insert : ∀ {A} (s : S A) a,
    slab_map (slab_insert s a).2 = <[slab_vacant_key s := a]> (slab_map s);
  slab_get_map : ∀ {A} (s : S A) k, slab_get s k = slab_map s !! k;
  slab_remove_None : ∀ {A} (s : S A) k, slab_map s !! k = None → slab_remove s k = None;
  slab_remove_Some : ∀ {A} (s : S A) k a, slab_map s !! k = Some a →
    ∃ s', slab_remove s k = Some (a, s') ∧ slab_map s' = delete k (slab_map s);
  slab_map_write : ∀ {A} (s : S A) k a,
    slab_map (slab_write s k a) = alter (λ _, a) k (slab_map s);
  slab_iter_perm : ∀ {A} (s : S A), slab_iter s ≡ₚ map_to_list (slab_map s);
}.

(** * [concurrent_queue::ConcurrentQueue], bounded *)

Class QueueOps (Q : Type → Type) : Type := {
  cq_bounded : ∀ {A}, Z → Q A;
  cq_push : ∀ {A}, Q A → A → option (Q A);      (* [None]: full *)
  cq_pop : ∀ {A}, Q A → option (A * Q A);       (* [None]: empty *)
  cq_capacity : ∀ {A}, Q A → option Z;
}.

(** A bounded queue is a list, first in first out, that refuses to grow beyond its
    capacity. *)
Class QueueLaws (Q : Type → Type) `{QueueOps Q} : Type := {
  cq_list : ∀ {A}, Q A → list A;
  cq_bounded_list : ∀ {A} c, cq_list (cq_bounded c : Q A) = [];
  cq_bounded_capacity : ∀ {A} c, 0 < c → cq_capacity (cq_bounded c : Q A) = Some c;
  cq_push_full : ∀ {A} (q : Q A) a c, cq_capacity q = Some c →
    c ≤ Z.of_nat (length (cq_list q)) → cq_push q a = None;
  cq_push_room : ∀ {A} (q : Q A) a c, cq_capacity q = Some c →
    Z.of_nat (length (cq_list q)) < c → ∃ q', cq_push q a = Some q' ∧
      cq_list q' = cq_list q ++ [a] ∧ cq_capacity q' = Some c;
  cq_pop_nil : ∀ {A} (q : Q A), cq_list q = [] → cq_pop q = None;
  cq_pop_cons : ∀ {A} (q : Q A) a l, cq_list q = a :: l →
    ∃ q', cq_pop q = Some (a, q') ∧ cq_list q' = l ∧ cq_capacity q' = cq_capacity q;
}.

(** * [polling]: events, and the poller with the clock of the operating system *)

Record Event : Type := mkEvent { ev_key : Z; ev_readable : bool; ev_writable : bool }.

#[export] Instance Event_eq_dec : EqDecision Event.
Proof. solve_decision. Defined.

(** [Event::none] *)
Definition Event_none (key : Z) : Event := mkEvent key false false.

(** [wait] returns the number of events and the contents of the [Events] buffer
    it was given, which the caller has cleared. *)
Class EnvOps (E : Type) : Type := {
  env_now : E → Instant * E;
  env_wait : E → option Duration → io_result (Z * list Event) * E;
  env_notify : E → io_result unit * E;
}.

(** The clock is monotonic; it counts from the start of the system, so it is
    nonnegative, and it is more than a second away from its last instant. *)
Class ClockLaws (E : Type) `{EnvOps E} : Type := {
  env_time : E → Instant;
  env_time_range : ∀ e, 0 ≤ tv_sec (env_time e) < I64_MAX;
  env_now_spec : ∀ e t e', env_now e = (t, e') → t = env_time e' ∧ env_time e ≤ t;
  env_wait_time : ∀ e d, env_time e ≤ env_time (env_wait e d).2;
  env_notify_time : ∀ e, env_time e ≤ env_time (env_notify e).2;
}.

(** Waking a thread that waits on the poller does not fail; the crate relies on it
    with an [expect]. *)
Class NotifyLaws (E : Type) `{EnvOps E} : Prop :=
  env_notify_ok : ∀ e, (env_notify e).1 = Ok tt.

(** * Registrations of I/O sources

    The interface between the reactor and the platform's [Registration]: adding,
    modifying and deleting an I/O source of the poller. *)
Class RegOps (R E : Type) : Type := {
  reg_add : R → E → Z → io_result unit * E;
  reg_modify : R → E → Event → io_result unit * E;
  reg_delete : R → E → io_result unit * E;
}.

(** [Registration::new], on the raw descriptor or socket it borrows. *)
Class RegNew (R : Type) : Type := registration_new : Z → R.

(** What the poller knows of a registration: the interest last asked for, with its
    key. [wait] is one-shot: it may reset the flags of the interest of the sources it
    reports, which stay registered, and keeps the interest of all others. *)
Class RegLaws (R E : Type) `{EnvOps E, RegOps R E} : Type := {
  interest : E → R → option Event;
  reg_add_ok : ∀ r e k e', reg_add r e k = (Ok tt, e') →
    interest e r = None ∧ (∃ ev, interest e' r = Some ev ∧ ev_key ev = k) ∧
    (∀ r', r' ≠ r → interest e' r' = interest e r');
  reg_add_err : ∀ r e k x e', reg_add r e k = (Err x, e') →
    ∀ r', interest e' r' = interest e r';
  reg_modify_ok : ∀ r e ev e', reg_modify r e ev = (Ok tt, e') →
    (∃ ev', interest e' r = Some ev' ∧ ev_key ev' = ev_key ev ∧
       (ev_readable ev = true → ev_readable ev' = true) ∧
       (ev_writable ev = true → ev_writable ev' = true)) ∧
    (∀ r', r' ≠ r → interest e' r' = interest e r');
  reg_modify_err : ∀ r e ev x e', reg_modify r e ev = (Err x, e') →
    ∀ r', interest e' r' = interest e r';
  reg_delete_others : ∀ r e res e', reg_delete r e = (res, e') →
    ∀ r', r' ≠ r → interest e' r' = interest e r';
  env_now_interest : ∀ e r, interest (env_now e).2 r = interest e r;
  env_notify_interest : ∀ e r, interest (env_notify e).2 r = interest e r;
  env_wait_count : ∀ e d n evs e', env_wait e d = (Ok (n, evs), e') →
    n = Z.of_nat (length evs);
  env_wait_ok : ∀ e d n evs e', env_wait e d = (Ok (n, evs), e') →
    ∀ r ev, interest e r = Some ev → Forall (λ ev', ev_key ev' ≠ ev_key ev) evs →
    interest e' r = Some ev;
  env_wait_keeps : ∀ e d r ev, interest e r = Some ev →
    ∃ ev', interest (env_wait e d).2 r = Some ev' ∧ ev_key ev' = ev_key ev;
  env_wait_err : ∀ e d x e', env_wait e d = (Err x, e') →
    ∀ r, interest e' r = interest e r;
}.

(** The other calls of the operating system tasks make, and what happens outside: they
    change the environment, but not what the poller knows, except that a call that closes
    a handle may make the poller forget its registration. *)
Class CallOps (R E : Type) : Type := {
  Call : Type;
  call_effect : Call → E → E;
  call_closes : Call → option R;
}.
Arguments Call R E {_}.

Class CallLaws (R E : Type) `{RegLaws R E, CallOps R E} : Prop :=
  call_interest : ∀ (c : Call R E) e (r : R), call_closes c ≠ Some r →
    interest (call_effect c e) r = interest e r.

(** None of these calls turns the clock back. *)
Class MonotoneLaws (R E : Type) `{ClockLaws E, RegOps R E, CallOps R E} : Prop := {
  reg_add_time : ∀ (r : R) e k, env_time e ≤ env_time (reg_add r e k).2;
  reg_modify_time : ∀ (r : R) e ev, env_time e ≤ env_time (reg_modify r e ev).2;
  reg_delete_time : ∀ (r : R) e, env_time e ≤ env_time (reg_delete r e).2;
  call_time : ∀ (c : Call R E) e, env_time e ≤ env_time (call_effect c e);
}.

(** * I/O handles

    The traits a handle of type [T] implements: [AsFd] (or [AsSocket]), [Drop], which
    closes it, and [Read] and [Write], of the handle itself and of a reference to it.
    A call of [read] fills the buffer it is given. *)
Class HandleOps (T E : Type) : Type := {
  as_raw : T → Z;
  close : T → E → E;
}.

Class ReadWriteOps (T E : Type) : Type := {
  rw_read : T → list Z → E → (io_result Z * (T * list Z)) * E;
  rw_read_vectored : T → list (list Z) → E → (io_result Z * (T * list (list Z))) * E;
  rw_write : T → list Z → E → (io_result Z * (T * list Z)) * E;
  rw_write_vectored : T → list (list Z) → E → (io_result Z * (T * list (list Z))) * E;
  rw_flush : T → unit → E → (io_result unit * (T * unit)) * E;
}.

(** [Read] and [Write] of a reference [&T]. *)
Class RefReadWriteOps (T E : Type) : Type := {
  ref_read : T → list Z → E → (io_result Z * list Z) * E;
  ref_read_vectored : T → list (list Z) → E → (io_result Z * list (list Z)) * E;
  ref_write : T → list Z → E → (io_result Z * list Z) * E;
  ref_write_vectored : T → list (list Z) → E → (io_result Z * list (list Z)) * E;
  ref_flush : T → unit → E → (io_result unit * unit) * E;
}.

(** [std::net::SocketAddr] *)
Inductive SocketAddr : Type :=
  | V4 (ip : list Z) (port : Z)
  | V6 (ip : list Z) (port flowinfo scope_id : Z).

(** [std::net] and [std::os::unix::net]: the calls the crate makes on listeners [L],
    streams [T] and datagram sockets [D]. A receiving call fills the buffer it is given.
    A path is its bytes. *)
Class TcpOps (L T E : Type) : Type := {
  tcp_bind : SocketAddr → E → io_result L * E;
  tcp_accept : L → E → io_result (T * SocketAddr) * E;
  tcp_from : Z → T;                              (* [From<OwnedFd>] *)
  tcp_take_error : T → E → io_result (option io_error) * E;
  tcp_peek : T → list Z → E → (io_result Z * list Z) * E;
}.

Class UdpOps (D E : Type) : Type := {
  udp_bind : SocketAddr → E → io_result D * E;
  udp_recv_from : D → list Z → E → (io_result (Z * SocketAddr) * list Z) * E;
  udp_peek_from : D → list Z → E → (io_result (Z * SocketAddr) * list Z) * E;
  udp_send_to : D → list Z → SocketAddr → E → io_result Z * E;
  udp_recv : D → list Z → E → (io_result Z * list Z) * E;
  udp_peek : D → list Z → E → (io_result Z * list Z) * E;
  udp_send : D → list Z → E → io_result Z * E;
}.

Class UnixNetOps (L T D UnixSocketAddr E : Type) : Type := {
  uds_bind : list Z → E → io_result L * E;
  uds_accept : L → E → io_result (T * UnixSocketAddr) * E;
  uds_from : Z → T;                              (* [From<OwnedFd>] *)
  uds_peer_addr : T → E → io_result UnixSocketAddr * E;
  uds_pair : E → io_result (T * T) * E;
  udg_bind : list Z → E → io_result D * E;
  udg_unbound : E → io_result D * E;
  udg_pair : E → io_result (D * D) * E;
  udg_recv_from : D → list Z → E → (io_result (Z * UnixSocketAddr) * list Z) * E;
  udg_send_to : D → list Z → list Z → E → io_result Z * E;
  udg_recv : D → list Z → E → (io_result Z * list Z) * E;
  udg_send : D → list Z → E → io_result Z * E;
}.

(** [rustix]: the flags of a descriptor. *)
Class FdOps (E : Type) : Type := {
  ioctl_fionbio : Z → bool → E → io_result unit * E;
  fcntl_getfl : Z → E → io_result Z * E;
  fcntl_setfl : Z → Z → E → io_result unit * E;
  fcntl_getfd : Z → E → io_result Z * E;
  fcntl_setfd : Z → Z → E → io_result unit * E;
  OFlags_NONBLOCK : Z;
  FdFlags_CLOEXEC : Z;
}.

(** [rustix]: sockets. [Errno] names the errors the crate tells apart. The descriptor a
    call returns is an [OwnedFd]: dropping it closes it. *)
Inductive Errno : Type :=
  | INPROGRESS
  | AGAIN
  | WOULDBLOCK
  | Errno_other (code : Z).

Inductive AddressFamily : Type := AF_INET | AF_INET6 | AF_UNIX.

Class SocketOps (E Addr : Type) : Type := {
  (* [socket_with(domain, STREAM, flags, protocol)], with the flags CLOEXEC and NONBLOCK *)
  socket_with : AddressFamily → bool → bool → option Z → E → io_result Z * E;
  set_socket_nosigpipe : Z → E → io_result unit * E;
  set_handle_inherit : Z → E → io_result unit * E;
  socket_connect : Z → Addr → E → option Errno * E;
  errno_into : Errno → io_error;                (* [io::Error::from] *)
  close_fd : Z → E → E;
  as_any : SocketAddr → Addr;                   (* [SocketAddrArg::as_any] *)
  ipproto_TCP : Z;
  (* [static INIT: Once] and [wsa_startup] *)
  init_done : E → bool;
  set_init_done : E → E;
  wsa_startup : E → io_result unit * E;
}.

(** [SocketAddrUnix]: both constructors can refuse the name. *)
Class UnixAddrOps (Addr : Type) : Type := {
  unix_addr_new : list Z → io_result Addr;
  unix_addr_new_abstract_name : list Z → io_result Addr;
}.

(** The descriptors that are open: [socket] opens one, dropping it closes it, and no
    other call opens or closes any. *)
Class SocketLaws (E Addr : Type) `{SocketOps E Addr, FdOps E} : Type := {
  open_fds : E → gset Z;
  socket_with_ok : ∀ d c n p e fd e', socket_with d c n p e = (Ok fd, e') →
    fd ∉ open_fds e ∧ open_fds e' = {[ fd ]} ∪ open_fds e;
  socket_with_err : ∀ d c n p e x e', socket_with d c n p e = (Err x, e') →
    open_fds e' = open_fds e;
  close_fd_open : ∀ fd e, open_fds (close_fd fd e) = open_fds e ∖ {[ fd ]};
  nosigpipe_open : ∀ fd e, open_fds (set_socket_nosigpipe fd e).2 = open_fds e;
  inherit_open : ∀ fd e, open_fds (set_handle_inherit fd e).2 = open_fds e;
  connect_open : ∀ fd a e, open_fds (socket_connect fd a e).2 = open_fds e;
  fionbio_open : ∀ fd b e, open_fds (ioctl_fionbio fd b e).2 = open_fds e;
  getfl_open : ∀ fd e, open_fds (fcntl_getfl fd e).2 = open_fds e;
  setfl_open : ∀ fd f e, open_fds (fcntl_setfl fd f e).2 = open_fds e;
  getfd_open : ∀ fd e, open_fds (fcntl_getfd fd e).2 = open_fds e;
  setfd_open : ∀ fd f e, open_fds (fcntl_setfd fd f e).2 = open_fds e;
  init_open : ∀ e, open_fds (set_init_done e) = open_fds e;
  wsa_open : ∀ e, open_fds (wsa_startup e).2 = open_fds e;
}.

(** * [futures_lite::stream::unfold]

    A stream made of a seed [s] and a closure [mk] that turns a seed into a future; the
    future is polled by [poll], and answers with an item and the next seed, or with the
    end of the stream. *)
Class UnfoldOps (U : Type → Type → Type) : Type := {
  unfold : ∀ {St Fut}, St → U St Fut;
  unfold_next : ∀ {W Item St Fut}, (St → Fut) →
    (Fut → Waker → M W (Poll (option (Item * St)) * Fut)) →
    U St Fut → Waker → M W (Poll (option Item) * U St Fut);
}.

(** A stream has a seed, or the future made of it, or it has ended. *)
Inductive Unfolding {St Fut : Type} : Type :=
  | Seed (s : St)
  | Running (f : Fut)
  | Ended.
Arguments Unfolding : clear implicits.

Definition unfold_future {St Fut} (mk : St → Fut) (v : Unfolding St Fut) : option Fut :=
  match v with Seed s => Some (mk s) | Running f => Some f | Ended => None end.

(** What the answer of the future makes of the stream, and the item it yields. *)
Definition unfold_after {Item St Fut} (r : Poll (option (Item * St))) (f : Fut)
    : Unfolding St Fut :=
  match r with
  | Pending => Running f
  | Prelude.Ready (Some (_, s)) => Seed s
  | Prelude.Ready None => Ended
  end.
Definition unfold_item {Item St} (r : Poll (option (Item * St))) : Poll (option Item) :=
  match r with
  | Pending => Pending
  | Prelude.Ready o => Prelude.Ready (fst <$> o)
  end.

(** A poll of the stream polls the future, unless the stream has ended. *)
Class UnfoldLaws (U : Type → Type → Type) `{UnfoldOps U} : Type := {
  unfold_view : ∀ {St Fut}, U St Fut → Unfolding St Fut;
  unfold_new_view : ∀ {St Fut} (s : St), unfold_view (unfold s : U St Fut) = Seed s;
  unfold_next_spec : ∀ {W Item St Fut} (mk : St → Fut)
    (poll : Fut → Waker → M W (Poll (option (Item * St)) * Fut)) (u : U St Fut) f cx w,
    unfold_future mk (unfold_view u) = Some f →
    match poll f cx w with
    | Ret ((r, f'), w') => ∃ u', unfold_view u' = unfold_after r f' ∧
        unfold_next mk poll u cx w = Ret ((unfold_item r, u'), w')
    | Panic => unfold_next mk poll u cx w = Panic
    | OutOfFuel => unfold_next mk poll u cx w = OutOfFuel
    end;
}.

(** * [parking]

    [unpark] and [park_timeout] with a duration of zero, which does not block; both say
    what they found. [park] blocks until [park_timeout] of zero would return [true]. *)
Class ParkerOps (P : Type) : Type := {
  pk_new : P;
  pk_unpark : P → bool * P;
  pk_park_zero : P → bool * P;
}.

(** A parker is a token: [unpark] puts it there, and tells whether it was missing;
    parking takes it. *)
Class ParkerLaws (P : Type) `{ParkerOps P} : Type := {
  pk_token : P → bool;
  pk_token_new : pk_token pk_new = false;
  pk_unpark_result : ∀ p, (pk_unpark p).1 = negb (pk_token p);
  pk_unpark_token : ∀ p, pk_token (pk_unpark p).2 = true;
  pk_park_result : ∀ p, (pk_park_zero p).1 = pk_token p;
  pk_park_token : ∀ p, pk_token (pk_park_zero p).2 = false;
}.
