(* ===== verification/Registration.v ===== *)
(** The three implementations of [Registration] (src/src/reactor/unix.rs,
    kqueue.rs and windows.rs) over the operations of [polling::Poller] each uses,
    and the laws of the interface [RegOps] they are used through. *)
From S2P Require Import Prelude Std Deps.

(** * The operations of [polling::Poller] *)

(** [PollMode] *)
Inductive PollMode : Type := Oneshot | Level | Edge | EdgeOneshot.

(** Adding, modifying and deleting a file descriptor or socket. *)
Class PollerOps (E : Type) : Type := {
  poller_add : Z → E → Event → io_result unit * E;
  poller_modify : Z → E → Event → io_result unit * E;
  poller_delete : Z → E → io_result unit * E;
}.

(** [PollerKqueueExt]: filters on signals and on the exit of processes. *)
Inductive Filter : Type :=
  | PollSignal (signal : Z)
  | PollProcessExit (pid : Z).

Class PollerKqueueOps (E : Type) : Type := {
  poller_add_filter : Filter → E → Z → PollMode → io_result unit * E;
  poller_modify_filter : Filter → E → Z → PollMode → io_result unit * E;
  poller_delete_filter : Filter → E → io_result unit * E;
}.

(** [PollerIocpExt]: waitable handles. *)
Class PollerIocpOps (E : Type) : Type := {
  poller_add_waitable : Z → E → Event → PollMode → io_result unit * E;
  poller_modify_waitable : Z → E → Event → PollMode → io_result unit * E;
  poller_remove_waitable : Z → E → io_result unit * E;
}.

(** * unix.rs *)
Module Unix.
Section unix.
  Context {E : Type} `{PollerOps E}.

Record Registration : Type := mkRegistration { raw : Z }.
#[global] Instance Registration_eq_dec : EqDecision Registration.
Proof. solve_decision. Defined.

Definition new (fd : Z) : Registration := mkRegistration fd.

Definition add (r : Registration) (poller : E) (token : Z) : io_result unit * E :=
  poller_add (raw r) poller (Event_none token).

Definition modify (r : Registration) (poller : E) (interest : Event)
    : io_result unit * E :=
  poller_modify (raw r) poller interest.

Definition delete (r : Registration) (poller : E) : io_result unit * E :=
  poller_delete (raw r) poller.

#[global] Instance reg_ops : RegOps Registration E :=
  {| reg_add := add; reg_modify := modify; reg_delete := delete |}.

#[global] Instance reg_new : RegNew Registration := new.
End unix.
End Unix.

(** * kqueue.rs *)
Module Kqueue.
Section kqueue.
  Context {E : Type} `{PollerOps E, PollerKqueueOps E}.

Inductive Registration : Type :=
  | Fd (raw : Z)
  | Signal (signal : Z)
  | Process (pid : Z).
#[global] Instance Registration_eq_dec : EqDecision Registration.
Proof. solve_decision. Defined.

Definition new (fd : Z) : Registration := Fd fd.

Definition add (r : Registration) (poller : E) (token : Z) : io_result unit * E :=
  match r with
  | Fd raw => poller_add raw poller (Event_none token)
  | Signal signal => poller_add_filter (PollSignal signal) poller token Oneshot
  | Process pid => poller_add_filter (PollProcessExit pid) poller token Oneshot
  end.

Definition modify (r : Registration) (poller : E) (interest : Event)
    : io_result unit * E :=
  match r with
  | Fd raw => poller_modify raw poller interest
  | Signal signal =>
      poller_modify_filter (PollSignal signal) poller (ev_key interest) Oneshot
  | Process pid =>
      poller_modify_filter (PollProcessExit pid) poller (ev_key interest) Oneshot
  end.

Definition delete (r : Registration) (poller : E) : io_result unit * E :=
  match r with
  | Fd raw => poller_delete raw poller
  | Signal signal => poller_delete_filter (PollSignal signal) poller
  | Process pid => poller_delete_filter (PollProcessExit pid) poller
  end.

#[global] Instance reg_ops : RegOps Registration E :=
  {| reg_add := add; reg_modify := modify; reg_delete := delete |}.

#[global] Instance reg_new : RegNew Registration := new.
End kqueue.
End Kqueue.

(** * windows.rs *)
Module Windows.
Section windows.
  Context {E : Type} `{PollerOps E, PollerIocpOps E}.

Inductive Registration : Type :=
  | Socket (raw : Z)
  | Handle (handle : Z).
#[global] Instance Registration_eq_dec : EqDecision Registration.
Proof. solve_decision. Defined.

Definition new (socket : Z) : Registration := Socket socket.
Definition new_waitable (handle : Z) : Registration := Handle handle.

Definition add (r : Registration) (poller : E) (token : Z) : io_result unit * E :=
  match r with
  | Socket raw => poller_add raw poller (Event_none token)
  | Handle handle => poller_add_waitable handle poller (Event_none token) Oneshot
  end.

Definition modify (r : Registration) (poller : E) (interest : Event)
    : io_result unit * E :=
  match r with
  | Socket raw => poller_modify raw poller interest
  | Handle handle => poller_modify_waitable handle poller interest Oneshot
  end.

Definition delete (r : Registration) (poller : E) : io_result unit * E :=
  match r with
  | Socket raw => poller_delete raw poller
  | Handle handle => poller_remove_waitable handle poller
  end.

#[global] Instance reg_ops : RegOps Registration E :=
  {| reg_add := add; reg_modify := modify; reg_delete := delete |}.

#[global] Instance reg_new : RegNew Registration := new.
End windows.
End Windows.

(** * Laws *)

(** The documented behaviour of [polling::Poller]: a file descriptor is added once,
    with an interest [modify] replaces; failures change nothing; [wait] is one-shot,
    it may reset the interest of what it reports and keeps that of the rest. *)
Class PollerLaws (E : Type) `{EnvOps E, PollerOps E} : Type := {
  fd_interest : E → Z → option Event;
  poller_add_ok : ∀ fd e ev e', poller_add fd e ev = (Ok tt, e') →
    fd_interest e fd = None ∧ fd_interest e' fd = Some ev ∧
    (∀ fd', fd' ≠ fd → fd_interest e' fd' = fd_interest e fd');
  poller_add_err : ∀ fd e ev x e', poller_add fd e ev = (Err x, e') →
    ∀ fd', fd_interest e' fd' = fd_interest e fd';
  poller_modify_ok : ∀ fd e ev e', poller_modify fd e ev = (Ok tt, e') →
    fd_interest e' fd = Some ev ∧
    (∀ fd', fd' ≠ fd → fd_interest e' fd' = fd_interest e fd');
  poller_modify_err : ∀ fd e ev x e', poller_modify fd e ev = (Err x, e') →
    ∀ fd', fd_interest e' fd' = fd_interest e fd';
  poller_delete_others : ∀ fd e res e', poller_delete fd e = (res, e') →
    ∀ fd', fd' ≠ fd → fd_interest e' fd' = fd_interest e fd';
  now_interest : ∀ e fd, fd_interest (env_now e).2 fd = fd_interest e fd;
  notify_interest : ∀ e fd, fd_interest (env_notify e).2 fd = fd_interest e fd;
  wait_count : ∀ e d n evs e', env_wait e d = (Ok (n, evs), e') →
    n = Z.of_nat (length evs);
  wait_ok : ∀ e d n evs e', env_wait e d = (Ok (n, evs), e') →
    ∀ fd ev, fd_interest e fd = Some ev → Forall (λ ev', ev_key ev' ≠ ev_key ev) evs →
    fd_interest e' fd = Some ev;
  wait_keeps : ∀ e d fd ev, fd_interest e fd = Some ev →
    ∃ ev', fd_interest (env_wait e d).2 fd = Some ev' ∧ ev_key ev' = ev_key ev;
  wait_err : ∀ e d x e', env_wait e d = (Err x, e') →
    ∀ fd, fd_interest e' fd = fd_interest e fd;
}.

(** The Unix registration keeps what the reactor relies on. *)
#[export] Instance unix_reg_laws {E} `{PollerLaws E} : RegLaws Unix.Registration E.
Proof.
  refine {| interest := λ e r, fd_interest e (Unix.raw r) |}.
  - intros [fd] e k e' (Hn & Hs & Ho)%poller_add_ok. split_and!; [done|by eexists|].
    intros [fd'] Hne. apply Ho. cbn. congruence.
  - intros [fd] e k x e' Hc r'. exact (poller_add_err _ _ _ _ _ Hc _).
  - intros [fd] e ev e' [Hs Ho]%poller_modify_ok. split; [by eauto 10|].
    intros [fd'] Hne. apply Ho. cbn. congruence.
  - intros [fd] e ev x e' Hc r'. exact (poller_modify_err _ _ _ _ _ Hc _).
  - intros [fd] e res e' Hd [fd'] Hne. eapply poller_delete_others; [exact Hd|].
    cbn. congruence.
  - intros. apply now_interest.
  - intros. apply notify_interest.
  - apply wait_count.
  - intros e d n evs e' Hw r ev. exact (wait_ok _ _ _ _ _ Hw _ _).
  - intros e d r ev. apply wait_keeps.
  - intros e d x e' Hw r. exact (wait_err _ _ _ _ Hw _).
Defined.

(** The documented behaviour of [PollerIocpExt]: waitable handles are registered like file
    descriptors, in a table of their own. *)
Class PollerIocpLaws (E : Type) `{PollerLaws E, PollerIocpOps E} : Type := {
  waitable_interest : E → Z → option Event;
  add_waitable_ok : ∀ h e ev m e', poller_add_waitable h e ev m = (Ok tt, e') →
    waitable_interest e h = None ∧ waitable_interest e' h = Some ev ∧
    (∀ h', h' ≠ h → waitable_interest e' h' = waitable_interest e h');
  add_waitable_err : ∀ h e ev m x e', poller_add_waitable h e ev m = (Err x, e') →
    ∀ h', waitable_interest e' h' = waitable_interest e h';
  modify_waitable_ok : ∀ h e ev m e', poller_modify_waitable h e ev m = (Ok tt, e') →
    waitable_interest e' h = Some ev ∧
    (∀ h', h' ≠ h → waitable_interest e' h' = waitable_interest e h');
  modify_waitable_err : ∀ h e ev m x e', poller_modify_waitable h e ev m = (Err x, e') →
    ∀ h', waitable_interest e' h' = waitable_interest e h';
  remove_waitable_others : ∀ h e res e', poller_remove_waitable h e = (res, e') →
    ∀ h', h' ≠ h → waitable_interest e' h' = waitable_interest e h';
  add_waitable_fds : ∀ h e ev m fd,
    fd_interest (poller_add_waitable h e ev m).2 fd = fd_interest e fd;
  modify_waitable_fds : ∀ h e ev m fd,
    fd_interest (poller_modify_waitable h e ev m).2 fd = fd_interest e fd;
  remove_waitable_fds : ∀ h e fd,
    fd_interest (poller_remove_waitable h e).2 fd = fd_interest e fd;
  add_waitables : ∀ fd e ev h,
    waitable_interest (poller_add fd e ev).2 h = waitable_interest e h;
  modify_waitables : ∀ fd e ev h,
    waitable_interest (poller_modify fd e ev).2 h = waitable_interest e h;
  delete_waitables : ∀ fd e h,
    waitable_interest (poller_delete fd e).2 h = waitable_interest e h;
  now_waitables : ∀ e h, waitable_interest (env_now e).2 h = waitable_interest e h;
  notify_waitables : ∀ e h, waitable_interest (env_notify e).2 h = waitable_interest e h;
  wait_waitables : ∀ e d n evs e', env_wait e d = (Ok (n, evs), e') →
    ∀ h ev, waitable_interest e h = Some ev →
    Forall (λ ev', ev_key ev' ≠ ev_key ev) evs → waitable_interest e' h = Some ev;
  wait_waitables_keep : ∀ e d h ev, waitable_interest e h = Some ev →
    ∃ ev', waitable_interest (env_wait e d).2 h = Some ev' ∧ ev_key ev' = ev_key ev;
  wait_waitables_err : ∀ e d x e', env_wait e d = (Err x, e') →
    ∀ h, waitable_interest e' h = waitable_interest e h;
}.

(** So does that of Windows: what is proved of the reactor holds for sockets and waitable
    handles as well. *)
Section windows_laws.
Context {E : Type} `{PollerIocpLaws E}.

Definition windows_interest (e : E) (r : Windows.Registration) : option Event :=
  match r with
  | Windows.Socket fd => fd_interest e fd
  | Windows.Handle h => waitable_interest e h
  end.

Lemma windows_add_ok r e k e' :
  Windows.add r e k = (Ok tt, e') →
  windows_interest e r = None ∧ windows_interest e' r = Some (Event_none k) ∧
  ∀ r', r' ≠ r → windows_interest e' r' = windows_interest e r'.
Proof.
  destruct r as [fd|h]; cbn; intros Hadd.
  - pose proof (add_waitables fd e (Event_none k)) as Hw. rewrite Hadd in Hw. cbn in Hw.
    apply poller_add_ok in Hadd as (Hn & Hs & Ho). split_and!; [done|done|].
    intros [fd'|h'] Hne; cbn; [apply Ho; congruence|apply Hw].
  - pose proof (add_waitable_fds h e (Event_none k) Oneshot) as Hf. rewrite Hadd in Hf.
    cbn in Hf. apply add_waitable_ok in Hadd as (Hn & Hs & Ho). split_and!; [done|done|].
    intros [fd'|h'] Hne; cbn; [apply Hf|apply Ho; congruence].
Qed.

Lemma windows_modify_ok r e ev e' :
  Windows.modify r e ev = (Ok tt, e') →
  windows_interest e' r = Some ev ∧
  ∀ r', r' ≠ r → windows_interest e' r' = windows_interest e r'.
Proof.
  destruct r as [fd|h]; cbn; intros Hm.
  - pose proof (modify_waitables fd e ev) as Hw. rewrite Hm in Hw. cbn in Hw.
    apply poller_modify_ok in Hm as (Hs & Ho). split; [done|].
    intros [fd'|h'] Hne; cbn; [apply Ho; congruence|apply Hw].
  - pose proof (modify_waitable_fds h e ev Oneshot) as Hf. rewrite Hm in Hf.
    cbn in Hf. apply modify_waitable_ok in Hm as (Hs & Ho). split; [done|].
    intros [fd'|h'] Hne; cbn; [apply Hf|apply Ho; congruence].
Qed.

Lemma windows_err r e k ev x e' :
  Windows.add r e k = (Err x, e') ∨ Windows.modify r e ev = (Err x, e') →
  ∀ r', windows_interest e' r' = windows_interest e r'.
Proof.
  intros Hc r'. destruct r as [fd|h], r' as [fd'|h']; cbn in *; destruct Hc as [Hc|Hc].
  - by eapply poller_add_err.
  - by eapply poller_modify_err.
  - pose proof (add_waitables fd e (Event_none k) h') as Hw. by rewrite Hc in Hw.
  - pose proof (modify_waitables fd e ev h') as Hw. by rewrite Hc in Hw.
  - pose proof (add_waitable_fds h e (Event_none k) Oneshot fd') as Hf. by rewrite Hc in Hf.
  - pose proof (modify_waitable_fds h e ev Oneshot fd') as Hf. by rewrite Hc in Hf.
  - by eapply add_waitable_err.
  - by eapply modify_waitable_err.
Qed.

Lemma windows_delete_others r e res e' :
  Windows.delete r e = (res, e') →
  ∀ r', r' ≠ r → windows_interest e' r' = windows_interest e r'.
Proof.
  intros Hd r' Hne. destruct r as [fd|h], r' as [fd'|h']; cbn in *.
  - eapply poller_delete_others; [done|congruence].
  - pose proof (delete_waitables fd e h') as Hw. by rewrite Hd in Hw.
  - pose proof (remove_waitable_fds h e fd') as Hf. by rewrite Hd in Hf.
  - eapply remove_waitable_others; [done|congruence].
Qed.

#[export] Instance windows_reg_laws : RegLaws Windows.Registration E.
Proof.
  refine {| interest := windows_interest |}.
  - intros r e k e' (Hn & Hs & Ho)%windows_add_ok. split_and!; [done|by eexists|done].
  - intros r e k x e' Hc. apply (windows_err r e k (Event_none k) x). by left.
  - intros r e ev e' [Hs Ho]%windows_modify_ok. split; [by eauto 10|done].
  - intros r e ev x e' Hc. apply (windows_err r e 0 ev x). by right.
  - intros r e res e'. apply windows_delete_others.
  - intros e [fd|h]; [apply now_interest|apply now_waitables].
  - intros e [fd|h]; [apply notify_interest|apply notify_waitables].
  - apply wait_count.
  - intros e d n evs e' Hw [fd|h] ev; [exact (wait_ok _ _ _ _ _ Hw _ _)|].
    exact (wait_waitables _ _ _ _ _ Hw _ _).
  - intros e d [fd|h] ev; [apply wait_keeps|apply wait_waitables_keep].
  - intros e d x e' Hw [fd|h]; [exact (wait_err _ _ _ _ Hw _)|].
    exact (wait_waitables_err _ _ _ _ Hw _).
Defined.
End windows_laws.
