(* ===== verification/RefDeps.v ===== *)
(** Concrete instances of the interfaces of [Deps] and [Registration]: a slab, a
    bounded queue, and an environment that plays a script (what each [wait] answers
    and how long it takes) and can be told to refuse [modify] for some file
    descriptors. They show that the laws can hold, and the witnesses of the
    development run on them. *)
From S2P Require Import Prelude Std Deps Registration.

(** * A slab: a finite map *)

Definition RefSlab (A : Type) : Type := gmap Z A.

#[export] Instance RefSlab_ops : SlabOps RefSlab := {|
  slab_new := λ A, (∅ : gmap Z A);
  slab_vacant_key := λ A s, fresh (dom (s : gmap Z A));
  slab_insert := λ A s a, let k := fresh (dom (s : gmap Z A)) in
                          (k, <[k := a]> (s : gmap Z A));
  slab_get := λ A s k, (s : gmap Z A) !! k;
  slab_remove := λ A s k, match (s : gmap Z A) !! k with
                          | Some a => Some (a, delete k (s : gmap Z A))
                          | None => None
                          end;
  slab_write := λ A s k a, alter (λ _, a) k (s : gmap Z A);
  slab_iter := λ A s, map_to_list (s : gmap Z A);
|}.

(** * A bounded queue: its capacity and its contents *)

Definition RefQueue (A : Type) : Type := Z * list A.

#[export] Instance RefQueue_ops : QueueOps RefQueue := {|
  cq_bounded := λ A c, (c, []);
  cq_push := λ A q a, if decide (Z.of_nat (length q.2) < q.1)
                      then Some (q.1, q.2 ++ [a]) else None;
  cq_pop := λ A q, match q.2 with
                   | [] => None
                   | a :: l => Some (a, (q.1, l))
                   end;
  cq_capacity := λ A q, Some q.1;
|}.

(** * An environment *)

Record RefEnv : Type := mkRefEnv {
  ref_clock : N;                                    (* nanoseconds *)
  ref_drift : N;                                    (* what a reading takes *)
  ref_script : list (N * io_result (list Event));   (* what [wait] answers, and when *)
  ref_regs : gmap Z Event;                          (* interest by descriptor *)
  ref_broken : list Z;                              (* descriptors [modify] refuses *)
}.

(** A year and more, in nanoseconds, which the clock does not leave. *)
Definition REF_CLOCK_MAX : Z := 2 ^ 60.

Definition ref_time (e : RefEnv) : Instant := Z.min (Z.of_N (ref_clock e)) REF_CLOCK_MAX.

Definition ref_advance (d : N) (e : RefEnv) : RefEnv :=
  mkRefEnv (ref_clock e + d) (ref_drift e) (ref_script e) (ref_regs e) (ref_broken e).
Definition ref_set_regs (m : gmap Z Event) (e : RefEnv) : RefEnv :=
  mkRefEnv (ref_clock e) (ref_drift e) (ref_script e) m (ref_broken e).
Definition ref_set_script (s : list (N * io_result (list Event))) (e : RefEnv) : RefEnv :=
  mkRefEnv (ref_clock e) (ref_drift e) s (ref_regs e) (ref_broken e).

(** One-shot: the interest of a reported key is reset. *)
Definition ref_oneshot (evs : list Event) (ev : Event) : Event :=
  if decide (Exists (λ ev', ev_key ev' = ev_key ev) evs)
  then Event_none (ev_key ev) else ev.

Definition ref_wait (e : RefEnv) (d : option Duration)
    : io_result (Z * list Event) * RefEnv :=
  match ref_script e with
  | [] => (Ok (0, []), e)
  | (dt, Err x) :: s => (Err x, ref_advance dt (ref_set_script s e))
  | (dt, Ok evs) :: s =>
      (Ok (Z.of_nat (length evs), evs),
       ref_advance dt (ref_set_script s (ref_set_regs (ref_oneshot evs <$> ref_regs e) e)))
  end.

#[export] Instance RefEnv_ops : EnvOps RefEnv := {|
  env_now := λ e, let e' := ref_advance (ref_drift e) e in (ref_time e', e');
  env_wait := ref_wait;
  env_notify := λ e, (Ok tt, e);
|}.

#[export] Instance RefEnv_poller_ops : PollerOps RefEnv := {|
  poller_add := λ fd e ev,
    match ref_regs e !! fd with
    | Some _ => (Err (Other 17), e)
    | None => (Ok tt, ref_set_regs (<[fd := ev]> (ref_regs e)) e)
    end;
  poller_modify := λ fd e ev,
    if decide (fd ∈ ref_broken e) then (Err (Other 5), e) else
    match ref_regs e !! fd with
    | Some _ => (Ok tt, ref_set_regs (<[fd := ev]> (ref_regs e)) e)
    | None => (Err (Other 2), e)
    end;
  poller_delete := λ fd e,
    match ref_regs e !! fd with
    | Some _ => (Ok tt, ref_set_regs (delete fd (ref_regs e)) e)
    | None => (Err (Other 2), e)
    end;
|}.

(** An environment at time [t] that plays [script]. *)
Definition ref_env (t : N) (script : list (N * io_result (list Event))) : RefEnv :=
  mkRefEnv t 1 script ∅ [].

(** * A handle: a descriptor, and the answers its operations will give *)

Record RefHandle : Type := mkRefHandle {
  rh_fd : Z;
  rh_answers : list (io_result Z);
}.

(** The next answer; a handle that has none left would block. *)
Definition ref_answer {S : Type} (h : RefHandle) (x : S) (e : RefEnv)
    : (io_result Z * (RefHandle * S)) * RefEnv :=
  match rh_answers h with
  | [] => ((Err WouldBlock, (h, x)), e)
  | r :: l => ((r, (mkRefHandle (rh_fd h) l, x)), e)
  end.

(** A closed descriptor is no longer known, and refused from then on. *)
#[export] Instance RefHandle_ops : HandleOps RefHandle RefEnv := {|
  as_raw := rh_fd;
  close := λ h e, mkRefEnv (ref_clock e) (ref_drift e) (ref_script e)
                    (delete (rh_fd h) (ref_regs e)) (rh_fd h :: ref_broken e);
|}.

(** Between the calls of the reactor, time goes by and handles are closed. *)
#[export] Instance RefEnv_call_ops : CallOps Unix.Registration RefEnv := {|
  Call := N + RefHandle;
  call_effect := λ c, match c with inl dt => ref_advance dt | inr h => close h end;
  call_closes := λ c, match c with
                      | inl _ => None
                      | inr h => Some (Unix.mkRegistration (rh_fd h))
                      end;
|}.

(** Flags of descriptors: calls on a closed one fail. *)
#[export] Instance RefEnv_fd_ops : FdOps RefEnv := {|
  ioctl_fionbio := λ fd _ e, (if decide (fd ∈ ref_broken e) then Err (Other 9) else Ok tt, e);
  fcntl_getfl := λ fd e, (if decide (fd ∈ ref_broken e) then Err (Other 9) else Ok 2, e);
  fcntl_setfl := λ fd _ e, (if decide (fd ∈ ref_broken e) then Err (Other 9) else Ok tt, e);
  fcntl_getfd := λ fd e, (if decide (fd ∈ ref_broken e) then Err (Other 9) else Ok 0, e);
  fcntl_setfd := λ fd _ e, (if decide (fd ∈ ref_broken e) then Err (Other 9) else Ok tt, e);
  OFlags_NONBLOCK := 2048;
  FdFlags_CLOEXEC := 1;
|}.

(** TCP sockets: a listener has one connection to accept, on the descriptor 9; the error
    of a stream is its next answer. Unix domain sockets do the same. *)
Definition ref_accept {Addr : Type} (addr : Addr) (e : RefEnv)
    : io_result (RefHandle * Addr) * RefEnv :=
  (match ref_regs e !! 9 with
   | None => Ok (mkRefHandle 9 [], addr)
   | Some _ => Err WouldBlock
   end, e).
Definition ref_recv (h : RefHandle) (buf : list Z) (e : RefEnv)
    : (io_result Z * list Z) * RefEnv :=
  ((match rh_answers h with [] => Err WouldBlock | r :: _ => r end, buf), e).

#[export] Instance RefTcp_ops : TcpOps RefHandle RefHandle RefEnv := {|
  tcp_bind := λ _ e, (Ok (mkRefHandle 8 []), e);
  tcp_accept := λ _ e, ref_accept (V4 [127; 0; 0; 1] 80) e;
  tcp_from := λ fd, mkRefHandle fd [];
  tcp_take_error := λ h e,
    (match rh_answers h with
     | [] => Ok None
     | Ok code :: _ => Ok (Some (Other code))
     | Err err :: _ => Err err
     end, e);
  tcp_peek := ref_recv;
|}.

#[export] Instance RefUnixNet_ops : UnixNetOps RefHandle RefHandle RefHandle (list Z) RefEnv := {|
  uds_bind := λ _ e, (Ok (mkRefHandle 8 []), e);
  uds_accept := λ _ e, ref_accept [] e;
  uds_from := λ fd, mkRefHandle fd [];
  uds_peer_addr := λ h e, (match rh_answers h with Err err :: _ => Err err | _ => Ok [] end, e);
  uds_pair := λ e, (Ok (mkRefHandle 8 [], mkRefHandle 9 []), e);
  udg_bind := λ _ e, (Ok (mkRefHandle 8 []), e);
  udg_unbound := λ e, (Ok (mkRefHandle 8 []), e);
  udg_pair := λ e, (Ok (mkRefHandle 8 [], mkRefHandle 9 []), e);
  udg_recv_from := λ _ buf e, ((Err WouldBlock, buf), e);
  udg_send_to := λ _ buf _ e, (Ok (Z.of_nat (length buf)), e);
  udg_recv := ref_recv;
  udg_send := λ _ buf e, (Ok (Z.of_nat (length buf)), e);
|}.

(** An operating system that has some descriptors open, and answers [connect] with an
    error of its choice. *)
Record RefOs : Type := mkRefOs {
  os_open : gset Z;
  os_connect : option Errno;
}.

#[export] Instance RefOs_fd_ops : FdOps RefOs := {|
  ioctl_fionbio := λ _ _ e, (Ok tt, e);
  fcntl_getfl := λ _ e, (Ok 2, e);
  fcntl_setfl := λ _ _ e, (Ok tt, e);
  fcntl_getfd := λ _ e, (Ok 0, e);
  fcntl_setfd := λ _ _ e, (Ok tt, e);
  OFlags_NONBLOCK := 4;
  FdFlags_CLOEXEC := 1;
|}.

#[export] Instance RefOs_socket_ops : SocketOps RefOs Z := {|
  socket_with := λ _ _ _ _ e,
    let fd := fresh (os_open e) in (Ok fd, mkRefOs ({[ fd ]} ∪ os_open e) (os_connect e));
  set_socket_nosigpipe := λ _ e, (Ok tt, e);
  set_handle_inherit := λ _ e, (Ok tt, e);
  socket_connect := λ _ _ e, (os_connect e, e);
  errno_into := λ err, match err with
                       | AGAIN | WOULDBLOCK => WouldBlock
                       | INPROGRESS => Other 115
                       | Errno_other code => Other code
                       end;
  close_fd := λ fd e, mkRefOs (os_open e ∖ {[ fd ]}) (os_connect e);
  as_any := λ addr, match addr with V4 _ port | V6 _ port _ _ => port end;
  ipproto_TCP := 6;
  init_done := λ _, false;
  set_init_done := λ e, e;
  wsa_startup := λ e, (Ok tt, e);
|}.

(** The socket calls of a [RefEnv]: the descriptor 9, which connects at once. *)
#[export] Instance RefEnv_socket_ops : SocketOps RefEnv (list Z) := {|
  socket_with := λ _ _ _ _ e, (Ok 9, e);
  set_socket_nosigpipe := λ _ e, (Ok tt, e);
  set_handle_inherit := λ _ e, (Ok tt, e);
  socket_connect := λ _ _ e, (Some INPROGRESS, e);
  errno_into := λ err, match err with
                       | AGAIN | WOULDBLOCK => WouldBlock
                       | INPROGRESS => Other 115
                       | Errno_other code => Other code
                       end;
  close_fd := λ fd e, e;
  as_any := λ addr, match addr with V4 ip port => ip ++ [port] | V6 ip port _ _ => ip ++ [port] end;
  ipproto_TCP := 6;
  init_done := λ _, false;
  set_init_done := λ e, e;
  wsa_startup := λ e, (Ok tt, e);
|}.

#[export] Instance RefUnixAddr_ops : UnixAddrOps (list Z) := {|
  unix_addr_new := λ path, if decide (0 ∈ path) then Err (Other 22) else Ok path;
  unix_addr_new_abstract_name := λ name, Ok (0 :: name);
|}.

(** * The laws hold *)

#[export] Instance RefOs_laws : SocketLaws RefOs Z.
Proof.
  refine {| open_fds := os_open |}; cbn; try done.
  intros _ _ _ _ e fd e' [= <- <-]. split; [apply is_fresh|done].
Defined.


#[export] Instance RefSlab_laws : SlabLaws RefSlab.
Proof.
  refine {| slab_map := λ A (s : RefSlab A), (s : gmap Z A) |}; cbn; try done.
  - intros A s. apply not_elem_of_dom, is_fresh.
  - intros A s k Hk. unfold RefSlab in *. by rewrite Hk.
  - intros A s k a Hk. unfold RefSlab in *. rewrite Hk. eauto.
Defined.

#[export] Instance RefQueue_laws : QueueLaws RefQueue.
Proof.
  refine {| cq_list := λ A (q : RefQueue A), q.2 |}; cbn; try done.
  - intros A [c' q] a c [= <-] Hle. cbn in *. rewrite decide_False by lia. done.
  - intros A [c' q] a c [= <-] Hlt. cbn in *. rewrite decide_True by lia. eauto.
  - by intros A [c' q] ->.
  - intros A [c' q] a l ->. eauto.
Defined.

#[export] Instance RefEnv_clock_laws : ClockLaws RefEnv.
Proof.
  refine {| env_time := ref_time |}; cbn.
  - intros e. unfold ref_time, tv_sec, NANOS_PER_SEC, I64_MAX, REF_CLOCK_MAX.
    split; [apply Z.div_pos; lia|].
    apply Z.le_lt_trans with (2 ^ 60 / 1000000000); [apply Z.div_le_mono; lia|done].
  - intros e t e' [= <- <-]. split; [done|]. unfold ref_time. cbn. lia.
  - intros e d. unfold ref_wait, ref_time.
    destruct (ref_script e) as [|[dt [evs|x]] s]; cbn; lia.
  - done.
Defined.

#[export] Instance RefEnv_notify_laws : NotifyLaws RefEnv.
Proof. intros e. done. Qed.

Lemma ref_oneshot_other evs ev :
  Forall (λ ev', ev_key ev' ≠ ev_key ev) evs → ref_oneshot evs ev = ev.
Proof.
  intros Hall. unfold ref_oneshot. rewrite decide_False; [done|].
  rewrite Exists_exists. rewrite Forall_forall in Hall. naive_solver.
Qed.

#[export] Instance RefEnv_poller_laws : PollerLaws RefEnv.
Proof.
  refine {| fd_interest := λ e fd, ref_regs e !! fd |}; cbn.
  - intros fd e ev e'. destruct (ref_regs e !! fd) eqn:Hr; intros; simplify_eq; cbn.
    split_and!; [done|by simplify_map_eq|]. intros. by simplify_map_eq.
  - intros fd e ev x e'. destruct (ref_regs e !! fd); intros; by simplify_eq.
  - intros fd e ev e'. case_decide; [done|].
    destruct (ref_regs e !! fd); intros; simplify_eq; cbn.
    split; [by simplify_map_eq|]. intros. by simplify_map_eq.
  - intros fd e ev x e'. case_decide; [intros; by simplify_eq|].
    destruct (ref_regs e !! fd); intros; by simplify_eq.
  - intros fd e res e'. destruct (ref_regs e !! fd); intros; simplify_eq; cbn; [|done].
    by simplify_map_eq.
  - done.
  - done.
  - intros e d n evs e'. unfold ref_wait.
    destruct (ref_script e) as [|[dt [?|?]] s]; intros; by simplify_eq.
  - intros e d n evs e'. unfold ref_wait.
    destruct (ref_script e) as [|[dt [evs'|?]] s]; intros Hw; simplify_eq; cbn; [done|].
    intros fd ev Hr Hall. rewrite lookup_fmap, Hr. cbn. by rewrite ref_oneshot_other.
  - intros e d fd ev Hr. unfold ref_wait.
    destruct (ref_script e) as [|[dt [evs|x]] s]; cbn; [by exists ev| |by exists ev].
    rewrite lookup_fmap, Hr. cbn. eexists. split; [done|]. unfold ref_oneshot.
    by case_decide.
  - intros e d x e'. unfold ref_wait.
    destruct (ref_script e) as [|[dt [?|?]] s]; intros; by simplify_eq.
Defined.

#[export] Instance RefEnv_call_laws : CallLaws Unix.Registration RefEnv.
Proof.
  intros [dt|h] e r Hr; [done|]. cbn in *. rewrite lookup_delete_ne; [done|].
  intros Heq. apply Hr. by destruct r; cbn in *; subst.
Qed.

#[export] Instance RefEnv_monotone_laws : MonotoneLaws Unix.Registration RefEnv.
Proof.
  split; cbn; unfold ref_time.
  - intros r e k. by destruct (ref_regs e !! Unix.raw r).
  - intros r e ev. case_decide; [done|]. by destruct (ref_regs e !! Unix.raw r).
  - intros r e. by destruct (ref_regs e !! Unix.raw r).
  - intros [dt|h] e; cbn; lia.
Qed.

(** * A parker: its token *)

#[export] Instance RefParker_ops : ParkerOps bool :=
  {| pk_new := false; pk_unpark := λ p, (negb p, true); pk_park_zero := λ p, (p, false) |}.

#[export] Instance RefParker_laws : ParkerLaws bool.
Proof. by refine {| pk_token := λ p, p |}. Defined.

(** * A stream made by [unfold]: its state *)

#[export] Instance RefUnfold_ops : UnfoldOps Unfolding := {|
  unfold := λ St Fut s, Seed s;
  unfold_next := λ W Item St Fut mk poll u cx,
    f ← unwrap (unfold_future mk u);
    '(r, f) ← poll f cx;
    mret (unfold_item r, unfold_after r f);
|}.

#[export] Instance RefUnfold_laws : UnfoldLaws Unfolding.
Proof.
  refine {| unfold_view := λ St Fut (u : Unfolding St Fut), u |}; [done|]. cbn.
  intros W Item St Fut mk poll u f cx w ->. unfold mbind, M_bind, unwrap, mret, M_ret.
  destruct (poll f cx w) as [[[r f'] w']| |]; eauto.
Defined.

(** * A poller with waitable handles

    Next to the descriptors of a [RefEnv], a table of handles; [wait] resets the interest
    of those it reports. *)
Definition RefIocp : Type := RefEnv * gmap Z Event.

Definition on_env {A} (f : RefEnv → A * RefEnv) (e : RefIocp) : A * RefIocp :=
  let '(a, e') := f e.1 in (a, (e', e.2)).
Definition iocp_wait (e : RefIocp) (d : option Duration)
    : io_result (Z * list Event) * RefIocp :=
  match env_wait e.1 d with
  | (Ok (n, evs), e') => (Ok (n, evs), (e', ref_oneshot evs <$> e.2))
  | (Err x, e') => (Err x, (e', e.2))
  end.

#[export] Instance RefIocp_ops : EnvOps RefIocp := {|
  env_now := on_env env_now;
  env_wait := iocp_wait;
  env_notify := on_env env_notify;
|}.
#[export] Instance RefIocp_poller_ops : PollerOps RefIocp := {|
  poller_add := λ fd e ev, on_env (λ e, poller_add fd e ev) e;
  poller_modify := λ fd e ev, on_env (λ e, poller_modify fd e ev) e;
  poller_delete := λ fd e, on_env (poller_delete fd) e;
|}.
#[export] Instance RefIocp_iocp_ops : PollerIocpOps RefIocp := {|
  poller_add_waitable := λ h e ev _,
    match e.2 !! h with
    | Some _ => (Err (Other 17), e)
    | None => (Ok tt, (e.1, <[h := ev]> e.2))
    end;
  poller_modify_waitable := λ h e ev _,
    match e.2 !! h with
    | Some _ => (Ok tt, (e.1, <[h := ev]> e.2))
    | None => (Err (Other 2), e)
    end;
  poller_remove_waitable := λ h e, (Ok tt, (e.1, delete h e.2));
|}.

Lemma on_env_inv {A} (f : RefEnv → A * RefEnv) (e : RefIocp) a e' :
  on_env f e = (a, e') → f e.1 = (a, e'.1) ∧ e'.2 = e.2.
Proof. unfold on_env. destruct (f e.1) as [a1 e1]. by intros [= <- <-]. Qed.
Lemma on_env_snd {A} (f : RefEnv → A * RefEnv) (e : RefIocp) : (on_env f e).2.2 = e.2.
Proof. unfold on_env. by destruct (f e.1). Qed.
Lemma on_env_fst {A} (f : RefEnv → A * RefEnv) (e : RefIocp) : (on_env f e).2.1 = (f e.1).2.
Proof. unfold on_env. by destruct (f e.1). Qed.

#[export] Instance RefIocp_poller_laws : PollerLaws RefIocp.
Proof.
  refine {| fd_interest := λ (e : RefIocp) fd, fd_interest e.1 fd |}.
  - intros fd e ev e' [Hc _]%(on_env_inv (λ e, poller_add fd e ev)). by apply poller_add_ok.
  - intros fd e ev x e' [Hc _]%(on_env_inv (λ e, poller_add fd e ev)).
    by eapply poller_add_err.
  - intros fd e ev e' [Hc _]%(on_env_inv (λ e, poller_modify fd e ev)).
    by apply poller_modify_ok.
  - intros fd e ev x e' [Hc _]%(on_env_inv (λ e, poller_modify fd e ev)).
    by eapply poller_modify_err.
  - intros fd e res e' [Hc _]%(on_env_inv (poller_delete fd)). by eapply poller_delete_others.
  - intros e fd. cbn [env_now RefIocp_ops]. rewrite on_env_fst. apply now_interest.
  - intros e fd. cbn [env_notify RefIocp_ops]. rewrite on_env_fst. apply notify_interest.
  - intros e d n evs e'. cbn [env_wait RefIocp_ops]. unfold iocp_wait.
    destruct (env_wait e.1 d) as [[[n' evs']|x] e1] eqn:Hw; [|done].
    intros [= <- <- <-]. by eapply wait_count.
  - intros e d n evs e'. cbn [env_wait RefIocp_ops]. unfold iocp_wait.
    destruct (env_wait e.1 d) as [[[n' evs']|x] e1] eqn:Hw; [|done].
    intros [= <- <- <-]. exact (wait_ok _ _ _ _ _ Hw).
  - intros e d fd ev Hi. cbn [env_wait RefIocp_ops]. unfold iocp_wait.
    pose proof (wait_keeps e.1 d fd ev Hi) as Hk.
    by destruct (env_wait e.1 d) as [[[n' evs']|x] e1].
  - intros e d x e'. cbn [env_wait RefIocp_ops]. unfold iocp_wait.
    destruct (env_wait e.1 d) as [[[n' evs']|x'] e1] eqn:Hw; [done|].
    intros [= <- <-]. exact (wait_err _ _ _ _ Hw).
Defined.

#[export] Instance RefIocp_iocp_laws : PollerIocpLaws RefIocp.
Proof.
  refine {| waitable_interest := λ (e : RefIocp) h, e.2 !! h |}; cbn -[iocp_wait];
    try done; try (intros; by rewrite on_env_snd).
  - intros h e ev _ e'. destruct (e.2 !! h) eqn:Hh; intros; simplify_eq; cbn.
    split_and!; [done|by simplify_map_eq|]. intros. by simplify_map_eq.
  - intros h e ev _ x e'. by destruct (e.2 !! h); intros; simplify_eq.
  - intros h e ev _ e'. destruct (e.2 !! h) eqn:Hh; intros; simplify_eq; cbn.
    split; [by simplify_map_eq|]. intros. by simplify_map_eq.
  - intros h e ev _ x e'. by destruct (e.2 !! h); intros; simplify_eq.
  - intros h e res e' [= <- <-] h' Hne. cbn. by simplify_map_eq.
  - intros h e ev _ fd. by destruct (e.2 !! h).
  - intros h e ev _ fd. by destruct (e.2 !! h).
  - intros e d n evs e'. unfold iocp_wait.
    destruct (env_wait e.1 d) as [[[n' evs']|x] e1]; [|done].
    intros [= <- <- <-] h ev Hh Hall. cbn. rewrite lookup_fmap, Hh. cbn.
    by rewrite ref_oneshot_other.
  - intros e d h ev Hh. unfold iocp_wait.
    destruct (env_wait e.1 d) as [[[n' evs']|x] e1]; cbn; [|by exists ev].
    rewrite lookup_fmap, Hh. cbn. eexists. split; [done|]. unfold ref_oneshot. by case_decide.
  - intros e d x e'. unfold iocp_wait.
    destruct (env_wait e.1 d) as [[[n' evs']|x'] e1]; [done|]. by intros [= <- <-].
Defined.
