(* ===== verification/World.v ===== *)
(** The state of the crate: the [Reactor] and its global counters, the store of
    the I/O sources its [Arc]s point to, and the outside world, together with the
    elementary reads and writes the operations are made of. *)
From S2P Require Import Prelude Std Deps.

(** * Data of the reactor *)

(** [const READ: usize = 0; const WRITE: usize = 1]: the two indices of
    [[Direction; 2]]. *)
Inductive Dir : Type := READ | WRITE.

#[export] Instance Dir_eq_dec : EqDecision Dir.
Proof. solve_decision. Defined.
#[export] Instance Dir_countable : Countable Dir.
Proof.
  refine (inj_countable' (λ d, match d with READ => true | WRITE => false end)
            (λ b : bool, if b then READ else WRITE) _).
  by intros [].
Defined.

(** [const TIMER_QUEUE_SIZE] (on every target but ESP-IDF). *)
Definition TIMER_QUEUE_SIZE : Z := 1000.

Inductive TimerOp : Type :=
  | Insert (when : Instant) (id : Z) (waker : Waker)
  | Remove (when : Instant) (id : Z).

(** A read or write direction of a source. *)
Record Direction {Slab : Type → Type} : Type := mkDirection {
  tick : Z;
  ticks : option (Z * Z);
  waker : option Waker;
  wakers : Slab (option Waker);
}.
Arguments Direction : clear implicits.
Arguments mkDirection {Slab}.

Definition Direction_default {Slab : Type → Type} `{SlabOps Slab} : Direction Slab :=
  {| tick := 0; ticks := None; waker := None; wakers := slab_new |}.

Definition set_tick {Slab : Type → Type} (t : Z) (d : Direction Slab) : Direction Slab :=
  mkDirection t (ticks d) (waker d) (wakers d).
Definition set_ticks {Slab : Type → Type} (t : option (Z * Z)) (d : Direction Slab) : Direction Slab :=
  mkDirection (tick d) t (waker d) (wakers d).
Definition set_waker {Slab : Type → Type} (w : option Waker) (d : Direction Slab) : Direction Slab :=
  mkDirection (tick d) (ticks d) w (wakers d).
Definition set_wakers {Slab : Type → Type} (ws : Slab (option Waker)) (d : Direction Slab) : Direction Slab :=
  mkDirection (tick d) (ticks d) (waker d) ws.

(** [[Direction; 2]] *)
Record Directions {Slab : Type → Type} : Type := mkDirections {
  dir_read : Direction Slab;
  dir_write : Direction Slab;
}.
Arguments Directions : clear implicits.
Arguments mkDirections {Slab}.

Definition dir_get {Slab : Type → Type} (st : Directions Slab) (d : Dir) : Direction Slab :=
  match d with READ => dir_read st | WRITE => dir_write st end.
Definition dir_set {Slab : Type → Type} (st : Directions Slab) (d : Dir) (x : Direction Slab) : Directions Slab :=
  match d with
  | READ => mkDirections x (dir_write st)
  | WRITE => mkDirections (dir_read st) x
  end.

(** A registered source of I/O events. *)
Record Source {Slab : Type → Type} {Reg : Type} : Type := mkSource {
  src_registration : Reg;
  src_key : Z;
  src_state : Directions Slab;
}.
Arguments Source : clear implicits.
Arguments mkSource {Slab Reg}.

Definition set_src_state {Slab : Type → Type} {Reg} (st : Directions Slab) (s : Source Slab Reg) : Source Slab Reg :=
  mkSource (src_registration s) (src_key s) st.

(** * The world *)

(** What an [Arc<Source>] points to: a location of the shared store. *)
Abbreviation loc := positive.

Record World {Slab Queue : Type → Type} {Reg Env : Type} : Type := mkWorld {
  w_env : Env;                        (* [poller], the clock *)
  w_ticker : Z;                     (* [ticker: AtomicUsize] *)
  w_sources : Slab loc;                (* [sources: Mutex<Slab<Arc<Source>>>] *)
  w_timers : TimerMap;              (* [timers: Mutex<BTreeMap<..>>] *)
  w_timer_ops : Queue TimerOp;          (* [timer_ops: ConcurrentQueue<TimerOp>] *)
  w_id_generator : Z;               (* [static ID_GENERATOR: AtomicUsize] *)
  w_heap : gmap loc (Source Slab Reg);   (* the sources the [Arc]s share *)
  w_woken : list Waker;             (* the calls of [Waker::wake], oldest first *)
}.
Arguments World : clear implicits.
Arguments mkWorld {Slab Queue Reg Env}.

Section world.
  Context {Slab Queue : Type → Type} {Reg Env : Type}.
  Context `{SlabOps Slab, QueueOps Queue, EnvOps Env}.
  Local Abbreviation World := (World Slab Queue Reg Env).

Definition set_env (e : Env) (w : World) : World :=
  mkWorld e (w_ticker w) (w_sources w) (w_timers w) (w_timer_ops w)
    (w_id_generator w) (w_heap w) (w_woken w).
Definition set_ticker (t : Z) (w : World) : World :=
  mkWorld (w_env w) t (w_sources w) (w_timers w) (w_timer_ops w)
    (w_id_generator w) (w_heap w) (w_woken w).
Definition set_sources (s : Slab loc) (w : World) : World :=
  mkWorld (w_env w) (w_ticker w) s (w_timers w) (w_timer_ops w)
    (w_id_generator w) (w_heap w) (w_woken w).
Definition set_timers (t : TimerMap) (w : World) : World :=
  mkWorld (w_env w) (w_ticker w) (w_sources w) t (w_timer_ops w)
    (w_id_generator w) (w_heap w) (w_woken w).
Definition set_timer_ops (q : Queue TimerOp) (w : World) : World :=
  mkWorld (w_env w) (w_ticker w) (w_sources w) (w_timers w) q
    (w_id_generator w) (w_heap w) (w_woken w).
Definition set_id_generator (i : Z) (w : World) : World :=
  mkWorld (w_env w) (w_ticker w) (w_sources w) (w_timers w) (w_timer_ops w)
    i (w_heap w) (w_woken w).
Definition set_heap (h : gmap loc (Source Slab Reg)) (w : World) : World :=
  mkWorld (w_env w) (w_ticker w) (w_sources w) (w_timers w) (w_timer_ops w)
    (w_id_generator w) h (w_woken w).
Definition set_woken (l : list Waker) (w : World) : World :=
  mkWorld (w_env w) (w_ticker w) (w_sources w) (w_timers w) (w_timer_ops w)
    (w_id_generator w) (w_heap w) l.

(** The state [Reactor::get] initialises, in an environment [e]. *)
Definition reactor_new (e : Env) : World :=
  mkWorld e 0 slab_new ∅ (cq_bounded TIMER_QUEUE_SIZE) 1 ∅ [].

(** A call that the environment answers. *)
Definition env_call {A} (f : Env → A * Env) : M World A := λ w,
  let '(a, e) := f (w_env w) in Ret (a, set_env e w).

(** [Instant::now] *)
Definition now : M World Instant := env_call env_now.

(** [waker.wake()], under [panic::catch_unwind]: the waker's own code runs outside
    of the crate, and a panic of it is swallowed. *)
Definition wake (waker : Waker) : M World unit :=
  modify (λ w, set_woken (w_woken w ++ [waker]) w).

(** The source an [Arc] points to, and a write of its [state]. *)
Definition load_source (l : loc) : M World (Source Slab Reg) :=
  o ← gets (λ w, w_heap w !! l); unwrap o.
Definition store_state (l : loc) (st : Directions Slab) : M World unit :=
  modify (λ w, set_heap (alter (set_src_state st) l (w_heap w)) w).
End world.

(** * Facts about directions *)

Lemma dir_get_set_eq {Slab : Type → Type} (st : Directions Slab) d x : dir_get (dir_set st d x) d = x.
Proof. by destruct d. Qed.

Lemma dir_get_set_ne {Slab : Type → Type} (st : Directions Slab) d d' x :
  d ≠ d' → dir_get (dir_set st d x) d' = dir_get st d'.
Proof. by destruct d, d'. Qed.

Lemma dir_set_set {Slab : Type → Type} (st : Directions Slab) d x y :
  dir_set (dir_set st d x) d y = dir_set st d y.
Proof. by destruct d. Qed.

Lemma dir_set_get {Slab : Type → Type} (st : Directions Slab) d : dir_set st d (dir_get st d) = st.
Proof. by destruct st, d. Qed.

(** * Specifications of the elementary steps *)

Section world_facts.
Context {Slab Queue : Type → Type} {Reg Env : Type}.
Context `{SlabOps Slab, QueueOps Queue, EnvOps Env}.
Local Abbreviation World := (World Slab Queue Reg Env).
Implicit Types w : World.

Lemma wp_env_call {A} (f : Env → A * Env) (P : A → World → Prop) w :
  P (f (w_env w)).1 (set_env (f (w_env w)).2 w) → wp (env_call f) P w.
Proof. unfold wp, env_call. intros HP. destruct (f (w_env w)) eqn:?. eauto. Qed.

Lemma wp_load_source l s (P : Source Slab Reg → World → Prop) w :
  w_heap w !! l = Some s → P s w → wp (load_source l) P w.
Proof. intros Hl HP. unfold load_source. wp_steps. by eapply wp_unwrap. Qed.

Lemma wp_store_state l st (P : unit → World → Prop) w :
  P tt (set_heap (alter (set_src_state st) l (w_heap w)) w) →
  wp (store_state l st) P w.
Proof. intros HP. by apply wp_modify. Qed.

Lemma wp_wake k (P : unit → World → Prop) w :
  P tt (set_woken (w_woken w ++ [k]) w) → wp (wake k) P w.
Proof. intros HP. by apply wp_modify. Qed.

(** [now] reads a clock that does not go back. *)
Lemma wp_now `{!ClockLaws Env} (P : Instant → World → Prop) w :
  (∀ t e, 0 ≤ tv_sec t < I64_MAX → env_time (w_env w) ≤ t → t = env_time e →
     env_now (w_env w) = (t, e) → P t (set_env e w)) →
  wp now P w.
Proof.
  intros HP. apply wp_env_call. destruct (env_now (w_env w)) as [t e] eqn:He.
  pose proof (env_now_spec _ _ _ He) as [Ht Hle]. cbn.
  apply HP; try done. rewrite Ht. apply env_time_range.
Qed.
End world_facts.
