(* ===== verification/RefWorld.v ===== *)
(** The world over the concrete instances of [RefDeps], which the witnesses of the
    development run in. *)
From S2P Require Import Prelude Std Deps Registration RefDeps World.

Abbreviation RefWorld := (World RefSlab RefQueue Unix.Registration RefEnv).

(** A reactor that has just been started, at time [t], in an environment that plays
    [script]. *)
Definition ref_world (t : N) (script : list (N * io_result (list Event))) : RefWorld :=
  reactor_new (ref_env t script).

(** Two wakers of different tasks. *)
Definition waker1 : Waker := mkWaker 1 100.
Definition waker2 : Waker := mkWaker 2 100.

(** The state a program leads to. *)
Definition ref_exec {A} (m : M RefWorld A) (w : RefWorld) : RefWorld :=
  match m w with Ret (_, w') => w' | _ => w end.
