(* ===== verification/Timers.v ===== *)
(** The timers of the reactor (src/src/reactor.rs: [insert_timer], [remove_timer],
    [process_timer_ops], [process_timers], [notify]): a map of pending timers and a
    bounded queue of operations on it that are applied later, and the abstract
    store of timers the two implement together. *)
From S2P Require Import Prelude Std Deps Registration RefDeps World RefWorld.

(** * Operations *)

Section timers.
  Context {Slab Queue : Type → Type} {Reg Env : Type}.
  Context `{SlabOps Slab, QueueOps Queue, EnvOps Env}.
  Local Abbreviation World := (World Slab Queue Reg Env).

(** One step of the loop of [process_timer_ops]. *)
Definition apply_timer_op (op : TimerOp) : M World unit :=
  match op with
  | Insert when id waker => modify (λ w, set_timers (<[(when, id) := waker]> (w_timers w)) w)
  | Remove when id => modify (λ w, set_timers (delete (when, id) (w_timers w)) w)
  end.

(** [try_iter().take(n).for_each(..)] *)
Fixpoint process_timer_ops_take (n : nat) : M World unit :=
  match n with
  | O => mret tt
  | S n =>
      popped ← gets (λ w, cq_pop (w_timer_ops w));
      match popped with
      | None => mret tt
      | Some (op, q) =>
          modify (set_timer_ops q) ;;
          apply_timer_op op ;;
          process_timer_ops_take n
      end
  end.

Definition process_timer_ops : M World unit :=
  capacity ← gets (λ w, cq_capacity (w_timer_ops w));
  n ← unwrap capacity;
  process_timer_ops_take (Z.to_nat n).

(** [while self.timer_ops.push(op).is_err() { .. }]; [fuel] bounds the number of
    attempts. *)
Fixpoint push_timer_op (fuel : nat) (op : TimerOp) : M World unit :=
  match fuel with
  | O => out_of_fuel
  | S fuel =>
      pushed ← gets (λ w, cq_push (w_timer_ops w) op);
      match pushed with
      | Some q => modify (set_timer_ops q)
      | None => process_timer_ops ;; push_timer_op fuel op
      end
  end.

(** Without interference one drain of the queue makes room. *)
Definition PUSH_FUEL : nat := 2.

Definition notify : M World unit :=
  res ← env_call env_notify;
  match res with Ok _ => mret tt | Err _ => panic end.

(** [insert_timer], up to [notify]: a new ID, and the operation is pushed. *)
Definition push_timer (when : Instant) (waker : Waker) : M World Z :=
  id ← gets w_id_generator;
  modify (set_id_generator (usize_wrap (id + 1))) ;;
  push_timer_op PUSH_FUEL (Insert when id waker) ;;
  mret id.

Definition insert_timer (when : Instant) (waker : Waker) : M World Z :=
  id ← push_timer when waker;
  notify ;;
  mret id.

Definition remove_timer (when : Instant) (id : Z) : M World unit :=
  push_timer_op PUSH_FUEL (Remove when id).

(** Returns the duration until the next timer, and the list of wakers extended
    with those of the timers that are due. *)
Definition process_timers (wakers : list Waker) : M World (option Duration * list Waker) :=
  process_timer_ops ;;
  now ← now;
  after_now ← unwrap (checked_add now (from_nanos 1));
  timers ← gets w_timers;
  let '(ready, pending) := btree_split_off timers (after_now, 0) in
  modify (set_timers pending) ;;
  let dur :=
    if decide (ready = ∅)
    then (λ k, saturating_duration_since k.1 now) <$> btree_first_key pending
    else Some (from_secs 0) in
  mret (dur, wakers ++ (btree_iter ready).*2).

(** [process_timer_ops] while other threads push operations: [arrivals] lists what
    they push before each of its pops. A push that finds the queue full is refused,
    and its thread goes for the lock on the timers. Returns what was accepted. *)
Fixpoint push_arrivals (ops : list TimerOp) : M World (list TimerOp) :=
  match ops with
  | [] => mret []
  | op :: ops =>
      pushed ← gets (λ w, cq_push (w_timer_ops w) op);
      match pushed with
      | Some q =>
          modify (set_timer_ops q) ;;
          accepted ← push_arrivals ops;
          mret (op :: accepted)
      | None => push_arrivals ops
      end
  end.

Fixpoint process_timer_ops_take_shared (n : nat) (arrivals : list (list TimerOp))
    : M World (list TimerOp) :=
  match n with
  | O => mret []
  | S n =>
      accepted ← push_arrivals (default [] (head arrivals));
      popped ← gets (λ w, cq_pop (w_timer_ops w));
      match popped with
      | None => mret accepted
      | Some (op, q) =>
          modify (set_timer_ops q) ;;
          apply_timer_op op ;;
          accepted' ← process_timer_ops_take_shared n (tail arrivals);
          mret (accepted ++ accepted')
      end
  end.

Definition process_timer_ops_shared (arrivals : list (list TimerOp))
    : M World (list TimerOp) :=
  capacity ← gets (λ w, cq_capacity (w_timer_ops w));
  n ← unwrap capacity;
  process_timer_ops_take_shared (Z.to_nat n) arrivals.

(** The timers a program inserts one after the other; returns their IDs. *)
Fixpoint insert_timers (l : list (Instant * Waker)) : M World (list Z) :=
  match l with
  | [] => mret []
  | (when, waker) :: l =>
      id ← insert_timer when waker;
      ids ← insert_timers l;
      mret (id :: ids)
  end.
End timers.

(** * The abstract store of timers *)

Definition apply_op (m : TimerMap) (op : TimerOp) : TimerMap :=
  match op with
  | Insert when id waker => <[(when, id) := waker]> m
  | Remove when id => delete (when, id) m
  end.

Section live.
  Context {Slab Queue : Type → Type} {Reg Env : Type}.
  Context `{SlabOps Slab, QueueOps Queue, EnvOps Env, !QueueLaws Queue}.
  Local Abbreviation World := (World Slab Queue Reg Env).

(** The timers that are set: the map, with the queued operations applied in
    order. *)
Definition live_timers (w : World) : TimerMap :=
  foldl apply_op (w_timers w) (cq_list (w_timer_ops w)).

(** The queue has a capacity, and is within it. *)
Definition queue_ok (w : World) : Prop :=
  ∃ c, 0 < c ∧ cq_capacity (w_timer_ops w) = Some c ∧
    Z.of_nat (length (cq_list (w_timer_ops w))) ≤ c.

(** Every timer set carries an ID that has been generated. *)
Definition ids_ok (w : World) : Prop :=
  ∀ k, is_Some (live_timers w !! k) → 0 < k.2 < w_id_generator w.

Record timers_inv (w : World) : Prop := {
  inv_queue : queue_ok w;
  inv_ids : ids_ok w;
  inv_id_pos : 0 < w_id_generator w;
}.

(** The timers due at [now], and the later ones. *)
Definition due (now : Instant) (m : TimerMap) : TimerMap :=
  filter (λ e, e.1.1 ≤ now) m.
Definition later (now : Instant) (m : TimerMap) : TimerMap :=
  filter (λ e, now < e.1.1) m.

(** What the timer operations leave alone. *)
Record same_io (w w' : World) : Prop := {
  same_ticker : w_ticker w' = w_ticker w;
  same_sources : w_sources w' = w_sources w;
  same_heap : w_heap w' = w_heap w;
  same_woken : w_woken w' = w_woken w;
}.

(** What draining the queue leaves alone. *)
Record drain_frame (w w' : World) : Prop := {
  drain_env : w_env w' = w_env w;
  drain_id : w_id_generator w' = w_id_generator w;
  drain_capacity : cq_capacity (w_timer_ops w') = cq_capacity (w_timer_ops w);
  drain_io : same_io w w';
}.
End live.

(** * Facts *)

Section timers_facts.
Context {Slab Queue : Type → Type} {Reg Env : Type}.
Context `{SlabOps Slab, QueueOps Queue, EnvOps Env, !QueueLaws Queue}.
Local Abbreviation World := (World Slab Queue Reg Env).
Implicit Types w : World.

Lemma same_io_refl w : same_io w w.
Proof. done. Qed.

Lemma same_io_trans w1 w2 w3 : same_io w1 w2 → same_io w2 w3 → same_io w1 w3.
Proof. intros [] []. split; congruence. Qed.

Lemma drain_frame_refl w : drain_frame w w.
Proof. done. Qed.

Lemma drain_frame_trans w1 w2 w3 :
  drain_frame w1 w2 → drain_frame w2 w3 → drain_frame w1 w3.
Proof.
  intros [???? ] [????]. split; try congruence. eapply same_io_trans; eassumption.
Qed.

Lemma wp_apply_timer_op op w (P : unit → World → Prop) :
  P tt (set_timers (apply_op (w_timers w) op) w) → wp (apply_timer_op op) P w.
Proof. destruct op; intros HP; by apply wp_modify. Qed.

Lemma process_timer_ops_take_spec n w :
  (length (cq_list (w_timer_ops w)) ≤ n)%nat →
  wp (process_timer_ops_take n)
    (λ _ w', w_timers w' = live_timers w ∧ cq_list (w_timer_ops w') = [] ∧
             drain_frame w w') w.
Proof.
  revert w. induction n as [|n IH]; intros w Hn.
  - apply wp_ret. assert (cq_list (w_timer_ops w) = []) as Hl by (apply nil_length_inv; lia).
    unfold live_timers. by rewrite Hl.
  - cbn [process_timer_ops_take]. wp_steps.
    destruct (cq_list (w_timer_ops w)) as [|op l] eqn:Hl.
    + rewrite (cq_pop_nil _ Hl). wp_steps. unfold live_timers. rewrite Hl. by split_and!.
    + destruct (cq_pop_cons _ _ _ Hl) as (q & Hpop & Hq & Hc).
      rewrite Hpop. wp_steps. apply wp_apply_timer_op. eapply wp_mono.
      { apply IH. cbn in *. rewrite Hq. lia. }
      cbn. intros _ w' (Ht & Hnil & Hf). split_and!; [|done|].
      * rewrite Ht. unfold live_timers. cbn. rewrite Hl, Hq. done.
      * eapply drain_frame_trans; [|exact Hf]. done.
Qed.

Lemma live_timers_drained w w' :
  w_timers w' = live_timers w → cq_list (w_timer_ops w') = [] →
  live_timers w' = live_timers w.
Proof. intros Ht Hq. unfold live_timers at 1. by rewrite Hq, Ht. Qed.

Lemma process_timer_ops_wp w :
  queue_ok w →
  wp process_timer_ops
    (λ _ w', w_timers w' = live_timers w ∧ cq_list (w_timer_ops w') = [] ∧
             drain_frame w w') w.
Proof.
  intros (c & Hc & Hcap & Hlen). unfold process_timer_ops. wp_steps.
  eapply wp_unwrap; [done|]. apply process_timer_ops_take_spec. lia.
Qed.

Lemma queue_ok_drained w w' :
  queue_ok w → cq_capacity (w_timer_ops w') = cq_capacity (w_timer_ops w) →
  cq_list (w_timer_ops w') = [] → queue_ok w'.
Proof.
  intros (c & Hc & Hcap & _) Hcap' Hnil. exists c.
  rewrite Hcap', Hnil. cbn. auto with lia.
Qed.

(** One attempt: the push succeeds, or the queue is full. *)
Lemma push_timer_op_room fuel op w c :
  cq_capacity (w_timer_ops w) = Some c →
  Z.of_nat (length (cq_list (w_timer_ops w))) < c →
  wp (push_timer_op (S fuel) op)
    (λ _ w', live_timers w' = apply_op (live_timers w) op ∧ queue_ok w' ∧
             w_env w' = w_env w ∧ w_id_generator w' = w_id_generator w ∧ same_io w w') w.
Proof.
  intros Hcap Hlen. cbn [push_timer_op]. wp_steps.
  destruct (cq_push_room _ op _ Hcap Hlen) as (q & -> & Hq & Hc). wp_steps.
  split_and!; try done.
  - unfold live_timers. cbn. by rewrite Hq, foldl_app.
  - exists c. cbn. rewrite Hq, length_app. cbn. split_and!; [lia|done|lia].
Qed.

(** Two attempts are enough: a full queue is drained before the second one. *)
Lemma push_timer_op_wp fuel op w :
  queue_ok w →
  wp (push_timer_op (S (S fuel)) op)
    (λ _ w', live_timers w' = apply_op (live_timers w) op ∧ queue_ok w' ∧
             w_env w' = w_env w ∧ w_id_generator w' = w_id_generator w ∧ same_io w w') w.
Proof.
  intros Hok. pose proof Hok as (c & Hc & Hcap & Hlen).
  destruct (decide (Z.of_nat (length (cq_list (w_timer_ops w))) < c)) as [Hlt|Hge].
  { by eapply push_timer_op_room. }
  cbn [push_timer_op]. wp_steps. rewrite (cq_push_full _ op _ Hcap) by lia. wp_steps.
  eapply wp_mono; [by apply process_timer_ops_wp|]. cbn beta.
  intros _ w1 (Ht & Hnil & Hf). pose proof Hf as [Henv Hid Hcap1 Hio].
  eapply wp_mono.
  { apply (push_timer_op_room fuel op w1 c); [congruence|]. rewrite Hnil. cbn. lia. }
  intros _ w2 (Hl & Hok2 & Henv2 & Hid2 & Hio2).
  split_and!; try congruence; [|eapply same_io_trans; eassumption].
  rewrite Hl. f_equal. by apply live_timers_drained.
Qed.

Lemma queue_ok_env w e : queue_ok (set_env e w) ↔ queue_ok w.
Proof. done. Qed.

Lemma notify_wp `{!NotifyLaws Env} (P : unit → World → Prop) w :
  P tt (set_env (env_notify (w_env w)).2 w) → wp notify P w.
Proof.
  intros HP. unfold notify. wp_steps. apply wp_env_call.
  rewrite env_notify_ok. by wp_steps.
Qed.

Lemma remove_timer_wp when id w :
  queue_ok w →
  wp (remove_timer when id)
    (λ _ w', live_timers w' = delete (when, id) (live_timers w) ∧ queue_ok w' ∧
             w_env w' = w_env w ∧ w_id_generator w' = w_id_generator w ∧ same_io w w') w.
Proof. apply push_timer_op_wp. Qed.

Lemma push_timer_wp when k w :
  queue_ok w →
  wp (push_timer when k)
    (λ id w', id = w_id_generator w ∧
              live_timers w' = <[(when, id) := k]> (live_timers w) ∧ queue_ok w' ∧
              w_id_generator w' = usize_wrap (id + 1) ∧
              w_env w' = w_env w ∧ same_io w w') w.
Proof.
  intros Hok. unfold push_timer. wp_steps. eapply wp_mono.
  { by apply push_timer_op_wp. }
  intros _ w1 (Hl & Hok1 & Henv & Hid & Hio). cbn in *. wp_steps.
  split_and!; try done. destruct Hio. by split.
Qed.

Lemma insert_timer_wp `{!NotifyLaws Env} when k w :
  queue_ok w →
  wp (insert_timer when k)
    (λ id w', id = w_id_generator w ∧
              live_timers w' = <[(when, id) := k]> (live_timers w) ∧ queue_ok w' ∧
              w_id_generator w' = usize_wrap (id + 1) ∧
              w_env w' = (env_notify (w_env w)).2 ∧ same_io w w') w.
Proof.
  intros Hok. unfold insert_timer. wp_steps. eapply wp_mono.
  { by apply push_timer_wp. }
  intros id w1 (-> & Hl & Hok1 & Hid & Henv & Hio).
  wp_steps. apply notify_wp. wp_steps. rewrite Henv.
  split_and!; try done. destruct Hio. by split.
Qed.

Lemma lookup_due (now : Instant) (m : TimerMap) key :
  due now m !! key = if decide (key.1 ≤ now) then m !! key else None.
Proof.
  apply option_eq. intros x. unfold due. rewrite map_lookup_filter_Some. cbn.
  case_decide; naive_solver.
Qed.

Lemma lookup_later (now : Instant) (m : TimerMap) key :
  later now m !! key = if decide (key.1 ≤ now) then None else m !! key.
Proof.
  apply option_eq. intros x. unfold later. rewrite map_lookup_filter_Some. cbn.
  case_decide; naive_solver lia.
Qed.

(** Splitting the map just after [now] gives the timers that are due, and the
    later ones. *)
Lemma split_off_due (now : Instant) (m : TimerMap) :
  (∀ k, is_Some (m !! k) → 0 ≤ k.2) →
  btree_split_off m (now + from_nanos 1, 0) = (due now m, later now m).
Proof.
  intros Hids. unfold btree_split_off, due, later. f_equal.
  all: apply map_filter_ext; intros k x Hx; cbn.
  all: rewrite split_key_lt by (eapply Hids; eauto); lia.
Qed.

(** What the duration until the next timer is good for. *)
Lemma next_timer_spec (now : Instant) (m : TimerMap) :
  match (if decide (due now m = ∅)
         then (λ k, saturating_duration_since k.1 now) <$> btree_first_key (later now m)
         else Some 0) with
  | None => m = ∅
  | Some d =>
      0 ≤ d ∧ (∀ key, is_Some (later now m !! key) → now + d ≤ key.1) ∧
      (∃ key, is_Some (m !! key) ∧ key.1 ≤ now + d)
  end.
Proof.
  case_decide as Hdue.
  - destruct (btree_first_key _) as [[t i]|] eqn:Hf; cbn.
    + apply btree_first_key_Some in Hf as [[k Hk] Hmin].
      apply map_lookup_filter_Some in Hk as [Hk Ht]. cbn in Ht.
      unfold saturating_duration_since. split_and!; [lia| |].
      * intros [t' i'] Hk'%Hmin. unfold key_le in Hk'. cbn in *. lia.
      * exists (t, i). cbn. split; [eauto|lia].
    + apply btree_first_key_None in Hf. apply map_empty. intros key.
      apply (f_equal (lookup key)) in Hdue. apply (f_equal (lookup key)) in Hf.
      rewrite lookup_due, lookup_empty in Hdue. rewrite lookup_later, lookup_empty in Hf.
      by case_decide.
  - split_and!; [done| |].
    + intros key [k Hk]. apply map_lookup_filter_Some in Hk as [_ Hlt]. cbn in Hlt. lia.
    + apply map_choose in Hdue as (key & k & Hk).
      apply map_lookup_filter_Some in Hk as [Hk Hlt]. exists key.
      split; [by eexists|cbn in *; lia].
Qed.

Lemma ids_nonneg w : ids_ok w → ∀ k, is_Some (live_timers w !! k) → 0 ≤ k.2.
Proof. intros Hids k Hk. specialize (Hids k Hk). lia. Qed.

Lemma timers_inv_sub w w' :
  timers_inv w → queue_ok w' → w_id_generator w' = w_id_generator w →
  live_timers w' ⊆ live_timers w → timers_inv w'.
Proof.
  intros [_ Hids Hpos] Hok Hid Hsub. split; [done| |lia].
  intros k [x Hx]. rewrite Hid. apply Hids. exists x. by eapply lookup_weaken.
Qed.

Lemma process_timers_wp `{!ClockLaws Env} ks w :
  timers_inv w →
  wp (process_timers ks)
    (λ r w', ∃ now, w_env w' = (env_now (w_env w)).2 ∧
       env_time (w_env w) ≤ now ∧ now = env_time (w_env w') ∧
       r.2 = ks ++ (btree_iter (due now (live_timers w))).*2 ∧
       live_timers w' = later now (live_timers w) ∧
       r.1 = (if decide (due now (live_timers w) = ∅)
              then (λ k, saturating_duration_since k.1 now) <$>
                     btree_first_key (later now (live_timers w))
              else Some 0) ∧
       (cq_list (w_timer_ops w') = [] ∧ w_id_generator w' = w_id_generator w) ∧
       timers_inv w' ∧ same_io w w') w.
Proof.
  intros Hinv. pose proof Hinv as [Hok Hids Hpos]. unfold process_timers. wp_steps.
  eapply wp_mono; [by apply process_timer_ops_wp|]. cbn beta.
  intros _ w1 (Ht & Hnil & Hf). pose proof Hf as [Henv Hid Hcap Hio].
  wp_steps. apply wp_now. intros now e Hrange Hle Hnow Hcall. wp_steps.
  eapply wp_unwrap.
  { apply checked_add_Some. split; [done|]. unfold tv_sec, from_nanos, NANOS_PER_SEC in *.
    apply Z.le_trans with ((now + 1 * 1000000000) / 1000000000).
    - apply Z.div_le_mono; lia.
    - rewrite Z.div_add by done. lia. }
  wp_steps. cbn [w_timers set_env]. rewrite Ht, (split_off_due _ _ (ids_nonneg _ Hids)).
  wp_steps. rewrite Henv in *. rewrite Hcall.
  assert (queue_ok (set_timers (later now (live_timers w)) (set_env e w1))) as Hok1.
  { by eapply (queue_ok_drained w). }
  assert (live_timers (set_timers (later now (live_timers w)) (set_env e w1))
          = later now (live_timers w)) as Hlive.
  { unfold live_timers at 1. cbn. by rewrite Hnil. }
  exists now. split_and!; try done.
  - eapply timers_inv_sub; try done. rewrite Hlive. apply map_filter_subseteq.
  - destruct Hio. by split.
Qed.

Lemma push_arrivals_wp ops w :
  queue_ok w →
  wp (push_arrivals ops)
    (λ acc w', live_timers w' = foldl apply_op (live_timers w) acc ∧ queue_ok w' ∧
               acc `sublist_of` ops ∧ w_env w' = w_env w ∧ same_io w w') w.
Proof.
  revert w. induction ops as [|op ops IH]; intros w Hok.
  { apply wp_ret. by split_and!. }
  cbn [push_arrivals]. wp_steps. pose proof Hok as (c & Hc & Hcap & Hlen).
  destruct (decide (Z.of_nat (length (cq_list (w_timer_ops w))) < c)) as [Hlt|Hge].
  - destruct (cq_push_room _ op _ Hcap Hlt) as (q & -> & Hq & Hcq). wp_steps.
    eapply wp_mono; [apply IH|].
    { exists c. cbn. rewrite Hq, length_app. cbn. auto with lia. }
    cbn beta. intros acc w' (Hl & Hok' & Hsub & Henv & Hio). wp_steps.
    split_and!; try done; [|by constructor|destruct Hio; by split].
    rewrite Hl. unfold live_timers at 1. cbn. by rewrite Hq, foldl_app.
  - rewrite (cq_push_full _ op _ Hcap) by lia. eapply wp_mono; [by apply IH|].
    cbn beta. intros acc w' (Hl & Hok' & Hsub & Henv & Hio).
    split_and!; try done. by constructor.
Qed.

(** Applying a popped operation keeps the abstract store. *)
Lemma live_timers_pop w op q l :
  cq_list (w_timer_ops w) = op :: l → cq_list q = l →
  live_timers (set_timers (apply_op (w_timers w) op) (set_timer_ops q w))
  = live_timers w.
Proof. intros Hl Hq. unfold live_timers. cbn. by rewrite Hl, Hq. Qed.

Lemma process_timer_ops_take_shared_wp n arrivals w :
  queue_ok w →
  wp (process_timer_ops_take_shared n arrivals)
    (λ acc w', live_timers w' = foldl apply_op (live_timers w) acc ∧ queue_ok w' ∧
               acc `sublist_of` concat arrivals ∧ same_io w w') w.
Proof.
  revert arrivals w. induction n as [|n IH]; intros arrivals w Hok.
  { apply wp_ret. split_and!; try done. apply sublist_nil_l. }
  cbn [process_timer_ops_take_shared]. wp_steps.
  eapply wp_mono; [by apply push_arrivals_wp|]. cbn beta.
  intros acc w1 (Hl & Hok1 & Hsub & Henv & Hio). wp_steps.
  destruct (cq_list (w_timer_ops w1)) as [|op l] eqn:Hq.
  - rewrite (cq_pop_nil _ Hq). wp_steps. split_and!; try done.
    destruct arrivals as [|a arr]; cbn in *; [done|]. by apply sublist_inserts_r.
  - destruct (cq_pop_cons _ _ _ Hq) as (q & -> & Hq' & Hcq). wp_steps.
    apply wp_apply_timer_op. wp_steps. eapply wp_mono; [apply (IH (tail arrivals))|].
    { destruct Hok1 as (c & Hc & Hcap & Hlen). exists c. cbn.
      rewrite Hq', Hcq. rewrite Hq in Hlen. cbn in Hlen. auto with lia. }
    cbn beta. intros acc' w2 (Hl2 & Hok2 & Hsub2 & Hio2). wp_steps.
    split_and!; [|done| |].
    + rewrite Hl2. cbn [w_timers set_timer_ops]. rewrite (live_timers_pop _ _ _ _ Hq Hq').
      by rewrite Hl, foldl_app.
    + destruct arrivals as [|a arr]; cbn in *; [|by apply sublist_app].
      apply sublist_nil_r in Hsub as ->. done.
    + destruct Hio, Hio2. split; cbn in *; congruence.
Qed.

Lemma timers_inv_new e : timers_inv (reactor_new e : World).
Proof.
  assert (live_timers (reactor_new e : World) = ∅) as Hl.
  { unfold live_timers. cbn. by rewrite cq_bounded_list. }
  split; [| |done].
  - exists TIMER_QUEUE_SIZE. cbn. rewrite cq_bounded_list, cq_bounded_capacity by done.
    done.
  - intros k [x Hx]. rewrite Hl in Hx. done.
Qed.
End timers_facts.

(** * Properties of the timers of the reactor *)

Section timers_properties.
  Context {Slab Queue : Type → Type} {Reg Env : Type}.
  Context `{SlabOps Slab, QueueOps Queue, EnvOps Env, !QueueLaws Queue}.
  Local Abbreviation World := (World Slab Queue Reg Env).

(** [insert_timer] adds one timer to the abstract store, under an ID no timer of
    the store has and that is the next of the generator; it returns (the retry loop
    ends, [notify] does not panic), keeps the invariant and touches nothing but the
    timers. *)
Theorem insert_timer_refines `{!NotifyLaws Env} (when : Instant) (k : Waker) (w : World)
    (Hinv : timers_inv w) (Hbound : w_id_generator w + 1 < USIZE_MOD) :
  wp (insert_timer when k)
    (λ id w', live_timers w !! (when, id) = None ∧
              live_timers w' = <[(when, id) := k]> (live_timers w) ∧
              w_id_generator w' = id + 1 ∧ id = w_id_generator w ∧
              timers_inv w' ∧ same_io w w') w.
Proof.
  destruct Hinv as [Hok Hids Hpos].
  eapply wp_mono; [by apply insert_timer_wp|]. cbn beta.
  intros id w' (-> & Hl & Hok' & Hid & Henv & Hio).
  rewrite usize_wrap_small in Hid by lia.
  split_and!; try done.
  - apply eq_None_not_Some. intros Hs%Hids. cbn in Hs. lia.
  - split; [done| |lia]. intros k'. rewrite Hl, Hid. rewrite lookup_insert_is_Some.
    intros [<-|[_ Hs%Hids]]; cbn; lia.
Qed.

(** [remove_timer] deletes exactly its timer from the abstract store, whether the
    insertion is still queued or has reached the map; it returns, keeps the
    invariant, and touches nothing but the timers. *)
Theorem remove_timer_refines (when : Instant) (id : Z) (w : World) (Hinv : timers_inv w) :
  wp (remove_timer when id)
    (λ _ w', live_timers w' = delete (when, id) (live_timers w) ∧
             w_id_generator w' = w_id_generator w ∧ timers_inv w' ∧ same_io w w') w.
Proof.
  pose proof Hinv as [Hok Hids Hpos].
  eapply wp_mono; [by apply remove_timer_wp|]. cbn beta.
  intros _ w' (Hl & Hok' & Henv & Hid & Hio). split_and!; try done.
  eapply timers_inv_sub; try done. rewrite Hl. apply delete_subseteq.
Qed.

(** Inserting a timer and removing it gives back the store there was. *)
Theorem insert_remove_roundtrip `{!NotifyLaws Env} (when : Instant) (k : Waker) (w : World)
    (Hinv : timers_inv w) (Hbound : w_id_generator w + 1 < USIZE_MOD) :
  wp (id ← insert_timer when k; remove_timer when id)
    (λ _ w', live_timers w' = live_timers w ∧ timers_inv w' ∧ same_io w w') w.
Proof.
  apply wp_bind. pose proof Hinv as [Hok Hids Hpos].
  eapply wp_mono; [by apply insert_timer_wp|]. cbn beta.
  intros id w1 (-> & Hl & Hok1 & Hid & _ & Hio1).
  rewrite usize_wrap_small in Hid by lia.
  eapply wp_mono; [by apply remove_timer_wp|]. cbn beta.
  intros _ w2 (Hl2 & Hok2 & _ & Hid2 & Hio2).
  assert (live_timers w2 = live_timers w) as Heq.
  { rewrite Hl2, Hl, delete_insert_id; [done|].
    apply eq_None_not_Some. intros Hs%Hids. cbn in Hs. lia. }
  split_and!; [done| |by eapply same_io_trans].
  split; [done| |lia]. intros k'. rewrite Heq. intros Hs%Hids. lia.
Qed.

(** C28 [process_timers] fires exactly the timers of the abstract store that are due
    at the instant it reads, a timer set for that very instant included: it appends
    their wakers in the order in which they fire, takes them off the store, keeps all
    others, and leaves no operation queued. *)
Theorem process_timers_fires `{!ClockLaws Env} (ks : list Waker) (w : World)
    (Hinv : timers_inv w) :
  wp (process_timers ks)
    (λ r w', ∃ now fired,
       env_time (w_env w) ≤ now ∧ now = env_time (w_env w') ∧
       r.2 = ks ++ fired.*2 ∧ StronglySorted entry_le fired ∧ NoDup fired.*1 ∧
       (∀ key k, (key, k) ∈ fired ↔ live_timers w !! key = Some k ∧ key.1 ≤ now) ∧
       (∀ key, live_timers w' !! key =
          if decide (key.1 ≤ now) then None else live_timers w !! key) ∧
       w_timers w' = live_timers w' ∧ timers_inv w' ∧ same_io w w') w.
Proof.
  eapply wp_mono; [by apply process_timers_wp|]. cbn beta.
  intros [dur ks'] w' (now & _ & Hle & Hnow & Hks & Hl & _ & [Hnil _] & Hinv' & Hio).
  exists now, (btree_iter (due now (live_timers w))).
  split_and!; try done.
  - apply btree_iter_sorted.
  - rewrite btree_iter_perm. apply NoDup_fst_map_to_list.
  - intros key k. rewrite elem_of_btree_iter. apply map_lookup_filter_Some.
  - intros key. by rewrite Hl, lookup_later.
  - unfold live_timers. by rewrite Hnil.
Qed.

(** The duration [process_timers] returns is right to sleep for: none at all when
    no timer is set; otherwise no timer left falls due before it has passed, and some
    timer is due once it has. *)
Theorem process_timers_duration `{!ClockLaws Env} (ks : list Waker) (w : World)
    (Hinv : timers_inv w) :
  wp (process_timers ks)
    (λ r w', match r.1 with
       | None => live_timers w = ∅
       | Some d =>
           0 ≤ d ∧
           (∀ key, is_Some (live_timers w' !! key) → env_time (w_env w') + d ≤ key.1) ∧
           (∃ key, is_Some (live_timers w !! key) ∧ key.1 ≤ env_time (w_env w') + d)
       end) w.
Proof.
  eapply wp_mono; [by apply process_timers_wp|]. cbn beta.
  intros [dur ks'] w' (now & _ & Hle & Hnow & Hks & Hl & Hd & _). cbn in *.
  rewrite <- Hnow, Hl. subst dur. apply next_timer_spec.
Qed.

(** C30 Draining the queue is linearizable and bounded: whatever other threads push
    meanwhile, it ends, and the abstract store is as if the pushes that were accepted
    had been applied to it one by one, in order. *)
Theorem process_timer_ops_linearizable (arrivals : list (list TimerOp)) (w : World)
    (Hinv : queue_ok w) :
  wp (process_timer_ops_shared arrivals)
    (λ accepted w', live_timers w' = foldl apply_op (live_timers w) accepted ∧
                    accepted `sublist_of` concat arrivals ∧
                    queue_ok w' ∧ same_io w w') w.
Proof.
  pose proof Hinv as (c & Hc & Hcap & Hlen).
  unfold process_timer_ops_shared. wp_steps. eapply wp_unwrap; [done|].
  eapply wp_mono; [by apply process_timer_ops_take_shared_wp|]. naive_solver.
Qed.

(** Timers inserted one after the other, at any instants, get different IDs, as
    long as fewer than 2^64 have been. *)
Theorem timer_ids_distinct `{!NotifyLaws Env} (l : list (Instant * Waker)) (w : World)
    (Hinv : timers_inv w)
    (Hbound : w_id_generator w + Z.of_nat (length l) < USIZE_MOD) :
  wp (insert_timers l)
    (λ ids w', length ids = length l ∧ NoDup ids ∧
               Forall (λ id, w_id_generator w ≤ id < w_id_generator w') ids ∧
               w_id_generator w' = w_id_generator w + Z.of_nat (length l) ∧
               timers_inv w') w.
Proof.
  revert w Hinv Hbound. induction l as [|[when k] l IH]; intros w Hinv Hbound.
  { apply wp_ret. split_and!; try done; [apply NoDup_nil_2|cbn; lia]. }
  cbn [insert_timers]. wp_steps. cbn [length] in Hbound.
  pose proof Hinv as [Hok Hids Hpos].
  eapply wp_mono; [by apply insert_timer_wp|]. cbn beta.
  intros id w1 (-> & Hl & Hok1 & Hid & _ & Hio1).
  rewrite usize_wrap_small in Hid by lia. wp_steps.
  eapply wp_mono; [apply IH; [|lia]|].
  { split; [done| |lia]. intros k'. rewrite Hl, Hid, lookup_insert_is_Some.
    intros [<-|[_ Hs%Hids]]; cbn; lia. }
  cbn beta. intros ids w2 (Hlen & Hnd & Hall & Hid2 & Hinv2). wp_steps.
  rewrite Hid in Hall. split_and!; [cbn; lia| | |cbn [length]; lia|done].
  - apply NoDup_cons. split; [|done]. rewrite Forall_forall in Hall.
    intros Hin%Hall. lia.
  - constructor; [lia|]. eapply Forall_impl; [exact Hall|]. cbn. lia.
Qed.
End timers_properties.

(** * Witnesses *)

(** A reactor with a timer in the map that is overdue, one still queued, and the
    next ID 3. *)
Definition timers_example : RefWorld :=
  set_id_generator 3
    (set_timer_ops (TIMER_QUEUE_SIZE, [Insert 5000 2 waker2])
       (set_timers {[ (500, 1) := waker1 ]} (ref_world 1000 []))).

Lemma timers_example_inv : timers_inv timers_example.
Proof.
  split; [by exists TIMER_QUEUE_SIZE| |done].
  assert (live_timers timers_example = {[ (5000, 2) := waker2; (500, 1) := waker1 ]})
    as Hl by done.
  intros k. rewrite Hl, lookup_insert_is_Some. cbn [w_id_generator timers_example].
  intros [<-|[_ [x [<- <-]%lookup_singleton_Some]]]; cbn; lia.
Qed.

Lemma insert_timer_refines_witness :
  ∃ id w', insert_timer 7000 waker1 timers_example = Ret (id, w') ∧ id = 3 ∧
           live_timers w' !! (7000, id) = Some waker1.
Proof.
  destruct (insert_timer_refines 7000 waker1 timers_example timers_example_inv)
    as (id & w' & Hrun & _ & Hl & _ & Hid & _); [done|].
  exists id, w'. split_and!; [done|done|]. rewrite Hl. apply lookup_insert_eq.
Defined.

Lemma remove_timer_refines_witness :
  ∃ w', remove_timer 5000 2 timers_example = Ret (tt, w') ∧
        live_timers w' = {[ (500, 1) := waker1 ]}.
Proof.
  destruct (remove_timer_refines 5000 2 timers_example timers_example_inv)
    as ([] & w' & Hrun & Hl & _).
  exists w'. split; [done|]. by rewrite Hl.
Defined.

Lemma insert_remove_roundtrip_witness :
  ∃ w', (id ← insert_timer 7000 waker1; remove_timer 7000 id) timers_example = Ret (tt, w')
        ∧ live_timers w' = live_timers timers_example.
Proof.
  destruct (insert_remove_roundtrip 7000 waker1 timers_example timers_example_inv)
    as ([] & w' & Hrun & Hl & _); [done|]. by exists w'.
Defined.

Lemma process_timers_fires_witness :
  ∃ dur w', process_timers [] timers_example = Ret ((dur, [waker1]), w') ∧
            live_timers w' !! (5000, 2) = Some waker2.
Proof.
  destruct (process_timers_fires [] timers_example timers_example_inv)
    as ([dur ks] & w' & Hrun & now & fired & _ & Hnow & _ & _ & _ & _ & Hl & _).
  exists dur, w'. vm_compute in Hrun. injection Hrun as <- <- <-. split; [done|].
  rewrite Hl, Hnow. done.
Defined.

Lemma process_timers_duration_witness :
  ∃ d ks w', process_timers [] timers_example = Ret ((Some d, ks), w') ∧ 0 ≤ d.
Proof.
  destruct (process_timers_duration [] timers_example timers_example_inv)
    as ([dur ks] & w' & Hrun & Hd). cbn in Hd.
  destruct dur as [d|]; [|vm_compute in Hrun; discriminate].
  exists d, ks, w'. split; [done|]. apply Hd.
Defined.

Lemma process_timer_ops_linearizable_witness :
  ∃ acc w', process_timer_ops_shared [[Insert 1 3 waker1]; [Remove 1 3]] timers_example
            = Ret (acc, w') ∧
            live_timers w' = foldl apply_op (live_timers timers_example) acc.
Proof.
  destruct (process_timer_ops_linearizable [[Insert 1 3 waker1]; [Remove 1 3]]
              timers_example (inv_queue _ timers_example_inv)) as (acc & w' & Hrun & Hl & _).
  by exists acc, w'.
Defined.

Lemma timer_ids_distinct_witness :
  ∃ ids w', insert_timers [(10, waker1); (10, waker2); (10, waker1)] timers_example
            = Ret (ids, w') ∧ NoDup ids.
Proof.
  destruct (timer_ids_distinct [(10, waker1); (10, waker2); (10, waker1)]
              timers_example timers_example_inv) as (ids & w' & Hrun & _ & Hnd & _); [done|].
  by exists ids, w'.
Defined.
