(* ===== verification/Source.v ===== *)
(** The two directions of a source (src/src/reactor.rs: [Direction::is_empty],
    [Direction::drain_into]), and the event that states its interest. *)
From S2P Require Import Prelude Std Deps World.

(** * Operations *)

Section source.
  Context {Slab : Type → Type} `{SlabOps Slab}.

Definition is_none {A} (o : option A) : bool :=
  match o with None => true | Some _ => false end.

(** [Direction::is_empty] *)
Definition is_empty (d : Direction Slab) : bool :=
  is_none (waker d) && forallb (λ e, is_none e.2) (slab_iter (wakers d)).

(** The loop of [drain_into] over [wakers.iter_mut()]. *)
Fixpoint drain_slots (entries : list (Z * option Waker)) (ws : Slab (option Waker))
    (dst : list Waker) : Slab (option Waker) * list Waker :=
  match entries with
  | [] => (ws, dst)
  | (k, Some w) :: entries => drain_slots entries (slab_write ws k None) (dst ++ [w])
  | (k, None) :: entries => drain_slots entries ws dst
  end.

(** [Direction::drain_into] *)
Definition drain_into (d : Direction Slab) (dst : list Waker) : Direction Slab * list Waker :=
  let '(d, dst) :=
    match waker d with
    | Some w => (set_waker None d, dst ++ [w])
    | None => (d, dst)
    end in
  let '(ws, dst) := drain_slots (slab_iter (wakers d)) (wakers d) dst in
  (set_wakers ws d, dst).

(** The event a source is interested in: the directions with wakers. *)
Definition interest_event (key : Z) (st : Directions Slab) : Event :=
  {| ev_key := key;
     ev_readable := negb (is_empty (dir_get st READ));
     ev_writable := negb (is_empty (dir_get st WRITE)) |}.

(** The wakers a direction holds. *)
Definition dir_wakers `{!SlabLaws Slab} (d : Direction Slab) : list Waker :=
  option_list (waker d) ++ omap snd (map_to_list (slab_map (wakers d))).

(** The flag of an event for a direction. *)
Definition ev_flag (ev : Event) (d : Dir) : bool :=
  match d with READ => ev_readable ev | WRITE => ev_writable ev end.
End source.

(** * Facts *)

Section source_facts.
Context {Slab : Type → Type} `{SlabOps Slab, !SlabLaws Slab}.
Implicit Types d : Direction Slab.

Lemma elem_of_slab_iter {A} (s : Slab A) k a :
  (k, a) ∈ slab_iter s ↔ slab_map s !! k = Some a.
Proof. by rewrite slab_iter_perm, elem_of_map_to_list. Qed.

Lemma NoDup_slab_iter {A} (s : Slab A) : NoDup (slab_iter s).*1.
Proof. rewrite slab_iter_perm. apply NoDup_fst_map_to_list. Qed.

Lemma slab_contains_map {A} (s : Slab A) k :
  slab_contains s k = true ↔ is_Some (slab_map s !! k).
Proof.
  unfold slab_contains. rewrite slab_get_map.
  destruct (slab_map s !! k); split; naive_solver.
Qed.

(** A direction is empty when it holds no waker. *)
Lemma elem_of_dir_wakers d w :
  w ∈ dir_wakers d ↔
  waker d = Some w ∨ ∃ k, slab_map (wakers d) !! k = Some (Some w).
Proof.
  unfold dir_wakers. rewrite elem_of_app, list_elem_of_omap.
  f_equiv; [destruct (waker d); cbn; set_solver|]. split.
  - intros ([k o] & Hin & Ho). cbn in Ho. subst o. exists k.
    by apply elem_of_map_to_list in Hin.
  - intros [k Hk]. exists (k, Some w). by rewrite elem_of_map_to_list.
Qed.

Lemma is_empty_true d : is_empty d = true ↔ ∀ w, w ∉ dir_wakers d.
Proof.
  unfold is_empty. rewrite andb_true_iff, forallb_forall.
  setoid_rewrite elem_of_dir_wakers. setoid_rewrite <- list_elem_of_In. split.
  - intros [Hw Hall] w [Hw'|[k Hk]]; [by rewrite Hw' in Hw|].
    apply elem_of_slab_iter in Hk. discriminate (Hall _ Hk).
  - intros Hall. split.
    + destruct (waker d) as [w|] eqn:Hw; [|done]. destruct (Hall w). by left.
    + intros [k [w|]] Hk; [|done]. apply elem_of_slab_iter in Hk.
      destruct (Hall w). by eauto.
Qed.

Lemma is_empty_nil d : is_empty d = true ↔ dir_wakers d = [].
Proof.
  rewrite is_empty_true. split.
  - intros Hall. by apply elem_of_nil_inv.
  - intros ->. apply not_elem_of_nil.
Qed.

Lemma is_empty_false d : is_empty d = false ↔ ∃ w, w ∈ dir_wakers d.
Proof.
  rewrite <- not_true_iff_false, is_empty_nil.
  destruct (dir_wakers d) as [|w l]; split; intros Hd; try done.
  - by destruct Hd as [w Hw%elem_of_nil].
  - exists w. by left.
Qed.

Lemma drain_slots_spec entries ws dst :
  NoDup entries.*1 →
  (∀ k o, (k, o) ∈ entries → slab_map ws !! k = Some o) →
  (drain_slots entries ws dst).2 = dst ++ omap snd entries ∧
  ∀ k, slab_map (drain_slots entries ws dst).1 !! k =
    if decide (k ∈ entries.*1) then Some None else slab_map ws !! k.
Proof.
  revert ws dst. induction entries as [|[k0 [w|]] entries IH]; intros ws dst Hnd Hin.
  - cbn. rewrite app_nil_r. split; [done|]. intros k.
    rewrite decide_False; [done|]. apply not_elem_of_nil.
  - cbn in *. apply NoDup_cons in Hnd as [Hk0 Hnd].
    assert (Hws : ∀ k, k ≠ k0 →
      slab_map (slab_write ws k0 None) !! k = slab_map ws !! k).
    { intros k Hk. rewrite slab_map_write. by rewrite lookup_alter_ne. }
    destruct (IH (slab_write ws k0 None) (dst ++ [w]) Hnd) as [-> Hmap].
    { intros k o Hko. rewrite Hws; [apply Hin; by right|]. intros ->.
      apply Hk0, list_elem_of_fmap. by exists (k0, o). }
    rewrite <- app_assoc. split; [done|]. intros k. rewrite Hmap.
    destruct (decide (k = k0)) as [->|Hne].
    + rewrite decide_False, decide_True; [|by left|done].
      rewrite slab_map_write, lookup_alter_eq, (Hin k0 (Some w)); [done|by left].
    + rewrite Hws by done. repeat case_decide; set_solver.
  - cbn in *. apply NoDup_cons in Hnd as [Hk0 Hnd].
    destruct (IH ws dst Hnd) as [-> Hmap].
    { intros k o Hko. apply Hin. by right. }
    split; [done|]. intros k. rewrite Hmap.
    destruct (decide (k = k0)) as [->|Hne].
    + rewrite decide_False, decide_True; [|by left|done]. apply Hin. by left.
    + repeat case_decide; set_solver.
Qed.

Lemma drain_into_shape d dst :
  (drain_into d dst).2 = dst ++ option_list (waker d) ++ omap snd (slab_iter (wakers d)) ∧
  waker (drain_into d dst).1 = None ∧
  tick (drain_into d dst).1 = tick d ∧ ticks (drain_into d dst).1 = ticks d ∧
  ∀ k, slab_map (wakers (drain_into d dst).1) !! k =
       (λ _, None) <$> slab_map (wakers d) !! k.
Proof.
  set (dst' := dst ++ option_list (waker d)).
  destruct (drain_slots_spec (slab_iter (wakers d)) (wakers d) dst') as [Hdst Hmap].
  { apply NoDup_slab_iter. }
  { intros k o. by rewrite elem_of_slab_iter. }
  assert (drain_into d dst =
    let '(ws, dst) := drain_slots (slab_iter (wakers d)) (wakers d) dst' in
    (set_wakers ws (set_waker None d), dst)) as ->.
  { unfold drain_into, dst'. destruct d as [t ts [k|] ws]; cbn; [done|].
    rewrite app_nil_r. done. }
  destruct (drain_slots _ _ _) as [ws' l]. cbn in *. subst l.
  split_and!; try done; [by unfold dst'; rewrite <- app_assoc|].
  intros k. rewrite Hmap. case_decide as Hk.
  - apply list_elem_of_fmap in Hk as ([k' o] & -> & Hk%elem_of_slab_iter).
    cbn. by rewrite Hk.
  - destruct (slab_map (wakers d) !! k) as [o|] eqn:Hko; [|done].
    destruct Hk. apply list_elem_of_fmap. exists (k, o).
    by rewrite elem_of_slab_iter.
Qed.

Lemma elem_of_drain_into d dst w :
  w ∈ (drain_into d dst).2 ↔ w ∈ dst ∨ w ∈ dir_wakers d.
Proof.
  destruct (drain_into_shape d dst) as (-> & _).
  rewrite !elem_of_app, elem_of_dir_wakers. f_equiv. f_equiv.
  - destruct (waker d); cbn; set_solver.
  - rewrite list_elem_of_omap. split.
    + intros ([k o] & Hin%elem_of_slab_iter & Ho). cbn in *. subst. eauto.
    + intros [k Hk]. exists (k, Some w). by rewrite elem_of_slab_iter.
Qed.

Lemma dir_wakers_drain_into d dst w : w ∉ dir_wakers (drain_into d dst).1.
Proof.
  destruct (drain_into_shape d dst) as (_ & Hw & _ & _ & Hmap).
  rewrite elem_of_dir_wakers, Hw. intros [?|[k Hk]]; [done|].
  rewrite Hmap in Hk. by destruct (slab_map (wakers d) !! k).
Qed.

Lemma is_empty_drain_into d dst : is_empty (drain_into d dst).1 = true.
Proof. apply is_empty_true, dir_wakers_drain_into. Qed.
End source_facts.

#[export] Hint Rewrite @elem_of_drain_into : aio.

(** * Properties of directions *)

Section source_properties.
  Context {Slab : Type → Type} `{SlabOps Slab, !SlabLaws Slab}.

(** [drain_into] moves every waker of the direction, each once, behind those of
    the vector, and leaves the direction empty; the slots of the waiting futures stay
    occupied, so that their keys remain valid, and the ticks are unchanged. *)
Theorem drain_into_spec (d : Direction Slab) (dst : list Waker) :
  ∃ d' drained, drain_into d dst = (d', dst ++ drained) ∧ drained ≡ₚ dir_wakers d ∧
    is_empty d' = true ∧ tick d' = tick d ∧ ticks d' = ticks d ∧
    ∀ k, slab_contains (wakers d') k = slab_contains (wakers d) k.
Proof.
  destruct (drain_into_shape d dst) as (Hdst & Hw & Ht & Hts & Hmap).
  exists (drain_into d dst).1, (option_list (waker d) ++ omap snd (slab_iter (wakers d))).
  split_and!; try done.
  - rewrite <- Hdst. by destruct (drain_into d dst).
  - unfold dir_wakers. by rewrite slab_iter_perm.
  - apply is_empty_drain_into.
  - intros k. unfold slab_contains. rewrite !slab_get_map, Hmap.
    by destruct (slab_map (wakers d) !! k).
Qed.

(** The event a source registers asks for exactly the directions that hold a
    waker, under the key of the source. *)
Theorem interest_event_spec (key : Z) (st : Directions Slab) (d : Dir) :
  ev_key (interest_event key st) = key ∧
  (ev_flag (interest_event key st) d = true ↔ ∃ w, w ∈ dir_wakers (dir_get st d)).
Proof.
  split; [done|]. rewrite <- is_empty_false, <- negb_true_iff. by destruct d.
Qed.
End source_properties.
