(* ===== verification/Reactor.v ===== *)
(** The I/O sources of the reactor and its polling loop (src/src/reactor.rs:
    [insert_io], [remove_io], [ReactorLock::react]): the table of registered
    sources, and one round of waiting for events, delivering them to the sources and
    waking the tasks that wait. *)
From S2P Require Import Prelude Std Deps Registration RefDeps World RefWorld Timers.
From S2P Require Import Source.

(** * Operations *)

(** [match (next_timer, timeout) { .. }] *)
Definition merge_timeout (next_timer timeout : option Duration) : option Duration :=
  match next_timer, timeout with
  | None, None => None
  | Some t, None | None, Some t => Some t
  | Some a, Some b => Some (Z.min a b)
  end.

Section reactor.
  Context {Slab Queue : Type → Type} {Reg Env : Type}.
  Context `{SlabOps Slab, QueueOps Queue, EnvOps Env, RegOps Reg Env}.
  Local Abbreviation World := (World Slab Queue Reg Env).
  Local Abbreviation Source := (Source Slab Reg).

(** The first block of [insert_io]: a fresh source enters the table, under the key
    it will carry. *)
Definition insert_io_entry (raw : Reg) : M World loc :=
  sources ← gets w_sources;
  heap ← gets w_heap;
  let key := slab_vacant_key sources in
  let source := fresh (dom heap) in
  modify (set_heap (<[source := mkSource raw key
                        (mkDirections Direction_default Direction_default)]> heap)) ;;
  modify (set_sources (slab_insert sources source).2) ;;
  mret source.

(** The second block: the file descriptor is registered, or the entry removed. *)
Definition insert_io_register (source : loc) : M World (io_result loc) :=
  src ← load_source source;
  res ← env_call (λ e, reg_add (src_registration src) e (src_key src));
  match res with
  | Err err =>
      sources ← gets w_sources;
      '(_, sources) ← unwrap (slab_remove sources (src_key src));
      modify (set_sources sources) ;;
      mret (Err err)
  | Ok _ => mret (Ok source)
  end.

Definition insert_io (raw : Reg) : M World (io_result loc) :=
  source ← insert_io_entry raw;
  insert_io_register source.

Definition remove_io (source : loc) : M World (io_result unit) :=
  src ← load_source source;
  sources ← gets w_sources;
  '(_, sources) ← unwrap (slab_remove sources (src_key src));
  modify (set_sources sources) ;;
  env_call (reg_delete (src_registration src)).

(** [self.reactor.ticker.fetch_add(1, ..).wrapping_add(1)] *)
Definition bump_ticker : M World Z :=
  old ← gets w_ticker;
  modify (set_ticker (usize_wrap (old + 1))) ;;
  mret (usize_wrap (old + 1)).

(** The start of [react]: ready timers, and the timeout to block for. *)
Definition react_prepare (timeout : option Duration)
    : M World (option Duration * list Waker) :=
  '(next_timer, wakers) ← process_timers [];
  mret (merge_timeout next_timer timeout, wakers).

(** One turn of the loop over the two directions. *)
Definition deliver_dir (tick : Z) (emitted : bool) (dir : Dir) (st : Directions Slab)
    (wakers : list Waker) : Directions Slab * list Waker :=
  if emitted then
    let '(d, wakers) := drain_into (set_tick tick (dir_get st dir)) wakers in
    (dir_set st dir d, wakers)
  else (st, wakers).

(** The loop over [[(WRITE, ev.writable), (READ, ev.readable)]]. *)
Definition deliver_event (tick : Z) (ev : Event) (st : Directions Slab)
    (wakers : list Waker) : Directions Slab * list Waker :=
  let '(st, wakers) := deliver_dir tick (ev_writable ev) WRITE st wakers in
  deliver_dir tick (ev_readable ev) READ st wakers.

(** The body of the loop over the events, which runs with [sources] locked and, from
    the lookup on, with the state of the source locked. *)
Definition react_event (tick : Z) (ev : Event) (wakers : list Waker)
    : M World (io_result unit * list Waker) :=
  sources ← gets w_sources;
  match slab_get sources (ev_key ev) with
  | None => mret (Ok tt, wakers)
  | Some source =>
      src ← load_source source;
      let '(st, wakers) := deliver_event tick ev (src_state src) wakers in
      store_state source st ;;
      if negb (is_empty (dir_get st READ)) || negb (is_empty (dir_get st WRITE)) then
        res ← env_call (λ e, reg_modify (src_registration src) e
                               (interest_event (src_key src) st));
        mret (res, wakers)
      else mret (Ok tt, wakers)
  end.

(** The loop over the events; [modify(..)?] leaves it, and [react]. *)
Fixpoint react_events (tick : Z) (evs : list Event) (wakers : list Waker)
    : M World (io_result unit * list Waker) :=
  match evs with
  | [] => mret (Ok tt, wakers)
  | ev :: evs =>
      '(res, wakers) ← react_event tick ev wakers;
      match res with
      | Err err => mret (Err err, wakers)
      | Ok _ => react_events tick evs wakers
      end
  end.

(** [for waker in wakers { .. waker.wake() .. }] *)
Fixpoint wake_all (wakers : list Waker) : M World unit :=
  match wakers with
  | [] => mret tt
  | waker :: wakers => wake waker ;; wake_all wakers
  end.

(** [ReactorLock::react] *)
Definition react (timeout : option Duration) : M World (io_result unit) :=
  '(timeout, wakers) ← react_prepare timeout;
  tick ← bump_ticker;
  res ← env_call (λ e, env_wait e timeout);
  match res with
  | Ok (n, evs) =>
      if decide (n = 0) then
        '(_, wakers) ←
          (if decide (timeout = Some (from_secs 0))
           then mret (None, wakers) else process_timers wakers);
        wake_all wakers ;;
        mret (Ok tt)
      else
        '(res, wakers) ← react_events tick evs wakers;
        match res with
        | Err err => mret (Err err)
        | Ok _ => wake_all wakers ;; mret (Ok tt)
        end
  | Err Interrupted => wake_all wakers ;; mret (Ok tt)
  | Err err => wake_all wakers ;; mret (Err err)
  end.

(** * Invariant *)

(** Every entry of the table points to a source that carries the key of the entry. *)
Definition sources_ok `{!SlabLaws Slab} (w : World) : Prop :=
  ∀ k l, slab_map (w_sources w) !! k = Some l →
    ∃ s, w_heap w !! l = Some s ∧ src_key s = k.

(** A source is registered when the table holds it under its key. *)
Definition registered `{!SlabLaws Slab} (w : World) (l : loc) : Prop :=
  ∃ s, w_heap w !! l = Some s ∧ slab_map (w_sources w) !! src_key s = Some l.

(** What delivery does to a direction, without the vector it drains into. *)
Record delivered `{!SlabLaws Slab} (tick0 : Z) (emitted : bool)
    (d d' : Direction Slab) : Prop := {
  delivered_tick : tick d' = if emitted then tick0 else tick d;
  delivered_ticks : ticks d' = ticks d;
  delivered_wakers : ∀ k, k ∈ dir_wakers d' ↔ emitted = false ∧ k ∈ dir_wakers d;
  delivered_slots : ∀ k, is_Some (slab_map (wakers d') !! k) ↔
                         is_Some (slab_map (wakers d) !! k);
  delivered_same : emitted = false → d' = d;
}.

(** The poller's answer to re-registering a source after delivery, if it is. *)
Definition rearmed (s : Source) (st : Directions Slab) (w : World)
    (res : io_result unit) (e : Env) : Prop :=
  if negb (is_empty (dir_get st READ)) || negb (is_empty (dir_get st WRITE))
  then reg_modify (src_registration s) (w_env w) (interest_event (src_key s) st) = (res, e)
  else res = Ok tt ∧ e = w_env w.

(** What does not change in a source: its registration and its key. *)
Definition src_id (s : Source) : Reg * Z := (src_registration s, src_key s).

(** What the loop over the events leaves alone. *)
Record events_frame (w w' : World) : Prop := {
  events_ticker : w_ticker w' = w_ticker w;
  events_sources : w_sources w' = w_sources w;
  events_timers : w_timers w' = w_timers w;
  events_timer_ops : w_timer_ops w' = w_timer_ops w;
  events_id_generator : w_id_generator w' = w_id_generator w;
  events_woken : w_woken w' = w_woken w;
  events_heap : ∀ l, src_id <$> w_heap w' !! l = src_id <$> w_heap w !! l;
}.

(** What the events of one round have done: [ks'] holds the wakers of the directions
    that were reported, whose ticks are now [tick0]. *)
Record events_done `{!SlabLaws Slab} (tick0 : Z) (evs : list Event) (w w' : World)
    (ks ks' : list Waker) : Prop := {
  done_keep : ∀ k, k ∈ ks → k ∈ ks';
  done_ticks : ∀ l s s' d, w_heap w !! l = Some s → w_heap w' !! l = Some s' →
    tick (dir_get (src_state s') d) = tick0 ∨
    tick (dir_get (src_state s') d) = tick (dir_get (src_state s) d);
  done_conserve : ∀ l s d k, w_heap w !! l = Some s →
    k ∈ dir_wakers (dir_get (src_state s) d) →
    k ∈ ks' ∨ ∃ s', w_heap w' !! l = Some s' ∧ k ∈ dir_wakers (dir_get (src_state s') d);
  done_wakers : ∀ ev l s d k, ev ∈ evs → slab_map (w_sources w) !! ev_key ev = Some l →
    w_heap w !! l = Some s → ev_flag ev d = true →
    k ∈ dir_wakers (dir_get (src_state s) d) → k ∈ ks';
  done_reported : ∀ ev l s' d, ev ∈ evs → slab_map (w_sources w) !! ev_key ev = Some l →
    w_heap w' !! l = Some s' → ev_flag ev d = true →
    tick (dir_get (src_state s') d) = tick0;
  done_sub : ∀ l s s' d k, w_heap w !! l = Some s → w_heap w' !! l = Some s' →
    k ∈ dir_wakers (dir_get (src_state s') d) → k ∈ dir_wakers (dir_get (src_state s) d);
  done_drained : ∀ ev l s' d, ev ∈ evs → slab_map (w_sources w) !! ev_key ev = Some l →
    w_heap w' !! l = Some s' → ev_flag ev d = true →
    ∀ k, k ∉ dir_wakers (dir_get (src_state s') d);
}.

(** Re-registering the source of an event, once it is delivered, fails. *)
Definition refuses `{!SlabLaws Slab} (tick : Z) (ev : Event) (w : World) (x : io_error) : Prop :=
  ∃ l s, slab_map (w_sources w) !! ev_key ev = Some l ∧ w_heap w !! l = Some s ∧
    let st := (deliver_event tick ev (src_state s) []).1 in
    (∃ d k, k ∈ dir_wakers (dir_get st d)) ∧
    (reg_modify (src_registration s) (w_env w) (interest_event (src_key s) st)).1 = Err x.
End reactor.

(** * What a round promises *)

Section round.
  Context {Slab Queue : Type → Type} {Reg Env : Type}.
  Context `{SlabOps Slab, QueueOps Queue, EnvOps Env, RegOps Reg Env}.
  Context `{!SlabLaws Slab, !QueueLaws Queue, !ClockLaws Env}.
  Local Abbreviation World := (World Slab Queue Reg Env).

(** The outcome [r] of a round of [react] that leads from [w] to [w'] and whose
    [wait] answered [ans]. *)
Record round_spec (w : World) (ans : io_result (Z * list Event)) (r : io_result unit)
    (w' : World) : Prop := {
  round_ticker : w_ticker w' = usize_wrap (w_ticker w + 1);
  round_sources : sources_ok w';
  round_timers : timers_inv w';
  round_registered : ∀ l, registered w l → registered w' l;
  round_error : ∀ x, ans = Err x → r = if decide (x = Interrupted) then Ok tt else Err x;
  round_lost : ∀ n evs x, ans = Ok (n, evs) → r = Err x → w_woken w' = w_woken w;
  round_due : r = Ok tt ∨ (∃ x, ans = Err x) → ∀ key k,
    live_timers w !! key = Some k → key.1 ≤ env_time (w_env w) → k ∈ w_woken w';
  round_events : r = Ok tt → ∀ n evs ev l s d k, ans = Ok (n, evs) → n ≠ 0 → ev ∈ evs →
    slab_map (w_sources w) !! ev_key ev = Some l → w_heap w !! l = Some s →
    ev_flag ev d = true → k ∈ dir_wakers (dir_get (src_state s) d) → k ∈ w_woken w';
}.
End round.

(** * Facts *)

Lemma merge_timeout_le next_timer timeout d t :
  merge_timeout next_timer timeout = Some d →
  next_timer = Some t ∨ timeout = Some t → d ≤ t.
Proof. destruct next_timer, timeout; intros [= <-] [[= ->]|[= ->]]; lia. Qed.

Lemma merge_timeout_None next_timer timeout :
  merge_timeout next_timer timeout = None ↔ next_timer = None ∧ timeout = None.
Proof. destruct next_timer, timeout; naive_solver. Qed.

Lemma merge_timeout_Some next_timer timeout d :
  merge_timeout next_timer timeout = Some d → next_timer = Some d ∨ timeout = Some d.
Proof.
  destruct next_timer as [a|], timeout as [b|]; intros [= <-]; auto.
  destruct (Z.min_spec a b) as [[_ ->]|[_ ->]]; auto.
Qed.

Section reactor_facts.
Context {Slab Queue : Type → Type} {Reg Env : Type}.
Context `{SlabOps Slab, QueueOps Queue, EnvOps Env, RegOps Reg Env}.
Context `{!SlabLaws Slab}.
Local Abbreviation World := (World Slab Queue Reg Env).
Local Abbreviation Source := (Source Slab Reg).
Implicit Types (w : World) (st : Directions Slab).

(** ** Delivering an event to the two directions of a source *)

Lemma deliver_dir_get tick emitted dir st ks d :
  dir_get (deliver_dir tick emitted dir st ks).1 d =
  if emitted && bool_decide (d = dir)
  then (drain_into (set_tick tick (dir_get st dir)) ks).1 else dir_get st d.
Proof.
  unfold deliver_dir. destruct emitted; [|done]. destruct (drain_into _ _) as [x ks'].
  cbn. case_bool_decide as Hd; [subst; apply dir_get_set_eq|by apply dir_get_set_ne].
Qed.

Lemma elem_of_deliver_dir tick emitted dir st ks k :
  k ∈ (deliver_dir tick emitted dir st ks).2 ↔
  k ∈ ks ∨ (emitted = true ∧ k ∈ dir_wakers (dir_get st dir)).
Proof.
  unfold deliver_dir. destruct emitted; [|naive_solver].
  pose proof (elem_of_drain_into (set_tick tick (dir_get st dir)) ks k) as Hin.
  destruct (drain_into _ _) as [x ks']. cbn in *. rewrite Hin. naive_solver.
Qed.

Lemma deliver_event_get tick ev st ks d :
  ∃ dst, dir_get (deliver_event tick ev st ks).1 d =
    if ev_flag ev d then (drain_into (set_tick tick (dir_get st d)) dst).1
    else dir_get st d.
Proof.
  unfold deliver_event. pose proof (deliver_dir_get tick (ev_writable ev) WRITE st ks) as Hd1.
  destruct (deliver_dir _ _ _ st ks) as [st1 ks1]. cbn in Hd1.
  exists (match d with READ => ks1 | WRITE => ks end).
  rewrite deliver_dir_get, !Hd1. destruct d; cbn.
  - by destruct (ev_writable ev), (ev_readable ev).
  - by destruct (ev_writable ev), (ev_readable ev).
Qed.

Lemma elem_of_deliver_event tick ev st ks k :
  k ∈ (deliver_event tick ev st ks).2 ↔
  k ∈ ks ∨ ∃ d, ev_flag ev d = true ∧ k ∈ dir_wakers (dir_get st d).
Proof.
  unfold deliver_event.
  pose proof (elem_of_deliver_dir tick (ev_writable ev) WRITE st ks) as Hin.
  pose proof (deliver_dir_get tick (ev_writable ev) WRITE st ks) as Hd1.
  destruct (deliver_dir _ _ _ st ks) as [st1 ks1]. cbn in *.
  rewrite elem_of_deliver_dir, Hin, Hd1, andb_false_r. split.
  - intros [[?|[??]]|[??]]; [by left|right; by exists WRITE|right; by exists READ].
  - intros [?|[[] [??]]]; auto.
Qed.

Lemma deliver_event_delivered tick ev st ks d :
  delivered tick (ev_flag ev d) (dir_get st d) (dir_get (deliver_event tick ev st ks).1 d).
Proof.
  destruct (deliver_event_get tick ev st ks d) as [dst ->].
  destruct (ev_flag ev d); [|by split; naive_solver].
  destruct (drain_into_shape (set_tick tick (dir_get st d)) dst)
    as (_ & _ & Ht & Hts & Hmap).
  split; try done.
  - intros k. split; [|naive_solver]. intros Hk.
    by apply dir_wakers_drain_into in Hk.
  - intros k. rewrite Hmap. cbn. by rewrite fmap_is_Some.
Qed.

(** ** Steps *)

Lemma insert_io_entry_wp raw w (P : loc → World → Prop) :
  (∀ l, w_heap w !! l = None →
     P l (set_sources (slab_insert (w_sources w) l).2
           (set_heap (<[l := mkSource raw (slab_vacant_key (w_sources w))
                         (mkDirections Direction_default Direction_default)]> (w_heap w)) w))) →
  wp (insert_io_entry raw) P w.
Proof.
  intros HP. unfold insert_io_entry. wp_steps. apply HP.
  apply not_elem_of_dom, is_fresh.
Qed.

Lemma wp_slab_remove {A} (s : Slab A) k a (P : A * Slab A → World → Prop) w :
  slab_map s !! k = Some a →
  (∀ s', slab_map s' = delete k (slab_map s) → P (a, s') w) →
  wp (unwrap (slab_remove s k)) P w.
Proof.
  intros Hk HP. destruct (slab_remove_Some _ _ _ Hk) as (s' & Hrem & Hmap).
  eapply wp_unwrap; [done|]. by apply HP.
Qed.

Lemma insert_io_register_wp l s w (P : io_result loc → World → Prop) :
  w_heap w !! l = Some s → slab_map (w_sources w) !! src_key s = Some l →
  (∀ res e, reg_add (src_registration s) (w_env w) (src_key s) = (res, e) →
     match res with
     | Ok _ => P (Ok l) (set_env e w)
     | Err err => ∀ sl, slab_map sl = delete (src_key s) (slab_map (w_sources w)) →
                   P (Err err) (set_sources sl (set_env e w))
     end) →
  wp (insert_io_register l) P w.
Proof.
  intros Hl Hk HP. unfold insert_io_register. wp_steps. eapply wp_load_source; [done|].
  wp_steps. apply wp_env_call. destruct (reg_add _ _ _) as [[[]|err] e] eqn:Hadd; cbn.
  - wp_steps. exact (HP _ _ eq_refl).
  - wp_steps. eapply wp_slab_remove; [done|]. intros sl Hsl. wp_steps.
    by apply (HP _ _ eq_refl).
Qed.

Lemma remove_io_wp l s w (P : io_result unit → World → Prop) :
  w_heap w !! l = Some s → slab_map (w_sources w) !! src_key s = Some l →
  (∀ sl, slab_map sl = delete (src_key s) (slab_map (w_sources w)) →
     P (reg_delete (src_registration s) (w_env w)).1
       (set_env (reg_delete (src_registration s) (w_env w)).2 (set_sources sl w))) →
  wp (remove_io l) P w.
Proof.
  intros Hl Hk HP. unfold remove_io. wp_steps. eapply wp_load_source; [done|].
  wp_steps. eapply wp_slab_remove; [done|]. intros sl Hsl. wp_steps.
  apply wp_env_call. cbn. by apply HP.
Qed.

Lemma bump_ticker_wp (P : Z → World → Prop) w :
  P (usize_wrap (w_ticker w + 1)) (set_ticker (usize_wrap (w_ticker w + 1)) w) →
  wp bump_ticker P w.
Proof. intros HP. unfold bump_ticker. by wp_steps. Qed.

Lemma react_event_wp tick ev ks w (P : io_result unit * list Waker → World → Prop) :
  sources_ok w →
  (slab_map (w_sources w) !! ev_key ev = None → P (Ok tt, ks) w) →
  (∀ l s st ks' res e,
     slab_map (w_sources w) !! ev_key ev = Some l →
     w_heap w !! l = Some s → src_key s = ev_key ev →
     deliver_event tick ev (src_state s) ks = (st, ks') →
     rearmed s st w res e →
     P (res, ks') (set_env e (set_heap (<[l := set_src_state st s]> (w_heap w)) w))) →
  wp (react_event tick ev ks) P w.
Proof.
  intros Hok Hnone Hsome. unfold react_event. wp_steps. rewrite slab_get_map.
  destruct (slab_map (w_sources w) !! ev_key ev) as [l|] eqn:Hk.
  2:{ wp_steps. by apply Hnone. }
  destruct (Hok _ _ Hk) as (s & Hl & Hkey). wp_steps. eapply wp_load_source; [done|].
  destruct (deliver_event tick ev (src_state s) ks) as [st ks'] eqn:Hd.
  wp_steps. apply wp_store_state.
  assert (alter (set_src_state st) l (w_heap w) = <[l := set_src_state st s]> (w_heap w))
    as ->.
  { apply map_eq. intros l'. rewrite lookup_alter, lookup_insert.
    case_decide; [|done]. subst. by rewrite Hl. }
  specialize (Hsome l s st ks'). unfold rearmed in Hsome.
  destruct (negb _ || negb _).
  - wp_steps. apply wp_env_call. cbn. destruct (reg_modify _ _ _) as [res e] eqn:Hm.
    wp_steps. by apply Hsome.
  - wp_steps. apply (Hsome (Ok tt) (w_env w)); try done.
Qed.

Lemma events_frame_refl w : events_frame w w.
Proof. done. Qed.

Lemma events_frame_trans w1 w2 w3 :
  events_frame w1 w2 → events_frame w2 w3 → events_frame w1 w3.
Proof. intros [] []. split; congruence. Qed.

Lemma events_frame_lookup w w' l s :
  events_frame w w' → w_heap w !! l = Some s →
  ∃ s', w_heap w' !! l = Some s' ∧ src_id s' = src_id s.
Proof.
  intros Hf Hl. pose proof (events_heap _ _ Hf l) as Hh. rewrite Hl in Hh.
  apply fmap_Some in Hh as (s' & Hl' & Hid). by exists s'.
Qed.

Lemma sources_ok_frame w w' : sources_ok w → events_frame w w' → sources_ok w'.
Proof.
  intros Hok Hf k l. rewrite (events_sources _ _ Hf). intros Hk.
  destruct (Hok _ _ Hk) as (s & Hl & Hkey).
  destruct (events_frame_lookup _ _ _ _ Hf Hl) as (s' & Hl' & Hid).
  exists s'. split; [done|]. unfold src_id in Hid. congruence.
Qed.

Lemma registered_frame w w' l : registered w l → events_frame w w' → registered w' l.
Proof.
  intros (s & Hl & Hk) Hf.
  destruct (events_frame_lookup _ _ _ _ Hf Hl) as (s' & Hl' & Hid).
  exists s'. split; [done|]. rewrite (events_sources _ _ Hf).
  unfold src_id in Hid. congruence.
Qed.

Lemma events_frame_event w l s st e :
  w_heap w !! l = Some s →
  events_frame w (set_env e (set_heap (<[l := set_src_state st s]> (w_heap w)) w)).
Proof.
  intros Hl. split; try done. intros l'. cbn. rewrite lookup_insert.
  case_decide; [|done]. subst. by rewrite Hl.
Qed.

Lemma react_event_done tick0 ev ks w :
  sources_ok w →
  wp (react_event tick0 ev ks)
    (λ r w', events_frame w w' ∧ events_done tick0 [ev] w w' ks r.2) w.
Proof.
  intros Hok. apply react_event_wp; [done| |].
  - intros Hnone. split; [done|]. split; cbn.
    + done.
    + intros. simplify_eq. by right.
    + eauto.
    + intros ev' l s d k ->%list_elem_of_singleton Hk. congruence.
    + intros ev' l s d ->%list_elem_of_singleton Hk. congruence.
    + intros. by simplify_eq.
    + intros ev' l s d ->%list_elem_of_singleton Hk. congruence.
  - intros l s st ks' res e Hk Hl Hkey Hd _.
    assert (ks' = (deliver_event tick0 ev (src_state s) ks).2) as -> by by rewrite Hd.
    assert (st = (deliver_event tick0 ev (src_state s) ks).1) as -> by by rewrite Hd.
    split; [by apply events_frame_event|]. split; cbn [snd].
    + intros k Hin. apply elem_of_deliver_event. by left.
    + intros l' s1 s2 d Hs1 Hs2. cbn in Hs2. apply lookup_insert_Some in Hs2.
      destruct Hs2 as [[<- <-]|[Hne Hs2]]; [|right; congruence].
      simplify_eq. cbn. destruct (deliver_event_delivered tick0 ev (src_state s) ks d)
        as [Ht _ _ _ _]. rewrite Ht. destruct (ev_flag ev d); auto.
    + intros l' s' d k Hl' Hin. cbn. destruct (decide (l = l')) as [<-|Hne].
      2:{ right. exists s'. by rewrite lookup_insert_ne. }
      simplify_eq. destruct (ev_flag ev d) eqn:Hf.
      { left. apply elem_of_deliver_event. eauto. }
      right. rewrite lookup_insert_eq. eexists. split; [done|]. cbn.
      apply (delivered_wakers _ _ _ _ (deliver_event_delivered tick0 ev (src_state s) ks d)).
      by rewrite Hf.
    + intros ev' l' s' d k ->%list_elem_of_singleton Hk' Hl' Hf Hin. simplify_eq.
      apply elem_of_deliver_event. right. eauto.
    + intros ev' l' s' d ->%list_elem_of_singleton Hk' Hl' Hf. simplify_eq. cbn in Hl'.
      rewrite lookup_insert_eq in Hl'. simplify_eq. cbn.
      destruct (deliver_event_delivered tick0 ev (src_state s) ks d) as [Ht _ _ _ _].
      by rewrite Ht, Hf.
    + intros l' s1 s2 d k Hs1 Hs2. cbn in Hs2. apply lookup_insert_Some in Hs2.
      destruct Hs2 as [[<- <-]|[Hne Hs2]]; [|congruence]. simplify_eq. cbn.
      rewrite (delivered_wakers _ _ _ _ (deliver_event_delivered tick0 ev (src_state s) ks d)).
      by intros [_ ?].
    + intros ev' l' s' d ->%list_elem_of_singleton Hk' Hl' Hf k. simplify_eq. cbn in Hl'.
      rewrite lookup_insert_eq in Hl'. simplify_eq. cbn.
      rewrite (delivered_wakers _ _ _ _ (deliver_event_delivered tick0 ev (src_state s) ks d)), Hf.
      by intros [? _].
Qed.

Lemma events_done_cons tick0 ev evs w w1 w2 ks ks1 ks2 :
  events_frame w w1 → events_done tick0 [ev] w w1 ks ks1 →
  events_frame w1 w2 → events_done tick0 evs w1 w2 ks1 ks2 →
  events_done tick0 (ev :: evs) w w2 ks ks2.
Proof.
  intros Hf1 [Hk1 Ht1 Hc1 Hw1 Hr1 Hs1 Hd1] Hf2 [Hk2 Ht2 Hc2 Hw2 Hr2 Hs2 Hd2].
  pose proof (events_sources _ _ Hf1) as Hs. split.
  - auto.
  - intros l s s2 d Hl Hl2.
    destruct (events_frame_lookup _ _ _ _ Hf1 Hl) as (s1 & Hl1 & _).
    destruct (Ht2 _ _ _ d Hl1 Hl2) as [?| ->]; eauto.
  - intros l s d k Hl Hin. destruct (Hc1 _ _ _ _ Hl Hin) as [?|(s1 & Hl1 & Hin1)]; eauto.
  - intros ev' l s d k [->|Hev]%elem_of_cons Hk Hl Hf Hin.
    + apply Hk2. eapply Hw1; eauto. by left.
    + destruct (Hc1 _ _ _ _ Hl Hin) as [?|(s1 & Hl1 & Hin1)]; [by apply Hk2|].
      rewrite <- Hs in Hk. eauto.
  - intros ev' l s2 d [->|Hev]%elem_of_cons Hk Hl2 Hf.
    + destruct (w_heap w1 !! l) as [s1|] eqn:Hl1.
      * destruct (Ht2 _ _ _ d Hl1 Hl2) as [?| ->]; [done|]. eapply Hr1; eauto. by left.
      * pose proof (events_heap _ _ Hf2 l) as Hh. rewrite Hl1, Hl2 in Hh. done.
    + rewrite <- Hs in Hk. eauto.
  - intros l s s2 d k Hl Hl2 Hin.
    destruct (events_frame_lookup _ _ _ _ Hf1 Hl) as (s1 & Hl1 & _). eauto.
  - intros ev' l s2 d [->|Hev]%elem_of_cons Hk Hl2 Hf k Hin.
    + destruct (w_heap w1 !! l) as [s1|] eqn:Hl1.
      * eapply (Hd1 ev l s1 d); [by left|done..|]. by eapply Hs2.
      * pose proof (events_heap _ _ Hf2 l) as Hh. rewrite Hl1, Hl2 in Hh. done.
    + rewrite <- Hs in Hk. by eapply Hd2.
Qed.

Lemma react_events_wp tick0 evs ks w :
  sources_ok w →
  wp (react_events tick0 evs ks)
    (λ r w', events_frame w w' ∧ (r.1 = Ok tt → events_done tick0 evs w w' ks r.2)) w.
Proof.
  revert ks w. induction evs as [|ev evs IH]; intros ks w Hok.
  { apply wp_ret. split; [done|]. intros _. split; cbn; try done; eauto.
    - intros. simplify_eq. by right.
    - intros ????? Hin%elem_of_nil. done.
    - intros ???? Hin%elem_of_nil. done.
    - intros. by simplify_eq.
    - intros ???? Hin%elem_of_nil. done. }
  cbn [react_events]. wp_steps. eapply wp_mono; [by apply react_event_done|].
  intros [res ks1] w1 [Hf1 Hd1]. cbn in Hd1. destruct res as [[]|err].
  - eapply wp_mono; [apply IH; by eapply sources_ok_frame|].
    intros [res ks2] w2 [Hf2 Hd2]. cbn in Hd2.
    split; [by eapply events_frame_trans|]. intros Hres.
    eapply events_done_cons; eauto.
  - wp_steps. done.
Qed.

(** The loop, cut at an event. *)
Lemma react_events_app tick0 evs1 evs2 ks ks1 w w1 :
  react_events tick0 evs1 ks w = Ret ((Ok tt, ks1), w1) →
  react_events tick0 (evs1 ++ evs2) ks w = react_events tick0 evs2 ks1 w1.
Proof.
  revert ks w. induction evs1 as [|ev evs1 IH]; intros ks w Hrun.
  { cbn in Hrun. unfold mret, M_ret in Hrun. by injection Hrun as -> ->. }
  cbn [app react_events] in Hrun |- *. apply bind_ret_inv in Hrun as ([res ks0] & w0 & He & Hrun).
  unfold mbind at 1, M_bind. rewrite He. destruct res as [[]|err]; [by apply IH|].
  cbn in Hrun. unfold mret, M_ret in Hrun. by injection Hrun.
Qed.

(** What becomes of a source does not depend on the wakers collected before. *)
Lemma drain_slots_dir entries (ws : Slab (option Waker)) ks ks' :
  (drain_slots entries ws ks).1 = (drain_slots entries ws ks').1.
Proof.
  revert ws ks ks'. induction entries as [|[i [k|]] entries IH]; intros ws ks ks'; cbn; auto.
Qed.

Lemma drain_into_dir (d : Direction Slab) ks ks' : (drain_into d ks).1 = (drain_into d ks').1.
Proof.
  unfold drain_into. destruct (waker d).
  - pose proof (drain_slots_dir (slab_iter (wakers (set_waker None d))) (wakers (set_waker None d))
      (ks ++ [w]) (ks' ++ [w])) as Heq.
    destruct (drain_slots _ _ (ks ++ [w])), (drain_slots _ _ (ks' ++ [w])). cbn in *. congruence.
  - pose proof (drain_slots_dir (slab_iter (wakers d)) (wakers d) ks ks') as Heq.
    destruct (drain_slots _ _ ks), (drain_slots _ _ ks'). cbn in *. congruence.
Qed.

Lemma deliver_dir_st tick emitted dir st ks ks' :
  (deliver_dir tick emitted dir st ks).1 = (deliver_dir tick emitted dir st ks').1.
Proof.
  unfold deliver_dir. destruct emitted; [|done].
  pose proof (drain_into_dir (set_tick tick (dir_get st dir)) ks ks') as Heq.
  destruct (drain_into _ ks), (drain_into _ ks'). cbn in *. congruence.
Qed.

Lemma deliver_event_st tick ev st ks ks' :
  (deliver_event tick ev st ks).1 = (deliver_event tick ev st ks').1.
Proof.
  unfold deliver_event.
  pose proof (deliver_dir_st tick (ev_writable ev) WRITE st ks ks') as Heq.
  destruct (deliver_dir _ _ _ st ks) as [st1 ks1], (deliver_dir _ _ _ st ks') as [st2 ks2].
  cbn in Heq. subst. apply deliver_dir_st.
Qed.

(** An event whose source the poller refuses is delivered all the same. *)
Lemma react_event_refused tick0 ev ks w x :
  sources_ok w → refuses tick0 ev w x →
  wp (react_event tick0 ev ks)
    (λ r w', r.1 = Err x ∧ events_frame w w' ∧ events_done tick0 [ev] w w' ks r.2) w.
Proof.
  intros Hok (l & s & Hk & Hl & (d & k & Hin) & Hmod).
  eapply wp_mono; [apply wp_and; [by apply react_event_done|]|].
  { apply (react_event_wp _ _ _ _ (λ r _, r.1 = Err x)); [done|congruence|].
    intros l' s' st ks' res e Hk' Hl' _ Hd Harm. simplify_eq. cbn.
    assert (st = (deliver_event tick0 ev (src_state s) []).1) as Hst.
    { rewrite (deliver_event_st _ _ _ _ ks). by rewrite Hd. }
    rewrite <- Hst in Hin, Hmod. unfold rearmed in Harm.
    assert (is_empty (dir_get st d) = false) as Hne by (apply is_empty_false; eauto).
    assert (negb (is_empty (dir_get st READ)) || negb (is_empty (dir_get st WRITE)) = true)
      as Hany by (apply orb_true_iff; destruct d; rewrite Hne; auto).
    rewrite Hany in Harm. by rewrite Harm in Hmod. }
  intros r w' [[??] ?]. done.
Qed.

Lemma wake_all_wp ks w (P : unit → World → Prop) :
  P tt (set_woken (w_woken w ++ ks) w) → wp (wake_all ks) P w.
Proof.
  revert w. induction ks as [|k ks IH]; intros w HP.
  - apply wp_ret. rewrite app_nil_r in HP. by destruct w.
  - cbn [wake_all]. wp_steps. apply wp_wake, IH. cbn. by rewrite <- app_assoc.
Qed.
End reactor_facts.

Section round_facts.
Context {Slab Queue : Type → Type} {Reg Env : Type}.
Context `{SlabOps Slab, QueueOps Queue, EnvOps Env, RegOps Reg Env}.
Context `{!SlabLaws Slab, !QueueLaws Queue}.
Local Abbreviation World := (World Slab Queue Reg Env).
Implicit Types w : World.

Lemma timers_inv_eq w w' :
  w_timers w' = w_timers w → w_timer_ops w' = w_timer_ops w →
  w_id_generator w' = w_id_generator w → timers_inv w → timers_inv w'.
Proof.
  intros Ht Hq Hi [Hok Hids Hpos].
  assert (live_timers w' = live_timers w) as Hl by (unfold live_timers; by rewrite Ht, Hq).
  split.
  - unfold queue_ok. by rewrite Hq.
  - unfold ids_ok. by rewrite Hl, Hi.
  - by rewrite Hi.
Qed.

Lemma sources_ok_io w w' :
  w_sources w' = w_sources w → w_heap w' = w_heap w → sources_ok w → sources_ok w'.
Proof. unfold sources_ok. by intros -> ->. Qed.

Lemma registered_io w w' l :
  w_sources w' = w_sources w → w_heap w' = w_heap w → registered w l → registered w' l.
Proof. unfold registered. by intros -> ->. Qed.

(** The wakers [process_timers] adds include those of the timers that were due
    before it. *)
Lemma process_timers_due `{!ClockLaws Env} w now key k :
  live_timers w !! key = Some k → key.1 ≤ env_time (w_env w) → env_time (w_env w) ≤ now →
  k ∈ (btree_iter (due now (live_timers w))).*2.
Proof.
  intros Hk Hle Hnow. apply list_elem_of_fmap. exists (key, k). split; [done|].
  apply elem_of_btree_iter. rewrite lookup_due, decide_True; [done|]. cbn in *. lia.
Qed.

Context `{!ClockLaws Env}.

(** The end of a round that wakes [ks], seen from its start. *)
Lemma wake_all_round {A} ks (r : A) w w1 (Q : World → Prop) :
  sources_ok w1 → timers_inv w1 → w_ticker w1 = usize_wrap (w_ticker w + 1) →
  (∀ l, registered w l → registered w1 l) →
  (∀ w', w_ticker w' = usize_wrap (w_ticker w + 1) → sources_ok w' → timers_inv w' →
     (∀ l, registered w l → registered w' l) → w_woken w' = w_woken w1 ++ ks → Q w') →
  wp (wake_all ks ;; mret r : M World A) (λ r' w', r' = r ∧ Q w') w1.
Proof.
  intros Hok Hinv Ht Hreg HQ. apply wp_bind, wake_all_wp, wp_ret. split; [done|].
  apply HQ; try done. by eapply (timers_inv_eq w1).
Qed.

(** A round that ends by waking [ks]. *)
Lemma round_finish ans ks r w w1 :
  sources_ok w1 → timers_inv w1 → w_ticker w1 = usize_wrap (w_ticker w + 1) →
  (∀ l, registered w l → registered w1 l) →
  (∀ key k, live_timers w !! key = Some k → key.1 ≤ env_time (w_env w) → k ∈ ks) →
  (∀ x, ans = Err x → r = if decide (x = Interrupted) then Ok tt else Err x) →
  (∀ n evs, ans = Ok (n, evs) → r = Ok tt) →
  (∀ n evs ev l s d k, ans = Ok (n, evs) → n ≠ 0 → ev ∈ evs →
     slab_map (w_sources w) !! ev_key ev = Some l → w_heap w !! l = Some s →
     ev_flag ev d = true → k ∈ dir_wakers (dir_get (src_state s) d) → k ∈ ks) →
  wp (wake_all ks ;; mret r : M World _) (round_spec w ans) w1.
Proof.
  intros Hok Hinv Ht Hreg Hdue Herr Hgood Hevs. eapply wp_mono.
  - apply (wake_all_round ks r w w1 (λ w', w_ticker w' = usize_wrap (w_ticker w + 1) ∧
      sources_ok w' ∧ timers_inv w' ∧ (∀ l, registered w l → registered w' l) ∧
      w_woken w' = w_woken w1 ++ ks)); done.
  - intros r' w' (-> & Ht' & Hok' & Hinv' & Hreg' & Hwk).
    split; try done; rewrite ?Hwk; intros.
    + exfalso. erewrite Hgood in * by done. done.
    + apply elem_of_app. right. eauto.
    + apply elem_of_app. right. eauto.
Qed.

(** A round that [modify(..)?] leaves with the events of [evs] under way. *)
Lemma round_abort n evs w w1 w2 x :
  sources_ok w1 → timers_inv w1 → w_ticker w1 = usize_wrap (w_ticker w + 1) →
  (∀ l, registered w l → registered w1 l) → w_woken w1 = w_woken w →
  events_frame w1 w2 → round_spec w (Ok (n, evs)) (Err x) w2.
Proof.
  intros Hok Hinv Ht Hreg Hwk Hf. pose proof Hf as [Htick _ _ _ _ Hwoken _].
  split; try done.
  - congruence.
  - by eapply sources_ok_frame.
  - eapply (timers_inv_eq w1); try done; apply Hf.
  - intros l Hl. eapply registered_frame; [by apply Hreg|done].
  - congruence.
  - intros [?|[y ?]]; done.
Qed.

Lemma react_wp timeout w :
  sources_ok w → timers_inv w →
  wp (react timeout)
    (λ r w', ∃ d, round_spec w (env_wait (env_now (w_env w)).2 d).1 r w') w.
Proof.
  intros Hok Hinv. unfold react, react_prepare. do 2 apply wp_bind.
  eapply wp_mono; [by apply process_timers_wp|]. cbn beta.
  intros [dur ks] w1 (now & Henv & Hle & Hnow & Hks & Hl & Hd & Hnil & Hinv1 & Hio).
  destruct Hio as [Htick Hsrc Hheap Hwoken]. cbn in Hks. wp_steps.
  apply bump_ticker_wp. wp_steps. apply wp_env_call. cbn [w_env set_ticker].
  rewrite Henv. set (d := merge_timeout dur timeout).
  destruct (env_wait (env_now (w_env w)).2 d) as [ans e] eqn:Hwait. cbn [fst snd].
  set (w2 := set_env e (set_ticker (usize_wrap (w_ticker w1 + 1)) w1)).
  assert (sources_ok w2) as Hok2 by (by eapply (sources_ok_io w)).
  assert (timers_inv w2) as Hinv2 by (by eapply (timers_inv_eq w1)).
  assert (∀ l, registered w l → registered w2 l) as Hreg2
    by (intros l; by apply registered_io).
  assert (w_ticker w2 = usize_wrap (w_ticker w + 1)) as Ht2 by (cbn; by rewrite Htick).
  assert (Hdue : ∀ key k, live_timers w !! key = Some k →
    key.1 ≤ env_time (w_env w) → k ∈ ks).
  { intros key k Hk Hk1. rewrite Hks. by eapply process_timers_due. }
  eapply wp_mono with (P := round_spec w ans).
  2:{ intros r w' Hr. exists d. by rewrite Hwait. }
  destruct ans as [[n evs]|x].
  - destruct (decide (n = 0)) as [Hn|Hn].
    + wp_steps. destruct (decide (d = Some (from_secs 0))) as [Hd0|Hd0].
      * apply wp_ret. apply round_finish; try done; naive_solver.
      * eapply wp_mono; [by apply process_timers_wp|]. cbn beta.
        intros [dur' ks'] w3 (now' & _ & _ & _ & Hks' & _ & _ & _ & Hinv3 & Hio3).
        destruct Hio3 as [Htick3 Hsrc3 Hheap3 _]. cbn in Hks'.
        apply round_finish; try done; [by eapply (sources_ok_io w2)|congruence| | |].
        -- intros l Hl'. by eapply (registered_io w2), Hreg2.
        -- intros key k Hk Hk1. rewrite Hks'. apply elem_of_app. left. eauto.
        -- naive_solver.
    + wp_steps. eapply wp_mono; [by apply react_events_wp|].
      intros [res ks'] w3 [Hf3 Hdone]. cbn in Hdone. pose proof Hf3 as [Htick3 _ _ _ _ _ _].
      destruct res as [[]|err].
      2:{ wp_steps. eapply (round_abort n evs w w2); done. }
      specialize (Hdone eq_refl) as [Hkeep _ _ Hwk _ _ _]. apply round_finish; try done.
      * by eapply sources_ok_frame.
      * eapply (timers_inv_eq w2); try done; apply Hf3.
      * congruence.
      * intros l Hl'. eapply registered_frame; [by apply Hreg2|done].
      * eauto.
      * intros n' evs' ev l s dd k [= <- <-] _ Hev Hsl Hhp.
        apply (Hwk ev l s dd k Hev); cbn; by rewrite ?Hsrc, ?Hheap.
  - destruct x as [| |c]; apply round_finish; try done; naive_solver.
Qed.
End round_facts.

(** * Properties of the reactor *)

Section reactor_properties.
  Context {Slab Queue : Type → Type} {Reg Env : Type}.
  Context `{SlabOps Slab, QueueOps Queue, EnvOps Env, RegOps Reg Env}.
  Context `{!SlabLaws Slab, !QueueLaws Queue}.
  Local Abbreviation World := (World Slab Queue Reg Env).

(** [insert_io] does not panic; it returns a source of its own, with no waker and
    no tick, in the table under a key that was free; when the poller refuses the
    registration it returns the poller's error and the table is what it was. Other
    sources stay registered. *)
Theorem insert_io_spec (raw : Reg) (w : World) (Hok : sources_ok w) :
  wp (insert_io raw)
    (λ r w', sources_ok w' ∧ (∀ l, registered w l → registered w' l) ∧
       match r with
       | Ok l => w_heap w !! l = None ∧ registered w' l ∧
           ∃ k, slab_map (w_sources w) !! k = None ∧
             slab_map (w_sources w') = <[k := l]> (slab_map (w_sources w)) ∧
             w_heap w' !! l = Some (mkSource raw k
               (mkDirections Direction_default Direction_default)) ∧
             (reg_add raw (w_env w) k).1 = Ok tt
       | Err err => slab_map (w_sources w') = slab_map (w_sources w) ∧
           ∃ k, (reg_add raw (w_env w) k).1 = Err err
       end) w.
Proof.
  unfold insert_io. apply wp_bind, insert_io_entry_wp. intros l Hl.
  pose proof (slab_vacant (w_sources w)) as Hvac.
  set (k := slab_vacant_key (w_sources w)) in *.
  set (s := mkSource raw k (mkDirections Direction_default Direction_default)).
  assert (Hold : ∀ k' l', slab_map (w_sources w) !! k' = Some l' → l' ≠ l).
  { intros k' l' Hk' ->. destruct (Hok _ _ Hk') as (s' & Hs' & _). congruence. }
  eapply insert_io_register_wp; cbn [w_heap w_sources set_sources set_heap].
  { apply lookup_insert_eq. }
  { rewrite slab_map_insert. apply lookup_insert_eq. }
  cbn [src_registration src_key w_env set_sources set_heap].
  intros [[]|err] e Hadd.
  - cbn. rewrite slab_map_insert. split_and!; try done.
    + intros k' l'. cbn. rewrite slab_map_insert. fold k.
      intros [[<- <-]|[Hne Hk']]%lookup_insert_Some.
      * exists s. by rewrite lookup_insert_eq.
      * destruct (Hok _ _ Hk') as (s' & Hs' & Hkey). exists s'.
        rewrite lookup_insert_ne; [done|]. apply not_eq_sym. by eapply Hold.
    + intros l' (s' & Hs' & Hk'). exists s'. cbn. rewrite slab_map_insert. fold k.
      rewrite !lookup_insert_ne; [done|congruence|congruence].
    + exists s. cbn. rewrite slab_map_insert. by rewrite !lookup_insert_eq.
    + exists k. split_and!; [done|done|apply lookup_insert_eq|].
      exact (f_equal fst Hadd).
  - cbn. intros sl. rewrite slab_map_insert. fold k.
    rewrite delete_insert_id by done. intros Hsl. split_and!; try done.
    + intros k' l'. cbn. rewrite Hsl. intros Hk'.
      destruct (Hok _ _ Hk') as (s' & Hs' & Hkey). exists s'.
      rewrite lookup_insert_ne; [done|]. apply not_eq_sym. by eapply Hold.
    + intros l' (s' & Hs' & Hk'). exists s'. cbn. rewrite Hsl.
      rewrite lookup_insert_ne; [done|]. apply not_eq_sym. by eapply Hold.
    + exists k. exact (f_equal fst Hadd).
Qed.

(** [remove_io] of a registered source does not panic: the source leaves the table
    and all others stay, whatever the poller answers; its answer is returned. *)
Theorem remove_io_spec (l : loc) (w : World) (Hok : sources_ok w) (Hreg : registered w l) :
  wp (remove_io l)
    (λ r w', sources_ok w' ∧ ¬ registered w' l ∧
             (∀ l', l' ≠ l → registered w l' → registered w' l') ∧
             ∃ s, w_heap w !! l = Some s ∧
                  r = (reg_delete (src_registration s) (w_env w)).1) w.
Proof.
  destruct Hreg as (s & Hs & Hk). eapply remove_io_wp; [done|done|]. intros sl Hsl.
  split_and!; [| | |by exists s].
  - intros k' l'. cbn. rewrite Hsl. intros [Hne Hk']%lookup_delete_Some. eauto.
  - intros (s' & Hs' & Hk'). cbn in *. simplify_eq. rewrite Hsl, lookup_delete_eq in Hk'. done.
  - intros l' Hne (s' & Hs' & Hk'). exists s'. cbn. split; [done|].
    rewrite Hsl. rewrite lookup_delete_ne; [done|]. congruence.
Qed.

(** A round of [react] does not panic, whatever the poller answers and whatever is
    registered: it bumps the ticker once, keeps the invariants of the table and of
    the timers and the registered sources, treats an interrupted wait as a success and
    returns any other error of the wait. *)
Theorem react_total `{!ClockLaws Env} (timeout : option Duration) (w : World)
    (Hok : sources_ok w) (Hinv : timers_inv w) :
  wp (react timeout)
    (λ r w', w_ticker w' = usize_wrap (w_ticker w + 1) ∧
             sources_ok w' ∧ timers_inv w' ∧
             (∀ l, registered w l → registered w' l) ∧
             ∃ d, ∀ x, (env_wait (env_now (w_env w)).2 d).1 = Err x →
                  r = if decide (x = Interrupted) then Ok tt else Err x) w.
Proof.
  eapply wp_mono; [by apply react_wp|]. intros r w' [d []]. split_and!; eauto.
Qed.

(** A round of [react] that succeeds wakes every task it should: the wakers of all
    timers due when it began, and, if [wait] reported events, all wakers of each
    direction an event reports of a registered source. *)
Theorem react_wakes `{!ClockLaws Env} (timeout : option Duration) (w : World)
    (Hok : sources_ok w) (Hinv : timers_inv w) :
  wp (react timeout)
    (λ r w', r = Ok tt →
       (∀ key k, live_timers w !! key = Some k → key.1 ≤ env_time (w_env w) →
                 k ∈ w_woken w') ∧
       ∃ d, ∀ n evs ev l s dir k,
         (env_wait (env_now (w_env w)).2 d).1 = Ok (n, evs) → n ≠ 0 → ev ∈ evs →
         slab_map (w_sources w) !! ev_key ev = Some l → w_heap w !! l = Some s →
         ev_flag ev dir = true → k ∈ dir_wakers (dir_get (src_state s) dir) →
         k ∈ w_woken w') w.
Proof.
  eapply wp_mono; [by apply react_wp|]. intros r w' [d []] Hr. split; eauto.
Qed.

(** C38 When re-registering a source fails in the middle of a round, [react] returns the
    error and wakes no one. If the poller refuses the source of the event [ev], after the
    events [evs1] before it have been delivered, then: [react] returns that error; no waker
    has been woken; the timers that were due have left the map; and the directions the
    events reported, those of [ev] included, hold no waker any more. And whenever a round
    that got events returns an error, it has woken no one. *)
Theorem react_modify_error_wakes_none `{!ClockLaws Env} (timeout : option Duration)
    (w : World) (Hok : sources_ok w) (Hinv : timers_inv w) :
  wp (react_prepare timeout)
    (λ p w1, let tick0 := usize_wrap (w_ticker w + 1) in
       ∀ n evs e evs1 ev evs2 ks1 w2 x,
         env_wait (w_env w1) p.1 = (Ok (n, evs), e) → n ≠ 0 → evs = evs1 ++ ev :: evs2 →
         react_events tick0 evs1 p.2 (set_env e (set_ticker tick0 w1)) = Ret ((Ok tt, ks1), w2) →
         refuses tick0 ev w2 x →
         ∃ w', react timeout w = Ret (Err x, w') ∧ w_woken w' = w_woken w ∧
           (∀ key, live_timers w' !! key =
              if decide (key.1 ≤ env_time (w_env w1)) then None else live_timers w !! key) ∧
           ∀ ev' l s d, ev' ∈ evs1 ++ [ev] → slab_map (w_sources w) !! ev_key ev' = Some l →
             w_heap w' !! l = Some s → ev_flag ev' d = true →
             ∀ k, k ∉ dir_wakers (dir_get (src_state s) d)) w ∧
  wp (react timeout)
    (λ r w', ∃ d, ∀ n evs x, (env_wait (env_now (w_env w)).2 d).1 = Ok (n, evs) →
       r = Err x → w_woken w' = w_woken w) w.
Proof.
  split; [|eapply wp_mono; [by apply react_wp|]; intros r w' [d []]; eauto].
  unfold react. unfold react_prepare at 1. apply wp_bind.
  assert (wp (react_prepare timeout) (λ p w1, w_env w1 = (env_now (w_env w)).2 ∧
    live_timers w1 = later (env_time (w_env w1)) (live_timers w) ∧ same_io w w1) w)
    as ([d ks] & w1 & Hprep & _ & Hl & [Htick Hsrc Hheap Hwoken]).
  { unfold react_prepare. apply wp_bind. eapply wp_mono; [by apply process_timers_wp|]. cbn beta.
    intros [dur ks] w1 (now & He & _ & -> & _ & Hl & _ & _ & _ & Hio). by apply wp_ret. }
  pose proof Hprep as Hp. unfold react_prepare in Hp.
  apply bind_ret_inv in Hp as (pd & w1' & Hpt & Hp). exists pd, w1'. split; [done|].
  destruct pd as [dur ks0]. unfold mret, M_ret in Hp. injection Hp as <- -> ->.
  apply wp_ret. cbn [fst snd]. intros n evs e evs1 ev evs2 ks1 w2 x Hwait Hn -> Hrun Href.
  set (tick0 := usize_wrap (w_ticker w + 1)) in *. set (w0 := set_env e (set_ticker tick0 w1)) in *.
  assert (sources_ok w0) as Hok0 by (by eapply (sources_ok_io w)).
  destruct (react_events_wp tick0 evs1 ks w0 Hok0) as (r1 & w2' & Hrun' & Hf1 & Hd1).
  rewrite Hrun in Hrun'. injection Hrun' as <- <-. specialize (Hd1 eq_refl). cbn in Hd1.
  destruct (react_event_refused tick0 ev ks1 w2 x) as ([r ks2] & w3 & He & Hr & Hf2 & Hd2);
    [by eapply sources_ok_frame|done|]. cbn in Hr, Hd2. subst r.
  pose proof (events_frame_trans _ _ _ Hf1 Hf2) as Hf. exists w3. split_and!.
  - unfold mbind at 1, M_bind at 1. rewrite Hprep.
    unfold bump_ticker, env_call, gets, modify, mbind, M_bind, mret, M_ret.
    cbn -[react_events env_wait decide]. rewrite Htick. fold tick0. rewrite Hwait.
    rewrite decide_False by done. fold w0.
    rewrite (react_events_app _ _ _ _ _ _ _ Hrun). cbn [react_events].
    unfold mbind, M_bind. by rewrite He.
  - by rewrite (events_woken _ _ Hf).
  - intros key. assert (live_timers w3 = live_timers w1) as ->.
    { unfold live_timers. by rewrite (events_timers _ _ Hf), (events_timer_ops _ _ Hf). }
    rewrite Hl. apply lookup_later.
  - intros ev' l s dd [Hev| ->%list_elem_of_singleton]%elem_of_app Hkey Hl' Hfl k Hin.
    + assert (is_Some (w_heap w2 !! l)) as [s2 Hs2].
      { pose proof (events_heap _ _ Hf2 l) as Hh. rewrite Hl' in Hh. destruct (w_heap w2 !! l); [by eexists|done]. }
      eapply (done_drained _ _ _ _ _ _ Hd1 ev' l s2 dd Hev); [by cbn; rewrite Hsrc|done|done|].
      by eapply (done_sub _ _ _ _ _ _ Hd2).
    + eapply (done_drained _ _ _ _ _ _ Hd2 ev l s dd); [by left| |done..].
      by rewrite (events_sources _ _ Hf1); cbn; rewrite Hsrc.
Qed.

(** [react] never sleeps too long: the timeout it blocks for is at most the
    caller's, and no timer that is still set falls due before it has passed; it blocks
    without limit only if the caller set none and no timer is set. *)
Theorem react_timeout `{!ClockLaws Env} (timeout : option Duration) (w : World)
    (Hinv : timers_inv w) :
  wp (react_prepare timeout)
    (λ r w', match r.1 with
       | None => timeout = None ∧ live_timers w = ∅ ∧ live_timers w' = ∅
       | Some d => (∀ t, timeout = Some t → d ≤ t) ∧
           (∀ key, is_Some (live_timers w' !! key) → env_time (w_env w') + d ≤ key.1)
       end) w.
Proof.
  unfold react_prepare. apply wp_bind.
  eapply wp_mono; [by apply process_timers_wp|]. cbn beta.
  intros [dur ks] w' (now & _ & Hle & Hnow & _ & Hl & Hd & _). cbn in Hd. wp_steps.
  pose proof (next_timer_spec now (live_timers w)) as Hnext. rewrite <- Hd, <- Hl in Hnext.
  cbn. destruct (merge_timeout dur timeout) as [d|] eqn:Hm.
  - split; [intros t Ht; eapply merge_timeout_le; eauto|].
    intros key Hkey. rewrite <- Hnow. destruct dur as [d'|].
    + destruct Hnext as (_ & Hnext & _). specialize (Hnext _ Hkey).
      assert (d ≤ d') by (eapply merge_timeout_le; eauto). lia.
    + rewrite Hl, Hnext, lookup_later, lookup_empty in Hkey. case_decide; by destruct Hkey.
  - apply merge_timeout_None in Hm as [-> ->]. split_and!; [done|done|].
    rewrite Hl, Hnext. apply map_eq. intros key. rewrite lookup_later, lookup_empty.
    by destruct (decide (key.1 ≤ now)).
Qed.

(** Delivering an event re-arms its source: if it succeeds, the poller's interest in
    the source covers every direction in which a task still waits, under the key of
    the source, and the interest in all other sources is as before. *)
Theorem react_event_rearms `{!RegLaws Reg Env} (tick0 : Z) (ev : Event)
    (ks : list Waker) (l : loc) (s : Source Slab Reg) (w : World)
    (Hok : sources_ok w) (Hk : slab_map (w_sources w) !! ev_key ev = Some l)
    (Hl : w_heap w !! l = Some s) :
  wp (react_event tick0 ev ks)
    (λ r w', r.1 = Ok tt → ∃ s', w_heap w' !! l = Some s' ∧
       (∀ d k, k ∈ dir_wakers (dir_get (src_state s') d) →
          ∃ ev', interest (w_env w') (src_registration s) = Some ev' ∧
                 ev_key ev' = ev_key ev ∧ ev_flag ev' d = true) ∧
       (∀ r', r' ≠ src_registration s → interest (w_env w') r' = interest (w_env w) r')) w.
Proof.
  apply react_event_wp; [done|congruence|].
  intros l' s' st ks' res e Hk' Hl' Hkey Hd Harm Hres. simplify_eq. cbn in Hres. subst res.
  eexists. cbn. rewrite lookup_insert_eq. split; [done|]. cbn [src_state set_src_state].
  unfold rearmed in Harm. destruct (_ || _) eqn:Hany.
  - apply reg_modify_ok in Harm as [(ev' & Hi & Hkey' & Hr & Hw) Ho]. split; [|done].
    intros d k Hin. exists ev'. split_and!; [done|by rewrite Hkey'|].
    assert (is_empty (dir_get st d) = false) as Hne by (apply is_empty_false; eauto).
    destruct d; [apply Hr|apply Hw]; cbn in *; by rewrite Hne.
  - destruct Harm as [_ ->]. apply orb_false_iff in Hany as [Hr Hw].
    apply negb_false_iff, is_empty_nil in Hr, Hw. split; [|done].
    intros d k Hin. destruct d; cbn in *; [rewrite Hr in Hin|rewrite Hw in Hin];
      by apply elem_of_nil in Hin.
Qed.
End reactor_properties.

(** * Witnesses *)

(** A reactor with one source, file descriptor 7 under key 0, that one task waits to
    read and another to write; the timer of a third is overdue. The poller plays
    [script] and refuses to modify the descriptors of [broken]. *)
Definition waker3 : Waker := mkWaker 3 100.

Definition reactor_example (script : list (N * io_result (list Event)))
    (broken : list Z) : RefWorld :=
  mkWorld (mkRefEnv 1000 1 script {[ 7 := mkEvent 0 true true ]} broken) 4
    ({[ 0 := 1%positive ]} : RefSlab loc) {[ (500, 1) := waker3 ]}
    (TIMER_QUEUE_SIZE, []) 2
    {[ 1%positive := mkSource (Unix.mkRegistration 7) 0
         (mkDirections (mkDirection 0 None (Some waker1) (∅ : RefSlab (option Waker)))
                       (mkDirection 0 None (Some waker2) (∅ : RefSlab (option Waker)))) ]}
    [].

(** The descriptor becomes readable. *)
Definition readable_script : list (N * io_result (list Event)) :=
  [(10%N, Ok [mkEvent 0 true false])].

Lemma reactor_example_sources script broken : sources_ok (reactor_example script broken).
Proof.
  intros k l. cbn. intros [<- <-]%lookup_singleton_Some. eexists. by split.
Qed.

Lemma reactor_example_timers script broken : timers_inv (reactor_example script broken).
Proof.
  split; [by exists TIMER_QUEUE_SIZE| |done].
  intros k [x Hx]. cbn in Hx. apply lookup_singleton_Some in Hx as [<- <-]. done.
Qed.

Lemma reactor_example_registered script broken :
  registered (reactor_example script broken) 1%positive.
Proof. eexists. by split. Qed.

#[export] Hint Resolve reactor_example_sources reactor_example_timers
  reactor_example_registered : aio.

Lemma insert_io_spec_witness :
  ∃ l w', insert_io (Unix.mkRegistration 9) (reactor_example [] []) = Ret (Ok l, w') ∧
          registered w' l ∧ registered w' 1%positive ∧ sources_ok w'.
Proof.
  destruct (insert_io_spec (Unix.mkRegistration 9) (reactor_example [] [])
              (reactor_example_sources [] [])) as (r & w' & Hrun & Hok & Hregs & Hr).
  assert (is_ok r = true) as Hisok.
  { assert (match insert_io (Unix.mkRegistration 9) (reactor_example [] []) with
            | Ret (r, _) => is_ok r | _ => false end = true) as Hc by (vm_compute; done).
    by rewrite Hrun in Hc. }
  destruct r as [l|]; [|done]. exists l, w'.
  split_and!; [done|apply Hr| |done]. apply Hregs, reactor_example_registered.
Defined.

Lemma remove_io_spec_witness :
  ∃ r w', remove_io 1%positive (reactor_example [] []) = Ret (r, w') ∧
          r = Ok tt ∧ ¬ registered w' 1%positive.
Proof.
  destruct (remove_io_spec 1%positive (reactor_example [] [])
              (reactor_example_sources [] []) (reactor_example_registered [] []))
    as (r & w' & Hrun & _ & Hreg & _ & s & Hs & ->).
  eexists _, w'. split_and!; [exact Hrun| |done].
  vm_compute in Hs. by injection Hs as <-.
Defined.

Lemma react_total_witness :
  ∃ w', react None (reactor_example [(10%N, Err (Other 9))] []) = Ret (Err (Other 9), w') ∧
        w_ticker w' = 5 ∧ registered w' 1%positive.
Proof.
  destruct (react_total None (reactor_example [(10%N, Err (Other 9))] [])
              (reactor_example_sources _ _) (reactor_example_timers _ _))
    as (r & w' & Hrun & Ht & _ & _ & Hreg & d & Herr).
  rewrite (Herr (Other 9)) in Hrun by done. exists w'.
  split_and!; [done|done|]. apply Hreg, reactor_example_registered.
Defined.

(** The reader and the task of the timer are woken; the writer keeps waiting. *)
Lemma react_wakes_witness :
  ∃ w', react None (reactor_example readable_script []) = Ret (Ok tt, w') ∧
        w_woken w' = [waker3; waker1] ∧ waker3 ∈ w_woken w'.
Proof.
  destruct (react_wakes None (reactor_example readable_script [])
              (reactor_example_sources _ _) (reactor_example_timers _ _))
    as (r & w' & Hrun & Hwakes).
  exists w'. pose proof Hrun as Hc. vm_compute in Hc. injection Hc as <- Hw'.
  split_and!; [done|by subst|].
  by apply (proj1 (Hwakes eq_refl) (500, 1)).
Defined.

(** The reader has been taken out of its direction, the timer out of the map: with the
    descriptor that cannot be modified, neither of them is woken. *)
Definition refused_prepare : (option Duration * list Waker) * RefWorld :=
  match react_prepare None (reactor_example readable_script [7]) with
  | Ret p => p
  | _ => ((None, []), reactor_example readable_script [7])
  end.

Lemma refused_prepared :
  react_prepare None (reactor_example readable_script [7]) = Ret refused_prepare.
Proof. exact eq_refl. Qed.
Lemma refused_waits :
  env_wait (w_env refused_prepare.2) refused_prepare.1.1 =
  (Ok (1, [mkEvent 0 true false]), (env_wait (w_env refused_prepare.2) refused_prepare.1.1).2).
Proof. vm_compute. exact eq_refl. Qed.

Lemma react_modify_error_wakes_none_witness :
  ∃ w', react None (reactor_example readable_script [7]) = Ret (Err (Other 5), w') ∧
        w_woken w' = [] ∧ live_timers w' !! (500, 1) = None ∧
        ∃ s, w_heap w' !! 1%positive = Some s ∧ waker1 ∉ dir_wakers (dir_get (src_state s) READ).
Proof.
  destruct (react_modify_error_wakes_none None (reactor_example readable_script [7])
              (reactor_example_sources _ _) (reactor_example_timers _ _))
    as [(p & w1 & Hrun & Hlost) _].
  rewrite refused_prepared in Hrun. assert (refused_prepare = (p, w1)) as Hp by congruence.
  assert (p = refused_prepare.1) as -> by by rewrite Hp.
  assert (w1 = refused_prepare.2) as -> by by rewrite Hp.
  destruct (Hlost 1 [mkEvent 0 true false] _ [] (mkEvent 0 true false) [] _ _ (Other 5)
              refused_waits ltac:(discriminate) eq_refl eq_refl)
    as (w' & Hreact & Hwoken & Hl & Hdir).
  { eexists _, _. split; [exact eq_refl|]. split; [exact eq_refl|]. split.
    - exists WRITE, waker2. vm_compute. by left.
    - vm_compute. exact eq_refl. }
  exists w'. split_and!; [exact Hreact|exact Hwoken| |].
  - rewrite Hl, decide_True; [exact eq_refl|]. vm_compute. discriminate.
  - assert (is_Some (w_heap w' !! 1%positive)) as [s Hs].
    { pose proof Hreact as Hc. vm_compute in Hc. injection Hc as <-. by eexists. }
    exists s. split; [exact Hs|]. by apply (Hdir (mkEvent 0 true false) 1%positive s READ); [left| |..].
Defined.

Lemma react_timeout_witness :
  ∃ d ks w', react_prepare (Some 70) (reactor_example [] []) = Ret ((Some d, ks), w') ∧
             d ≤ 70.
Proof.
  destruct (react_timeout (Some 70) (reactor_example [] []) (reactor_example_timers _ _))
    as ([dur ks] & w' & Hrun & Hd).
  destruct dur as [d|]; [|vm_compute in Hrun; discriminate].
  exists d, ks, w'. split; [done|]. by apply Hd.
Defined.

Lemma react_event_rearms_witness :
  ∃ r w', react_event 5 (mkEvent 0 true false) [] (reactor_example [] []) = Ret (r, w') ∧
          r = (Ok tt, [waker1]) ∧
          ∃ ev', interest (w_env w') (Unix.mkRegistration 7) = Some ev' ∧
                 ev_writable ev' = true.
Proof.
  destruct (react_event_rearms 5 (mkEvent 0 true false) [] 1%positive _
              (reactor_example [] []) (reactor_example_sources _ _) eq_refl eq_refl)
    as (r & w' & Hrun & Harm).
  exists r, w'. pose proof Hrun as Hc. vm_compute in Hc. injection Hc as <- Hw'.
  split_and!; [done|done|]. destruct (Harm eq_refl) as (s' & Hs' & Hcov & _).
  destruct (Hcov WRITE waker2) as (ev' & Hi & _ & Hf).
  - subst w'. vm_compute in Hs'. simplify_eq. vm_compute. by left.
  - exists ev'. by split.
Defined.
