(* ===== verification/Ready.v ===== *)
(** Waiting for a source (src/src/reactor.rs: [Source::poll_ready] behind
    [poll_readable] and [poll_writable]; the future [Ready] behind [readable] and
    [writable], its [poll] and its [drop]). *)
From S2P Require Import Prelude Std Deps Registration RefDeps World RefWorld Timers.
From S2P Require Import Source Reactor.

(** * Operations *)

(** [struct Ready]: the handle is the source of the [Async] it borrows. *)
Record ReadyFut : Type := mkReady {
  rd_source : loc;
  rd_dir : Dir;
  rd_ticks : option (Z * Z);
  rd_index : option Z;
}.

(** [Source::ready] and its four callers. *)
Definition ready (handle : loc) (dir : Dir) : ReadyFut :=
  {| rd_source := handle; rd_dir := dir; rd_ticks := None; rd_index := None |}.
Definition readable (handle : loc) : ReadyFut := ready handle READ.
Definition writable (handle : loc) : ReadyFut := ready handle WRITE.

(** The reactor has delivered an event: the tick is neither of those remembered. *)
Definition event_delivered (ticks : option (Z * Z)) (tick : Z) : bool :=
  match ticks with
  | Some (a, b) => negb (tick =? a) && negb (tick =? b)
  | None => false
  end.

Section ready.
  Context {Slab Queue : Type → Type} {Reg Env : Type}.
  Context `{SlabOps Slab, QueueOps Queue, EnvOps Env, RegOps Reg Env}.
  Local Abbreviation World := (World Slab Queue Reg Env).

(** The end of both polls: the state is written and, if the direction was empty, the
    interest of the source is registered. *)
Definition update_interest (source : loc) (st : Directions Slab) (was_empty : bool)
    : M World (Poll (io_result unit)) :=
  src ← load_source source;
  store_state source st ;;
  if was_empty then
    res ← env_call (λ e, reg_modify (src_registration src) e
                           (interest_event (src_key src) st));
    match res with
    | Err err => mret (Ready (Err err))
    | Ok _ => mret Pending
    end
  else mret Pending.

(** [Source::poll_ready] *)
Definition poll_ready (source : loc) (dir : Dir) (cx : Waker)
    : M World (Poll (io_result unit)) :=
  src ← load_source source;
  let st := src_state src in
  let d := dir_get st dir in
  if event_delivered (ticks d) (tick d) then
    store_state source (dir_set st dir (set_ticks None d)) ;;
    mret (Ready (Ok tt))
  else
    let was_empty := is_empty d in
    let register :=
      ticker ← gets w_ticker;
      update_interest source
        (dir_set st dir (set_ticks (Some (ticker, tick d)) (set_waker (Some cx) d)))
        was_empty in
    match waker d with
    | Some w => if will_wake w cx then mret Pending else wake w ;; register
    | None => register
    end.

Definition poll_readable (source : loc) (cx : Waker) : M World (Poll (io_result unit)) :=
  poll_ready source READ cx.
Definition poll_writable (source : loc) (cx : Waker) : M World (Poll (io_result unit)) :=
  poll_ready source WRITE cx.

(** [Ready::poll]; the future it leaves is returned with the answer. *)
Definition ready_poll (f : ReadyFut) (cx : Waker)
    : M World (Poll (io_result unit) * ReadyFut) :=
  src ← load_source (rd_source f);
  let st := src_state src in
  let d := dir_get st (rd_dir f) in
  if event_delivered (rd_ticks f) (tick d) then mret (Ready (Ok tt), f)
  else
    let was_empty := is_empty d in
    '(i, ws, f) ←
      match rd_index f with
      | Some i => mret (i, wakers d, f)
      | None =>
          let '(i, ws) := slab_insert (wakers d) None in
          ticker ← gets w_ticker;
          mret (i, ws, mkReady (rd_source f) (rd_dir f) (Some (ticker, tick d)) (Some i))
      end;
    ws ← unwrap (slab_index_write ws i (Some cx));
    res ← update_interest (rd_source f) (dir_set st (rd_dir f) (set_wakers ws d)) was_empty;
    mret (res, f).

(** [Readable::poll], [Writable::poll] and their owned variants: [ready!(..)?] and
    then [Poll::Ready(Ok(()))]. *)
Definition readable_poll (f : ReadyFut) (cx : Waker)
    : M World (Poll (io_result unit) * ReadyFut) :=
  '(res, f) ← ready_poll f cx;
  match res with
  | Pending => mret (Pending, f)
  | Ready (Err err) => mret (Ready (Err err), f)
  | Ready (Ok _) => mret (Ready (Ok tt), f)
  end.

(** [Ready::drop] *)
Definition ready_drop (f : ReadyFut) : M World unit :=
  match rd_index f with
  | Some key =>
      src ← load_source (rd_source f);
      let st := src_state src in
      let d := dir_get st (rd_dir f) in
      if slab_contains (wakers d) key then
        '(_, ws) ← unwrap (slab_remove (wakers d) key);
        store_state (rd_source f) (dir_set st (rd_dir f) (set_wakers ws d))
      else mret tt
  | None => mret tt
  end.

(** * Invariant *)

(** What a future relies on: its source exists, and the slot it has is occupied. *)
Definition slot_ok `{!SlabLaws Slab} (w : World) (f : ReadyFut) : Prop :=
  ∃ s, w_heap w !! rd_source f = Some s ∧
    ∀ i, rd_index f = Some i →
      is_Some (slab_map (wakers (dir_get (src_state s) (rd_dir f))) !! i).

(** The interest of source [l] is asked for in its new state [st]: [res] and [e] are
    the answer and the environment it leaves. *)
Definition asked (s : Source Slab Reg) (st : Directions Slab) (was_empty : bool) (w : World)
    (res : Poll (io_result unit)) (e : Env) : Prop :=
  if was_empty then
    ∃ r, reg_modify (src_registration s) (w_env w) (interest_event (src_key s) st) = (r, e) ∧
         res = match r with Ok _ => Pending | Err x => Ready (Err x) end
  else res = Pending ∧ e = w_env w.

(** The world with the state of a source, and the environment, replaced. *)
Definition with_state (l : loc) (s : Source Slab Reg) (st : Directions Slab) (e : Env)
    (w : World) : World :=
  set_env e (set_heap (<[l := set_src_state st s]> (w_heap w)) w).

(** The slot a future uses: its own, or a new one with the ticks of this moment. *)
Definition slot_of `{!SlabLaws Slab} (f : ReadyFut) (d : Direction Slab) (w : World) (i : Z)
    (f' : ReadyFut) : Prop :=
  match rd_index f with
  | Some j => i = j ∧ f' = f
  | None => slab_map (wakers d) !! i = None ∧
            f' = mkReady (rd_source f) (rd_dir f) (Some (w_ticker w, tick d)) (Some i)
  end.
End ready.

(** * Facts *)

Lemma event_delivered_true ticks tick :
  event_delivered ticks tick = true ↔ ∃ a b, ticks = Some (a, b) ∧ tick ≠ a ∧ tick ≠ b.
Proof.
  destruct ticks as [[a b]|]; cbn; [|naive_solver].
  rewrite andb_true_iff, !negb_true_iff, !Z.eqb_neq. naive_solver.
Qed.

Section ready_facts.
Context {Slab Queue : Type → Type} {Reg Env : Type}.
Context `{SlabOps Slab, QueueOps Queue, EnvOps Env, RegOps Reg Env}.
Context `{!SlabLaws Slab}.
Local Abbreviation World := (World Slab Queue Reg Env).
Implicit Types w : World.

Lemma alter_state l s st (h : gmap loc (Source Slab Reg)) :
  h !! l = Some s → alter (set_src_state st) l h = <[l := set_src_state st s]> h.
Proof.
  intros Hl. apply map_eq. intros l'. rewrite lookup_alter, lookup_insert.
  case_decide; [|done]. subst. by rewrite Hl.
Qed.

Lemma update_interest_wp l s st was_empty w (P : Poll (io_result unit) → World → Prop) :
  w_heap w !! l = Some s →
  (∀ res e, asked s st was_empty w res e → P res (with_state l s st e w)) →
  wp (update_interest l st was_empty) P w.
Proof.
  intros Hl HP. unfold update_interest. wp_steps. eapply wp_load_source; [done|].
  wp_steps. apply wp_store_state. rewrite (alter_state _ _ _ _ Hl).
  unfold asked, with_state in HP. destruct was_empty.
  - wp_steps. apply wp_env_call. cbn.
    destruct (reg_modify _ _ _) as [[[]|x] e] eqn:Hm; cbn;
      apply wp_ret, HP; by eexists.
  - apply wp_ret. specialize (HP Pending (w_env w) (conj eq_refl eq_refl)).
    by destruct w.
Qed.

Lemma slab_index_write_Some {A} (s : Slab A) i a :
  is_Some (slab_map s !! i) →
  slab_index_write s i a = Some (slab_write s i a) ∧
  slab_map (slab_write s i a) = <[i := a]> (slab_map s).
Proof.
  intros Hi. unfold slab_index_write. pose proof Hi as ->%slab_contains_map.
  split; [done|]. rewrite slab_map_write. destruct Hi as [b Hb].
  apply map_eq. intros j. rewrite lookup_alter, lookup_insert.
  case_decide; [|done]. subst. by rewrite Hb.
Qed.

Lemma poll_ready_wp l s dir cx w (P : Poll (io_result unit) → World → Prop) :
  let d := dir_get (src_state s) dir in
  let st' := dir_set (src_state s) dir
               (set_ticks (Some (w_ticker w, tick d)) (set_waker (Some cx) d)) in
  w_heap w !! l = Some s →
  (event_delivered (ticks d) (tick d) = true →
     P (Ready (Ok tt))
       (with_state l s (dir_set (src_state s) dir (set_ticks None d)) (w_env w) w)) →
  (event_delivered (ticks d) (tick d) = false → waker d = Some cx → P Pending w) →
  (event_delivered (ticks d) (tick d) = false → waker d ≠ Some cx →
     ∀ res e, asked s st' (is_empty d) w res e →
     P res (set_woken (w_woken w ++ option_list (waker d)) (with_state l s st' e w))) →
  wp (poll_ready l dir cx) P w.
Proof.
  intros d st' Hl Hdel Hsame Hreg. unfold poll_ready. wp_steps.
  eapply wp_load_source; [done|]. fold d. destruct (event_delivered _ _).
  { wp_steps. apply wp_store_state. rewrite (alter_state _ _ _ _ Hl). wp_steps.
    specialize (Hdel eq_refl). by destruct w. }
  destruct (waker d) as [k|] eqn:Hk.
  - destruct (will_wake k cx) eqn:Hww.
    { apply will_wake_spec in Hww as ->. apply wp_ret. by apply Hsame. }
    assert (Some k ≠ Some cx) as Hne.
    { intros [= ->]. by rewrite will_wake_refl in Hww. }
    wp_steps. apply wp_wake. wp_steps. eapply (update_interest_wp l s); [done|].
    intros res e Ha. by apply Hreg.
  - wp_steps. eapply (update_interest_wp l s); [done|]. intros res e Ha.
    specialize (Hreg eq_refl ltac:(done) res e Ha). cbn [option_list] in Hreg.
    rewrite app_nil_r in Hreg. by destruct w.
Qed.

Lemma ready_poll_wp f s cx w (P : Poll (io_result unit) * ReadyFut → World → Prop) :
  let d := dir_get (src_state s) (rd_dir f) in
  w_heap w !! rd_source f = Some s →
  (∀ i, rd_index f = Some i → is_Some (slab_map (wakers d) !! i)) →
  (event_delivered (rd_ticks f) (tick d) = true → P (Ready (Ok tt), f) w) →
  (event_delivered (rd_ticks f) (tick d) = false → ∀ i f' ws res e,
     slot_of f d w i f' → slab_map ws = <[i := Some cx]> (slab_map (wakers d)) →
     asked s (dir_set (src_state s) (rd_dir f) (set_wakers ws d)) (is_empty d) w res e →
     P (res, f')
       (with_state (rd_source f) s
          (dir_set (src_state s) (rd_dir f) (set_wakers ws d)) e w)) →
  wp (ready_poll f cx) P w.
Proof.
  intros d Hl Hslot Hdel Hreg. unfold ready_poll. wp_steps.
  eapply wp_load_source; [done|]. fold d. destruct (event_delivered _ _).
  { apply wp_ret. by apply Hdel. }
  specialize (Hreg eq_refl). unfold slot_of in Hreg.
  destruct (rd_index f) as [j|] eqn:Hj.
  - wp_steps. destruct (slab_index_write_Some (wakers d) j (Some cx)) as [Hw Hm].
    { by apply Hslot. }
    eapply wp_unwrap; [exact Hw|]. wp_steps. eapply (update_interest_wp _ s); [done|].
    intros res e Ha. wp_steps. by eapply (Hreg j).
  - pose proof (slab_insert_key (wakers d) None) as Hkey.
    pose proof (slab_map_insert (wakers d) None) as Hins.
    pose proof (slab_vacant (wakers d)) as Hvac.
    destruct (slab_insert (wakers d) None) as [i ws] eqn:Hi. cbn in Hkey, Hins. subst i.
    wp_steps.
    destruct (slab_index_write_Some ws (slab_vacant_key (wakers d)) (Some cx)) as [Hw Hm].
    { rewrite Hins, lookup_insert_eq. eauto. }
    eapply wp_unwrap; [exact Hw|]. wp_steps.
    eapply (update_interest_wp _ s); [done|]. intros res e Ha. wp_steps.
    eapply (Hreg (slab_vacant_key (wakers d))); [by split| |done].
    by rewrite Hm, Hins, insert_insert_eq.
Qed.

Lemma ready_drop_wp f w (P : unit → World → Prop) :
  slot_ok w f →
  (rd_index f = None → P tt w) →
  (∀ s i ws, w_heap w !! rd_source f = Some s → rd_index f = Some i →
     slab_map ws = delete i (slab_map (wakers (dir_get (src_state s) (rd_dir f)))) →
     P tt (with_state (rd_source f) s
             (dir_set (src_state s) (rd_dir f)
                (set_wakers ws (dir_get (src_state s) (rd_dir f)))) (w_env w) w)) →
  wp (ready_drop f) P w.
Proof.
  intros (s & Hl & Hslot) Hnone Hsome. unfold ready_drop.
  destruct (rd_index f) as [i|]; [|by apply wp_ret, Hnone].
  destruct (Hslot i eq_refl) as [o Ho]. wp_steps. eapply wp_load_source; [done|].
  assert (slab_contains (wakers (dir_get (src_state s) (rd_dir f))) i = true) as ->.
  { apply slab_contains_map. eauto. }
  wp_steps. eapply wp_slab_remove; [done|]. intros ws Hws. apply wp_store_state.
  rewrite (alter_state _ _ _ _ Hl). specialize (Hsome s i ws Hl eq_refl Hws).
  by destruct w.
Qed.
End ready_facts.

(** * Properties of the polls *)

Section ready_properties.
  Context {Slab Queue : Type → Type} {Reg Env : Type}.
  Context `{SlabOps Slab, QueueOps Queue, EnvOps Env, RegOps Reg Env}.
  Context `{!SlabLaws Slab}.
  Local Abbreviation World := (World Slab Queue Reg Env).

(** C25 [poll_ready] completes exactly when the tick of the direction is neither of
    those it remembered, and then forgets them; otherwise it leaves the waker of the
    context registered, having woken a different waker it replaces and remembered the
    ticks of this moment. The other direction is not touched. *)
Theorem poll_ready_spec (l : loc) (s : Source Slab Reg) (dir : Dir) (cx : Waker)
    (w : World) (Hl : w_heap w !! l = Some s) :
  let d := dir_get (src_state s) dir in
  wp (poll_ready l dir cx)
    (λ r w', ∃ s', w_heap w' !! l = Some s' ∧ src_id s' = src_id s ∧
       (∀ dir', dir' ≠ dir → dir_get (src_state s') dir' = dir_get (src_state s) dir') ∧
       let d' := dir_get (src_state s') dir in
       wakers d' = wakers d ∧ tick d' = tick d ∧
       if event_delivered (ticks d) (tick d)
       then r = Ready (Ok tt) ∧ waker d' = waker d ∧ ticks d' = None ∧ w_woken w' = w_woken w
       else r ≠ Ready (Ok tt) ∧ waker d' = Some cx ∧
            (waker d = Some cx → ticks d' = ticks d ∧ w_woken w' = w_woken w) ∧
            (waker d ≠ Some cx → ticks d' = Some (w_ticker w, tick d) ∧
               w_woken w' = w_woken w ++ option_list (waker d))) w.
Proof.
  intros d. apply (poll_ready_wp l s); [done|..]; fold d.
  - intros Hdel. eexists. cbn. rewrite lookup_insert_eq. split; [done|].
    cbn. rewrite dir_get_set_eq, Hdel. split_and!; try done.
    intros dir' Hne. by rewrite dir_get_set_ne.
  - intros Hdel Hk. exists s. fold d. rewrite Hdel. by split_and!.
  - intros Hdel Hk res e Ha. eexists. cbn. rewrite lookup_insert_eq. split; [done|].
    cbn. rewrite dir_get_set_eq, Hdel. cbn. split_and!; try done.
    + intros dir' Hne. by rewrite dir_get_set_ne.
    + unfold asked in Ha. destruct (is_empty d); [|by destruct Ha as [-> _]].
      by destruct Ha as ([[]|x] & _ & ->).
Qed.

(** C39 When the poller refuses the interest of a [poll_ready], the error is returned
    but the waker stays behind: the direction counts as waited for, so polling again
    with the same waker returns [Pending], asks the poller nothing and changes
    nothing. *)
Theorem poll_ready_error_sticks (l : loc) (s : Source Slab Reg) (dir : Dir) (cx : Waker)
    (err : io_error) (w : World) (Hl : w_heap w !! l = Some s) :
  wp (poll_ready l dir cx)
    (λ r w', r = Ready (Err err) → poll_ready l dir cx w' = Ret (Pending, w')) w.
Proof.
  apply (poll_ready_wp l s); [done|done|done|].
  intros Hdel Hk res e Ha Hres.
  set (d := dir_get (src_state s) dir) in *.
  set (d' := set_ticks (Some (w_ticker w, tick d)) (set_waker (Some cx) d)) in *.
  set (s' := set_src_state (dir_set (src_state s) dir d') s).
  assert (dir_get (src_state s') dir = d') as Hd' by (cbn; apply dir_get_set_eq).
  assert (event_delivered (ticks d') (tick d') = false) as Hdel'.
  { apply not_true_iff_false. rewrite event_delivered_true. cbn. naive_solver. }
  match goal with |- poll_ready _ _ _ ?w1 = _ => set (w' := w1) end.
  assert (w_heap w' !! l = Some s') as Hl' by (cbn; apply lookup_insert_eq).
  assert (wp (poll_ready l dir cx) (λ r w2, r = Pending ∧ w2 = w') w')
    as (r & w2 & Hrun & -> & ->); [|done].
  apply (poll_ready_wp l s' dir); [done|..]; rewrite Hd', Hdel'; naive_solver.
Qed.

(** A future [Ready] completes exactly when the tick of its direction is neither of
    those it remembered, and then changes nothing; it never does on its first poll.
    Otherwise the waker of the context is in the slot of the future, whose key and
    ticks it keeps from its first poll, and no other slot has changed. *)
Theorem ready_poll_spec (f : ReadyFut) (cx : Waker) (w : World) (Hf : slot_ok w f) :
  wp (ready_poll f cx)
    (λ '(r, f') w', slot_ok w' f' ∧ ∃ s s', w_heap w !! rd_source f = Some s ∧
       w_heap w' !! rd_source f = Some s' ∧ src_id s' = src_id s ∧
       let d := dir_get (src_state s) (rd_dir f) in
       let d' := dir_get (src_state s') (rd_dir f) in
       if event_delivered (rd_ticks f) (tick d) then r = Ready (Ok tt) ∧ f' = f ∧ w' = w
       else r ≠ Ready (Ok tt) ∧ ∃ i, slot_of f d w i f' ∧
            slab_map (wakers d') = <[i := Some cx]> (slab_map (wakers d)) ∧
            tick d' = tick d ∧ waker d' = waker d ∧ ticks d' = ticks d) w.
Proof.
  destruct Hf as (s & Hl & Hslot). eapply ready_poll_wp; [done|done|..].
  - intros Hdel. split; [by exists s|]. exists s, s. cbv zeta. rewrite Hdel. done.
  - intros Hdel i f' ws res e Hi Hws Ha.
    set (s' := set_src_state (dir_set (src_state s) (rd_dir f)
                 (set_wakers ws (dir_get (src_state s) (rd_dir f)))) s).
    assert (rd_source f' = rd_source f ∧ rd_dir f' = rd_dir f ∧ rd_index f' = Some i)
      as (Hsrc & Hdir & Hidx).
    { unfold slot_of in Hi. destruct (rd_index f) eqn:Hj; [by destruct Hi as [-> ->]|].
      by destruct Hi as [_ ->]. }
    split.
    + exists s'. rewrite Hsrc, Hdir. cbn. rewrite lookup_insert_eq. split; [done|].
      rewrite Hidx. intros i' [= <-]. rewrite dir_get_set_eq. cbn.
      rewrite Hws, lookup_insert_eq. eauto.
    + exists s, s'. cbn. rewrite lookup_insert_eq, dir_get_set_eq, Hdel. cbn.
      split_and!; try done; [|by exists i].
      unfold asked in Ha. destruct (is_empty _); [|by destruct Ha as [-> _]].
      by destruct Ha as ([[]|x] & _ & ->).
Qed.

(** Dropping a future leaves nothing of it behind: after its first poll and its
    drop, the direction holds the slots it held before, in particular the same
    wakers; dropping never panics. *)
Theorem ready_drop_roundtrip (l : loc) (s : Source Slab Reg) (dir : Dir) (cx : Waker)
    (w : World) (Hl : w_heap w !! l = Some s) :
  wp ('(r, f) ← ready_poll (ready l dir) cx; ready_drop f)
    (λ _ w', ∃ s', w_heap w' !! l = Some s' ∧ src_id s' = src_id s ∧
       ∀ dir', let d := dir_get (src_state s) dir' in
               let d' := dir_get (src_state s') dir' in
         slab_map (wakers d') = slab_map (wakers d) ∧ waker d' = waker d ∧
         tick d' = tick d ∧ ticks d' = ticks d) w.
Proof.
  apply wp_bind. eapply (ready_poll_wp (ready l dir) s); [done|done|done|].
  cbn [rd_source rd_dir rd_index ready slot_of]. intros _ i f' ws res e [Hvac ->] Hws _.
  set (d := dir_get (src_state s) dir) in *. apply ready_drop_wp.
  - eexists. cbn. rewrite lookup_insert_eq. split; [done|]. intros i' [= <-]. cbn.
    rewrite dir_get_set_eq. cbn. rewrite Hws, lookup_insert_eq. eauto.
  - done.
  - cbn. rewrite lookup_insert_eq. intros s1 i' ws' [= <-] [= <-]. cbn.
    rewrite dir_get_set_eq. cbn. rewrite Hws, delete_insert_id by done. intros Hws'.
    eexists. rewrite lookup_insert_eq. split; [done|]. split; [done|]. cbn.
    rewrite dir_set_set. intros dir'. destruct (decide (dir = dir')) as [<-|Hne].
    + by rewrite dir_get_set_eq.
    + by rewrite dir_get_set_ne.
Qed.
End ready_properties.

(** * Witnesses *)

(** The source of [reactor_example]. *)
Definition source_example : Source RefSlab Unix.Registration :=
  mkSource (Unix.mkRegistration 7) 0
    (mkDirections (mkDirection 0 None (Some waker1) (∅ : RefSlab (option Waker)))
                  (mkDirection 0 None (Some waker2) (∅ : RefSlab (option Waker)))).

(** The same reactor when no one waits for the source. *)
Definition idle_example (broken : list Z) : RefWorld :=
  set_heap {[ 1%positive := mkSource (Unix.mkRegistration 7) 0
                (mkDirections Direction_default Direction_default) ]}
    (reactor_example [] broken).

(** The reader's waker is replaced by another one, and woken. *)
Lemma poll_ready_spec_witness :
  ∃ r w', poll_ready 1%positive READ waker3 (reactor_example [] []) = Ret (r, w') ∧
          r ≠ Ready (Ok tt) ∧ w_woken w' = [waker1].
Proof.
  destruct (poll_ready_spec 1%positive source_example READ waker3
              (reactor_example [] []) eq_refl)
    as (r & w' & Hrun & s' & _ & _ & _ & _ & _ & Hr & _ & _ & Hne).
  exists r, w'. split_and!; [done|done|]. by apply Hne.
Defined.

Lemma poll_ready_error_sticks_witness :
  ∃ w', poll_ready 1%positive READ waker1 (idle_example [7]) =
          Ret (Ready (Err (Other 5)), w') ∧
        poll_ready 1%positive READ waker1 w' = Ret (Pending, w').
Proof.
  destruct (poll_ready_error_sticks 1%positive _ READ waker1 (Other 5)
              (idle_example [7]) eq_refl) as (r & w' & Hrun & Hstick).
  exists w'. pose proof Hrun as Hc. vm_compute in Hc. injection Hc as <- _.
  split; [done|]. by apply Hstick.
Defined.

Lemma ready_poll_spec_witness :
  ∃ f' w', ready_poll (readable 1%positive) waker3 (reactor_example [] []) =
             Ret ((Pending, f'), w') ∧ slot_ok w' f' ∧ is_Some (rd_index f').
Proof.
  assert (slot_ok (reactor_example [] []) (readable 1%positive)) as Hf.
  { exists source_example. by split. }
  destruct (ready_poll_spec (readable 1%positive) waker3 _ Hf)
    as ([r f'] & w' & Hrun & Hslot & _).
  exists f', w'. pose proof Hrun as Hc. vm_compute in Hc. injection Hc as <- Hf' _.
  split_and!; [done|done|]. subst f'. by eexists.
Defined.

Lemma ready_drop_roundtrip_witness :
  ∃ w' s', ('(r, f) ← ready_poll (readable 1%positive) waker3; ready_drop f)
             (reactor_example [] []) = Ret (tt, w') ∧
           w_heap w' !! 1%positive = Some s' ∧ waker (dir_read (src_state s')) = Some waker1.
Proof.
  destruct (ready_drop_roundtrip 1%positive source_example READ waker3
              (reactor_example [] []) eq_refl) as ([] & w' & Hrun & s' & Hs' & _ & Hd).
  exists w', s'. split_and!; [done|done|].
  pose proof (Hd READ) as (_ & Hw & _). exact Hw.
Defined.
