(* ===== verification/Timer.v ===== *)
(** The future and stream [Timer] (src/src/lib.rs): one-shot and periodic timers, a
    client of the timers of the reactor. *)
From S2P Require Import Prelude Std Deps Registration RefDeps World RefWorld Timers.

Module Timer.

(** * Operations *)

Record Timer : Type := mkTimer {
  id_and_waker : option (Z * Waker);
  when : option Instant;
  period : Duration;
}.

Definition never : Timer :=
  {| id_and_waker := None; when := None; period := DURATION_MAX |}.

Definition interval_at (start : Instant) (period : Duration) : Timer :=
  {| id_and_waker := None; when := Some start; period := period |}.

(** [Timer::at] *)
Definition at_instant (instant : Instant) : Timer := interval_at instant DURATION_MAX.

Definition will_fire (t : Timer) : bool :=
  match when t with Some _ => true | None => false end.

Section timer.
  Context {Slab Queue : Type → Type} {Reg Env : Type}.
  Context `{SlabOps Slab, QueueOps Queue, EnvOps Env}.
  Local Abbreviation World := (World Slab Queue Reg Env).

Definition after (duration : Duration) : M World Timer :=
  now ← now;
  mret (match checked_add now duration with
        | Some instant => at_instant instant
        | None => never
        end).

Definition interval (period : Duration) : M World Timer :=
  now ← now;
  mret (match checked_add now period with
        | Some at_ => interval_at at_ period
        | None => never
        end).

(** [Timer::clear] *)
Definition clear (t : Timer) : M World Timer :=
  match when t, id_and_waker t with
  | Some when, Some (id, _) => remove_timer when id
  | _, _ => mret tt
  end ;;
  mret (mkTimer (id_and_waker t) None (period t)).

Definition set_at (t : Timer) (instant : Instant) : M World Timer :=
  t ← clear t;
  match id_and_waker t with
  | Some (_, waker) =>
      id ← insert_timer instant waker;
      mret (mkTimer (Some (id, waker)) (Some instant) (period t))
  | None => mret (mkTimer None (Some instant) (period t))
  end.

Definition set_after (t : Timer) (duration : Duration) : M World Timer :=
  now ← now;
  match checked_add now duration with
  | Some instant => set_at t instant
  | None => clear t
  end.

Definition set_interval_at (t : Timer) (start : Instant) (period : Duration)
    : M World Timer :=
  t ← clear t;
  match id_and_waker t with
  | Some (_, waker) =>
      id ← insert_timer start waker;
      mret (mkTimer (Some (id, waker)) (Some start) period)
  | None => mret (mkTimer None (Some start) period)
  end.

Definition set_interval (t : Timer) (period : Duration) : M World Timer :=
  now ← now;
  match checked_add now period with
  | Some instant => set_interval_at t instant period
  | None => clear t
  end.

(** [Drop for Timer] *)
Definition drop (t : Timer) : M World unit :=
  match when t, id_and_waker t with
  | Some when, Some (id, _) => remove_timer when id
  | _, _ => mret tt
  end.

(** [Stream::poll_next]; the timer it leaves is returned with the answer. *)
Definition poll_next (t : Timer) (cx : Waker) : M World (Poll (option Instant) * Timer) :=
  match when t with
  | Some when =>
      now ← now;
      if decide (when ≤ now) then
        match id_and_waker t with
        | Some (id, _) => remove_timer when id
        | None => mret tt
        end ;;
        match checked_add when (period t) with
        | Some next =>
            id ← insert_timer next cx;
            mret (Ready (Some when), mkTimer (Some (id, cx)) (Some next) (period t))
        | None => mret (Ready (Some when), mkTimer None None (period t))
        end
      else
        match id_and_waker t with
        | None =>
            id ← insert_timer when cx;
            mret (Pending, mkTimer (Some (id, cx)) (Some when) (period t))
        | Some (id, w) =>
            if negb (will_wake w cx) then
              remove_timer when id ;;
              id ← insert_timer when cx;
              mret (Pending, mkTimer (Some (id, cx)) (Some when) (period t))
            else mret (Pending, t)
        end
  | None => mret (Pending, t)
  end.

(** [Future::poll]; [Poll::Ready(None)] is [unreachable!()]. *)
Definition poll (t : Timer) (cx : Waker) : M World (Poll Instant * Timer) :=
  '(res, t) ← poll_next t cx;
  match res with
  | Ready (Some when) => mret (Ready when, t)
  | Pending => mret (Pending, t)
  | Ready None => panic
  end.
End timer.

(** * Invariant *)

Section spec.
  Context {Slab Queue : Type → Type} {Reg Env : Type}.
  Context `{SlabOps Slab, QueueOps Queue, EnvOps Env, !QueueLaws Queue, !ClockLaws Env}.
  Local Abbreviation World := (World Slab Queue Reg Env).

(** The entry a timer has in the store, if it is registered. *)
Definition entry (t : Timer) : option (TimerKey * Waker) :=
  match when t, id_and_waker t with
  | Some when, Some (id, k) => Some ((when, id), k)
  | _, _ => None
  end.

(** A registered timer has its entry, under an ID that has been generated, or has
    fired: its time has come. *)
Definition timer_ok (w : World) (t : Timer) : Prop :=
  ∀ key k, entry t = Some (key, k) →
    0 < key.2 < w_id_generator w ∧
    (live_timers w !! key = Some k ∨
     live_timers w !! key = None ∧ key.1 ≤ env_time (w_env w)).

(** The timer operations never go back in time, and keep the I/O side. *)
Record timer_step (w w' : World) : Prop := {
  step_inv : timers_inv w';
  step_time : env_time (w_env w) ≤ env_time (w_env w');
  step_id : w_id_generator w ≤ w_id_generator w';
  step_io : same_io w w';
}.

(** A timer keeps the entry it has, or takes one under the next ID. *)
Definition entry_from (t t' : Timer) (w : World) : Prop :=
  ∀ key k, entry t' = Some (key, k) →
    entry t = Some (key, k) ∨ key.2 = w_id_generator w.

(** The store without the entry of a timer. *)
Definition without (t : Timer) (m : TimerMap) : TimerMap :=
  match entry t with Some (key, _) => delete key m | None => m end.
(** The store with it. *)
Definition with_entry (t : Timer) (m : TimerMap) : TimerMap :=
  match entry t with Some (key, k) => <[key := k]> m | None => m end.
End spec.

(** Polls of a timer by any tasks, in any worlds, and what they output. *)
Inductive poll_run {Slab Queue : Type → Type} {Reg Env : Type}
    `{SlabOps Slab, QueueOps Queue, EnvOps Env} : Timer → list Instant → Timer → Prop :=
  | run_nil t : poll_run t [] t
  | run_pending t t' t'' cx (w w' : World Slab Queue Reg Env) outs :
      poll_next t cx w = Ret ((Pending, t'), w') →
      poll_run t' outs t'' → poll_run t outs t''
  | run_ready t t' t'' cx (w w' : World Slab Queue Reg Env) i outs :
      poll_next t cx w = Ret ((Ready (Some i), t'), w') →
      poll_run t' outs t'' → poll_run t (i :: outs) t''.

(** Two timers do not share an entry. *)
Definition apart (t u : Timer) : Prop :=
  ∀ key k k', entry t = Some (key, k) → entry u = Some (key, k') → False.

(** A collection of timers, of any tasks, that are all in order. *)
Record all_ok {Slab Queue : Type → Type} {Reg Env : Type}
    `{SlabOps Slab, QueueOps Queue, EnvOps Env, !QueueLaws Queue, !ClockLaws Env}
    (w : World Slab Queue Reg Env) (ts : list Timer) : Prop := {
  all_timers : ∀ i t, ts !! i = Some t → timer_ok w t;
  all_apart : ∀ i j t u, ts !! i = Some t → ts !! j = Some u → i ≠ j → apart t u;
}.

(** How a poll at an instant [now] leaves a timer [t] as [t'], answering [r]: a timer that
    fires is registered anew, under the waker of the poll, if it has a next instant. *)
Definition polled (now : Instant) (cx : Waker) (t t' : Timer) (r : Poll (option Instant))
    : Prop :=
  match when t with
  | None => r = Pending ∧ t' = t
  | Some s =>
      if decide (s ≤ now)
      then r = Ready (Some s) ∧ when t' = checked_add s (period t) ∧
           match checked_add s (period t) with
           | Some next => ∃ id, entry t' = Some ((next, id), cx)
           | None => entry t' = None
           end
      else r = Pending ∧ when t' = Some s ∧ ∃ id, entry t' = Some ((s, id), cx)
  end.

(** * Facts *)

Section timer_facts.
Context {Slab Queue : Type → Type} {Reg Env : Type}.
Context `{SlabOps Slab, QueueOps Queue, EnvOps Env}.
Context `{!QueueLaws Queue, !ClockLaws Env, !NotifyLaws Env}.
Local Abbreviation World := (World Slab Queue Reg Env).
Implicit Types (w : World) (t : Timer).

Lemma timer_step_refl w : timers_inv w → timer_step w w.
Proof. by split. Qed.

Lemma timer_step_trans w1 w2 w3 :
  timer_step w1 w2 → timer_step w2 w3 → timer_step w1 w3.
Proof. intros [] []. split; try done; try lia. by eapply same_io_trans. Qed.

Lemma now_step w (P : Instant → World → Prop) :
  timers_inv w →
  (∀ i w', timer_step w w' → env_time (w_env w) ≤ i → i = env_time (w_env w') →
     live_timers w' = live_timers w → w_id_generator w' = w_id_generator w → P i w') →
  wp now P w.
Proof.
  intros [] HP. apply wp_now. intros i e _ Hle Hi _. apply HP; try done.
  split; try done. cbn. lia.
Qed.

Lemma remove_step s id w (P : unit → World → Prop) :
  timers_inv w →
  (∀ w', timer_step w w' → live_timers w' = delete (s, id) (live_timers w) →
     w_id_generator w' = w_id_generator w → w_env w' = w_env w → P tt w') →
  wp (remove_timer s id) P w.
Proof.
  intros Hinv HP. eapply wp_mono; [by apply remove_timer_wp, inv_queue|].
  cbn beta. intros [] w' (Hl & Hok & He & Hid & Hio). apply HP; try done.
  split; [|rewrite He; lia|lia|done].
  eapply timers_inv_sub; try done. rewrite Hl. apply delete_subseteq.
Qed.

Lemma insert_step s k w (P : Z → World → Prop) :
  timers_inv w → w_id_generator w + 1 < USIZE_MOD →
  (∀ w', timer_step w w' → live_timers w !! (s, w_id_generator w) = None →
     live_timers w' = <[(s, w_id_generator w) := k]> (live_timers w) →
     w_id_generator w' = w_id_generator w + 1 → P (w_id_generator w) w') →
  wp (insert_timer s k) P w.
Proof.
  intros [Hok Hids Hpos] Hlt HP. eapply wp_mono; [by apply insert_timer_wp|].
  cbn beta. intros id w' (-> & Hl & Hok' & Hid & He & Hio).
  rewrite usize_wrap_small in Hid by lia. apply HP; try done.
  - split; [|rewrite He; apply env_notify_time|lia|done]. split; [done| |lia].
    intros k'. rewrite Hl, lookup_insert_is_Some, Hid. intros [<-|[_ Hk']]; cbn; [lia|].
    pose proof (Hids _ Hk'). lia.
  - apply eq_None_not_Some. intros Hs%Hids. cbn in Hs. lia.
Qed.

(** Where a timer is registered, and what removing and adding its entry does. *)
Lemma entry_Some t key k :
  entry t = Some (key, k) ↔
  when t = Some key.1 ∧ id_and_waker t = Some (key.2, k).
Proof.
  unfold entry. destruct key as [s i]. cbn.
  destruct (when t), (id_and_waker t) as [[]|]; naive_solver.
Qed.

Lemma timer_ok_registered w t s id k now :
  timer_ok w t → entry t = Some ((s, id), k) → env_time (w_env w) ≤ now → now < s →
  live_timers w !! (s, id) = Some k.
Proof. intros Hok [_ [?|[_ ?]]]%Hok Hle Hlt; cbn in *; [done|lia]. Qed.

Lemma timer_ok_with t w m :
  timers_inv w → live_timers w = with_entry t m →
  (∀ key k, entry t = Some (key, k) → 0 < key.2 < w_id_generator w) → timer_ok w t.
Proof.
  intros Hinv Hl Hid key k He. split; [by eapply Hid|]. left.
  rewrite Hl. unfold with_entry. rewrite He. apply lookup_insert_eq.
Qed.

Lemma timer_ok_later w w' t :
  timer_step w w' → live_timers w' = live_timers w → timer_ok w t → timer_ok w' t.
Proof.
  intros Hst Hl Hok key k He. destruct (Hok _ _ He) as [Hid Hcase].
  pose proof (step_id _ _ Hst). pose proof (step_time _ _ Hst). split; [lia|].
  rewrite Hl. destruct Hcase as [?|[??]]; [by left|right; split; [done|lia]].
Qed.

(** What happens to one timer does not disturb those apart from it. *)
Lemma timer_ok_other w w' t t' u :
  timer_step w w' → live_timers w' = with_entry t' (without t (live_timers w)) →
  apart u t → apart u t' → timer_ok w u → timer_ok w' u.
Proof.
  intros Hstep Hl Hne Hne' Hu key k He. destruct (Hu _ _ He) as [Hid Hcase].
  split; [pose proof (step_id _ _ Hstep); lia|].
  assert (live_timers w' !! key = live_timers w !! key) as ->.
  { rewrite Hl. unfold with_entry, without. unfold apart in *.
    destruct (entry t') as [[key' k']|] eqn:Ht'; [rewrite lookup_insert_ne by naive_solver|];
      destruct (entry t) as [[key'' k'']|] eqn:Ht; try done;
      by rewrite lookup_delete_ne by naive_solver. }
  pose proof (step_time _ _ Hstep). destruct Hcase as [?|[??]]; [by left|right].
  split; [done|lia].
Qed.

Lemma apart_sym t u : apart t u → apart u t.
Proof. unfold apart. naive_solver. Qed.

Lemma entry_from_apart t t' u w :
  timer_ok w u → entry_from t t' w → apart u t → apart u t'.
Proof.
  intros Hu Hfrom Hap key k k' He He'.
  destruct (Hfrom _ _ He') as [Ht|Hid]; [by eapply Hap|].
  destruct (Hu _ _ He) as [Hlt _]. lia.
Qed.

Lemma all_ok_step w w' ts i t t' :
  all_ok w ts → ts !! i = Some t → timer_step w w' →
  live_timers w' = with_entry t' (without t (live_timers w)) → timer_ok w' t' →
  entry_from t t' w → all_ok w' (<[i := t']> ts).
Proof.
  intros [Hok Hap] Hi Hst Hl Hok' Hfrom.
  assert (∀ j u, ts !! j = Some u → i ≠ j → apart u t') as Hap'.
  { intros j u Hj Hne. eapply entry_from_apart; [by eapply Hok|done|by eapply Hap]. }
  split.
  - intros j u. rewrite list_lookup_insert_Some. intros [(-> & <- & _)|[Hne Hj]]; [done|].
    eapply timer_ok_other; [done..|by eapply Hap|by eapply Hap'|by eapply Hok].
  - intros j j' u u'. rewrite !list_lookup_insert_Some.
    intros [(-> & <- & _)|[Hne Hj]] [(-> & <- & _)|[Hne' Hj']] Hjj; try done.
    + apply apart_sym. by eapply Hap'.
    + by eapply Hap'.
    + by eapply Hap.
Qed.

Lemma clear_wp t w (P : Timer → World → Prop) :
  timers_inv w →
  (∀ w', timer_step w w' → live_timers w' = without t (live_timers w) →
     w_id_generator w' = w_id_generator w →
     P (mkTimer (id_and_waker t) None (period t)) w') →
  wp (clear t) P w.
Proof.
  intros Hinv HP. pose proof (timer_step_refl w Hinv) as Hrefl.
  unfold without, entry in HP. unfold clear.
  apply wp_bind. destruct (when t) as [s|].
  2:{ apply wp_ret, wp_ret. by apply HP. }
  destruct (id_and_waker t) as [[id k]|]; [|by apply wp_ret, wp_ret, HP].
  apply remove_step; [done|]. intros w' Hstep Hl Hid _. apply wp_ret. by apply HP.
Qed.

Lemma timer_drop_wp t w (P : unit → World → Prop) :
  timers_inv w →
  (∀ w', timer_step w w' → live_timers w' = without t (live_timers w) → P tt w') →
  wp (drop t) P w.
Proof.
  intros Hinv HP. pose proof (timer_step_refl w Hinv) as Hrefl.
  unfold without, entry in HP. unfold drop. destruct (when t) as [s|].
  2:{ apply wp_ret. by apply HP. }
  destruct (id_and_waker t) as [[id k]|]; [|by apply wp_ret, HP].
  apply remove_step; [done|]. intros w' Hstep Hl Hid _. by apply HP.
Qed.

(** Every operation that sets a timer to fire at [s] is [clear] followed by this. *)
Lemma reinsert_wp t s p w (P : Timer → World → Prop) :
  timers_inv w → w_id_generator w + 1 < USIZE_MOD →
  (id_and_waker t = None → P (mkTimer None (Some s) p) w) →
  (∀ i k w', id_and_waker t = Some (i, k) → timer_step w w' →
     live_timers w !! (s, w_id_generator w) = None →
     live_timers w' = <[(s, w_id_generator w) := k]> (live_timers w) →
     w_id_generator w' = w_id_generator w + 1 →
     P (mkTimer (Some (w_id_generator w, k)) (Some s) p) w') →
  wp (match id_and_waker t with
      | Some (_, waker) =>
          id ← insert_timer s waker;
          mret (mkTimer (Some (id, waker)) (Some s) p)
      | None => mret (mkTimer None (Some s) p)
      end) P w.
Proof.
  intros Hinv Hlt Hnone Hsome. destruct (id_and_waker t) as [[i k]|].
  - apply wp_bind, insert_step; [done..|]. intros. apply wp_ret. by eapply Hsome.
  - by apply wp_ret, Hnone.
Qed.

(** What is left of a poll after the decision to register at [s]. *)
Lemma register_wp (r : Poll (option Instant)) t s cx w0 w
    (P : Poll (option Instant) * Timer → World → Prop) :
  timer_step w0 w → w_id_generator w = w_id_generator w0 →
  w_id_generator w + 1 < USIZE_MOD → live_timers w = without t (live_timers w0) →
  (∀ id w', let t' := mkTimer (Some (id, cx)) (Some s) (period t) in
     timer_step w0 w' → timer_step w w' →
     live_timers w' = with_entry t' (without t (live_timers w0)) →
     timer_ok w' t' → w_id_generator w' ≤ w_id_generator w0 + 1 → entry_from t t' w0 →
     P (r, t') w') →
  wp (id ← insert_timer s cx; mret (r, mkTimer (Some (id, cx)) (Some s) (period t))) P w.
Proof.
  intros Hstep Hid Hlt Hl HP. pose proof (step_inv _ _ Hstep) as Hinv.
  apply wp_bind, insert_step; [done..|]. intros w' Hstep' Hnone Hl' Hid'. apply wp_ret.
  apply HP; [by eapply timer_step_trans|done|by rewrite Hl', Hl| |lia|].
  - eapply timer_ok_with; [apply Hstep'|exact Hl'|]. intros key k [= <- _].
    pose proof (inv_id_pos _ Hinv). cbn. lia.
  - intros key k [= <- _]. by right.
Qed.

(** One poll, on every path. *)
Lemma poll_next_wp t cx w (P : Poll (option Instant) * Timer → World → Prop) :
  timers_inv w → timer_ok w t → w_id_generator w + 1 < USIZE_MOD →
  (∀ now r t' w', polled now cx t t' r → period t' = period t →
     env_time (w_env w) ≤ now ≤ env_time (w_env w') → timer_step w w' →
     live_timers w' = with_entry t' (without t (live_timers w)) → timer_ok w' t' →
     w_id_generator w' ≤ w_id_generator w + 1 → entry_from t t' w → P (r, t') w') →
  wp (poll_next t cx) P w.
Proof.
  intros Hinv Hok Hlt HP. unfold poll_next. unfold polled in HP.
  destruct (when t) as [s|] eqn:Hw.
  2:{ apply wp_ret. apply (HP (env_time (w_env w))); try done; try lia.
      - unfold with_entry, without, entry. by rewrite Hw.
      - intros key k. by left. }
  apply wp_bind, now_step; [done|]. intros now w1 Hst1 Hle1 Hnow Hl1 Hid1.
  specialize (HP now). destruct (decide (s ≤ now)) as [Hfire|Hwait].
  - apply wp_bind.
    assert (∀ w2, timer_step w1 w2 → live_timers w2 = without t (live_timers w) →
              w_id_generator w2 = w_id_generator w1 →
              wp (match checked_add s (period t) with
                  | Some next =>
                      id ← insert_timer next cx;
                      mret (Ready (Some s), mkTimer (Some (id, cx)) (Some next) (period t))
                  | None => mret (Ready (Some s), mkTimer None None (period t))
                  end) P w2) as Hrest.
    { intros w2 Hst2 Hl2 Hid2. pose proof (step_time _ _ Hst2).
      pose proof (timer_step_trans _ _ _ Hst1 Hst2) as Hst.
      destruct (checked_add s (period t)) as [next|].
      - eapply (register_wp _ t next cx w); [done|lia|lia|done|].
        intros id w' t' Hst' Hst'' Hl' Hok' Hid' Hfrom. pose proof (step_time _ _ Hst'').
        apply HP; try done; [|lia]. split_and!; [done..|]. by exists id.
      - apply wp_ret. apply HP; try done; lia. }
    destruct (id_and_waker t) as [[id k]|] eqn:Hiw.
    + apply remove_step; [apply Hst1|]. intros w2 Hst2 Hl2 Hid2 _.
      apply Hrest; try done. rewrite Hl2, Hl1. unfold without, entry. by rewrite Hw, Hiw.
    + apply wp_ret, Hrest; [by apply timer_step_refl, Hst1| |done].
      rewrite Hl1. unfold without, entry. by rewrite Hw, Hiw.
  - assert (∀ w2, timer_step w1 w2 → live_timers w2 = without t (live_timers w) →
              w_id_generator w2 = w_id_generator w1 →
              wp (id ← insert_timer s cx;
                  mret (Pending, mkTimer (Some (id, cx)) (Some s) (period t))) P w2) as Hrest.
    { intros w2 Hst2 Hl2 Hid2. pose proof (step_time _ _ Hst2).
      pose proof (timer_step_trans _ _ _ Hst1 Hst2) as Hst.
      eapply (register_wp _ t s cx w); [done|lia|lia|done|].
      intros id w' t' Hst' Hst'' Hl' Hok' Hid' Hfrom. pose proof (step_time _ _ Hst'').
      apply HP; try done; [|lia]. split_and!; [done..|by exists id]. }
    destruct (id_and_waker t) as [[id k]|] eqn:Hiw.
    + assert (entry t = Some ((s, id), k)) as He by by apply entry_Some.
      destruct (will_wake k cx) eqn:Hww; cbn [negb].
      * apply will_wake_spec in Hww as ->. apply wp_ret.
        apply HP; [|done|lia|done| | |lia|by left].
        -- split_and!; [done..|by exists id].
        -- rewrite Hl1. unfold with_entry, without. rewrite He, insert_delete_eq.
           symmetry. apply insert_id. eapply timer_ok_registered; [done..|lia].
        -- eapply timer_ok_later; [..|exact Hok]; done.
      * apply wp_bind, remove_step; [apply Hst1|]. intros w2 Hst2 Hl2 Hid2 _.
        apply Hrest; try done. rewrite Hl2, Hl1. unfold without. by rewrite He.
    + apply Hrest; [by apply timer_step_refl, Hst1| |done].
      rewrite Hl1. unfold without, entry. by rewrite Hw, Hiw.
Qed.

(** [set_at] ([f] is [period]) and [set_interval_at] ([f] is constant). *)
Lemma rearm_wp (f : Timer → Duration) t s w (P : Timer → World → Prop) :
  timers_inv w → w_id_generator w + 1 < USIZE_MOD →
  (∀ t' w', when t' = Some s → period t' = f (mkTimer (id_and_waker t) None (period t)) →
     snd <$> id_and_waker t' = snd <$> id_and_waker t → timer_step w w' →
     live_timers w' = with_entry t' (without t (live_timers w)) → timer_ok w' t' →
     w_id_generator w' ≤ w_id_generator w + 1 → entry_from t t' w → P t' w') →
  wp (t ← clear t;
      match id_and_waker t with
      | Some (_, waker) =>
          id ← insert_timer s waker;
          mret (mkTimer (Some (id, waker)) (Some s) (f t))
      | None => mret (mkTimer None (Some s) (f t))
      end) P w.
Proof.
  intros Hinv Hlt HP. apply wp_bind, clear_wp; [done|].
  intros w1 Hst Hl Hid. apply reinsert_wp; cbn [id_and_waker]; [apply Hst|lia|..].
  - intros Hiw. apply HP; cbn; rewrite ?Hiw; try done; lia.
  - intros i k w' Hiw Hst' _ Hl' Hid'.
    apply HP; cbn; rewrite ?Hiw; try done; [by eapply timer_step_trans| | |lia|].
    + by rewrite Hl', Hl, Hid.
    + eapply timer_ok_with; [apply Hst'|exact Hl'|]. intros key k' [= <- _].
      pose proof (inv_id_pos _ (step_inv _ _ Hst)). cbn. lia.
    + intros key k' [= <- _]. by right.
Qed.

(** Whatever the reactor does, this is what a poll that returns makes of a timer. *)
Lemma poll_next_ret t cx w r t' w' :
  poll_next t cx w = Ret ((r, t'), w') →
  period t' = period t ∧
  match r with
  | Pending => when t' = when t
  | Ready o => ∃ i, o = Some i ∧ when t = Some i ∧ when t' = checked_add i (period t)
  end.
Proof.
  unfold poll_next. intros Hrun. destruct (when t) as [s|] eqn:Hw.
  2:{ injection Hrun as <- <- <-. by rewrite Hw. }
  ret_inv Hrun. case_decide.
  - ret_inv Hrun. destruct (checked_add s (period t)) eqn:Hc; ret_inv Hrun;
      injection Hrun as <- <- <-; eauto 6.
  - destruct (id_and_waker t) as [[id k]|]; [destruct (will_wake k cx)|];
      cbn [negb] in Hrun; ret_inv Hrun; injection Hrun as <- <- <-; auto.
Qed.

Lemma poll_run_outputs t outs t' :
  poll_run (Slab := Slab) (Queue := Queue) (Reg := Reg) (Env := Env) t outs t' →
  match when t with
  | None => outs = [] ∧ when t' = None
  | Some s =>
      outs = (λ k, s + k * period t) <$> seqZ 0 (Z.of_nat (length outs)) ∧
      (when t' = None ∨ when t' = Some (s + Z.of_nat (length outs) * period t))
  end.
Proof.
  induction 1 as [t|t t1 t' cx w w' outs Hrun _ IH|t t1 t' cx w w' i outs Hrun _ IH].
  - destruct (when t); cbn; [|done]. split; [done|]. right. f_equal. lia.
  - apply poll_next_ret in Hrun as [Hp Hw]. by rewrite <- Hw, <- Hp.
  - apply poll_next_ret in Hrun as (Hp & j & [= <-] & -> & Hw). cbn [length].
    rewrite Nat2Z.inj_succ, seqZ_cons by lia. rewrite Z.pred_succ. cbn [fmap list_fmap].
    destruct (checked_add i (period t)) as [s|] eqn:Hc; rewrite Hw in IH.
    + apply checked_add_Some in Hc as [-> _]. rewrite Hp in IH.
      destruct IH as [Houts Ht']. split.
      * f_equal; [lia|]. rewrite Houts at 1. rewrite <- (fmap_add_seqZ 1 0).
        rewrite <- list_fmap_compose. apply list_fmap_ext. intros k x _. cbn. lia.
      * destruct Ht' as [->| ->]; [by left|right; f_equal; lia].
    + destruct IH as [-> ->]. split; [|by left]. cbn. f_equal. lia.
Qed.

(** A blank timer stays so. *)
Lemma never_run t outs t' :
  poll_run (Slab := Slab) (Queue := Queue) (Reg := Reg) (Env := Env) t outs t' →
  when t = None → period t' = period t ∧ outs = [] ∧ when t' = None.
Proof.
  induction 1 as [t|t t1 t' cx w w' outs Hrun _ IH|t t1 t' cx w w' i outs Hrun _ IH]; intros Hw.
  - done.
  - apply poll_next_ret in Hrun as [Hp Hw1]. rewrite <- Hp. apply IH. congruence.
  - apply poll_next_ret in Hrun as (_ & j & _ & Hj & _). congruence.
Qed.
End timer_facts.

(** * Properties *)

Section timer_properties.
  Context {Slab Queue : Type → Type} {Reg Env : Type}.
  Context `{SlabOps Slab, QueueOps Queue, EnvOps Env}.
  Context `{!QueueLaws Queue, !ClockLaws Env, !NotifyLaws Env}.
  Local Abbreviation World := (World Slab Queue Reg Env).

(** C29 Polling a timer: it completes with the instant it was set for exactly when that
    instant has come (never early), and is armed for the next period, if there is one;
    otherwise it is left registered in the reactor under the waker of this poll. The
    store of timers changes only in the entry of this timer. *)
Theorem poll_next_spec (t : Timer) (cx : Waker) (w : World)
    (Hinv : timers_inv w) (Hok : timer_ok w t) (Hid : w_id_generator w + 1 < USIZE_MOD) :
  wp (poll_next t cx)
    (λ a w', let '(r, t') := a in
       (∃ now, env_time (w_env w) ≤ now ≤ env_time (w_env w') ∧ polled now cx t t' r) ∧
       period t' = period t ∧ timer_ok w' t' ∧ timers_inv w' ∧ same_io w w' ∧
       live_timers w' = with_entry t' (without t (live_timers w))) w.
Proof.
  apply poll_next_wp; [done..|]. intros now r t' w' Hp Hper Hnow Hst Hl Hok' _ _.
  split_and!; try done; [by exists now|..]; apply Hst.
Qed.

(** The tasks of a program do not disturb each other's timers: polling one timer of
    a collection keeps every one of them in order, registered or due, each under an
    entry of its own. *)
Theorem poll_next_all_ok (ts : list Timer) (i : nat) (t : Timer) (cx : Waker) (w : World)
    (Hinv : timers_inv w) (Hall : all_ok w ts) (Hi : ts !! i = Some t)
    (Hid : w_id_generator w + 1 < USIZE_MOD) :
  wp (poll_next t cx) (λ a w', timers_inv w' ∧ all_ok w' (<[i := a.2]> ts)) w.
Proof.
  apply poll_next_wp; [done|by eapply all_timers|done|].
  intros now r t' w' _ _ _ Hst Hl Hok' _ Hfrom. split; [apply Hst|].
  by eapply all_ok_step.
Qed.

(** A timer that waits for its instant [s] is never forgotten: each time the reactor
    processes the timers, either [s] has come and the waker of its last poll is handed
    over to be woken, or it stays registered and the reactor will not sleep past [s]. *)
Theorem registered_timer_fires (t : Timer) (s : Instant) (id : Z) (k : Waker)
    (ks : list Waker) (w : World) (Hinv : timers_inv w) (Hok : timer_ok w t)
    (He : entry t = Some ((s, id), k)) (Hs : env_time (w_env w) < s) :
  wp (process_timers ks)
    (λ r w', timers_inv w' ∧ timer_ok w' t ∧
       if decide (s ≤ env_time (w_env w')) then k ∈ r.2
       else live_timers w' !! (s, id) = Some k ∧
            ∃ d, r.1 = Some d ∧ env_time (w_env w') + d ≤ s) w.
Proof.
  pose proof (timer_ok_registered _ _ _ _ _ _ Hok He (Z.le_refl _) Hs) as Hreg.
  eapply wp_mono; [by apply process_timers_wp|]. cbn beta.
  intros [dur ks'] w' (now & _ & Hle & -> & Hks & Hl & Hdur & [_ Hgen] & Hinv' & _).
  cbn [fst snd] in *. split; [done|].
  destruct (Hok _ _ He) as [Hid _].
  assert (live_timers w' !! (s, id)
          = if decide (s ≤ env_time (w_env w')) then None else Some k) as Hlook.
  { by rewrite Hl, lookup_later, Hreg. }
  split.
  - intros key k' He'. rewrite He in He'. injection He' as <- <-. split; [lia|].
    case_decide; [by right|by left].
  - case_decide as Hdue.
    + rewrite Hks. apply elem_of_app. right. apply list_elem_of_fmap.
      exists ((s, id), k). split; [done|]. apply elem_of_btree_iter.
      rewrite lookup_due. cbn. by rewrite decide_True.
    + split; [done|]. pose proof (next_timer_spec (env_time (w_env w')) (live_timers w)) as Hn.
      rewrite <- Hdur in Hn. destruct dur as [d|].
      * exists d. split; [done|]. destruct Hn as (_ & Hmin & _).
        apply (Hmin (s, id)). rewrite <- Hl, Hlook. eauto.
      * rewrite Hn in Hreg. by rewrite lookup_empty in Hreg.
Qed.

(** A timer that is polled and then dropped leaves nothing behind in the reactor. *)
Theorem poll_drop_no_leak (t : Timer) (cx : Waker) (w : World)
    (Hinv : timers_inv w) (Hok : timer_ok w t) (Hid : w_id_generator w + 1 < USIZE_MOD) :
  wp ('(_, t) ← poll_next t cx; drop t)
    (λ _ w', live_timers w' = without t (live_timers w) ∧ timers_inv w') w.
Proof.
  apply wp_bind, poll_next_wp; [done..|].
  intros now r t' w1 _ _ _ Hst Hl Hok' _ Hfrom. apply timer_drop_wp; [apply Hst|].
  intros w' Hst' ->. split; [|apply Hst']. rewrite Hl.
  unfold with_entry, without. destruct (entry t') as [[key k]|] eqn:He; [|done].
  rewrite delete_insert_eq, delete_id; [done|].
  destruct (Hfrom _ _ He) as [->|Hkey]; [apply lookup_delete_eq|].
  assert (live_timers w !! key = None) as Hnone.
  { apply eq_None_not_Some. intros Hs%(inv_ids _ Hinv). lia. }
  destruct (entry t) as [[key' k']|]; [|done].
  destruct (decide (key' = key)) as [->|]; [apply lookup_delete_eq|].
  by rewrite lookup_delete_ne.
Qed.

(** [after] sets the timer for [duration] after the call, unless that instant cannot be
    represented. *)
Lemma after_wp (duration : Duration) (w : World) (Hinv : timers_inv w) :
  wp (after duration)
    (λ t w', timer_step w w' ∧ env_time (w_env w) ≤ env_time (w_env w') ∧
       when t = checked_add (env_time (w_env w')) duration ∧ period t = DURATION_MAX ∧
       id_and_waker t = None) w.
Proof.
  unfold after. apply wp_bind, now_step; [done|]. intros i w' Hst Hle -> _ _. apply wp_ret.
  by destruct (checked_add (env_time (w_env w')) duration).
Qed.

(** What polls make of a timer without a next instant. *)
Lemma one_shot_run t outs t' (s : Instant) :
  poll_run (Slab := Slab) (Queue := Queue) (Reg := Reg) (Env := Env) t outs t' →
  period t = DURATION_MAX → when t = Some s → I64_MIN < tv_sec s →
  period t' = DURATION_MAX ∧ (outs = [] ∧ when t' = Some s ∨ outs = [s] ∧ when t' = None).
Proof.
  intros Hrun. revert s.
  induction Hrun as [t|t t1 t' cx w w' outs Hpoll _ IH|t t1 t' cx w w' i outs Hpoll Hrest IH];
    intros s Hp Hw Hs.
  - by auto.
  - apply poll_next_ret in Hpoll as [Hp1 Hw1]. apply IH; congruence.
  - apply poll_next_ret in Hpoll as (Hp1 & j & [= <-] & Hj & Hw1).
    assert (i = s) as -> by congruence. rewrite Hp, checked_add_DURATION_MAX in Hw1 by done.
    pose proof (never_run _ _ _ Hrest Hw1) as (Hp' & -> & ->). split; [congruence|by right].
Qed.

(** C37 Completing is what a future may rely on: however often a timer made by
    [after(duration)] has been polled, by any tasks, another [poll] returns and does not
    panic (its [unreachable!()] is unreachable); it completes at most once, with the instant
    [duration] after the call, when that has come; until then it is registered under the
    waker of the poll; and it never completes exactly when that instant cannot be
    represented. *)
Theorem after_poll (duration : Duration) (w : World)
    (Hinv : timers_inv w) (Hd : 0 ≤ duration) :
  wp (after duration)
    (λ t w1, env_time (w_env w) ≤ env_time (w_env w1) ∧ timer_ok w1 t ∧
       let at_ := checked_add (env_time (w_env w1)) duration in
       ∀ outs t' cx (w2 : World),
         poll_run (Slab := Slab) (Queue := Queue) (Reg := Reg) (Env := Env) t outs t' →
         timers_inv w2 → timer_ok w2 t' → w_id_generator w2 + 1 < USIZE_MOD →
         wp (poll t' cx)
           (λ a (w3 : World), timers_inv w3 ∧ timer_ok w3 a.2 ∧
              match a.1 with
              | Ready i => outs = [] ∧ at_ = Some i ∧
                  env_time (w_env w1) + duration = i ∧ i ≤ env_time (w_env w3)
              | Pending =>
                  match at_ with
                  | Some s => outs = [s] ∨ outs = [] ∧ env_time (w_env w2) < s ∧ ∃ id,
                      entry a.2 = Some ((s, id), cx) ∧ live_timers w3 !! (s, id) = Some cx
                  | None => outs = [] ∧ entry a.2 = None
                  end
              end) w2) w.
Proof.
  eapply wp_mono; [by apply after_wp|]. intros t w1 (_ & Hle & Hw & Hp & Hid).
  split_and!; [done|intros key k; unfold entry; rewrite Hid; by destruct (when t)|].
  intros at_ outs t' cx w2 Hrun Hinv2 Hok2 Hg. fold at_ in Hw.
  assert (match at_ with
          | Some s => s = env_time (w_env w1) + duration ∧
              (outs = [] ∧ when t' = Some s ∨ outs = [s] ∧ when t' = None)
          | None => outs = [] ∧ when t' = None
          end) as Ht'.
  { destruct at_ as [s|] eqn:Hat.
    - subst at_. apply checked_add_Some in Hat as [-> _]. split; [done|].
      eapply (one_shot_run t outs t'); [done..|].
      pose proof (env_time_range (w_env w1)) as [Hpos _].
      apply Z.lt_le_trans with (tv_sec (env_time (w_env w1))); [unfold I64_MIN; lia|].
      apply tv_sec_le. lia.
    - by destruct (never_run _ _ _ Hrun Hw) as (_ & ? & ?). }
  unfold poll. apply wp_bind, poll_next_wp; [done..|].
  intros now r t2 w3 Hpol _ [Hn1 Hn2] Hst Hl Hok3 _ _. unfold polled in Hpol.
  destruct (when t') as [s|] eqn:Hs.
  - destruct at_ as [s'|] eqn:Hat; [|by destruct Ht'].
    destruct Ht' as (Heq & [[-> [= ->]]|[_ ?]]); [|done]. case_decide as Hdue.
    + destruct Hpol as (-> & _ & _). apply wp_ret. cbn.
      split_and!; [apply Hst|done|done|done|done|lia].
    + destruct Hpol as (-> & _ & id & He). apply wp_ret. cbn.
      split_and!; [apply Hst|done|]. right. split_and!; [done|lia|]. exists id.
      split; [done|]. rewrite Hl. unfold with_entry. rewrite He. apply lookup_insert_eq.
  - destruct Hpol as (-> & ->). apply wp_ret. cbn. split_and!; [apply Hst|done|].
    destruct at_ as [s'|]; [|split; [apply Ht'|unfold entry; by rewrite Hs]].
    destruct Ht' as (_ & [[_ ?]|[-> _]]); [done|by left].
Qed.

(** C36 A periodic timer does not drift: whoever polls it, and however late, the
    instants it outputs are its start and the following multiples of the period, none
    skipped, none twice. *)
Theorem interval_outputs (t t' : Timer) (s : Instant) (outs : list Instant)
    (Hw : when t = Some s) (Hrun : poll_run (Slab := Slab) (Queue := Queue) (Reg := Reg)
                                     (Env := Env) t outs t') :
  outs = (λ k, s + k * period t) <$> seqZ 0 (Z.of_nat (length outs)) ∧
  (when t' = None ∨ when t' = Some (s + Z.of_nat (length outs) * period t)).
Proof. apply poll_run_outputs in Hrun. by rewrite Hw in Hrun. Qed.

(** A one-shot timer completes at most once, with its instant, and is blank from
    then on. *)
Theorem one_shot (s : Instant) (t' : Timer) (outs : list Instant)
    (Hs : I64_MIN < tv_sec s)
    (Hrun : poll_run (Slab := Slab) (Queue := Queue) (Reg := Reg) (Env := Env)
              (at_instant s) outs t') :
  outs = [] ∨ outs = [s] ∧ will_fire t' = false.
Proof.
  destruct (one_shot_run _ _ _ s Hrun eq_refl eq_refl Hs) as (_ & [[-> _]|[-> Hw]]); [by left|right].
  split; [done|]. unfold will_fire. by rewrite Hw.
Qed.

(** [set_at] keeps the period of the timer, although its documentation says that
    the timer will emit an event once: set to an instant that has come, a periodic
    timer fires and stays armed, for one period later. *)
Theorem set_at_keeps_period (t : Timer) (s next : Instant) (cx : Waker) (w : World)
    (Hinv : timers_inv w) (Hok : timer_ok w t) (Hid : w_id_generator w + 2 < USIZE_MOD)
    (Hs : s ≤ env_time (w_env w)) (Hnext : checked_add s (period t) = Some next) :
  wp (t ← set_at t s; poll_next t cx)
    (λ a w', a.1 = Ready (Some s) ∧ when a.2 = Some next ∧ period a.2 = period t) w.
Proof.
  apply wp_bind, (rearm_wp period); [done|lia|].
  intros t1 w1 Hw1 Hp1 _ Hst1 Hl1 Hok1 Hid1 _.
  apply poll_next_wp; [apply Hst1|done|lia|].
  intros now r t' w' Hp Hper Hnow _ _ _ _ _. unfold polled in Hp. rewrite Hw1 in Hp.
  pose proof (step_time _ _ Hst1). rewrite decide_True in Hp by lia.
  destruct Hp as (-> & Hw' & _). cbn in *. split_and!; congruence.
Qed.

(** [set_interval_at] rearms a timer in place: its old entry goes, and if it was
    ever registered, the new instant is registered at once under the waker of its last
    poll. *)
Theorem set_interval_at_spec (t : Timer) (s : Instant) (p : Duration) (w : World)
    (Hinv : timers_inv w) (Hid : w_id_generator w + 1 < USIZE_MOD) :
  wp (set_interval_at t s p)
    (λ t' w', when t' = Some s ∧ period t' = p ∧
       live_timers w' = with_entry t' (without t (live_timers w)) ∧
       timers_inv w' ∧ timer_ok w' t' ∧ snd <$> entry t' = snd <$> id_and_waker t) w.
Proof.
  apply (rearm_wp (λ _, p)); [done..|]. intros t' w' Hw Hp Hk Hst Hl Hok _ _.
  split_and!; try done; [apply Hst|]. rewrite <- Hk. unfold entry. rewrite Hw.
  by destruct (id_and_waker t') as [[]|].
Qed.

(** A blank timer forgets who polls it: the poll returns [Pending] without keeping
    the waker, so that setting the timer afterwards registers nothing, and no one is
    woken when its instant comes. *)
Theorem blank_poll_not_registered (s : Instant) (cx : Waker) (w : World)
    (Hinv : timers_inv w) :
  wp ('(r, t) ← poll_next never cx; t ← set_at t s; mret (r, t))
    (λ a w', a.1 = Pending ∧ will_fire a.2 = true ∧ entry a.2 = None ∧
             live_timers w' = live_timers w) w.
Proof.
  apply wp_bind. apply wp_ret. apply wp_bind. by apply wp_bind, wp_ret, wp_ret, wp_ret.
Qed.
End timer_properties.

(** * Witnesses *)

(** The two timers of [timers_example], whose clock shows 1000: a periodic one that is
    overdue, and a one-shot that waits. *)
Definition overdue_example : Timer := mkTimer (Some (1, waker1)) (Some 500) 200.
Definition waiting_example : Timer := mkTimer (Some (2, waker2)) (Some 5000) DURATION_MAX.

Lemma overdue_example_ok : timer_ok timers_example overdue_example.
Proof. intros key k [= <- <-]. split; [by cbn|]. by left. Qed.

Lemma waiting_example_ok : timer_ok timers_example waiting_example.
Proof. intros key k [= <- <-]. split; [by cbn|]. by left. Qed.

Lemma poll_next_spec_witness :
  ∃ w', poll_next overdue_example waker2 timers_example =
          Ret ((Ready (Some 500), mkTimer (Some (3, waker2)) (Some 700) 200), w') ∧
        live_timers w' = {[ (5000, 2) := waker2; (700, 3) := waker2 ]}.
Proof.
  destruct (poll_next_spec overdue_example waker2 timers_example timers_example_inv
              overdue_example_ok eq_refl)
    as ([r t'] & w' & Hrun & _ & _ & _ & _ & _ & Hl).
  exists w'. pose proof Hrun as Hc. vm_compute in Hc. injection Hc as <- Ht Hw'.
  subst t'. split; [done|]. by rewrite Hl.
Defined.

Lemma poll_next_all_ok_witness :
  ∃ t' w', poll_next waiting_example waker1 timers_example = Ret ((Pending, t'), w') ∧
           all_ok w' [overdue_example; t'].
Proof.
  assert (all_ok timers_example [overdue_example; waiting_example]) as Hall.
  { split.
    - intros [|[|i]] t [= <-]; [apply overdue_example_ok|apply waiting_example_ok].
    - intros [|[|i]] [|[|j]] t u [= <-] [= <-] Hne key k k' He Hu; try done;
        cbn in He, Hu; by simplify_eq. }
  destruct (poll_next_all_ok _ 1 waiting_example waker1 timers_example
              timers_example_inv Hall eq_refl eq_refl) as ([r t'] & w' & Hrun & _ & Hok).
  exists t', w'. split; [|exact Hok].
  pose proof Hrun as Hc. vm_compute in Hc. by injection Hc as <- _ _.
Defined.

Lemma registered_timer_fires_witness :
  ∃ d w', process_timers [] timers_example = Ret ((Some d, [waker1]), w') ∧
          live_timers w' !! (5000, 2) = Some waker2.
Proof.
  destruct (registered_timer_fires waiting_example 5000 2 waker2 [] timers_example
              timers_example_inv waiting_example_ok eq_refl eq_refl)
    as ([dur ks] & w' & Hrun & _ & _ & Hd).
  assert (w' = ref_exec (process_timers []) timers_example) as Hw'.
  { unfold ref_exec. by rewrite Hrun. }
  assert (env_time (w_env w') = 1001) as Ht by (rewrite Hw'; vm_compute; reflexivity).
  rewrite Ht, decide_False in Hd by lia. clear Ht Hw'.
  pose proof Hrun as Hc. vm_compute in Hc. injection Hc as _ <- _.
  destruct Hd as [Hl (d & Hd & _)]. cbn in Hd. subst dur.
  exists d, w'. split; [exact Hrun|exact Hl].
Defined.

Lemma poll_drop_no_leak_witness :
  ∃ w', ('(_, t) ← poll_next overdue_example waker2; drop t) timers_example
          = Ret (tt, w') ∧ live_timers w' = {[ (5000, 2) := waker2 ]}.
Proof.
  destruct (poll_drop_no_leak overdue_example waker2 timers_example timers_example_inv
              overdue_example_ok eq_refl) as ([] & w' & Hrun & Hl & _).
  exists w'. split; [done|]. by rewrite Hl.
Defined.

(** The clock moves by 1 at each reading: a timer for 1 fires at its first poll, one for
    1000 does not, and one for [Duration::MAX] never will. *)
Definition after_example (d : Duration) : Timer * RefWorld :=
  match after d timers_example with Ret p => p | _ => (never, timers_example) end.

Lemma after_example_runs d :
  after d timers_example = Ret (after_example d).
Proof. exact eq_refl. Qed.

Lemma after_example_inv d : timers_inv (after_example d).2.
Proof.
  destruct (after_wp d timers_example timers_example_inv) as (t & w1 & Hrun & Hst & _).
  rewrite after_example_runs in Hrun.
  assert (after_example d = (t, w1)) as -> by congruence. apply Hst.
Qed.

Lemma after_example_later :
  checked_add (env_time (w_env (after_example 1000).2)) 1000 = Some 2001.
Proof. vm_compute. exact eq_refl. Qed.
Lemma after_example_never :
  checked_add (env_time (w_env (after_example DURATION_MAX).2)) DURATION_MAX = None.
Proof. vm_compute. exact eq_refl. Qed.

Lemma after_poll_witness :
  (∃ t w', poll (after_example 1).1 waker1 (after_example 1).2 = Ret ((Ready 1002, t), w') ∧
           1002 ≤ env_time (w_env w')) ∧
  (∃ t w' id, poll (after_example 1000).1 waker1 (after_example 1000).2 = Ret ((Pending, t), w') ∧
              live_timers w' !! (2001, id) = Some waker1) ∧
  (∃ t w', poll (after_example DURATION_MAX).1 waker1 (after_example DURATION_MAX).2 =
             Ret ((Pending, t), w') ∧ entry t = None).
Proof.
  split_and!.
  - destruct (after_poll 1 timers_example timers_example_inv) as (t & w1 & Hrun & _ & Hok & Hall);
      [lia|]. rewrite after_example_runs in Hrun.
    assert (after_example 1 = (t, w1)) as Hp by congruence. rewrite Hp.
    pose proof (after_example_inv 1) as Hinv. rewrite Hp in Hinv.
    destruct (Hall [] t waker1 w1 (run_nil _) Hinv Hok) as ([r t'] & w' & Hpoll & _ & _ & Hr);
      [injection Hp as _ <-; exact eq_refl|].
    assert (r = Ready 1002) as ->.
    { pose proof Hpoll as Hc. injection Hp as <- <-. vm_compute in Hc. by injection Hc as <- _ _. }
    exists t', w'. split; [exact Hpoll|]. apply Hr.
  - destruct (after_poll 1000 timers_example timers_example_inv) as (t & w1 & Hrun & _ & Hok & Hall);
      [lia|]. rewrite after_example_runs in Hrun.
    assert (after_example 1000 = (t, w1)) as Hp by congruence. rewrite Hp.
    pose proof (after_example_inv 1000) as Hinv. rewrite Hp in Hinv.
    destruct (Hall [] t waker1 w1 (run_nil _) Hinv Hok) as ([r t'] & w' & Hpoll & _ & _ & Hr);
      [injection Hp as _ <-; exact eq_refl|].
    assert (r = Pending) as ->.
    { pose proof Hpoll as Hc. injection Hp as <- <-. vm_compute in Hc. by injection Hc as <- _ _. }
    cbv beta iota zeta in Hr. cbn [fst] in Hr. replace w1 with (after_example 1000).2 in Hr by by rewrite Hp.
    rewrite after_example_later in Hr. destruct Hr as [Hr|(_ & _ & id & _ & Hl)]; [discriminate Hr|].
    exists t', w', id. split; [exact Hpoll|exact Hl].
  - destruct (after_poll DURATION_MAX timers_example timers_example_inv)
      as (t & w1 & Hrun & _ & Hok & Hall); [vm_compute; discriminate|].
    rewrite after_example_runs in Hrun.
    assert (after_example DURATION_MAX = (t, w1)) as Hp by congruence. rewrite Hp.
    pose proof (after_example_inv DURATION_MAX) as Hinv. rewrite Hp in Hinv.
    destruct (Hall [] t waker1 w1 (run_nil _) Hinv Hok) as ([r t'] & w' & Hpoll & _ & _ & Hr);
      [injection Hp as _ <-; exact eq_refl|].
    assert (r = Pending) as ->.
    { pose proof Hpoll as Hc. injection Hp as <- <-. vm_compute in Hc. by injection Hc as <- _ _. }
    cbv beta iota zeta in Hr. cbn [fst] in Hr. replace w1 with (after_example DURATION_MAX).2 in Hr by by rewrite Hp.
    rewrite after_example_never in Hr. exists t', w'. split; [exact Hpoll|apply Hr].
Defined.

(** Two polls of a periodic timer, the second one late by three periods. *)
Lemma interval_outputs_witness :
  ∃ t', poll_run (Slab := RefSlab) (Queue := RefQueue) (Reg := Unix.Registration)
          (Env := RefEnv) overdue_example [500; 700] t' ∧ when t' = Some 900.
Proof.
  set (w1 := ref_exec (poll_next overdue_example waker2) timers_example).
  set (t1 := mkTimer (Some (3, waker2)) (Some 700) 200).
  set (t2 := mkTimer (Some (4, waker1)) (Some 900) 200).
  assert (poll_run (Slab := RefSlab) (Queue := RefQueue) (Reg := Unix.Registration)
            (Env := RefEnv) overdue_example [500; 700] t2) as Hrun.
  { eapply (run_ready _ t1 _ waker2 timers_example w1); [reflexivity|].
    eapply (run_ready _ t2 _ waker1 w1); [reflexivity|]. apply run_nil. }
  exists t2. split; [done|].
  by destruct (interval_outputs overdue_example t2 500 [500; 700] eq_refl Hrun)
    as [_ [?|Ht]].
Defined.

Lemma one_shot_witness :
  ∃ t', poll_run (Slab := RefSlab) (Queue := RefQueue) (Reg := Unix.Registration)
          (Env := RefEnv) (at_instant 500) [500] t' ∧ will_fire t' = false.
Proof.
  assert (poll_run (Slab := RefSlab) (Queue := RefQueue) (Reg := Unix.Registration)
            (Env := RefEnv) (at_instant 500) [500] (mkTimer None None DURATION_MAX)) as Hrun.
  { eapply (run_ready _ _ _ waker2 timers_example); [reflexivity|]. apply run_nil. }
  eexists. split; [exact Hrun|].
  by destruct (one_shot 500 _ [500] eq_refl Hrun) as [?|[_ ?]].
Defined.

Lemma set_at_keeps_period_witness :
  ∃ t' w', (t ← set_at overdue_example 900; poll_next t waker1) timers_example
             = Ret ((Ready (Some 900), t'), w') ∧ when t' = Some 1100.
Proof.
  destruct (set_at_keeps_period overdue_example 900 1100 waker1 timers_example
              timers_example_inv overdue_example_ok eq_refl)
    as ([r t'] & w' & Hrun & Hr & Hw & _); [done|done|].
  cbn in Hr, Hw. subst r. by exists t', w'.
Defined.

Lemma set_interval_at_spec_witness :
  ∃ t' w', set_interval_at waiting_example 3000 10 timers_example = Ret (t', w') ∧
           live_timers w' = {[ (3000, 3) := waker2; (500, 1) := waker1 ]}.
Proof.
  destruct (set_interval_at_spec waiting_example 3000 10 timers_example
              timers_example_inv eq_refl) as (t' & w' & Hrun & _ & _ & Hl & _).
  exists t', w'. split; [done|]. rewrite Hl.
  pose proof Hrun as Hc. vm_compute in Hc. by injection Hc as <- _.
Defined.

Lemma blank_poll_not_registered_witness :
  ∃ t w', ('(r, t) ← poll_next never waker1; t ← set_at t 2000; mret (r, t))
            timers_example = Ret ((Pending, t), w') ∧ will_fire t = true ∧
          live_timers w' = live_timers timers_example.
Proof.
  destruct (blank_poll_not_registered 2000 waker1 timers_example timers_example_inv)
    as ([r t] & w' & Hrun & Hr & Hf & _ & Hl).
  cbn in Hr, Hf. subst r. by exists t, w'.
Defined.

End Timer.
