(* ===== verification/Async.v ===== *)
(** The adapter [Async] (src/src/lib.rs): a handle with its registration in the
    reactor. Creating and dropping it, [into_inner]; the futures of [read_with] and
    [write_with]; the polls of [AsyncRead] and [AsyncWrite]. *)
From S2P Require Import Prelude Std Deps Registration RefDeps World RefWorld Timers.
From S2P Require Import Source Reactor Ready.

Module Async.

(** * Data *)

Record Async {T : Type} : Type := mkAsync {
  source : loc;
  io : option T;
}.
Arguments Async : clear implicits.
Arguments mkAsync {T}.

(** The futures of [read_with] and its variants: about to call the operation, waiting
    in [optimistic(..)], whose local is [polled], or completed. *)
Inductive WithFut : Type :=
  | Calling
  | Awaiting (polled : bool) (fut : ReadyFut)
  | Finished.

(** * Operations *)

(** [ioctl] is used on Linux and Windows, [fcntl] elsewhere. *)
Definition set_nonblocking {Env : Type} `{FdOps Env} (use_ioctl : bool) (fd : Z) (e : Env)
    : io_result unit * Env :=
  if use_ioctl then ioctl_fionbio fd true e
  else
    match fcntl_getfl fd e with
    | (Err err, e) => (Err err, e)
    | (Ok previous, e) =>
        let new := Z.lor previous OFlags_NONBLOCK in
        if decide (new ≠ previous) then fcntl_setfl fd new e else (Ok tt, e)
    end.

Section async.
  Context {Slab Queue : Type → Type} {Reg Env T : Type}.
  Context `{SlabOps Slab, QueueOps Queue, EnvOps Env, RegOps Reg Env, RegNew Reg}.
  Context `{HandleOps T Env}.
  Local Abbreviation World := (World Slab Queue Reg Env).

(** Dropping a handle. *)
Definition drop_io (io : T) : M World unit := env_call (λ e, (tt, close io e)).

(** [Ok(Async { source: Reactor::get().insert_io(registration)?, io: Some(io) })]: on an
    error the handle, which the caller owns, is dropped. *)
Definition adopt (registration : Reg) (io : T) : M World (io_result (Async T)) :=
  res ← insert_io registration;
  match res with
  | Ok source => mret (Ok {| source := source; io := Some io |})
  | Err err => drop_io io ;; mret (Err err)
  end.

Definition new_nonblocking (io : T) : M World (io_result (Async T)) :=
  adopt (registration_new (as_raw io)) io.

Definition new `{FdOps Env} (use_ioctl : bool) (io : T) : M World (io_result (Async T)) :=
  res ← env_call (set_nonblocking use_ioctl (as_raw io));
  match res with
  | Ok _ => new_nonblocking io
  | Err err => drop_io io ;; mret (Err err)
  end.

Definition get_ref (a : Async T) : M World T := unwrap (io a).

(** A [&mut T] into the adapter: the handle, and how to write to it. *)
Definition get_mut (a : Async T) : M World (T * (T → Async T)) :=
  io ← unwrap (io a);
  mret (io, λ io, {| source := source a; io := Some io |}).
Definition as_ref (a : Async T) : M World T := get_ref a.
(** [as_raw_fd], [as_fd] and their counterparts on Windows *)
Definition as_fd (a : Async T) : M World Z :=
  io ← get_ref a;
  mret (as_raw io).

(** [Drop for Async]: the error of [remove_io] is ignored. *)
Definition drop (a : Async T) : M World unit :=
  match io a with
  | Some io => remove_io (source a) ;; drop_io io
  | None => mret tt
  end.

(** [self.io.take().unwrap()]; [self] is dropped, without its handle, on both paths. *)
Definition into_inner (a : Async T) : M World (io_result T) :=
  io ← unwrap (io a);
  let a := {| source := source a; io := None |} in
  res ← remove_io (source a);
  match res with
  | Err err => drop_io io ;; drop a ;; mret (Err err)
  | Ok _ => drop a ;; mret (Ok io)
  end.

(** [optimistic]: the first poll polls the future, the next one is ready. *)
Definition optimistic_poll (polled : bool) (fut : ReadyFut) (cx : Waker)
    : M World (Poll (io_result unit) * (bool * ReadyFut)) :=
  if negb polled then
    '(res, fut) ← readable_poll fut cx;
    mret (res, (true, fut))
  else mret (Ready (Ok tt), (polled, fut)).

(** [op(self.get_ref())] and [op(self.get_mut())], with the state [S] the closure
    [op: impl FnMut] has captured. *)
Definition call_op {S R : Type} (op : T → S → Env → (io_result R * (T * S)) * Env)
    (a : Async T) (x : S) : M World (io_result R * (Async T * S)) :=
  io ← get_ref a;
  '(res, (io, x)) ← env_call (op io x);
  mret (res, ({| source := source a; io := Some io |}, x)).

(** An operation on a shared reference does not replace the handle. *)
Definition by_ref {S R : Type} (op : T → S → Env → (io_result R * S) * Env)
    : T → S → Env → (io_result R * (T * S)) * Env :=
  λ io x e, let '((res, x), e) := op io x e in ((res, (io, x)), e).

(** [read_with], [read_with_mut] ([dir] is [READ]), [write_with] and [write_with_mut]
    ([dir] is [WRITE]): one poll. [fuel] bounds the transitions of the loop. *)
Fixpoint with_poll {S R : Type} (fuel : nat) (dir : Dir)
    (op : T → S → Env → (io_result R * (T * S)) * Env)
    (a : Async T) (x : S) (st : WithFut) (cx : Waker)
    : M World (Poll (io_result R) * (Async T * S * WithFut)) :=
  match fuel with
  | O => out_of_fuel
  | Datatypes.S fuel =>
      match st with
      | Calling =>
          '(res, (a, x)) ← call_op op a x;
          match res with
          | Err WouldBlock =>
              with_poll fuel dir op a x (Awaiting false (ready (source a) dir)) cx
          | res => mret (Prelude.Ready res, (a, x, Finished))
          end
      | Awaiting polled fut =>
          '(res, (polled, fut)) ← optimistic_poll polled fut cx;
          match res with
          | Pending => mret (Pending, (a, x, Awaiting polled fut))
          | Prelude.Ready (Err err) =>
              ready_drop fut ;; mret (Prelude.Ready (Err err), (a, x, Finished))
          | Prelude.Ready (Ok _) => ready_drop fut ;; with_poll fuel dir op a x Calling cx
          end
      | Finished => panic
      end
  end.

(** A poll makes at most three transitions: the wait is over, the operation is called,
    a wait begins. *)
Definition WITH_FUEL : nat := 3.

Definition read_with_mut_poll {S R : Type} := @with_poll S R WITH_FUEL READ.
Definition write_with_mut_poll {S R : Type} := @with_poll S R WITH_FUEL WRITE.
Definition read_with_poll {S R : Type} op := @with_poll S R WITH_FUEL READ (by_ref op).
Definition write_with_poll {S R : Type} op := @with_poll S R WITH_FUEL WRITE (by_ref op).

(** Dropping such a future. *)
Definition with_drop (st : WithFut) : M World unit :=
  match st with
  | Awaiting _ fut => ready_drop fut
  | _ => mret tt
  end.

(** The loop of the polls of [AsyncRead] ([dir] is [READ]) and [AsyncWrite] ([dir] is
    [WRITE]). [fuel] bounds the calls of the operation. *)
Fixpoint io_poll {S R : Type} (fuel : nat) (dir : Dir)
    (op : T → S → Env → (io_result R * (T * S)) * Env)
    (a : Async T) (x : S) (cx : Waker) : M World (Poll (io_result R) * (Async T * S)) :=
  match fuel with
  | O => out_of_fuel
  | Datatypes.S fuel =>
      '(res, (a, x)) ← call_op op a x;
      match res with
      | Err WouldBlock =>
          res ← poll_ready (source a) dir cx;
          match res with
          | Pending => mret (Pending, (a, x))
          | Prelude.Ready (Err err) => mret (Prelude.Ready (Err err), (a, x))
          | Prelude.Ready (Ok _) => io_poll fuel dir op a x cx
          end
      | res => mret (Prelude.Ready res, (a, x))
      end
  end.

(** A direction is reported ready at most once in a row. *)
Definition IO_FUEL : nat := 2.

Context `{ReadWriteOps T Env}.
Definition poll_read := @io_poll (list Z) Z IO_FUEL READ rw_read.
Definition poll_read_vectored := @io_poll (list (list Z)) Z IO_FUEL READ rw_read_vectored.
Definition poll_write := @io_poll (list Z) Z IO_FUEL WRITE rw_write.
Definition poll_write_vectored := @io_poll (list (list Z)) Z IO_FUEL WRITE rw_write_vectored.
Definition poll_flush := @io_poll unit unit IO_FUEL WRITE rw_flush.
Definition poll_close := poll_flush.

(** The same for [&Async<T>], whose operations are those of [&T]. *)
Context `{RefReadWriteOps T Env}.
Definition ref_poll_read := @io_poll (list Z) Z IO_FUEL READ (by_ref ref_read).
Definition ref_poll_read_vectored :=
  @io_poll (list (list Z)) Z IO_FUEL READ (by_ref ref_read_vectored).
Definition ref_poll_write := @io_poll (list Z) Z IO_FUEL WRITE (by_ref ref_write).
Definition ref_poll_write_vectored :=
  @io_poll (list (list Z)) Z IO_FUEL WRITE (by_ref ref_write_vectored).
Definition ref_poll_flush := @io_poll unit unit IO_FUEL WRITE (by_ref ref_flush).
Definition ref_poll_close := ref_poll_flush.

(** Waiting for readiness alone. *)
Definition readable (a : Async T) : ReadyFut := Ready.readable (source a).
Definition writable (a : Async T) : ReadyFut := Ready.writable (source a).
(** The same for an adapter that is owned by the future, through an [Arc]. *)
Definition readable_owned (a : Async T) : ReadyFut := Ready.readable (source a).
Definition writable_owned (a : Async T) : ReadyFut := Ready.writable (source a).
Definition poll_readable (a : Async T) (cx : Waker) : M World (Poll (io_result unit)) :=
  Ready.poll_readable (source a) cx.
Definition poll_writable (a : Async T) (cx : Waker) : M World (Poll (io_result unit)) :=
  Ready.poll_writable (source a) cx.

(** [TryFrom<OwnedFd> for Async<T>] and [TryFrom<Async<T>> for OwnedFd], with the two
    conversions between handles and owned descriptors. *)
Definition try_from_owned `{FdOps Env} (use_ioctl : bool) (from_owned : Z → T) (value : Z)
    : M World (io_result (Async T)) :=
  new use_ioctl (from_owned value).
Definition owned_try_from (into_owned : T → Z) (value : Async T) : M World (io_result Z) :=
  res ← into_inner value;
  mret (match res with Ok io => Ok (into_owned io) | Err err => Err err end).
End async.

(** * What the operations are specified with *)

Section spec.
  Context {Slab Queue : Type → Type} {Reg Env T : Type}.
  Context `{SlabOps Slab, QueueOps Queue, EnvOps Env, RegOps Reg Env, !SlabLaws Slab}.
  Local Abbreviation World := (World Slab Queue Reg Env).

(** A future that has not completed: its source exists, and if it waits, it has been
    polled and its slot is occupied. *)
Definition with_ok (w : World) (dir : Dir) (a : Async T) (st : WithFut) : Prop :=
  match st with
  | Calling => is_Some (w_heap w !! source a)
  | Awaiting polled fut =>
      polled = true ∧ rd_source fut = source a ∧ rd_dir fut = dir ∧ slot_ok w fut
  | Finished => False
  end.

(** The slots of a direction of a source, and those that are not the future's. *)
Definition slots (w : World) (l : loc) (dir : Dir) : gmap Z (option Waker) :=
  match w_heap w !! l with
  | Some s => slab_map (wakers (dir_get (src_state s) dir))
  | None => ∅
  end.
Definition other_slots (st : WithFut) (m : gmap Z (option Waker)) : gmap Z (option Waker) :=
  match st with
  | Awaiting _ {| rd_index := Some i |} => delete i m
  | _ => m
  end.

(** [n] calls of an operation, all but the last of which would block. *)
Inductive op_calls {S R} (op : T → S → Env → (io_result R * (T * S)) * Env) :
    nat → T → S → Env → io_result R → T → S → Env → Prop :=
  | call_last i x e res i' x' e' :
      op i x e = ((res, (i', x')), e') → op_calls op 1 i x e res i' x' e'
  | call_again n i x e i1 x1 e1 res i' x' e' :
      op i x e = ((Err WouldBlock, (i1, x1)), e1) →
      op_calls op n i1 x1 e1 res i' x' e' →
      op_calls op (Datatypes.S n) i x e res i' x' e'.

(** The poller refuses the interest of the source [l], in an environment [e]. *)
Definition refused (w : World) (l : loc) (e : Env) (err : io_error) : Prop :=
  ∃ s ev, w_heap w !! l = Some s ∧ (reg_modify (src_registration s) e ev).1 = Err err.
End spec.

(** * Facts *)

Section async_facts.
Context {Slab Queue : Type → Type} {Reg Env T : Type}.
Context `{SlabOps Slab, QueueOps Queue, EnvOps Env, RegOps Reg Env, !SlabLaws Slab}.
Local Abbreviation World := (World Slab Queue Reg Env).
Implicit Types (w : World) (a : Async T).

Lemma slots_with_state l s st e w dir :
  slots (with_state l s st e w) l dir = slab_map (wakers (dir_get st dir)).
Proof. unfold slots, with_state. cbn. by rewrite lookup_insert_eq. Qed.

Lemma slots_lookup w l s dir :
  w_heap w !! l = Some s → slots w l dir = slab_map (wakers (dir_get (src_state s) dir)).
Proof. unfold slots. by intros ->. Qed.

Lemma call_op_wp {S R} (op : T → S → Env → (io_result R * (T * S)) * Env) a i x w
    (P : io_result R * (Async T * S) → World → Prop) :
  io a = Some i →
  (∀ res i' x' e, op i x (w_env w) = ((res, (i', x')), e) →
     P (res, (mkAsync (source a) (Some i'), x')) (set_env e w)) →
  wp (call_op op a x) P w.
Proof.
  intros Hi HP. unfold call_op, get_ref. apply wp_bind. eapply wp_unwrap; [done|].
  apply wp_bind, wp_env_call. destruct (op i x (w_env w)) as [[res [i' x']] e] eqn:Hop.
  cbn. apply wp_ret. by apply HP.
Qed.

(** The start of a wait: a slot is taken, unless the poller refuses. *)
Lemma await_wp {S R} fuel dir (op : T → S → Env → (io_result R * (T * S)) * Env) a x cx w s
    (P : Poll (io_result R) * (Async T * S * WithFut) → World → Prop) :
  let d := dir_get (src_state s) dir in
  w_heap w !! source a = Some s →
  (∀ i ws e, slab_map (wakers d) !! i = None →
     slab_map ws = <[i := Some cx]> (slab_map (wakers d)) →
     P (Pending, (a, x, Awaiting true
                          (mkReady (source a) dir (Some (w_ticker w, tick d)) (Some i))))
       (with_state (source a) s (dir_set (src_state s) dir (set_wakers ws d)) e w)) →
  (∀ err ws e, refused w (source a) (w_env w) err → slab_map ws = slab_map (wakers d) →
     P (Prelude.Ready (Err err), (a, x, Finished))
       (with_state (source a) s (dir_set (src_state s) dir (set_wakers ws d)) e w)) →
  wp (with_poll (Datatypes.S fuel) dir op a x (Awaiting false (ready (source a) dir)) cx)
     P w.
Proof.
  intros d Hl Hpend Herr. cbn [with_poll optimistic_poll negb].
  apply wp_bind, wp_bind, wp_bind.
  eapply (ready_poll_wp (ready (source a) dir) s); [done|done|done|].
  intros _ i f' ws res e [Hvac ->] Hws Ha. cbn [rd_source rd_dir ready] in *. fold d in Hvac, Hws, Ha |- *.
  unfold asked in Ha.
  assert (res = Pending ∨ ∃ err, res = Prelude.Ready (Err err) ∧
            refused w (source a) (w_env w) err) as [->|(err & -> & Href)].
  { destruct (is_empty d); [|left; apply Ha]. destruct Ha as (r & Hr & ->).
    destruct r as [[]|err]; [by left|]. right. exists err. split; [done|].
    eexists s, _. split; [done|]. by rewrite Hr. }
  - do 3 apply wp_ret. by apply Hpend.
  - do 2 apply wp_ret. apply wp_bind, ready_drop_wp.
    + eexists. cbn. rewrite lookup_insert_eq. split; [done|]. intros j [= <-]. cbn.
      rewrite dir_get_set_eq. cbn. rewrite Hws, lookup_insert_eq. eauto.
    + done.
    + cbn. rewrite lookup_insert_eq. intros s1 j ws' [= <-] [= <-]. cbn.
      rewrite dir_get_set_eq. cbn. rewrite Hws, delete_insert_id by done. intros Hws'.
      apply wp_ret. specialize (Herr err ws' e Href Hws').
      unfold with_state in *. cbn in *. rewrite insert_insert_eq, dir_set_set. done.
Qed.

(** The end of a wait gives its slot back. *)
Lemma with_drop_wp dir a st w (P : unit → World → Prop) :
  with_ok w dir a st →
  (∀ w', slots w' (source a) dir = other_slots st (slots w (source a) dir) →
     w_env w' = w_env w → w_sources w' = w_sources w →
     (∀ l, src_id <$> w_heap w' !! l = src_id <$> w_heap w !! l) → P tt w') →
  wp (with_drop st) P w.
Proof.
  intros Hok HP. destruct st as [|polled f|]; [apply wp_ret; by apply HP| |done].
  destruct Hok as (-> & Hsrc & Hdir & Hslot). cbn [with_drop]. destruct f as [l d ts ix].
  cbn in Hsrc, Hdir. subst. apply ready_drop_wp; [done|..].
  - cbn. intros ->. by apply HP.
  - intros s i ws Hl Hi Hws. cbn in Hl, Hi, Hws |- *. subst ix. apply HP; [|done|done|].
    + rewrite slots_with_state, dir_get_set_eq, (slots_lookup _ _ _ _ Hl). exact Hws.
    + intros l. cbn. destruct (decide (l = source a)) as [->|Hne].
      * by rewrite lookup_insert_eq, Hl.
      * by rewrite lookup_insert_ne.
Qed.

Lemma refused_ids w w' l e err :
  (∀ l, src_id <$> w_heap w' !! l = src_id <$> w_heap w !! l) →
  refused w' l e err → refused w l e err.
Proof.
  intros Hids (s' & ev & Hl & Href). specialize (Hids l). rewrite Hl in Hids.
  symmetry in Hids. apply fmap_Some in Hids as (s & Hs & Hid). exists s, ev.
  split; [done|]. injection Hid as <- _. done.
Qed.

(** What a poll of the future has done: the operation was called once. *)
Definition with_polled {S R} dir (op : T → S → Env → (io_result R * (T * S)) * Env)
    a (i : T) x (st : WithFut) (cx : Waker) w
    (r : Poll (io_result R)) (a' : Async T) x' (st' : WithFut) w' : Prop :=
  let l := source a in
  ∃ res i' e, op i x (w_env w) = ((res, (i', x')), e) ∧
    a' = mkAsync l (Some i') ∧
    other_slots st' (slots w' l dir) = other_slots st (slots w l dir) ∧
    w_sources w' = w_sources w ∧
    (∀ k, src_id <$> w_heap w' !! k = src_id <$> w_heap w !! k) ∧
    match r with
    | Pending =>
        res = Err WouldBlock ∧ with_ok w' dir a' st' ∧
        ∃ f j, st' = Awaiting true f ∧ rd_index f = Some j ∧
               slots w' l dir !! j = Some (Some cx)
    | Prelude.Ready out =>
        st' = Finished ∧
        (res ≠ Err WouldBlock ∧ out = res ∧ w_env w' = e ∨
         res = Err WouldBlock ∧ ∃ err, out = Err err ∧ refused w l e err)
    end.

Lemma ids_with_state l s st e w w0 :
  w_heap w !! l = Some s → (∀ k, src_id <$> w_heap w !! k = src_id <$> w_heap w0 !! k) →
  ∀ k, src_id <$> w_heap (with_state l s st e w) !! k = src_id <$> w_heap w0 !! k.
Proof.
  intros Hs Hids k. rewrite <- Hids. cbn. destruct (decide (l = k)) as [<-|].
  - by rewrite lookup_insert_eq, Hs.
  - by rewrite lookup_insert_ne.
Qed.

(** The turn of the loop that calls the operation; [w0] is the world before the
    wait that precedes it. *)
Lemma with_call_wp {S R} fuel dir (op : T → S → Env → (io_result R * (T * S)) * Env)
    a i x st cx w0 w :
  io a = Some i → is_Some (w_heap w !! source a) →
  slots w (source a) dir = other_slots st (slots w0 (source a) dir) →
  w_env w = w_env w0 → w_sources w = w_sources w0 →
  (∀ l, src_id <$> w_heap w !! l = src_id <$> w_heap w0 !! l) →
  wp (with_poll (Datatypes.S (Datatypes.S fuel)) dir op a x Calling cx)
    (λ b w', let '(r, (a', x', st')) := b in
             with_polled dir op a i x st cx w0 r a' x' st' w') w.
Proof.
  intros Hi [s Hs] Hslots Henv Hsources Hids. cbn [with_poll]. apply wp_bind.
  eapply call_op_wp; [done|]. intros res i' x' e Hop. rewrite Henv in Hop.
  assert (res ≠ Err WouldBlock →
    with_polled dir op a i x st cx w0 (Prelude.Ready res) (mkAsync (source a) (Some i'))
      x' Finished (set_env e w)) as Hdone.
  { intros Hne. exists res, i', e. split_and!; try done. by left. }
  destruct res as [r|[| |code]]; try (apply wp_ret; by apply Hdone). clear Hdone.
  change (ready (source a) dir) with (ready (source (mkAsync (source a) (Some i'))) dir).
  apply (await_wp fuel dir op (mkAsync (source a) (Some i')) x' cx (set_env e w) s);
    [done|..].
  - intros j ws e' Hvac Hws. cbn [source].
    eexists _, i', e. cbn [source]. rewrite <- Hslots, slots_with_state, dir_get_set_eq.
    rewrite (slots_lookup w _ _ _ Hs). cbn [other_slots rd_index wakers set_wakers].
    rewrite Hws, delete_insert_id by done. split_and!; try done.
    + by apply ids_with_state.
    + cbn [with_ok]. split_and!; [done..|]. eexists. cbn. rewrite lookup_insert_eq.
      split; [done|]. intros j' [= <-]. cbn.
      rewrite dir_get_set_eq. cbn. rewrite Hws, lookup_insert_eq. eauto.
    + eexists _, j. split_and!; [done..|]. apply lookup_insert_eq.
  - intros err ws e' Href Hws. cbn [source] in *. eexists _, i', e.
    rewrite <- Hslots, slots_with_state, dir_get_set_eq, (slots_lookup w _ _ _ Hs).
    split_and!; try done; [by apply ids_with_state|].
    right. split; [done|]. exists err. split; [done|].
    by apply (refused_ids w0 (set_env e w)).
Qed.

Lemma with_poll_wp {S R} dir (op : T → S → Env → (io_result R * (T * S)) * Env) a i x st cx w :
  io a = Some i → with_ok w dir a st →
  wp (with_poll WITH_FUEL dir op a x st cx)
    (λ b w', let '(r, (a', x', st')) := b in
             with_polled dir op a i x st cx w r a' x' st' w') w.
Proof.
  intros Hi Hok.
  destruct st as [|polled fut|]; [by apply with_call_wp| |done].
  change WITH_FUEL with (Datatypes.S 2). set (fuel := 2%nat).
  pose proof Hok as (-> & Hsrc & _ & (s & Hs & _)). rewrite Hsrc in Hs.
  cbn [with_poll optimistic_poll negb]. apply wp_bind, wp_ret.
  apply wp_bind. eapply (with_drop_wp dir a (Awaiting true fut)); [done|].
  intros w1 Hslots Henv Hsources Hids. apply with_call_wp; try done.
  specialize (Hids (source a)). rewrite Hs in Hids.
  by apply fmap_Some in Hids as (s1 & -> & _).
Qed.

(** What a poll of [AsyncRead] or [AsyncWrite] has done, in [n] calls. *)
Definition io_polled {S R} dir (op : T → S → Env → (io_result R * (T * S)) * Env)
    a (i : T) x (cx : Waker) w
    (r : Poll (io_result R)) (a' : Async T) x' w' (n : nat) : Prop :=
  let l := source a in
  ∃ res i' e', op_calls op n i x (w_env w) res i' x' e' ∧ a' = mkAsync l (Some i') ∧
    match r with
    | Pending =>
        res = Err WouldBlock ∧
        ∃ s', w_heap w' !! l = Some s' ∧ waker (dir_get (src_state s') dir) = Some cx
    | Prelude.Ready out =>
        res ≠ Err WouldBlock ∧ out = res ∨
        res = Err WouldBlock ∧ ∃ err, out = Err err ∧ refused w l e' err
    end.

(** Without an event delivered before, one call settles it. *)
Lemma io_poll_once {S R} fuel dir (op : T → S → Env → (io_result R * (T * S)) * Env)
    a i x cx w s :
  let d := dir_get (src_state s) dir in
  io a = Some i → w_heap w !! source a = Some s →
  event_delivered (ticks d) (tick d) = false →
  wp (io_poll (Datatypes.S fuel) dir op a x cx)
    (λ b w', let '(r, (a', x')) := b in io_polled dir op a i x cx w r a' x' w' 1) w.
Proof.
  intros d Hi Hs Hdel. cbn [io_poll]. apply wp_bind.
  eapply call_op_wp; [done|]. intros res i' x' e Hop.
  pose proof (call_last _ _ _ _ _ _ _ _ Hop) as Hcall.
  destruct res as [r|[| |code]]; try (apply wp_ret; eexists _, i', e; split_and!; [done..|by left]).
  apply wp_bind. apply (poll_ready_wp _ s); [done|..]; fold d; rewrite ?Hdel; try done.
  - intros _ Hk. apply wp_ret. eexists _, i', e. split_and!; try done. by exists s.
  - intros _ _ res e' Ha. cbn [w_env set_env] in Ha.
    assert (res = Pending ∨ ∃ err, res = Prelude.Ready (Err err) ∧ refused w (source a) e err)
      as [->|(err & -> & Href)].
    { unfold asked in Ha. destruct (is_empty d); [|left; apply Ha].
      destruct Ha as (r & Hr & ->). destruct r as [[]|err]; [by left|]. right.
      exists err. split; [done|]. eexists s, _. split; [done|]. cbn in Hr. by rewrite Hr. }
    + apply wp_ret. eexists _, i', e. split_and!; try done. eexists. cbn.
      rewrite lookup_insert_eq. split; [done|]. cbn. by rewrite dir_get_set_eq.
    + apply wp_ret. eexists _, i', e. split_and!; try done. right. split; [done|]. eauto.
Qed.

(** An event delivered before makes it two. *)
Lemma io_poll_wp {S R} dir (op : T → S → Env → (io_result R * (T * S)) * Env) a i x cx w s :
  let d := dir_get (src_state s) dir in
  io a = Some i → w_heap w !! source a = Some s →
  wp (io_poll IO_FUEL dir op a x cx)
    (λ b w', let '(r, (a', x')) := b in
       ∃ n, io_polled dir op a i x cx w r a' x' w' n ∧
            (n = 1 ∨ n = 2 ∧ event_delivered (ticks d) (tick d) = true)%nat) w.
Proof.
  intros d Hi Hs. destruct (event_delivered (ticks d) (tick d)) eqn:Hdel.
  2:{ eapply wp_mono; [by apply (io_poll_once 1 dir op a i x cx w s)|].
      intros [r [a' x']] w' Hp. exists 1%nat. auto. }
  change IO_FUEL with (Datatypes.S 1). set (fuel := 1%nat). cbn [io_poll]. apply wp_bind.
  eapply call_op_wp; [done|]. intros res i' x' e Hop.
  pose proof (call_last _ _ _ _ _ _ _ _ Hop) as Hcall.
  destruct res as [r|[| |code]];
    try (apply wp_ret; exists 1%nat; split; [|by left]; eexists _, i', e; split_and!; [done..|by left]).
  apply wp_bind, (poll_ready_wp _ s); [done|..]; fold d; rewrite ?Hdel; try done. intros _.
  eapply wp_mono.
  { apply (io_poll_once 0 dir op (mkAsync (source a) (Some i')) i' x' cx _
             (set_src_state (dir_set (src_state s) dir (set_ticks None d)) s)); [done| |].
    - cbn. apply lookup_insert_eq.
    - cbn. by rewrite dir_get_set_eq. }
  intros [r [a' x1]] w' (res & i1 & e1 & Hcalls & Ha & Hr). exists 2%nat.
  split; [|by right]. eexists res, i1, e1. split_and!; [by eapply call_again|done|].
  destruct r as [out|]; [|done]. destruct Hr as [?|(Hres & err & Hout & Href)]; [by left|].
  right. split; [done|]. exists err. split; [done|]. eapply refused_ids; [|exact Href].
  intros l. cbn. destruct (decide (l = source a)) as [->|Hne].
  - by rewrite lookup_insert_eq, Hs.
  - by rewrite lookup_insert_ne.
Qed.
End async_facts.

Section lifecycle_facts.
Context {Slab Queue : Type → Type} {Reg Env T : Type}.
Context `{SlabOps Slab, QueueOps Queue, EnvOps Env, RegOps Reg Env, !SlabLaws Slab}.
Context `{RegNew Reg, HandleOps T Env}.
Local Abbreviation World := (World Slab Queue Reg Env).
Implicit Types (w : World) (a : Async T).

Lemma drop_io_wp (i : T) w (P : unit → World → Prop) :
  P tt (set_env (close i (w_env w)) w) → wp (drop_io i) P w.
Proof. intros HP. by apply wp_env_call. Qed.

(** An adapter is made and registered, or its handle closed. *)
Lemma adopt_wp (reg : Reg) (i : T) w (P : io_result (Async T) → World → Prop) :
  let key := slab_vacant_key (w_sources w) in
  (∀ l sl e w', reg_add reg (w_env w) key = (Ok tt, e) → w_heap w !! l = None →
     slab_map sl = <[key := l]> (slab_map (w_sources w)) →
     w' = set_env e (set_sources sl (set_heap
            (<[l := mkSource reg key (mkDirections Direction_default Direction_default)]>
               (w_heap w)) w)) →
     P (Ok (mkAsync l (Some i))) w') →
  (∀ err e w', reg_add reg (w_env w) key = (Err err, e) →
     slab_map (w_sources w') = slab_map (w_sources w) →
     w_env w' = close i e → w_heap w ⊆ w_heap w' → P (Err err) w') →
  wp (adopt reg i) P w.
Proof.
  intros key Hok Herr. unfold adopt. apply wp_bind, wp_bind.
  apply insert_io_entry_wp. intros l Hl.
  pose proof (slab_map_insert (w_sources w) l) as Hins.
  pose proof (slab_vacant (w_sources w)) as Hvac. fold key in Hins, Hvac.
  eapply insert_io_register_wp; cbn; [by rewrite lookup_insert_eq|cbn|].
  { rewrite Hins. apply lookup_insert_eq. }
  intros res e Hadd. destruct res as [[]|err].
  - apply wp_ret. by eapply Hok.
  - intros sl Hsl. apply wp_bind, drop_io_wp, wp_ret. eapply Herr; cbn; [exact Hadd| |done|].
    + rewrite Hsl, Hins. by apply delete_insert_id.
    + by apply insert_subseteq.
Qed.

Lemma into_inner_wp a i s w (P : io_result T → World → Prop) :
  io a = Some i → w_heap w !! source a = Some s →
  slab_map (w_sources w) !! src_key s = Some (source a) →
  (∀ r w', slab_map (w_sources w') = delete (src_key s) (slab_map (w_sources w)) →
     w_heap w' = w_heap w →
     let '(res, e) := reg_delete (src_registration s) (w_env w) in
     match r with
     | Ok i' => res = Ok tt ∧ i' = i ∧ w_env w' = e
     | Err err => res = Err err ∧ w_env w' = close i e
     end → P r w') →
  wp (into_inner a) P w.
Proof.
  intros Hi Hl Hk HP. unfold into_inner. rewrite Hi.
  apply wp_bind, wp_ret, wp_bind. eapply remove_io_wp; [done..|]. intros sl Hsl.
  destruct (reg_delete _ _) as [[[]|err] e]; cbn [fst snd].
  - apply wp_ret. by apply HP.
  - apply wp_bind, drop_io_wp. apply wp_ret. by apply HP.
Qed.

Lemma async_drop_wp a i s w (P : unit → World → Prop) :
  io a = Some i → w_heap w !! source a = Some s →
  slab_map (w_sources w) !! src_key s = Some (source a) →
  (∀ w', slab_map (w_sources w') = delete (src_key s) (slab_map (w_sources w)) →
     w_env w' = close i (reg_delete (src_registration s) (w_env w)).2 →
     w_heap w' = w_heap w → P tt w') →
  wp (drop a) P w.
Proof.
  intros Hi Hl Hk HP. unfold drop. rewrite Hi.
  apply wp_bind. eapply remove_io_wp; [done..|]. intros sl Hsl. apply drop_io_wp. by apply HP.
Qed.

(** Making an adapter and taking it apart again: the table is as before, and the handle
    is given back, unless the poller refuses to add or to delete its registration. *)
Definition adopt_released (reg : Reg) (i : T) w (r : io_result T) (w' : World) : Prop :=
  slab_map (w_sources w') = slab_map (w_sources w) ∧
  let '(added, e) := reg_add reg (w_env w) (slab_vacant_key (w_sources w)) in
  match added with
  | Err err => r = Err err ∧ w_env w' = close i e
  | Ok _ =>
      let '(deleted, e) := reg_delete reg e in
      match deleted with
      | Err err => r = Err err ∧ w_env w' = close i e
      | Ok _ => r = Ok i ∧ w_env w' = e
      end
  end.

Lemma adopt_into_inner_wp (reg : Reg) (i : T) w :
  wp (res ← adopt reg i; match res with Ok a => into_inner a | Err err => mret (Err err) end)
    (adopt_released reg i w) w.
Proof.
  apply wp_bind, adopt_wp; unfold adopt_released.
  - intros l sl e w1 Hadd Hl Hsl ->. rewrite Hadd. eapply into_inner_wp; [done|..].
    + apply lookup_insert_eq.
    + cbn. rewrite Hsl. apply lookup_insert_eq.
    + cbn. intros r w' Hsl' _. destruct (reg_delete reg e) as [res e']. intros Hr.
      split; [rewrite Hsl', Hsl; apply delete_insert_id, slab_vacant|].
      destruct r as [i'|err]; [by destruct Hr as (-> & -> & ->)|by destruct Hr as [-> ->]].
  - intros err e w' Hadd Hsl Henv _. apply wp_ret. by rewrite Hadd.
Qed.
End lifecycle_facts.

(** * Properties *)

Section async_properties.
  Context {Slab Queue : Type → Type} {Reg Env T : Type}.
  Context `{SlabOps Slab, QueueOps Queue, EnvOps Env, RegOps Reg Env, !SlabLaws Slab}.
  Context `{RegNew Reg, HandleOps T Env}.
  Local Abbreviation World := (World Slab Queue Reg Env).

(** C32 An adapter that is created and dropped leaves the table of the reactor as it was,
    never panics, and closes its handle once: after the handle is deregistered, or at
    once if the poller refuses it. *)
Theorem new_drop_roundtrip (i : T) (w : World) :
  let reg := registration_new (as_raw i) : Reg in
  let added := reg_add reg (w_env w) (slab_vacant_key (w_sources w)) in
  wp (res ← new_nonblocking i; match res with Ok a => drop a | Err _ => mret tt end)
    (λ _ w', slab_map (w_sources w') = slab_map (w_sources w) ∧
       w_env w' = close i (match added.1 with
                           | Ok _ => (reg_delete reg added.2).2
                           | Err _ => added.2
                           end)) w.
Proof.
  intros reg added. subst added. apply wp_bind, adopt_wp.
  - intros l sl e w' Hadd Hl Hsl ->. eapply async_drop_wp; [done|..].
    + cbn. apply lookup_insert_eq.
    + cbn. rewrite Hsl. apply lookup_insert_eq.
    + cbn. intros w' Hsl' Henv _. fold reg in Hadd. rewrite Hadd. split; [|done].
      rewrite Hsl', Hsl. apply delete_insert_id, slab_vacant.
  - intros err e w' Hadd Hsl Henv _. apply wp_ret. fold reg in Hadd. by rewrite Hadd.
Qed.

(** [into_inner] deregisters the source exactly once (dropping the adapter does not
    try again, which would panic), and gives the handle back open, or closes it and
    returns the error of the poller. *)
Theorem into_inner_spec (a : Async T) (i : T) (w : World) (Hi : io a = Some i)
    (Hreg : registered w (source a)) :
  wp (into_inner a)
    (λ r w', ¬ registered w' (source a) ∧
       ∃ s, w_heap w !! source a = Some s ∧
       slab_map (w_sources w') = delete (src_key s) (slab_map (w_sources w)) ∧
       let '(res, e) := reg_delete (src_registration s) (w_env w) in
       match r with
       | Ok i' => res = Ok tt ∧ i' = i ∧ w_env w' = e
       | Err err => res = Err err ∧ w_env w' = close i e
       end) w.
Proof.
  destruct Hreg as (s & Hl & Hk). eapply into_inner_wp; [done..|]. intros r w' Hsl Hh.
  destruct (reg_delete _ _) as [res e] eqn:Hdel. intros Hr.
  split.
  - intros (s' & Hs' & Hk'). rewrite Hh in Hs'. assert (s' = s) as -> by congruence.
    rewrite Hsl in Hk'. by rewrite lookup_delete_eq in Hk'.
  - exists s. by rewrite Hdel.
Qed.

(** C26 A poll of the future of [read_with] or [write_with] (and of their [_mut]
    variants) calls the operation exactly once, ends, and does not panic. It completes
    with what the operation returned, unless that would block; then it waits, with the
    waker of this poll in a slot of its own in the direction it waits for, or fails with
    the error of the poller. The slots of all other tasks stay as they are. *)
Theorem with_poll_spec {S R : Type} (dir : Dir)
    (op : T → S → Env → (io_result R * (T * S)) * Env) (a : Async T) (i : T) (x : S)
    (st : WithFut) (cx : Waker) (w : World) (Hi : io a = Some i) (Hok : with_ok w dir a st) :
  wp (with_poll WITH_FUEL dir op a x st cx)
    (λ b w', let '(r, (a', x', st')) := b in
             with_polled dir op a i x st cx w r a' x' st' w') w.
Proof. by apply with_poll_wp. Qed.

(** Cancelling is clean: dropping the future of [read_with] or [write_with] at any
    point, after any poll, gives its slot back and changes no other. *)
Theorem with_drop_spec (dir : Dir) (a : Async T) (st : WithFut) (w : World)
    (Hok : with_ok w dir a st) :
  wp (with_drop st)
    (λ _ w', slots w' (source a) dir = other_slots st (slots w (source a) dir) ∧
             w_env w' = w_env w) w.
Proof. by eapply with_drop_wp. Qed.

(** C27 A poll of [AsyncRead] or [AsyncWrite] always ends: after one call of the
    operation, or after two if the reactor has reported the direction since it was last
    polled. It returns what the last call returned, which is never [WouldBlock], or the
    error of the poller, or [Pending] with the waker of this poll registered. *)
Theorem io_poll_spec {S R : Type} (dir : Dir)
    (op : T → S → Env → (io_result R * (T * S)) * Env) (a : Async T) (i : T) (x : S)
    (cx : Waker) (w : World) (s : Source Slab Reg) (Hi : io a = Some i)
    (Hs : w_heap w !! source a = Some s) :
  let d := dir_get (src_state s) dir in
  wp (io_poll IO_FUEL dir op a x cx)
    (λ b w', let '(r, (a', x')) := b in
       ∃ n, io_polled dir op a i x cx w r a' x' w' n ∧
            (n = 1 ∨ n = 2 ∧ event_delivered (ticks d) (tick d) = true)%nat) w.
Proof.
  by apply io_poll_wp.
Qed.
End async_properties.

(** * Witnesses *)

(** The adapter of the source of [reactor_example], on a handle whose operations give
    the answers [l]. *)
Definition adapter (l : list (io_result Z)) : Async RefHandle :=
  mkAsync 1%positive (Some (mkRefHandle 7 l)).

(** The operation would block: the task waits with its waker in the slot 0. *)
Lemma with_poll_spec_witness :
  ∃ a' f w', with_poll WITH_FUEL READ ref_answer (adapter []) tt Calling waker3
               (reactor_example [] []) = Ret ((Pending, (a', tt, Awaiting true f)), w') ∧
             slots w' 1%positive READ !! 0 = Some (Some waker3).
Proof.
  destruct (with_poll_spec READ ref_answer (adapter []) (mkRefHandle 7 []) tt Calling waker3
              (reactor_example [] []) eq_refl ltac:(by eexists))
    as ([r [[a' []] st']] & w' & Hrun & res & i' & e & Hop & Ha & Hs & _ & _ & Hr).
  pose proof Hrun as Hc. vm_compute in Hc. injection Hc as <- _ Hst _.
  destruct Hr as (_ & _ & f & j & Hf & Hj & Hslot). exists a', f, w'.
  rewrite Hf in Hst. injection Hst as <-. injection Hj as <-. rewrite Hf in Hrun.
  split; [exact Hrun|exact Hslot].
Defined.

Lemma with_drop_spec_witness :
  ∃ w', with_drop (Awaiting true (mkReady 1 READ (Some (4, 0)) (Some 0)))
          (ref_exec (with_poll WITH_FUEL READ ref_answer (adapter []) tt Calling waker3)
             (reactor_example [] [])) = Ret (tt, w') ∧ slots w' 1%positive READ = ∅.
Proof.
  set (w := ref_exec _ _).
  assert (with_ok w READ (adapter [])
            (Awaiting true (mkReady 1 READ (Some (4, 0)) (Some 0)))) as Hok.
  { split_and!; [done..|]. eexists. split; [vm_compute; reflexivity|].
    intros i [= <-]. by eexists. }
  destruct (with_drop_spec _ _ _ _ Hok) as ([] & w' & Hrun & Hs & _).
  exists w'. split; [exact Hrun|]. etransitivity; [exact Hs|by vm_compute].
Defined.

(** An event was reported since the waker was registered: the operation is called
    twice, and the second call returns. *)
Lemma io_poll_spec_witness :
  ∃ a' w', io_poll IO_FUEL READ ref_answer (adapter [Err WouldBlock; Ok 5]) tt waker1
             (set_heap {[ 1%positive := mkSource (Unix.mkRegistration 7) 0
                (mkDirections (mkDirection 6 (Some (4, 5)) None (∅ : RefSlab (option Waker)))
                   Direction_default) ]} (reactor_example [] []))
           = Ret ((Prelude.Ready (Ok 5), (a', tt)), w').
Proof.
  destruct (io_poll_spec READ ref_answer (adapter [Err WouldBlock; Ok 5])
              (mkRefHandle 7 [Err WouldBlock; Ok 5]) tt waker1 _ _ eq_refl
              (lookup_singleton_eq 1%positive
                (mkSource (Unix.mkRegistration 7) 0
                (mkDirections (mkDirection 6 (Some (4, 5)) None (∅ : RefSlab (option Waker)))
                   Direction_default))
               : w_heap (set_heap _ (reactor_example [] [])) !! 1%positive = _))
    as ([r [a' []]] & w' & Hrun & _).
  exists a', w'. pose proof Hrun as Hc. vm_compute in Hc. injection Hc as <- _ _.
  exact Hrun.
Defined.

Lemma new_drop_roundtrip_witness :
  ∃ w', (res ← new_nonblocking (mkRefHandle 9 []);
         match res with Ok a => drop a | Err _ => mret tt end) (reactor_example [] [])
        = Ret (tt, w') ∧ slab_map (w_sources w') = {[ 0 := 1%positive ]}.
Proof.
  destruct (new_drop_roundtrip (mkRefHandle 9 []) (reactor_example [] []))
    as ([] & w' & Hrun & Hs & _).
  exists w'. split; [exact Hrun|]. by rewrite Hs.
Defined.

Lemma into_inner_spec_witness :
  ∃ w', into_inner (adapter [Ok 1]) (reactor_example [] []) =
          Ret (Ok (mkRefHandle 7 [Ok 1]), w') ∧ slab_map (w_sources w') = ∅.
Proof.
  destruct (into_inner_spec (adapter [Ok 1]) (mkRefHandle 7 [Ok 1]) (reactor_example [] [])
              eq_refl (reactor_example_registered [] [])) as (r & w' & Hrun & _ & s & Hs & Hmap & _).
  injection Hs as <-. exists w'. pose proof Hrun as Hc. vm_compute in Hc.
  injection Hc as <- _. split; [exact Hrun|]. by rewrite Hmap.
Defined.
End Async.
