(* ===== verification/Net.v ===== *)
(** What the networking types of [Sockets] have in common (src/src/lib.rs: [connect],
    [convert_path_to_socket_address], [setup_networking]; the bodies of [bind], [pair],
    [accept] and of the futures [connect]): adapters made of the sockets the operating
    system returns, with who owns a socket at each point of them. *)
From S2P Require Import Prelude Std Deps Registration RefDeps World RefWorld Timers.
From S2P Require Import Source Reactor Ready Async.

Module Net.
Import Async.

(** * Data *)

(** What the target decides in [connect]. *)
Record Target : Type := mkTarget {
  socket_flags : bool;      (* the flags CLOEXEC and NONBLOCK are given to [socket] *)
  cloexec_flag : bool;      (* otherwise: CLOEXEC can be given to [socket] *)
  cloexec_fcntl : bool;     (* otherwise: it is set with [fcntl] *)
  nosigpipe : bool;
  windows : bool;
  fionbio : bool;           (* [set_nonblocking] uses [ioctl] *)
  abstract_names : bool;    (* the target has abstract socket addresses *)
}.

Definition linux : Target :=
  {| socket_flags := true; cloexec_flag := true; cloexec_fcntl := false;
     nosigpipe := false; windows := false; fionbio := true; abstract_names := true |}.
Definition apple : Target :=
  {| socket_flags := false; cloexec_flag := false; cloexec_fcntl := true;
     nosigpipe := true; windows := false; fionbio := false; abstract_names := false |}.

(** The future of [TcpStream::connect] and [UnixStream::connect]. *)
Inductive ConnFut {T : Type} : Type :=
  | ConnStart
  | ConnWait (stream : Async T) (fut : ReadyFut)
  | ConnDone.
Arguments ConnFut : clear implicits.

(** [?] on a call of the operating system, in code that owns the descriptor [fd]: an
    error drops it. *)
Definition try_owned {E Addr A B : Type} `{SocketOps E Addr} (fd : Z)
    (call : E → io_result A * E) (rest : A → E → io_result B * E) (e : E)
    : io_result B * E :=
  match call e with
  | (Err err, e) => (Err err, close_fd fd e)
  | (Ok x, e) => rest x e
  end.

(** * Operations *)

Section sys.
  Context {Env Addr : Type} `{SocketOps Env Addr, FdOps Env}.

(** A step that only some targets take. *)
Definition when_target (b : bool) (call : Env → io_result unit * Env) (e : Env)
    : io_result unit * Env :=
  if b then call e else (Ok tt, e).

(** [fcntl_setfd(&socket, fcntl_getfd(&socket)? | FdFlags::CLOEXEC)?] *)
Definition set_cloexec (socket : Z) (e : Env) : io_result unit * Env :=
  match fcntl_getfd socket e with
  | (Err err, e) => (Err err, e)
  | (Ok flags, e) => fcntl_setfd socket (Z.lor flags FdFlags_CLOEXEC) e
  end.

(** The end of [connect]: a connection that is in progress is no error. *)
Definition begin_connect (t : Target) (addr : Addr) (socket : Z) (e : Env)
    : io_result Z * Env :=
  match socket_connect socket addr e with
  | (None, e) => (Ok socket, e)
  | (Some INPROGRESS, e) =>
      if windows t then (Err (errno_into INPROGRESS), close_fd socket e) else (Ok socket, e)
  | (Some AGAIN, e) | (Some WOULDBLOCK, e) => (Ok socket, e)
  | (Some err, e) => (Err (errno_into err), close_fd socket e)
  end.

(** What comes before it, on every target. *)
Definition configure (t : Target) (addr : Addr) (socket : Z) (e : Env)
    : io_result Z * Env :=
  try_owned socket (when_target (nosigpipe t) (set_socket_nosigpipe socket)) (λ _,
  try_owned socket (when_target (windows t) (set_handle_inherit socket)) (λ _,
  begin_connect t addr socket)) e.

(** [WSAStartup] is called once, and its result is ignored. *)
Definition setup_networking (t : Target) (e : Env) : Env :=
  if windows t && negb (init_done e) then (wsa_startup (set_init_done e)).2 else e.

Definition connect (t : Target) (addr : Addr) (domain : AddressFamily)
    (protocol : option Z) (e : Env) : io_result Z * Env :=
  let e := setup_networking t e in
  if socket_flags t then
    match socket_with domain true true protocol e with
    | (Err err, e) => (Err err, e)
    | (Ok socket, e) => configure t addr socket e
    end
  else
    match socket_with domain (cloexec_flag t) false protocol e with
    | (Err err, e) => (Err err, e)
    | (Ok socket, e) =>
        try_owned socket (when_target (cloexec_fcntl t) (set_cloexec socket)) (λ _,
        try_owned socket (set_nonblocking (fionbio t) socket) (λ _,
        configure t addr socket)) e
    end.

(** A path that starts with a zero byte names an abstract socket. *)
Definition convert_path_to_socket_address `{UnixAddrOps Addr} (t : Target) (path : list Z)
    : io_result Addr :=
  if abstract_names t then
    match path with
    | 0 :: name => unix_addr_new_abstract_name name
    | _ => unix_addr_new path
    end
  else unix_addr_new path.
End sys.

Section net.
  Context {Slab Queue : Type → Type} {Reg Env T : Type}.
  Context `{SlabOps Slab, QueueOps Queue, EnvOps Env, RegOps Reg Env, RegNew Reg}.
  Context `{HandleOps T Env, FdOps Env}.
  Local Abbreviation World := (World Slab Queue Reg Env).

(** [Async::new] of a socket that a call of the standard library makes: the [bind] of
    listeners and datagram sockets, [unbound]. *)
Definition bind (t : Target) (make : Env → io_result T * Env) : M World (io_result (Async T)) :=
  res ← env_call make;
  match res with
  | Err err => mret (Err err)
  | Ok io => new (fionbio t) io
  end.

(** [UnixStream::pair], [UnixDatagram::pair]: on an error, what has been made is
    dropped. *)
Definition pair (t : Target) (make : Env → io_result (T * T) * Env)
    : M World (io_result (Async T * Async T)) :=
  res ← env_call make;
  match res with
  | Err err => mret (Err err)
  | Ok (socket1, socket2) =>
      res1 ← new (fionbio t) socket1;
      match res1 with
      | Err err => drop_io socket2 ;; mret (Err err)
      | Ok a1 =>
          res2 ← new (fionbio t) socket2;
          match res2 with
          | Err err => drop a1 ;; mret (Err err)
          | Ok a2 => mret (Ok (a1, a2))
          end
      end
  end.

(** The end of [connect]: the check of the connected stream, which is dropped if it
    fails. *)
Definition conn_check (check : T → Env → io_result unit * Env) (stream : Async T)
    : M World (io_result (Async T)) :=
  io ← get_ref stream;
  res ← env_call (check io);
  match res with
  | Ok _ => mret (Ok stream)
  | Err err => drop stream ;; mret (Err err)
  end.

(** [stream.writable().await?], polled. *)
Definition conn_wait (check : T → Env → io_result unit * Env) (stream : Async T)
    (fut : ReadyFut) (cx : Waker) : M World (Poll (io_result (Async T)) * ConnFut T) :=
  '(res, fut) ← readable_poll fut cx;
  match res with
  | Pending => mret (Pending, ConnWait stream fut)
  | Prelude.Ready (Err err) =>
      ready_drop fut ;; drop stream ;; mret (Prelude.Ready (Err err), ConnDone)
  | Prelude.Ready (Ok _) =>
      ready_drop fut ;;
      res ← conn_check check stream;
      mret (Prelude.Ready res, ConnDone)
  end.

(** [TcpStream::connect] and [UnixStream::connect], one poll: [start] begins to connect
    and [check] looks for errors afterwards. *)
Definition conn_poll (start : Env → io_result T * Env) (check : T → Env → io_result unit * Env)
    (st : ConnFut T) (cx : Waker) : M World (Poll (io_result (Async T)) * ConnFut T) :=
  match st with
  | ConnStart =>
      res ← env_call start;
      match res with
      | Err err => mret (Prelude.Ready (Err err), ConnDone)
      | Ok socket =>
          res ← new_nonblocking socket;
          match res with
          | Err err => mret (Prelude.Ready (Err err), ConnDone)
          | Ok stream => conn_wait check stream (writable stream) cx
          end
      end
  | ConnWait stream fut => conn_wait check stream fut cx
  | ConnDone => panic
  end.

(** Dropping the future. *)
Definition conn_drop (st : ConnFut T) : M World unit :=
  match st with
  | ConnWait stream fut => ready_drop fut ;; drop stream
  | _ => mret tt
  end.

End net.

(** An operation without a buffer, as [read_with] and [write_with] call it. *)
Definition no_buffer {Env T R : Type} (op : T → Env → io_result R * Env)
    : T → unit → Env → (io_result R * unit) * Env :=
  λ io _ e, let '(res, e) := op io e in ((res, tt), e).

(** [accept] of a listener of type [L]: one poll. *)
Definition accept_poll {Slab Queue : Type → Type} {Reg Env L T Addr : Type}
    `{SlabOps Slab, QueueOps Queue, EnvOps Env, RegOps Reg Env, RegNew Reg}
    `{HandleOps T Env, FdOps Env} (t : Target)
    (accept : L → unit → Env → (io_result (T * Addr) * unit) * Env)
    (a : Async L) (st : WithFut) (cx : Waker)
    : M (World Slab Queue Reg Env) (Poll (io_result (Async T * Addr)) * WithFut) :=
  '(res, (_, _, st)) ← read_with_poll accept a tt st cx;
  match res with
  | Pending => mret (Pending, st)
  | Prelude.Ready (Err err) => mret (Prelude.Ready (Err err), st)
  | Prelude.Ready (Ok (stream, addr)) =>
      res ← new (fionbio t) stream;
      mret (Prelude.Ready (match res with Ok s => Ok (s, addr) | Err err => Err err end), st)
  end.

(** * Who owns a source

    [owned w a m]: the source of the adapter [a] is in the table of the reactor, and
    [m] is the rest of the table. *)
Section spec.
  Context {Slab Queue : Type → Type} {Reg Env T : Type}.
  Context `{SlabOps Slab, QueueOps Queue, EnvOps Env, RegOps Reg Env, !SlabLaws Slab}.
  Local Abbreviation World := (World Slab Queue Reg Env).

Definition owned (w : World) (a : Async T) (m : gmap Z loc) : Prop :=
  ∃ s, w_heap w !! source a = Some s ∧
    slab_map (w_sources w) !! src_key s = Some (source a) ∧
    delete (src_key s) (slab_map (w_sources w)) = m.

(** A future [connect] that has not completed, the rest of the table being [m]. *)
Definition conn_ok (w : World) (st : ConnFut T) (m : gmap Z loc) : Prop :=
  match st with
  | ConnStart => slab_map (w_sources w) = m
  | ConnWait a fut =>
      is_Some (io a) ∧ owned w a m ∧
      rd_source fut = source a ∧ rd_dir fut = WRITE ∧ slot_ok w fut
  | ConnDone => False
  end.
End spec.

(** * Facts *)

Section net_facts.
Context {Slab Queue : Type → Type} {Reg Env T : Type}.
Context `{SlabOps Slab, QueueOps Queue, EnvOps Env, RegOps Reg Env, !SlabLaws Slab}.
Context `{RegNew Reg, HandleOps T Env, FdOps Env}.
Local Abbreviation World := (World Slab Queue Reg Env).
Implicit Types (w : World) (a : Async T) (m : gmap Z loc).

Lemma owned_with_state w a m s st e :
  owned w a m → w_heap w !! source a = Some s →
  owned (with_state (source a) s st e w) a m.
Proof.
  intros (s' & Hs' & Hk & Hm) Hs. rewrite Hs in Hs'. injection Hs' as <-.
  exists (set_src_state st s). cbn. by rewrite lookup_insert_eq.
Qed.

(** Dropping an adapter leaves the rest of the table. *)
Lemma drop_owned_wp w a m (P : unit → World → Prop) :
  is_Some (io a) → owned w a m →
  (∀ w', slab_map (w_sources w') = m → P tt w') → wp (drop a) P w.
Proof.
  intros [i Hi] (s & Hs & Hk & Hm) HP. eapply async_drop_wp; [done..|].
  intros w' Hw' _ _. apply HP. by rewrite Hw'.
Qed.

(** Dropping a future changes no ownership. *)
Lemma ready_drop_owned_wp w a m f (P : unit → World → Prop) :
  owned w a m → rd_source f = source a → slot_ok w f →
  (∀ w', owned w' a m → w_env w' = w_env w → P tt w') → wp (ready_drop f) P w.
Proof.
  intros Hown Hsrc Hslot HP. apply ready_drop_wp; [done|by auto|].
  intros s i ws Hs _ _. rewrite Hsrc in *. by apply HP; [apply owned_with_state|].
Qed.

Lemma conn_check_wp check w a i m (P : io_result (Async T) → World → Prop) :
  io a = Some i → owned w a m →
  (∀ r w', match (check i (w_env w)).1 with
           | Ok _ => r = Ok a ∧ owned w' a m
           | Err err => r = Err err ∧ slab_map (w_sources w') = m
           end → P r w') →
  wp (conn_check check a) P w.
Proof.
  intros Hi Hown HP. unfold conn_check, get_ref. apply wp_bind.
  eapply wp_unwrap; [done|]. apply wp_bind, wp_env_call.
  destruct (check i (w_env w)) as [[[]|err] e]; cbn [fst snd] in *.
  - by apply wp_ret, HP.
  - apply wp_bind. eapply drop_owned_wp; [by eexists|done|].
    intros w' Hw'. by apply wp_ret, HP.
Qed.

(** What a poll of [connect] may answer. *)
Definition conn_answer m (r : Poll (io_result (Async T))) (st' : ConnFut T) w' : Prop :=
  match r with
  | Pending => conn_ok w' st' m
  | Prelude.Ready (Err _) => st' = ConnDone ∧ slab_map (w_sources w') = m
  | Prelude.Ready (Ok a) => st' = ConnDone ∧ is_Some (io a) ∧ owned w' a m
  end.

(** A future that waits for an adapter, polled: the adapter stays in the table, and the
    future can be polled again or dropped; it is over when its event has been delivered. *)
Lemma ready_owned_wp w a m f cx :
  owned w a m → rd_source f = source a → slot_ok w f →
  wp (readable_poll f cx) (λ b w', owned w' a m ∧ rd_source b.2 = source a ∧
    rd_dir b.2 = rd_dir f ∧ slot_ok w' b.2 ∧
    ∃ s, w_heap w !! source a = Some s ∧
      (b.1 = Prelude.Ready (Ok tt) →
       event_delivered (rd_ticks f) (tick (dir_get (src_state s) (rd_dir f))) = true)) w.
Proof.
  intros Hown Hsrc (s & Hs & Hslot). apply wp_bind. apply (ready_poll_wp f s); [done..| |].
  { intros Hdel. apply wp_ret. split_and!; [done..|by exists s|]. exists s.
    by rewrite <- Hsrc. }
  rewrite Hsrc in *. intros Hdel i f' ws res e Hi Hws Ha.
  assert (owned (with_state (source a) s
            (dir_set (src_state s) (rd_dir f)
               (set_wakers ws (dir_get (src_state s) (rd_dir f)))) e w) a m) as Hown'
    by by apply owned_with_state.
  assert (rd_source f' = source a ∧ rd_dir f' = rd_dir f ∧ rd_index f' = Some i)
    as (Hsrc' & Hdir' & Hidx).
  { unfold slot_of in Hi. destruct (rd_index f) eqn:Hj; [by destruct Hi as [-> ->]|].
    destruct Hi as [_ ->]. by rewrite Hsrc. }
  assert (slot_ok (with_state (source a) s
            (dir_set (src_state s) (rd_dir f)
               (set_wakers ws (dir_get (src_state s) (rd_dir f)))) e w) f') as Hslot'.
  { eexists. rewrite Hsrc', Hdir', Hidx. cbn. rewrite lookup_insert_eq. split; [done|].
    intros j [= <-]. cbn. rewrite dir_get_set_eq. cbn. rewrite Hws, lookup_insert_eq. eauto. }
  assert (res ≠ Prelude.Ready (Ok tt)) as Hne.
  { intros ->. unfold asked in Ha. destruct (is_empty _); [|by destruct Ha].
    by destruct Ha as ([[]|x] & _ & ?). }
  destruct res as [[[]|err]|]; [done|..]; apply wp_ret; (split_and!; try done; by exists s).
Qed.

Lemma conn_wait_wp check w a m f cx :
  conn_ok w (ConnWait a f) m →
  wp (conn_wait check a f cx) (λ b w', conn_answer m b.1 b.2 w') w.
Proof.
  intros ([ioa Hio] & Hown & Hsrc & Hdir & Hslot). apply wp_bind.
  eapply wp_mono; [by eapply ready_owned_wp|].
  intros [res f'] w1 (Hown' & Hsrc' & Hdir' & Hslot' & _). cbn in Hsrc', Hdir', Hslot'.
  destruct res as [[[]|err]|].
  - apply wp_bind. eapply ready_drop_owned_wp; [done..|]. intros w2 Hw2 _.
    apply wp_bind. eapply conn_check_wp; [done..|].
    intros r w3 Hr; apply wp_ret. destruct (check _ _).1; destruct Hr as [-> ?]; by split_and!.
  - apply wp_bind. eapply ready_drop_owned_wp; [done..|]. intros w2 Hw2 _.
    apply wp_bind. eapply drop_owned_wp; [by eexists|done|]. intros w3 Hw3. by apply wp_ret.
  - apply wp_ret. cbn. split_and!; try done. congruence.
Qed.

(** The wait for the connection is over: what [check] finds is the result. *)
Lemma conn_wait_ready_wp check w a i m f s cx :
  conn_ok w (ConnWait a f) m → io a = Some i → w_heap w !! source a = Some s →
  event_delivered (rd_ticks f) (tick (dir_get (src_state s) WRITE)) = true →
  wp (conn_wait check a f cx)
    (λ b w', b.2 = ConnDone ∧
       match (check i (w_env w)).1 with
       | Ok _ => b.1 = Prelude.Ready (Ok a) ∧ owned w' a m
       | Err err => b.1 = Prelude.Ready (Err err) ∧ slab_map (w_sources w') = m
       end) w.
Proof.
  intros (_ & Hown & Hsrc & Hdir & Hslot) Hi Hs Hdel.
  pose proof Hslot as (s' & Hs' & Hsl). rewrite Hsrc, Hs in Hs'. injection Hs' as <-.
  unfold conn_wait. apply wp_bind, wp_bind. apply (ready_poll_wp f s); [by rewrite Hsrc|done|..].
  2:{ rewrite Hdir, Hdel. done. }
  intros _. apply wp_ret, wp_bind. eapply ready_drop_owned_wp; [done..|].
  intros w1 Hown1 He. apply wp_bind. eapply conn_check_wp; [done..|]. rewrite He.
  intros r w2 Hr. apply wp_ret. split; [done|].
  destruct (check i (w_env w)).1; by destruct Hr as [-> ?].
Qed.

Lemma owned_insert w a m :
  owned w a m → ∃ k, m !! k = None ∧ slab_map (w_sources w) = <[k := source a]> m.
Proof.
  intros (s & _ & Hk & <-). exists (src_key s). rewrite lookup_delete_eq.
  by rewrite insert_delete_eq, insert_id.
Qed.

Lemma owned_keep w w' a m :
  owned w a m → w_heap w ⊆ w_heap w' →
  slab_map (w_sources w') = slab_map (w_sources w) → owned w' a m.
Proof.
  intros (s & Hs & Hk & Hm) Hh Hsl. exists s. rewrite Hsl.
  split_and!; [by eapply lookup_weaken|done|done].
Qed.

(** [Async::new]: the new adapter is owned, or nothing has been added. *)
Lemma adopt_owned_wp (reg : Reg) (i : T) w (P : io_result (Async T) → World → Prop) :
  (∀ a w', io a = Some i → owned w' a (slab_map (w_sources w)) →
     w_heap w ⊆ w_heap w' → P (Ok a) w') →
  (∀ err w', slab_map (w_sources w') = slab_map (w_sources w) →
     w_heap w ⊆ w_heap w' → P (Err err) w') →
  wp (adopt reg i) P w.
Proof.
  intros Hok Herr. apply adopt_wp; cbn.
  - intros l sl e' w' _ Hl Hsl ->. apply Hok; [done| |by apply insert_subseteq].
    eexists. cbn. rewrite lookup_insert_eq. split; [done|]. cbn.
    rewrite Hsl, lookup_insert_eq. split; [done|]. apply delete_insert_id, slab_vacant.
  - intros err e' w' _ Hsl _ Hh. by apply Herr.
Qed.

Lemma new_owned_wp use_ioctl (i : T) w (P : io_result (Async T) → World → Prop) :
  (∀ a w', io a = Some i → owned w' a (slab_map (w_sources w)) →
     w_heap w ⊆ w_heap w' → P (Ok a) w') →
  (∀ err w', slab_map (w_sources w') = slab_map (w_sources w) →
     w_heap w ⊆ w_heap w' → P (Err err) w') →
  wp (new use_ioctl i) P w.
Proof.
  intros Hok Herr. unfold new. apply wp_bind, wp_env_call.
  destruct (set_nonblocking _ _ _) as [[[]|err] e]; cbn [fst snd].
  - by apply adopt_owned_wp.
  - apply wp_bind, drop_io_wp, wp_ret. by apply Herr.
Qed.
End net_facts.

Section connect_facts.
Context {Env Addr : Type} `{SocketOps Env Addr, FdOps Env, !SocketLaws Env Addr}.

(** [call] opens and closes nothing. *)
Definition keeps_open {A} (call : Env → io_result A * Env) : Prop :=
  ∀ e, open_fds (call e).2 = open_fds e.

(** [rest] starts with the descriptor [fd] open, in addition to [fds]; it closes it
    unless it succeeds, with [fd] itself. *)
Definition hands_over (fds : gset Z) (fd : Z) (rest : Env → io_result Z * Env) : Prop :=
  ∀ e r e', open_fds e = {[ fd ]} ∪ fds → fd ∉ fds → rest e = (r, e') →
    match r with
    | Ok fd' => fd' = fd ∧ open_fds e' = {[ fd ]} ∪ fds
    | Err _ => open_fds e' = fds
    end.

Lemma close_opened fds fd e :
  open_fds e = {[ fd ]} ∪ fds → fd ∉ fds → open_fds (close_fd fd e) = fds.
Proof. intros He Hfd. rewrite close_fd_open, He. set_solver. Qed.

Lemma try_owned_hands_over {A} fds fd (call : Env → io_result A * Env) rest :
  keeps_open call → (∀ x, hands_over fds fd (rest x)) →
  hands_over fds fd (try_owned fd call rest).
Proof.
  intros Hcall Hrest e r e' He Hfd Hrun. unfold try_owned in Hrun.
  pose proof (Hcall e) as Hk. destruct (call e) as [[x|err] e1]; cbn in Hk.
  - eapply (Hrest x e1); [by rewrite Hk|done|done].
  - injection Hrun as <- <-. apply close_opened; [by rewrite Hk|done].
Qed.

Lemma when_target_keeps b (call : Env → io_result unit * Env) :
  keeps_open call → keeps_open (when_target b call).
Proof. intros Hcall e. unfold when_target. by destruct b. Qed.

Lemma set_nonblocking_keeps b fd : keeps_open (set_nonblocking b fd).
Proof.
  intros e. unfold set_nonblocking. destruct b; [apply fionbio_open|].
  pose proof (getfl_open fd e) as Hg. destruct (fcntl_getfl fd e) as [[fl|err] e1]; [|done].
  case_decide; [|done]. by rewrite setfl_open.
Qed.

Lemma setup_networking_keeps t e : open_fds (setup_networking t e) = open_fds e.
Proof.
  unfold setup_networking. destruct (windows t && negb (init_done e)); [|done].
  by rewrite wsa_open, init_open.
Qed.

Lemma set_cloexec_keeps fd : keeps_open (set_cloexec fd).
Proof.
  intros e. unfold set_cloexec.
  pose proof (getfd_open fd e) as Hg. destruct (fcntl_getfd fd e) as [[fl|err] e1]; [|done].
  by rewrite setfd_open.
Qed.

Lemma begin_connect_hands_over t addr fds fd :
  hands_over fds fd (begin_connect t addr fd).
Proof.
  intros e r e' He Hfd Hrun. unfold begin_connect in Hrun.
  pose proof (connect_open fd addr e) as Hk.
  destruct (socket_connect fd addr e) as [[[]|] e1]; cbn in Hk; rewrite He in Hk;
    try destruct (windows t); injection Hrun as <- <-; auto using close_opened.
Qed.

Lemma configure_hands_over t addr fds fd : hands_over fds fd (configure t addr fd).
Proof.
  apply try_owned_hands_over; [apply when_target_keeps; intros e; apply nosigpipe_open|].
  intros _. apply try_owned_hands_over; [apply when_target_keeps; intros e; apply inherit_open|].
  intros _. apply begin_connect_hands_over.
Qed.

(** A socket that is opened and handed over. *)
Lemma socket_hands_over d c n p (rest : Z → Env → io_result Z * Env) e :
  (∀ fd, hands_over (open_fds e) fd (rest fd)) →
  match socket_with d c n p e with
  | (Err err, e') => open_fds e' = open_fds e
  | (Ok fd, e1) =>
      let '(r, e') := rest fd e1 in
      match r with
      | Ok fd' => fd' ∉ open_fds e ∧ open_fds e' = {[ fd' ]} ∪ open_fds e
      | Err _ => open_fds e' = open_fds e
      end
  end.
Proof.
  intros Hrest. destruct (socket_with d c n p e) as [[fd|err] e1] eqn:Hs.
  2:{ by eapply socket_with_err. }
  apply socket_with_ok in Hs as [Hfd Hopen].
  destruct (rest fd e1) as [r e'] eqn:Hr.
  specialize (Hrest fd e1 r e' Hopen Hfd Hr). destruct r; [|done].
  by destruct Hrest as [-> ?].
Qed.
End connect_facts.

(** * Properties *)

Section net_properties.
  Context {Slab Queue : Type → Type} {Reg Env T : Type}.
  Context `{SlabOps Slab, QueueOps Queue, EnvOps Env, RegOps Reg Env, !SlabLaws Slab}.
  Context `{RegNew Reg, HandleOps T Env, FdOps Env}.
  Local Abbreviation World := (World Slab Queue Reg Env).

(** C33 The future [connect] does not leak its source: whatever the calls of the
    operating system answer, a poll that fails leaves the table of the reactor without
    it, one that succeeds hands it over, registered, and one that waits keeps it. *)
Theorem conn_poll_owned (start : Env → io_result T * Env)
    (check : T → Env → io_result unit * Env) (st : ConnFut T) (cx : Waker)
    (m : gmap Z loc) (w : World) (Hok : conn_ok w st m) :
  wp (conn_poll start check st cx) (λ b w', conn_answer m b.1 b.2 w') w.
Proof.
  destruct st as [|a f|]; [|by apply conn_wait_wp|done]. cbn [conn_poll conn_ok] in *.
  apply wp_bind, wp_env_call. destruct (start (w_env w)) as [[socket|err] e]; cbn [fst snd].
  2:{ by apply wp_ret. }
  apply wp_bind, adopt_wp.
  - intros l sl e' w' _ Hl Hsl ->. apply conn_wait_wp. cbn. cbn in Hsl, Hl.
    split_and!; [by eexists| |done|done|].
    + eexists. cbn. rewrite lookup_insert_eq. split; [done|]. cbn.
      rewrite Hsl, lookup_insert_eq. split; [done|]. rewrite <- Hok.
      apply delete_insert_id, slab_vacant.
    + eexists. cbn. by rewrite lookup_insert_eq.
  - intros err e' w' _ Hsl _ _. apply wp_ret. cbn in *. by rewrite Hsl.
Qed.

(** Cancelling [connect] does not leak its source either. *)
Theorem conn_drop_owned (st : ConnFut T) (m : gmap Z loc) (w : World)
    (Hok : conn_ok w st m) :
  wp (conn_drop st) (λ _ w', slab_map (w_sources w') = m) w.
Proof.
  destruct st as [|a f|]; [by apply wp_ret| |done].
  destruct Hok as (Hio & Hown & Hsrc & _ & Hslot). cbn [conn_drop]. apply wp_bind.
  eapply ready_drop_owned_wp; [done..|]. intros w1 Hw1 _. by eapply drop_owned_wp.
Qed.

(** A pair is made as a whole: either both adapters are registered, under keys of
    their own, or the table of the reactor is as it was. *)
Theorem pair_all_or_nothing (t : Target) (make : Env → io_result (T * T) * Env) (w : World) :
  wp (pair t make)
    (λ r w', match r with
       | Ok (a1, a2) => ∃ k1 k2, k1 ≠ k2 ∧ slab_map (w_sources w') =
           <[k2 := source a2]> (<[k1 := source a1]> (slab_map (w_sources w)))
       | Err _ => slab_map (w_sources w') = slab_map (w_sources w)
       end) w.
Proof.
  unfold pair. apply wp_bind, wp_env_call.
  destruct (make (w_env w)) as [[[s1 s2]|err] e]; cbn [fst snd]; [|by apply wp_ret].
  apply wp_bind, new_owned_wp; cbn.
  - intros a1 w1 Hi1 Hown1 _. apply wp_bind, new_owned_wp.
    + intros a2 w2 Hi2 Hown2 _. apply wp_ret.
      destruct (owned_insert _ _ _ Hown1) as (k1 & Hk1 & Hm1).
      destruct (owned_insert _ _ _ Hown2) as (k2 & Hk2 & Hm2).
      exists k1, k2. rewrite Hm2, Hm1. split; [|done]. intros ->.
      by rewrite Hm1, lookup_insert_eq in Hk2.
    + intros err w2 Hsl Hh. apply wp_bind.
      eapply drop_owned_wp; [by eexists|by eapply owned_keep|].
      intros w3 Hw3. by apply wp_ret.
  - intros err w1 Hsl _. apply wp_bind, drop_io_wp, wp_ret. done.
Qed.

(** [accept]: a poll that waits has not added anything to the reactor; one that
    completes hands over the stream the listener accepted, registered, or leaves the
    table as it was. *)
Theorem accept_poll_spec {L Addr : Type} (t : Target)
    (accept : L → unit → Env → (io_result (T * Addr) * unit) * Env) (a : Async L) (l : L)
    (st : WithFut) (cx : Waker) (w : World) (Hl : io a = Some l) (Hok : with_ok w READ a st) :
  wp (accept_poll t accept a st cx)
    (λ b w', let m := slab_map (w_sources w) in
       match b.1 with
       | Pending => with_ok w' READ a b.2 ∧ slab_map (w_sources w') = m ∧
                    (accept l tt (w_env w)).1.1 = Err WouldBlock
       | Prelude.Ready (Ok (s, addr)) =>
           b.2 = Finished ∧ owned w' s m ∧
           ∃ io_s, io s = Some io_s ∧ (accept l tt (w_env w)).1.1 = Ok (io_s, addr)
       | Prelude.Ready (Err _) => b.2 = Finished ∧ slab_map (w_sources w') = m
       end) w.
Proof.
  unfold accept_poll. apply wp_bind. eapply wp_mono; [by eapply with_poll_wp|].
  intros [r [[a' []] st']] w1 (res & i' & e & Hop & Ha & _ & Hsrc & _ & Hr).
  assert (res = (accept l tt (w_env w)).1.1 ∧ i' = l) as [Hres ->].
  { unfold by_ref in Hop. destruct (accept l tt (w_env w)) as [[res' []] e'].
    injection Hop as <- <- <-. done. }
  destruct r as [out|].
  - destruct Hr as [-> Hout]. destruct out as [[io_s addr]|err].
    + apply wp_bind, new_owned_wp.
      * intros s w' Hs Hown _. apply wp_ret. cbn. rewrite Hsrc in Hown. split_and!; [done..|].
        exists io_s. split; [done|]. rewrite <- Hres.
        by destruct Hout as [(_ & <- & _)|[_ (err & ? & _)]].
      * intros err w' Hsl _. apply wp_ret. cbn. rewrite Hsl. by rewrite Hsrc.
    + apply wp_ret. cbn. by rewrite Hsrc.
  - destruct Hr as (Hwb & Hok' & _). apply wp_ret. cbn. rewrite Hsrc, <- Hres.
    split_and!; [|done|done]. by subst a'.
Qed.
End net_properties.

(** C34 [connect] does not leak its descriptor: it returns one that it has opened, that is
    open and connecting, or it has closed what it opened; on every target. *)
Theorem connect_no_leak {Env Addr : Type} `{SocketOps Env Addr, FdOps Env}
    `{!SocketLaws Env Addr} (t : Target) (addr : Addr) (domain : AddressFamily)
    (protocol : option Z) (e : Env) :
  let '(r, e') := connect t addr domain protocol e in
  match r with
  | Ok fd => fd ∉ open_fds e ∧ open_fds e' = {[ fd ]} ∪ open_fds e
  | Err _ => open_fds e' = open_fds e
  end.
Proof.
  unfold connect. rewrite <- (setup_networking_keeps t e).
  generalize (setup_networking t e). clear e. intros e. destruct (socket_flags t).
  - pose proof (socket_hands_over domain true true protocol (configure t addr) e) as Hs.
    destruct (socket_with _ _ _ _ e) as [[fd|err] e1]; apply Hs; intros fd';
      apply configure_hands_over.
  - pose proof (socket_hands_over domain (cloexec_flag t) false protocol
      (λ socket, try_owned socket (when_target (cloexec_fcntl t) (set_cloexec socket)) (λ _,
                 try_owned socket (set_nonblocking (fionbio t) socket) (λ _,
                 configure t addr socket))) e) as Hs.
    destruct (socket_with _ _ _ _ e) as [[fd|err] e1]; apply Hs; intros fd';
      (apply try_owned_hands_over; [apply when_target_keeps, set_cloexec_keeps|]);
      intros _; (apply try_owned_hands_over; [apply set_nonblocking_keeps|]);
      intros _; apply configure_hands_over.
Qed.

(** * Witnesses *)

(** The system returns the descriptor 9, or refuses. *)
Definition start_example (e : RefEnv) : io_result RefHandle * RefEnv :=
  (Ok (mkRefHandle 9 []), e).
Definition check_example (h : RefHandle) (e : RefEnv) : io_result unit * RefEnv :=
  (Err (Other 111), e).

Lemma conn_poll_owned_witness :
  ∃ a f w', conn_poll start_example check_example ConnStart waker3 (reactor_example [] []) =
              Ret ((Pending, ConnWait a f), w') ∧ owned w' a {[ 0 := 1%positive ]}.
Proof.
  assert (conn_ok (reactor_example [] []) (ConnStart : ConnFut RefHandle)
            {[ 0 := 1%positive ]}) as Hok by done.
  destruct (conn_poll_owned start_example check_example ConnStart waker3 _ _ Hok)
    as ([r st'] & w' & Hrun & Hans).
  assert (r = Pending) as ->.
  { pose proof Hrun as Hc. vm_compute in Hc. by injection Hc as <- _ _. }
  cbn in Hans. destruct st' as [|a f|]; [|exists a, f, w'|done].
  - exfalso. vm_compute in Hrun. injection Hrun as Hst _. discriminate Hst.
  - split; [exact Hrun|]. apply Hans.
Defined.

(** The connection fails: when the socket turns writable, the stream is dropped. *)
Lemma conn_drop_owned_witness :
  ∃ w', conn_drop (ConnWait (mkAsync 1%positive (Some (mkRefHandle 7 [])))
                     (ready 1%positive WRITE)) (reactor_example [] []) = Ret (tt, w') ∧
        slab_map (w_sources w') = ∅.
Proof.
  assert (conn_ok (reactor_example [] [])
            (ConnWait (mkAsync 1%positive (Some (mkRefHandle 7 [])))
               (ready 1%positive WRITE)) ∅) as Hok.
  { cbn. split_and!; [by eexists| |done|done|by eexists].
    eexists. split; [reflexivity|]. split; [reflexivity|]. by vm_compute. }
  destruct (conn_drop_owned _ _ _ Hok) as ([] & w' & Hrun & Hs).
  exists w'. split; [exact Hrun|exact Hs].
Defined.

Lemma accept_poll_spec_witness :
  ∃ s w', accept_poll (L := RefHandle) linux
            (λ _ _ e, ((Ok (mkRefHandle 9 [], 80), tt), e)) (adapter []) Calling waker3
            (reactor_example [] []) = Ret ((Prelude.Ready (Ok (s, 80)), Finished), w') ∧
          owned w' s {[ 0 := 1%positive ]}.
Proof.
  destruct (accept_poll_spec (L := RefHandle) linux
              (λ _ _ e, ((Ok (mkRefHandle 9 [], 80), tt), e)) (adapter [])
              (mkRefHandle 7 []) Calling waker3 (reactor_example [] []) eq_refl
              ltac:(by eexists)) as ([r st'] & w' & Hrun & Hans).
  cbn [fst snd] in Hans. destruct r as [[[s addr]|err]|].
  - destruct Hans as (Hst & Hown & io_s & _ & Haddr). injection Haddr as _ Haddr.
    subst st' addr. exists s, w'. split; [exact Hrun|exact Hown].
  - exfalso. vm_compute in Hrun. discriminate Hrun.
  - exfalso. vm_compute in Hrun. discriminate Hrun.
Defined.

(** On a target without socket flags: a connection in progress, and one refused. *)
Lemma connect_no_leak_witness :
  (∃ e', connect apple 80 AF_INET None (mkRefOs {[ 3 ]} (Some INPROGRESS)) = (Ok 4, e') ∧
         open_fds e' = {[ 4; 3 ]}) ∧
  (∃ e', connect apple 80 AF_INET None (mkRefOs {[ 3 ]} (Some (Errno_other 111))) =
           (Err (Other 111), e') ∧ open_fds e' = {[ 3 ]}).
Proof.
  pose proof (connect_no_leak apple 80 AF_INET None (mkRefOs {[ 3 ]} (Some INPROGRESS))) as H1.
  pose proof (connect_no_leak apple 80 AF_INET None
                (mkRefOs {[ 3 ]} (Some (Errno_other 111)))) as H2.
  vm_compute in H2.
  split.
  - destruct (connect _ _ _ _ _) as [r e'] eqn:Hc in H1. exists e'.
    assert (r = Ok 4) as -> by (vm_compute in Hc; by injection Hc as <- _).
    split; [exact Hc|]. by destruct H1 as [_ ->].
  - eexists. split; [vm_compute; reflexivity|exact H2].
Defined.
End Net.
