(* ===== verification/Sockets.v ===== *)
(** The networking types (src/src/lib.rs: the impls of [Async] for [TcpListener],
    [TcpStream], [UdpSocket], [UnixListener], [UnixStream] and [UnixDatagram]), one Module
    each, over [Net]; an [async fn] is given as one poll of its future. The streams
    [incoming] are the same as calling [accept] again and again. *)
From S2P Require Import Prelude Std Deps Registration RefDeps World RefWorld Timers.
From S2P Require Import Source Reactor Ready Async Net.

(** * [incoming], of both listeners *)
Module Incoming.
Import Async.

(** The answers of a stream to a sequence of polls. *)
Fixpoint answers {S W A : Type} (next : S → Waker → M W (Poll (option A) * S)) (u : S)
    (cxs : list Waker) : M W (list (Poll (option A))) :=
  match cxs with
  | [] => mret []
  | cx :: cxs =>
      '(r, u) ← next u cx;
      rs ← answers next u cxs;
      mret (r :: rs)
  end.

Section incoming.
  Context {U : Type → Type → Type} `{UnfoldOps U}.
  Context {W L T Addr : Type}.
  Context (accept : Async L → WithFut → Waker → M W (Poll (io_result (Async T * Addr)) * WithFut)).

(** The future of the closure: the listener, and the future of its [accept]. *)
Definition start (listener : Async L) : Async L * WithFut := (listener, Calling).
Definition item_poll (fut : Async L * WithFut) (cx : Waker)
    : M W (Poll (option (io_result (Async T) * Async L)) * (Async L * WithFut)) :=
  let '(listener, st) := fut in
  '(res, st) ← accept listener st cx;
  mret (match res with
        | Pending => Pending
        | Prelude.Ready (Ok (stream, _)) => Prelude.Ready (Some (Ok stream, listener))
        | Prelude.Ready (Err err) => Prelude.Ready (Some (Err err, listener))
        end, (listener, st)).

Definition incoming (listener : Async L) : U (Async L) (Async L * WithFut) := unfold listener.
Definition poll_next := unfold_next (U := U) start item_poll.

(** What a loop around [accept] would answer: the result of each call without the
    address, and never an end. *)
Fixpoint accepts (listener : Async L) (st : WithFut) (cxs : list Waker)
    : M W (list (Poll (option (io_result (Async T))))) :=
  match cxs with
  | [] => mret []
  | cx :: cxs =>
      '(res, st) ← accept listener st cx;
      match res with
      | Pending =>
          rs ← accepts listener st cxs;
          mret (Pending :: rs)
      | Prelude.Ready res =>
          rs ← accepts listener Calling cxs;
          mret (Prelude.Ready (Some (match res with
                                     | Ok (stream, _) => Ok stream
                                     | Err err => Err err
                                     end)) :: rs)
      end
  end.
End incoming.

Section incoming_facts.
Context {U : Type → Type → Type} `{UnfoldLaws U} {W L T Addr : Type}.
Implicit Types accept : Async L → WithFut → Waker →
  M W (Poll (io_result (Async T * Addr)) * WithFut).

Lemma item_poll_run accept (listener : Async L) st cx w :
  item_poll accept (listener, st) cx w =
  match accept listener st cx w with
  | Ret ((res, st'), w') =>
      Ret ((match res with
            | Pending => Pending
            | Prelude.Ready (Ok (stream, _)) => Prelude.Ready (Some (Ok stream, listener))
            | Prelude.Ready (Err err) => Prelude.Ready (Some (Err err, listener))
            end, (listener, st')), w')
  | Panic => Panic
  | OutOfFuel => OutOfFuel
  end.
Proof.
  unfold item_poll, mbind, M_bind. by destruct (accept listener st cx w) as [[[? ?] ?]| |].
Qed.

(** The stream and the loop stay in step. *)
Lemma answers_accepts accept (listener : Async L) cxs :
  ∀ (u : U (Async L) (Async L * WithFut)) st w,
  unfold_future start (unfold_view u) = Some (listener, st) →
  answers (poll_next accept) u cxs w = accepts accept listener st cxs w.
Proof.
  induction cxs as [|cx cxs IH]; intros u st w Hu; [done|].
  pose proof (unfold_next_spec start (item_poll accept) u _ cx w Hu) as Hn.
  rewrite item_poll_run in Hn. cbn [answers accepts]. unfold poll_next in IH |- *.
  unfold mbind, M_bind in *.
  destruct (accept listener st cx w) as [[[res st'] w']| |]; [|by rewrite Hn..].
  destruct Hn as (u' & Hu' & ->).
  destruct res as [[[stream addr]|err]|]; cbn [unfold_after unfold_item] in *;
    by rewrite (IH u' _ w' ltac:(by rewrite Hu')).
Qed.

(** The loop never ends. *)
Lemma accepts_no_end accept (listener : Async L) cxs :
  ∀ st w rs w', accepts accept listener st cxs w = Ret (rs, w') →
  length rs = length cxs ∧ Prelude.Ready None ∉ rs.
Proof.
  induction cxs as [|cx cxs IH]; intros st w rs w' Hrun; cbn [accepts] in Hrun.
  { injection Hrun as <- <-. split; [done|]. apply not_elem_of_nil. }
  ret_inv Hrun. destruct a as [[res|] st']; ret_inv Hrun; injection Hrun as <- <-;
    destruct (IH _ _ _ _ Hrun1) as [Hlen Hnot]; (split; [by cbn; rewrite Hlen|]);
    rewrite not_elem_of_cons; by split.
Qed.
End incoming_facts.
End Incoming.

(** * TCP *)

Module TcpListener.
Import Async Net.
Section tcp_listener.
  Context {Slab Queue : Type → Type} {Reg Env L T : Type}.
  Context `{SlabOps Slab, QueueOps Queue, EnvOps Env, RegOps Reg Env, RegNew Reg}.
  Context `{HandleOps L Env, HandleOps T Env, FdOps Env, TcpOps L T Env}.
  Local Abbreviation World := (World Slab Queue Reg Env).

Definition bind (t : Target) (addr : SocketAddr) : M World (io_result (Async L)) :=
  Net.bind t (tcp_bind addr).
Definition accept (t : Target)
    : Async L → WithFut → Waker → M World (Poll (io_result (Async T * SocketAddr)) * WithFut) :=
  accept_poll t (no_buffer tcp_accept).
Definition try_from (t : Target) (listener : L) : M World (io_result (Async L)) :=
  new (fionbio t) listener.

Context {U : Type → Type → Type} `{UnfoldOps U}.
Definition incoming (listener : Async L) : U (Async L) (Async L * WithFut) :=
  Incoming.incoming listener.
Definition incoming_next (t : Target) (u : U (Async L) (Async L * WithFut)) (cx : Waker)
    : M World (Poll (option (io_result (Async T))) * U (Async L) (Async L * WithFut)) :=
  Incoming.poll_next (accept t) u cx.
End tcp_listener.
End TcpListener.

Module TcpStream.
Import Async Net.
Section tcp_stream.
  Context {Slab Queue : Type → Type} {Reg Env L T Addr : Type}.
  Context `{SlabOps Slab, QueueOps Queue, EnvOps Env, RegOps Reg Env, RegNew Reg}.
  Context `{HandleOps T Env, FdOps Env, TcpOps L T Env, SocketOps Env Addr}.
  Local Abbreviation World := (World Slab Queue Reg Env).

(** The start of [connect]: the address, the socket, the stream made of it. *)
Definition begin (t : Target) (addr : SocketAddr) (e : Env) : io_result T * Env :=
  let '(domain, sock_addr) :=
    match addr with
    | V4 _ _ => (AF_INET, as_any addr)
    | V6 _ _ _ _ => (AF_INET6, as_any addr)
    end in
  match Net.connect t sock_addr domain (Some (ipproto_TCP (E := Env) (Addr := Addr))) e with
  | (Ok socket, e) => (Ok (tcp_from (L := L) (E := Env) socket), e)
  | (Err err, e) => (Err err, e)
  end.
(** Its end: was there an error while connecting? *)
Definition check (stream : T) (e : Env) : io_result unit * Env :=
  match tcp_take_error (L := L) stream e with
  | (Err err, e) => (Err err, e)
  | (Ok None, e) => (Ok tt, e)
  | (Ok (Some err), e) => (Err err, e)
  end.
Definition connect (t : Target) (addr : SocketAddr)
    : ConnFut T → Waker → M World (Poll (io_result (Async T)) * ConnFut T) :=
  conn_poll (begin t addr) check.

Definition peek (a : Async T) (buf : list Z) (st : WithFut) (cx : Waker)
    : M World (Poll (io_result Z) * (Async T * list Z * WithFut)) :=
  read_with_poll (tcp_peek (L := L)) a buf st cx.
Definition try_from (t : Target) (stream : T) : M World (io_result (Async T)) :=
  new (fionbio t) stream.
End tcp_stream.
End TcpStream.

(** * UDP *)

Module UdpSocket.
Import Async Net.
Section udp_socket.
  Context {Slab Queue : Type → Type} {Reg Env D : Type}.
  Context `{SlabOps Slab, QueueOps Queue, EnvOps Env, RegOps Reg Env, RegNew Reg}.
  Context `{HandleOps D Env, FdOps Env, UdpOps D Env}.
  Local Abbreviation World := (World Slab Queue Reg Env).

Definition bind (t : Target) (addr : SocketAddr) : M World (io_result (Async D)) :=
  Net.bind t (udp_bind addr).
Definition recv_from (a : Async D) (buf : list Z) (st : WithFut) (cx : Waker)
    : M World (Poll (io_result (Z * SocketAddr)) * (Async D * list Z * WithFut)) :=
  read_with_poll udp_recv_from a buf st cx.
Definition peek_from (a : Async D) (buf : list Z) (st : WithFut) (cx : Waker)
    : M World (Poll (io_result (Z * SocketAddr)) * (Async D * list Z * WithFut)) :=
  read_with_poll udp_peek_from a buf st cx.
Definition send_to (buf : list Z) (addr : SocketAddr) (a : Async D) (st : WithFut) (cx : Waker)
    : M World (Poll (io_result Z) * (Async D * unit * WithFut)) :=
  write_with_poll (no_buffer (λ io, udp_send_to io buf addr)) a tt st cx.
Definition recv (a : Async D) (buf : list Z) (st : WithFut) (cx : Waker)
    : M World (Poll (io_result Z) * (Async D * list Z * WithFut)) :=
  read_with_poll udp_recv a buf st cx.
Definition peek (a : Async D) (buf : list Z) (st : WithFut) (cx : Waker)
    : M World (Poll (io_result Z) * (Async D * list Z * WithFut)) :=
  read_with_poll udp_peek a buf st cx.
Definition send (buf : list Z) (a : Async D) (st : WithFut) (cx : Waker)
    : M World (Poll (io_result Z) * (Async D * unit * WithFut)) :=
  write_with_poll (no_buffer (λ io, udp_send io buf)) a tt st cx.
Definition try_from (t : Target) (socket : D) : M World (io_result (Async D)) :=
  new (fionbio t) socket.
End udp_socket.
End UdpSocket.

(** * Unix domain sockets *)

Module UnixListener.
Import Async Net.
Section unix_listener.
  Context {Slab Queue : Type → Type} {Reg Env L T D UnixSocketAddr : Type}.
  Context `{SlabOps Slab, QueueOps Queue, EnvOps Env, RegOps Reg Env, RegNew Reg}.
  Context `{HandleOps L Env, HandleOps T Env, FdOps Env, UnixNetOps L T D UnixSocketAddr Env}.
  Local Abbreviation World := (World Slab Queue Reg Env).

Definition bind (t : Target) (path : list Z) : M World (io_result (Async L)) :=
  Net.bind t (uds_bind path).
Definition accept (t : Target)
    : Async L → WithFut → Waker →
      M World (Poll (io_result (Async T * UnixSocketAddr)) * WithFut) :=
  accept_poll t (no_buffer uds_accept).
Definition try_from (t : Target) (listener : L) : M World (io_result (Async L)) :=
  new (fionbio t) listener.

Context {U : Type → Type → Type} `{UnfoldOps U}.
Definition incoming (listener : Async L) : U (Async L) (Async L * WithFut) :=
  Incoming.incoming listener.
Definition incoming_next (t : Target) (u : U (Async L) (Async L * WithFut)) (cx : Waker)
    : M World (Poll (option (io_result (Async T))) * U (Async L) (Async L * WithFut)) :=
  Incoming.poll_next (accept t) u cx.
End unix_listener.
End UnixListener.

Module UnixStream.
Import Async Net.
Section unix_stream.
  Context {Slab Queue : Type → Type} {Reg Env L T D UnixSocketAddr Addr : Type}.
  Context `{SlabOps Slab, QueueOps Queue, EnvOps Env, RegOps Reg Env, RegNew Reg}.
  Context `{HandleOps T Env, FdOps Env, UnixNetOps L T D UnixSocketAddr Env}.
  Context `{SocketOps Env Addr, UnixAddrOps Addr}.
  Local Abbreviation World := (World Slab Queue Reg Env).

(** The start of [connect]: the address, the socket, the stream made of it. *)
Definition begin (t : Target) (path : list Z) (e : Env) : io_result T * Env :=
  match convert_path_to_socket_address t path with
  | Err err => (Err err, e)
  | Ok address =>
      match Net.connect t address AF_UNIX None e with
      | (Ok socket, e) => (Ok (uds_from socket), e)
      | (Err err, e) => (Err err, e)
      end
  end.
(** Its end: can the address of the peer be retrieved? *)
Definition check (stream : T) (e : Env) : io_result unit * Env :=
  match uds_peer_addr stream e with
  | (Ok _, e) => (Ok tt, e)
  | (Err err, e) => (Err err, e)
  end.
Definition connect (t : Target) (path : list Z)
    : ConnFut T → Waker → M World (Poll (io_result (Async T)) * ConnFut T) :=
  conn_poll (begin t path) check.

Definition pair (t : Target) : M World (io_result (Async T * Async T)) := Net.pair t uds_pair.
Definition try_from (t : Target) (stream : T) : M World (io_result (Async T)) :=
  new (fionbio t) stream.
End unix_stream.
End UnixStream.

Module UnixDatagram.
Import Async Net.
Section unix_datagram.
  Context {Slab Queue : Type → Type} {Reg Env L T D UnixSocketAddr : Type}.
  Context `{SlabOps Slab, QueueOps Queue, EnvOps Env, RegOps Reg Env, RegNew Reg}.
  Context `{HandleOps D Env, FdOps Env, UnixNetOps L T D UnixSocketAddr Env}.
  Local Abbreviation World := (World Slab Queue Reg Env).

Definition bind (t : Target) (path : list Z) : M World (io_result (Async D)) :=
  Net.bind t (udg_bind path).
Definition unbound (t : Target) : M World (io_result (Async D)) := Net.bind t udg_unbound.
Definition pair (t : Target) : M World (io_result (Async D * Async D)) := Net.pair t udg_pair.
Definition recv_from (a : Async D) (buf : list Z) (st : WithFut) (cx : Waker)
    : M World (Poll (io_result (Z * UnixSocketAddr)) * (Async D * list Z * WithFut)) :=
  read_with_poll udg_recv_from a buf st cx.
Definition send_to (buf path : list Z) (a : Async D) (st : WithFut) (cx : Waker)
    : M World (Poll (io_result Z) * (Async D * unit * WithFut)) :=
  write_with_poll (no_buffer (λ io, udg_send_to io buf path)) a tt st cx.
Definition recv (a : Async D) (buf : list Z) (st : WithFut) (cx : Waker)
    : M World (Poll (io_result Z) * (Async D * list Z * WithFut)) :=
  read_with_poll udg_recv a buf st cx.
Definition send (buf : list Z) (a : Async D) (st : WithFut) (cx : Waker)
    : M World (Poll (io_result Z) * (Async D * unit * WithFut)) :=
  write_with_poll (no_buffer (λ io, udg_send io buf)) a tt st cx.
Definition try_from (t : Target) (socket : D) : M World (io_result (Async D)) :=
  new (fionbio t) socket.
End unix_datagram.
End UnixDatagram.

(** * Properties *)

Module Sockets.
Import Async Net.

Section incoming_properties.
  Context {Slab Queue : Type → Type} {Reg Env L T L' T' D UnixSocketAddr : Type}.
  Context `{SlabOps Slab, QueueOps Queue, EnvOps Env, RegOps Reg Env, RegNew Reg}.
  Context `{HandleOps T Env, HandleOps T' Env, FdOps Env}.
  Context `{TcpOps L T Env, UnixNetOps L' T' D UnixSocketAddr Env}.
  Context {U : Type → Type → Type} `{UnfoldLaws U}.
  Local Abbreviation World := (World Slab Queue Reg Env).

(** C31 The streams [incoming] of both listeners are equivalent to calling [accept] again and
    again: whatever polls are made, they give the answers of the successive calls, in the
    same state of the reactor, and they never end. *)
Theorem incoming_is_accept (t : Target) (tcp : Async L) (uds : Async L') (cxs : list Waker)
    (w : World) :
  (Incoming.answers (TcpListener.incoming_next t) (TcpListener.incoming (U := U) tcp) cxs w =
     Incoming.accepts (TcpListener.accept t) tcp Calling cxs w ∧
   ∀ rs w', Incoming.answers (TcpListener.incoming_next t) (TcpListener.incoming (U := U) tcp)
              cxs w = Ret (rs, w') → length rs = length cxs ∧ Prelude.Ready None ∉ rs) ∧
  (Incoming.answers (UnixListener.incoming_next t) (UnixListener.incoming (U := U) uds) cxs w =
     Incoming.accepts (UnixListener.accept t) uds Calling cxs w ∧
   ∀ rs w', Incoming.answers (UnixListener.incoming_next t) (UnixListener.incoming (U := U) uds)
              cxs w = Ret (rs, w') → length rs = length cxs ∧ Prelude.Ready None ∉ rs).
Proof.
  assert (∀ A (l : Async A), unfold_future Incoming.start
            (unfold_view (Incoming.incoming (U := U) l)) = Some (l, Calling)) as Hnew
    by (intros; unfold Incoming.incoming; by rewrite unfold_new_view).
  split; (split; [apply Incoming.answers_accepts, Hnew|]); intros rs w' Hrun;
    (eapply Incoming.accepts_no_end; rewrite <- Hrun; symmetry;
     apply Incoming.answers_accepts, Hnew).
Qed.
End incoming_properties.

Section connect_properties.
  Context {Slab Queue : Type → Type} {Reg Env L T L' T' D UnixSocketAddr Addr : Type}.
  Context `{SlabOps Slab, QueueOps Queue, EnvOps Env, RegOps Reg Env, RegNew Reg, !SlabLaws Slab}.
  Context `{HandleOps T Env, HandleOps T' Env, FdOps Env, SocketOps Env Addr, UnixAddrOps Addr}.
  Context `{TcpOps L T Env, UnixNetOps L' T' D UnixSocketAddr Env}.
  Local Abbreviation World := (World Slab Queue Reg Env).

(** C35 A TCP connection that has been waited for is reported as the operating system left
    it: the stream is returned, registered, exactly when no error is pending; otherwise
    that error is returned (or that of asking for it) and the stream is dropped. *)
Theorem tcp_connect_outcome (t : Target) (addr : SocketAddr) (a : Async T) (i : T)
    (fut : ReadyFut) (cx : Waker) (m : gmap Z loc) (w : World) (s : Source Slab Reg)
    (Hok : conn_ok w (ConnWait a fut) m) (Hi : io a = Some i)
    (Hs : w_heap w !! source a = Some s)
    (Hdel : event_delivered (rd_ticks fut) (tick (dir_get (src_state s) WRITE)) = true) :
  wp (TcpStream.connect (L := L) (Addr := Addr) t addr (ConnWait a fut) cx)
    (λ b w', b.2 = ConnDone ∧
       match (tcp_take_error (L := L) i (w_env w)).1 with
       | Ok None => b.1 = Prelude.Ready (Ok a) ∧ owned w' a m
       | Ok (Some err) | Err err =>
           b.1 = Prelude.Ready (Err err) ∧ slab_map (w_sources w') = m
       end) w.
Proof.
  eapply wp_mono; [by eapply (conn_wait_ready_wp (TcpStream.check (L := L)))|].
  intros b w' [Hb Hr]. split; [done|]. unfold TcpStream.check in Hr.
  by destruct (tcp_take_error (L := L) i (w_env w)) as [[[err|]|err] e].
Qed.

(** A path with a zero byte in front names an abstract socket on the targets that have
    them, and no other path does; a name that is refused ends [connect] with the error,
    before a socket is opened or anything else has changed. *)
Theorem unix_connect_address (t : Target) (path : list Z) (cx : Waker) (w : World) :
  let address :=
    if abstract_names t && bool_decide (head path = Some 0)
    then unix_addr_new_abstract_name (tail path) else unix_addr_new path in
  convert_path_to_socket_address t path = address ∧
  ∀ err, address = Err err →
    UnixStream.connect (L := L') (D := D) (Addr := Addr) t path (ConnStart : ConnFut T') cx w =
    Ret ((Prelude.Ready (Err err), ConnDone), w).
Proof.
  intros address.
  assert (convert_path_to_socket_address t path = address) as Hconv.
  { subst address. unfold convert_path_to_socket_address.
    destruct (abstract_names t); [|done]. by destruct path as [|[|?|?] ?]. }
  split; [done|]. intros err Herr. unfold UnixStream.connect, conn_poll, UnixStream.begin.
  unfold mbind, M_bind, env_call. rewrite Hconv, Herr. by destruct w.
Qed.
End connect_properties.

(** * Witnesses *)

(** The first poll accepts a connection, the second one waits. *)
Lemma incoming_is_accept_witness :
  ∃ s w', Incoming.answers (TcpListener.incoming_next linux)
            (TcpListener.incoming (U := Unfolding) (adapter [])) [waker1; waker2]
            (reactor_example [] []) =
          Ret ([Prelude.Ready (Some (Ok s)); Pending], w') ∧ io s = Some (mkRefHandle 9 []).
Proof.
  destruct (incoming_is_accept (U := Unfolding) linux (adapter []) (adapter [])
              [waker1; waker2] (reactor_example [] [])) as [[Heq _] _].
  eexists _, _. split; [rewrite Heq; vm_compute; reflexivity|reflexivity].
Defined.

(** A stream that waits to be connected, and an event has been delivered. *)
Definition connected_example : RefWorld :=
  set_heap {[ 1%positive := mkSource (Unix.mkRegistration 7) 0
                (mkDirections Direction_default
                   (mkDirection 6 None None ({[ 0 := None ]} : RefSlab (option Waker)))) ]}
    (reactor_example [] []).

Lemma tcp_connect_outcome_witness :
  ∃ w', TcpStream.connect (L := RefHandle) (Addr := list Z) linux (V4 [127; 0; 0; 1] 80)
          (ConnWait (adapter [Ok 111]) (mkReady 1 WRITE (Some (4, 5)) (Some 0))) waker1
          connected_example =
        Ret ((Prelude.Ready (Err (Other 111)), ConnDone), w') ∧ slab_map (w_sources w') = ∅.
Proof.
  assert (conn_ok connected_example
            (ConnWait (adapter [Ok 111]) (mkReady 1 WRITE (Some (4, 5)) (Some 0))) ∅) as Hok.
  { cbn. split_and!; [by eexists| |done|done|].
    - eexists. split; [reflexivity|]. split; [reflexivity|]. by vm_compute.
    - eexists. split; [reflexivity|]. intros i [= <-]. by eexists. }
  destruct (tcp_connect_outcome (L := RefHandle) (Addr := list Z) linux (V4 [127; 0; 0; 1] 80)
              _ _ _ waker1 _ _ _ Hok eq_refl eq_refl eq_refl) as ([r st] & w' & Hrun & Hst & Hr).
  cbn in Hst, Hr. destruct Hr as [-> Hm]. subst st. exists w'. split; [exact Hrun|exact Hm].
Defined.

Lemma unix_connect_address_witness :
  UnixStream.connect (L := RefHandle) (D := RefHandle) (Addr := list Z) apple [0; 65]
    (ConnStart : ConnFut RefHandle) waker1 (reactor_example [] []) =
  Ret ((Prelude.Ready (Err (Other 22)), ConnDone), reactor_example [] []).
Proof.
  apply (unix_connect_address (L' := RefHandle) (D := RefHandle) (Addr := list Z) apple
           [0; 65] waker1 (reactor_example [] [])). reflexivity.
Defined.
End Sockets.
