(* ===== verification/Examples.v ===== *)
(** Two programs over [Async] (src/examples/linux-timerfd.rs and linux-inotify.rs), whose
    handles are of other crates: these are the classes [TimerFdOps] and [InotifyOps]. *)
From S2P Require Import Prelude Std Deps Registration RefDeps World RefWorld Timers.
From S2P Require Import Source Reactor Ready Async Net.

(** [rustix::io::read]; [TimerFd::new], and [set_state] to one shot after a duration. *)
Class TimerFdOps (T E : Type) : Type := {
  fd_read : Z → list Z → E → io_result Z * E;
  tf_new : E → io_result T * E;
  tf_set_oneshot : T → Duration → E → T * E;
}.

(** [Inotify]: an event has a mask, and a name if it is about a file in the directory.
    [println] is in the class, since the output is. *)
Class InotifyOps (T E : Type) : Type := {
  in_init : E → io_result T * E;
  in_add : T → list Z → E → io_result unit * E;
  in_read_events : T → list Z → E → (io_result (list (option (list Z) * Z)) * T) * E;
  in_print : list Z * Z → E → E;
}.

Module Timerfd.
Import Async Net.

(** The future [sleep]. *)
Inductive SleepFut {T : Type} : Type :=
  | SleepStart (dur : Duration)
  | SleepRead (a : Async T) (st : WithFut)
  | SleepDone.
Arguments SleepFut : clear implicits.

Section timerfd.
  Context {Slab Queue : Type → Type} {Reg Env T : Type}.
  Context `{SlabOps Slab, QueueOps Queue, EnvOps Env, RegOps Reg Env, RegNew Reg}.
  Context `{HandleOps T Env, FdOps Env, TimerFdOps T Env}.
  Local Abbreviation World := (World Slab Queue Reg Env).

(** The closure: reads a 64-bit integer. *)
Definition read_timer (t : T) (e : Env) : io_result Z * Env :=
  fd_read (T := T) (as_raw t) (repeat 0 8) e.

(** The end of [sleep]: [read_with(..).await?], the adapter being dropped when it is over. *)
Definition sleep_read (a : Async T) (st : WithFut) (cx : Waker)
    : M World (Poll (io_result unit) * SleepFut T) :=
  '(res, (a, _, st)) ← read_with_poll (no_buffer read_timer) a tt st cx;
  match res with
  | Pending => mret (Pending, SleepRead a st)
  | Prelude.Ready (Err err) => drop a ;; mret (Prelude.Ready (Err err), SleepDone)
  | Prelude.Ready (Ok _) => drop a ;; mret (Prelude.Ready (Ok tt), SleepDone)
  end.

(** [sleep], one poll. *)
Definition sleep_poll (st : SleepFut T) (cx : Waker)
    : M World (Poll (io_result unit) * SleepFut T) :=
  match st with
  | SleepStart dur =>
      res ← env_call tf_new;
      match res with
      | Err err => mret (Prelude.Ready (Err err), SleepDone)
      | Ok timer =>
          timer ← env_call (tf_set_oneshot timer dur);
          res ← new true timer;
          match res with
          | Err err => mret (Prelude.Ready (Err err), SleepDone)
          | Ok a => sleep_read a Calling cx
          end
      end
  | SleepRead a st => sleep_read a st cx
  | SleepDone => panic
  end.

(** Dropping the future. *)
Definition sleep_drop (st : SleepFut T) : M World unit :=
  match st with
  | SleepRead a st => with_drop st ;; drop a
  | _ => mret tt
  end.
End timerfd.

Section spec.
  Context {Slab Queue : Type → Type} {Reg Env T : Type}.
  Context `{SlabOps Slab, QueueOps Queue, EnvOps Env, RegOps Reg Env, !SlabLaws Slab}.
  Local Abbreviation World := (World Slab Queue Reg Env).

(** A future [sleep] that has not completed, [m] being the sources of all others. *)
Definition sleep_ok (w : World) (st : SleepFut T) (m : gmap Z loc) : Prop :=
  match st with
  | SleepStart _ => slab_map (w_sources w) = m
  | SleepRead a st => is_Some (io a) ∧ owned w a m ∧ with_ok w READ a st
  | SleepDone => False
  end.
End spec.

Section facts.
Context {Slab Queue : Type → Type} {Reg Env T : Type}.
Context `{SlabOps Slab, QueueOps Queue, EnvOps Env, RegOps Reg Env, !SlabLaws Slab}.
Context `{RegNew Reg, HandleOps T Env, FdOps Env}.
Local Abbreviation World := (World Slab Queue Reg Env).
Implicit Types (w : World) (a : Async T) (m : gmap Z loc).

Lemma owned_ids w w' a a' m :
  owned w a m → source a' = source a → w_sources w' = w_sources w →
  (∀ k, src_id <$> w_heap w' !! k = src_id <$> w_heap w !! k) → owned w' a' m.
Proof.
  intros (s & Hs & Hk & Hm) Ha Hsrc Hids. specialize (Hids (source a)). rewrite Hs in Hids.
  apply fmap_Some in Hids as (s' & Hs' & [= _ Hkey]). exists s'.
  rewrite Ha, Hsrc. split_and!; [done|by rewrite <- Hkey|by rewrite <- Hkey].
Qed.

(** A poll of [read_with] or [write_with] does not change who owns the source. *)
Lemma with_poll_owned_wp {S R} dir (op : T → S → Env → (io_result R * (T * S)) * Env)
    a i x st cx m w :
  io a = Some i → with_ok w dir a st → owned w a m →
  wp (with_poll WITH_FUEL dir op a x st cx)
    (λ b w', let '(r, (a', x', st')) := b in
       ∃ res i' e, op i x (w_env w) = ((res, (i', x')), e) ∧ io a' = Some i' ∧ owned w' a' m ∧
       match r with
       | Pending => res = Err WouldBlock ∧ with_ok w' dir a' st'
       | Prelude.Ready (Ok v) => res = Ok v ∧ w_env w' = e
       | Prelude.Ready (Err err) => res = Err err ∨ res = Err WouldBlock
       end) w.
Proof.
  intros Hi Hok Hown. eapply wp_mono; [by eapply with_poll_wp|].
  intros [r [[a' x'] st']] w' (res & i' & e & Hop & -> & _ & Hsrc & Hids & Hr).
  exists res, i', e. split_and!; [done|done|by eapply owned_ids|].
  destruct r as [out|]; [|by destruct Hr as (-> & Hok' & _)].
  destruct Hr as [_ [(_ & -> & He)|[-> (err & -> & _)]]]; [destruct res; by try left|by right].
Qed.

(** A fresh adapter is owned, and can be waited for. *)
Lemma owned_calling w a m dir : owned w a m → with_ok w dir a Calling.
Proof. intros (s & Hs & _). by exists s. Qed.

Lemma with_drop_owned_wp w a m st dir (P : unit → World → Prop) :
  with_ok w dir a st → owned w a m → (∀ w', owned w' a m → P tt w') → wp (with_drop st) P w.
Proof.
  intros Hok Hown HP. eapply with_drop_wp; [done|]. intros w' _ _ Hsrc Hids.
  apply HP. by eapply owned_ids.
Qed.

Context `{TimerFdOps T Env}.

(** What a poll of [sleep] may answer. *)
Definition sleep_answer m (r : Poll (io_result unit)) (st' : SleepFut T) w' : Prop :=
  match r with
  | Pending => sleep_ok w' st' m
  | Prelude.Ready res =>
      st' = SleepDone ∧ slab_map (w_sources w') = m ∧
      (res = Ok tt → ∃ t e n, (read_timer t e).1 = Ok n)
  end.

Lemma sleep_read_wp a st cx m w :
  sleep_ok w (SleepRead a st) m →
  wp (sleep_read a st cx) (λ b w', sleep_answer m b.1 b.2 w') w.
Proof.
  intros ([i Hi] & Hown & Hok). unfold sleep_read. apply wp_bind.
  eapply wp_mono; [by eapply with_poll_owned_wp|].
  intros [r [[a' []] st']] w1 (res & i' & e & Hop & Hi' & Hown' & Hr).
  assert ((read_timer i (w_env w)).1 = res) as Hread.
  { unfold by_ref, no_buffer in Hop. destruct (read_timer i (w_env w)) as [res' e'].
    by injection Hop as <- _ _. }
  destruct r as [[n|err]|].
  - apply wp_bind. eapply drop_owned_wp; [by eexists|done|]. intros w2 Hw2. apply wp_ret.
    split_and!; [done..|]. intros _. exists i, (w_env w), n. rewrite Hread. apply Hr.
  - apply wp_bind. eapply drop_owned_wp; [by eexists|done|]. intros w2 Hw2. by apply wp_ret.
  - apply wp_ret. split_and!; [by eexists|done|by apply Hr].
Qed.

(** [sleep] does not leak its timer: a poll that waits keeps the source of the timer
    registered, and it alone; one that ends, whatever call failed, leaves the reactor as it
    was before [sleep]; and it ends well only after a read of the timer that did. *)
Theorem sleep_poll_spec (st : SleepFut T) (cx : Waker) (m : gmap Z loc) (w : World)
    (Hok : sleep_ok w st m) :
  wp (sleep_poll st cx) (λ b w', sleep_answer m b.1 b.2 w') w.
Proof.
  destruct st as [dur|a st|]; [|by apply sleep_read_wp|done]. cbn [sleep_poll sleep_ok] in *.
  apply wp_bind, wp_env_call. destruct (tf_new (w_env w)) as [[t|err] e]; cbn [fst snd].
  2:{ by apply wp_ret. }
  apply wp_bind, wp_env_call. destruct (tf_set_oneshot t dur _) as [t' e']; cbn [fst snd].
  apply wp_bind, new_owned_wp; cbn [w_sources set_env].
  - intros a w' Hi Hown _. apply sleep_read_wp. rewrite Hok in Hown.
    split_and!; [by eexists|done|by eapply owned_calling].
  - intros err w' Hsl _. apply wp_ret. by rewrite <- Hok.
Qed.

(** Cancelling [sleep] does not leak the timer either. *)
Theorem sleep_drop_spec (st : SleepFut T) (m : gmap Z loc) (w : World)
    (Hok : sleep_ok w st m) :
  wp (sleep_drop st) (λ _ w', slab_map (w_sources w') = m) w.
Proof.
  destruct st as [dur|a st|]; [by apply wp_ret| |done]. destruct Hok as (Hi & Hown & Hok).
  cbn [sleep_drop]. apply wp_bind. eapply with_drop_owned_wp; [done..|].
  intros w1 Hown1. by eapply drop_owned_wp.
Qed.
End facts.

(** * Witnesses *)

(** A timer on the descriptor 9 that fires at the time 1500. *)
#[local] Instance RefTimerFd_ops : TimerFdOps RefHandle RefEnv := {|
  fd_read := λ _ _ e, (if decide (1500 ≤ ref_time e) then Ok 8 else Err WouldBlock, e);
  tf_new := λ e, (Ok (mkRefHandle 9 []), e);
  tf_set_oneshot := λ t _ e, (t, e);
|}.

(** The timer has not fired yet; then the task is cancelled. *)
Lemma sleep_poll_spec_witness :
  ∃ a st w', sleep_poll (SleepStart 500) waker3 (reactor_example [] []) =
               Ret ((Pending, SleepRead a st), w') ∧ owned w' a {[ 0 := 1%positive ]}.
Proof.
  assert (sleep_ok (reactor_example [] []) (SleepStart 500 : SleepFut RefHandle)
            {[ 0 := 1%positive ]}) as Hok by done.
  destruct (sleep_poll_spec (SleepStart 500) waker3 _ _ Hok) as ([r st'] & w' & Hrun & Hans).
  assert (r = Pending) as ->.
  { pose proof Hrun as Hc. vm_compute in Hc. by injection Hc as <- _ _. }
  cbn in Hans. destruct st' as [|a st|]; [|exists a, st, w'|done].
  - exfalso. vm_compute in Hrun. injection Hrun as Hst _. discriminate Hst.
  - split; [exact Hrun|]. apply Hans.
Defined.

Lemma sleep_drop_spec_witness :
  ∃ w', sleep_drop (SleepRead (mkAsync 1%positive (Some (mkRefHandle 7 []))) Calling)
          (reactor_example [] []) = Ret (tt, w') ∧ slab_map (w_sources w') = ∅.
Proof.
  assert (sleep_ok (reactor_example [] [])
            (SleepRead (mkAsync 1%positive (Some (mkRefHandle 7 []))) Calling) ∅) as Hok.
  { cbn. split_and!; [by eexists| |by eexists].
    eexists. split; [reflexivity|]. split; [reflexivity|]. by vm_compute. }
  destruct (sleep_drop_spec _ _ _ Hok) as ([] & w' & Hrun & Hs).
  exists w'. split; [exact Hrun|exact Hs].
Defined.
End Timerfd.

Module Inotify.
Import Async Net.

(** The task of [main]. *)
Inductive WatchFut {T : Type} : Type :=
  | WatchStart
  | WatchRead (a : Async T) (st : WithFut)
  | WatchDone.
Arguments WatchFut : clear implicits.

Section inotify.
  Context {Slab Queue : Type → Type} {Reg Env T : Type}.
  Context `{SlabOps Slab, QueueOps Queue, EnvOps Env, RegOps Reg Env, RegNew Reg}.
  Context `{HandleOps T Env, FdOps Env, InotifyOps T Env}.
  Local Abbreviation World := (World Slab Queue Reg Env).

Definition DOT : list Z := [46].

(** The name of an event and its mask, if it has a name. *)
Definition named (ev : option (list Z) * Z) : option (list Z * Z) :=
  (λ name, (name, ev.2)) <$> ev.1.

Definition read_op (inotify : T) (e : Env) : (io_result (list (list Z * Z)) * T) * Env :=
  let '((res, inotify), e) := in_read_events inotify (repeat 0 1024) e in
  match res with
  | Err err => ((Err err, inotify), e)
  | Ok events =>
      let events := omap named events in
      ((if decide (events = []) then Err WouldBlock else Ok events, inotify), e)
  end.

(** [read_op], as [read_with_mut] calls it. *)
Definition read_op_mut (inotify : T) (_ : unit) (e : Env)
    : (io_result (list (list Z * Z)) * (T * unit)) * Env :=
  let '((res, inotify), e) := read_op inotify e in ((res, (inotify, tt)), e).

Definition print_all (events : list (list Z * Z)) (e : Env) : Env :=
  foldl (λ e ev, in_print (T := T) ev e) e events.

(** The loop, one poll. [fuel] bounds the reads. *)
Fixpoint watch_loop (fuel : nat) (a : Async T) (st : WithFut) (cx : Waker)
    : M World (Poll (io_result unit) * WatchFut T) :=
  match fuel with
  | O => out_of_fuel
  | Datatypes.S fuel =>
      '(res, (a, _, st)) ← read_with_mut_poll read_op_mut a tt st cx;
      match res with
      | Pending => mret (Pending, WatchRead a st)
      | Prelude.Ready (Err err) => drop a ;; mret (Prelude.Ready (Err err), WatchDone)
      | Prelude.Ready (Ok events) =>
          env_call (λ e, (tt, print_all events e)) ;; watch_loop fuel a Calling cx
      end
  end.

(** The whole task, one poll: an error of the [?]s drops what has been made. *)
Definition watch_poll (fuel : nat) (st : WatchFut T) (cx : Waker)
    : M World (Poll (io_result unit) * WatchFut T) :=
  match st with
  | WatchStart =>
      res ← env_call in_init;
      match res with
      | Err err => mret (Prelude.Ready (Err err), WatchDone)
      | Ok inotify =>
          res ← new true inotify;
          match res with
          | Err err => mret (Prelude.Ready (Err err), WatchDone)
          | Ok a =>
              '(inotify, _) ← get_mut a;
              res ← env_call (in_add inotify DOT);
              match res with
              | Err err => drop a ;; mret (Prelude.Ready (Err err), WatchDone)
              | Ok _ => watch_loop fuel a Calling cx
              end
          end
      end
  | WatchRead a st => watch_loop fuel a st cx
  | WatchDone => panic
  end.

(** What there is to read: [n] times in a row named events, which are printed, then an
    error, [WouldBlock] if there is nothing left. *)
Inductive drained : nat → T → Env → io_error → Prop :=
  | drained_end i e err i' e' : read_op i e = ((Err err, i'), e') → drained 0 i e err
  | drained_more n i e events err i' e' :
      read_op i e = ((Ok events, i'), e') → drained n i' (print_all events e') err →
      drained (Datatypes.S n) i e err.
End inotify.

Section facts.
Context {Slab Queue : Type → Type} {Reg Env T : Type}.
Context `{SlabOps Slab, QueueOps Queue, EnvOps Env, RegOps Reg Env, !SlabLaws Slab}.
Context `{RegNew Reg, HandleOps T Env, FdOps Env, InotifyOps T Env}.
Local Abbreviation World := (World Slab Queue Reg Env).

(** The loop of the inotify example, one poll: it reads and prints again and again, until
    a read fails; [n] reads and one more are enough for it to return. An error ends the
    task, and its source is gone. If there is nothing left to read, the task waits, with its
    source registered, unless the poller refuses. Buffers of nameless events count as
    nothing to read. *)
Theorem watch_loop_spec (fuel n : nat) (a : Async T) (i : T) (st : WithFut) (cx : Waker)
    (err : io_error) (m : gmap Z loc) (w : World) :
  io a = Some i → with_ok w READ a st → Net.owned w a m → drained n i (w_env w) err →
  (n < fuel)%nat →
  wp (watch_loop fuel a st cx)
    (λ b w',
       (∃ a' st', err = WouldBlock ∧ b = (Pending, WatchRead a' st') ∧
          is_Some (io a') ∧ with_ok w' READ a' st' ∧ Net.owned w' a' m) ∨
       (∃ err', b = (Prelude.Ready (Err err'), WatchDone) ∧
          slab_map (w_sources w') = m ∧ (err = err' ∨ err = WouldBlock))) w.
Proof.
  intros Hi Hok Hown Hd. remember (w_env w) as e eqn:He. revert fuel a st w He Hi Hok Hown.
  induction Hd as [i e err i' e' Hread|n i e events err i' e' Hread Hd IH];
    intros [|fuel] a st w -> Hi Hok Hown Hn; try lia; cbn [watch_loop]; apply wp_bind;
    (eapply wp_mono; [by eapply Timerfd.with_poll_owned_wp|]);
    intros [r [[a' []] st']] w1 (res & i1 & e1 & Hop & Hi1 & Hown1 & Hr);
    unfold read_op_mut in Hop; rewrite Hread in Hop; injection Hop as <- <- <-.
  - destruct r as [[evs|err']|]; [by destruct Hr| |].
    + apply wp_bind. eapply drop_owned_wp; [by eexists|done|]. intros w2 Hw2. apply wp_ret.
      right. exists err'. split_and!; [done..|]. destruct Hr as [[= ->]|[= ->]]; auto.
    + apply wp_ret. destruct Hr as [[= ->] Hok']. left. exists a', st'. by split_and!.
  - destruct r as [[evs|err']|]; [|by destruct Hr|by destruct Hr].
    destruct Hr as [[= <-] Henv]. apply wp_bind, wp_env_call. cbn [fst snd].
    rewrite Henv. apply IH; [done|done| |done|lia].
    by eapply Timerfd.owned_calling.
Qed.
End facts.

(** * Witness *)

(** The answers of a handle are the masks of named events; each comes with one that has no
    name. What is printed is lost. *)
#[local] Instance RefInotify_ops : InotifyOps RefHandle RefEnv := {|
  in_init := λ e, (Ok (mkRefHandle 9 []), e);
  in_add := λ _ _ e, (Ok tt, e);
  in_read_events := λ h buf e,
    let '((res, (h, _)), e) := ref_answer h buf e in
    ((match res with
      | Ok 0 => Ok [(None, 0)]
      | Ok mask => Ok [(Some [97], mask); (None, 0)]
      | Err err => Err err
      end, h), e);
  in_print := λ _ e, e;
|}.

(** Two reads find events with a name, the third finds one without: the task waits. *)
Lemma watch_loop_spec_witness :
  ∃ a st w', watch_loop 3 (adapter [Ok 5; Ok 6; Ok 0]) Calling waker3 (reactor_example [] []) =
               Ret ((Pending, WatchRead a st), w') ∧ Net.owned w' a ∅.
Proof.
  assert (Net.owned (reactor_example [] []) (adapter [Ok 5; Ok 6; Ok 0]) ∅) as Hown.
  { eexists. split; [reflexivity|]. split; [reflexivity|]. by vm_compute. }
  assert (drained 2 (mkRefHandle 7 [Ok 5; Ok 6; Ok 0]) (w_env (reactor_example [] []))
            WouldBlock) as Hd.
  { do 2 (eapply drained_more; [by vm_compute|]). eapply drained_end. by vm_compute. }
  destruct (watch_loop_spec 3 2 (adapter [Ok 5; Ok 6; Ok 0]) _ Calling waker3 WouldBlock ∅
              (reactor_example [] []) eq_refl
              ltac:(by eexists) Hown Hd ltac:(lia))
    as ([r st'] & w' & Hrun & [(a & st & _ & [= -> ->] & _ & _ & Hown')|(err' & [= -> ->] & _)]).
  - exists a, st, w'. split; [exact Hrun|exact Hown'].
  - exfalso. vm_compute in Hrun. discriminate Hrun.
Defined.
End Inotify.
