(* ===== verification/Os.v ===== *)
(** The platform-specific types (src/src/os/kqueue.rs: [Filter], [Signal], [Exit];
    src/src/os/windows.rs: [Waitable]): adapters over other kinds of registrations; what
    [Async] is on Windows (src/src/lib.rs); and [reactor_fd] (src/src/os/unix.rs). *)
From S2P Require Import Prelude Std Deps Registration RefDeps World RefWorld Timers.
From S2P Require Import Source Reactor Ready Async.

(** * kqueue.rs *)
Module Filter.
Import Async.

(** [QueueableSealed]: what to register for a filter. *)
Class Queueable (T : Type) : Type := registration : T → Kqueue.Registration.

Record Signal : Type := mkSignal { signal : Z }.
#[export] Instance Signal_queueable : Queueable Signal := λ s, Kqueue.Signal (signal s).

(** [Exit(NonZeroI32)] *)
Record Exit : Type := mkExit { pid : Z }.
#[export] Instance Exit_queueable : Queueable Exit := λ e, Kqueue.Process (pid e).

Definition I32_MAX : Z := 2 ^ 31 - 1.

(** [Exit::new]: both [expect]s panic. [id] is [child.id()], a [u32]. *)
Definition exit_new {W : Type} (id : Z) : M W Exit :=
  pid ← unwrap (if decide (id ≤ I32_MAX) then Some id else None);
  pid ← unwrap (if decide (pid ≠ 0) then Some pid else None);
  mret (mkExit pid).

Definition exit_from_pid (pid : Z) : Exit := mkExit pid.

Section filter.
  Context {Slab Queue : Type → Type} {Env T : Type}.
  Context `{SlabOps Slab, QueueOps Queue, EnvOps Env, PollerOps Env, PollerKqueueOps Env}.
  Context `{!SlabLaws Slab}.
  Context `{Queueable T, HandleOps T Env}.
  Local Abbreviation World := (World Slab Queue Kqueue.Registration Env).

(** [struct Filter<T>(Async<T>)]; a filter that cannot be registered is dropped. *)
Definition new (filter : T) : M World (io_result (Async T)) :=
  adopt (registration filter) filter.

Definition as_ref (f : Async T) : M World T := Async.as_ref f.
Definition as_fd (f : Async T) : M World Z := Async.as_fd f.
Definition get_ref (f : Async T) : M World T := Async.get_ref f.
Definition get_mut (f : Async T) : M World (T * (T → Async T)) := Async.get_mut f.
Definition as_mut (f : Async T) : M World (T * (T → Async T)) := get_mut f.
Definition into_inner (f : Async T) : M World (io_result T) := Async.into_inner f.
(** [struct Ready(Readable)] and its [poll] *)
Definition ready (f : Async T) : ReadyFut := Async.readable f.
Definition ready_poll (fut : ReadyFut) (cx : Waker)
    : M World (Poll (io_result unit) * ReadyFut) := readable_poll fut cx.
Definition poll_ready (f : Async T) (cx : Waker) : M World (Poll (io_result unit)) :=
  Async.poll_readable f cx.

(** The conversions from and to [OwnedFd]: a descriptor is registered as such. *)
Definition try_from `{FdOps Env} (use_ioctl : bool) (from_owned : Z → T) (fd : Z)
    : M World (io_result (Async T)) := try_from_owned use_ioctl from_owned fd.
Definition owned_try_from (into_owned : T → Z) (filter : Async T) : M World (io_result Z) :=
  Async.owned_try_from into_owned filter.

(** Creating a filter and taking it apart again leaves no source in the reactor, and
    gives the filter back, unless [kqueue] refuses to add or to delete it: then the error
    is returned, and the filter is dropped. *)
Theorem filter_roundtrip (filter : T) (w : World) :
  wp (res ← new filter; match res with Ok f => into_inner f | Err err => mret (Err err) end)
    (adopt_released (registration filter) filter w) w.
Proof. unfold new, into_inner. exact (adopt_into_inner_wp _ _ w). Qed.
End filter.

(** [Exit::new] accepts exactly the identifiers of processes that are positive [i32]s,
    unchanged; it panics for zero and for those that do not fit. *)
Theorem exit_new_spec {W : Type} (id : Z) (w : W) (Hid : 0 ≤ id < 2 ^ 32) :
  exit_new id w =
    if decide (0 < id ≤ I32_MAX) then Ret (exit_from_pid id, w) else Panic.
Proof.
  unfold exit_new, mbind, M_bind, unwrap, mret, M_ret, panic.
  repeat (case_decide; cbn); try done; lia.
Qed.

Lemma exit_new_spec_witness :
  exit_new 77 tt = Ret (mkExit 77, tt) ∧ exit_new 0 tt = Panic ∧ exit_new (2 ^ 31) tt = Panic.
Proof.
  split_and!; [rewrite (exit_new_spec 77 tt) by lia|rewrite (exit_new_spec 0 tt) by lia
              |rewrite (exit_new_spec (2 ^ 31) tt) by lia]; reflexivity.
Defined.

(** A filter on a signal or a process is waited for one-shot, under the key of the event
    it is re-armed with. *)
Lemma filter_modify {Env : Type} `{PollerOps Env, PollerKqueueOps Env} (sig : Signal)
    (ev : Event) (e : Env) :
  Kqueue.modify (registration sig) e ev =
  poller_modify_filter (PollSignal (signal sig)) e (ev_key ev) Oneshot.
Proof. done. Qed.
End Filter.

(** * windows.rs *)
Module Waitable.
Import Async.
Section waitable.
  Context {Slab Queue : Type → Type} {Env T : Type}.
  Context `{SlabOps Slab, QueueOps Queue, EnvOps Env, PollerOps Env, PollerIocpOps Env}.
  Context `{HandleOps T Env, !SlabLaws Slab}.
  Local Abbreviation World := (World Slab Queue Windows.Registration Env).

(** [struct Waitable<T>(Async<T>)] *)
Definition new (handle : T) : M World (io_result (Async T)) :=
  adopt (Windows.new_waitable (as_raw handle)) handle.

Definition as_ref (w : Async T) : M World T := Async.as_ref w.
Definition as_handle (w : Async T) : M World Z := Async.as_fd w.
Definition get_ref (w : Async T) : M World T := Async.get_ref w.
Definition get_mut (w : Async T) : M World (T * (T → Async T)) := Async.get_mut w.
Definition into_inner (w : Async T) : M World (io_result T) := Async.into_inner w.
Definition ready (w : Async T) : ReadyFut := Async.readable w.
Definition ready_poll (fut : ReadyFut) (cx : Waker)
    : M World (Poll (io_result unit) * ReadyFut) := readable_poll fut cx.
Definition poll_ready (w : Async T) (cx : Waker) : M World (Poll (io_result unit)) :=
  Async.poll_readable w cx.

(** The conversions from and to [OwnedHandle]. *)
Definition try_from (from_owned : Z → T) (handle : Z) : M World (io_result (Async T)) :=
  new (from_owned handle).
Definition owned_try_from (into_owned : T → Z) (value : Async T) : M World (io_result Z) :=
  res ← into_inner value;
  mret (match res with Ok handle => Ok (into_owned handle) | Err err => Err err end).

(** The same as for filters. *)
Lemma waitable_roundtrip (handle : T) (w : World) :
  wp (res ← new handle; match res with Ok f => into_inner f | Err err => mret (Err err) end)
    (adopt_released (Windows.new_waitable (as_raw handle)) handle w) w.
Proof. unfold new, into_inner. exact (adopt_into_inner_wp _ _ w). Qed.
End waitable.
End Waitable.

(** * [Async] on Windows: sockets instead of descriptors *)
Module AsyncSocket.
Import Async.
Section async_socket.
  Context {Slab Queue : Type → Type} {Env T : Type}.
  Context `{SlabOps Slab, QueueOps Queue, EnvOps Env, PollerOps Env, PollerIocpOps Env}.
  Context `{HandleOps T Env, FdOps Env}.
  Local Abbreviation World := (World Slab Queue Windows.Registration Env).

Definition new_nonblocking (io : T) : M World (io_result (Async T)) :=
  adopt (Windows.new (as_raw io)) io.
Definition new (io : T) : M World (io_result (Async T)) :=
  res ← env_call (set_nonblocking true (as_raw io));
  match res with
  | Ok _ => new_nonblocking io
  | Err err => drop_io io ;; mret (Err err)
  end.
Definition as_socket (a : Async T) : M World Z :=
  io ← get_ref a;
  mret (as_raw io).
Definition try_from (from_owned : Z → T) (value : Z) : M World (io_result (Async T)) :=
  new (from_owned value).
Definition owned_try_from (into_owned : T → Z) (value : Async T) : M World (io_result Z) :=
  res ← into_inner value;
  mret (match res with Ok io => Ok (into_owned io) | Err err => Err err end).

(** It is [Async] over the registrations of Windows. *)
Lemma new_is_async (io : T) (w : World) : new io w = Async.new true io w.
Proof. done. Qed.
End async_socket.
End AsyncSocket.

(** * os/unix.rs *)
Module ReactorFd.
Section reactor_fd.
  Context {Slab Queue : Type → Type} {Reg Env : Type}.
  Local Abbreviation World := (World Slab Queue Reg Env).

(** The poller is [AsFd] on the targets whose backend is a descriptor. *)
Definition reactor_fd (has_fd : bool) (poller_fd : Env → Z) : M World (option Z) :=
  if has_fd then
    e ← gets w_env;
    mret (Some (poller_fd e))
  else mret None.
End reactor_fd.
End ReactorFd.
