(* ===== verification/Process.v ===== *)
(** Two programs that wait for a process to exit (src/examples/kqueue-process.rs and
    windows-command.rs), over the platform-specific adapters. Spawning a process is a call
    of the standard library. *)
From S2P Require Import Prelude Std Deps Registration RefDeps World RefWorld Timers.
From S2P Require Import Source Reactor Ready Async Net Os.

(** [Command::spawn], of the command of the example, and [Child::id]. *)
Class ChildOps (C E : Type) : Type := {
  spawn : E → io_result C * E;
  child_id : C → Z;
}.

Module Process.
Import Async Net.

(** The future of [main]: the process has not been spawned; its adapter is waited for; the
    end. *)
Inductive WaitFut {T : Type} : Type :=
  | WaitStart
  | WaitReady (a : Async T) (fut : ReadyFut)
  | WaitDone.
Arguments WaitFut : clear implicits.

Section wait.
  Context {Slab Queue : Type → Type} {Reg Env T C : Type}.
  Context `{SlabOps Slab, QueueOps Queue, EnvOps Env, RegOps Reg Env, HandleOps T Env}.
  Context `{ChildOps C Env}.
  Local Abbreviation World := (World Slab Queue Reg Env).

(** [process.ready().await?; Ok(())], one poll. *)
Definition wait_ready (process : Async T) (fut : ReadyFut) (cx : Waker)
    : M World (Poll (io_result unit) * WaitFut T) :=
  '(res, fut) ← readable_poll fut cx;
  match res with
  | Pending => mret (Pending, WaitReady process fut)
  | Prelude.Ready res => ready_drop fut ;; drop process ;; mret (Prelude.Ready res, WaitDone)
  end.

(** The whole task: the process is spawned ([expect] panics), and wrapped. *)
Definition wait_poll (wrap : C → M World (io_result (Async T))) (st : WaitFut T) (cx : Waker)
    : M World (Poll (io_result unit) * WaitFut T) :=
  match st with
  | WaitStart =>
      res ← env_call spawn;
      process ← unwrap (result_ok res);
      res ← wrap process;
      match res with
      | Err err => mret (Prelude.Ready (Err err), WaitDone)
      | Ok process => wait_ready process (readable process) cx
      end
  | WaitReady process fut => wait_ready process fut cx
  | WaitDone => panic
  end.

Definition wait_drop (st : WaitFut T) : M World unit :=
  match st with
  | WaitReady process fut => ready_drop fut ;; drop process
  | _ => mret tt
  end.
End wait.

#[local] Existing Instance Filter.Exit_queueable.

(** kqueue-process.rs: [Filter::new(Exit::new(process))?]. *)
Section kqueue.
  Context {Slab Queue : Type → Type} {Env C : Type}.
  Context `{SlabOps Slab, QueueOps Queue, EnvOps Env, PollerOps Env, PollerKqueueOps Env}.
  Context `{HandleOps Filter.Exit Env, ChildOps C Env}.

Definition kqueue_wrap (process : C)
    : M (World Slab Queue Kqueue.Registration Env) (io_result (Async Filter.Exit)) :=
  exit ← Filter.exit_new (child_id process);
  Filter.new exit.
Definition kqueue_process (st : WaitFut Filter.Exit) (cx : Waker)
    : M (World Slab Queue Kqueue.Registration Env) (Poll (io_result unit) * WaitFut Filter.Exit) :=
  wait_poll kqueue_wrap st cx.
End kqueue.

(** windows-command.rs: [Waitable::new(process)?]. *)
Section windows.
  Context {Slab Queue : Type → Type} {Env C : Type}.
  Context `{SlabOps Slab, QueueOps Queue, EnvOps Env, PollerOps Env, PollerIocpOps Env}.
  Context `{HandleOps C Env, ChildOps C Env}.

Definition windows_wrap (process : C)
    : M (World Slab Queue Windows.Registration Env) (io_result (Async C)) :=
  Waitable.new process.
Definition windows_command (st : WaitFut C) (cx : Waker)
    : M (World Slab Queue Windows.Registration Env) (Poll (io_result unit) * WaitFut C) :=
  wait_poll windows_wrap st cx.
End windows.

(** * Specification *)

Section spec.
  Context {Slab Queue : Type → Type} {Reg Env T : Type}.
  Context `{SlabOps Slab, QueueOps Queue, EnvOps Env, RegOps Reg Env, !SlabLaws Slab}.
  Local Abbreviation World := (World Slab Queue Reg Env).

(** A task that has not completed, [m] being the sources of all others. *)
Definition wait_ok (w : World) (st : WaitFut T) (m : gmap Z loc) : Prop :=
  match st with
  | WaitStart => slab_map (w_sources w) = m
  | WaitReady a fut =>
      is_Some (io a) ∧ owned w a m ∧ rd_source fut = source a ∧ rd_dir fut = READ ∧ slot_ok w fut
  | WaitDone => False
  end.

(** The process has exited, as the reactor has told the future. *)
Definition exited (w : World) (st : WaitFut T) : Prop :=
  ∃ a fut s, st = WaitReady a fut ∧ w_heap w !! source a = Some s ∧
    event_delivered (rd_ticks fut) (tick (dir_get (src_state s) READ)) = true.

(** What a poll may answer. *)
Definition wait_answer (w : World) (st : WaitFut T) m (r : Poll (io_result unit)) (st' : WaitFut T) w'
    : Prop :=
  match r with
  | Pending => wait_ok w' st' m
  | Prelude.Ready res =>
      st' = WaitDone ∧ slab_map (w_sources w') = m ∧ (res = Ok tt → exited w st)
  end.
End spec.

Section facts.
Context {Slab Queue : Type → Type} {Reg Env T C : Type}.
Context `{SlabOps Slab, QueueOps Queue, EnvOps Env, RegOps Reg Env, !SlabLaws Slab}.
Context `{HandleOps T Env, ChildOps C Env}.
Local Abbreviation World := (World Slab Queue Reg Env).
Implicit Types (w : World) (a : Async T) (m : gmap Z loc).

Lemma wait_ready_wp w a fut m cx :
  wait_ok w (WaitReady a fut) m →
  wp (wait_ready a fut cx) (λ b w', wait_answer w (WaitReady a fut) m b.1 b.2 w') w.
Proof.
  intros (Hio & Hown & Hsrc & Hdir & Hslot). apply wp_bind.
  eapply wp_mono; [by eapply ready_owned_wp|].
  intros [res f'] w1 (Hown' & Hsrc' & Hdir' & Hslot' & s & Hs & Hdel).
  cbn in Hsrc', Hdir', Hslot', Hdel. destruct res as [res|].
  - apply wp_bind. eapply ready_drop_owned_wp; [done..|]. intros w2 Hw2 _.
    apply wp_bind. eapply drop_owned_wp; [done..|]. intros w3 Hw3. apply wp_ret.
    split_and!; [done..|]. intros ->. exists a, fut, s. split_and!; [done..|].
    rewrite <- Hdir. by apply Hdel.
  - apply wp_ret. cbn. split_and!; try done. congruence.
Qed.

(** Nothing has been registered, or the adapter alone. *)
Definition wraps (wrap : C → M World (io_result (Async T))) (process : C) : Prop :=
  ∀ w, wp (wrap process) (λ r w',
    match r with
    | Ok a => is_Some (io a) ∧ owned w' a (slab_map (w_sources w))
    | Err _ => slab_map (w_sources w') = slab_map (w_sources w)
    end) w.

Lemma wait_poll_wp wrap st cx m w :
  (st = WaitStart → ∃ process, (spawn (w_env w)).1 = Ok process ∧ wraps wrap process) →
  wait_ok w st m → wp (wait_poll wrap st cx) (λ b w', wait_answer w st m b.1 b.2 w') w.
Proof.
  intros Hwrap Hok. destruct st as [|a fut|]; [|by apply wait_ready_wp|done].
  destruct (Hwrap eq_refl) as (process & Hspawn & Hw). cbn in Hok. cbn [wait_poll].
  apply wp_bind, wp_env_call. rewrite Hspawn. apply wp_bind. eapply wp_unwrap; [done|].
  apply wp_bind. eapply wp_mono; [apply Hw|]. cbn beta. intros r w1 Hr.
  destruct r as [a|err]; [|apply wp_ret; split_and!; [done|by rewrite Hr|done]].
  destruct Hr as [Hi Hown]. cbn [w_sources set_env] in Hown. rewrite Hok in Hown.
  eapply wp_mono; [apply wait_ready_wp|].
  { pose proof Hown as (s & Hs & _ & _). split_and!; [done..|]. exists s. by split. }
  intros [r st'] w2. unfold wait_answer. cbn. destruct r as [res|]; [|done].
  intros (Hst & Hsl & Hex). split_and!; [done..|]. intros ->.
  destruct (Hex eq_refl) as (a' & fut & s & [= <- <-] & _ & Hdel). done.
Qed.

(** Dropping the task leaves the reactor as it was before. *)
Lemma wait_drop_wp st m w :
  wait_ok w st m → wp (wait_drop st) (λ _ w', slab_map (w_sources w') = m) w.
Proof.
  destruct st as [|a fut|]; [by intros; apply wp_ret| |done].
  intros (Hio & Hown & Hsrc & _ & Hslot). cbn [wait_drop]. apply wp_bind.
  eapply ready_drop_owned_wp; [done..|]. intros w1 Hw1 _. by eapply drop_owned_wp.
Qed.
End facts.

(** * Properties *)

Section kqueue_properties.
  Context {Slab Queue : Type → Type} {Env C : Type}.
  Context `{SlabOps Slab, QueueOps Queue, EnvOps Env, PollerOps Env, PollerKqueueOps Env}.
  Context `{!SlabLaws Slab, HandleOps Filter.Exit Env, ChildOps C Env}.
  Local Abbreviation World := (World Slab Queue Kqueue.Registration Env).
  Implicit Types w : World.

Lemma kqueue_wraps (process : C) :
  0 < child_id process ≤ Filter.I32_MAX →
  wraps (Slab := Slab) (Queue := Queue) (Reg := Kqueue.Registration) kqueue_wrap process.
Proof.
  intros Hid w. apply wp_bind. eexists _, _. split.
  - unfold Filter.I32_MAX in Hid. rewrite Filter.exit_new_spec by lia.
    rewrite decide_True by (unfold Filter.I32_MAX; lia). reflexivity.
  - apply adopt_owned_wp; [|done]. intros a w' Hi Hown _. split; [by eexists|done].
Qed.

(** The process that is spawned, if its identifier is a positive [i32]. *)
Definition spawned (e : Env) : option C :=
  process ← result_ok (spawn e).1;
  if decide (0 < child_id process ≤ Filter.I32_MAX) then Some process else None.

(** C40 Waiting for a process does not leak its filter: a poll of the task keeps the filter
    registered, and it alone, if it answers [Pending]; a poll that completes leaves the
    reactor as it was before, whatever failed, and reports success only once the exit of the
    process has been delivered, so never at the first poll. It panics when the process
    cannot be spawned, or has an identifier that is no positive [i32]. *)
Theorem kqueue_process_spec (st : WaitFut Filter.Exit) (cx : Waker) (m : gmap Z loc) w
    (Hu32 : ∀ process : C, 0 ≤ child_id process < 2 ^ 32) (Hok : wait_ok w st m) :
  match st, spawned (w_env w) with
  | WaitStart, None => kqueue_process (C := C) st cx w = Panic
  | _, _ => wp (kqueue_process (C := C) st cx) (λ b w', wait_answer w st m b.1 b.2 w') w
  end.
Proof.
  unfold spawned. destruct (spawn (w_env w)) as [res e] eqn:Hspawn. cbn [fst].
  destruct st as [|a fut|]; [|by apply (wait_poll_wp kqueue_wrap)|done].
  destruct res as [process|err]; cbn [result_ok mbind option_bind].
  2:{ cbn [kqueue_process wait_poll]. unfold mbind, M_bind, env_call. by rewrite Hspawn. }
  case_decide as Hid.
  - apply wait_poll_wp; [|done]. intros _. exists process. rewrite Hspawn.
    split; [done|by apply kqueue_wraps].
  - cbn [kqueue_process wait_poll]. unfold kqueue_process, wait_poll, kqueue_wrap, mbind, M_bind, env_call.
    rewrite Hspawn. cbn. rewrite Filter.exit_new_spec by apply Hu32. by rewrite decide_False.
Qed.

(** Dropping the task at any time leaves no filter behind. *)
Lemma kqueue_process_drop (st : WaitFut Filter.Exit) (m : gmap Z loc) w :
  wait_ok w st m → wp (wait_drop st) (λ _ w', slab_map (w_sources w') = m) w.
Proof. apply wait_drop_wp. Qed.
End kqueue_properties.

Section windows_properties.
  Context {Slab Queue : Type → Type} {Env C : Type}.
  Context `{SlabOps Slab, QueueOps Queue, EnvOps Env, PollerOps Env, PollerIocpOps Env}.
  Context `{!SlabLaws Slab, HandleOps C Env, ChildOps C Env}.
  Local Abbreviation World := (World Slab Queue Windows.Registration Env).
  Implicit Types w : World.

(** The same for the handle of a process on Windows: any process that is spawned can be
    waited for. *)
Theorem windows_command_spec (st : WaitFut C) (cx : Waker) (m : gmap Z loc) w
    (Hok : wait_ok w st m) (Hspawn : st = WaitStart → is_ok (spawn (C := C) (w_env w)).1 = true) :
  wp (windows_command st cx) (λ b w', wait_answer w st m b.1 b.2 w') w.
Proof.
  apply wait_poll_wp; [|done]. intros Hst. specialize (Hspawn Hst).
  destruct (spawn (w_env w)).1 as [process|]; [|done]. exists process. split; [done|].
  intros w1. apply adopt_owned_wp; [|done]. intros a w' Hi Hown _. split; [by eexists|done].
Qed.
End windows_properties.

(** * Witness *)

(** A process 77 is spawned; the poller accepts all filters; an [Exit] owns nothing. *)
#[local] Instance RefChild_ops : ChildOps Z RefEnv :=
  {| spawn := λ e, (Ok 77, e); child_id := λ pid, Z.min (Z.max 0 pid) 77 |}.
#[local] Instance RefKqueue_ops : PollerKqueueOps RefEnv := {|
  poller_add_filter := λ _ e _ _, (Ok tt, e);
  poller_modify_filter := λ _ e _ _, (Ok tt, e);
  poller_delete_filter := λ _ e, (Ok tt, e);
|}.
#[local] Instance RefExit_ops : HandleOps Filter.Exit RefEnv :=
  {| as_raw := Filter.pid; close := λ _ e, e |}.
Definition kqueue_boot : World RefSlab RefQueue Kqueue.Registration RefEnv :=
  reactor_new (ref_env 0 []).

Lemma kqueue_process_spec_witness :
  ∃ a f w', kqueue_process (C := Z) WaitStart waker1 kqueue_boot = Ret ((Pending, WaitReady a f), w') ∧
    owned w' a ∅.
Proof.
  assert (∀ process : Z, 0 ≤ child_id process < 2 ^ 32) as Hu32 by (intros pid; cbn; lia).
  pose proof (kqueue_process_spec WaitStart waker1 ∅ kqueue_boot Hu32 eq_refl) as Hspec.
  change (wp (kqueue_process (C := Z) WaitStart waker1)
    (λ b w', wait_answer kqueue_boot WaitStart ∅ b.1 b.2 w') kqueue_boot) in Hspec.
  destruct Hspec as ([r st] & w' & Hrun & Ha). pose proof Hrun as Hc. vm_compute in Hc.
  injection Hc as Hr Hst _. subst r st. destruct Ha as (_ & Hown & _).
  eexists _, _, w'. split; [exact Hrun|exact Hown].
Defined.
End Process.
