(* ===== verification/Driver.v ===== *)
(** Who drives the reactor (src/src/driver.rs): the loop of the "async-io" thread, with
    its backoff, and the protocol between [block_on] and the wakers of its task. *)
From S2P Require Import Prelude Std Deps Registration RefDeps.

(** * The "async-io" thread *)

Module MainLoop.

(** The local variables of [main_loop]. *)
Record State : Type := mkState { last_tick : Z; sleeps : Z }.

(** What an iteration finds: the values of [ticker()] it reads, whether [try_lock] gets
    the lock, the value of [BLOCK_ON_COUNT], and whether the thread is unparked before
    the end of its sleep. *)
Record Obs : Type := mkObs {
  obs_tick : Z;               (* at the start *)
  obs_try_lock : bool;
  obs_tick_reacted : Z;       (* after [react] *)
  obs_block_on_count : Z;
  obs_notified : bool;
  obs_tick_notified : Z;      (* after the notification *)
}.

(** What it does: it calls [react(None)], holding the lock; it sleeps. *)
Record Did : Type := mkDid { did_react : bool; did_sleep : option Duration }.

Definition DELAYS_US : list Z := [50; 75; 100; 250; 500; 750; 1000; 2500; 5000].

(** Exponential backoff from 50us to 10ms. *)
Definition delay_us (sleeps : Z) : Z := default 10000 (DELAYS_US !! Z.to_nat sleeps).

(** The first half of an iteration: whether to react. [lock()] waits for the lock. *)
Definition drive (o : Obs) (st : State) : bool * State :=
  if last_tick st =? obs_tick o then
    let locked := if 10 <=? sleeps st then true else obs_try_lock o in
    if locked then (true, mkState (obs_tick_reacted o) 0) else (false, st)
  else (false, mkState (obs_tick o) (sleeps st)).

(** The second half: whether to sleep. *)
Definition backoff (o : Obs) (st : State) : option Duration * State :=
  if 0 <? obs_block_on_count o then
    (Some (from_micros (delay_us (sleeps st))),
     if obs_notified o then mkState (obs_tick_notified o) 0
     else mkState (last_tick st) (sleeps st + 1))
  else (None, st).

Definition iteration (o : Obs) (st : State) : Did * State :=
  let '(react, st) := drive o st in
  let '(sleep, st) := backoff o st in
  (mkDid react sleep, st).

(** The iterations of [main_loop], from its initial state. *)
Definition initial : State := mkState 0 0.

Fixpoint main_loop (os : list Obs) (st : State) : list Did * State :=
  match os with
  | [] => ([], st)
  | o :: os =>
      let '(d, st) := iteration o st in
      let '(ds, st) := main_loop os st in
      (d :: ds, st)
  end.

(** * Specification *)

(** The ticker stands still at [tick]: no one reacts, while some [block_on] is active and
    the thread is not unparked. *)
Definition stalled (tick : Z) (o : Obs) : Prop :=
  obs_tick o = tick ∧ 0 < obs_block_on_count o ∧ obs_notified o = false.

(** The time spent asleep until the thread first reacts, if it does. *)
Fixpoint slept_before_react (ds : list Did) : option Duration :=
  match ds with
  | [] => None
  | d :: ds =>
      if did_react d then Some 0
      else (λ t, default 0 (did_sleep d) + t) <$> slept_before_react ds
  end.

(** The sleeps between the [n]-th and the one after which the thread waits for the
    lock. *)
Fixpoint sleeps_left (fuel : nat) (n : Z) : Duration :=
  match fuel with
  | O => 0
  | S fuel =>
      if 10 <=? n then 0 else from_micros (delay_us n) + sleeps_left fuel (n + 1)
  end.

Lemma delay_us_bounds n : 50 ≤ delay_us n ≤ 10000.
Proof.
  assert (Forall (λ d, 50 ≤ d ≤ 10000) DELAYS_US) as Hall by (repeat constructor; lia).
  unfold delay_us. destruct (DELAYS_US !! Z.to_nat n) as [d|] eqn:Hd; cbn; [|lia].
  by eapply Forall_lookup_1 in Hd; [|exact Hall].
Qed.

Lemma sleeps_left_nonneg fuel n : 0 ≤ sleeps_left fuel n.
Proof.
  revert n. induction fuel as [|fuel IH]; intros n; cbn; [lia|].
  destruct (10 <=? n); [lia|]. specialize (IH (n + 1)).
  pose proof (delay_us_bounds n). unfold from_micros. lia.
Qed.

(** At most the ten sleeps of the table. *)
Lemma sleeps_left_le n : 0 ≤ n → sleeps_left 10 n ≤ from_micros 20225.
Proof.
  intros Hn. destruct (decide (10 ≤ n)) as [Hge|Hlt].
  - cbn. by rewrite (proj2 (Z.leb_le 10 n) Hge).
  - assert (n ∈ [0; 1; 2; 3; 4; 5; 6; 7; 8; 9]) as Hin.
    { rewrite !elem_of_cons. lia. }
    repeat (apply elem_of_cons in Hin as [->|Hin]; [vm_compute; discriminate|]).
    by apply elem_of_nil in Hin.
Qed.

Lemma main_loop_cons o os st :
  main_loop (o :: os) st =
  ((iteration o st).1 :: (main_loop os (iteration o st).2).1,
   (main_loop os (iteration o st).2).2).
Proof.
  cbn [main_loop]. destruct (iteration o st) as [d st']. cbn [fst snd].
  by destruct (main_loop os st').
Qed.

(** One iteration of a stalled thread that has seen the tick: it reacts, or sleeps once
    more. *)
Lemma iteration_stalled tick o st :
  stalled tick o → last_tick st = tick →
  let '(d, st') := iteration o st in
  did_react d = true ∨
  sleeps st < 10 ∧ did_react d = false ∧ did_sleep d = Some (from_micros (delay_us (sleeps st))) ∧
  st' = mkState tick (sleeps st + 1).
Proof.
  intros (Htick & Hcount & Hnot) Hlast. unfold iteration, drive, backoff.
  rewrite Htick, <- Hlast, Z.eqb_refl, Hnot.
  rewrite (proj2 (Z.ltb_lt 0 (obs_block_on_count o)) Hcount).
  destruct (10 <=? sleeps st) eqn:Hs; [by left|]. apply Z.leb_gt in Hs.
  destruct (obs_try_lock o); [by left|]. right. by destruct st.
Qed.

Lemma stalled_reacts tick n os st :
  Forall (stalled tick) os → last_tick st = tick → 0 ≤ sleeps st →
  10 - sleeps st ≤ Z.of_nat n → (n < length os)%nat →
  ∃ t, slept_before_react (main_loop os st).1 = Some t ∧
       0 ≤ t ≤ sleeps_left n (sleeps st).
Proof.
  revert os st. induction n as [|n IH]; intros os st Hall Hlast Hpos Hn Hlen;
    destruct os as [|o os]; cbn in Hlen; try lia;
    apply Forall_cons in Hall as [Ho Hall]; rewrite main_loop_cons; cbn [fst slept_before_react];
    pose proof (iteration_stalled tick o st Ho Hlast) as Hit;
    destruct (iteration o st) as [d st']; cbn [fst snd];
    destruct Hit as [->|(Hlt & -> & -> & ->)]; cbn [default].
  - exists 0. split; [done|cbn; lia].
  - lia.
  - exists 0. pose proof (sleeps_left_nonneg (S n) (sleeps st)). split; [done|lia].
  - destruct (IH os (mkState tick (sleeps st + 1))) as (t & -> & Ht); cbn; try done; try lia.
    rewrite (proj2 (Z.leb_gt 10 (sleeps st)) Hlt). cbn in Ht. eexists. split; [done|].
    pose proof (delay_us_bounds (sleeps st)). unfold from_micros in *. lia.
Qed.

(** The "async-io" thread takes over in bounded time: when no thread has reacted for
    its last 12 iterations although a [block_on] is active, it has reacted itself,
    having slept for 20.225 ms plus the one sleep in which it notices the tick, at
    most. *)
Theorem main_loop_takes_over (tick : Z) (os : list Obs) (st : State)
    (Hall : Forall (stalled tick) os) (Hlen : (12 ≤ length os)%nat) (Hs : 0 ≤ sleeps st) :
  ∃ t, slept_before_react (main_loop os st).1 = Some t ∧ 0 ≤ t ≤ from_micros (20225 + 10000).
Proof.
  destruct (decide (last_tick st = tick)) as [Hlast|Hne].
  - destruct (stalled_reacts tick 10 os st) as (t & Ht & Hle); try done; try lia.
    exists t. split; [done|]. pose proof (sleeps_left_le (sleeps st) Hs).
    unfold from_micros in *. lia.
  - destruct os as [|o os]; [cbn in Hlen; lia|]. apply Forall_cons in Hall as [Ho Hall].
    destruct Ho as (Htick & Hcount & Hnot). rewrite main_loop_cons.
    unfold iteration, drive, backoff.
    rewrite Htick, (proj2 (Z.eqb_neq _ _) Hne), Hnot.
    rewrite (proj2 (Z.ltb_lt 0 (obs_block_on_count o)) Hcount).
    cbn [fst snd slept_before_react did_react did_sleep default last_tick sleeps].
    destruct (stalled_reacts tick 10 os (mkState tick (sleeps st + 1)))
      as (t & -> & Hle); try done; cbn in *; try lia.
    eexists. split; [done|]. pose proof (sleeps_left_le (sleeps st + 1) ltac:(lia)).
    pose proof (delay_us_bounds (sleeps st)). cbn in *. unfold from_micros in *. lia.
Qed.

(** Twelve iterations in which another thread keeps the lock. *)
Lemma main_loop_takes_over_witness :
  let os := replicate 12 (mkObs 7 false 8 1 false 0) in
  slept_before_react (main_loop os initial).1 = Some (from_micros 20225) ∧
  ∃ t, slept_before_react (main_loop os initial).1 = Some t ∧ t ≤ from_micros (20225 + 10000).
Proof.
  split; [vm_compute; reflexivity|].
  destruct (main_loop_takes_over 7 (replicate 12 (mkObs 7 false 8 1 false 0)) initial)
    as (t & Ht & Hle).
  - apply Forall_replicate. by split_and!.
  - cbn. lia.
  - cbn. lia.
  - exists t. split; [exact Ht|apply Hle].
Defined.
End MainLoop.

(** * [block_on] *)

Module BlockOn.

(** Where the thread that calls [block_on] is; [again] tells whether the guard of the
    inner loop is dropped at its end or on a [break]. *)
Inductive Pc : Type :=
  | Polling                          (* [future.poll(cx)] runs *)
  | CheckIdle                        (* the first [park_timeout(0)] *)
  | TryReact                         (* notified: [try_lock] *)
  | SetReacting                      (* [IO_POLLING.set(true)] *)
  | Reacting                         (* [react(Some(0))], in the poller *)
  | ReactWaking                      (* [react(Some(0))], waking tasks *)
  | ClearReacting                    (* its guard: [IO_POLLING.set(false)] *)
  | TryLock                          (* not notified: [try_lock] *)
  | SetPolling                       (* [IO_POLLING.set(true)] *)
  | SetBlocked                       (* [io_blocked.store(true)] *)
  | CheckBefore                      (* [park_timeout(0)] before [react] *)
  | Waiting                          (* [react(None)], in the poller *)
  | Waking                           (* [react(None)], waking tasks *)
  | CheckAfter                       (* [park_timeout(0)] after [react] *)
  | CheckElapsed                     (* [start.elapsed() > 500us] *)
  | DropLock                         (* [drop(reactor_lock)] *)
  | UnparkMain                       (* [unparker().unpark()] *)
  | ParkedHog                        (* [p.park()] after hogging *)
  | ClearPolling (again : bool)      (* the guard: [IO_POLLING.set(false)] *)
  | ClearBlocked (again : bool)      (* the guard: [io_blocked.store(false)] *)
  | LeaveLoop                        (* the end of its scope drops the lock, if held *)
  | Parked                           (* the lock is taken: [p.park()] *)
  | Completed                        (* after the last [park_timeout(0)] *)
  | Returned.                        (* [CallOnDrop] has run *)

#[global] Instance Pc_eq_dec : EqDecision Pc.
Proof. solve_decision. Defined.

(** Who holds the lock of the reactor. *)
Inductive Lock : Type := Free | Mine | Theirs.

#[global] Instance Lock_eq_dec : EqDecision Lock.
Proof. solve_decision. Defined.

Record State {P : Type} : Type := mkState {
  pc : Pc;
  parker : P;                 (* [p] and [unparker] *)
  io_polling : bool;          (* [IO_POLLING] of this thread *)
  io_blocked : bool;
  lock : Lock;
  notified : bool;            (* [Reactor::notify] was called: [wait] will return *)
  checking : nat;             (* wakers that have unparked, about to load [io_blocked] *)
  notifying : nat;            (* wakers about to call [Reactor::notify] *)
  count : Z;                  (* [BLOCK_ON_COUNT] *)
  main_unparked : bool;       (* the "async-io" thread has been unparked *)
  woken : bool;               (* the task has been woken since its last poll began *)
}.
Arguments State : clear implicits.
Arguments mkState {P}.

Section setters.
  Context {P : Type}.
  Implicit Types s : State P.
Definition set_pc c s := mkState c (parker s) (io_polling s) (io_blocked s) (lock s)
  (notified s) (checking s) (notifying s) (count s) (main_unparked s) (woken s).
Definition set_parker (p : P) s := mkState (pc s) p (io_polling s) (io_blocked s) (lock s)
  (notified s) (checking s) (notifying s) (count s) (main_unparked s) (woken s).
Definition set_io_polling b s := mkState (pc s) (parker s) b (io_blocked s) (lock s)
  (notified s) (checking s) (notifying s) (count s) (main_unparked s) (woken s).
Definition set_io_blocked b s := mkState (pc s) (parker s) (io_polling s) b (lock s)
  (notified s) (checking s) (notifying s) (count s) (main_unparked s) (woken s).
Definition set_lock l s := mkState (pc s) (parker s) (io_polling s) (io_blocked s) l
  (notified s) (checking s) (notifying s) (count s) (main_unparked s) (woken s).
Definition set_notified b s := mkState (pc s) (parker s) (io_polling s) (io_blocked s)
  (lock s) b (checking s) (notifying s) (count s) (main_unparked s) (woken s).
Definition set_wakers c n s := mkState (pc s) (parker s) (io_polling s) (io_blocked s)
  (lock s) (notified s) c n (count s) (main_unparked s) (woken s).
Definition set_count n s := mkState (pc s) (parker s) (io_polling s) (io_blocked s) (lock s)
  (notified s) (checking s) (notifying s) n (main_unparked s) (woken s).
Definition set_main_unparked b s := mkState (pc s) (parker s) (io_polling s) (io_blocked s)
  (lock s) (notified s) (checking s) (notifying s) (count s) b (woken s).
Definition set_woken b s := mkState (pc s) (parker s) (io_polling s) (io_blocked s) (lock s)
  (notified s) (checking s) (notifying s) (count s) (main_unparked s) b.
End setters.

(** What can happen. The choice of [Run] is what the thread cannot decide: whether the
    poll is ready, or whether 500us have passed. *)
Inductive Ev : Type :=
  | Run (choice : bool)       (* the thread takes its next step *)
  | SelfWake                  (* it wakes its own task, in [poll] or in [react] *)
  | Wake                      (* another thread calls [wake_by_ref]: [unpark] *)
  | WakeCheck                 (* it loads [io_blocked] *)
  | WakeNotify                (* it calls [Reactor::notify] *)
  | ReactorWake               (* another thread wakes the task while it polls I/O *)
  | OtherLock                 (* another thread takes the lock, *)
  | OtherReact                (* reacts, *)
  | OtherUnlock               (* and releases it *)
  | OtherNotify.              (* another thread notifies the reactor *)

Section steps.
  Context {P : Type} `{ParkerOps P}.
  Implicit Types s : State P.

(** The state in which [block_on] has incremented the count and polls for the first
    time, with a parker that may be notified already if it is a cached one, while
    [n] other calls are active. *)
Definition initial (p : P) (n : Z) : State P :=
  mkState Polling p false false Free false 0 0 (n + 1) false false.

(** [p.park_timeout(0)]: the two ways to go on. *)
Definition park_zero (yes no : Pc) s : State P :=
  let '(b, p) := pk_park_zero (parker s) in
  set_pc (if b then yes else no) (set_parker p s).

(** [p.park()], once it can return. *)
Definition park (next : Pc) s : option (State P) :=
  let '(b, p) := pk_park_zero (parker s) in
  if b then Some (set_pc next (set_parker p s)) else None.

(** A poll of the future begins: what woke the task before it is taken into account. *)
Definition begin_poll s : State P := set_pc Polling (set_woken false s).

Definition run (choice : bool) s : option (State P) :=
  match pc s with
  | Polling =>
      Some (if choice then
              set_pc Completed (set_parker (pk_park_zero (parker s)).2 s)
            else set_pc CheckIdle s)
  | CheckIdle => Some (park_zero TryReact TryLock s)
  | TryReact =>
      Some (match lock s with
            | Free => set_pc SetReacting (set_lock Mine s)
            | _ => begin_poll s
            end)
  | SetReacting => Some (set_pc Reacting (set_io_polling true s))
  | Reacting => Some (set_pc ReactWaking (set_notified false s))
  | ReactWaking => Some (set_pc ClearReacting s)
  | ClearReacting => Some (begin_poll (set_lock Free (set_io_polling false s)))
  | TryLock =>
      Some (match lock s with
            | Free => set_pc SetPolling (set_lock Mine s)
            | _ => set_pc Parked s
            end)
  | SetPolling => Some (set_pc SetBlocked (set_io_polling true s))
  | SetBlocked => Some (set_pc CheckBefore (set_io_blocked true s))
  | CheckBefore => Some (park_zero (ClearPolling false) Waiting s)
  | Waiting => Some (set_pc Waking (set_notified false s))
  | Waking => Some (set_pc CheckAfter s)
  | CheckAfter => Some (park_zero (ClearPolling false) CheckElapsed s)
  | CheckElapsed => Some (set_pc (if choice then DropLock else ClearPolling true) s)
  | DropLock => Some (set_pc UnparkMain (set_lock Free s))
  | UnparkMain => Some (set_pc ParkedHog (set_main_unparked true s))
  | ParkedHog => park (ClearPolling false) s
  | ClearPolling again => Some (set_pc (ClearBlocked again) (set_io_polling false s))
  | ClearBlocked again =>
      let s := set_io_blocked false s in
      Some (set_pc (if again then SetPolling else LeaveLoop) s)
  | LeaveLoop => Some (begin_poll (if decide (lock s = Mine) then set_lock Free s else s))
  | Parked => begin_poll <$> park Polling s
  | Completed => Some (set_pc Returned (set_main_unparked true (set_count (count s - 1) s)))
  | Returned => None
  end.

(** [wake_by_ref] up to the result of [unpark]. *)
Definition unpark s : bool * State P :=
  let '(b, p) := pk_unpark (parker s) in (b, set_woken true (set_parker p s)).

Definition exec (e : Ev) s : option (State P) :=
  match e with
  | Run choice => run choice s
  | SelfWake =>
      if decide (pc s = Polling ∨ pc s = ReactWaking ∨ pc s = Waking) then
        let '(b, s) := unpark s in
        Some (if b && negb (io_polling s) && io_blocked s then set_notified true s else s)
      else None
  | Wake =>
      let '(b, s) := unpark s in
      Some (if b then set_wakers (S (checking s)) (notifying s) s else s)
  | WakeCheck =>
      match checking s with
      | O => None
      | S n => Some (set_wakers n (if io_blocked s then S (notifying s) else notifying s) s)
      end
  | WakeNotify =>
      match notifying s with
      | O => None
      | S n => Some (set_notified true (set_wakers (checking s) n s))
      end
  | ReactorWake => if decide (lock s = Theirs) then Some (unpark s).2 else None
  | OtherLock => if decide (lock s = Free) then Some (set_lock Theirs s) else None
  | OtherReact => if decide (lock s = Theirs) then Some (set_notified false s) else None
  | OtherUnlock => if decide (lock s = Theirs) then Some (set_lock Free s) else None
  | OtherNotify => Some (set_notified true s)
  end.

(** What is reachable from a call of [block_on] while [n] others are active. *)
Inductive reachable (n : Z) : State P → Prop :=
  | reach_initial p : reachable n (initial p n)
  | reach_step s s' e : reachable n s → exec e s = Some s' → reachable n s'.

(** Steps of the other threads, and of code the thread calls. *)
Definition others (s s' : State P) : Prop :=
  rtc (λ s s', ∃ e, exec e s = Some s' ∧ ∀ c, e ≠ Run c) s s'.

(** Within [n] steps of the thread, which are enabled, it begins to poll its future or
    completes, whatever happens in between. *)
Fixpoint polls_within (n : nat) (s : State P) : Prop :=
  match n with
  | O => False
  | S n => ∀ s0 choice, others s s0 → ∃ s', run choice s0 = Some s' ∧
      (pc s' = Polling ∨ pc s' = Completed ∨ polls_within n s')
  end.
End steps.

(** * Invariant *)

(** Between the two stores of [io_blocked]. *)
Definition is_blocked (c : Pc) : bool :=
  match c with
  | CheckBefore | Waiting | Waking | CheckAfter | CheckElapsed | DropLock | UnparkMain
  | ParkedHog | ClearPolling _ | ClearBlocked _ => true
  | _ => false
  end.

(** Where the thread holds the lock, and where it may. *)
Definition must_hold (c : Pc) : bool :=
  match c with
  | SetReacting | Reacting | ReactWaking | ClearReacting | SetPolling | SetBlocked | CheckBefore | Waiting
  | Waking | CheckAfter | CheckElapsed | DropLock | ClearPolling true | ClearBlocked true => true
  | _ => false
  end.
Definition may_hold (c : Pc) : bool :=
  must_hold c ||
  match c with ClearPolling false | ClearBlocked false | LeaveLoop => true | _ => false end.

(** On the way to the next poll, with the token taken. *)
Definition to_poll (c : Pc) : bool :=
  match c with
  | TryReact | SetReacting | Reacting | ReactWaking | ClearReacting | ClearPolling false
  | ClearBlocked false | LeaveLoop => true
  | _ => false
  end.

Definition finished (c : Pc) : bool :=
  match c with Completed | Returned => true | _ => false end.

(** How far the next poll is, for a thread whose task has been woken. *)
Definition rank (c : Pc) : nat :=
  match c with
  | LeaveLoop | ClearReacting | Parked => 1
  | ClearBlocked false | ReactWaking => 2
  | ClearPolling false | Reacting => 3
  | CheckBefore | CheckAfter | ParkedHog | SetReacting => 4
  | Waking | SetBlocked | UnparkMain | TryReact => 5
  | Waiting | SetPolling | DropLock => 6
  | ClearBlocked true | TryLock => 7
  | ClearPolling true | CheckIdle => 8
  | CheckElapsed | Polling => 9
  | Completed | Returned => 0
  end.

Section inv.
  Context {P : Type} `{ParkerOps P, !ParkerLaws P}.
  Implicit Types s : State P.

Definition token s : bool := pk_token (parker s).

Record inv (n : Z) s : Prop := {
  inv_blocked : io_blocked s = is_blocked (pc s);
  inv_must_hold : must_hold (pc s) = true → lock s = Mine;
  inv_may_hold : lock s = Mine → may_hold (pc s) = true;
  inv_woken : finished (pc s) = false → woken s = true → token s = true ∨ to_poll (pc s) = true;
  inv_waiting : pc s = Waiting → token s = true →
    notified s = true ∨ (0 < checking s ∨ 0 < notifying s)%nat;
  inv_hog : pc s = ParkedHog → main_unparked s = true;
  inv_count : count s = n + (if decide (pc s = Returned) then 0 else 1);
  inv_returned : pc s = Returned → main_unparked s = true;
}.
End inv.

(** * Facts *)

Section facts.
Context {P : Type} `{ParkerOps P, !ParkerLaws P}.
Implicit Types s : State P.

Lemma inv_initial p n : inv n (initial p n).
Proof. by split. Qed.

Lemma unpark_eq s :
  ∃ p, pk_token p = true ∧
    unpark s = (negb (token s), set_woken true (set_parker p s)).
Proof.
  unfold unpark, token. pose proof (pk_unpark_result (parker s)) as Hr.
  pose proof (pk_unpark_token (parker s)) as Ht.
  destruct (pk_unpark (parker s)) as [b p]. cbn in *. subst b. by exists p.
Qed.

Lemma park_zero_eq yes no s :
  ∃ p, pk_token p = false ∧
    park_zero yes no s = set_pc (if token s then yes else no) (set_parker p s).
Proof.
  unfold park_zero, token. pose proof (pk_park_result (parker s)) as Hr.
  pose proof (pk_park_token (parker s)) as Ht.
  destruct (pk_park_zero (parker s)) as [b p]. cbn in *. subst b. by exists p.
Qed.

Lemma park_eq next s :
  ∃ p, pk_token p = false ∧
    park next s = if token s then Some (set_pc next (set_parker p s)) else None.
Proof.
  unfold park, token. pose proof (pk_park_result (parker s)) as Hr.
  pose proof (pk_park_token (parker s)) as Ht.
  destruct (pk_park_zero (parker s)) as [b p]. cbn in *. subst b. by exists p.
Qed.

Lemma inv_run n choice s s' : inv n s → run choice s = Some s' → inv n s'.
Proof.
  intros [Hb Hmust Hmay Hw Hwait Hhog Hcount Hret] Hrun.
  destruct s as [c p iop iob lk nt ck nf cnt mu wk]. unfold run in Hrun. cbn in *.
  destruct c; cbn in *; try discriminate.
  all: try (match type of Hrun with
    | context [park_zero ?y ?n ?s] => destruct (park_zero_eq y n s) as (p' & Hp' & Heq)
    | context [park ?y ?s] => destruct (park_eq y s) as (p' & Hp' & Heq)
    end; rewrite Heq in Hrun; clear Heq; cbn in Hrun; unfold token in *; cbn in *).
  all: repeat case_match; simplify_eq/=; try discriminate.
  all: split; cbn; unfold token in *; cbn in *; intros; try done; try congruence; try (by auto).
  all: try (exfalso; destruct (Hw eq_refl ltac:(assumption)); discriminate).
  rewrite decide_True by done. lia.
Qed.

(** The steps of the others keep the place of the thread, and what woke it. *)
Lemma inv_other n e s s' :
  inv n s → exec e s = Some s' → (∀ c, e ≠ Run c) →
  inv n s' ∧ pc s' = pc s ∧ (woken s = true → woken s' = true).
Proof.
  intros [Hb Hmust Hmay Hw Hwait Hhog Hcount Hret] Hrun Hne.
  destruct (unpark_eq s) as (p' & Hp' & Hu).
  destruct e; cbn [exec] in Hrun; [by destruct (Hne choice)|..].
  all: try rewrite Hu in Hrun; clear Hu Hne.
  all: destruct s as [c p iop iob lk nt ck nf cnt mu wk]; unfold token in *; cbn in *.
  all: repeat match type of Hrun with
    | context [match ?x with _ => _ end] => destruct x eqn:?; cbn in *
    end; simplify_eq/=.
  all: split_and!; try split; cbn; unfold token in *; cbn in *; intros; try done;
    try congruence; try (by auto).
  all: try (right; lia); try (exfalso; by specialize (Hmust ltac:(assumption))).
  all: subst c; cbn in *; try discriminate; try (specialize (Hmust eq_refl)); try congruence.
  apply Hwait; [done|]. by destruct (pk_token p).
Qed.

Lemma inv_reachable n s : reachable n s → inv n s.
Proof.
  induction 1 as [p|s s' e _ IH Hrun]; [apply inv_initial|].
  destruct e as [c| | | | | | | | |]; [by eapply inv_run|by eapply inv_other..].
Qed.

Lemma inv_others n s s' :
  inv n s → others s s' → inv n s' ∧ pc s' = pc s ∧ (woken s = true → woken s' = true).
Proof.
  intros Hinv Hrtc. induction Hrtc as [s|s s1 s' (e & Hrun & Hne) _ IH]; [done|].
  destruct (inv_other _ _ _ _ Hinv Hrun Hne) as (Hinv1 & Hpc & Hw).
  destruct (IH Hinv1) as (? & ? & ?). split_and!; auto; congruence.
Qed.

(** A step of the thread, when its task has been woken. *)
Lemma run_rank n choice s :
  inv n s → finished (pc s) = false → woken s = true →
  ∃ s', run choice s = Some s' ∧
    (pc s' = Polling ∨ pc s' = Completed ∨
     finished (pc s') = false ∧ woken s' = true ∧ (rank (pc s') < rank (pc s))%nat).
Proof.
  intros Hinv Hfin Hwk. pose proof (inv_woken _ _ Hinv Hfin Hwk) as Hw.
  destruct s as [c p iop iob lk nt ck nf cnt mu wk]. unfold run, token in *.
  cbn in Hfin, Hwk, Hw. subst wk. cbn [pc].
  destruct c; cbn in *; try discriminate.
  all: try (match goal with
    | |- context [park_zero ?y ?n ?s] => destruct (park_zero_eq y n s) as (p' & Hp' & Heq)
    | |- context [park ?y ?s] => destruct (park_eq y s) as (p' & Hp' & Heq)
    end; rewrite Heq; clear Heq; unfold token; cbn).
  all: try (destruct Hw as [Hw|Hw]; [|discriminate Hw]; rewrite Hw).
  all: try destruct again; try destruct choice; try destruct lk.
  all: eexists; split; [reflexivity|]; cbn.
  all: first [by left | by right; left | right; right; split_and!; [done|done|lia]].
Qed.

Lemma rank_le c : (rank c ≤ 9)%nat.
Proof. destruct c as [| | | | | | | | | | | | | | | | | |[]|[]| | | |]; cbn; lia. Qed.

Lemma polls_within_rank n k s :
  inv n s → finished (pc s) = false → woken s = true → (rank (pc s) < k)%nat →
  polls_within k s.
Proof.
  revert s. induction k as [|k IH]; intros s Hinv Hfin Hwk Hk; [lia|].
  intros s0 choice Hothers. destruct (inv_others _ _ _ Hinv Hothers) as (Hinv0 & Hpc & Hwk0).
  rewrite <- Hpc in Hfin, Hk. specialize (Hwk0 Hwk).
  destruct (run_rank n choice s0 Hinv0 Hfin Hwk0) as (s' & Hrun & Hs').
  exists s'. split; [done|].
  destruct Hs' as [?|[?|(Hfin' & Hwk' & Hlt)]]; [by left|by right; left|].
  right; right. apply IH; try done; [by eapply inv_run|lia].
Qed.
End facts.

(** * Properties *)

Section properties.
  Context {P : Type} `{ParkerOps P, !ParkerLaws P}.
  Implicit Types s : State P.

(** C9 No wakeup of the task of [block_on] is lost: once it has been woken (before,
    during or after a poll, by any thread) and the wakers have returned, the thread is
    not left asleep (it is neither parked without a token, nor waiting in the poller
    without a notification), and it polls its future again within ten of its own steps,
    whatever the other threads do meanwhile. *)
Theorem block_on_no_lost_wakeup (n : Z) s (Hs : reachable n s)
    (Hfin : finished (pc s) = false) (Hwk : woken s = true) :
  (checking s = 0%nat → notifying s = 0%nat → pc s = Waiting → notified s = true) ∧
  (pc s = Parked ∨ pc s = ParkedHog → token s = true) ∧
  polls_within 10 s.
Proof.
  apply inv_reachable in Hs as Hinv. pose proof (inv_woken _ _ Hinv Hfin Hwk) as Hw.
  split_and!.
  - intros Hc Hn Hpc. rewrite Hpc in Hw. destruct Hw as [Hw|]; [|done].
    destruct (inv_waiting _ _ Hinv Hpc Hw) as [?|?]; [done|lia].
  - intros [Hpc|Hpc]; rewrite Hpc in Hw; by destruct Hw.
  - eapply polls_within_rank; [done..|]. pose proof (rank_le (pc s)). lia.
Qed.

(** A thread that sleeps does not keep the reactor from the others: while it polls its
    future or is parked it does not hold the lock, having unparked the "async-io" thread
    if it gave the lock up; a call that has returned has given back its count and unparked
    the "async-io" thread. *)
Theorem block_on_lock_discipline (n : Z) s (Hs : reachable n s) :
  (pc s = Polling ∨ pc s = Parked ∨ pc s = ParkedHog → lock s ≠ Mine) ∧
  (pc s = Waiting → lock s = Mine ∧ io_blocked s = true) ∧
  (pc s = ParkedHog → main_unparked s = true) ∧
  (pc s = Returned → count s = n ∧ main_unparked s = true ∧ lock s ≠ Mine).
Proof.
  apply inv_reachable in Hs as Hinv. split_and!.
  - intros Hpc Hl. pose proof (inv_may_hold _ _ Hinv Hl) as Hm.
    by destruct Hpc as [Hpc|[Hpc|Hpc]]; rewrite Hpc in Hm.
  - intros Hpc. split; [apply (inv_must_hold _ _ Hinv)|rewrite (inv_blocked _ _ Hinv)];
      by rewrite Hpc.
  - apply (inv_hog _ _ Hinv).
  - intros Hpc. split_and!.
    + rewrite (inv_count _ _ Hinv), decide_True by done. lia.
    + by apply (inv_returned _ _ Hinv).
    + intros Hl. pose proof (inv_may_hold _ _ Hinv Hl) as Hm. by rewrite Hpc in Hm.
Qed.
End properties.

(** * Witnesses *)

Fixpoint exec_all (es : list Ev) (s : State bool) : option (State bool) :=
  match es with
  | [] => Some s
  | e :: es => exec e s ≫= exec_all es
  end.

Lemma reachable_exec_all n es s s' :
  reachable n s → exec_all es s = Some s' → reachable n s'.
Proof.
  revert s. induction es as [|e es IH]; intros s Hs Hrun; cbn in Hrun; [by simplify_eq|].
  apply bind_Some in Hrun as (s1 & Hrun & Hrest). eapply IH; [|done]. by eapply reach_step.
Qed.

(** The thread goes to wait for I/O; then a waker finds it blocked, and notifies. *)
Definition waiting_run : list Ev :=
  [Run false; Run false; Run false; Run false; Run false; Run false; Wake; WakeCheck;
   WakeNotify].

Lemma block_on_no_lost_wakeup_witness :
  ∃ s : State bool, exec_all waiting_run (initial false 0) = Some s ∧ pc s = Waiting ∧
    notified s = true ∧ polls_within 10 s.
Proof.
  destruct (exec_all waiting_run (initial false 0)) as [s|] eqn:Hrun;
    [|vm_compute in Hrun; discriminate].
  exists s. pose proof (reachable_exec_all 0 _ _ _ (reach_initial 0 false) Hrun) as Hs.
  pose proof Hrun as Hc. vm_compute in Hc. injection Hc as Hc. rewrite <- Hc in Hs |- *.
  destruct (block_on_no_lost_wakeup 0 _ Hs eq_refl eq_refl) as (Hn & _ & Hp).
  split_and!; [reflexivity|reflexivity|by apply Hn|exact Hp].
Defined.

(** The future is ready at once, having woken its task. *)
Lemma block_on_lock_discipline_witness :
  ∃ s : State bool, exec_all [SelfWake; Run true; Run true] (initial false 3) = Some s ∧
    pc s = Returned ∧ count s = 3 ∧ token s = false.
Proof.
  destruct (exec_all [SelfWake; Run true; Run true] (initial false 3)) as [s|] eqn:Hrun;
    [|vm_compute in Hrun; discriminate].
  exists s. pose proof (reachable_exec_all 3 _ _ _ (reach_initial 3 false) Hrun) as Hs.
  pose proof Hrun as Hc. vm_compute in Hc. injection Hc as Hc. rewrite <- Hc in Hs |- *.
  destruct (block_on_lock_discipline 3 _ Hs) as (_ & _ & _ & Hret).
  split_and!; [reflexivity|reflexivity|by apply Hret|reflexivity].
Defined.
End BlockOn.
