(* ===== verification/Calls.v ===== *)
(** Calls of [block_on] (src/src/driver.rs): where their parkers come from, the cache of each
    thread and calls within calls; how a call ends, one step at a time; and the "async-io"
    thread, which is started once. *)
From S2P Require Import Prelude Std Deps RefDeps Driver.

Module Calls.

(** * Data *)

(** A call in progress: its parker; whether it is the cached one, which the call holds a
    mutable borrow of; and whether the future is ready, or its poll has panicked, so that the
    locals of the call are being dropped, the future first. *)
Record Frame : Type := mkFrame { fr_parker : Z; fr_cached : bool; fr_done : bool }.

(** The end of a call, when its borrow is released: [CallOnDrop] gives the count back, and
    then unparks the "async-io" thread. *)
Inductive Closing : Type := Open | Uncounting | Unparking.

#[export] Instance Closing_eq_dec : EqDecision Closing.
Proof. solve_decision. Defined.

(** [CACHE], initialised on first use and a [RefCell]; the calls of a thread, innermost
    first; and whether it is at the end of one. *)
Record Thread : Type := mkThread {
  th_cache : option Z;
  th_borrowed : bool;
  th_stack : list Frame;
  th_closing : Closing;
}.
Definition Thread_new : Thread := mkThread None false [] Open.

(** Parkers are named in the order of their creation. *)
Record Process {P : Type} : Type := mkProcess {
  ps_parkers : gmap Z P;
  ps_next : Z;
  ps_count : Z;                    (* [BLOCK_ON_COUNT] *)
  ps_unparker : option Z;          (* [UNPARKER] *)
  ps_spawned : list Z;             (* the threads in [main_loop], by their parkers *)
  ps_threads : gmap Z Thread;
}.
Arguments Process : clear implicits.
Arguments mkProcess {P}.

Section calls.
  Context {P : Type} `{ParkerOps P}.
  (** [thread::Builder::spawn], of the thread with a parker. *)
  Context (spawn : Z → io_result unit).
  Implicit Types ps : Process P.

Definition set_parkers (m : gmap Z P) (n : Z) ps : Process P :=
  mkProcess m n (ps_count ps) (ps_unparker ps) (ps_spawned ps) (ps_threads ps).
Definition set_count (n : Z) ps : Process P :=
  mkProcess (ps_parkers ps) (ps_next ps) n (ps_unparker ps) (ps_spawned ps) (ps_threads ps).
Definition set_unparker (o : option Z) (l : list Z) ps : Process P :=
  mkProcess (ps_parkers ps) (ps_next ps) (ps_count ps) o l (ps_threads ps).
Definition set_threads (m : gmap Z Thread) ps : Process P :=
  mkProcess (ps_parkers ps) (ps_next ps) (ps_count ps) (ps_unparker ps) (ps_spawned ps) m.

(** * Operations *)

(** [parking::pair()] *)
Definition pair : M (Process P) Z :=
  ps ← gets (λ ps, ps);
  modify (set_parkers (<[ps_next ps := pk_new]> (ps_parkers ps)) (ps_next ps + 1)) ;;
  mret (ps_next ps).

(** [unpark] and [park_timeout(0)] on the parker [p]. *)
Definition on_parker {A} (f : P → A * P) (p : Z) : M (Process P) A :=
  ps ← gets (λ ps, ps);
  x ← unwrap (ps_parkers ps !! p);
  modify (set_parkers (<[p := (f x).2]> (ps_parkers ps)) (ps_next ps)) ;;
  mret (f x).1.

(** [unparker()]: the first call starts the thread. *)
Definition unparker : M (Process P) Z :=
  ps ← gets (λ ps, ps);
  match ps_unparker ps with
  | Some u => mret u
  | None =>
      u ← pair;
      match spawn u with
      | Err _ => panic                       (* [expect] *)
      | Ok _ =>
          modify (λ ps, set_unparker (Some u) (u :: ps_spawned ps) ps) ;;
          mret u
      end
  end.

(** [driver::init] *)
Definition init : M (Process P) unit := unparker ;; mret tt.

(** The parker, to which the waker and [io_blocked] belong. *)
Definition parker_and_waker : M (Process P) Z := pair.

Definition thread (t : Z) ps : Thread := default Thread_new (ps_threads ps !! t).
Definition set_thread (t : Z) (th : Thread) ps : Process P :=
  set_threads (<[t := th]> (ps_threads ps)) ps.

(** [CACHE.with(|cache| ..)], up to the borrow. *)
Definition cache (t : Z) : M (Process P) Z :=
  ps ← gets (λ ps, ps);
  match th_cache (thread t ps) with
  | Some p => mret p
  | None =>
      p ← parker_and_waker;
      modify (λ ps, set_thread t (mkThread (Some p) (th_borrowed (thread t ps))
                                    (th_stack (thread t ps)) (th_closing (thread t ps))) ps) ;;
      mret p
  end.

(** A thread calls [block_on]: up to the first poll of the future. *)
Definition enter (t : Z) : M (Process P) Z :=
  modify (λ ps, set_count (usize_wrap (ps_count ps + 1)) ps) ;;
  cached ← cache t;
  ps ← gets (λ ps, ps);
  let th := thread t ps in
  if th_borrowed th then
    fresh ← parker_and_waker;
    modify (λ ps, set_thread t (mkThread (th_cache th) true
                                  (mkFrame fresh false false :: th_stack th) (th_closing th)) ps) ;;
    mret fresh
  else
    modify (set_thread t (mkThread (th_cache th) true (mkFrame cached true false :: th_stack th)
                            (th_closing th))) ;;
    mret cached.

(** The future of the innermost call is ready: the parker is reset. Or its poll panics, and
    the call is unwound. In both cases the future is dropped next. *)
Definition finish (t : Z) (panicked : bool) : M (Process P) unit :=
  ps ← gets (λ ps, ps);
  match th_stack (thread t ps) with
  | [] => panic
  | fr :: stack =>
      (if panicked then mret tt else on_parker pk_park_zero (fr_parker fr) ;; mret tt) ;;
      modify (λ ps, set_thread t (mkThread (th_cache (thread t ps)) (th_borrowed (thread t ps))
                                    (mkFrame (fr_parker fr) (fr_cached fr) true :: stack)
                                    (th_closing (thread t ps))) ps)
  end.

(** The future is dropped; the parker is too, or the borrow of the cache ends. *)
Definition release (t : Z) : M (Process P) unit :=
  ps ← gets (λ ps, ps);
  match th_stack (thread t ps) with
  | [] => panic
  | fr :: stack =>
      modify (set_thread t (mkThread (th_cache (thread t ps))
                              (if fr_cached fr then false else th_borrowed (thread t ps))
                              stack Uncounting))
  end.

Definition set_closing (t : Z) (k : Closing) ps : Process P :=
  set_thread t (mkThread (th_cache (thread t ps)) (th_borrowed (thread t ps))
                  (th_stack (thread t ps)) k) ps.

(** [BLOCK_ON_COUNT.fetch_sub(1)] *)
Definition uncount (t : Z) : M (Process P) unit :=
  modify (λ ps, set_closing t Unparking (set_count (usize_wrap (ps_count ps - 1)) ps)).

(** [unparker().unpark()]; the call returns, or goes on unwinding. *)
Definition unpark_main (t : Z) : M (Process P) unit :=
  u ← unparker;
  on_parker pk_unpark u ;;
  modify (set_closing t Open).

(** * Steps *)

Inductive Ev : Type :=
  | Enter (t : Z)
  | Finish (t : Z) (panicked : bool)
  | Release (t : Z)
  | Uncount (t : Z)
  | UnparkMain (t : Z)
  | Unpark (p : Z)                 (* someone calls a waker, or unparks the "async-io" thread *)
  | Park (p : Z).                  (* a thread parks with it, and has returned *)

Definition step (e : Ev) : M (Process P) unit :=
  match e with
  | Enter t => enter t ;; mret tt
  | Finish t panicked => finish t panicked
  | Release t => release t
  | Uncount t => uncount t
  | UnparkMain t => unpark_main t
  | Unpark p => on_parker pk_unpark p ;; mret tt
  | Park p => on_parker pk_park_zero p ;; mret tt
  end.

(** Where a thread is when it takes the step: a call can be made from anywhere but the end of
    another one (also while its future is dropped); the future of the innermost call is
    polled until it is done, and then dropped. *)
Definition top_done (t : Z) (b : bool) ps : Prop :=
  th_closing (thread t ps) = Open ∧ fr_done <$> head (th_stack (thread t ps)) = Some b.

Definition may (e : Ev) ps : Prop :=
  match e with
  | Enter t => th_closing (thread t ps) = Open
  | Finish t _ => top_done t false ps
  | Release t => top_done t true ps
  | Uncount t => th_closing (thread t ps) = Uncounting
  | UnparkMain t => th_closing (thread t ps) = Unparking
  | Unpark p | Park p => is_Some (ps_parkers ps !! p)
  end.
#[global] Instance may_dec e ps : Decision (may e ps).
Proof. destruct e; unfold may, top_done; apply _. Defined.

Definition exec (e : Ev) ps : option (Process P) :=
  if decide (may e ps) then
    match step e ps with Ret (_, ps) => Some ps | _ => None end
  else None.

Fixpoint run (es : list Ev) ps : option (Process P) :=
  match es with
  | [] => Some ps
  | e :: es => ps ← exec e ps; run es ps
  end.

Definition Process_new : Process P := mkProcess ∅ 0 0 None [] ∅.

Inductive reachable : Process P → Prop :=
  | reach_new : reachable Process_new
  | reach_step ps e ps' : reachable ps → exec e ps = Some ps' → reachable ps'.

(** The calls of [t] that [es] leaves open, of [n] open ones at first, unless it also ends
    the poll of one that was there before them, or the call itself. *)
Fixpoint depth (t : Z) (n : nat) (es : list Ev) : option nat :=
  match es with
  | [] => Some n
  | Enter u :: es => depth t (if decide (u = t) then S n else n) es
  | Finish u _ :: es =>
      if decide (u = t) then match n with O => None | S _ => depth t n es end else depth t n es
  | Release u :: es =>
      if decide (u = t) then match n with O => None | S n => depth t n es end else depth t n es
  | _ :: es => depth t n es
  end.

(** * Invariant *)

(** The calls of a thread: the cache is borrowed by the outermost one, and no other. *)
Inductive stack_ok (o : option Z) : list Frame → bool → Prop :=
  | stack_nil : stack_ok o [] false
  | stack_cached p b : o = Some p → stack_ok o [mkFrame p true b] true
  | stack_fresh p b stack : stack_ok o stack true → stack_ok o (mkFrame p false b :: stack) true.

(** The parkers a thread keeps: its cache, and those of its nested calls. *)
Definition owned (th : Thread) : list Z :=
  option_list (th_cache th) ++
  (fr_parker <$> filter (λ fr, fr_cached fr = false) (th_stack th)).

(** How many calls are in progress: those that have not given back their count. *)
Definition weight (th : Thread) : Z :=
  Z.of_nat (length (th_stack th)) + (if decide (th_closing th = Uncounting) then 1 else 0).
Definition total (m : gmap Z Thread) : Z := map_fold (λ _ th n, weight th + n) 0 m.

(** No thread keeps the parker [p]. *)
Definition unowned (p : Z) ps : Prop :=
  ∀ t th, ps_threads ps !! t = Some th → p ∉ owned th.

(** [d] calls are between taking their count and their place on the stack. *)
Record calls_ok (d : Z) ps : Prop := {
  calls_stack : ∀ t th, ps_threads ps !! t = Some th →
    stack_ok (th_cache th) (th_stack th) (th_borrowed th);
  calls_nodup : ∀ t th, ps_threads ps !! t = Some th → NoDup (owned th);
  calls_apart : ∀ t u th uh p, ps_threads ps !! t = Some th → ps_threads ps !! u = Some uh →
    t ≠ u → p ∈ owned th → p ∈ owned uh → False;
  calls_known : ∀ t th p, ps_threads ps !! t = Some th → p ∈ owned th →
    is_Some (ps_parkers ps !! p);
  calls_main_apart : ∀ u, ps_unparker ps = Some u → unowned u ps;
  calls_old : ∀ p, is_Some (ps_parkers ps !! p) → p < ps_next ps;
  calls_count : ps_count ps = usize_wrap (d + total (ps_threads ps));
  calls_spawned : ps_spawned ps = option_list (ps_unparker ps);
  calls_main : ∀ u, ps_unparker ps = Some u → is_Some (ps_parkers ps !! u);
}.
End calls.

(** * Facts *)

Lemma total_insert (m : gmap Z Thread) t th :
  total (<[t := th]> m) = total m + weight th - weight (default Thread_new (m !! t)).
Proof.
  unfold total.
  assert (∀ m' : gmap Z Thread, m' !! t = None → ∀ th',
    map_fold (λ _ th n, weight th + n) 0 (<[t := th']> m') =
    weight th' + map_fold (λ _ th n, weight th + n) 0 m') as Hins.
  { intros m' Hm' th'. by rewrite map_fold_insert_L by (intros; lia || done). }
  destruct (m !! t) as [old|] eqn:Ht.
  - change (default Thread_new (Some old)) with old. rewrite <- (insert_delete_id m t old Ht) at 2.
    rewrite <- insert_delete_eq. rewrite !Hins by apply lookup_delete_eq. lia.
  - rewrite Hins by done. change (weight (default Thread_new None)) with 0. lia.
Qed.

Section facts.
Context {P : Type} `{ParkerOps P, !ParkerLaws P}.
Context (spawn : Z → io_result unit).
Implicit Types (ps : Process P) (th : Thread).

Lemma calls_ok_parkers d ps m n :
  calls_ok d ps → (∀ p, is_Some (ps_parkers ps !! p) → is_Some (m !! p)) →
  (∀ p, is_Some (m !! p) → p < n) → calls_ok d (set_parkers m n ps).
Proof. intros [] Hsub Hold. split; cbn; eauto. Qed.

Lemma pair_wp d ps :
  calls_ok d ps →
  wp pair (λ p ps', calls_ok d ps' ∧ unowned p ps' ∧ is_Some (ps_parkers ps' !! p) ∧
    ps_unparker ps' ≠ Some p ∧ ps_threads ps' = ps_threads ps ∧
    ps_unparker ps' = ps_unparker ps ∧ ps_spawned ps' = ps_spawned ps ∧
    ∀ q, is_Some (ps_parkers ps !! q) → q ≠ p ∧ ps_parkers ps' !! q = ps_parkers ps !! q) ps.
Proof.
  intros Hok. pose proof Hok as []. unfold pair. wp_steps.
  assert (¬ is_Some (ps_parkers ps !! ps_next ps)) as Hno
    by (intros Hs; specialize (calls_old0 _ Hs); lia).
  split_and!; cbn; try done.
  - apply calls_ok_parkers; [done|intros p Hp|intros p Hp]; cbn in *.
    + destruct (decide (p = ps_next ps)) as [->|]; [by rewrite lookup_insert_eq|].
      by rewrite lookup_insert_ne.
    + destruct (decide (p = ps_next ps)) as [->|]; [lia|].
      rewrite lookup_insert_ne in Hp by done. specialize (calls_old0 _ Hp). lia.
  - intros t th Ht Hin. by apply Hno, (calls_known0 t th).
  - by rewrite lookup_insert_eq.
  - intros Hu. by apply Hno, calls_main0.
  - intros q Hq. assert (q ≠ ps_next ps) by (intros ->; by apply Hno).
    by rewrite lookup_insert_ne.
Qed.

Lemma on_parker_wp {A} (f : P → A * P) d p ps :
  calls_ok d ps → is_Some (ps_parkers ps !! p) →
  wp (on_parker f p) (λ _ ps', calls_ok d ps' ∧ ps_threads ps' = ps_threads ps ∧
    ps_unparker ps' = ps_unparker ps ∧ ps_count ps' = ps_count ps ∧
    (∀ x, ps_parkers ps !! p = Some x → ps_parkers ps' !! p = Some (f x).2) ∧
    ∀ q, q ≠ p → ps_parkers ps' !! q = ps_parkers ps !! q) ps.
Proof.
  intros Hok [x Hx]. unfold on_parker. wp_steps. eapply wp_unwrap; [done|]. wp_steps.
  split_and!; cbn; try done; [|intros y Hy; rewrite lookup_insert_eq; congruence|
    by intros q Hq; rewrite lookup_insert_ne].
  pose proof (calls_old _ _ Hok) as Hold.
  apply calls_ok_parkers; [done|intros q Hq|intros q Hq].
  - destruct (decide (q = p)) as [->|]; [by rewrite lookup_insert_eq|].
    by rewrite lookup_insert_ne.
  - destruct (decide (q = p)) as [->|]; [by eapply Hold|].
    rewrite lookup_insert_ne in Hq by done. by apply Hold.
Qed.

Lemma unparker_wp d ps :
  (∀ u, spawn u = Ok tt) → calls_ok d ps →
  wp (unparker spawn) (λ u ps', calls_ok d ps' ∧ is_Some (ps_parkers ps' !! u) ∧
    ps_unparker ps' = Some u ∧ ps_threads ps' = ps_threads ps ∧
    (∀ v, ps_unparker ps = Some v → u = v) ∧
    ∀ q, is_Some (ps_parkers ps !! q) → ps_unparker ps ≠ Some q →
      q ≠ u ∧ ps_parkers ps' !! q = ps_parkers ps !! q) ps.
Proof.
  intros Hspawn Hok. unfold unparker. wp_steps. destruct (ps_unparker ps) as [u|] eqn:Hu.
  { apply wp_ret. split_and!; try done; [by apply (calls_main _ _ Hok)|congruence|].
    intros q _ Hq. split; [congruence|done]. }
  apply wp_bind. eapply wp_mono; [by eapply pair_wp|]. cbn beta.
  intros u ps1 (Hok1 & Hun & Hs & _ & Ht & Hu1 & Hsp & Hq). rewrite Hspawn. wp_steps.
  split_and!; cbn; try done; [|by intros q Hs' _; apply Hq]. destruct Hok1. split; cbn; try done.
  - by intros v [= <-].
  - by rewrite calls_spawned0, Hu1, Hu.
  - by intros v [= <-].
Qed.

(** A thread whose parkers are its own, or no one's. *)
Lemma calls_ok_thread d ps t th :
  calls_ok d ps → stack_ok (th_cache th) (th_stack th) (th_borrowed th) → NoDup (owned th) →
  (∀ p, p ∈ owned th → p ∈ owned (thread t ps) ∨
     unowned p ps ∧ is_Some (ps_parkers ps !! p) ∧ ps_unparker ps ≠ Some p) →
  calls_ok (d + weight (thread t ps) - weight th) (set_thread t th ps).
Proof.
  intros Hok Hst Hnd Hown. pose proof Hok as [].
  assert (∀ p, p ∈ owned (thread t ps) → ∃ th0, ps_threads ps !! t = Some th0 ∧ p ∈ owned th0)
    as Hold.
  { intros p. unfold thread. destruct (ps_threads ps !! t) as [th0|]; cbn; [eauto|].
    by intros ?%elem_of_nil. }
  unfold set_thread, set_threads. split; unfold unowned; cbn; try done.
  - intros t' th' [[<- <-]|[_ Ht]]%lookup_insert_Some; [done|by eapply calls_stack0].
  - intros t' th' [[<- <-]|[_ Ht]]%lookup_insert_Some; [done|by eapply calls_nodup0].
  - assert (∀ u uh p, t ≠ u → ps_threads ps !! u = Some uh → p ∈ owned th → p ∈ owned uh → False)
      as Hap.
    { intros u uh p Hne Hu Hp Hpu. destruct (Hown _ Hp) as [Hin|(Hun & _)]; [|by eapply Hun].
      destruct (Hold _ Hin) as (th0 & Ht0 & Hp0). by eapply (calls_apart0 t u). }
    intros t' u th' uh p [[<- <-]|[Hnt Ht]]%lookup_insert_Some
      [[<- <-]|[Hnu Hu]]%lookup_insert_Some Hne Hp Hpu; [done|by eapply Hap|by eapply Hap|].
    by eapply (calls_apart0 t' u).
  - intros t' th' p [[<- <-]|[_ Ht]]%lookup_insert_Some Hp; [|by eapply calls_known0].
    destruct (Hown _ Hp) as [Hin|(_ & Hs & _)]; [|done].
    destruct (Hold _ Hin) as (th0 & Ht0 & Hp0). by eapply calls_known0.
  - intros u Hu t' th' [[<- <-]|[_ Ht]]%lookup_insert_Some Hp; [|by eapply calls_main_apart0].
    destruct (Hown _ Hp) as [Hin|(_ & _ & Hne)]; [|done].
    destruct (Hold _ Hin) as (th0 & Ht0 & Hp0). by eapply calls_main_apart0.
  - rewrite total_insert, calls_count0. unfold thread. f_equal. lia.
Qed.

Lemma calls_ok_count d n ps :
  calls_ok d ps → calls_ok (d + n) (set_count (usize_wrap (ps_count ps + n)) ps).
Proof.
  intros []. split; cbn; try done. rewrite calls_count0. unfold usize_wrap, USIZE_MOD.
  rewrite Z.add_mod_idemp_l by done. f_equal. lia.
Qed.

Lemma calls_stack_thread d t ps :
  calls_ok d ps →
  stack_ok (th_cache (thread t ps)) (th_stack (thread t ps)) (th_borrowed (thread t ps)) ∧
  NoDup (owned (thread t ps)).
Proof.
  intros []. unfold thread. destruct (ps_threads ps !! t) as [th|] eqn:Ht; cbn; [eauto|].
  split; constructor.
Qed.

Lemma stack_ok_borrowed o l b :
  stack_ok o l b → b = bool_decide (l ≠ []) ∧ (l ≠ [] → is_Some o).
Proof.
  induction 1 as [|p b Ho|p b stack Hst (_ & IH)].
  - done.
  - by rewrite Ho.
  - split; [done|]. intros _. destruct stack; [inversion Hst|by apply IH].
Qed.

Lemma owned_fresh o b b' k k' p c l :
  owned (mkThread o b (mkFrame p false c :: l) k) ≡ₚ p :: owned (mkThread o b' l k').
Proof. unfold owned; cbn. by rewrite decide_True, fmap_cons, <- Permutation_middle. Qed.

Lemma owned_cached o b b' k k' p c l :
  owned (mkThread o b (mkFrame p true c :: l) k) = owned (mkThread o b' l k').
Proof. done. Qed.

Lemma thread_eta th : mkThread (th_cache th) (th_borrowed th) (th_stack th) (th_closing th) = th.
Proof. by destruct th. Qed.

Lemma unowned_thread p t ps : unowned p ps → p ∉ owned (thread t ps).
Proof.
  intros Hun. unfold thread. destruct (ps_threads ps !! t) as [th|] eqn:Ht; cbn; [by eapply Hun|].
  apply not_elem_of_nil.
Qed.

Lemma thread_set t th u ps :
  thread u (set_thread t th ps) = if decide (u = t) then th else thread u ps.
Proof.
  unfold thread, set_thread, set_threads; cbn. case_decide as Hd; subst.
  - by rewrite lookup_insert_eq.
  - by rewrite lookup_insert_ne.
Qed.

Lemma thread_ext u ps ps' : ps_threads ps' = ps_threads ps → thread u ps' = thread u ps.
Proof. unfold thread. by intros ->. Qed.

Lemma calls_known_thread d t p ps :
  calls_ok d ps → p ∈ owned (thread t ps) →
  is_Some (ps_parkers ps !! p) ∧ ps_unparker ps ≠ Some p.
Proof.
  intros [] Hp. revert Hp. unfold thread.
  destruct (ps_threads ps !! t) as [th|] eqn:Ht; cbn; [|by intros ?%elem_of_nil].
  intros Hp. split; [by eapply calls_known0|]. intros Hu. by eapply calls_main_apart0.
Qed.

(** The parkers of a thread depend on its cache and its frames; the count on [weight]. *)
Lemma owned_eq o b b' k k' l : owned (mkThread o b l k) = owned (mkThread o b' l k').
Proof. done. Qed.

Lemma weight_eq th :
  weight th = Z.of_nat (length (th_stack th)) + (if decide (th_closing th = Uncounting) then 1 else 0).
Proof. done. Qed.

Lemma calls_ok_thread' d d' ps t th :
  calls_ok d ps → d' = d + weight (thread t ps) - weight th →
  stack_ok (th_cache th) (th_stack th) (th_borrowed th) → NoDup (owned th) →
  (∀ p, p ∈ owned th → p ∈ owned (thread t ps) ∨
     unowned p ps ∧ is_Some (ps_parkers ps !! p) ∧ ps_unparker ps ≠ Some p) →
  calls_ok d' (set_thread t th ps).
Proof. intros Hok -> ???. by apply calls_ok_thread. Qed.

(** A parker that no one has unparked. *)
Definition quiet (p : Z) ps : Prop :=
  (∃ x, ps_parkers ps !! p = Some x ∧ pk_token x = false) ∧ ps_unparker ps ≠ Some p.

(** A step keeps it so, if the parkers there were stay as they are. *)
Lemma quiet_kept p ps ps' :
  (∀ q, is_Some (ps_parkers ps !! q) → ps_parkers ps' !! q = ps_parkers ps !! q) →
  ps_unparker ps' = ps_unparker ps → quiet p ps → quiet p ps'.
Proof.
  intros Hq Hu [(x & Hx & Ht) Hne]. split; [|by rewrite Hu]. exists x. by rewrite Hq; [|eexists].
Qed.

Lemma cache_wp d t ps :
  calls_ok d ps →
  wp (cache t) (λ p ps', calls_ok d ps' ∧ th_cache (thread t ps') = Some p ∧
    th_borrowed (thread t ps') = th_borrowed (thread t ps) ∧
    th_stack (thread t ps') = th_stack (thread t ps) ∧
    th_closing (thread t ps') = th_closing (thread t ps) ∧
    (∀ p, quiet p ps → quiet p ps') ∧
    (∀ u, u ≠ t → thread u ps' = thread u ps)) ps.
Proof.
  intros Hok. unfold cache, parker_and_waker. wp_steps.
  destruct (th_cache (thread t ps)) as [p|] eqn:Hc.
  { apply wp_ret. by split_and!. }
  destruct (calls_stack_thread d t ps Hok) as [Hst _].
  apply wp_bind. eapply wp_mono; [by eapply pair_wp|]. cbn beta.
  intros p ps1 (Hok1 & Hun & Hs & Hne & Hth & Hunp & _ & Hq). wp_steps.
  pose proof (thread_ext t _ _ Hth) as Ht1.
  assert (th_stack (thread t ps1) = []) as Hnil.
  { rewrite Ht1. destruct (th_stack (thread t ps)) as [|fr l] eqn:Hl; [done|].
    destruct (stack_ok_borrowed _ _ _ Hst) as [_ Hb]. rewrite Hc in Hb. by destruct Hb. }
  rewrite !thread_set. rewrite decide_True by done. cbn. split_and!; try done; try by rewrite Ht1.
  - apply (calls_ok_thread' d _ ps1); [done|rewrite !weight_eq; cbn; lia|..]; cbn.
    + rewrite Hnil, Ht1. rewrite <- Ht1, Hnil, Ht1 in Hst. inversion Hst. constructor.
    + rewrite Hnil. unfold owned; cbn. apply NoDup_singleton.
    + rewrite Hnil. unfold owned; cbn. intros q ->%list_elem_of_singleton. by right.
  - intros q. apply quiet_kept; [|done]. intros q'. apply Hq.
  - intros u Hu. rewrite thread_set, decide_False by done. by apply thread_ext.
Qed.

(** [enter] puts a frame on the stack of its thread, with a parker no call uses. *)
Lemma enter_wp t ps :
  calls_ok 0 ps →
  wp (enter t) (λ p ps', calls_ok 0 ps' ∧
    th_stack (thread t ps') =
      mkFrame p (negb (th_borrowed (thread t ps))) false :: th_stack (thread t ps) ∧
    th_borrowed (thread t ps') = true ∧ th_closing (thread t ps') = th_closing (thread t ps) ∧
    (∀ p, quiet p ps → quiet p ps') ∧
    (∀ u, u ≠ t → thread u ps' = thread u ps)) ps.
Proof.
  intros Hok. unfold enter, parker_and_waker. wp_steps.
  eapply wp_mono; [apply (cache_wp (0 + 1)), calls_ok_count, Hok|]. cbn beta.
  intros c ps1 (Hok1 & Hc & Hb & Hl & Hk & Hq1 & Hu). wp_steps.
  destruct (calls_stack_thread _ t ps1 Hok1) as [Hst Hnd].
  change (thread t (set_count _ ps)) with (thread t ps) in Hb, Hl, Hk. rewrite <- Hb, <- Hl.
  destruct (th_borrowed (thread t ps1)) eqn:Hbr.
  - wp_steps. eapply wp_mono; [by eapply pair_wp|]. cbn beta.
    intros p ps2 (Hok2 & Hun & Hs & Hne & Hth & Hunp & _ & Hq). wp_steps.
    pose proof (thread_ext t _ _ Hth) as Ht2. pose proof (unowned_thread p t _ Hun) as Hno.
    rewrite thread_set, decide_True by done. cbn. split_and!; try done.
    + rewrite Ht2 in Hno. set (k := th_closing (thread t ps1)) in *.
      apply (calls_ok_thread' (0 + 1) _ ps2); [done|rewrite !weight_eq, Ht2; cbn; fold k; lia|..];
        rewrite ?Ht2; cbn.
      * by constructor.
      * rewrite (owned_fresh _ _ (th_borrowed (thread t ps1)) _ k), thread_eta. by apply NoDup_cons.
      * intros q. rewrite (owned_fresh _ _ (th_borrowed (thread t ps1)) _ k), thread_eta, elem_of_cons.
        intros [->|Hq']; [by right|by left].
    + intros q Hq'. eapply quiet_kept, Hq1, Hq'; [|done]. intros q'. apply Hq.
    + intros u Hut. rewrite thread_set, decide_False by done.
      by rewrite (thread_ext u _ _ Hth), Hu.
  - wp_steps. destruct (stack_ok_borrowed _ _ _ Hst) as [Hnil _].
    assert (th_stack (thread t ps1) = []) as Hnil'.
    { by destruct (th_stack (thread t ps1)). }
    rewrite thread_set, decide_True, Hnil' by done. cbn. set (k := th_closing (thread t ps1)) in *.
    split_and!; try done.
    + apply (calls_ok_thread' (0 + 1) _ ps1);
        [done|rewrite !weight_eq, Hnil'; cbn; fold k; lia|..]; cbn.
      * rewrite Hc. by constructor.
      * by rewrite (owned_cached _ _ (th_borrowed (thread t ps1)) _ k), <- Hnil', thread_eta.
      * intros q. rewrite (owned_cached _ _ (th_borrowed (thread t ps1)) _ k), <- Hnil', thread_eta.
        by left.
    + intros u Hut. rewrite thread_set, decide_False by done. by apply Hu.
Qed.

Lemma frame_owned o b l k fr :
  stack_ok o l b → fr ∈ l → fr_parker fr ∈ owned (mkThread o b l k).
Proof.
  induction 1 as [|p c Ho|p c stack Hst IH]; [by intros ?%elem_of_nil| |].
  - intros ->%list_elem_of_singleton. unfold owned; cbn. rewrite Ho. by left.
  - rewrite (owned_fresh _ _ true _ k), !elem_of_cons. intros [->|Hfr]; [by left|].
    right. by apply IH.
Qed.

Lemma thread_frame_owned d t ps fr :
  calls_ok d ps → fr ∈ th_stack (thread t ps) → fr_parker fr ∈ owned (thread t ps).
Proof.
  intros Hok Hfr. rewrite <- (thread_eta (thread t ps)). eapply frame_owned; [|done].
  by apply (calls_stack_thread d).
Qed.

(** ** The end of a call *)

Lemma finish_call_wp t b fr stack ps :
  calls_ok 0 ps → th_stack (thread t ps) = fr :: stack →
  wp (finish t b) (λ _ ps', calls_ok 0 ps' ∧
    thread t ps' = mkThread (th_cache (thread t ps)) (th_borrowed (thread t ps))
      (mkFrame (fr_parker fr) (fr_cached fr) true :: stack) (th_closing (thread t ps)) ∧
    (∀ u, u ≠ t → thread u ps' = thread u ps) ∧
    ps_unparker ps' = ps_unparker ps ∧ ps_count ps' = ps_count ps ∧
    (b = false → quiet (fr_parker fr) ps') ∧
    (∀ p, quiet p ps → quiet p ps')) ps.
Proof.
  intros Hok Hl. destruct (calls_stack_thread _ t ps Hok) as [Hst Hnd].
  destruct (calls_known_thread 0 t (fr_parker fr) ps Hok) as [[x Hs] Hne].
  { apply (thread_frame_owned 0 t); [done|]. rewrite Hl. by left. }
  unfold finish. wp_steps. rewrite Hl. apply wp_bind.
  apply wp_mono with (λ _ ps', calls_ok 0 ps' ∧ ps_threads ps' = ps_threads ps ∧
    ps_unparker ps' = ps_unparker ps ∧ ps_count ps' = ps_count ps ∧
    (b = false → quiet (fr_parker fr) ps') ∧
    ∀ p, quiet p ps → quiet p ps').
  { destruct b; [by wp_steps|]. apply wp_bind. eapply wp_mono; [by apply (on_parker_wp _ 0)|].
    cbn beta. intros _ ps1 (Hok1 & Hth & Hu & Hc & Hx & Hq). wp_steps.
    assert (quiet (fr_parker fr) ps1) as Hfr.
    { split; [|by rewrite Hu]. eexists. split; [by apply Hx|apply pk_park_token]. }
    split_and!; try done. intros p Hp. destruct (decide (p = fr_parker fr)) as [->|Hne']; [done|].
    destruct Hp as [(y & Hy & Ht) Hpu]. split; [exists y; split; [by rewrite Hq|done]|by rewrite Hu]. }
  intros _ ps1 (Hok1 & Hth & Hu & Hc & Hx & Hq). wp_steps. pose proof (thread_ext t _ _ Hth) as Ht1.
  rewrite thread_set, decide_True, Ht1 by done. split_and!; try done.
  - rewrite <- (thread_eta (thread t ps)), Hl in Hnd. rewrite Hl in Hst.
    apply (calls_ok_thread' 0 _ ps1);
      [done|rewrite !weight_eq, Ht1, Hl; cbn; lia| | |rewrite Ht1, <- (thread_eta (thread t ps)), Hl];
      cbn; destruct fr as [q [|] c]; cbn; inversion Hst; subst; try done.
    + by constructor.
    + by constructor.
    + intros q'. rewrite (owned_cached _ _ (th_borrowed (thread t ps)) _ (th_closing (thread t ps))).
      by left.
    + intros q'. rewrite (owned_fresh _ _ (th_borrowed (thread t ps)) _ (th_closing (thread t ps))).
      left. by rewrite (owned_fresh _ _ (th_borrowed (thread t ps)) _ (th_closing (thread t ps))).
  - intros u Hut. rewrite thread_set, decide_False by done. by apply thread_ext.
Qed.

Lemma release_wp t fr stack ps :
  calls_ok 0 ps → th_stack (thread t ps) = fr :: stack → th_closing (thread t ps) = Open →
  wp (release t) (λ _ ps', calls_ok 0 ps' ∧
    thread t ps' = mkThread (th_cache (thread t ps)) (bool_decide (stack ≠ [])) stack Uncounting ∧
    (∀ u, u ≠ t → thread u ps' = thread u ps) ∧
    ps_unparker ps' = ps_unparker ps ∧ ps_count ps' = ps_count ps ∧
    ps_parkers ps' = ps_parkers ps) ps.
Proof.
  intros Hok Hl Hk. destruct (calls_stack_thread _ t ps Hok) as [Hst Hnd].
  unfold release. wp_steps. rewrite Hl. wp_steps. rewrite thread_set, decide_True by done.
  assert ((if fr_cached fr then false else th_borrowed (thread t ps)) = bool_decide (stack ≠ []) ∧
    stack_ok (th_cache (thread t ps)) stack (bool_decide (stack ≠ []))) as [-> Hst'].
  { rewrite Hl in Hst. inversion Hst as [|q c Ho|q c l Hst0]; subst; cbn; [split; [done|constructor]|].
    by destruct (stack_ok_borrowed _ _ _ Hst0) as [<- _]. }
  split_and!; try done.
  - apply (calls_ok_thread' 0 _ ps); [done|rewrite !weight_eq, Hl, Hk, decide_False, decide_True by done; cbn; lia|done|..]; cbn;
      rewrite <- (thread_eta (thread t ps)), Hl in Hnd; [|intros p Hp; left;
        rewrite <- (thread_eta (thread t ps)), Hl]; destruct fr as [q [|] c].
    + exact Hnd.
    + rewrite (owned_fresh _ _ true _ Open), NoDup_cons in Hnd. apply Hnd.
    + exact Hp.
    + rewrite (owned_fresh _ _ true _ Open), elem_of_cons. by right.
  - intros u Hut. by rewrite thread_set, decide_False by done.
Qed.

(** What only a thread's place at the end of a call depends on. *)
Lemma closing_ok d d' t k ps :
  calls_ok d ps →
  d' = d + (if decide (th_closing (thread t ps) = Uncounting) then 1 else 0) -
           (if decide (k = Uncounting) then 1 else 0) →
  calls_ok d' (set_closing t k ps).
Proof.
  intros Hok Hd. destruct (calls_stack_thread _ t ps Hok) as [Hst Hnd].
  apply (calls_ok_thread' d _ ps); [done|rewrite !weight_eq; cbn; lia|done|done|by left].
Qed.

Lemma uncount_wp t ps :
  calls_ok 0 ps → th_closing (thread t ps) = Uncounting →
  wp (uncount t) (λ _ ps', calls_ok 0 ps' ∧
    thread t ps' = mkThread (th_cache (thread t ps)) (th_borrowed (thread t ps))
      (th_stack (thread t ps)) Unparking ∧
    (∀ u, u ≠ t → thread u ps' = thread u ps) ∧
    ps_unparker ps' = ps_unparker ps ∧ ps_count ps' = usize_wrap (ps_count ps - 1) ∧
    ps_parkers ps' = ps_parkers ps) ps.
Proof.
  intros Hok Hk. unfold uncount. wp_steps. unfold set_closing at 2. rewrite thread_set, decide_True by done.
  split_and!; try done.
  - eapply (closing_ok (0 + -1)); [by apply calls_ok_count|].
    change (thread t (set_count _ ps)) with (thread t ps). by rewrite Hk.
  - intros u Hut. unfold set_closing. by rewrite thread_set, decide_False by done.
Qed.

Lemma unpark_main_wp t ps :
  (∀ u, spawn u = Ok tt) → calls_ok 0 ps → th_closing (thread t ps) = Unparking →
  wp (unpark_main spawn t) (λ _ ps', calls_ok 0 ps' ∧
    thread t ps' = mkThread (th_cache (thread t ps)) (th_borrowed (thread t ps))
      (th_stack (thread t ps)) Open ∧
    (∀ u, u ≠ t → thread u ps' = thread u ps) ∧
    (∀ p, quiet p ps → quiet p ps') ∧
    ∃ u x, ps_unparker ps' = Some u ∧ ps_parkers ps' !! u = Some x ∧ pk_token x = true) ps.
Proof.
  intros Hspawn Hok Hk. unfold unpark_main. apply wp_bind.
  eapply wp_mono; [by apply (unparker_wp 0)|]. cbn beta.
  intros u ps1 (Hok1 & [x Hs] & Hu & Hth & Hold & Hq). apply wp_bind.
  eapply wp_mono; [by apply (on_parker_wp _ 0)|]. cbn beta.
  intros _ ps2 (Hok2 & Hth2 & Hu2 & _ & Hx2 & Hq2). wp_steps.
  assert (∀ v, thread v ps2 = thread v ps) as Hv by (intros v; unfold thread; by rewrite Hth2, Hth).
  unfold set_closing at 2. rewrite thread_set, decide_True, Hv by done. split_and!; try done.
  - apply (closing_ok 0); [done|]. by rewrite Hv, Hk.
  - intros v Hvt. unfold set_closing. rewrite thread_set, decide_False by done. apply Hv.
  - intros p [(y & Hy & Htok) Hne]. destruct (Hq p) as [Hpu Hp1]; [by eexists|done|]. split.
    + exists y. split; [|done]. cbn. by rewrite Hq2, Hp1.
    + cbn. rewrite Hu2, Hu. congruence.
  - exists u, (pk_unpark x).2. split_and!; [by cbn; rewrite Hu2|by apply Hx2|apply pk_unpark_token].
Qed.

(** ** Steps *)

(** The thread that takes a step. *)
Definition who (e : Ev) : option Z :=
  match e with
  | Enter t | Finish t _ | Release t | Uncount t | UnparkMain t => Some t
  | Unpark _ | Park _ => None
  end.

(** What a step does to the frames of its thread, and to its place at the end of a call. *)
Definition own_change (e : Ev) ps ps' : Prop :=
  match e with
  | Enter t => ∃ fr, th_stack (thread t ps') = fr :: th_stack (thread t ps)
  | Finish t _ =>
      ∃ fr fr' l, th_stack (thread t ps) = fr :: l ∧ th_stack (thread t ps') = fr' :: l
  | Release t => ∃ fr, th_stack (thread t ps) = fr :: th_stack (thread t ps')
  | Uncount t | UnparkMain t => th_stack (thread t ps') = th_stack (thread t ps)
  | Unpark _ | Park _ => True
  end.

Record step_done (e : Ev) ps ps' : Prop := {
  sd_ok : calls_ok 0 ps';
  sd_others : ∀ t, who e ≠ Some t → thread t ps' = thread t ps;
  sd_quiet : ∀ p, quiet p ps → e ≠ Unpark p → quiet p ps';
  sd_own : own_change e ps ps';
}.

Lemma top_done_inv t b ps :
  top_done t b ps → th_closing (thread t ps) = Open ∧
  ∃ fr l, th_stack (thread t ps) = fr :: l ∧ fr_done fr = b.
Proof.
  intros [Hk Hl]. split; [done|]. destruct (th_stack (thread t ps)) as [|fr l]; [done|].
  injection Hl as Hb. by exists fr, l.
Qed.

Lemma on_parker_step {A} (f : P → A * P) e p ps :
  calls_ok 0 ps → is_Some (ps_parkers ps !! p) → who e = None →
  (∀ x, pk_token (f x).2 = true → e = Unpark p) →
  wp (on_parker f p ;; mret tt) (λ _ ps', step_done e ps ps') ps.
Proof.
  intros Hok [x Hs] He Hf. apply wp_bind. eapply wp_mono; [by apply (on_parker_wp _ 0)|]. cbn beta.
  intros _ ps' (Hok' & Hth & Hu & _ & Hx & Hq). apply wp_ret. split; [done| | |by destruct e].
  - intros t _. by apply thread_ext.
  - intros q [(y & Hqy & Htok) Hne] Heu. split; [|by rewrite Hu].
    destruct (decide (q = p)) as [->|Hqp]; [|exists y; split; [by rewrite Hq|done]].
    exists (f x).2. split; [by apply Hx|]. destruct (pk_token (f x).2) eqn:Ht; [|done].
    by destruct Heu; eapply Hf.
Qed.

(** A step that may be taken returns. *)
Lemma step_wp e ps :
  (∀ u, spawn u = Ok tt) → calls_ok 0 ps → may e ps →
  wp (step spawn e) (λ _ ps', step_done e ps ps') ps.
Proof.
  intros Hspawn Hok Hmay. destruct e as [t|t b|t|t|t|p|p]; cbn [step].
  - apply wp_bind. eapply wp_mono; [by apply enter_wp|]. cbn beta.
    intros p ps' (Hok' & Hl & _ & Hk & Hq & Hoth). apply wp_ret. split; [done| |by auto|cbn; by eauto].
    intros u Hu. apply Hoth. by intros ->.
  - apply top_done_inv in Hmay as (_ & fr & l & Hl & _).
    eapply wp_mono; [by eapply finish_call_wp|]. cbn beta.
    intros _ ps' (Hok' & Hth & Hoth & _ & _ & _ & Hq). split; [done| |by auto|cbn; rewrite Hth; by eauto].
    intros u Hu. apply Hoth. by intros ->.
  - apply top_done_inv in Hmay as (Hk & fr & l & Hl & _).
    eapply wp_mono; [by eapply release_wp|]. cbn beta.
    intros _ ps' (Hok' & Hth & Hoth & Hu & _ & Hp). split; [done| | |cbn; rewrite Hth; by eauto].
    + intros v Hv. apply Hoth. by intros ->.
    + intros p Hquiet _. eapply quiet_kept, Hquiet; [by rewrite Hp|done].
  - eapply wp_mono; [by apply uncount_wp|]. cbn beta.
    intros _ ps' (Hok' & Hth & Hoth & Hu & _ & Hp). split; [done| | |cbn; by rewrite Hth].
    + intros v Hv. apply Hoth. by intros ->.
    + intros p Hquiet _. eapply quiet_kept, Hquiet; [by rewrite Hp|done].
  - eapply wp_mono; [by apply unpark_main_wp|]. cbn beta.
    intros _ ps' (Hok' & Hth & Hoth & Hq & _). split; [done| |by auto|cbn; by rewrite Hth].
    intros v Hv. apply Hoth. by intros ->.
  - by apply on_parker_step.
  - apply on_parker_step; [done..|]. intros x. by rewrite pk_park_token.
Qed.

Lemma exec_done e ps ps' :
  (∀ u, spawn u = Ok tt) → calls_ok 0 ps → exec spawn e ps = Some ps' →
  may e ps ∧ step_done e ps ps'.
Proof.
  intros Hspawn Hok He. unfold exec in He. case_decide as Hmay; [|done].
  destruct (step_wp e ps Hspawn Hok Hmay) as ([] & ps1 & Hstep & Hd). rewrite Hstep in He.
  by injection He as <-.
Qed.

Lemma reachable_ok ps : (∀ u, spawn u = Ok tt) → reachable spawn ps → calls_ok 0 ps.
Proof.
  intros Hspawn. induction 1 as [|ps e ps' _ IH He]; [|by eapply exec_done].
  by split; cbn; intros; simplify_map_eq.
Qed.

Lemma run_calls_ok es ps ps' :
  (∀ u, spawn u = Ok tt) → calls_ok 0 ps → run spawn es ps = Some ps' → calls_ok 0 ps'.
Proof.
  intros Hspawn. revert ps. induction es as [|e es IH]; intros ps Hok Hrun; cbn in Hrun; [by simplify_eq|].
  apply bind_Some in Hrun as (ps1 & He & Hrun). by eapply IH, Hrun; eapply exec_done.
Qed.

(** No one unparks a parker in a run. *)
Lemma run_quiet p es ps ps' :
  (∀ u, spawn u = Ok tt) → calls_ok 0 ps → run spawn es ps = Some ps' → Unpark p ∉ es →
  quiet p ps → quiet p ps'.
Proof.
  intros Hspawn. revert ps. induction es as [|e es IH]; intros ps Hok Hrun Hne Hq; cbn in Hrun; [by simplify_eq|].
  apply bind_Some in Hrun as (ps1 & He & Hrun). apply not_elem_of_cons in Hne as [Hee Hne].
  destruct (exec_done _ _ _ Hspawn Hok He) as [_ []]. by eapply IH; auto.
Qed.

(** A thread at the end of a call takes its next step, and no other. *)
Definition next_step (t : Z) (k : Closing) (e : Ev) : Prop :=
  match k with Open => False | Uncounting => e = Uncount t | Unparking => e = UnparkMain t end.

Lemma run_closing t es ps ps' :
  (∀ u, spawn u = Ok tt) → calls_ok 0 ps → run spawn es ps = Some ps' →
  th_closing (thread t ps) ≠ Open → Forall (λ e, ¬ next_step t (th_closing (thread t ps)) e) es →
  thread t ps' = thread t ps.
Proof.
  intros Hspawn. revert ps. induction es as [|e es IH]; intros ps Hok Hrun Hk Hne; cbn in Hrun; [by simplify_eq|].
  apply bind_Some in Hrun as (ps1 & He & Hrun). apply Forall_cons in Hne as [Hee Hne].
  destruct (exec_done _ _ _ Hspawn Hok He) as [Hmay [Hok1 Hoth _ _]].
  assert (thread t ps1 = thread t ps) as Heq.
  { apply Hoth. intros Hw. destruct e as [u|u b|u|u|u|p|p]; cbn in Hw, Hmay; try done; injection Hw as ->.
    - done.
    - by destruct Hmay.
    - by destruct Hmay.
    - by rewrite Hmay in Hee.
    - by rewrite Hmay in Hee. }
  rewrite <- Heq. eapply IH; [done|done|by rewrite Heq|by rewrite Heq].
Qed.

Lemma run_uncounting t es ps ps' :
  (∀ u, spawn u = Ok tt) → calls_ok 0 ps → run spawn es ps = Some ps' →
  th_closing (thread t ps) = Uncounting → Uncount t ∉ es → thread t ps' = thread t ps.
Proof.
  intros Hspawn Hok Hrun Hk Hne. eapply run_closing; [done|exact Hok|done|by rewrite Hk|].
  rewrite Hk. apply Forall_forall. by intros e He ->.
Qed.

Lemma run_unparking t es ps ps' :
  (∀ u, spawn u = Ok tt) → calls_ok 0 ps → run spawn es ps = Some ps' →
  th_closing (thread t ps) = Unparking → UnparkMain t ∉ es → thread t ps' = thread t ps.
Proof.
  intros Hspawn Hok Hrun Hk Hne. eapply run_closing; [done|exact Hok|done|by rewrite Hk|].
  rewrite Hk. apply Forall_forall. by intros e He ->.
Qed.

Lemma stack_ok_nodup o l b k :
  stack_ok o l b → NoDup (owned (mkThread o b l k)) → NoDup (fr_parker <$> l).
Proof.
  induction 1 as [|p c Ho|p c stack Hst IH]; intros Hnd; [constructor|apply NoDup_singleton|].
  rewrite (owned_fresh _ _ true _ k), NoDup_cons in Hnd. destruct Hnd as [Hp Hnd].
  rewrite fmap_cons. apply NoDup_cons. split; [|by apply IH].
  intros (fr & Hfr & Hin)%list_elem_of_fmap. apply Hp. cbn in Hfr. rewrite Hfr.
  by eapply frame_owned.
Qed.

Lemma calls_apart_thread d t u ps p :
  calls_ok d ps → t ≠ u → p ∈ owned (thread t ps) → p ∈ owned (thread u ps) → False.
Proof.
  intros [] Htu. unfold thread.
  destruct (ps_threads ps !! t) as [th|] eqn:Ht; cbn; [|by intros ?%elem_of_nil].
  destruct (ps_threads ps !! u) as [uh|] eqn:Hu; cbn; [|by intros _ ?%elem_of_nil].
  by eapply calls_apart0.
Qed.

(** The frames of a thread, under the [n] topmost ones, are not touched by what opens and
    closes calls above them. *)
Lemma run_stack t es ps n m stack ps' :
  (∀ u, spawn u = Ok tt) → calls_ok 0 ps → run spawn es ps = Some ps' →
  depth t n es = Some m → drop n (th_stack (thread t ps)) = stack →
  drop m (th_stack (thread t ps')) = stack.
Proof.
  intros Hspawn. revert n ps. induction es as [|e es IH]; intros n ps Hok Hrun Hd Hst; cbn in Hrun.
  { cbn in Hd. by simplify_eq. }
  apply bind_Some in Hrun as (ps1 & He & Hrun).
  destruct (exec_done _ _ _ Hspawn Hok He) as [_ [Hok1 Hoth _ Hown]].
  assert (who e ≠ Some t → drop n (th_stack (thread t ps1)) = stack) as Hsame
    by (intros Hw; by rewrite Hoth).
  destruct e as [u|u b|u|u|u|p|p]; cbn in Hd, Hown, Hsame; try case_decide; subst;
    try (eapply IH; [done..|]; apply Hsame; congruence).
  - eapply IH; [done..|]. destruct Hown as [fr ->]. done.
  - destruct n as [|n]; [done|]. eapply IH; [done..|]. by destruct Hown as (fr & fr' & l & -> & ->).
  - destruct n as [|n]; [done|]. eapply IH; [done..|]. by destruct Hown as [fr ->].
  - eapply IH; [done..|]. destruct (decide (u = t)) as [->|]; [by rewrite Hown|]. apply Hsame. congruence.
  - eapply IH; [done..|]. destruct (decide (u = t)) as [->|]; [by rewrite Hown|]. apply Hsame. congruence.
Qed.

(** * Theorems *)

(** C21 Whatever calls of [block_on] threads make and leave, within one another or not, and
    whoever unparks: two calls in progress never wait on the same parker, and none on that of
    the "async-io" thread; [BLOCK_ON_COUNT] counts the calls in progress, up to the step that
    gives the count back; and at most one "async-io" thread was ever spawned, with the parker
    of [UNPARKER]; provided that the thread can be spawned. *)
Theorem calls_have_own_parkers ps :
  (∀ u, spawn u = Ok tt) → reachable spawn ps →
  (∀ t u i j f g,
    th_stack (thread t ps) !! i = Some f → th_stack (thread u ps) !! j = Some g →
    fr_parker f = fr_parker g → t = u ∧ i = j) ∧
  (∀ t f, f ∈ th_stack (thread t ps) → ps_unparker ps ≠ Some (fr_parker f)) ∧
  ps_count ps = usize_wrap (total (ps_threads ps)) ∧
  ps_spawned ps = option_list (ps_unparker ps).
Proof.
  intros Hspawn Hr. pose proof (reachable_ok ps Hspawn Hr) as Hok. split_and!.
  - intros t u i j f g Hf Hg Hfg.
    pose proof (thread_frame_owned 0 t ps f Hok (list_elem_of_lookup_2 _ _ _ Hf)) as Hof.
    pose proof (thread_frame_owned 0 u ps g Hok (list_elem_of_lookup_2 _ _ _ Hg)) as Hog.
    rewrite <- Hfg in Hog. destruct (decide (t = u)) as [<-|Htu]; [|by edestruct calls_apart_thread].
    split; [done|]. destruct (calls_stack_thread 0 t ps Hok) as [Hst Hnd].
    rewrite <- (thread_eta (thread t ps)) in Hnd.
    eapply NoDup_lookup; [by apply (stack_ok_nodup _ _ _ _ Hst Hnd)| |];
      rewrite list_lookup_fmap; [by rewrite Hf|by rewrite Hg, Hfg].
  - intros t f Hf. by apply (calls_known_thread 0 t), (thread_frame_owned 0).
  - by destruct Hok.
  - by destruct Hok.
Qed.

(** C22 A call of [block_on] uses the cached parker when it is the thread's outermost, and a
    fresh one otherwise. Its end takes four steps, each of which returns, with whatever steps
    of the other threads, and of the calls its future makes while it is polled or dropped,
    in between. When the future is ready, the parker has no token left, unless the poll
    panicked; when the future has been dropped, the frames of the thread and its borrow of
    the cache are as they were; then the count is given back; then the "async-io" thread is
    unparked. In the end the parker has a token only if the poll panicked, or someone has
    called the waker since the future was ready. (If the "async-io" thread cannot be spawned,
    [unparker] panics.) *)
Theorem call_unwinds t panicked ps :
  (∀ u, spawn u = Ok tt) → reachable spawn ps → th_closing (thread t ps) = Open →
  wp (enter t) (λ p ps1,
    th_stack (thread t ps1) =
      mkFrame p (bool_decide (th_stack (thread t ps) = [])) false :: th_stack (thread t ps) ∧
    (th_stack (thread t ps) = [] → th_cache (thread t ps1) = Some p) ∧
    ∀ es1 ps2, run spawn es1 ps1 = Some ps2 → depth t 0 es1 = Some O →
      th_closing (thread t ps2) = Open →
    wp (finish t panicked) (λ _ ps3, (panicked = false → quiet p ps3) ∧
      ∀ es2 ps4, run spawn es2 ps3 = Some ps4 → depth t 0 es2 = Some O →
        th_closing (thread t ps4) = Open →
      wp (release t) (λ _ ps5,
        th_stack (thread t ps5) = th_stack (thread t ps) ∧
        th_borrowed (thread t ps5) = th_borrowed (thread t ps) ∧
        ∀ es3 ps6, run spawn es3 ps5 = Some ps6 → Uncount t ∉ es3 →
        wp (uncount t) (λ _ ps7, ps_count ps7 = usize_wrap (ps_count ps6 - 1) ∧
          ∀ es4 ps8, run spawn es4 ps7 = Some ps8 → UnparkMain t ∉ es4 →
          wp (unpark_main spawn t) (λ _ ps9,
            thread t ps9 = mkThread (th_cache (thread t ps5)) (th_borrowed (thread t ps))
                             (th_stack (thread t ps)) Open ∧
            (∃ u x, ps_unparker ps9 = Some u ∧ ps_parkers ps9 !! u = Some x ∧ pk_token x = true) ∧
            (panicked = false → Unpark p ∉ es2 ++ es3 ++ es4 → quiet p ps9)) ps8) ps6) ps4) ps2) ps.
Proof.
  intros Hspawn Hr Hopen. pose proof (reachable_ok ps Hspawn Hr) as Hok.
  destruct (calls_stack_thread 0 t ps Hok) as [Hst _].
  destruct (stack_ok_borrowed _ _ _ Hst) as [Hb _].
  eapply wp_mono; [by apply enter_wp|]. cbn beta. intros p ps1 (Hok1 & Hl & _ & _ & _ & _).
  assert (negb (th_borrowed (thread t ps)) = bool_decide (th_stack (thread t ps) = [])) as Hneg.
  { rewrite Hb. by destruct (th_stack (thread t ps)). }
  rewrite Hneg in Hl. split_and!; [done| |].
  { intros Hnil. rewrite Hnil in Hl. destruct (calls_stack_thread 0 t ps1 Hok1) as [Hst1 _].
    rewrite Hl in Hst1. by inversion Hst1. }
  intros es1 ps2 Hrun1 Hd1 Hk2. pose proof (run_calls_ok _ _ _ Hspawn Hok1 Hrun1) as Hok2.
  pose proof (run_stack t es1 ps1 0 0 _ ps2 Hspawn Hok1 Hrun1 Hd1 eq_refl) as Hl2.
  cbn in Hl2. rewrite Hl in Hl2.
  eapply wp_mono; [by apply (finish_call_wp t panicked _ _ ps2 Hok2 Hl2)|]. cbn beta.
  intros _ ps3 (Hok3 & Hth3 & _ & _ & _ & Hq3 & _). split; [done|].
  intros es2 ps4 Hrun2 Hd2 Hk4. pose proof (run_calls_ok _ _ _ Hspawn Hok3 Hrun2) as Hok4.
  pose proof (run_stack t es2 ps3 0 0 _ ps4 Hspawn Hok3 Hrun2 Hd2 eq_refl) as Hl4.
  cbn in Hl4. rewrite Hth3 in Hl4. cbn in Hl4.
  eapply wp_mono; [by apply (release_wp t _ _ ps4 Hok4 Hl4)|]. cbn beta.
  intros _ ps5 (Hok5 & Hth5 & _ & Hu5 & _ & Hp5).
  assert (th_borrowed (thread t ps5) = th_borrowed (thread t ps)) as Hb5 by (rewrite Hth5; cbn; by rewrite Hb).
  split_and!; [by rewrite Hth5|done|].
  intros es3 ps6 Hrun3 Hne3. pose proof (run_calls_ok _ _ _ Hspawn Hok5 Hrun3) as Hok6.
  assert (thread t ps6 = thread t ps5) as Hth6 by (eapply run_uncounting; by rewrite ?Hth5).
  eapply wp_mono; [apply (uncount_wp t ps6 Hok6); by rewrite Hth6, Hth5|]. cbn beta.
  intros _ ps7 (Hok7 & Hth7 & _ & Hu7 & Hc7 & Hp7). split; [done|].
  intros es4 ps8 Hrun4 Hne4. pose proof (run_calls_ok _ _ _ Hspawn Hok7 Hrun4) as Hok8.
  assert (thread t ps8 = thread t ps7) as Hth8 by (eapply run_unparking; by rewrite ?Hth7).
  eapply wp_mono; [apply (unpark_main_wp t ps8 Hspawn Hok8); by rewrite Hth8, Hth7|]. cbn beta.
  intros _ ps9 (_ & Hth9 & _ & Hq9 & Hmain). split_and!; [|done|].
  - rewrite Hth9, Hth8, Hth7, Hth6. cbn. rewrite Hb5. by rewrite Hth5.
  - intros Hpan Hun. rewrite !not_elem_of_app in Hun. destruct Hun as (Hn2 & Hn3 & Hn4).
    apply Hq9. eapply (run_quiet p es4); [done|exact Hok7|done|done|].
    eapply quiet_kept; [by intros; rewrite Hp7|done|].
    eapply (run_quiet p es3); [done|exact Hok5|done|done|].
    eapply quiet_kept; [by intros; rewrite Hp5|done|].
    eapply (run_quiet p es2); [done|exact Hok3|done|done|by apply Hq3].
Qed.
End facts.

(** * Witnesses: two threads, one of them in a call within a call *)

Definition spawn_ok : Z → io_result unit := λ _, Ok tt.

(** The steps of the end of a call. *)
Definition ending (t : Z) (panicked : bool) : list Ev :=
  [Finish t panicked; Release t; Uncount t; UnparkMain t].
Definition two_steps : list Ev :=
  [Enter 1; Enter 2] ++ ending 2 true ++ [Enter 1; Enter 2].
Definition two_threads : Process bool :=
  default Process_new (run spawn_ok two_steps Process_new).

Lemma calls_reachable {P : Type} `{ParkerOps P} (spawn : Z → io_result unit) (es : list Ev)
    (ps ps' : Process P) :
  reachable spawn ps → run spawn es ps = Some ps' → reachable spawn ps'.
Proof.
  revert ps. induction es as [|e es IH]; intros ps Hr Hrun; cbn in Hrun; [by simplify_eq|].
  apply bind_Some in Hrun as (ps1 & He & Hrun). eapply IH; [|done]. by eapply reach_step.
Qed.

Lemma two_threads_reachable : reachable spawn_ok two_threads.
Proof.
  apply (calls_reachable spawn_ok two_steps Process_new); [apply reach_new|]. vm_compute. exact eq_refl.
Qed.

Lemma calls_have_own_parkers_witness :
  reachable spawn_ok two_threads ∧
  th_stack (thread 1 two_threads) = [mkFrame 3 false false; mkFrame 0 true false] ∧
  th_stack (thread 2 two_threads) = [mkFrame 1 true false] ∧
  ps_count two_threads = 3 ∧ ps_spawned two_threads = [2].
Proof.
  destruct (calls_have_own_parkers spawn_ok two_threads) as (_ & _ & Hc & Hs);
    [done|apply two_threads_reachable|].
  split_and!; [apply two_threads_reachable| | |rewrite Hc|rewrite Hs]; vm_compute; done.
Defined.

(** A call whose future calls [block_on] itself, is woken when it is ready, and again when it
    is dropped: the parker is left with the token of the last wake. *)
Definition polled_steps : list Ev := Enter 1 :: Unpark 4 :: ending 1 false.
Definition dropped_steps : list Ev := [Unpark 4] ++ ending 2 false.
Definition after_enter (ps : Process bool) : Process bool :=
  match enter 1 ps with Ret (_, ps) => ps | _ => ps end.
Definition after (es : list Ev) (ps : Process bool) : Process bool :=
  default Process_new (run spawn_ok es ps).
Definition inner : Process bool := after polled_steps (after_enter two_threads).
Definition inner_dropped : Process bool := after dropped_steps (after [Finish 1 false] inner).

Lemma call_unwinds_witness :
  ∃ ps5, release 1 inner_dropped = Ret (tt, ps5) ∧
    th_stack (thread 1 ps5) = [mkFrame 3 false false; mkFrame 0 true false] ∧
    th_borrowed (thread 1 ps5) = true ∧ ps_parkers ps5 !! 4 = Some true.
Proof.
  destruct (call_unwinds spawn_ok 1 false two_threads)
    as (p & ps1 & He & _ & _ & H1); [done|apply two_threads_reachable|by vm_compute|].
  assert (ps1 = after_enter two_threads) as -> by (unfold after_enter; by rewrite He).
  destruct (H1 polled_steps inner) as ([] & ps3 & Hf & _ & H2); [by vm_compute..|].
  assert (ps3 = after [Finish 1 false] inner) as ->.
  { vm_compute in Hf. injection Hf as <-. vm_compute. exact eq_refl. }
  destruct (H2 dropped_steps inner_dropped) as ([] & ps5 & Hrel & Hl & Hb & _); [by vm_compute..|].
  exists ps5. split_and!; [exact Hrel|rewrite Hl; by vm_compute|rewrite Hb; by vm_compute|].
  vm_compute in Hrel. by injection Hrel as <-.
Defined.
End Calls.
