(* ===== verification/System.v ===== *)
(** The reactor under interleaving: tasks that create, poll and drop I/O sources, futures
    and timers, while a thread runs rounds of [react]. A step is what the code does under
    one acquisition of a lock (src/src/reactor.rs, all of it). *)
From S2P Require Import Prelude Std Deps Registration RefDeps World RefWorld Timers.
From S2P Require Import Source Reactor Ready.

Module System.

(** * A round of [react], in steps *)

(** Where the thread that holds the lock of the reactor is. *)
Inductive Phase : Type :=
  | Idle (res : io_result unit)          (* no round runs; the result of the last one *)
  | Prepared (timeout : option Duration) (wakers : list Waker)
  | Bumped (tick : Z) (timeout : option Duration) (wakers : list Waker)
  | TimedOut (timeout : option Duration) (wakers : list Waker)
  | Waited (tick : Z) (evs : list Event) (wakers : list Waker)
  | Delivering (tick : Z) (evs : list Event) (wakers : list Waker)  (* [sources] locked *)
  | Waking (wakers : list Waker) (res : io_result unit).

Section system.
  Context {Slab Queue : Type → Type} {Reg Env : Type}.
  Context `{SlabOps Slab, QueueOps Queue, EnvOps Env, RegOps Reg Env, EqDecision Reg, CallOps Reg Env}.
  Local Abbreviation World := (World Slab Queue Reg Env).

(** The first step of a round, and the following ones. *)
Definition round_start (timeout : option Duration) : M World Phase :=
  '(timeout, wakers) ← react_prepare timeout;
  mret (Prepared timeout wakers).

Definition round_step (ph : Phase) : M World Phase :=
  match ph with
  | Idle res => mret (Idle res)
  | Prepared timeout wakers =>
      tick ← bump_ticker;
      mret (Bumped tick timeout wakers)
  | Bumped tick timeout wakers =>
      res ← env_call (λ e, env_wait e timeout);
      mret (match res with
            | Ok (n, evs) =>
                if decide (n = 0) then TimedOut timeout wakers else Waited tick evs wakers
            | Err Interrupted => Waking wakers (Ok tt)
            | Err err => Waking wakers (Err err)
            end)
  | TimedOut timeout wakers =>
      '(_, wakers) ←
        (if decide (timeout = Some (from_secs 0))
         then mret (None, wakers) else process_timers wakers);
      mret (Waking wakers (Ok tt))
  | Waited tick evs wakers => mret (Delivering tick evs wakers)
  | Delivering tick [] wakers => mret (Waking wakers (Ok tt))
  | Delivering tick (ev :: evs) wakers =>
      '(res, wakers) ← react_event tick ev wakers;
      mret (match res with
            | Ok _ => Delivering tick evs wakers
            | Err err => Idle (Err err)
            end)
  | Waking [] res => mret (Idle res)
  | Waking (waker :: wakers) res => wake waker ;; mret (Waking wakers res)
  end.

(** A round run to its end without interference. *)
Inductive round : Phase → World → io_result unit → World → Prop :=
  | round_idle res w : round (Idle res) w res w
  | round_more ph ph' w w' res w'' :
      (∀ res, ph ≠ Idle res) → round_step ph w = Ret (ph', w') →
      round ph' w' res w'' → round ph w res w''.

(** * The system *)

(** Who waits, for each the waker it left and how many wakes had been made by then: the
    futures that were last answered [Pending], the directions of sources whose
    [poll_ready] was, and the timers that are set. *)
Record Waits : Type := mkWaits {
  of_futs : gmap Z (Waker * nat);
  of_polls : gmap (loc * Dir) (Waker * nat);
  of_timers : gmap (Z * Z) (Waker * nat);
}.
Definition set_of_futs (m : gmap Z (Waker * nat)) (ws : Waits) : Waits :=
  mkWaits m (of_polls ws) (of_timers ws).
Definition set_of_polls (m : gmap (loc * Dir) (Waker * nat)) (ws : Waits) : Waits :=
  mkWaits (of_futs ws) m (of_timers ws).
Definition set_of_timers (m : gmap (Z * Z) (Waker * nat)) (ws : Waits) : Waits :=
  mkWaits (of_futs ws) (of_polls ws) m.

Record Sys : Type := mkSys {
  s_w : World;
  s_ph : Phase;
  s_futs : gmap Z ReadyFut;        (* the futures that exist, named *)
  s_waits : Waits;                 (* who waits *)
  s_handles : gset loc;            (* the sources of live adapters *)
  s_adding : gset loc;             (* those between the two blocks of [insert_io] *)
  s_errs : bool;                   (* the poller has refused to modify an interest *)
  s_log : list (Z * loc * Dir);    (* what was delivered: round, source, direction *)
}.

(** What a thread does next. *)
Inductive Ev : Type :=
  | EInsert (raw : Reg)
  | EAdd (l : loc)
  | ERemove (l : loc)
  | EPollReady (l : loc) (d : Dir) (cx : Waker)
  | ENewFut (id : Z) (l : loc) (d : Dir)
  | EPollFut (id : Z) (cx : Waker)
  | EDropFut (id : Z)
  | EPushTimer (when : Instant) (k : Waker)   (* [insert_timer] up to [notify], then [ENotify] *)
  | ERemoveTimer (when : Instant) (id : Z)
  | ECall (c : Call Reg Env)             (* a call of the operating system *)
  | ENotify
  | EReact (timeout : option Duration)
  | ERound.

(** [sources] is not locked by the round. *)
Definition sources_free (ph : Phase) : Prop :=
  match ph with Delivering _ _ _ => False | _ => True end.
#[export] Instance sources_free_dec ph : Decision (sources_free ph).
Proof. destruct ph; apply _. Defined.

(** No source is registered as [r]. *)
Definition unused (r : Reg) (s : Sys) : Prop :=
  set_Forall (λ l, src_registration <$> w_heap (s_w s) !! l ≠ Some r)
    (s_handles s ∪ s_adding s).

(** What the borrow checker and the locks let happen: an adapter is used while it is
    alive, which outlives the futures that borrow it, and owns its handle, which no one
    else closes; locks are free; and counters have not been exhausted. *)
Definition guard (e : Ev) (s : Sys) : Prop :=
  match e with
  | EInsert _ => sources_free (s_ph s)
  | EAdd l => l ∈ s_adding s
  | ERemove l =>
      l ∈ s_handles s ∧ sources_free (s_ph s) ∧
      map_Forall (λ _ f, rd_source f ≠ l) (s_futs s)
  | EPollReady l _ _ => l ∈ s_handles s
  | ENewFut id l _ => l ∈ s_handles s ∧ s_futs s !! id = None
  | EPollFut id _ | EDropFut id => is_Some (s_futs s !! id)
  | EPushTimer _ _ => w_id_generator (s_w s) + 1 < USIZE_MOD
  | ERemoveTimer _ _ | ENotify => True
  | ECall c => match call_closes c with Some r => unused r s | None => True end
  | EReact _ => match s_ph s with Idle _ => True | _ => False end
  | ERound =>
      match s_ph s with
      | Idle _ => False
      | Prepared _ _ => w_ticker (s_w s) + 1 < USIZE_MOD
      | _ => True
      end
  end.
#[export] Instance guard_dec e s : Decision (guard e s).
Proof.
  destruct e as [| | | | | | | | |c| | |]; cbn; try apply _; [|destruct (s_ph s); apply _..].
  destruct (call_closes c); [unfold unused|]; apply _.
Defined.

(** The directions an event is delivered to. *)
Definition deliveries (ph : Phase) (w : World) : list (Z * loc * Dir) :=
  match ph with
  | Delivering tick (ev :: _) _ =>
      match slab_get (w_sources w) (ev_key ev) with
      | Some l => (λ d, (tick, l, d)) <$> filter (λ d, ev_flag ev d = true) [WRITE; READ]
      | None => []
      end
  | _ => []
  end.

Definition failed {A} (r : Poll (io_result A)) : bool :=
  match r with Prelude.Ready (Err _) => true | _ => false end.

(** Whoever is answered [Pending] waits. *)
Definition wait_of {K A} `{Countable K} (r : Poll (io_result A)) (key : K) (cx : Waker)
    (w : World) (waits : gmap K (Waker * nat)) : gmap K (Waker * nat) :=
  match r with
  | Pending => <[key := (cx, length (w_woken w))]> waits
  | Prelude.Ready _ => delete key waits
  end.

(** The world a step leads to; [None] when it panics. *)
Definition effect {A} (m : M World A) (w : World) : option (A * World) :=
  match m w with Ret p => Some p | _ => None end.

Definition exec (e : Ev) (s : Sys) : option Sys :=
  let w := s_w s in
  if decide (guard e s) then
    match e with
    | EInsert raw =>
        '(l, w) ← effect (insert_io_entry raw) w;
        Some (mkSys w (s_ph s) (s_futs s) (s_waits s) (s_handles s) ({[ l ]} ∪ s_adding s)
                (s_errs s) (s_log s))
    | EAdd l =>
        '(r, w) ← effect (insert_io_register l) w;
        Some (mkSys w (s_ph s) (s_futs s) (s_waits s)
                (match r with Ok _ => {[ l ]} ∪ s_handles s | Err _ => s_handles s end)
                (s_adding s ∖ {[ l ]}) (s_errs s) (s_log s))
    | ERemove l =>
        '(_, w) ← effect (remove_io l) w;
        Some (mkSys w (s_ph s) (s_futs s)
                (set_of_polls (filter (λ e, e.1.1 ≠ l) (of_polls (s_waits s))) (s_waits s))
                (s_handles s ∖ {[ l ]}) (s_adding s) (s_errs s) (s_log s))
    | EPollReady l d cx =>
        '(r, w) ← effect (poll_ready l d cx) w;
        Some (mkSys w (s_ph s) (s_futs s)
                (set_of_polls (wait_of r (l, d) cx w (of_polls (s_waits s))) (s_waits s))
                (s_handles s) (s_adding s) (s_errs s || failed r) (s_log s))
    | ENewFut id l d =>
        Some (mkSys w (s_ph s) (<[id := ready l d]> (s_futs s)) (s_waits s) (s_handles s)
                (s_adding s) (s_errs s) (s_log s))
    | EPollFut id cx =>
        f ← s_futs s !! id;
        '((r, f), w) ← effect (ready_poll f cx) w;
        Some (mkSys w (s_ph s) (<[id := f]> (s_futs s))
                (set_of_futs (wait_of r id cx w (of_futs (s_waits s))) (s_waits s))
                (s_handles s) (s_adding s) (s_errs s || failed r) (s_log s))
    | EDropFut id =>
        f ← s_futs s !! id;
        '(_, w) ← effect (ready_drop f) w;
        Some (mkSys w (s_ph s) (delete id (s_futs s))
                (set_of_futs (delete id (of_futs (s_waits s))) (s_waits s))
                (s_handles s) (s_adding s) (s_errs s) (s_log s))
    | EPushTimer when k =>
        '(id, w) ← effect (push_timer when k) w;
        Some (mkSys w (s_ph s) (s_futs s)
                (set_of_timers (<[(when, id) := (k, length (w_woken w))]>
                                  (of_timers (s_waits s))) (s_waits s))
                (s_handles s) (s_adding s) (s_errs s) (s_log s))
    | ERemoveTimer when id =>
        '(_, w) ← effect (remove_timer when id) w;
        Some (mkSys w (s_ph s) (s_futs s)
                (set_of_timers (delete (when, id) (of_timers (s_waits s))) (s_waits s))
                (s_handles s) (s_adding s) (s_errs s) (s_log s))
    | ECall c =>
        Some (mkSys (set_env (call_effect c (w_env w)) w) (s_ph s) (s_futs s) (s_waits s)
                (s_handles s) (s_adding s) (s_errs s) (s_log s))
    | ENotify =>
        '(_, w) ← effect notify w;
        Some (mkSys w (s_ph s) (s_futs s) (s_waits s) (s_handles s) (s_adding s) (s_errs s)
                (s_log s))
    | EReact timeout =>
        '(ph, w) ← effect (round_start timeout) w;
        Some (mkSys w ph (s_futs s) (s_waits s) (s_handles s) (s_adding s) (s_errs s) (s_log s))
    | ERound =>
        '(ph, w') ← effect (round_step (s_ph s)) w;
        Some (mkSys w' ph (s_futs s) (s_waits s) (s_handles s) (s_adding s)
                (s_errs s || match s_ph s, ph with
                             | Delivering _ _ _, Idle (Err _) => true
                             | _, _ => false
                             end)
                (s_log s ++ deliveries (s_ph s) w))
    end
  else None.

(** A system that starts. *)
Definition initial (e : Env) : Sys :=
  mkSys (reactor_new e) (Idle (Ok tt)) ∅ (mkWaits ∅ ∅ ∅) ∅ ∅ false [].

(** A sequence of steps. *)
Fixpoint run (evs : list Ev) (s : Sys) : option Sys :=
  match evs with
  | [] => Some s
  | ev :: evs => s ← exec ev s; run evs s
  end.

Inductive reachable : Sys → Prop :=
  | reach_initial e : reachable (initial e)
  | reach_step s s' ev : reachable s → exec ev s = Some s' → reachable s'.
End system.

(** * Invariant *)

(** The events of a round that have not been delivered yet. *)
Definition in_flight (ph : Phase) : list Event :=
  match ph with
  | Waited _ evs _ | Delivering _ evs _ => evs
  | _ => []
  end.

(** The wakers a round has collected and is going to wake. *)
Definition ph_wakers (ph : Phase) : list Waker :=
  match ph with
  | Idle _ => []
  | Prepared _ wakers | Bumped _ _ wakers | TimedOut _ wakers | Waited _ _ wakers
  | Delivering _ _ wakers | Waking wakers _ => wakers
  end.

(** Remembered ticks [(a, b)], of a time when [a] rounds had begun and the direction had
    the tick [b], against its tick [t] when [n] rounds have begun. *)
Definition ticks_ok (o : option (Z * Z)) (t n : Z) : Prop :=
  ∀ a b, o = Some (a, b) → 0 ≤ b ≤ a ∧ a ≤ n ∧ (t = b ∨ a ≤ t).

Definition phase_ok (ph : Phase) (ticker : Z) : Prop :=
  match ph with
  | Bumped tick _ _ | Waited tick _ _ | Delivering tick _ _ => tick = ticker
  | _ => True
  end.

Section inv.
  Context {Slab Queue : Type → Type} {Reg Env : Type}.
  Context `{SlabOps Slab, QueueOps Queue, EnvOps Env, RegOps Reg Env}.
  Context `{!SlabLaws Slab, !QueueLaws Queue, !ClockLaws Env, !RegLaws Reg Env}.
  Local Abbreviation World := (World Slab Queue Reg Env).
  Local Abbreviation Source := (Source Slab Reg).

(** A direction, between rounds and within them. *)
Record dir_ok (ticker : Z) (log : list (Z * loc * Dir)) (l : loc) (d : Dir)
    (x : Direction Slab) : Prop := {
  dir_tick : 0 ≤ tick x ≤ ticker;
  dir_logged : tick x = 0 ∨ (tick x, l, d) ∈ log;
  dir_last : ∀ t, (t, l, d) ∈ log → t ≤ tick x;
  dir_ticks : ticks_ok (ticks x) (tick x) ticker;
}.

(** The source of a live adapter is known to the poller under its key; and whoever waits
    for it is taken into account: by the poller, or by an event in flight that will have
    the interest stated again. *)
Definition known (w : World) (src : Source) : Prop :=
  ∃ ev, interest (w_env w) (src_registration src) = Some ev ∧ ev_key ev = src_key src.
Definition covered (w : World) (ph : Phase) (src : Source) : Prop :=
  ∀ d, is_empty (dir_get (src_state src) d) = false →
    (∃ ev, interest (w_env w) (src_registration src) = Some ev ∧ ev_flag ev d = true) ∨
    (∃ ev, ev ∈ in_flight ph ∧ ev_key ev = src_key src).

Record source_ok (w : World) (ph : Phase) (handles adding : gset loc) (errs : bool)
    (log : list (Z * loc * Dir)) (l : loc) (src : Source) : Prop := {
  source_dirs : ∀ d, dir_ok (w_ticker w) log l d (dir_get (src_state src) d);
  source_adding : l ∈ adding → ∀ d, is_empty (dir_get (src_state src) d) = true;
  source_known : l ∈ handles → known w src;
  source_covered : l ∈ handles → errs = false → covered w ph src;
}.

Record fut_ok (w : World) (handles : gset loc) (f : ReadyFut) : Prop := {
  fut_handle : rd_source f ∈ handles;
  fut_slot : slot_ok w f;
  fut_ticks : ∀ src, w_heap w !! rd_source f = Some src →
    ticks_ok (rd_ticks f) (tick (dir_get (src_state src) (rd_dir f))) (w_ticker w);
  fut_started : rd_index f = None → rd_ticks f = None;
}.

(** Two futures do not share a slot. *)
Definition slots_apart (f g : ReadyFut) : Prop :=
  rd_source f = rd_source g → rd_dir f = rd_dir g →
  ∀ i, rd_index f = Some i → rd_index g = Some i → False.

(** The waker [k] is in the slot of the future. *)
Definition holds (w : World) (f : ReadyFut) (k : Waker) : Prop :=
  ∃ src i, w_heap w !! rd_source f = Some src ∧ rd_index f = Some i ∧
    slab_map (wakers (dir_get (src_state src) (rd_dir f))) !! i = Some (Some k).

(** The waker [k] is that of the [poll_ready] of a direction. *)
Definition holds_dir (w : World) (l : loc) (d : Dir) (k : Waker) : Prop :=
  ∃ src, w_heap w !! l = Some src ∧ waker (dir_get (src_state src) d) = Some k.

(** Whoever waits with [k], since [n] wakes had been made, is where it can be [held],
    collected, or has been woken since; unless the poller has failed. *)
Record waiting (errs : bool) (w : World) (ph : Phase) (held : Prop) (k : Waker) (n : nat)
    : Prop := {
  waiting_since : (n ≤ length (w_woken w))%nat;
  waiting_where : errs = false → held ∨ k ∈ ph_wakers ph ∨ k ∈ drop n (w_woken w);
}.

Record waits_ok (errs : bool) (w : World) (ph : Phase) (futs : gmap Z ReadyFut)
    (waits : Waits) (handles : gset loc) : Prop := {
  wait_fut : ∀ id k n, of_futs waits !! id = Some (k, n) →
    ∃ f, futs !! id = Some f ∧ waiting errs w ph (holds w f k) k n;
  wait_poll : ∀ l d k n, of_polls waits !! (l, d) = Some (k, n) →
    l ∈ handles ∧ waiting errs w ph (holds_dir w l d k) k n;
  wait_timer : ∀ key k n, of_timers waits !! key = Some (k, n) →
    waiting errs w ph (live_timers w !! key = Some k) k n;
}.

Record sys_ok (s : Sys (Slab := Slab) (Queue := Queue) (Reg := Reg) (Env := Env)) : Prop := {
  ok_sources : sources_ok (s_w s);
  ok_timers : timers_inv (s_w s);
  ok_ticker : 0 ≤ w_ticker (s_w s) < USIZE_MOD;
  ok_phase : phase_ok (s_ph s) (w_ticker (s_w s));
  ok_table : ∀ k l, slab_map (w_sources (s_w s)) !! k = Some l →
    l ∈ s_handles s ∪ s_adding s;
  ok_registered : ∀ l, l ∈ s_handles s ∪ s_adding s → registered (s_w s) l;
  ok_disjoint : s_handles s ## s_adding s;
  ok_log : ∀ t l d, (t, l, d) ∈ s_log s → is_Some (w_heap (s_w s) !! l);
  ok_source : ∀ l src, w_heap (s_w s) !! l = Some src →
    source_ok (s_w s) (s_ph s) (s_handles s) (s_adding s) (s_errs s) (s_log s) l src;
  ok_fut : ∀ id f, s_futs s !! id = Some f → fut_ok (s_w s) (s_handles s) f;
  ok_apart : ∀ i j f g, s_futs s !! i = Some f → s_futs s !! j = Some g → i ≠ j →
    slots_apart f g;
  ok_waits : waits_ok (s_errs s) (s_w s) (s_ph s) (s_futs s) (s_waits s) (s_handles s);
}.
End inv.
End System.
