(* ===== verification/Steps.v ===== *)
(** The steps of the interleaved system keep its invariant, and none that may be taken
    panics. *)
From S2P Require Import Prelude Std Deps Registration RefDeps World RefWorld Timers.
From S2P Require Import Source Reactor Ready System.
Import System.

Section facts.
Context {Slab Queue : Type → Type} {Reg Env : Type}.
Context `{SlabOps Slab, QueueOps Queue, EnvOps Env, RegOps Reg Env, EqDecision Reg, CallOps Reg Env}.
Context `{!SlabLaws Slab, !QueueLaws Queue, !ClockLaws Env, !NotifyLaws Env, !RegLaws Reg Env}.
Context `{!CallLaws Reg Env}.
Local Abbreviation World := (World Slab Queue Reg Env).
Local Abbreviation Source := (Source Slab Reg).
Local Abbreviation Sys := (Sys (Slab := Slab) (Queue := Queue) (Reg := Reg) (Env := Env)).
Implicit Types (w : World) (src : Source) (s : Sys).

(** ** What does not change the sources *)

Lemma interest_event_flag k (st : Directions Slab) d :
  ev_flag (interest_event k st) d = negb (is_empty (dir_get st d)).
Proof. by destruct d. Qed.

Lemma ticks_ok_later o t n n' : ticks_ok o t n → n ≤ n' → ticks_ok o t n'.
Proof. intros Hok Hle a b Ho. destruct (Hok a b Ho) as (? & ? & ?). split_and!; lia || done. Qed.

Lemma ticks_ok_delivered o t n : ticks_ok o t n → ticks_ok o n n.
Proof. intros Hok a b Ho. destruct (Hok a b Ho) as (? & ? & ?). split_and!; lia || (right; lia). Qed.

Lemma ticks_ok_now t n : 0 ≤ t ≤ n → ticks_ok (Some (n, t)) t n.
Proof. intros Ht a b [= <- <-]. split_and!; lia || by left. Qed.

(** A delivery after the ticks were taken. *)
Lemma ticks_ok_fresh a b t n :
  ticks_ok (Some (a, b)) t n → event_delivered (Some (a, b)) t = true ↔ a < t.
Proof.
  intros Hok. destruct (Hok a b eq_refl) as ((? & ?) & ? & Hcase).
  rewrite event_delivered_true. split.
  - intros (a' & b' & [= <- <-] & Ha & Hb). destruct Hcase; lia.
  - intros Hlt. exists a, b. split_and!; [done|lia|lia].
Qed.

Lemma dir_ok_later n n' log log' l d (x : Direction Slab) :
  dir_ok n log l d x → n ≤ n' → log ⊆ log' → (∀ t, (t, l, d) ∈ log' → (t, l, d) ∈ log) →
  dir_ok n' log' l d x.
Proof.
  intros [Ht Hl Hm Hs] Hle Hlog Hnew. split; [lia| |by eauto|by eapply ticks_ok_later].
  destruct Hl as [?|?]; [by left|right; by apply Hlog].
Qed.

(** Two live adapters are registered differently. *)
Lemma handles_distinct s l l' src src' :
  sys_ok s → l ∈ s_handles s → l' ∈ s_handles s →
  w_heap (s_w s) !! l = Some src → w_heap (s_w s) !! l' = Some src' →
  src_registration src = src_registration src' → l = l'.
Proof.
  intros Hok Hh Hh' Hl Hl' Hr.
  destruct (source_known _ _ _ _ _ _ _ _ (ok_source _ Hok _ _ Hl) Hh) as (ev & Hev & Hk).
  destruct (source_known _ _ _ _ _ _ _ _ (ok_source _ Hok _ _ Hl') Hh') as (ev' & Hev' & Hk').
  rewrite <- Hr, Hev in Hev'. injection Hev' as <-.
  destruct (ok_registered _ Hok l) as (src1 & Hl1 & Ht); [set_solver|].
  destruct (ok_registered _ Hok l') as (src2 & Hl2 & Ht'); [set_solver|].
  congruence.
Qed.

(** ** Who waits *)

(** What a step does to the wakers that are collected or have been woken. *)
Record onward s w' (ph' : Phase) (errs' : bool) : Prop := {
  onward_errs : errs' = false → s_errs s = false;
  onward_woken : w_woken (s_w s) `prefix_of` w_woken w';
  onward_collected : errs' = false → ∀ k m, k ∈ ph_wakers (s_ph s) →
    (m ≤ length (w_woken (s_w s)))%nat → k ∈ ph_wakers ph' ∨ k ∈ drop m (w_woken w');
}.

Lemma onward_same s w' ph' errs' :
  (errs' = false → s_errs s = false) → w_woken (s_w s) `prefix_of` w_woken w' →
  (errs' = false → ph_wakers (s_ph s) ⊆ ph_wakers ph') → onward s w' ph' errs'.
Proof. intros He Hw Hks. split; [done|done|]. intros He' k m Hk _. left. by apply Hks. Qed.

Lemma waiting_onward s w' ph' errs' (held held' : Prop) k n :
  onward s w' ph' errs' → (errs' = false → held → held' ∨ k ∈ ph_wakers ph') →
  waiting (s_errs s) (s_w s) (s_ph s) held k n → waiting errs' w' ph' held' k n.
Proof.
  intros [He [ks Hks] Hph] Hheld [Hn Hwh]. split.
  - rewrite Hks, length_app. lia.
  - intros He'. destruct (Hwh (He He')) as [Hh|[Hk|Hk]].
    + destruct (Hheld He' Hh); auto.
    + destruct (Hph He' k n Hk Hn); auto.
    + right. right. rewrite Hks, drop_app. apply elem_of_app. by left.
Qed.

Lemma waits_kept s w' ph' errs' :
  sys_ok s → onward s w' ph' errs' →
  (∀ id f k, s_futs s !! id = Some f → errs' = false → holds (s_w s) f k →
     holds w' f k ∨ k ∈ ph_wakers ph') →
  (∀ l d k, errs' = false → holds_dir (s_w s) l d k →
     holds_dir w' l d k ∨ k ∈ ph_wakers ph') →
  (∀ key k, errs' = false → live_timers (s_w s) !! key = Some k →
     live_timers w' !! key = Some k ∨ k ∈ ph_wakers ph') →
  waits_ok errs' w' ph' (s_futs s) (s_waits s) (s_handles s).
Proof.
  intros Hok Hon Hf Hp Ht. destruct (ok_waits _ Hok) as [Hwf Hwp Hwt]. split.
  - intros id k n Hw. destruct (Hwf _ _ _ Hw) as (f & Hid & Hwait). exists f. split; [done|].
    eapply waiting_onward; [done| |done]. by apply Hf with id.
  - intros l d k n Hw. destruct (Hwp _ _ _ _ Hw) as [Hin Hwait]. split; [done|].
    eapply waiting_onward; [done| |done]. apply Hp.
  - intros key k n Hw. eapply waiting_onward; [done| |by apply Hwt]. apply Ht.
Qed.

Lemma holds_dir_heap w w' l d k : w_heap w' = w_heap w → holds_dir w l d k → holds_dir w' l d k.
Proof. intros Hh (src & ?). exists src. by rewrite Hh. Qed.

Lemma live_timers_eq w w' :
  w_timers w' = w_timers w → w_timer_ops w' = w_timer_ops w → live_timers w' = live_timers w.
Proof. unfold live_timers. by intros -> ->. Qed.

Lemma holds_heap w w' f k : w_heap w' = w_heap w → holds w f k → holds w' f k.
Proof. intros Hh (src & i & ?). exists src, i. by rewrite Hh. Qed.

(** Steps that leave the sources and the ticker alone, and what the poller knows. *)
Lemma sys_ok_env s w' ph' waits' :
  sys_ok s → timers_inv w' → w_ticker w' = w_ticker (s_w s) →
  w_sources w' = w_sources (s_w s) → w_heap w' = w_heap (s_w s) →
  (∀ l src, l ∈ s_handles s → w_heap (s_w s) !! l = Some src →
     interest (w_env w') (src_registration src) = interest (w_env (s_w s)) (src_registration src)) →
  phase_ok ph' (w_ticker w') → (∀ ev, ev ∈ in_flight (s_ph s) → ev ∈ in_flight ph') →
  waits_ok (s_errs s) w' ph' (s_futs s) waits' (s_handles s) →
  sys_ok (mkSys w' ph' (s_futs s) waits' (s_handles s) (s_adding s) (s_errs s) (s_log s)).
Proof.
  intros Hok Htim Htick Hsrc Hheap Hint Hph Hfl Hwaits. rewrite Htick in Hph.
  pose proof Hok as [].
  split; cbn; rewrite ?Htick; try done.
  - by eapply sources_ok_io.
  - by rewrite Hsrc.
  - intros l Hl. by eapply registered_io, ok_registered0.
  - by rewrite Hheap.
  - intros l src. rewrite Hheap. intros Hl. destruct (ok_source0 _ _ Hl). split.
    + intros d. by rewrite Htick.
    + done.
    + intros Hh. unfold known. rewrite (Hint _ _ Hh Hl). exact (source_known0 Hh).
    + intros Hh He d Hd. destruct (source_covered0 Hh He d Hd) as [Hc|(ev & Hin & Hk)].
      * left. by rewrite (Hint _ _ Hh Hl).
      * right. exists ev. auto.
  - intros id f Hf. destruct (ok_fut0 _ _ Hf). split; cbn; rewrite ?Htick, ?Hheap; try done.
    unfold slot_ok. by rewrite Hheap.
Qed.

(** Those that only concern timers, and who waits for them. *)
Lemma waits_timers s w' ph' timers' :
  sys_ok s → onward s w' ph' (s_errs s) → w_heap w' = w_heap (s_w s) →
  (∀ key k n, timers' !! key = Some (k, n) →
     waiting (s_errs s) w' ph' (live_timers w' !! key = Some k) k n) →
  waits_ok (s_errs s) w' ph' (s_futs s) (set_of_timers timers' (s_waits s)) (s_handles s).
Proof.
  intros Hok Hon Hheap Ht. destruct (ok_waits _ Hok) as [Hwf Hwp _]. split; [| |done].
  - intros id k n Hw. destruct (Hwf _ _ _ Hw) as (f & Hid & Hwait). exists f. split; [done|].
    eapply waiting_onward; [done| |done]. intros _ Hh. left. by eapply holds_heap.
  - intros l d k n Hw. destruct (Hwp _ _ _ _ Hw) as [Hin Hwait]. split; [done|].
    eapply waiting_onward; [done| |done]. intros _ Hh. left. by eapply holds_dir_heap.
Qed.

Lemma sys_ok_same s w' ph' waits' :
  sys_ok s → timers_inv w' → same_io (s_w s) w' →
  (∀ l src, l ∈ s_handles s → w_heap (s_w s) !! l = Some src →
     interest (w_env w') (src_registration src) = interest (w_env (s_w s)) (src_registration src)) →
  phase_ok ph' (w_ticker (s_w s)) → in_flight (s_ph s) ⊆ in_flight ph' →
  waits_ok (s_errs s) w' ph' (s_futs s) waits' (s_handles s) →
  sys_ok (mkSys w' ph' (s_futs s) waits' (s_handles s) (s_adding s) (s_errs s) (s_log s)).
Proof.
  intros Hok Htim [Ht Hs Hh Hw] Hint Hph Hfl Hwaits. apply sys_ok_env; try done.
  by rewrite Ht.
Qed.

(** The timers are processed: those that are due are collected. *)
Lemma waits_processed s w' ph' now :
  sys_ok s → same_io (s_w s) w' → ph_wakers (s_ph s) ⊆ ph_wakers ph' →
  live_timers w' = later now (live_timers (s_w s)) →
  (btree_iter (due now (live_timers (s_w s)))).*2 ⊆ ph_wakers ph' →
  waits_ok (s_errs s) w' ph' (s_futs s) (s_waits s) (s_handles s).
Proof.
  intros Hok [_ _ Hh Hw] Hks Hl Hdue.
  apply waits_kept; [done|apply onward_same; [done|by rewrite Hw|done]| | |].
  - intros id f k _ _ Hhold. left. by eapply holds_heap.
  - intros l d k _ Hhold. left. by eapply holds_dir_heap.
  - intros key k _ Hk. rewrite Hl, lookup_later. case_decide as Hnow; [right|by left].
    apply Hdue, list_elem_of_fmap. exists (key, k). split; [done|].
    apply elem_of_btree_iter. by rewrite lookup_due, decide_True.
Qed.

(** ** A step that writes the state of one source *)

(** [w'] is [w] with the state of [l] and the environment replaced, and tasks woken. *)
Record writes w (l : loc) src (st : Directions Slab) (e : Env) w' : Prop := {
  writes_lookup : w_heap w !! l = Some src;
  writes_heap : w_heap w' = <[l := set_src_state st src]> (w_heap w);
  writes_env : w_env w' = e;
  writes_ticker : w_ticker w' = w_ticker w;
  writes_sources : w_sources w' = w_sources w;
  writes_timers : w_timers w' = w_timers w;
  writes_timer_ops : w_timer_ops w' = w_timer_ops w;
  writes_id_generator : w_id_generator w' = w_id_generator w;
  writes_woken : w_woken w `prefix_of` w_woken w';
}.

Lemma writes_state w l src st e :
  w_heap w !! l = Some src → writes w l src st e (with_state l src st e w).
Proof. by split. Qed.

Lemma writes_state_woken w l src st e ks :
  w_heap w !! l = Some src →
  writes w l src st e (set_woken (w_woken w ++ ks) (with_state l src st e w)).
Proof. split; try done. by eexists. Qed.

Lemma holds_writes w l src st e w' f k :
  writes w l src st e w' →
  (rd_source f = l → ∀ i, rd_index f = Some i →
     slab_map (wakers (dir_get (src_state src) (rd_dir f))) !! i = Some (Some k) →
     slab_map (wakers (dir_get st (rd_dir f))) !! i = Some (Some k)) →
  holds w f k → holds w' f k.
Proof.
  intros Hw Hslot (src0 & i & Hl & Hi & Hk). pose proof (writes_lookup _ _ _ _ _ _ Hw) as Hl0.
  unfold holds. rewrite (writes_heap _ _ _ _ _ _ Hw).
  destruct (decide (rd_source f = l)) as [Heq|Hne].
  - rewrite Heq, lookup_insert_eq. rewrite Heq, Hl0 in Hl. injection Hl as <-.
    eexists _, i. split_and!; [done|done|]. by apply Hslot.
  - rewrite lookup_insert_ne by done. by exists src0, i.
Qed.

Lemma writes_ids w l src st e w' l' :
  writes w l src st e w' → src_id <$> w_heap w' !! l' = src_id <$> w_heap w !! l'.
Proof.
  intros [Hl Hh _ _ _ _ _ _ _]. rewrite Hh. destruct (decide (l' = l)) as [->|Hne].
  - by rewrite lookup_insert_eq, Hl.
  - by rewrite lookup_insert_ne.
Qed.

Lemma writes_lookup_id w l src st e w' l' src' :
  writes w l src st e w' → w_heap w !! l' = Some src' →
  ∃ src'', w_heap w' !! l' = Some src'' ∧ src_id src'' = src_id src'.
Proof.
  intros Hw Hl'. pose proof (writes_ids _ _ _ _ _ _ l' Hw) as Hid. rewrite Hl' in Hid.
  by apply fmap_Some in Hid as (src'' & ? & ?); eexists.
Qed.

Lemma writes_sources_ok w l src st e w' : writes w l src st e w' → sources_ok w → sources_ok w'.
Proof.
  intros Hw Hok k l'. rewrite (writes_sources _ _ _ _ _ _ Hw). intros Hk.
  destruct (Hok _ _ Hk) as (src' & Hl' & Hkey).
  destruct (writes_lookup_id _ _ _ _ _ _ _ _ Hw Hl') as (src'' & ? & Hid).
  exists src''. split; [done|]. injection Hid. congruence.
Qed.

Lemma writes_registered w l src st e w' l' :
  writes w l src st e w' → registered w l' → registered w' l'.
Proof.
  intros Hw (src' & Hl' & Hk).
  destruct (writes_lookup_id _ _ _ _ _ _ _ _ Hw Hl') as (src'' & ? & Hid).
  exists src''. split; [done|]. rewrite (writes_sources _ _ _ _ _ _ Hw).
  injection Hid. congruence.
Qed.

Lemma holds_dir_writes w l src st e w' l' d k :
  writes w l src st e w' →
  (l' = l → waker (dir_get (src_state src) d) = Some k → waker (dir_get st d) = Some k) →
  holds_dir w l' d k → holds_dir w' l' d k.
Proof.
  intros Hw Hd (src0 & Hl & Hk). pose proof (writes_lookup _ _ _ _ _ _ Hw) as Hl0.
  unfold holds_dir. rewrite (writes_heap _ _ _ _ _ _ Hw).
  destruct (decide (l' = l)) as [->|Hne].
  - rewrite lookup_insert_eq. rewrite Hl0 in Hl. injection Hl as <-.
    eexists. split; [done|]. by apply Hd.
  - rewrite lookup_insert_ne by done. by exists src0.
Qed.

Lemma live_timers_writes w l src st e w' :
  writes w l src st e w' → live_timers w' = live_timers w.
Proof.
  intros Hw. apply live_timers_eq; [apply (writes_timers _ _ _ _ _ _ Hw)|].
  apply (writes_timer_ops _ _ _ _ _ _ Hw).
Qed.

(** A future that the write respects. *)
Lemma fut_ok_writes w l src st e w' handles f :
  writes w l src st e w' → fut_ok w handles f →
  (rd_source f = l → ∀ i, rd_index f = Some i →
     is_Some (slab_map (wakers (dir_get (src_state src) (rd_dir f))) !! i) →
     is_Some (slab_map (wakers (dir_get st (rd_dir f))) !! i)) →
  (∀ d, tick (dir_get st d) = tick (dir_get (src_state src) d) ∨
        tick (dir_get st d) = w_ticker w) →
  fut_ok w' handles f.
Proof.
  intros [Hl Hh _ Ht _ _ _ _ _] [Hhd (s0 & Hs0 & Hslot) Hticks Hst] Hslots Htick.
  split; [done| | |done].
  - unfold slot_ok. rewrite Hh. destruct (decide (rd_source f = l)) as [Heq|Hne].
    + rewrite Heq, lookup_insert_eq. eexists. split; [done|]. intros i Hi. cbn.
      rewrite Heq, Hl in Hs0. injection Hs0 as <-. by apply Hslots, Hslot.
    + rewrite lookup_insert_ne by done. by exists s0.
  - intros src'. rewrite Hh, Ht. destruct (decide (rd_source f = l)) as [Heq|Hne].
    + rewrite Heq, lookup_insert_eq. intros [= <-]. cbn. rewrite Heq in Hticks.
      destruct (Htick (rd_dir f)) as [-> | ->]; [by apply Hticks|].
      by eapply ticks_ok_delivered, Hticks.
    + rewrite lookup_insert_ne by done. apply Hticks.
Qed.

Lemma sys_ok_writes s l src st e w' ph' futs' waits' errs' log' :
  sys_ok s → writes (s_w s) l src st e w' →
  (∀ d, dir_ok (w_ticker (s_w s)) log' l d (dir_get st d)) →
  (l ∈ s_adding s → ∀ d, is_empty (dir_get st d) = true) →
  (∀ r, r ≠ src_registration src ∨ l ∉ s_handles s →
     interest e r = interest (w_env (s_w s)) r) →
  (l ∈ s_handles s → known w' (set_src_state st src)) →
  (l ∈ s_handles s → errs' = false → covered w' ph' (set_src_state st src)) →
  (∀ ev l' src', errs' = false → ev ∈ in_flight (s_ph s) → l' ∈ s_handles s → l' ≠ l →
     w_heap (s_w s) !! l' = Some src' → ev_key ev = src_key src' → ev ∈ in_flight ph') →
  (errs' = false → s_errs s = false) → s_log s ⊆ log' →
  (∀ t l' d, (t, l', d) ∈ log' → (t, l', d) ∈ s_log s ∨ l' = l) →
  phase_ok ph' (w_ticker (s_w s)) →
  (∀ id f, futs' !! id = Some f → fut_ok w' (s_handles s) f) →
  (∀ i j f g, futs' !! i = Some f → futs' !! j = Some g → i ≠ j → slots_apart f g) →
  waits_ok errs' w' ph' futs' waits' (s_handles s) →
  sys_ok (mkSys w' ph' futs' waits' (s_handles s) (s_adding s) errs' log').
Proof.
  intros Hok Hw Hdirs Hadd Hint Hknown Hcov Hfl Herrs Hlog Hnew Hph Hfuts Hapart Hwaits.
  pose proof Hw as [Hl Hh He Ht Hs Htm Hto Hid _].
  assert (∀ l' src', l' ∈ s_handles s → l' ≠ l → w_heap (s_w s) !! l' = Some src' →
    interest e (src_registration src') = interest (w_env (s_w s)) (src_registration src'))
    as Hother.
  { intros l' src' Hh' Hne Hl'. apply Hint.
    destruct (decide (l ∈ s_handles s)) as [Hin|]; [left|by right].
    intros Heq. apply Hne. by eapply (handles_distinct s). }
  split; cbn; rewrite ?Ht, ?Hs.
  - by eapply writes_sources_ok, ok_sources.
  - eapply timers_inv_eq; [done..|by apply ok_timers].
  - by apply ok_ticker.
  - done.
  - by apply ok_table.
  - intros l' Hl'. by eapply writes_registered, ok_registered.
  - by apply ok_disjoint.
  - intros t l' d [Hin| ->]%Hnew; rewrite Hh, lookup_insert_is_Some'; [right|by left].
    by eapply ok_log.
  - intros l' src'. rewrite Hh. destruct (decide (l' = l)) as [->|Hne].
    + rewrite lookup_insert_eq. intros [= <-]. split; rewrite ?Ht; auto.
    + rewrite lookup_insert_ne by done. intros Hl'.
      destruct (ok_source _ Hok _ _ Hl') as [Hd Ha Hk Hc]. split; rewrite ?Ht.
      * intros d. eapply dir_ok_later; try done. by intros t [?|?]%Hnew.
      * done.
      * intros Hh'. unfold known. rewrite He, (Hother _ _ Hh' Hne Hl'). exact (Hk Hh').
      * intros Hh' Hf d Hd'. rewrite He, (Hother _ _ Hh' Hne Hl').
        destruct (Hc Hh' (Herrs Hf) d Hd') as [?|(ev & Hin & Hkey)]; [by left|right].
        exists ev. split; [|done]. by eapply Hfl.
  - done.
  - done.
  - done.
Qed.

(** A poll states the interest of its source again if its direction was empty. *)
Lemma asked_ok s l src st d0 res e w' :
  sys_ok s → l ∈ s_handles s → writes (s_w s) l src st e w' →
  (∀ d, d ≠ d0 → dir_get st d = dir_get (src_state src) d) →
  asked src st (is_empty (dir_get (src_state src) d0)) (s_w s) res e →
  (∀ r, r ≠ src_registration src → interest e r = interest (w_env (s_w s)) r) ∧
  known w' (set_src_state st src) ∧
  (s_errs s || failed res = false → covered w' (s_ph s) (set_src_state st src)).
Proof.
  intros Hok Hh Hw Hsame Ha. pose proof Hw as [Hl Hheap He _ _ _ _ _ _].
  destruct (ok_source _ Hok _ _ Hl) as [_ _ Hk Hc]. specialize (Hk Hh). specialize (Hc Hh).
  unfold asked, known, covered in *. rewrite He. cbn [src_registration set_src_state src_key src_state].
  destruct (is_empty (dir_get (src_state src) d0)) eqn:Hempty.
  - destruct Ha as (r & Hm & ->). destruct r as [[]|x].
    + destruct (reg_modify_ok _ _ _ _ Hm) as [(ev & Hev & Hkey & Hr & Hwr) Ho].
      split_and!; [exact Ho|by exists ev|]. intros _ d Hd. left. exists ev. split; [done|].
      rewrite <- negb_true_iff in Hd. by destruct d; [apply Hr|apply Hwr].
    + pose proof (reg_modify_err _ _ _ _ _ Hm) as Ho. split_and!; [by auto|by rewrite Ho|].
      rewrite orb_true_r. done.
  - destruct Ha as [-> ->]. split_and!; [done|done|]. rewrite orb_false_r.
    intros Hf d Hd. apply (Hc Hf). destruct (decide (d = d0)) as [->|Hne]; [done|].
    by rewrite <- Hsame.
Qed.

(** Delivering an event re-arms its source. *)
Lemma rearmed_ok s l src st ev evs wakers tick e w' :
  sys_ok s → slab_map (w_sources (s_w s)) !! ev_key ev = Some l → src_key src = ev_key ev →
  s_ph s = Delivering tick (ev :: evs) wakers →
  (l ∈ s_adding s → ∀ d, is_empty (dir_get st d) = true) →
  writes (s_w s) l src st e w' → rearmed src st (s_w s) (Ok tt) e →
  (∀ r, r ≠ src_registration src ∨ l ∉ s_handles s →
     interest e r = interest (w_env (s_w s)) r) ∧
  (l ∈ s_handles s → known w' (set_src_state st src)) ∧
  (l ∈ s_handles s → s_errs s = false →
     covered w' (Delivering tick evs wakers) (set_src_state st src)).
Proof.
  intros Hok Hk Hkey Hph Hadd Hw Hr. pose proof Hw as [Hl Hheap He _ _ _ _ _ _].
  destruct (ok_source _ Hok _ _ Hl) as [_ _ Hkn _].
  unfold rearmed, known, covered in *. rewrite He.
  cbn [src_registration set_src_state src_key src_state].
  destruct (is_empty (dir_get st READ)) eqn:HR, (is_empty (dir_get st WRITE)) eqn:HW;
    cbn [negb orb] in Hr.
  { destruct Hr as [_ ->]. split_and!; [done|done|]. intros _ _ d Hd. by destruct d; congruence. }
  all: destruct (reg_modify_ok _ _ _ _ Hr) as [(ev' & Hev & Hkey' & Hrd & Hwr) Ho].
  all: split_and!;
    [|by exists ev'|intros _ _ d Hd; left; exists ev'; split; [done|];
       rewrite <- negb_true_iff in Hd; by destruct d; [apply Hrd|apply Hwr]].
  all: intros r [Hne|Hnin]; [by apply Ho|].
  all: assert (l ∈ s_adding s) as Hadd' by
         (pose proof (ok_table _ Hok _ _ Hk); set_solver).
  all: pose proof (Hadd Hadd' READ); pose proof (Hadd Hadd' WRITE); congruence.
Qed.

(** ** Each step is possible, and keeps the invariant *)

Definition good (ev : Ev) s : Prop := ∃ s', exec ev s = Some s' ∧ sys_ok s'.

Lemma effect_wp {A} (m : M World A) Q w (k : A * World → option Sys) :
  wp m Q w → (∀ a w', Q a w' → ∃ s', k (a, w') = Some s' ∧ sys_ok s') →
  ∃ s', (effect m w ≫= k) = Some s' ∧ sys_ok s'.
Proof.
  intros (a & w' & Hm & HQ) Hk. unfold effect. rewrite Hm. cbn. by apply Hk.
Qed.

Lemma push_timer_good when k s :
  sys_ok s → guard (EPushTimer when k) s → good (EPushTimer when k) s.
Proof.
  intros Hok Hg. unfold good, exec. rewrite decide_True by done.
  pose proof (ok_timers _ Hok) as Hinv.
  eapply effect_wp; [by apply push_timer_wp, inv_queue|].
  intros id w' (-> & Hl & Hq & Hid & He & Hio). eexists. split; [done|].
  cbn in Hg. rewrite usize_wrap_small in Hid by (pose proof (inv_id_pos _ Hinv); lia).
  apply sys_ok_same; try done.
  - split; [done| |rewrite Hid; pose proof (inv_id_pos _ Hinv); lia].
    intros key. rewrite Hl, lookup_insert_is_Some, Hid.
    intros [<-|[_ Hk]]; cbn; [pose proof (inv_id_pos _ Hinv); lia|].
    pose proof (inv_ids _ Hinv _ Hk). lia.
  - intros l src _ _. by rewrite He.
  - by apply ok_phase.
  - pose proof Hio as [_ _ Hh Hw].
    assert (onward s w' (s_ph s) (s_errs s)) as Hon by (by apply onward_same; rewrite ?Hw).
    apply waits_timers; [done..|]. intros key k' n. rewrite Hl.
    intros [[<- [= <- <-]]|[Hne Hk]]%lookup_insert_Some.
    + split; [done|]. intros _. left. by rewrite lookup_insert_eq.
    + eapply waiting_onward; [done| |by eapply wait_timer, Hk; apply ok_waits].
      intros _ Hk'. left. by rewrite lookup_insert_ne.
Qed.

Lemma remove_timer_good when id s :
  sys_ok s → good (ERemoveTimer when id) s.
Proof.
  intros Hok. unfold good, exec. rewrite decide_True by done.
  pose proof (ok_timers _ Hok) as Hinv.
  eapply effect_wp; [by apply remove_timer_wp, inv_queue|].
  intros [] w' (Hl & Hq & He & Hid & Hio). eexists. split; [done|].
  apply sys_ok_same; try done.
  - eapply timers_inv_sub; try done. rewrite Hl. apply delete_subseteq.
  - intros l src _ _. by rewrite He.
  - by apply ok_phase.
  - pose proof Hio as [_ _ Hh Hw].
    assert (onward s w' (s_ph s) (s_errs s)) as Hon by (by apply onward_same; rewrite ?Hw).
    apply waits_timers; [done..|]. intros key k' n [Hne Hk]%lookup_delete_Some.
    eapply waiting_onward; [done| |by eapply wait_timer, Hk; apply ok_waits].
    intros _ Hk'. left. by rewrite Hl, lookup_delete_ne.
Qed.

(** Steps that change the environment only. *)
Lemma sys_ok_set_env s e :
  sys_ok s →
  (∀ l src, l ∈ s_handles s → w_heap (s_w s) !! l = Some src →
     interest e (src_registration src) = interest (w_env (s_w s)) (src_registration src)) →
  sys_ok (mkSys (set_env e (s_w s)) (s_ph s) (s_futs s) (s_waits s) (s_handles s)
            (s_adding s) (s_errs s) (s_log s)).
Proof.
  intros Hok Hint. apply sys_ok_same; try done.
  - by apply (timers_inv_eq (s_w s)), ok_timers.
  - by apply ok_phase.
  - apply waits_kept; [done|by apply onward_same|by left..].
Qed.

Lemma call_good c s : sys_ok s → guard (ECall c) s → good (ECall c) s.
Proof.
  intros Hok Hg. unfold good, exec. rewrite decide_True by done. eexists. split; [done|].
  apply sys_ok_set_env; [done|]. intros l src Hh Hl. apply call_interest. intros Hc.
  cbn in Hg. rewrite Hc in Hg. apply (Hg l); [set_solver|]. by rewrite Hl.
Qed.

Lemma notify_good s : sys_ok s → good ENotify s.
Proof.
  intros Hok. unfold good, exec. rewrite decide_True by done.
  eapply effect_wp; [by apply (notify_wp (λ _ w', w' = set_env (env_notify (w_env (s_w s))).2 (s_w s)))|].
  intros _ w' ->. eexists. split; [done|]. apply sys_ok_set_env; [done|].
  intros l src _ _. apply env_notify_interest.
Qed.

(** A step that empties directions, if it changes them, and leaves the poller alone. *)
Lemma quiet_ok s l src st w' :
  sys_ok s → l ∈ s_handles s → writes (s_w s) l src st (w_env (s_w s)) w' →
  (∀ d, is_empty (dir_get st d) = false → is_empty (dir_get (src_state src) d) = false) →
  known w' (set_src_state st src) ∧
  (s_errs s = false → covered w' (s_ph s) (set_src_state st src)).
Proof.
  intros Hok Hh [Hl _ He _ _ _ _ _ _] Hemp.
  destruct (ok_source _ Hok _ _ Hl) as [_ _ Hk Hc]. specialize (Hk Hh). specialize (Hc Hh).
  unfold known, covered in *. rewrite He. split; [exact Hk|].
  intros Hf d Hd. by apply (Hc Hf), Hemp.
Qed.

(** A task polls or drops: one direction of a live source is written. *)
Lemma sys_ok_task s l src d0 x e w' futs' waits' errs' :
  sys_ok s → l ∈ s_handles s → writes (s_w s) l src (dir_set (src_state src) d0 x) e w' →
  tick x = tick (dir_get (src_state src) d0) → ticks_ok (ticks x) (tick x) (w_ticker (s_w s)) →
  (∀ r, r ≠ src_registration src → interest e r = interest (w_env (s_w s)) r) →
  known w' (set_src_state (dir_set (src_state src) d0 x) src) →
  (errs' = false → covered w' (s_ph s) (set_src_state (dir_set (src_state src) d0 x) src)) →
  (errs' = false → s_errs s = false) →
  (∀ id f, futs' !! id = Some f → fut_ok w' (s_handles s) f) →
  (∀ i j f g, futs' !! i = Some f → futs' !! j = Some g → i ≠ j → slots_apart f g) →
  waits_ok errs' w' (s_ph s) futs' waits' (s_handles s) →
  sys_ok (mkSys w' (s_ph s) futs' waits' (s_handles s) (s_adding s) errs' (s_log s)).
Proof.
  intros Hok Hh Hw Ht Hts Hint Hk Hc Herrs Hfuts Hap Hwaits.
  pose proof (writes_lookup _ _ _ _ _ _ Hw) as Hl.
  destruct (ok_source _ Hok _ _ Hl) as [Hdirs _ _ _].
  eapply sys_ok_writes; try done.
  - intros d. destruct (decide (d0 = d)) as [<-|Hne].
    + rewrite dir_get_set_eq. destruct (Hdirs d0). by split; [rewrite Ht..|].
    + rewrite dir_get_set_ne by done. apply Hdirs.
  - intros Ha. pose proof (ok_disjoint _ Hok). set_solver.
  - intros r [?|?]; [by apply Hint|done].
  - intros. by left.
  - by apply ok_phase.
Qed.

(** The futures are not concerned by what happens to the waker of a [poll_ready]. *)
Lemma fut_ok_poll w l src d0 x e w' handles f :
  writes w l src (dir_set (src_state src) d0 x) e w' →
  wakers x = wakers (dir_get (src_state src) d0) →
  tick x = tick (dir_get (src_state src) d0) → fut_ok w handles f → fut_ok w' handles f.
Proof.
  intros Hw Hws Ht Hf. eapply fut_ok_writes; [done|done| |].
  - intros _ i _. destruct (decide (d0 = rd_dir f)) as [<-|Hne].
    + by rewrite dir_get_set_eq, Hws.
    + by rewrite dir_get_set_ne.
  - intros d. left. destruct (decide (d0 = d)) as [<-|Hne].
    + by rewrite dir_get_set_eq.
    + by rewrite dir_get_set_ne.
Qed.

Lemma tick_range s l src d :
  sys_ok s → w_heap (s_w s) !! l = Some src →
  0 ≤ tick (dir_get (src_state src) d) ≤ w_ticker (s_w s).
Proof. intros Hok Hl. by eapply dir_tick, source_dirs, ok_source. Qed.

Lemma ticks_kept s l src d :
  sys_ok s → w_heap (s_w s) !! l = Some src →
  ticks_ok (ticks (dir_get (src_state src) d)) (tick (dir_get (src_state src) d))
    (w_ticker (s_w s)).
Proof. intros Hok Hl. by eapply dir_ticks, source_dirs, ok_source. Qed.

(** The waits of the others, when the state of a source is written. *)
Lemma writes_onward s l src st e w' errs' :
  writes (s_w s) l src st e w' → (errs' = false → s_errs s = false) →
  onward s w' (s_ph s) errs'.
Proof. intros Hw He. by apply onward_same; [|apply (writes_woken _ _ _ _ _ _ Hw)|]. Qed.

Lemma wait_fut_writes s l src st e w' errs' id k n :
  sys_ok s → writes (s_w s) l src st e w' → (errs' = false → s_errs s = false) →
  (∀ f i, s_futs s !! id = Some f → rd_source f = l → rd_index f = Some i →
     slab_map (wakers (dir_get (src_state src) (rd_dir f))) !! i = Some (Some k) →
     slab_map (wakers (dir_get st (rd_dir f))) !! i = Some (Some k)) →
  of_futs (s_waits s) !! id = Some (k, n) →
  ∃ f, s_futs s !! id = Some f ∧ waiting errs' w' (s_ph s) (holds w' f k) k n.
Proof.
  intros Hok Hw Herr Hslot Hk. destruct (wait_fut _ _ _ _ _ _ (ok_waits _ Hok) _ _ _ Hk)
    as (f & Hf & Hwait). exists f. split; [done|].
  eapply waiting_onward; [by eapply writes_onward| |done]. intros _ Hh. left.
  eapply holds_writes; [done| |done]. intros Hs i. by apply Hslot.
Qed.

Lemma wait_poll_writes s l src st e w' errs' l' d k n :
  sys_ok s → writes (s_w s) l src st e w' → (errs' = false → s_errs s = false) →
  (l' = l → waker (dir_get (src_state src) d) = Some k → waker (dir_get st d) = Some k) →
  of_polls (s_waits s) !! (l', d) = Some (k, n) →
  l' ∈ s_handles s ∧ waiting errs' w' (s_ph s) (holds_dir w' l' d k) k n.
Proof.
  intros Hok Hw Herr Hd Hk. destruct (wait_poll _ _ _ _ _ _ (ok_waits _ Hok) _ _ _ _ Hk)
    as [Hin Hwait]. split; [done|].
  eapply waiting_onward; [by eapply writes_onward| |done]. intros _ Hh. left.
  by eapply holds_dir_writes.
Qed.

Lemma wait_timer_writes s l src st e w' errs' key k n :
  sys_ok s → writes (s_w s) l src st e w' → (errs' = false → s_errs s = false) →
  of_timers (s_waits s) !! key = Some (k, n) →
  waiting errs' w' (s_ph s) (live_timers w' !! key = Some k) k n.
Proof.
  intros Hok Hw Herr Hk.
  eapply waiting_onward; [by eapply writes_onward| |by eapply wait_timer, Hk; apply ok_waits].
  intros _ ?. left. by rewrite (live_timers_writes _ _ _ _ _ _ Hw).
Qed.

Lemma sys_eta s : mkSys (s_w s) (s_ph s) (s_futs s) (s_waits s) (s_handles s) (s_adding s)
  (s_errs s) (s_log s) = s.
Proof. by destruct s. Qed.

Lemma sys_ok_futs s futs' waits' :
  sys_ok s → (∀ id f, futs' !! id = Some f → fut_ok (s_w s) (s_handles s) f) →
  (∀ i j f g, futs' !! i = Some f → futs' !! j = Some g → i ≠ j → slots_apart f g) →
  waits_ok (s_errs s) (s_w s) (s_ph s) futs' waits' (s_handles s) →
  sys_ok (mkSys (s_w s) (s_ph s) futs' waits' (s_handles s) (s_adding s) (s_errs s) (s_log s)).
Proof. intros [] Hf Ha Hw. by split. Qed.

(** Who waits after a [poll_ready]. *)
Lemma waits_polled s l src d x e w' errs' (r : Poll (io_result ())) cx :
  sys_ok s → l ∈ s_handles s → writes (s_w s) l src (dir_set (src_state src) d x) e w' →
  (errs' = false → s_errs s = false) →
  wakers x = wakers (dir_get (src_state src) d) → (r = Pending → waker x = Some cx) →
  waits_ok errs' w' (s_ph s) (s_futs s)
    (set_of_polls (wait_of r (l, d) cx w' (of_polls (s_waits s))) (s_waits s)) (s_handles s).
Proof.
  intros Hok Hin Hw Herr Hws Hcx. split; cbn.
  - intros id k n. eapply wait_fut_writes; try done.
    intros f i _ _ _. destruct (decide (d = rd_dir f)) as [<-|Hne].
    + by rewrite dir_get_set_eq, Hws.
    + by rewrite dir_get_set_ne.
  - intros l' d' k n Hk. destruct (decide ((l, d) = (l', d'))) as [[= <- <-]|Hne].
    + destruct r as [|]; cbn in Hk; [by rewrite lookup_delete_eq in Hk|].
      rewrite lookup_insert_eq in Hk. injection Hk as <- <-. split; [done|]. split; [done|].
      intros _. left. eexists. rewrite (writes_heap _ _ _ _ _ _ Hw), lookup_insert_eq.
      split; [done|]. cbn. rewrite dir_get_set_eq. by apply Hcx.
    + eapply wait_poll_writes; [done|done|done| |].
      * intros ->. rewrite dir_get_set_ne; [done|congruence].
      * destruct r; cbn in Hk; [by rewrite lookup_delete_ne in Hk|by rewrite lookup_insert_ne in Hk].
  - intros key k n. by eapply wait_timer_writes.
Qed.

Lemma poll_ready_good l d cx s :
  sys_ok s → guard (EPollReady l d cx) s → good (EPollReady l d cx) s.
Proof.
  intros Hok Hg. unfold good, exec. rewrite decide_True by done. cbn in Hg.
  destruct (ok_registered _ Hok l) as (src & Hl & Hk); [set_solver|].
  eapply (effect_wp _ (λ r w', sys_ok (mkSys w' (s_ph s) (s_futs s)
    (set_of_polls (wait_of r (l, d) cx w' (of_polls (s_waits s))) (s_waits s))
    (s_handles s) (s_adding s) (s_errs s || failed r) (s_log s))));
    [|intros r w' HQ; eexists; split; [reflexivity|exact HQ]].
  apply (poll_ready_wp l src); [done|..].
  - intros _. cbn [failed]. rewrite orb_false_r.
    set (x := set_ticks None (dir_get (src_state src) d)).
    assert (writes (s_w s) l src (dir_set (src_state src) d x) (w_env (s_w s))
      (with_state l src (dir_set (src_state src) d x) (w_env (s_w s)) (s_w s))) as Hw
      by by apply writes_state.
    destruct (quiet_ok _ _ _ _ _ Hok Hg Hw) as [Hkn Hc].
    { intros d'. destruct (decide (d = d')) as [<-|Hne].
      - by rewrite dir_get_set_eq.
      - by rewrite dir_get_set_ne. }
    eapply sys_ok_task; try done.
    + intros id f Hf. eapply fut_ok_poll; [done|done|done|by eapply ok_fut].
    + apply (ok_apart _ Hok).
    + by eapply waits_polled.
  - intros _ Hcx. cbn [failed]. rewrite orb_false_r.
    apply sys_ok_futs; [done|by apply ok_fut|by apply (ok_apart _ Hok)|].
    eapply (waits_polled s l src d (dir_get (src_state src) d) (w_env (s_w s))); try done.
    split; try done. rewrite dir_set_get. destruct src. by rewrite insert_id.
  - intros _ _ res e Ha. set (x := set_ticks _ _) in *.
    set (w' := set_woken _ _).
    assert (writes (s_w s) l src (dir_set (src_state src) d x) e w') as Hw
      by by apply writes_state_woken.
    destruct (asked_ok _ _ _ _ _ _ _ _ Hok Hg Hw
      ltac:(intros d' Hne; by apply dir_get_set_ne) Ha) as (Hint & Hkn & Hc).
    assert (s_errs s || failed res = false → s_errs s = false) as Herr
      by by intros [? _]%orb_false_iff.
    eapply sys_ok_task; try done.
    + by eapply ticks_ok_now, tick_range.
    + intros id f Hf. eapply fut_ok_poll; [done|done|done|by eapply ok_fut].
    + apply (ok_apart _ Hok).
    + by eapply waits_polled.
Qed.

(** *** The futures *)

(** A future is replaced, or added. *)
Lemma apart_insert (futs : gmap Z ReadyFut) id f' :
  (∀ i j f g, futs !! i = Some f → futs !! j = Some g → i ≠ j → slots_apart f g) →
  (∀ j g, futs !! j = Some g → j ≠ id → slots_apart f' g) →
  ∀ i j f g, <[id := f']> futs !! i = Some f → <[id := f']> futs !! j = Some g → i ≠ j →
    slots_apart f g.
Proof.
  intros Hap Hnew i j f g Hi Hj Hne.
  apply lookup_insert_Some in Hi as [[<- <-]|[Hi1 Hi]];
    apply lookup_insert_Some in Hj as [[<- <-]|[Hj1 Hj]]; [done| | |by eapply Hap].
  - by eapply Hnew.
  - intros Hs Hd k Hk Hk'. by eapply (Hnew i f); eauto.
Qed.

Lemma new_fut_good id l d s :
  sys_ok s → guard (ENewFut id l d) s → good (ENewFut id l d) s.
Proof.
  intros Hok Hg. unfold good, exec. rewrite decide_True by done. destruct Hg as [Hg Hnone].
  eexists. split; [done|]. apply sys_ok_futs; [done|..].
  - intros id' f [[_ <-]|[_ Hf]]%lookup_insert_Some; [|by eapply ok_fut].
    destruct (ok_registered _ Hok l) as (src & Hl & _); [set_solver|]. by split; [|exists src| |].
  - by apply apart_insert; [apply (ok_apart _ Hok)|].
  - destruct (ok_waits _ Hok) as [Hwf Hwp Hwt]. split; [|done|done].
    intros id' k n Hw. destruct (Hwf _ _ _ Hw) as (f & Hf & ?).
    exists f. rewrite lookup_insert_ne by congruence. done.
Qed.

Lemma slot_of_same f (d : Direction Slab) w i f' :
  slot_of f d w i f' →
  rd_source f' = rd_source f ∧ rd_dir f' = rd_dir f ∧ rd_index f' = Some i.
Proof.
  unfold slot_of. destruct (rd_index f) eqn:Hj; [by intros [-> ->]|by intros [_ ->]].
Qed.

Lemma holds_registered w src ws e w' f f' i cx :
  let d := dir_get (src_state src) (rd_dir f) in
  writes w (rd_source f) src (dir_set (src_state src) (rd_dir f) (set_wakers ws d)) e w' →
  slot_of f d w i f' → slab_map ws = <[i := Some cx]> (slab_map (wakers d)) →
  holds w' f' cx.
Proof.
  intros d Hw Hi Hws. destruct (slot_of_same _ _ _ _ _ Hi) as (Hf1 & Hf2 & Hf3).
  unfold holds. rewrite (writes_heap _ _ _ _ _ _ Hw), Hf1, Hf2, Hf3, lookup_insert_eq.
  eexists _, i. split_and!; [done|done|]. cbn. rewrite dir_get_set_eq. cbn.
  by rewrite Hws, lookup_insert_eq.
Qed.

(** A future after a poll that registered its waker. *)
Lemma fut_ok_registered s l src ws e w' f f' i cx :
  let d := dir_get (src_state src) (rd_dir f) in
  sys_ok s → fut_ok (s_w s) (s_handles s) f → rd_source f = l →
  writes (s_w s) l src (dir_set (src_state src) (rd_dir f) (set_wakers ws d)) e w' →
  slot_of f d (s_w s) i f' → slab_map ws = <[i := Some cx]> (slab_map (wakers d)) →
  fut_ok w' (s_handles s) f'.
Proof.
  intros d Hok [Hh Hs Ht Hst] <- [Hl Hheap _ Htick _ _ _ _ _] Hi Hws. specialize (Ht _ Hl).
  assert (rd_source f' = rd_source f ∧ rd_dir f' = rd_dir f ∧ rd_index f' = Some i ∧
    ticks_ok (rd_ticks f') (tick d) (w_ticker (s_w s))) as (Hf1 & Hf2 & Hf3 & Hf4).
  { unfold slot_of in Hi. destruct (rd_index f) eqn:Hj; [by destruct Hi as [-> ->]|].
    destruct Hi as [_ ->]. split_and!; try done. by eapply ticks_ok_now, tick_range. }
  split; rewrite ?Hf1, ?Hf2, ?Hf3, ?Htick, ?Hheap, ?lookup_insert_eq; try done.
  - unfold slot_ok. rewrite Hheap, Hf1, Hf2, Hf3, lookup_insert_eq. eexists. split; [done|].
    intros i' [= <-]. cbn. rewrite dir_get_set_eq. cbn. rewrite Hws, lookup_insert_eq. eauto.
  - intros src' [= <-]. cbn. by rewrite dir_get_set_eq.
Qed.

(** Its slot is its own. *)
Lemma apart_registered s id f f' (d : Direction Slab) src i j g :
  sys_ok s → s_futs s !! id = Some f → s_futs s !! j = Some g → j ≠ id →
  w_heap (s_w s) !! rd_source f = Some src → dir_get (src_state src) (rd_dir f) = d →
  slot_of f d (s_w s) i f' → slots_apart f' g.
Proof.
  intros Hok Hf Hg Hne Hl Hd Hi. unfold slot_of in Hi. destruct (rd_index f) eqn:Hj.
  - destruct Hi as [-> ->]. by eapply ok_apart.
  - destruct Hi as [Hvac ->]. intros Hs Hdir k [= <-] Hk. cbn in Hs, Hdir.
    destruct (fut_slot _ _ _ (ok_fut _ Hok _ _ Hg)) as (src' & Hl' & Hslot).
    rewrite <- Hs, Hl in Hl'. injection Hl' as <-. specialize (Hslot _ Hk).
    rewrite <- Hdir, Hd, Hvac in Hslot. by destruct Hslot.
Qed.

(** Who waits after a future has been polled or dropped: its slot has changed, no other
    has. *)
Lemma waits_fut s id f src ws e w' errs' futs' m :
  let d := dir_get (src_state src) (rd_dir f) in
  let st := dir_set (src_state src) (rd_dir f) (set_wakers ws d) in
  sys_ok s → writes (s_w s) (rd_source f) src st e w' → (errs' = false → s_errs s = false) →
  (∀ j g k, s_futs s !! j = Some g → id ≠ j → rd_source g = rd_source f →
     rd_index g = Some k → slab_map (wakers (dir_get st (rd_dir g))) !! k =
                           slab_map (wakers (dir_get (src_state src) (rd_dir g))) !! k) →
  (∀ j, id ≠ j → futs' !! j = s_futs s !! j ∧ m !! j = of_futs (s_waits s) !! j) →
  (∀ k n, m !! id = Some (k, n) →
     ∃ f', futs' !! id = Some f' ∧ waiting errs' w' (s_ph s) (holds w' f' k) k n) →
  waits_ok errs' w' (s_ph s) futs' (set_of_futs m (s_waits s)) (s_handles s).
Proof.
  intros d st Hok Hw Herr Hother Hsame Hid. split; cbn.
  - intros j k n Hj. destruct (decide (id = j)) as [<-|Hne]; [by apply Hid|].
    destruct (Hsame j Hne) as [Hf Hm]. rewrite Hf. rewrite Hm in Hj.
    eapply wait_fut_writes; try done. intros g i Hg Hs Hi. by rewrite (Hother j g i).
  - intros l d' k n Hk. eapply wait_poll_writes; [done|done|done| |done].
    intros _. unfold st. destruct (decide (rd_dir f = d')) as [<-|Hne].
    + by rewrite dir_get_set_eq.
    + by rewrite dir_get_set_ne.
  - intros key k n. by eapply wait_timer_writes.
Qed.

(** The slots of the other futures, when one takes its own. *)
Lemma registered_others s id f f' src ws i cx j g k :
  let d := dir_get (src_state src) (rd_dir f) in
  sys_ok s → s_futs s !! id = Some f → w_heap (s_w s) !! rd_source f = Some src →
  slot_of f d (s_w s) i f' → slab_map ws = <[i := Some cx]> (slab_map (wakers d)) →
  s_futs s !! j = Some g → id ≠ j → rd_source g = rd_source f → rd_index g = Some k →
  slab_map (wakers (dir_get (dir_set (src_state src) (rd_dir f) (set_wakers ws d)) (rd_dir g)))
    !! k = slab_map (wakers (dir_get (src_state src) (rd_dir g))) !! k.
Proof.
  intros d Hok Hf Hl Hi Hws Hg Hne Hs Hk. destruct (decide (rd_dir f = rd_dir g)) as [Hdir|Hned].
  - rewrite <- Hdir, dir_get_set_eq. cbn. rewrite Hws, lookup_insert_ne; [done|]. intros <-.
    assert (slots_apart f' g) as Hap by (by eapply (apart_registered s id f f' d src i j)).
    destruct (slot_of_same _ _ _ _ _ Hi) as (Hf1 & Hf2 & Hf3).
    by eapply (Hap ltac:(congruence) ltac:(congruence)).
  - by rewrite dir_get_set_ne.
Qed.

Lemma poll_fut_good id cx s :
  sys_ok s → guard (EPollFut id cx) s → good (EPollFut id cx) s.
Proof.
  intros Hok Hg. unfold good, exec. rewrite decide_True by done.
  destruct Hg as [f Hf]. rewrite Hf. cbn [mbind option_bind].
  pose proof (ok_fut _ Hok _ _ Hf) as Hfok.
  pose proof Hfok as [Hh (src & Hl & Hslot) _ _].
  eapply (effect_wp _ (λ r w', sys_ok (mkSys w' (s_ph s) (<[id := r.2]> (s_futs s))
    (set_of_futs (wait_of r.1 id cx w' (of_futs (s_waits s))) (s_waits s))
    (s_handles s) (s_adding s) (s_errs s || failed r.1) (s_log s))));
    [|intros [r f'] w' HQ; eexists; split; [reflexivity|]; exact HQ].
  apply (ready_poll_wp f src); [done|done|..].
  - intros _. cbn [failed wait_of fst snd]. rewrite orb_false_r, insert_id by done.
    apply sys_ok_futs; [done|by apply ok_fut|by apply (ok_apart _ Hok)|].
    destruct (ok_waits _ Hok) as [Hwf Hwp Hwt]. split; [|done|done].
    intros id' k n. cbn. intros [_ Hw]%lookup_delete_Some. by apply Hwf.
  - intros _ i f' ws res e Hi Hws Ha. set (d := dir_get (src_state src) (rd_dir f)) in *.
    set (w' := with_state _ _ _ _ _).
    assert (writes (s_w s) (rd_source f) src
      (dir_set (src_state src) (rd_dir f) (set_wakers ws d)) e w') as Hw by by apply writes_state.
    destruct (asked_ok _ _ _ _ _ _ _ _ Hok Hh Hw
      ltac:(intros d' Hne; by apply dir_get_set_ne) Ha) as (Hint & Hkn & Hc).
    assert (s_errs s || failed res = false → s_errs s = false) as Herr
      by by intros [? _]%orb_false_iff.
    pose proof (λ j g k, registered_others s id f f' src ws i cx j g k Hok Hf Hl Hi Hws) as Hother.
    fold d in Hother. eapply sys_ok_task; try done.
    + by apply (ticks_kept _ _ _ _ Hok Hl).
    + intros id' g [[_ <-]|[Hne Hf']]%lookup_insert_Some.
      * by eapply fut_ok_registered.
      * eapply fut_ok_writes; [done|by eapply ok_fut| |].
        -- intros Hs k Hk. by rewrite (Hother id' g k).
        -- intros d'. left. destruct (decide (rd_dir f = d')) as [<-|Hned].
           ++ by rewrite dir_get_set_eq.
           ++ by rewrite dir_get_set_ne.
    + apply apart_insert; [apply (ok_apart _ Hok)|]. intros j g Hj Hne.
      by eapply (apart_registered s id f f' d src i j).
    + eapply (waits_fut s id f); try done.
      * intros j Hne. rewrite lookup_insert_ne by done. split; [done|].
        destruct res; cbn; [by rewrite lookup_delete_ne|by rewrite lookup_insert_ne].
      * intros k n Hk. cbn [fst snd]. rewrite lookup_insert_eq. exists f'. split; [done|].
        destruct res; cbn in Hk; [by rewrite lookup_delete_eq in Hk|].
        rewrite lookup_insert_eq in Hk. injection Hk as <- <-. split; [done|].
        intros _. left. by eapply holds_registered.
Qed.

Lemma is_empty_remove (d : Direction Slab) ws i :
  slab_map ws = delete i (slab_map (wakers d)) →
  is_empty (set_wakers ws d) = false → is_empty d = false.
Proof.
  intros Hws. rewrite !is_empty_false. intros [k Hk]. exists k.
  apply elem_of_dir_wakers in Hk. apply elem_of_dir_wakers. cbn in Hk.
  destruct Hk as [?|[j Hj]]; [by left|right; exists j].
  rewrite Hws in Hj. by apply lookup_delete_Some in Hj as [_ ?].
Qed.

(** The slots of the other futures, when one gives its own back. *)
Lemma dropped_others s id f src ws i j g k :
  let d := dir_get (src_state src) (rd_dir f) in
  sys_ok s → s_futs s !! id = Some f → rd_index f = Some i →
  slab_map ws = delete i (slab_map (wakers d)) →
  s_futs s !! j = Some g → id ≠ j → rd_source g = rd_source f → rd_index g = Some k →
  slab_map (wakers (dir_get (dir_set (src_state src) (rd_dir f) (set_wakers ws d)) (rd_dir g)))
    !! k = slab_map (wakers (dir_get (src_state src) (rd_dir g))) !! k.
Proof.
  intros d Hok Hf Hi Hws Hj Hne Hs Hk. destruct (decide (rd_dir f = rd_dir g)) as [Hdir|Hned].
  - rewrite <- Hdir, dir_get_set_eq. cbn. rewrite Hws, lookup_delete_ne; [done|].
    intros ->. by eapply (ok_apart _ Hok id j f g Hf Hj Hne).
  - by rewrite dir_get_set_ne.
Qed.

Lemma drop_fut_good id s :
  sys_ok s → guard (EDropFut id) s → good (EDropFut id) s.
Proof.
  intros Hok Hg. unfold good, exec. rewrite decide_True by done.
  destruct Hg as [f Hf]. rewrite Hf. cbn [mbind option_bind].
  pose proof (ok_fut _ Hok _ _ Hf) as [Hh Hslot _ _].
  assert (∀ i j f g, delete id (s_futs s) !! i = Some f → delete id (s_futs s) !! j = Some g →
    i ≠ j → slots_apart f g) as Hap.
  { intros i j f' g [_ Hi]%lookup_delete_Some [_ Hj]%lookup_delete_Some. by apply (ok_apart _ Hok). }
  eapply (effect_wp _ (λ _ w', sys_ok (mkSys w' (s_ph s) (delete id (s_futs s))
    (set_of_futs (delete id (of_futs (s_waits s))) (s_waits s))
    (s_handles s) (s_adding s) (s_errs s) (s_log s))));
    [|intros [] w' HQ; eexists; split; [reflexivity|exact HQ]].
  apply ready_drop_wp; [done|..].
  - intros _. apply sys_ok_futs; [done| |done|].
    + intros j g [_ Hj]%lookup_delete_Some. by eapply ok_fut.
    + destruct (ok_waits _ Hok) as [Hwf Hwp Hwt]. split; [|done|done].
      intros j k n. cbn. intros [Hne Hw]%lookup_delete_Some.
      rewrite lookup_delete_ne by done. by apply Hwf.
  - intros src i ws Hl Hi Hws. set (d := dir_get (src_state src) (rd_dir f)) in *.
    set (w' := with_state _ _ _ _ _).
    assert (writes (s_w s) (rd_source f) src
      (dir_set (src_state src) (rd_dir f) (set_wakers ws d)) (w_env (s_w s)) w') as Hw
      by by apply writes_state.
    destruct (quiet_ok _ _ _ _ _ Hok Hh Hw) as [Hkn Hc].
    { intros d'. destruct (decide (rd_dir f = d')) as [<-|Hne].
      - rewrite dir_get_set_eq. by apply is_empty_remove with i.
      - by rewrite dir_get_set_ne. }
    pose proof (λ j g k, dropped_others s id f src ws i j g k Hok Hf Hi Hws) as Hother.
    fold d in Hother.
    eapply sys_ok_task; try done; [by apply (ticks_kept _ _ _ _ Hok Hl)|..].
    + intros j g [Hne Hj]%lookup_delete_Some.
      eapply fut_ok_writes; [done|by eapply ok_fut| |].
      * intros Hs k Hk. by rewrite (Hother j g k).
      * intros d'. left. destruct (decide (rd_dir f = d')) as [<-|Hned].
        -- by rewrite dir_get_set_eq.
        -- by rewrite dir_get_set_ne.
    + eapply (waits_fut s id f); try done.
      * intros j Hne. by rewrite !lookup_delete_ne.
      * intros k n Hk. by rewrite lookup_delete_eq in Hk.
Qed.
(** *** The table of sources *)

Lemma is_empty_default : is_empty (Direction_default : Direction Slab) = true.
Proof.
  apply is_empty_true. intros k. rewrite elem_of_dir_wakers. cbn.
  rewrite slab_map_new. intros [?|[j Hj]]; done.
Qed.

Lemma insert_good raw s : sys_ok s → guard (EInsert raw) s → good (EInsert raw) s.
Proof.
  intros Hok Hg. unfold good, exec. rewrite decide_True by done.
  eapply (effect_wp _ (λ l w', sys_ok (mkSys w' (s_ph s) (s_futs s) (s_waits s) (s_handles s)
    ({[ l ]} ∪ s_adding s) (s_errs s) (s_log s))));
    [|intros l w' HQ; eexists; split; [reflexivity|exact HQ]].
  apply insert_io_entry_wp. intros l Hl. set (k := slab_vacant_key _).
  pose proof (slab_vacant (w_sources (s_w s))) as Hvac. fold k in Hvac.
  assert (∀ l', l' ∈ s_handles s ∪ s_adding s → l' ≠ l) as Hfresh.
  { intros l' Hin ->. destruct (ok_registered _ Hok _ Hin) as (src & Hs & _). congruence. }
  assert (∀ l' src, w_heap (s_w s) !! l' = Some src → l' ≠ l) as Hne by (intros; congruence).
  split; cbn; rewrite ?slab_map_insert; fold k.
  - intros k' l'. cbn. rewrite slab_map_insert. fold k.
    intros [[<- <-]|[_ Hk]]%lookup_insert_Some.
    + eexists. by rewrite lookup_insert_eq.
    + destruct (ok_sources _ Hok _ _ Hk) as (src & Hl' & ?). exists src.
      by rewrite lookup_insert_ne by (apply not_eq_sym; eauto).
  - by apply (timers_inv_eq (s_w s)), ok_timers.
  - by apply ok_ticker.
  - by apply ok_phase.
  - intros k' l' [[<- <-]|[_ Hk]]%lookup_insert_Some; [set_solver|].
    pose proof (ok_table _ Hok _ _ Hk). set_solver.
  - intros l' Hin. destruct (decide (l' = l)) as [->|Hnl].
    + eexists. cbn. rewrite slab_map_insert, lookup_insert_eq. split; [done|].
      apply lookup_insert_eq.
    + destruct (ok_registered _ Hok l') as (src & Hl' & Hk); [set_solver|]. exists src.
      cbn. rewrite slab_map_insert. fold k. rewrite !lookup_insert_ne; [done|congruence|done].
  - pose proof (ok_disjoint _ Hok). set_solver.
  - intros t l' d Hin. apply lookup_insert_is_Some'. right. by eapply ok_log.
  - intros l' src [[<- <-]|[Hnl Hl']]%lookup_insert_Some.
    + pose proof (ok_ticker _ Hok). split; cbn.
      * intros d. replace (dir_get _ d) with (Direction_default : Direction Slab) by (by destruct d).
        split; cbn; [lia|by left| |done].
        intros t Hin. apply (ok_log _ Hok) in Hin as [? ?]. congruence.
      * intros _ d. replace (dir_get _ d) with (Direction_default : Direction Slab) by (by destruct d).
        apply is_empty_default.
      * intros Hin. destruct (Hfresh l); [set_solver|done].
      * intros Hin. destruct (Hfresh l); [set_solver|done].
    + destruct (ok_source _ Hok _ _ Hl') as [Hd Ha Hk Hc]. split; cbn; [done| |done|done].
      intros Hin. apply Ha. set_solver.
  - intros id f Hf. destruct (ok_fut _ Hok _ _ Hf) as [Hh (src & Hsrc & Hslot) Ht Hst].
    assert (l ≠ rd_source f) by (apply not_eq_sym; eauto). split; cbn; try done.
    + exists src. cbn. by rewrite lookup_insert_ne.
    + by rewrite lookup_insert_ne.
  - apply (ok_apart _ Hok).
  - apply waits_kept; [done|by apply onward_same| | |by left].
    + intros id f k' _ _ (src & i & Hl' & ?). left. exists src, i. cbn.
      by rewrite lookup_insert_ne by (apply not_eq_sym; eauto).
    + intros l' d k' _ (src & Hl' & ?). left. exists src. cbn.
      by rewrite lookup_insert_ne by (apply not_eq_sym; eauto).
Qed.

Lemma set_of_polls_id (ws : Waits) : set_of_polls (of_polls ws) ws = ws.
Proof. by destruct ws. Qed.

(** The sets of sources shrink, or a source becomes that of a live adapter. *)
Lemma sys_ok_table s w' waits' handles adding :
  sys_ok s → w_heap w' = w_heap (s_w s) → w_ticker w' = w_ticker (s_w s) → timers_inv w' →
  slab_map (w_sources w') ⊆ slab_map (w_sources (s_w s)) →
  (∀ l src, w_heap (s_w s) !! l = Some src →
     slab_map (w_sources (s_w s)) !! src_key src = Some l →
     (slab_map (w_sources w') !! src_key src = Some l ↔ l ∈ handles ∪ adding)) →
  handles ∪ adding ⊆ s_handles s ∪ s_adding s ∧ handles ## adding ∧ adding ⊆ s_adding s →
  (∀ l src, w_heap (s_w s) !! l = Some src → l ∈ handles →
     known w' src ∧ (s_errs s = false → covered w' (s_ph s) src)) →
  (∀ id f, s_futs s !! id = Some f → rd_source f ∈ handles) →
  waits_ok (s_errs s) w' (s_ph s) (s_futs s) waits' handles →
  sys_ok (mkSys w' (s_ph s) (s_futs s) waits' handles adding (s_errs s) (s_log s)).
Proof.
  intros Hok Hheap Hticker Htim Hsub Htab (Hall & Hdis & Hadd) Hlive Hfuts Hwaits.
  assert (Hweak : ∀ k l, slab_map (w_sources w') !! k = Some l →
    slab_map (w_sources (s_w s)) !! k = Some l) by (intros; by eapply lookup_weaken).
  split; cbn; rewrite ?Hheap, ?Hticker; try done.
  - intros k l Hk. rewrite Hheap. by eapply ok_sources, Hweak.
  - by apply ok_ticker.
  - by apply ok_phase.
  - intros k l Hk. pose proof (Hweak _ _ Hk) as Hk'.
    destruct (ok_sources _ Hok _ _ Hk') as (src & Hl & <-). by eapply Htab.
  - intros l Hin. destruct (ok_registered _ Hok l) as (src & Hl & Hk); [set_solver|].
    exists src. rewrite Hheap. split; [done|]. by apply Htab.
  - apply (ok_log _ Hok).
  - intros l src Hl. destruct (ok_source _ Hok _ _ Hl) as [Hd Ha _ _].
    split; rewrite ?Hticker; try done.
    + intros Hin. apply Ha. set_solver.
    + intros Hin. by apply (Hlive _ _ Hl).
    + intros Hin. by apply (Hlive _ _ Hl).
  - intros id f Hf. destruct (ok_fut _ Hok _ _ Hf) as [_ Hs Ht Hst].
    split; rewrite ?Hheap, ?Hticker; try done; [by eapply Hfuts|].
    unfold slot_ok. by rewrite Hheap.
  - apply (ok_apart _ Hok).
Qed.

(** Who waits, when the table of sources changes: those that wait for a source that goes
    are forgotten. *)
Lemma waits_table s w' polls' handles :
  sys_ok s → w_heap w' = w_heap (s_w s) → w_woken w' = w_woken (s_w s) →
  live_timers w' = live_timers (s_w s) →
  (∀ l d k n, polls' !! (l, d) = Some (k, n) →
     of_polls (s_waits s) !! (l, d) = Some (k, n) ∧ (l ∈ s_handles s → l ∈ handles)) →
  waits_ok (s_errs s) w' (s_ph s) (s_futs s) (set_of_polls polls' (s_waits s)) handles.
Proof.
  intros Hok Hheap Hwoken Hlive Hpolls. destruct (ok_waits _ Hok) as [Hwf Hwp Hwt].
  assert (onward s w' (s_ph s) (s_errs s)) as Hon by (by apply onward_same; rewrite ?Hwoken).
  split; cbn.
  - intros id k n Hw. destruct (Hwf _ _ _ Hw) as (f & Hid & Hwait). exists f. split; [done|].
    eapply waiting_onward; [done| |done]. intros _ Hh. left. by eapply holds_heap.
  - intros l d k n [Hw Hin]%Hpolls. destruct (Hwp _ _ _ _ Hw) as [Hin' Hwait].
    split; [by apply Hin|]. eapply waiting_onward; [done| |done].
    intros _ Hh. left. by eapply holds_dir_heap.
  - intros key k n Hw. eapply waiting_onward; [done| |by apply Hwt].
    intros _ Hk. left. by rewrite Hlive.
Qed.
(** The table after a source has left it. *)
Lemma table_delete s l src (sl : Slab loc) (handles adding : gset loc) :
  sys_ok s → l ∈ s_handles s ∪ s_adding s → w_heap (s_w s) !! l = Some src →
  slab_map sl = delete (src_key src) (slab_map (w_sources (s_w s))) →
  (∀ l', l' ∈ handles ∪ adding ↔ l' ∈ s_handles s ∪ s_adding s ∧ l' ≠ l) →
  slab_map sl ⊆ slab_map (w_sources (s_w s)) ∧
  ∀ l' src', w_heap (s_w s) !! l' = Some src' →
    slab_map (w_sources (s_w s)) !! src_key src' = Some l' →
    (slab_map sl !! src_key src' = Some l' ↔ l' ∈ handles ∪ adding).
Proof.
  intros Hok Hin Hl Hsl Hset. rewrite Hsl. split; [apply delete_subseteq|].
  destruct (ok_registered _ Hok _ Hin) as (src0 & Hl0 & Hk0).
  rewrite Hl in Hl0. injection Hl0 as <-.
  intros l' src' Hl' Hk. rewrite Hset, lookup_delete_Some.
  pose proof (ok_table _ Hok _ _ Hk). split.
  - intros [Hne _]. split; [done|congruence].
  - intros [_ Hne]. split; [|done]. congruence.
Qed.

(** The adapters that stay, when the poller changes its mind about another source. *)
Lemma others_ok s src e w' l' src' :
  sys_ok s → l' ∈ s_handles s → w_heap (s_w s) !! l' = Some src' →
  w_env w' = e → src_registration src' ≠ src_registration src →
  (∀ r, r ≠ src_registration src → interest e r = interest (w_env (s_w s)) r) →
  known w' src' ∧ (s_errs s = false → covered w' (s_ph s) src').
Proof.
  intros Hok Hh Hl' He Hne Ho.
  destruct (ok_source _ Hok _ _ Hl') as [_ _ Hk Hc]. unfold known, covered.
  rewrite He, Ho by done. split; [exact (Hk Hh)|exact (Hc Hh)].
Qed.

Lemma add_good l s : sys_ok s → guard (EAdd l) s → good (EAdd l) s.
Proof.
  intros Hok Hg. unfold good, exec. rewrite decide_True by done. cbn in Hg.
  destruct (ok_registered _ Hok l) as (src & Hl & Hk); [set_solver|].
  pose proof (ok_disjoint _ Hok) as Hdis.
  eapply (effect_wp _ (λ r w', sys_ok (mkSys w' (s_ph s) (s_futs s) (s_waits s)
    (match r with Ok _ => {[ l ]} ∪ s_handles s | Err _ => s_handles s end)
    (s_adding s ∖ {[ l ]}) (s_errs s) (s_log s))));
    [|intros r w' HQ; eexists; split; [reflexivity|exact HQ]].
  eapply insert_io_register_wp; [done|done|]. intros [[]|x] e Hadd.
  - destruct (reg_add_ok _ _ _ _ Hadd) as (Hnone & (ev & Hev & Hkey) & Ho).
    apply sys_ok_table; try done.
    + by apply (timers_inv_eq (s_w s)), ok_timers.
    + intros l' src' Hl' Hk'. split; [intros _|done].
      pose proof (ok_table _ Hok _ _ Hk'). destruct (decide (l' = l)); set_solver.
    + split_and!; set_solver.
    + intros l' src' Hl' Hin. destruct (decide (l' = l)) as [->|Hne].
      * rewrite Hl in Hl'. injection Hl' as <-. split; [by exists ev|].
        intros _ d Hd. by rewrite (source_adding _ _ _ _ _ _ _ _ (ok_source _ Hok _ _ Hl) Hg) in Hd.
      * assert (l' ∈ s_handles s) as Hin' by set_solver.
        eapply (others_ok s src e); try done. intros Heq.
        destruct (source_known _ _ _ _ _ _ _ _ (ok_source _ Hok _ _ Hl') Hin') as (ev' & Hev' & _).
        congruence.
    + intros id f Hf. pose proof (fut_handle _ _ _ (ok_fut _ Hok _ _ Hf)). set_solver.
    + rewrite <- (set_of_polls_id (s_waits s)). apply waits_table; try done. set_solver.
  - pose proof (reg_add_err _ _ _ _ _ Hadd) as Ho. intros sl Hsl.
    destruct (table_delete s l src sl (s_handles s) (s_adding s ∖ {[ l ]}) Hok
      ltac:(set_solver) Hl Hsl) as [Hsub Htab].
    { intros l'. destruct (decide (l' = l)); set_solver. }
    apply sys_ok_table; try done.
    + by apply (timers_inv_eq (s_w s)), ok_timers.
    + split_and!; set_solver.
    + intros l' src' Hl' Hin. destruct (ok_source _ Hok _ _ Hl') as [_ _ Hkn Hc].
      unfold known, covered. cbn. rewrite Ho. split; [exact (Hkn Hin)|exact (Hc Hin)].
    + intros id f Hf. by apply (fut_handle _ _ _ (ok_fut _ Hok _ _ Hf)).
    + rewrite <- (set_of_polls_id (s_waits s)). by apply waits_table.
Qed.

Lemma remove_good l s : sys_ok s → guard (ERemove l) s → good (ERemove l) s.
Proof.
  intros Hok Hg. unfold good, exec. rewrite decide_True by done. destruct Hg as (Hg & _ & Hnf).
  destruct (ok_registered _ Hok l) as (src & Hl & Hk); [set_solver|].
  pose proof (ok_disjoint _ Hok) as Hdis.
  eapply (effect_wp _ (λ r w', sys_ok (mkSys w' (s_ph s) (s_futs s)
    (set_of_polls (filter (λ e, e.1.1 ≠ l) (of_polls (s_waits s))) (s_waits s))
    (s_handles s ∖ {[ l ]}) (s_adding s) (s_errs s) (s_log s))));
    [|intros r w' HQ; eexists; split; [reflexivity|exact HQ]].
  eapply remove_io_wp; [done|done|]. intros sl Hsl.
  destruct (table_delete s l src sl (s_handles s ∖ {[ l ]}) (s_adding s) Hok
    ltac:(set_solver) Hl Hsl) as [Hsub Htab].
  { intros l'. destruct (decide (l' = l)); set_solver. }
  destruct (reg_delete (src_registration src) (w_env (s_w s))) as [res e] eqn:Hdel.
  pose proof (reg_delete_others _ _ _ _ Hdel) as Ho.
  apply sys_ok_table; try done.
  - by apply (timers_inv_eq (s_w s)), ok_timers.
  - split_and!; set_solver.
  - intros l' src' Hl' Hin. assert (l' ∈ s_handles s ∧ l' ≠ l) as [Hin' Hne] by set_solver.
    eapply (others_ok s src e); try done. intros Heq. apply Hne.
    by eapply (handles_distinct s).
  - intros id f Hf. pose proof (fut_handle _ _ _ (ok_fut _ Hok _ _ Hf)).
    pose proof (Hnf _ _ Hf). set_solver.
  - apply waits_table; try done. intros l' d k n [Hk' Hne]%map_lookup_filter_Some.
    cbn in Hne. set_solver.
Qed.
(** *** The rounds *)

Lemma react_good timeout s : sys_ok s → guard (EReact timeout) s → good (EReact timeout) s.
Proof.
  intros Hok Hg. unfold good, exec. rewrite decide_True by done. cbn in Hg.
  destruct (s_ph s) as [res|?|?|?|?|?|?] eqn:Hph; try done.
  pose proof (ok_timers _ Hok) as Hinv.
  eapply (effect_wp _ (λ ph w', sys_ok (mkSys w' ph (s_futs s) (s_waits s) (s_handles s) (s_adding s)
    (s_errs s) (s_log s)))); [|intros ph w' HQ; eexists; split; [reflexivity|exact HQ]].
  unfold round_start, react_prepare. do 2 apply wp_bind.
  eapply wp_mono; [by apply process_timers_wp|]. cbn beta.
  intros [dur ks] w1 (now & Henv & _ & _ & Hks & Hl & _ & _ & Hinv1 & Hio). wp_steps.
  apply sys_ok_same; rewrite ?Hph; try done.
  - intros l src _ _. rewrite Henv. apply env_now_interest.
  - eapply waits_processed; rewrite ?Hph; try done;
      [by intros ? ?%elem_of_nil|]. cbn in *. by rewrite Hks.
Qed.

(** Time goes by: the ticker is bumped. *)
Lemma sys_ok_bump s n ph' :
  sys_ok s → w_ticker (s_w s) ≤ n < USIZE_MOD → phase_ok ph' n →
  (∀ ev, ev ∈ in_flight (s_ph s) → ev ∈ in_flight ph') →
  (∀ k, k ∈ ph_wakers (s_ph s) → k ∈ ph_wakers ph') →
  sys_ok (mkSys (set_ticker n (s_w s)) ph' (s_futs s) (s_waits s) (s_handles s) (s_adding s)
            (s_errs s) (s_log s)).
Proof.
  intros Hok [Hle Hlt] Hph Hfl Hks. pose proof Hok as []. split; cbn; try done.
  - by apply (timers_inv_eq (s_w s)).
  - lia.
  - intros l src Hl. destruct (ok_source0 _ _ Hl) as [Hd Ha Hk Hc]. split; cbn; try done.
    + intros d. by eapply dir_ok_later.
    + intros Hh He d Hd'. destruct (Hc Hh He d Hd') as [?|(ev & Hin & Hkey)]; [by left|].
      right. exists ev. auto.
  - intros id f Hf. destruct (ok_fut0 _ _ Hf) as [Hh Hs Ht Hst]. split; cbn; try done.
    intros src Hl. by eapply ticks_ok_later, Hle; apply Ht.
  - apply waits_kept; [done|by apply onward_same| | |by left].
    + intros id f k _ _ Hh. left. by eapply holds_heap.
    + intros l d' k _ Hh. left. by eapply holds_dir_heap.
Qed.

(** The poller waits: what it reports is in flight, the rest it remembers. *)
Lemma sys_ok_wait s d ans e ph' :
  sys_ok s → env_wait (w_env (s_w s)) d = (ans, e) → in_flight (s_ph s) = [] →
  phase_ok ph' (w_ticker (s_w s)) →
  (∀ n evs, ans = Ok (n, evs) → evs ⊆ in_flight ph') →
  ph_wakers (s_ph s) ⊆ ph_wakers ph' →
  sys_ok (mkSys (set_env e (s_w s)) ph' (s_futs s) (s_waits s) (s_handles s) (s_adding s)
            (s_errs s) (s_log s)).
Proof.
  intros Hok Hwait Hnone Hph Hfl Hks. pose proof Hok as []. split; cbn; try done.
  - by apply (timers_inv_eq (s_w s)).
  - intros l src Hl. destruct (ok_source0 _ _ Hl) as [Hd Ha Hk Hc]. split; cbn; try done.
    + intros Hh. destruct (Hk Hh) as (ev & Hev & Hkey). unfold known. cbn.
      destruct (env_wait_keeps _ d _ _ Hev) as (ev' & Hev' & Hkey').
      rewrite Hwait in Hev'. exists ev'. split; [done|congruence].
    + intros Hh He d0 Hd0. destruct (Hc Hh He d0 Hd0) as [(ev & Hev & Hf)|(ev & Hin & _)].
      2:{ rewrite Hnone in Hin. by apply elem_of_nil in Hin. }
      destruct (Hk Hh) as (ev1 & Hev1 & Hkey). rewrite Hev in Hev1. injection Hev1 as <-.
      destruct ans as [[n evs]|x]; cbn.
      * destruct (decide (Forall (λ ev', ev_key ev' ≠ ev_key ev) evs)) as [Hall|Hsome].
        -- left. exists ev. split; [|done]. by eapply env_wait_ok.
        -- right. apply not_Forall_Exists, Exists_exists in Hsome; [|apply _].
           destruct Hsome as (ev' & Hin & Hk'). exists ev'. split; [by apply (Hfl n evs)|].
           apply dec_stable in Hk'. congruence.
      * left. exists ev. split; [|done]. by rewrite (env_wait_err _ _ _ _ Hwait).
  - intros id f Hf. by destruct (ok_fut0 _ _ Hf).
  - apply waits_kept; [done|by apply onward_same| | |by left].
    + intros id f k _ _ Hh. left. by eapply holds_heap.
    + intros l d' k _ Hh. left. by eapply holds_dir_heap.
Qed.

(** The events that are over concerned no one. *)
Lemma sys_ok_phase s ph' :
  sys_ok s → phase_ok ph' (w_ticker (s_w s)) →
  (∀ ev l src, ev ∈ in_flight (s_ph s) → l ∈ s_handles s → w_heap (s_w s) !! l = Some src →
     slab_map (w_sources (s_w s)) !! ev_key ev = Some l → ev ∈ in_flight ph') →
  ph_wakers (s_ph s) ⊆ ph_wakers ph' →
  sys_ok (mkSys (s_w s) ph' (s_futs s) (s_waits s) (s_handles s) (s_adding s) (s_errs s) (s_log s)).
Proof.
  intros Hok Hph Hfl Hks. pose proof Hok as []. split; cbn; try done.
  2:{ apply waits_kept; [done|by apply onward_same|by left..]. }
  intros l src Hl. destruct (ok_source0 _ _ Hl) as [Hd Ha Hk Hc]. split; try done.
  intros Hh He d Hd'. destruct (Hc Hh He d Hd') as [?|(ev & Hin & Hkey)]; [by left|right].
  exists ev. split; [|done]. destruct (ok_registered0 l) as (src' & Hl' & Hk'); [set_solver|].
  eapply Hfl; [done|done|done|]. congruence.
Qed.
Lemma elem_of_deliveries tick ev evs wakers w l d :
  slab_map (w_sources w) !! ev_key ev = Some l →
  (tick, l, d) ∈ deliveries (Delivering tick (ev :: evs) wakers) w ↔ ev_flag ev d = true.
Proof.
  intros Hk. cbn [deliveries]. rewrite slab_get_map, Hk, list_elem_of_fmap. split.
  - intros (d' & [= <-] & Hd). by apply list_elem_of_filter in Hd as [? _].
  - intros Hd. exists d. split; [done|]. apply list_elem_of_filter. split; [done|].
    destruct d; set_solver.
Qed.

Lemma elem_of_deliveries_tick tick ev evs wakers w t l d :
  (t, l, d) ∈ deliveries (Delivering tick (ev :: evs) wakers) w →
  t = tick ∧ slab_map (w_sources w) !! ev_key ev = Some l ∧ ev_flag ev d = true.
Proof.
  cbn [deliveries]. rewrite slab_get_map.
  destruct (slab_map (w_sources w) !! ev_key ev) as [l'|]; [|by intros ?%elem_of_nil].
  intros (d' & [= -> -> ->] & Hd)%list_elem_of_fmap. by apply list_elem_of_filter in Hd as [? _].
Qed.

(** Delivery leaves what is empty empty. *)
Lemma delivered_empty s l src tick ev ks d :
  sys_ok s → w_heap (s_w s) !! l = Some src → l ∈ s_adding s →
  is_empty (dir_get (deliver_event tick ev (src_state src) ks).1 d) = true.
Proof.
  intros Hok Hl Hin.
  pose proof (source_adding _ _ _ _ _ _ _ _ (ok_source _ Hok _ _ Hl) Hin d) as He.
  apply is_empty_true. intros k Hk.
  apply (delivered_wakers _ _ _ _ (deliver_event_delivered tick ev (src_state src) ks d)) in Hk.
  by eapply is_empty_true; [|apply Hk].
Qed.

(** The directions of a source after the delivery of an event. *)
Lemma delivered_dir s l src tick ev evs wakers ks d :
  sys_ok s → s_ph s = Delivering tick (ev :: evs) wakers →
  w_heap (s_w s) !! l = Some src → slab_map (w_sources (s_w s)) !! ev_key ev = Some l →
  dir_ok (w_ticker (s_w s)) (s_log s ++ deliveries (Delivering tick (ev :: evs) wakers) (s_w s)) l d
    (dir_get (deliver_event tick ev (src_state src) ks).1 d).
Proof.
  intros Hok Hph Hl Hk.
  destruct (source_dirs _ _ _ _ _ _ _ _ (ok_source _ Hok _ _ Hl) d) as [Ht Hlog Hlast Hts].
  pose proof (ok_phase _ Hok) as Htick. rewrite Hph in Htick. cbn in Htick.
  destruct (deliver_event_delivered tick ev (src_state src) ks d) as [Ht' Hts' _ _ _].
  pose proof (ok_ticker _ Hok). split; rewrite ?Ht', ?Hts'.
  - destruct (ev_flag ev d); lia.
  - destruct (ev_flag ev d) eqn:Hf.
    + right. apply elem_of_app. right. by apply elem_of_deliveries.
    + destruct Hlog; [by left|right]. apply elem_of_app. by left.
  - intros t [Hin|Hin]%elem_of_app.
    + specialize (Hlast _ Hin). destruct (ev_flag ev d); lia.
    + apply elem_of_deliveries_tick in Hin as (-> & _ & Hf). by rewrite Hf.
  - destruct (ev_flag ev d); [|done]. rewrite Htick. by eapply ticks_ok_delivered.
Qed.

Lemma delivered_ok s l src tick ev evs wakers e ph' errs' w' :
  let st := (deliver_event tick ev (src_state src) wakers).1 in
  sys_ok s → s_ph s = Delivering tick (ev :: evs) wakers →
  slab_map (w_sources (s_w s)) !! ev_key ev = Some l → writes (s_w s) l src st e w' →
  (∀ r, r ≠ src_registration src ∨ l ∉ s_handles s →
     interest e r = interest (w_env (s_w s)) r) →
  (l ∈ s_handles s → known w' (set_src_state st src)) →
  (l ∈ s_handles s → errs' = false → covered w' ph' (set_src_state st src)) →
  (errs' = false → s_errs s = false ∧ evs ⊆ in_flight ph' ∧
     (deliver_event tick ev (src_state src) wakers).2 ⊆ ph_wakers ph') →
  phase_ok ph' (w_ticker (s_w s)) →
  sys_ok (mkSys w' ph' (s_futs s) (s_waits s) (s_handles s) (s_adding s) errs'
            (s_log s ++ deliveries (Delivering tick (ev :: evs) wakers) (s_w s))).
Proof.
  intros st Hok Hph Hk Hw Hint Hkn Hc Herrs Hph'.
  pose proof (writes_lookup _ _ _ _ _ _ Hw) as Hl.
  pose proof (deliver_event_delivered tick ev (src_state src) wakers) as Hdel. fold st in Hdel.
  eapply sys_ok_writes; try done.
  - intros d. by eapply delivered_dir.
  - intros Hin d. by eapply delivered_empty.
  - intros ev' l' src' He Hin Hh Hne Hl' Hkey. rewrite Hph in Hin. cbn in Hin.
    apply elem_of_cons in Hin as [->|Hin]; [|by apply Herrs].
    destruct (ok_registered _ Hok l') as (src0 & Hl0 & Hk0); [set_solver|]. congruence.
  - intros He. by apply Herrs.
  - by apply list_subseteq_app_l.
  - intros t l' d [?|Hin]%elem_of_app; [by left|right].
    apply elem_of_deliveries_tick in Hin as (_ & Hk' & _). congruence.
  - intros id f Hf. eapply fut_ok_writes; [done|by eapply ok_fut| |].
    + intros _ i _ Hi. by apply (delivered_slots _ _ _ _ (Hdel (rd_dir f))).
    + intros d. rewrite (delivered_tick _ _ _ _ (Hdel d)).
      pose proof (ok_phase _ Hok) as Htick. rewrite Hph in Htick. cbn in Htick.
      destruct (ev_flag ev d); auto.
  - apply (ok_apart _ Hok).
  - apply waits_kept; [done|..].
    { split; [by intros [? _]%Herrs|by apply (writes_woken _ _ _ _ _ _ Hw)|].
      intros He k m Hin _. destruct (Herrs He) as (_ & _ & Hks). left.
      rewrite Hph in Hin. apply Hks, elem_of_deliver_event. by left. }
    + intros id f k _ He (src0 & i & Hl0 & Hi & Hk0). destruct (Herrs He) as (_ & _ & Hks).
      destruct (decide (rd_source f = l ∧ ev_flag ev (rd_dir f) = true)) as [[Hs Hf]|Hno].
      * right. apply Hks, elem_of_deliver_event. right. exists (rd_dir f). split; [done|].
        rewrite Hs, Hl in Hl0. injection Hl0 as <-. apply elem_of_dir_wakers. by eauto.
      * left. eapply holds_writes; [done| |by exists src0, i].
        intros Hs j Hj Hk'. destruct (ev_flag ev (rd_dir f)) eqn:Hf; [by destruct Hno|].
        by rewrite (delivered_same _ _ _ _ (Hdel (rd_dir f)) Hf).
    + intros l' d k He (src0 & Hl0 & Hk0). destruct (Herrs He) as (_ & _ & Hks).
      destruct (decide (l' = l ∧ ev_flag ev d = true)) as [[-> Hf]|Hno].
      * right. apply Hks, elem_of_deliver_event. right. exists d. split; [done|].
        rewrite Hl in Hl0. injection Hl0 as <-. apply elem_of_dir_wakers. by left.
      * left. eapply holds_dir_writes; [done| |by exists src0].
        intros Hs Hk'. destruct (ev_flag ev d) eqn:Hf; [by destruct Hno|].
        by rewrite (delivered_same _ _ _ _ (Hdel d) Hf).
    + intros key k _ Hk0. left. by rewrite (live_timers_writes _ _ _ _ _ _ Hw).
Qed.

(** What a step of a round has to establish. *)
Definition round_post s (ph : Phase) w' : Prop :=
  sys_ok (mkSys w' ph (s_futs s) (s_waits s) (s_handles s) (s_adding s)
            (s_errs s || match s_ph s, ph with
                         | Delivering _ _ _, Idle (Err _) => true
                         | _, _ => false
                         end)
            (s_log s ++ deliveries (s_ph s) (s_w s))).

Lemma deliver_event_good s tick ev evs wakers :
  sys_ok s → s_ph s = Delivering tick (ev :: evs) wakers →
  wp (round_step (s_ph s)) (round_post s) (s_w s).
Proof.
  intros Hok Hph. unfold round_post. rewrite Hph. cbn [round_step].
  apply wp_bind, react_event_wp; [by apply ok_sources| |].
  - intros Hk. apply wp_ret. cbn [deliveries]. rewrite slab_get_map, Hk.
    rewrite orb_false_r, app_nil_r. pose proof (ok_phase _ Hok) as Htick. rewrite Hph in Htick.
    apply sys_ok_phase; [done|done| |by rewrite Hph]. intros ev' l src Hin _ _ Hk'.
    rewrite Hph in Hin. apply elem_of_cons in Hin as [->|Hin]; [congruence|done].
  - intros l src st ks res e Hk Hl Hkey Hd Hr.
    assert (st = (deliver_event tick ev (src_state src) wakers).1) as Hst by by rewrite Hd.
    set (w' := set_env e _). assert (writes (s_w s) l src st e w') as Hw by by apply writes_state.
    pose proof (ok_phase _ Hok) as Htick. rewrite Hph in Htick. cbn in Htick.
    assert (l ∈ s_adding s → ∀ d, is_empty (dir_get st d) = true) as Hadd.
    { intros Hin d. rewrite Hst. by eapply delivered_empty. }
    apply wp_ret. subst st. destruct res as [[]|x].
    + destruct (rearmed_ok s l src _ ev evs wakers tick e w' Hok Hk Hkey Hph Hadd Hw Hr)
        as (Hint & Hkn & Hc).
      rewrite orb_false_r. eapply delivered_ok; try done. intros He. by rewrite Hd.
    + rewrite orb_true_r. assert (∀ r, interest e r = interest (w_env (s_w s)) r) as Ho.
      { unfold rearmed in Hr. destruct (_ || _); [by eapply reg_modify_err|by destruct Hr]. }
      eapply delivered_ok; try done. intros Hh.
      destruct (source_known _ _ _ _ _ _ _ _ (ok_source _ Hok _ _ Hl) Hh) as (ev' & ? & ?).
      exists ev'. cbn. by rewrite Ho.
Qed.

Lemma round_good s : sys_ok s → guard ERound s → good ERound s.
Proof.
  intros Hok Hg. unfold good, exec. rewrite decide_True by done. cbn in Hg.
  eapply (effect_wp _ (round_post s));
    [|intros ph w' HQ; eexists; split; [reflexivity|exact HQ]].
  pose proof (ok_phase _ Hok) as Hpo.
  destruct (s_ph s) as [res|d ks|tick d ks|d ks|tick evs ks|tick [|ev evs] ks|[|k ks] res]
    eqn:Hph; [done|..|]; rewrite <- ?Hph;
    try (rewrite Hph; unfold round_post; rewrite Hph; cbn [round_step deliveries];
         rewrite ?app_nil_r, ?orb_false_r).
  - apply wp_bind, bump_ticker_wp, wp_ret. pose proof (ok_ticker _ Hok).
    rewrite usize_wrap_small by lia. apply sys_ok_bump; rewrite ?Hph; try done. lia.
  - apply wp_bind, wp_env_call, wp_ret.
    destruct (env_wait (w_env (s_w s)) d) as [ans e] eqn:Hwait. cbn [fst snd].
    eapply sys_ok_wait; [done|done|by rewrite Hph| | |].
    + destruct ans as [[n evs]|[]]; try done. by destruct (decide (n = 0)).
    + intros n evs ->. pose proof (env_wait_count _ _ _ _ _ Hwait) as Hn.
      destruct (decide (n = 0)) as [->|]; [|done].
      destruct evs; [done|]. cbn in Hn. lia.
    + rewrite Hph. destruct ans as [[n evs]|[]]; try done. by destruct (decide (n = 0)).
  - apply wp_bind. case_decide.
    + wp_steps. apply sys_ok_phase; [done|done| |by rewrite Hph].
      intros ev l src. by rewrite Hph.
    + eapply wp_mono; [by apply process_timers_wp, ok_timers|]. cbn beta.
      intros [dur ks'] w1 (now & Henv & _ & _ & Hks' & Hl & _ & _ & Hinv1 & Hio). wp_steps.
      apply sys_ok_same; rewrite ?Hph; try done.
      * intros l src _ _. rewrite Henv. apply env_now_interest.
      * eapply waits_processed; rewrite ?Hph; try done; cbn in *; rewrite Hks'; set_solver.
  - wp_steps. apply sys_ok_phase; [done|done| |by rewrite Hph].
    intros ev l src. by rewrite Hph.
  - wp_steps. rewrite orb_false_r. apply sys_ok_phase; [done|done| |by rewrite Hph].
    intros ev l src. by rewrite Hph.
  - pose proof (deliver_event_good s tick ev evs ks Hok Hph) as Hev.
    unfold round_post in Hev. rewrite Hph in Hev. exact Hev.
  - wp_steps. apply sys_ok_phase; [done|done| |by rewrite Hph].
    intros ev l src. by rewrite Hph.
  - wp_steps. apply wp_wake. wp_steps. apply sys_ok_env; try done.
    + by apply (timers_inv_eq (s_w s)), ok_timers.
    + intros ev. by rewrite Hph.
    + apply waits_kept; [done| |by left..]. split; [done|by eexists|].
      intros _ k' m. rewrite Hph. cbn. intros [->|?]%elem_of_cons Hm; [right|by left].
      rewrite drop_app_le by done. set_solver.
Qed.

(** Every step that may be taken is possible, and keeps the invariant. *)
Lemma exec_good ev s : sys_ok s → guard ev s → good ev s.
Proof.
  intros Hok Hg. destruct ev.
  - by apply insert_good.
  - by apply add_good.
  - by apply remove_good.
  - by apply poll_ready_good.
  - by apply new_fut_good.
  - by apply poll_fut_good.
  - by apply drop_fut_good.
  - by apply push_timer_good.
  - by apply remove_timer_good.
  - by apply call_good.
  - by apply notify_good.
  - by apply react_good.
  - by apply round_good.
Qed.

Lemma sys_ok_initial e : sys_ok (initial e : Sys).
Proof.
  split; cbn; rewrite ?slab_map_new; try done.
  - intros k l. cbn. by rewrite slab_map_new.
  - apply timers_inv_new.
  - by intros t l d ?%elem_of_nil.
Qed.

Lemma exec_guard ev s s' : exec ev s = Some s' → guard ev s.
Proof. unfold exec. by case_decide. Qed.

Lemma sys_ok_exec ev s s' : sys_ok s → exec ev s = Some s' → sys_ok s'.
Proof.
  intros Hok He. destruct (exec_good ev s Hok (exec_guard _ _ _ He)) as (s1 & He1 & Hok1).
  congruence.
Qed.

Lemma sys_ok_reachable s : reachable s → sys_ok s.
Proof. induction 1; [apply sys_ok_initial|by eapply sys_ok_exec]. Qed.
End facts.
