(* ===== verification/Interleaving.v ===== *)
(** What holds in every interleaving of tasks with the rounds of the reactor; and that a
    round left alone is [react]. *)
From S2P Require Import Prelude Std Deps Registration RefDeps World RefWorld Timers.
From S2P Require Import Source Reactor Ready System Steps.
Import System.

(** * A round without interference *)

Section rounds.
Context {Slab Queue : Type → Type} {Reg Env : Type}.
Context `{SlabOps Slab, QueueOps Queue, EnvOps Env, RegOps Reg Env}.
Context `{!SlabLaws Slab, !QueueLaws Queue, !ClockLaws Env}.
Local Abbreviation World := (World Slab Queue Reg Env).
Local Abbreviation Sys := (Sys (Slab := Slab) (Queue := Queue) (Reg := Reg) (Env := Env)).
Implicit Types (w : World) (s : Sys).

(** What is left of [react] in a phase. *)
Definition finish (ph : Phase) : M World (io_result unit) :=
  let waking wakers res := wake_all wakers ;; mret res in
  let delivering tick evs wakers :=
    '(res, wakers) ← react_events tick evs wakers;
    match res with Err err => mret (Err err) | Ok _ => waking wakers (Ok tt) end in
  let timed_out timeout wakers :=
    '(_, wakers) ← (if decide (timeout = Some (from_secs 0))
                    then mret (None, wakers) else process_timers wakers);
    waking wakers (Ok tt) in
  let bumped tick timeout wakers :=
    res ← env_call (λ e, env_wait e timeout);
    match res with
    | Ok (n, evs) =>
        if decide (n = 0) then timed_out timeout wakers else delivering tick evs wakers
    | Err Interrupted => waking wakers (Ok tt)
    | Err err => waking wakers (Err err)
    end in
  match ph with
  | Idle res => mret res
  | Prepared timeout wakers => tick ← bump_ticker; bumped tick timeout wakers
  | Bumped tick timeout wakers => bumped tick timeout wakers
  | TimedOut timeout wakers => timed_out timeout wakers
  | Waited tick evs wakers | Delivering tick evs wakers => delivering tick evs wakers
  | Waking wakers res => waking wakers res
  end.

Lemma react_finish timeout w :
  react timeout w = (ph ← round_start timeout; finish ph) w.
Proof.
  unfold react, round_start, react_prepare, finish, mbind, M_bind, mret, M_ret.
  destruct (process_timers [] w) as [[[dur ks] w1]| |]; [|done..].
  destruct (bump_ticker w1) as [[tick w2]| |]; [|done..].
  destruct (env_call _ w2) as [[[[n evs]|[]] w3]| |]; try done.
Qed.

Lemma finish_step ph w :
  (∀ res, ph ≠ Idle res) → finish ph w = (ph ← round_step ph; finish ph) w.
Proof.
  intros Hph.
  destruct ph as [res|d ks|tick d ks|d ks|tick evs ks|tick [|ev evs] ks|[|k ks] res];
    [by destruct (Hph res)|..];
    unfold finish, round_step, mbind, M_bind, mret, M_ret; cbn [wake_all react_events].
  - by destruct (bump_ticker w) as [[tick w1]| |].
  - destruct (env_call _ w) as [[[[n evs]|[]] w1]| |]; try done. by destruct (decide (n = 0)).
  - destruct (decide _); [done|]. by destruct (process_timers ks w) as [[[? ?] ?]| |].
  - done.
  - done.
  - unfold mbind, M_bind. destruct (react_event tick ev ks w) as [[[[[]|x] ks'] w1]| |]; done.
  - done.
  - unfold mbind, M_bind. by destruct (wake k w) as [[[] ?]| |].
Qed.

(** The order in which a round goes through its phases. *)
Definition stage (ph : Phase) : nat :=
  match ph with
  | Idle _ => 0 | Waking _ _ => 1 | TimedOut _ _ => 2 | Delivering _ _ _ => 3
  | Waited _ _ _ => 4 | Bumped _ _ _ => 5 | Prepared _ _ => 6
  end.
Definition size (ph : Phase) : nat :=
  match ph with
  | Waking wakers _ => length wakers
  | Delivering _ evs _ => length evs
  | _ => 0
  end.
Definition before (ph1 ph : Phase) : Prop :=
  (stage ph1 < stage ph)%nat ∨ (stage ph1 = stage ph ∧ (size ph1 < size ph)%nat).

Lemma before_ind (P : Phase → Prop) :
  (∀ ph, (∀ ph1, before ph1 ph → P ph1) → P ph) → ∀ ph, P ph.
Proof.
  intros Hstep. assert (∀ n m ph, stage ph = n → size ph = m → P ph) as Hall; [|by eauto].
  induction n as [n IHn] using lt_wf_ind. induction m as [m IHm] using lt_wf_ind.
  intros ph <- <-. apply Hstep. intros ph1 [Hlt|[Heq Hlt]]; [by eapply IHn|by eapply IHm].
Qed.

Lemma round_step_before ph w ph1 w1 :
  (∀ res, ph ≠ Idle res) → round_step ph w = Ret (ph1, w1) → before ph1 ph.
Proof.
  intros Hph Hrun. unfold before.
  destruct ph as [res|d ks|tick d ks|d ks|tick evs ks|tick [|ev evs] ks|[|k ks] res];
    [by destruct (Hph res)|..]; unfold round_step in Hrun; ret_inv Hrun.
  - injection Hrun as <- _. cbn. lia.
  - injection Hrun as <- _. destruct a as [[n evs]|[]]; cbn; [case_decide; cbn|..]; lia.
  - destruct a. injection Hrun as <- _. cbn. lia.
  - injection Hrun as <- _. cbn. lia.
  - injection Hrun as <- _. cbn. lia.
  - destruct a as [[[]|x] ks']; injection Hrun as <- _; cbn; lia.
  - injection Hrun as <- _. cbn. lia.
  - injection Hrun as <- _. cbn. lia.
Qed.

Lemma phase_idle ph : (∃ res, ph = Idle res) ∨ ∀ res, ph ≠ Idle res.
Proof. destruct ph; eauto. Qed.

Lemma round_finish_iff ph w res w' :
  round ph w res w' ↔ finish ph w = Ret (res, w').
Proof.
  split.
  - induction 1 as [res w|ph ph1 w w1 res w' Hph Hrun _ IH]; [done|].
    rewrite finish_step by done. unfold mbind, M_bind. by rewrite Hrun.
  - revert w. induction ph as [ph IH] using before_ind. intros w Hfin.
    destruct (phase_idle ph) as [[res0 ->]|Hph].
    + injection Hfin as <- <-. constructor.
    + rewrite finish_step in Hfin by done. ret_inv Hfin.
      eapply round_more; [done|done|]. by eapply IH; [eapply round_step_before|].
Qed.

(** A round that is let alone comes to its end, and wakes whom it has collected, after the
    wakes [ks0] that had been made before. *)
Definition woken_all (wakers ks0 : list Waker) (res : io_result unit) w : Prop :=
  ks0 `prefix_of` w_woken w ∧
  (res = Ok tt → ∀ k, k ∈ wakers → k ∈ drop (length ks0) (w_woken w)).

Lemma waking_wp ks ks' ks0 res w :
  ks ⊆ ks' → ks0 = w_woken w → wp (finish (Waking ks' res)) (woken_all ks ks0) w.
Proof.
  intros Hks ->. apply wp_bind, wake_all_wp, wp_ret. split; [by eexists|]. intros _ k Hk. cbn.
  rewrite drop_app_length. by apply Hks.
Qed.

Lemma delivering_wp tick evs ks ks0 w :
  sources_ok w → ks0 = w_woken w →
  wp (finish (Delivering tick evs ks)) (woken_all ks ks0) w.
Proof.
  intros Hok Hn. apply wp_bind. eapply wp_mono; [by apply react_events_wp|].
  intros [[[]|x] ks'] w1 [Hfr Hdone].
  2:{ apply wp_ret. split; [|done]. by rewrite (events_woken _ _ Hfr), Hn. }
  apply (waking_wp ks ks').
  - exact (done_keep _ _ _ _ _ _ (Hdone eq_refl)).
  - by rewrite (events_woken _ _ Hfr).
Qed.

Lemma timed_out_wp d ks ks0 w :
  timers_inv w → ks0 = w_woken w → wp (finish (TimedOut d ks)) (woken_all ks ks0) w.
Proof.
  intros Hinv Hn. apply wp_bind. case_decide; [by apply wp_ret, (waking_wp ks ks)|].
  eapply wp_mono; [by apply process_timers_wp|].
  intros [dur ks'] w1 (now & _ & _ & _ & Hks & _ & _ & _ & _ & Hio). cbn in Hks.
  pose proof Hio as [_ _ _ Hwoken]. apply (waking_wp ks ks'); [|by rewrite Hwoken].
  intros k Hk. rewrite Hks. apply elem_of_app. by left.
Qed.

Lemma bumped_wp tick d ks ks0 w :
  sources_ok w → timers_inv w → ks0 = w_woken w →
  wp (finish (Bumped tick d ks)) (woken_all ks ks0) w.
Proof.
  intros Hok Hinv Hn. apply wp_bind, wp_env_call.
  destruct (env_wait (w_env w) d) as [[[m evs]|[]] e]; cbn [fst snd];
    [destruct (decide (m = 0))|..]; try (by apply (waking_wp ks ks)).
  - apply timed_out_wp; [by apply (timers_inv_eq w)|done].
  - by apply delivering_wp.
Qed.

Lemma finish_wp ph w :
  sources_ok w → timers_inv w →
  wp (finish ph) (woken_all (ph_wakers ph) (w_woken w)) w.
Proof.
  intros Hok Hinv.
  destruct ph as [res|d ks|tick d ks|d ks|tick evs ks|tick evs ks|ks res].
  - apply wp_ret. split; [done|]. intros _ k Hk. by apply elem_of_nil in Hk.
  - apply wp_bind, bump_ticker_wp, (bumped_wp _ d ks); [done|by apply (timers_inv_eq w)|done].
  - by apply bumped_wp.
  - by apply timed_out_wp.
  - by apply delivering_wp.
  - by apply delivering_wp.
  - by apply waking_wp.
Qed.
End rounds.

(** * Runs *)

Section runs.
Context {Slab Queue : Type → Type} {Reg Env : Type}.
Context `{SlabOps Slab, QueueOps Queue, EnvOps Env, RegOps Reg Env}.
Context `{!SlabLaws Slab, !QueueLaws Queue, !ClockLaws Env, !NotifyLaws Env, !RegLaws Reg Env}.
Context `{EqDecision Reg, CallOps Reg Env, !CallLaws Reg Env}.
Local Abbreviation World := (World Slab Queue Reg Env).
Local Abbreviation Sys := (Sys (Slab := Slab) (Queue := Queue) (Reg := Reg) (Env := Env)).
Implicit Types (w : World) (s : Sys).

Lemma run_app evs evs' s s1 s2 :
  run evs s = Some s1 → run evs' s1 = Some s2 → run (evs ++ evs') s = Some s2.
Proof.
  revert s. induction evs as [|ev evs IH]; intros s; cbn; [by intros [= ->]|].
  destruct (exec ev s) as [s'|]; cbn; [apply IH|done].
Qed.

Lemma run_ok evs s s' : sys_ok s → run evs s = Some s' → sys_ok s'.
Proof.
  revert s. induction evs as [|ev evs IH]; intros s Hok Hrun; cbn in Hrun;
    [by simplify_eq|]. apply bind_Some in Hrun as (s1 & He & Hrun).
  eapply IH; [by eapply sys_ok_exec|done].
Qed.

(** A round, as steps of the system in which nothing else happens. *)
Lemma run_round s res w' :
  round (s_ph s) (s_w s) res w' →
  (stage (s_ph s) = 6%nat → w_ticker (s_w s) + 1 < USIZE_MOD) →
  ∃ n s', run (replicate n ERound) s = Some s' ∧ s_ph s' = Idle res ∧ s_w s' = w'.
Proof.
  intros Hround. remember (s_ph s) as ph eqn:Hph. remember (s_w s) as w eqn:Hw.
  revert s Hph Hw. induction Hround as [res w|ph ph1 w w1 res w' Hidle Hstep _ IH];
    intros s Hph Hw Ht.
  { exists 0%nat, s. by split_and!. }
  assert (∃ s1, exec ERound s = Some s1 ∧ s_ph s1 = ph1 ∧ s_w s1 = w1) as (s1 & He & Hp1 & Hw1).
  { unfold exec. rewrite decide_True.
    - unfold effect. rewrite <- Hph, <- Hw, Hstep. by eexists.
    - cbn. rewrite <- Hph, <- Hw. destruct ph; try done; [by destruct (Hidle res0)|by apply Ht]. }
  destruct (IH s1) as (n & s' & Hrun & ? & ?); [done|done| |].
  { apply round_step_before in Hstep; [|done]. unfold before in Hstep.
    destruct ph1, ph; cbn in Hstep; try done; lia. }
  exists (S n), s'. cbn. by rewrite He.
Qed.

Lemma round_ends s :
  sys_ok s → w_ticker (s_w s) + 1 < USIZE_MOD →
  ∃ n s' res, run (replicate n ERound) s = Some s' ∧ s_ph s' = Idle res ∧
    woken_all (ph_wakers (s_ph s)) (w_woken (s_w s)) res (s_w s').
Proof.
  intros Hok Ht. destruct (finish_wp (s_ph s) (s_w s) (ok_sources _ Hok) (ok_timers _ Hok))
    as (res & w' & Hfin & Hwoken).
  destruct (run_round s res w') as (n & s' & Hrun & Hph & Hw); [by apply round_finish_iff|done|].
  exists n, s', res. rewrite Hw. by split_and!.
Qed.

(** ** The life of a future *)

Lemma ready_poll_ok s id f cx :
  sys_ok s → s_futs s !! id = Some f →
  wp (ready_poll f cx) (λ r _, ∃ src, w_heap (s_w s) !! rd_source f = Some src ∧
    let d := dir_get (src_state src) (rd_dir f) in
    (r.1 = Prelude.Ready (Ok tt) ↔ event_delivered (rd_ticks f) (tick d) = true) ∧
    ∃ i, (r.2 = f ∨ slot_of f d (s_w s) i r.2) ∧
         (event_delivered (rd_ticks f) (tick d) = false → slot_of f d (s_w s) i r.2)) (s_w s).
Proof.
  intros Hok Hf. destruct (ok_fut _ Hok _ _ Hf) as [_ (src & Hl & Hslot) _ _].
  apply (ready_poll_wp f src); [done|done|..].
  - intros Hd. exists src. split; [done|]. cbv zeta. rewrite Hd. split; [done|].
    exists 0. split; [by left|done].
  - intros Hd i f' ws res e Hi _ Ha. exists src. split; [done|]. cbv zeta. rewrite Hd.
    split; [|exists i; split; [by right|done]].
    split; [|done]. cbn. intros ->. unfold asked in Ha.
    destruct (is_empty _); [|by destruct Ha]. by destruct Ha as ([[]|x] & _ & ?).
Qed.

(** What stays of a future: its direction, and, once it has been polled, its slot and the
    ticks it remembered. *)
Definition same_fut (f f' : ReadyFut) : Prop :=
  rd_source f' = rd_source f ∧ rd_dir f' = rd_dir f ∧
  (rd_index f ≠ None → rd_index f' = rd_index f ∧ rd_ticks f' = rd_ticks f).

Lemma same_fut_trans f f' f'' : same_fut f f' → same_fut f' f'' → same_fut f f''.
Proof.
  intros (Hs & Hd & Hi) (Hs' & Hd' & Hi'). split_and!; [congruence..|].
  intros Hn. destruct (Hi Hn) as [He Ht]. rewrite <- He in Hn.
  destruct (Hi' Hn). split; congruence.
Qed.

Lemma slot_of_same_fut f (d : Direction Slab) w i f' : slot_of f d w i f' → same_fut f f'.
Proof.
  unfold slot_of, same_fut. destruct (rd_index f) eqn:Hj.
  - by intros [_ ->].
  - by intros [_ ->].
Qed.

Lemma exec_poll_fut id cx s s' f :
  sys_ok s → exec (EPollFut id cx) s = Some s' → s_futs s !! id = Some f →
  ∃ r w', ready_poll f cx (s_w s) = Ret (r, w') ∧ s_futs s' = <[id := r.2]> (s_futs s).
Proof.
  intros Hok He Hf. destruct (ready_poll_ok s id f cx Hok Hf) as (r & w' & Hrun & _).
  exists r, w'. split; [done|]. unfold exec in He. case_decide as Hg; [|done].
  rewrite Hf in He. cbn in He. unfold effect in He. rewrite Hrun in He. destruct r as [r f'].
  cbn in He. by simplify_eq.
Qed.

Lemma exec_fut ev s s' id f :
  sys_ok s → exec ev s = Some s' → ev ≠ EDropFut id → s_futs s !! id = Some f →
  ∃ f', s_futs s' !! id = Some f' ∧ same_fut f f'.
Proof.
  intros Hok He Hne Hf.
  assert (s_futs s' = s_futs s → ∃ f', s_futs s' !! id = Some f' ∧ same_fut f f') as Hsame
    by (intros ->; by exists f).
  pose proof (exec_guard _ _ _ He) as Hg. destruct ev as [| | | |id' l d|id' cx|id'| | | | | |];
    try (apply Hsame; unfold exec in He; rewrite decide_True in He by done;
         apply bind_Some in He as ([? ?] & _ & He); by simplify_eq).
  - unfold exec in He. rewrite decide_True in He by done. destruct Hg as [_ Hnone]. simplify_eq.
    exists f. cbn. by rewrite lookup_insert_ne by congruence.
  - destruct (decide (id' = id)) as [->|Hid].
    + destruct (exec_poll_fut _ _ _ _ _ Hok He Hf) as (r & w' & Hrun & ->).
      exists r.2. rewrite lookup_insert_eq. split; [done|].
      pose proof (wp_det _ _ _ _ _ (ready_poll_ok s id f cx Hok Hf) Hrun)
        as (src & _ & _ & i & [->|Hi] & _); [done|by eapply slot_of_same_fut].
    + destruct Hg as [f0 Hf0].
      destruct (exec_poll_fut _ _ _ _ _ Hok He Hf0) as (r & w' & _ & ->).
      exists f. by rewrite lookup_insert_ne.
  - unfold exec in He. rewrite decide_True in He by done. destruct Hg as [f0 Hf0].
    rewrite Hf0 in He. cbn in He. apply bind_Some in He as ([? ?] & _ & He). simplify_eq.
    exists f. cbn. rewrite lookup_delete_ne by congruence. done.
  - apply Hsame. unfold exec in He. rewrite decide_True in He by done. by simplify_eq.
Qed.

Lemma run_fut evs s s' id f :
  sys_ok s → run evs s = Some s' → EDropFut id ∉ evs → s_futs s !! id = Some f →
  ∃ f', s_futs s' !! id = Some f' ∧ same_fut f f'.
Proof.
  revert s f. induction evs as [|ev evs IH]; intros s f Hok Hrun Hnin Hf; cbn in Hrun.
  { simplify_eq. by exists f. }
  apply bind_Some in Hrun as (s1 & He & Hrun). apply not_elem_of_cons in Hnin as [Hne Hnin].
  destruct (exec_fut ev s s1 id f Hok He (not_eq_sym Hne) Hf) as (f1 & Hf1 & Hsame).
  destruct (IH s1 f1) as (f' & ? & ?); [by eapply sys_ok_exec|done|done|done|].
  exists f'. split; [done|]. by eapply same_fut_trans.
Qed.

(** The tick of a direction, against what was delivered. *)
Lemma tick_delivered s l src d a :
  sys_ok s → w_heap (s_w s) !! l = Some src → 0 ≤ a →
  a < tick (dir_get (src_state src) d) ↔ ∃ t, a < t ∧ (t, l, d) ∈ s_log s.
Proof.
  intros Hok Hl Ha.
  destruct (source_dirs _ _ _ _ _ _ _ _ (ok_source _ Hok _ _ Hl) d) as [_ Hlog Hlast _]. split.
  - intros Hlt. destruct Hlog as [?|Hin]; [lia|]. by eexists.
  - intros (t & Hlt & Hin%Hlast). lia.
Qed.

(** The poller is asked for the direction of a source, under its key, or an event of the
    source is in flight, upon which its interest will be stated again. *)
Definition attended s (src : Source Slab Reg) (d : Dir) : Prop :=
  ∃ ev, ev_key ev = src_key src ∧
    ((interest (w_env (s_w s)) (src_registration src) = Some ev ∧ ev_flag ev d = true) ∨
     ev ∈ in_flight (s_ph s)).

Lemma attended_ok s l src d k :
  sys_ok s → s_errs s = false → l ∈ s_handles s → w_heap (s_w s) !! l = Some src →
  k ∈ dir_wakers (dir_get (src_state src) d) → attended s src d.
Proof.
  intros Hok Herrs Hin Hl Hk. destruct (ok_source _ Hok _ _ Hl) as [_ _ Hkn Hc].
  destruct (Hkn Hin) as (ev & Hev & Hkey). destruct (Hc Hin Herrs d) as [Hc'|Hc'].
  - apply is_empty_false. by exists k.
  - destruct Hc' as (ev' & Hev' & Hfl). rewrite Hev in Hev'. injection Hev' as <-.
    exists ev. by auto.
  - destruct Hc' as (ev' & Hfl & Hkey'). exists ev'. by auto.
Qed.
End runs.

(** * Properties *)

Section interleaving_properties.
Context {Slab Queue : Type → Type} {Reg Env : Type}.
Context `{SlabOps Slab, QueueOps Queue, EnvOps Env, RegOps Reg Env}.
Context `{!SlabLaws Slab, !QueueLaws Queue, !ClockLaws Env, !NotifyLaws Env, !RegLaws Reg Env}.
Context `{EqDecision Reg, CallOps Reg Env, !CallLaws Reg Env}.
Local Abbreviation World := (World Slab Queue Reg Env).
Local Abbreviation Sys := (Sys (Slab := Slab) (Queue := Queue) (Reg := Reg) (Env := Env)).

(** C3 No wakeup of a future is lost, in any interleaving of tasks with the rounds of the
    reactor, unless the poller has refused to modify an interest: the waker [k] of a future
    that was last answered [Pending], when [n] wakes had been made, has been woken since;
    or the round that runs has collected it and is going to wake it; or it is in the slot
    of the future, whose source and direction are attended to. *)
Theorem no_lost_wakeup (s : Sys) (id : Z) (k : Waker) (n : nat)
    (Hs : reachable s) (Herrs : s_errs s = false)
    (Hw : of_futs (s_waits s) !! id = Some (k, n)) :
  k ∈ drop n (w_woken (s_w s)) ∨ k ∈ ph_wakers (s_ph s) ∨
  ∃ f src, s_futs s !! id = Some f ∧ w_heap (s_w s) !! rd_source f = Some src ∧
    holds (s_w s) f k ∧ attended s src (rd_dir f).
Proof.
  pose proof (sys_ok_reachable _ Hs) as Hok.
  destruct (wait_fut _ _ _ _ _ _ (ok_waits _ Hok) _ _ _ Hw) as (f & Hf & [_ Hwh]).
  destruct (Hwh Herrs) as [Hh|[?|?]]; [|by auto|by auto]. right. right.
  pose proof Hh as (src & i & Hl & Hi & Hk). pose proof (ok_fut _ Hok _ _ Hf) as [Hin _ _ _].
  exists f, src. split_and!; try done. eapply attended_ok; try done.
  apply elem_of_dir_wakers. by eauto.
Qed.

(** Nor is that of a [poll_ready]: the waker it left behind with [Pending] has been woken
    since, is going to be by the round that runs, or is still that of the direction, which
    is attended to. In particular a waker that is replaced is woken. *)
Theorem no_lost_poll_wakeup (s : Sys) (l : loc) (d : Dir) (k : Waker) (n : nat)
    (Hs : reachable s) (Herrs : s_errs s = false)
    (Hw : of_polls (s_waits s) !! (l, d) = Some (k, n)) :
  k ∈ drop n (w_woken (s_w s)) ∨ k ∈ ph_wakers (s_ph s) ∨
  ∃ src, w_heap (s_w s) !! l = Some src ∧ waker (dir_get (src_state src) d) = Some k ∧
    attended s src d.
Proof.
  pose proof (sys_ok_reachable _ Hs) as Hok.
  destruct (wait_poll _ _ _ _ _ _ (ok_waits _ Hok) _ _ _ _ Hw) as [Hin [_ Hwh]].
  destruct (Hwh Herrs) as [(src & Hl & Hk)|[?|?]]; [|by auto|by auto]. right. right.
  exists src. split_and!; try done. eapply attended_ok; try done.
  apply elem_of_dir_wakers. by left.
Qed.

(** Nor is that of a timer: as long as it is not removed, its waker stays registered with
    the reactor until a round collects it, to wake it; unless the poller refuses to modify
    an interest, which makes a round forget those it has collected. *)
Theorem no_lost_timer (s : Sys) (when : Instant) (id : Z) (k : Waker) (n : nat)
    (Hs : reachable s) (Herrs : s_errs s = false)
    (Hw : of_timers (s_waits s) !! (when, id) = Some (k, n)) :
  k ∈ drop n (w_woken (s_w s)) ∨ k ∈ ph_wakers (s_ph s) ∨
  live_timers (s_w s) !! (when, id) = Some k.
Proof.
  destruct (wait_timer _ _ _ _ _ _ (ok_waits _ (sys_ok_reachable _ Hs)) _ _ _ Hw) as [_ Hwh].
  destruct (Hwh Herrs) as [?|[?|?]]; auto.
Qed.

(** C8 Readiness is never stale, and never missed: a future, first polled in the state [s0]
    and not dropped since, completes exactly when a round that began after that first
    poll has delivered an event of its source and direction, whatever happened in
    between. *)
Theorem future_ready_iff (s0 s1 s : Sys) (id : Z) (f0 f : ReadyFut) (cx0 cx : Waker)
    (evs : list Ev) (Hs : reachable s0) (Hf0 : s_futs s0 !! id = Some f0)
    (Hnew : rd_index f0 = None) (Hfirst : exec (EPollFut id cx0) s0 = Some s1)
    (Hrun : run evs s1 = Some s) (Hdrop : EDropFut id ∉ evs)
    (Hf : s_futs s !! id = Some f) :
  wp (ready_poll f cx)
    (λ r _, r.1 = Prelude.Ready (Ok tt) ↔
       ∃ t, w_ticker (s_w s0) < t ∧ (t, rd_source f0, rd_dir f0) ∈ s_log s) (s_w s).
Proof.
  pose proof (sys_ok_reachable _ Hs) as Hok0.
  pose proof (sys_ok_exec _ _ _ Hok0 Hfirst) as Hok1. pose proof (run_ok _ _ _ Hok1 Hrun) as Hok.
  destruct (exec_poll_fut _ _ _ _ _ Hok0 Hfirst Hf0) as (r0 & w0 & Hrun0 & Hfuts).
  pose proof (wp_det _ _ _ _ _ (ready_poll_ok s0 id f0 cx0 Hok0 Hf0) Hrun0)
    as (src0 & Hl0 & _ & i & _ & Hslot).
  rewrite (fut_started _ _ _ (ok_fut _ Hok0 _ _ Hf0) Hnew) in Hslot.
  specialize (Hslot eq_refl). unfold slot_of in Hslot. rewrite Hnew in Hslot.
  destruct Hslot as [_ Hr]. 
  destruct (run_fut evs s1 s id r0.2 Hok1 Hrun Hdrop) as (f' & Hf' & Hsrc & Hdir & Hsame).
  { by rewrite Hfuts, lookup_insert_eq. }
  rewrite Hf in Hf'. injection Hf' as <-. rewrite Hr in Hsrc, Hdir, Hsame. cbn in *.
  destruct (Hsame ltac:(done)) as [_ Hticks].
  eapply wp_mono; [by eapply ready_poll_ok|]. cbv beta. intros r w (src & Hl & Hiff & _).
  rewrite Hiff, Hticks. pose proof (fut_ticks _ _ _ (ok_fut _ Hok _ _ Hf) _ Hl) as Ht.
  rewrite Hticks in Ht. rewrite (ticks_ok_fresh _ _ _ _ Ht).
  rewrite (tick_delivered _ _ _ _ _ Hok Hl), Hsrc, Hdir; [done|]. apply (ok_ticker _ Hok0).
Qed.

(** C10 The invariant types the states of the system: it holds when the reactor starts, and
    from a state in which it holds, a step that may be taken does not panic and leads to
    one in which it holds, whether it belongs to a task or to a round; a step that may not
    be taken is refused. *)
Theorem system_well_formed (e : Env) (s : Sys) (ev : Ev) (Hok : sys_ok s) :
  sys_ok (initial e : Sys) ∧
  if decide (guard ev s) then ∃ s', exec ev s = Some s' ∧ sys_ok s' else exec ev s = None.
Proof.
  split; [apply sys_ok_initial|]. case_decide as Hg.
  - by apply exec_good.
  - unfold exec. by rewrite decide_False.
Qed.

(** C20 A round that is let alone from any reachable state on comes to its end, and if it
    succeeds it has woken, since then, everyone it had collected. *)
Theorem round_completes (s : Sys) (Hs : reachable s)
    (Ht : w_ticker (s_w s) + 1 < USIZE_MOD) :
  ∃ n s' res, run (replicate n ERound) s = Some s' ∧ s_ph s' = Idle res ∧
    (res = Ok tt → ∀ k, k ∈ ph_wakers (s_ph s) →
       k ∈ drop (length (w_woken (s_w s))) (w_woken (s_w s'))).
Proof.
  destruct (round_ends s) as (n & s' & res & Hrun & Hph & _ & Hw);
    [by apply sys_ok_reachable|done|]. by exists n, s', res.
Qed.

(** C13 The interest of the poller covers whoever waits, in every reachable state and both
    for futures and for [poll_ready], unless the poller has refused to modify an interest:
    if a direction of the source of a live adapter holds a waker, it is attended to. *)
Theorem interest_covers (s : Sys) (l : loc) (src : Source Slab Reg) (d : Dir) (k : Waker)
    (Hs : reachable s) (Herrs : s_errs s = false) (Hin : l ∈ s_handles s)
    (Hl : w_heap (s_w s) !! l = Some src)
    (Hk : k ∈ dir_wakers (dir_get (src_state src) d)) :
  attended s src d.
Proof. eapply attended_ok; try done. by apply sys_ok_reachable. Qed.

(** C19 The steps of a round refine [react]: taken without interference, they lead to a
    result and a state exactly when [react] does. *)
Theorem round_is_react (timeout : option Duration) (w : World) (res : io_result unit)
    (w' : World) :
  react timeout w = Ret (res, w') ↔
  ∃ ph w1, round_start timeout w = Ret (ph, w1) ∧ round ph w1 res w'.
Proof.
  rewrite react_finish. split.
  - intros Hrun. ret_inv Hrun. eexists _, _. split; [done|]. by apply round_finish_iff.
  - intros (ph & w1 & Hstart & Hround%round_finish_iff). unfold mbind, M_bind.
    by rewrite Hstart.
Qed.
End interleaving_properties.

(** * Witnesses *)

Abbreviation RefSys := (Sys (Slab := RefSlab) (Queue := RefQueue) (Reg := Unix.Registration)
  (Env := RefEnv)).

Abbreviation RefEv := (Ev (Reg := Unix.Registration) (Env := RefEnv)).

(** A system whose poller reports, after 10 ns, that the source with key 0 is readable. *)
Definition boot : RefSys := initial (ref_env 1000 readable_script).

(** The state some steps lead to. *)
Definition state_of (evs : list RefEv) : RefSys :=
  default boot (run evs boot).
Definition possible (evs : list RefEv) : bool :=
  match run evs boot with Some _ => true | None => false end.

Lemma run_reachable (evs : list RefEv) (s s' : RefSys) :
  reachable s → run evs s = Some s' → reachable s'.
Proof.
  revert s. induction evs as [|ev evs IH]; intros s Hs Hrun; cbn in Hrun; [by simplify_eq|].
  apply bind_Some in Hrun as (s1 & He & Hrun). eapply IH; [by eapply reach_step|done].
Qed.

Lemma state_of_reachable evs : possible evs = true → reachable (state_of evs).
Proof.
  unfold possible, state_of. destruct (run evs boot) as [s|] eqn:Hrun; [|done]. intros _.
  eapply run_reachable; [apply reach_initial|exact Hrun].
Qed.

(** A source is registered; the future 5 waits to read, a [poll_ready] to write; a timer
    is set; a round starts and the poller reports that the source is readable. *)
Definition waiting_steps : list RefEv :=
  [EInsert (Unix.mkRegistration 7); EAdd 1%positive; ENewFut 5 1%positive READ].
Definition polled_steps : list RefEv :=
  [EPollReady 1%positive WRITE waker2; EPushTimer 500 waker3; EReact None; ERound; ERound;
   ERound; ERound].
Definition all_steps : list RefEv :=
  waiting_steps ++ EPollFut 5 waker1 :: polled_steps.

Lemma waiting_reachable : reachable (state_of waiting_steps).
Proof. apply state_of_reachable. vm_compute. exact eq_refl. Qed.
Lemma all_reachable : reachable (state_of all_steps).
Proof. apply state_of_reachable. vm_compute. exact eq_refl. Qed.

(** What computation says of these states. *)
Lemma all_no_error : s_errs (state_of all_steps) = false.
Proof. vm_compute. exact eq_refl. Qed.
Lemma all_of_futs : of_futs (s_waits (state_of all_steps)) !! 5 = Some (waker1, 0%nat).
Proof. vm_compute. exact eq_refl. Qed.
Lemma all_of_polls :
  of_polls (s_waits (state_of all_steps)) !! (1%positive, WRITE) = Some (waker2, 0%nat).
Proof. vm_compute. exact eq_refl. Qed.
Lemma all_of_timers :
  of_timers (s_waits (state_of all_steps)) !! (500, 1) = Some (waker3, 0%nat).
Proof. vm_compute. exact eq_refl. Qed.
Lemma all_woken : w_woken (s_w (state_of all_steps)) = [].
Proof. vm_compute. exact eq_refl. Qed.
Lemma all_collected : ph_wakers (s_ph (state_of all_steps)) = [waker3; waker1].
Proof. vm_compute. exact eq_refl. Qed.
Lemma all_fut :
  s_futs (state_of all_steps) !! 5 = Some (mkReady 1%positive READ (Some (0, 0)) (Some 0)).
Proof. vm_compute. exact eq_refl. Qed.
Lemma waiting_fut : s_futs (state_of waiting_steps) !! 5 = Some (ready 1%positive READ).
Proof. vm_compute. exact eq_refl. Qed.
Lemma waiting_poll :
  exec (EPollFut 5 waker1) (state_of waiting_steps) =
  Some (state_of (waiting_steps ++ [EPollFut 5 waker1])).
Proof. vm_compute. exact eq_refl. Qed.
Lemma polled_run :
  run polled_steps (state_of (waiting_steps ++ [EPollFut 5 waker1])) =
  Some (state_of all_steps).
Proof. vm_compute. exact eq_refl. Qed.
Lemma all_log : s_log (state_of all_steps) = [(1, 1%positive, READ)].
Proof. vm_compute. exact eq_refl. Qed.
Lemma all_ticker : w_ticker (s_w (state_of all_steps)) = 1.
Proof. vm_compute. exact eq_refl. Qed.
Lemma waiting_ticker : w_ticker (s_w (state_of waiting_steps)) = 0.
Proof. vm_compute. exact eq_refl. Qed.
Lemma all_live : live_timers (s_w (state_of all_steps)) !! (500, 1) = None.
Proof. vm_compute. exact eq_refl. Qed.
Lemma all_handle : 1%positive ∈ s_handles (state_of all_steps).
Proof. vm_compute. exact eq_refl. Qed.
Lemma all_source :
  ∃ src, w_heap (s_w (state_of all_steps)) !! 1%positive = Some src ∧
    waker (dir_get (src_state src) WRITE) = Some waker2.
Proof. eexists. split; vm_compute; exact eq_refl. Qed.

(** The future is going to be woken. *)
Lemma no_lost_wakeup_witness :
  waker1 ∈ ph_wakers (s_ph (state_of all_steps)) ∨
  ∃ f src, s_futs (state_of all_steps) !! 5 = Some f ∧
    w_heap (s_w (state_of all_steps)) !! rd_source f = Some src ∧
    holds (s_w (state_of all_steps)) f waker1 ∧ attended (state_of all_steps) src (rd_dir f).
Proof.
  pose proof (no_lost_wakeup (state_of all_steps) 5 waker1 0 all_reachable all_no_error
                all_of_futs) as Hk.
  rewrite all_woken in Hk. destruct Hk as [Hk|Hk]; [|exact Hk].
  by apply elem_of_nil in Hk.
Defined.

(** The writer still waits, and is attended to. *)
Lemma no_lost_poll_wakeup_witness :
  ∃ src, w_heap (s_w (state_of all_steps)) !! 1%positive = Some src ∧
    waker (dir_get (src_state src) WRITE) = Some waker2 ∧
    attended (state_of all_steps) src WRITE.
Proof.
  pose proof (no_lost_poll_wakeup (state_of all_steps) 1%positive WRITE waker2 0
                all_reachable all_no_error all_of_polls) as Hk.
  rewrite all_woken, all_collected in Hk. destruct Hk as [Hk|[Hk|Hk]].
  - by apply elem_of_nil in Hk.
  - exfalso. by repeat (apply elem_of_cons in Hk as [Hk|Hk]; [discriminate Hk|]);
      apply elem_of_nil in Hk.
  - exact Hk.
Defined.

(** The timer was overdue when the round started. *)
Lemma no_lost_timer_witness : waker3 ∈ ph_wakers (s_ph (state_of all_steps)).
Proof.
  pose proof (no_lost_timer (state_of all_steps) 500 1 waker3 0 all_reachable all_no_error
                all_of_timers) as Hk.
  rewrite all_woken, all_live in Hk. destruct Hk as [Hk|[Hk|Hk]].
  - by apply elem_of_nil in Hk.
  - exact Hk.
  - discriminate Hk.
Defined.

(** The future is ready: the round 1 began after its first poll, in round 0. *)
Lemma future_ready_iff_witness :
  ∃ r w', ready_poll (mkReady 1%positive READ (Some (0, 0)) (Some 0)) waker1
            (s_w (state_of all_steps)) = Ret (r, w') ∧ r.1 = Prelude.Ready (Ok tt).
Proof.
  assert (EDropFut 5 ∉ polled_steps) as Hdrop by (unfold polled_steps; set_solver).
  destruct (future_ready_iff _ _ _ 5 _ _ waker1 waker1 polled_steps waiting_reachable
              waiting_fut eq_refl waiting_poll polled_run Hdrop all_fut)
    as (r & w' & Hrun & Hiff).
  exists r, w'. split; [exact Hrun|]. apply Hiff. exists 1.
  rewrite waiting_ticker, all_log. split; [exact eq_refl|by left].
Defined.

Lemma system_well_formed_witness :
  sys_ok boot ∧ ∃ s', exec (EInsert (Unix.mkRegistration 7)) boot = Some s' ∧ sys_ok s'.
Proof.
  destruct (system_well_formed (ref_env 1000 readable_script) boot
              (EInsert (Unix.mkRegistration 7))
              (sys_ok_reachable _ (reach_initial _))) as [Hok Hstep].
  split; [exact Hok|exact Hstep].
Defined.

Lemma round_completes_witness :
  ∃ n s' res, run (replicate n ERound) (state_of all_steps) = Some s' ∧ s_ph s' = Idle res ∧
    (res = Ok tt → waker1 ∈ drop 0 (w_woken (s_w s')) ∧ waker3 ∈ drop 0 (w_woken (s_w s'))).
Proof.
  assert (w_ticker (s_w (state_of all_steps)) + 1 < USIZE_MOD) as Ht
    by (rewrite all_ticker; exact eq_refl).
  destruct (round_completes (state_of all_steps) all_reachable Ht)
    as (n & s' & res & Hrun & Hph & Hwoken).
  exists n, s', res. split_and!; [exact Hrun|exact Hph|]. intros Hres.
  rewrite all_collected, all_woken in Hwoken.
  split; apply (Hwoken Hres); [by right; left|by left].
Defined.

Lemma interest_covers_witness : ∃ src, attended (state_of all_steps) src WRITE.
Proof.
  destruct all_source as (src & Hl & Hw). exists src.
  eapply (interest_covers _ _ src WRITE waker2 all_reachable all_no_error all_handle Hl).
  apply elem_of_dir_wakers. by left.
Defined.
