(* ===== verification/Progress.v ===== *)
(** What the rounds of the reactor achieve, however tasks interfere: an event that the
    poller has reported wakes the task that waits for it, and a round that starts when a
    timer is due wakes its task. *)
From S2P Require Import Prelude Std Deps Registration RefDeps World RefWorld Timers.
From S2P Require Import Source Reactor Ready System Steps Interleaving.
Import System.

Section progress.
Context {Slab Queue : Type → Type} {Reg Env : Type}.
Context `{SlabOps Slab, QueueOps Queue, EnvOps Env, RegOps Reg Env}.
Context `{!SlabLaws Slab, !QueueLaws Queue, !ClockLaws Env, !NotifyLaws Env, !RegLaws Reg Env}.
Context `{EqDecision Reg, CallOps Reg Env, !CallLaws Reg Env}.
Local Abbreviation World := (World Slab Queue Reg Env).
Local Abbreviation Source := (Source Slab Reg).
Local Abbreviation Sys := (Sys (Slab := Slab) (Queue := Queue) (Reg := Reg) (Env := Env)).
Implicit Types (w : World) (src : Source) (s : Sys) (f : ReadyFut).

(** * What a step leaves alone

    A step that does not poll the future [f] gives its slot no waker, and its source keeps
    its key. *)
Record quiet w w' f : Prop := {
  quiet_key : src_key <$> w_heap w' !! rd_source f = src_key <$> w_heap w !! rd_source f;
  quiet_slot : ∀ k, holds w' f k → holds w f k;
}.

Lemma quiet_heap w w' f : w_heap w' = w_heap w → quiet w w' f.
Proof. intros Hh. split; [by rewrite Hh|]. intros k. by apply holds_heap. Qed.

Lemma quiet_io w w' f : same_io w w' → quiet w w' f.
Proof. intros [_ _ Hh _]. by apply quiet_heap. Qed.

Lemma quiet_writes w l src st e w' f :
  writes w l src st e w' →
  (∀ i k, rd_source f = l → rd_index f = Some i →
     slab_map (wakers (dir_get st (rd_dir f))) !! i = Some (Some k) →
     slab_map (wakers (dir_get (src_state src) (rd_dir f))) !! i = Some (Some k)) →
  quiet w w' f.
Proof.
  intros Hw Hslot. pose proof (writes_lookup _ _ _ _ _ _ Hw) as Hl. split.
  - rewrite (writes_heap _ _ _ _ _ _ Hw). destruct (decide (rd_source f = l)) as [->|Hne].
    + by rewrite lookup_insert_eq, Hl.
    + by rewrite lookup_insert_ne.
  - intros k (src' & i & Hl' & Hi & Hk). rewrite (writes_heap _ _ _ _ _ _ Hw) in Hl'.
    destruct (decide (rd_source f = l)) as [Heq|Hne].
    + rewrite Heq, lookup_insert_eq in Hl'. injection Hl' as <-. exists src, i.
      rewrite Heq. split_and!; [done|done|]. by apply Hslot.
    + rewrite lookup_insert_ne in Hl' by done. by exists src', i.
Qed.

(** Delivering an event empties the directions it reports. *)
Lemma delivered_no_waker tick ev (st : Directions Slab) ks d i k :
  ev_flag ev d = true →
  slab_map (wakers (dir_get (deliver_event tick ev st ks).1 d)) !! i ≠ Some (Some k).
Proof.
  intros Hf Hk.
  assert (k ∈ dir_wakers (dir_get (deliver_event tick ev st ks).1 d)) as Hin
    by (apply elem_of_dir_wakers; eauto).
  apply (delivered_wakers _ _ _ _ (deliver_event_delivered tick ev st ks d)) in Hin.
  rewrite Hf in Hin. by destruct Hin.
Qed.

(** ** Step by step *)

Lemma effect_inv {A} (m : M World A) (Q : A → World → Prop) w (k : A * World → option Sys) s' :
  wp m Q w → (effect m w ≫= k) = Some s' → ∃ a w', Q a w' ∧ k (a, w') = Some s'.
Proof. intros (a & w' & Hm & HQ). unfold effect. rewrite Hm. cbn. eauto. Qed.

Lemma insert_quiet raw s id f :
  sys_ok s → s_futs s !! id = Some f →
  wp (insert_io_entry raw) (λ _ w', quiet (s_w s) w' f) (s_w s).
Proof.
  intros Hok Hf. destruct (fut_slot _ _ _ (ok_fut _ Hok _ _ Hf)) as (src & Hl & _).
  apply insert_io_entry_wp. intros l Hnone.
  assert (l ≠ rd_source f) as Hne by (intros ->; congruence). split.
  - cbn. by rewrite lookup_insert_ne.
  - intros k (src' & i & Hl' & ?). cbn in Hl'. rewrite lookup_insert_ne in Hl' by done.
    by exists src', i.
Qed.

Lemma add_quiet l s f :
  sys_ok s → l ∈ s_adding s →
  wp (insert_io_register l) (λ _ w', quiet (s_w s) w' f) (s_w s).
Proof.
  intros Hok Hg. destruct (ok_registered _ Hok l) as (src & Hl & Hk); [set_solver|].
  eapply insert_io_register_wp; [done..|]. intros [[]|x] e _; [by apply quiet_heap|].
  intros sl _. by apply quiet_heap.
Qed.

Lemma remove_quiet l s f :
  sys_ok s → l ∈ s_handles s → wp (remove_io l) (λ _ w', quiet (s_w s) w' f) (s_w s).
Proof.
  intros Hok Hg. destruct (ok_registered _ Hok l) as (src & Hl & Hk); [set_solver|].
  eapply remove_io_wp; [done..|]. intros sl _. by apply quiet_heap.
Qed.

Lemma poll_ready_quiet l d cx s f :
  sys_ok s → l ∈ s_handles s → wp (poll_ready l d cx) (λ _ w', quiet (s_w s) w' f) (s_w s).
Proof.
  intros Hok Hg. destruct (ok_registered _ Hok l) as (src & Hl & _); [set_solver|].
  assert (∀ x i k, wakers x = wakers (dir_get (src_state src) d) →
    slab_map (wakers (dir_get (dir_set (src_state src) d x) (rd_dir f))) !! i = Some (Some k) →
    slab_map (wakers (dir_get (src_state src) (rd_dir f))) !! i = Some (Some k)) as Hx.
  { intros x i k Hx. destruct (decide (d = rd_dir f)) as [<-|Hne].
    - by rewrite dir_get_set_eq, Hx.
    - by rewrite dir_get_set_ne. }
  apply (poll_ready_wp l src); [done|..].
  - intros _. eapply quiet_writes; [by apply writes_state|]. intros i k _ _. by apply Hx.
  - intros _ _. by apply quiet_heap.
  - intros _ _ res e _. eapply quiet_writes; [by apply writes_state_woken|].
    intros i k _ _. by apply Hx.
Qed.

Lemma poll_fut_quiet s id g cx id' f :
  sys_ok s → s_futs s !! id = Some g → s_futs s !! id' = Some f → id ≠ id' →
  wp (ready_poll g cx) (λ _ w', quiet (s_w s) w' f) (s_w s).
Proof.
  intros Hok Hg Hf Hne. pose proof (ok_fut _ Hok _ _ Hg) as [_ (src & Hl & Hslot) _ _].
  apply (ready_poll_wp g src); [done|done|by intros; apply quiet_heap|].
  intros _ i g' ws res e Hi Hws _. eapply quiet_writes; [by apply writes_state|].
  intros j k Hs Hj. by erewrite registered_others.
Qed.

Lemma drop_fut_quiet s id g id' f :
  sys_ok s → s_futs s !! id = Some g → s_futs s !! id' = Some f → id ≠ id' →
  wp (ready_drop g) (λ _ w', quiet (s_w s) w' f) (s_w s).
Proof.
  intros Hok Hg Hf Hne. pose proof (ok_fut _ Hok _ _ Hg) as [_ Hslot _ _].
  apply ready_drop_wp; [done|by intros; apply quiet_heap|].
  intros src i ws Hl Hi Hws. eapply quiet_writes; [by apply writes_state|].
  intros j k Hs Hj. by erewrite dropped_others.
Qed.
(** An event reports the source of [f] in its direction. *)
Definition reports s (ev : Event) f : Prop :=
  ev_flag ev (rd_dir f) = true ∧
  src_key <$> w_heap (s_w s) !! rd_source f = Some (ev_key ev).

Lemma reports_table s ev id f :
  sys_ok s → s_futs s !! id = Some f → reports s ev f →
  slab_map (w_sources (s_w s)) !! ev_key ev = Some (rd_source f).
Proof.
  intros Hok Hf [_ Hk]. destruct (ok_registered _ Hok (rd_source f)) as (src & Hl & Ht).
  { pose proof (fut_handle _ _ _ (ok_fut _ Hok _ _ Hf)). set_solver. }
  rewrite Hl in Hk. cbn in Hk. injection Hk as <-. done.
Qed.

(** A step of a round; one that delivers an event to the direction of [f] leaves its slot
    empty. *)
Lemma round_quiet s id f :
  sys_ok s → s_futs s !! id = Some f →
  wp (round_step (s_ph s))
    (λ _ w', quiet (s_w s) w' f ∧
       ∀ tick ev evs ks, s_ph s = Delivering tick (ev :: evs) ks → reports s ev f →
         ∀ k, ¬ holds w' f k) (s_w s).
Proof.
  intros Hok Hid.
  destruct (s_ph s) as [res|d ks|tick d ks|d ks|tick evs ks|tick [|ev evs] ks|[|k ks] res]
    eqn:Hph; cbn [round_step]; try (apply wp_ret; split; [by apply quiet_heap|done]).
  - apply wp_bind, wp_env_call, wp_ret. by split; [apply quiet_heap|].
  - apply wp_bind. case_decide; [apply wp_ret, wp_ret; by split; [apply quiet_heap|]|].
    eapply wp_mono; [by apply process_timers_wp, ok_timers|]. cbn beta.
    intros [dur ks'] w1 (now & _ & _ & _ & _ & _ & _ & _ & _ & Hio). apply wp_ret.
    by split; [apply quiet_io|].
  - apply wp_bind, react_event_wp; [by apply ok_sources| |].
    + intros Hnone. apply wp_ret. split; [by apply quiet_heap|].
      intros ???? [= <- <- <- <-] Hr. pose proof (reports_table _ _ _ _ Hok Hid Hr). congruence.
    + intros l src st ks' res e Hk Hl _ Hd _. apply wp_ret.
      assert (st = (deliver_event tick ev (src_state src) ks).1) as -> by by rewrite Hd.
      set (w' := set_env e _).
      assert (writes (s_w s) l src (deliver_event tick ev (src_state src) ks).1 e w') as Hw
        by by apply writes_state.
      split.
      * eapply quiet_writes; [done|]. intros i k _ _ Hi.
        destruct (ev_flag ev (rd_dir f)) eqn:Hf; [by apply delivered_no_waker in Hi|].
        by rewrite (delivered_same _ _ _ _ (deliver_event_delivered _ _ _ _ _) Hf) in Hi.
      * intros ???? [= <- <- <- <-] Hr k (src' & i & Hl' & _ & Hi).
        pose proof (reports_table _ _ _ _ Hok Hid Hr) as Hk'. destruct Hr as [Hf _].
        rewrite (writes_heap _ _ _ _ _ _ Hw) in Hl'.
        assert (rd_source f = l) as Heq by congruence.
        rewrite Heq, lookup_insert_eq in Hl'. injection Hl' as <-. by apply delivered_no_waker in Hi.
Qed.

(** The events in flight after a step of a round. *)
Lemma round_in_flight s id f :
  sys_ok s → s_futs s !! id = Some f →
  wp (round_step (s_ph s))
    (λ ph w', ∀ ev, ev ∈ in_flight (s_ph s) → ev ∈ in_flight ph ∨
       (∃ tick evs ks, s_ph s = Delivering tick (ev :: evs) ks) ∨
       (∃ tick evs ks x, s_ph s = Delivering tick evs ks ∧ ph = Idle (Err x))) (s_w s).
Proof.
  intros Hok Hid. pose proof (round_quiet s id f Hok Hid) as (ph & w' & Hrun & _).
  exists ph, w'. split; [done|]. intros ev Hin.
  destruct (s_ph s) as [res|d ks|tick d ks|d ks|tick evs ks|tick [|ev0 evs] ks|ks res];
    cbn in Hin; try by apply elem_of_nil in Hin.
  - injection Hrun as <- _. by left.
  - apply elem_of_cons in Hin as [->|Hin]; [by eauto 6|].
    cbn [round_step] in Hrun. ret_inv Hrun. destruct a as [[[]|x] ks']; injection Hrun as <- _.
    + by left.
    + eauto 10.
Qed.

(** What holds after a step, whatever it is, of a future that waits. *)
Record stays s s' (id : Z) f : Prop := {
  stays_quiet : quiet (s_w s) (s_w s') f;
  stays_fut : s_futs s' !! id = Some f;
  stays_wait : of_futs (s_waits s') !! id = of_futs (s_waits s) !! id;
  stays_errs : s_errs s' = false → s_errs s = false;
  stays_event : ∀ ev, ev ∈ in_flight (s_ph s) → reports s ev f → s_errs s' = false →
    ev ∈ in_flight (s_ph s') ∨ ∀ k, ¬ holds (s_w s') f k;
}.

Lemma exec_round_stays s s' id f :
  sys_ok s → exec ERound s = Some s' → s_futs s !! id = Some f → stays s s' id f.
Proof.
  intros Hok He Hf. unfold exec in He. case_decide as Hg; [|done].
  apply (effect_inv _ _ _ _ _ (wp_and _ _ _ _ (round_quiet s id f Hok Hf)
                                 (round_in_flight s id f Hok Hf)))
    in He as (ph & w' & [[Hq Hdel] Hfl] & He). injection He as <-.
  split; cbn; [done|done|done|by intros [? _]%orb_false_iff|].
  intros ev Hin Hr [_ Herr]%orb_false_iff.
  destruct (Hfl _ Hin) as [?|[(tick & evs & ks & Hph)|(tick & evs & ks & x & Hph & ->)]].
  - by left.
  - right. by eapply Hdel.
  - by rewrite Hph in Herr.
Qed.

Lemma exec_stays ev s s' id f :
  sys_ok s → exec ev s = Some s' → s_futs s !! id = Some f →
  ev ≠ EDropFut id → (∀ cx, ev ≠ EPollFut id cx) → stays s s' id f.
Proof.
  intros Hok He Hf Hd Hp. pose proof (exec_guard _ _ _ He) as Hg.
  destruct ev as [raw|l|l|l d cx|id' l d|id' cx|id'|when k|when i|c| |timeout|];
    [..|by apply exec_round_stays];
    unfold exec in He; rewrite decide_True in He by done.
  - apply (effect_inv _ _ _ _ _ (insert_quiet raw s id f Hok Hf)) in He as (a & w' & Hq & He).
    injection He as <-. by split; auto.
  - apply (effect_inv _ _ _ _ _ (add_quiet l s f Hok Hg)) in He as (a & w' & Hq & He).
    injection He as <-. by split; auto.
  - apply (effect_inv _ _ _ _ _ (remove_quiet l s f Hok (proj1 Hg))) in He as (a & w' & Hq & He).
    injection He as <-. by split; auto.
  - apply (effect_inv _ _ _ _ _ (poll_ready_quiet l d cx s f Hok Hg)) in He as (a & w' & Hq & He).
    injection He as <-. split; cbn; auto. by intros [? _]%orb_false_iff.
  - injection He as <-. destruct Hg as [_ Hnone]. split; cbn; auto.
    + by apply quiet_heap.
    + by rewrite lookup_insert_ne by congruence.
  - destruct Hg as [g Hg]. rewrite Hg in He. cbn [mbind option_bind] in He.
    assert (id' ≠ id) as Hne by (intros ->; by destruct (Hp cx)).
    apply (effect_inv _ _ _ _ _ (poll_fut_quiet s id' g cx id f Hok Hg Hf Hne))
      in He as ([r g'] & w' & Hq & He).
    injection He as <-. split; cbn; auto.
    + by rewrite lookup_insert_ne.
    + destruct r; cbn; [by rewrite lookup_delete_ne|by rewrite lookup_insert_ne].
    + by intros [? _]%orb_false_iff.
  - destruct Hg as [g Hg]. rewrite Hg in He. cbn [mbind option_bind] in He.
    assert (id' ≠ id) as Hne by (intros ->; by destruct Hd).
    apply (effect_inv _ _ _ _ _ (drop_fut_quiet s id' g id f Hok Hg Hf Hne))
      in He as (a & w' & Hq & He).
    injection He as <-. split; cbn; auto; by rewrite lookup_delete_ne.
  - apply (effect_inv _ _ _ _ _ (push_timer_wp when k (s_w s) (inv_queue _ (ok_timers _ Hok))))
      in He as (a & w' & (_ & _ & _ & _ & _ & Hio) & He).
    injection He as <-. split; cbn; auto. by apply quiet_io.
  - apply (effect_inv _ _ _ _ _ (remove_timer_wp when i (s_w s) (inv_queue _ (ok_timers _ Hok))))
      in He as (a & w' & (_ & _ & _ & _ & Hio) & He).
    injection He as <-. split; cbn; auto. by apply quiet_io.
  - injection He as <-. split; cbn; auto. by apply quiet_heap.
  - apply (effect_inv _ (λ _ w', quiet (s_w s) w' f)) in He as (a & w' & Hq & He);
      [|by apply notify_wp, quiet_heap].
    injection He as <-. by split; auto.
  - cbn in Hg. destruct (s_ph s) as [res|?|?|?|?|?|?] eqn:Hph; try done.
    assert (wp (round_start timeout) (λ _ w', quiet (s_w s) w' f) (s_w s)) as Hstart.
    { unfold round_start, react_prepare. do 2 apply wp_bind.
      eapply wp_mono; [by apply process_timers_wp, ok_timers|]. cbn beta.
      intros [dur ks] w1 (now & _ & _ & _ & _ & _ & _ & _ & _ & Hio). wp_steps. by apply quiet_io. }
    apply (effect_inv _ _ _ _ _ Hstart) in He as (a & w' & Hq & He).
    injection He as <-. split; cbn; auto. rewrite Hph. by intros ev ?%elem_of_nil.
Qed.

(** ** In the long run *)

(** The event is still going to be delivered, or the slot of the future is empty. *)
Definition settled s (ev : Event) f : Prop :=
  (ev ∈ in_flight (s_ph s) ∧ reports s ev f) ∨ ∀ k, ¬ holds (s_w s) f k.

Lemma stays_settled s s' id f ev :
  stays s s' id f → s_errs s' = false → settled s ev f → settled s' ev f.
Proof.
  intros [[Hkey Hslot] _ _ _ Hev] Herr [[Hin Hr]|Hno].
  - destruct (Hev _ Hin Hr Herr) as [Hin'|Hno]; [left|by right]. split; [done|].
    destruct Hr as [Hf Hk]. split; [done|]. by rewrite Hkey.
  - right. intros k Hk. by eapply Hno, Hslot.
Qed.

Lemma run_stays evs s s' id f ev :
  sys_ok s → run evs s = Some s' → s_futs s !! id = Some f → EDropFut id ∉ evs →
  (∀ cx, EPollFut id cx ∉ evs) →
  s_futs s' !! id = Some f ∧ of_futs (s_waits s') !! id = of_futs (s_waits s) !! id ∧
  (s_errs s' = false → s_errs s = false ∧ (settled s ev f → settled s' ev f)).
Proof.
  revert s. induction evs as [|e evs IH]; intros s Hok Hrun Hf Hd Hp; cbn in Hrun.
  { simplify_eq. auto. }
  apply bind_Some in Hrun as (s1 & He & Hrun). apply not_elem_of_cons in Hd as [Hd Hds].
  assert (stays s s1 id f) as Hst.
  { eapply exec_stays; try done. intros cx ->. apply (Hp cx). by left. }
  destruct (IH s1) as (Hf' & Hw' & Herr'); [by eapply sys_ok_exec|done|by apply Hst|done| |].
  { intros cx Hin. apply (Hp cx). by right. }
  pose proof Hst as [_ _ Hw Herr _]. split_and!; [done|congruence|].
  intros He'. destruct (Herr' He') as [He1 Hset]. split; [by apply Herr|].
  intros Hs. apply Hset. by eapply stays_settled.
Qed.

(** A round that starts collects the timers that are due. *)
Lemma react_collects s timeout res0 :
  sys_ok s → s_ph s = Idle res0 →
  ∃ s1, exec (EReact timeout) s = Some s1 ∧ w_woken (s_w s1) = w_woken (s_w s) ∧
    w_ticker (s_w s1) = w_ticker (s_w s) ∧
    ∀ key k, live_timers (s_w s) !! key = Some k → key.1 ≤ env_time (w_env (s_w s)) →
      k ∈ ph_wakers (s_ph s1).
Proof.
  intros Hok Hidle.
  assert (wp (round_start timeout) (λ ph w', w_woken w' = w_woken (s_w s) ∧
    w_ticker w' = w_ticker (s_w s) ∧
    ∀ key k, live_timers (s_w s) !! key = Some k → key.1 ≤ env_time (w_env (s_w s)) →
      k ∈ ph_wakers ph) (s_w s)) as (ph & w' & Hrun & Hw & Ht & Hk).
  { unfold round_start, react_prepare. do 2 apply wp_bind.
    eapply wp_mono; [by apply process_timers_wp, ok_timers|]. cbn beta.
    intros [dur ks] w1 (now & _ & Hle & _ & Hks & _ & _ & _ & _ & [Ht _ _ Hw]). wp_steps.
    split_and!; [done|done|]. intros key k Hk Hdue. cbn in Hks |- *. rewrite Hks.
    by eapply process_timers_due. }
  exists (mkSys w' ph (s_futs s) (s_waits s) (s_handles s) (s_adding s) (s_errs s) (s_log s)).
  split_and!; try done. unfold exec. rewrite decide_True by (cbn; by rewrite Hidle).
  unfold effect. by rewrite Hrun.
Qed.

(** The waker of a future whose event has been reported, at the end of the round. *)
Lemma event_wakes_ok s s' id k n f ev evs res :
  sys_ok s → of_futs (s_waits s) !! id = Some (k, n) → s_futs s !! id = Some f →
  ev ∈ in_flight (s_ph s) → reports s ev f → run evs s = Some s' →
  EDropFut id ∉ evs → (∀ cx, EPollFut id cx ∉ evs) →
  s_ph s' = Idle res → s_errs s' = false → k ∈ drop n (w_woken (s_w s')).
Proof.
  intros Hok Hw Hf Hev Hr Hrun Hdrop Hpoll Hend Herrs.
  destruct (run_stays evs s s' id f ev Hok Hrun Hf Hdrop Hpoll) as (Hf' & Hw' & Hset).
  rewrite Hw in Hw'. destruct (Hset Herrs) as [_ Hset'].
  destruct (wait_fut _ _ _ _ _ _ (ok_waits _ (run_ok _ _ _ Hok Hrun)) _ _ _ Hw')
    as (f' & Hf'' & [_ Hwh]). rewrite Hf' in Hf''. injection Hf'' as <-.
  destruct (Hwh Herrs) as [Hh|[Hk|Hk]]; [|by rewrite Hend in Hk; apply elem_of_nil in Hk|done].
  destruct Hset' as [[Hin _]|Hno]; [by left| |by destruct (Hno k)].
  rewrite Hend in Hin. by apply elem_of_nil in Hin.
Qed.

(** * Properties *)

(** An event wakes the task that waits for it: once the poller has reported an event of
    the source and direction of a future that was answered [Pending] with the waker [k],
    when [n] wakes had been made, that waker has been woken by the end of the round,
    whatever other tasks do meanwhile, unless the future is polled again or dropped, or the
    poller refuses to modify an interest. *)
Theorem event_wakes (s s' : Sys) (id : Z) (k : Waker) (n : nat) (f : ReadyFut) (ev : Event)
    (evs : list Ev) (res : io_result unit) (Hs : reachable s)
    (Hw : of_futs (s_waits s) !! id = Some (k, n)) (Hf : s_futs s !! id = Some f)
    (Hev : ev ∈ in_flight (s_ph s)) (Hr : reports s ev f) (Hrun : run evs s = Some s')
    (Hdrop : EDropFut id ∉ evs) (Hpoll : ∀ cx, EPollFut id cx ∉ evs)
    (Hend : s_ph s' = Idle res) (Herrs : s_errs s' = false) :
  k ∈ drop n (w_woken (s_w s')).
Proof.
  eapply event_wakes_ok; try done. by apply sys_ok_reachable.
Qed.

(** A round wakes the timers that are due when it starts: a timer whose instant has come
    when the thread begins to react, and that is set with the waker [k], has been woken
    when the round, let alone, has ended, and it does end; unless the poller fails. *)
Theorem due_timer_woken (s : Sys) (timeout : option Duration) (res0 : io_result unit)
    (when : Instant) (id : Z) (k : Waker) (n : nat) (Hs : reachable s)
    (Hidle : s_ph s = Idle res0) (Herrs : s_errs s = false)
    (Ht : w_ticker (s_w s) + 1 < USIZE_MOD)
    (Hw : of_timers (s_waits s) !! (when, id) = Some (k, n))
    (Hdue : when ≤ env_time (w_env (s_w s))) :
  ∃ m s' res, run (EReact timeout :: replicate m ERound) s = Some s' ∧ s_ph s' = Idle res ∧
    (res = Ok tt → k ∈ drop n (w_woken (s_w s'))).
Proof.
  pose proof (sys_ok_reachable _ Hs) as Hok.
  destruct (wait_timer _ _ _ _ _ _ (ok_waits _ Hok) _ _ _ Hw) as [Hn Hwh].
  destruct (react_collects s timeout res0 Hok Hidle) as (s1 & He & Hwoken & Htick & Hdue').
  destruct (round_ends s1) as (m & s' & res & Hrun & Hend & [ks Hks] & Hall);
    [by eapply sys_ok_exec|by rewrite Htick|].
  exists m, s', res. cbn [run]. rewrite He. cbn [mbind option_bind].
  split_and!; [done|done|]. intros Hres.
  rewrite Hwoken in Hks. rewrite Hks, drop_app_le by done. apply elem_of_app.
  destruct (Hwh Herrs) as [Hl|[Hk|Hk]].
  - right. specialize (Hall Hres k (Hdue' _ _ Hl Hdue)).
    by rewrite Hks, Hwoken, drop_app_length in Hall.
  - rewrite Hidle in Hk. by apply elem_of_nil in Hk.
  - by left.
Qed.
End progress.

(** The system over the registrations of Windows: sockets and waitable handles. *)
Section windows.
Context {Slab Queue : Type → Type} {E : Type}.
Context `{SlabLaws Slab, QueueLaws Queue, ClockLaws E, !NotifyLaws E}.
Context `{PollerOps E, !PollerLaws E, PollerIocpOps E, !PollerIocpLaws E}.
Context `{CallOps Windows.Registration E, !CallLaws Windows.Registration E}.

Lemma windows_sys_ok
    (s : Sys (Slab := Slab) (Queue := Queue) (Reg := Windows.Registration) (Env := E)) :
  reachable s → sys_ok s.
Proof. apply sys_ok_reachable. Qed.
End windows.

(** * Witnesses *)

(** The poller has reported that the source of the future 5 is readable; another task
    starts to wait before the event is delivered and the round ends. *)
Definition reported_steps : list RefEv :=
  waiting_steps ++ [EPollFut 5 waker1; EReact None; ERound; ERound].
Definition last_steps : list RefEv :=
  [ERound; EPollReady 1%positive WRITE waker2; ERound; ERound; ERound; ERound].

Lemma reported_reachable : reachable (state_of reported_steps).
Proof. apply state_of_reachable. vm_compute. exact eq_refl. Qed.
Lemma reported_of_futs :
  of_futs (s_waits (state_of reported_steps)) !! 5 = Some (waker1, 0%nat).
Proof. vm_compute. exact eq_refl. Qed.
Lemma reported_fut :
  s_futs (state_of reported_steps) !! 5 = Some (mkReady 1%positive READ (Some (0, 0)) (Some 0)).
Proof. vm_compute. exact eq_refl. Qed.
Lemma reported_event : in_flight (s_ph (state_of reported_steps)) = [mkEvent 0 true false].
Proof. vm_compute. exact eq_refl. Qed.
Lemma reported_reports :
  reports (state_of reported_steps) (mkEvent 0 true false)
    (mkReady 1%positive READ (Some (0, 0)) (Some 0)).
Proof. split; vm_compute; exact eq_refl. Qed.
Lemma last_run :
  run last_steps (state_of reported_steps) = Some (state_of (reported_steps ++ last_steps)).
Proof. vm_compute. exact eq_refl. Qed.
Lemma last_idle : s_ph (state_of (reported_steps ++ last_steps)) = Idle (Ok tt).
Proof. vm_compute. exact eq_refl. Qed.
Lemma last_no_error : s_errs (state_of (reported_steps ++ last_steps)) = false.
Proof. vm_compute. exact eq_refl. Qed.

Lemma event_wakes_witness : waker1 ∈ w_woken (s_w (state_of (reported_steps ++ last_steps))).
Proof.
  pose proof (event_wakes _ (state_of (reported_steps ++ last_steps)) 5 waker1 0 _
                (mkEvent 0 true false) last_steps (Ok tt) reported_reachable reported_of_futs reported_fut) as Hk.
  rewrite reported_event in Hk.
  refine (Hk ltac:(by left) reported_reports last_run _ _ last_idle last_no_error);
    unfold last_steps; set_solver.
Defined.

(** A timer that was set for an instant in the past. *)
Definition overdue_steps : list RefEv := [EPushTimer 500 waker3].

Lemma overdue_reachable : reachable (state_of overdue_steps).
Proof. apply state_of_reachable. vm_compute. exact eq_refl. Qed.
Lemma overdue_idle : s_ph (state_of overdue_steps) = Idle (Ok tt).
Proof. vm_compute. exact eq_refl. Qed.
Lemma overdue_no_error : s_errs (state_of overdue_steps) = false.
Proof. vm_compute. exact eq_refl. Qed.
Lemma overdue_of_timers :
  of_timers (s_waits (state_of overdue_steps)) !! (500, 1) = Some (waker3, 0%nat).
Proof. vm_compute. exact eq_refl. Qed.
Lemma overdue_ticker : w_ticker (s_w (state_of overdue_steps)) + 1 < USIZE_MOD.
Proof. vm_compute. exact eq_refl. Qed.
Lemma overdue_due : 500 ≤ env_time (w_env (s_w (state_of overdue_steps))).
Proof. vm_compute. discriminate. Qed.

Lemma due_timer_woken_witness :
  ∃ m s' res, run (EReact None :: replicate m ERound) (state_of overdue_steps) = Some s' ∧
    s_ph s' = Idle res ∧ (res = Ok tt → waker3 ∈ w_woken (s_w s')).
Proof.
  exact (due_timer_woken _ None (Ok tt) 500 1 waker3 0 overdue_reachable overdue_idle
           overdue_no_error overdue_ticker overdue_of_timers overdue_due).
Defined.
