(* ===== verification/Wakes.v ===== *)
(** Wakers on their way: what a step of the system wakes, and that what a round has
    collected is woken by its end, in every interleaving (src/src/reactor.rs). *)
From S2P Require Import Prelude Std Deps Registration RefDeps World RefWorld Timers.
From S2P Require Import Source Reactor Ready System Steps Interleaving Progress.
Import System.

Section wakes.
Context {Slab Queue : Type → Type} {Reg Env : Type}.
Context `{SlabOps Slab, QueueOps Queue, EnvOps Env, RegOps Reg Env}.
Context `{!SlabLaws Slab, !QueueLaws Queue, !ClockLaws Env, !NotifyLaws Env, !RegLaws Reg Env}.
Context `{EqDecision Reg, CallOps Reg Env, !CallLaws Reg Env}.
Local Abbreviation World := (World Slab Queue Reg Env).
Local Abbreviation Sys := (Sys (Slab := Slab) (Queue := Queue) (Reg := Reg) (Env := Env)).
Local Abbreviation Ev := (Ev (Reg := Reg) (Env := Env)).
Implicit Types (w : World) (s : Sys).

(** ** What a step wakes *)

(** No wake is undone, no identifier of a timer generated again, and sources keep their
    keys. *)
Record advances w w' : Prop := {
  adv_woken : w_woken w `prefix_of` w_woken w';
  adv_ids : w_id_generator w ≤ w_id_generator w';
  adv_keys : ∀ l src, w_heap w !! l = Some src →
    ∃ src', w_heap w' !! l = Some src' ∧ src_key src' = src_key src;
}.

Lemma advances_same w w' :
  w_woken w' = w_woken w → w_id_generator w' = w_id_generator w → w_heap w' = w_heap w →
  advances w w'.
Proof. intros Hw Hid Hh. split; rewrite ?Hw, ?Hid, ?Hh; eauto. done. Qed.

Lemma advances_state w w' l src st :
  w_heap w !! l = Some src → w_heap w' = <[l := set_src_state st src]> (w_heap w) →
  w_woken w `prefix_of` w_woken w' → w_id_generator w' = w_id_generator w → advances w w'.
Proof.
  intros Hl Hh Hw Hid. split; [done|by rewrite Hid|]. intros l' src' Hl'. rewrite Hh.
  destruct (decide (l' = l)) as [->|Hne].
  - rewrite lookup_insert_eq. rewrite Hl in Hl'. injection Hl' as <-. by eexists.
  - rewrite lookup_insert_ne by done. by eexists.
Qed.

(** Nor do steps that are not about timers change the store of timers. *)
Definition steady w w' : Prop := advances w w' ∧ live_timers w' = live_timers w.

Lemma steady_same w w' :
  w_woken w' = w_woken w → w_id_generator w' = w_id_generator w → w_heap w' = w_heap w →
  w_timers w' = w_timers w → w_timer_ops w' = w_timer_ops w → steady w w'.
Proof. intros. split; [by apply advances_same|by apply live_timers_eq]. Qed.

Lemma steady_state w w' l src st :
  w_heap w !! l = Some src → w_heap w' = <[l := set_src_state st src]> (w_heap w) →
  w_woken w `prefix_of` w_woken w' → w_id_generator w' = w_id_generator w →
  w_timers w' = w_timers w → w_timer_ops w' = w_timer_ops w → steady w w'.
Proof. intros. split; [by eapply advances_state|by apply live_timers_eq]. Qed.

(** The world a step leads to, if its computation meets a specification. *)
Lemma effect_wp_world {A} (m : M World A) (k : A * World → option Sys) (Q : World → Prop) s s' :
  wp m (λ _ w', Q w') (s_w s) → effect m (s_w s) ≫= k = Some s' →
  (∀ a w', k (a, w') = Some s' → s_w s' = w') → Q (s_w s').
Proof.
  intros Hm Hk Hw. apply (effect_inv _ _ _ _ _ Hm) in Hk as (a & w' & Hmore & Hk).
  by rewrite (Hw _ _ Hk).
Qed.

(** Steps that are not about timers, nor of a round. *)
Definition other_step (ev : Ev) : Prop :=
  match ev with
  | EPushTimer _ _ | ERemoveTimer _ _ | EReact _ | ERound => False
  | _ => True
  end.

Lemma other_steady ev s s' :
  sys_ok s → exec ev s = Some s' → other_step ev → steady (s_w s) (s_w s').
Proof.
  intros Hok He Hev. pose proof (exec_guard _ _ _ He) as Hg.
  destruct ev as [raw|l|l|l d cx|id l d|id cx|id|when k|when id|c| |timeout|]; try done;
    unfold exec in He; rewrite decide_True in He by done.
  - refine (effect_wp_world _ _ _ _ _ _ He _); [|intros ?? [= <-]; done].
    apply insert_io_entry_wp. intros l Hnone. split; [split; [done|done|]|by apply live_timers_eq].
    intros l' src Hl'. cbn. rewrite lookup_insert_ne by congruence. by eexists.
  - refine (effect_wp_world _ _ _ _ _ _ He _); [|intros ?? [= <-]; done].
    destruct (ok_registered _ Hok l) as (src & Hl & Hk); [cbn in Hg; set_solver|].
    eapply insert_io_register_wp; [done..|].
    intros [[]|x] e _; [by apply steady_same|]. intros sl _. by apply steady_same.
  - refine (effect_wp_world _ _ _ _ _ _ He _); [|intros ?? [= <-]; done].
    destruct (ok_registered _ Hok l) as (src & Hl & Hk); [cbn in Hg; set_solver|].
    eapply remove_io_wp; [done..|]. intros sl _. by apply steady_same.
  - refine (effect_wp_world _ _ _ _ _ _ He _); [|intros ?? [= <-]; done].
    destruct (ok_registered _ Hok l) as (src & Hl & _); [cbn in Hg; set_solver|].
    apply (poll_ready_wp l src); [done|by intros; eapply steady_state|by intros; apply steady_same|].
    intros _ _ res e _. eapply steady_state; [done|done|by eexists|done..].
  - injection He as <-. by apply steady_same.
  - destruct Hg as [f Hf]. rewrite Hf in He. cbn [mbind option_bind] in He.
    refine (effect_wp_world _ _ _ _ _ _ He _); [|intros [??] ? [= <-]; done].
    pose proof (ok_fut _ Hok _ _ Hf) as [_ (src & Hl & Hslot) _ _].
    apply (ready_poll_wp f src); [done|done|by intros; apply steady_same|].
    intros. by eapply steady_state.
  - destruct Hg as [f Hf]. rewrite Hf in He. cbn [mbind option_bind] in He.
    refine (effect_wp_world _ _ _ _ _ _ He _); [|intros ?? [= <-]; done].
    pose proof (ok_fut _ Hok _ _ Hf) as [_ Hslot _ _].
    apply ready_drop_wp; [done|by intros; apply steady_same|]. intros. by eapply steady_state.
  - injection He as <-. by apply steady_same.
  - refine (effect_wp_world _ _ _ _ _ _ He _); [|intros ?? [= <-]; done].
    apply notify_wp. by apply steady_same.
Qed.

(** What a step does to the store of timers. *)
Definition store_after (ev : Ev) s : TimerMap :=
  match ev with
  | EPushTimer when k => <[(when, w_id_generator (s_w s)) := k]> (live_timers (s_w s))
  | ERemoveTimer when id => delete (when, id) (live_timers (s_w s))
  | _ => live_timers (s_w s)
  end.

Lemma timer_step ev s s' :
  sys_ok s → exec ev s = Some s' → (∀ timeout, ev ≠ EReact timeout) → ev ≠ ERound →
  advances (s_w s) (s_w s') ∧ live_timers (s_w s') = store_after ev s.
Proof.
  intros Hok He Hre Hev. pose proof (exec_guard _ _ _ He) as Hg.
  pose proof (inv_queue _ (ok_timers _ Hok)) as Hq.
  destruct ev as [| | | | | | |when k|when id| | |timeout|];
    try exact (other_steady _ _ _ Hok He I); [..|by destruct (Hre timeout)|done];
    unfold exec in He; rewrite decide_True in He by done;
    refine (effect_wp_world _ _ (λ w', advances (s_w s) w' ∧ _ w' = _) _ _ _ He _);
    try (intros ?? [= <-]; done).
  - eapply wp_mono; [by apply push_timer_wp|].
    intros id w' (-> & Hl & _ & Hid & _ & [_ _ Hh Hw]). split; [|done].
    pose proof (inv_id_pos _ (ok_timers _ Hok)). cbn in Hg.
    split; [by rewrite Hw| |rewrite Hh; eauto]. rewrite Hid, usize_wrap_small by lia. lia.
  - eapply wp_mono; [by apply remove_timer_wp|]. intros _ w' (Hl & _ & _ & Hid & [_ _ Hh Hw]).
    split; [by apply advances_same|done].
Qed.

Lemma task_advances ev s s' :
  sys_ok s → exec ev s = Some s' → ev ≠ ERound → advances (s_w s) (s_w s').
Proof.
  intros Hok He Hev. pose proof (exec_guard _ _ _ He) as Hg.
  destruct ev as [| | | | | | | | | | |timeout|]; try (by eapply timer_step).
  unfold exec in He. rewrite decide_True in He by done.
  refine (effect_wp_world _ _ _ _ _ _ He _); [|intros ?? [= <-]; done].
  unfold round_start, react_prepare. do 2 apply wp_bind.
  eapply wp_mono; [by apply process_timers_wp, ok_timers|]. cbn beta.
  intros [dur ks] w1 (now & _ & _ & _ & _ & _ & _ & [_ Hid] & _ & [_ _ Hh Hw]). wp_steps.
  by apply advances_same.
Qed.

Lemma task_phase ev s s' :
  exec ev s = Some s' → (∀ timeout, ev ≠ EReact timeout) → ev ≠ ERound → s_ph s' = s_ph s.
Proof.
  intros He Hr Hev. pose proof (exec_guard _ _ _ He) as Hg.
  destruct ev as [raw|l|l|l d cx|id l d|id cx|id|when k|when id|c| |timeout|];
    [..|by destruct (Hr timeout)|done];
    unfold exec in He; rewrite decide_True in He by done; cbn in He, Hg;
    repeat match type of He with
    | (_ ≫= _) = Some _ => apply bind_Some in He as (? & _ & He)
    | context [let '(_, _) := ?p in _] => destruct p; cbn in He
    end; by injection He as <-.
Qed.

Lemma task_errs ev s s' :
  exec ev s = Some s' → s_errs s' = false → s_errs s = false.
Proof.
  intros He Herr. pose proof (exec_guard _ _ _ He) as Hg.
  unfold exec in He. rewrite decide_True in He by done.
  destruct ev; cbn in He, Hg;
    repeat match type of He with
    | (_ ≫= _) = Some _ => apply bind_Some in He as (? & _ & He)
    | context [let '(_, _) := ?p in _] => destruct p; cbn in He
    end; injection He as <-; cbn in Herr; try done; by apply orb_false_iff in Herr as [? _].
Qed.

Lemma run_errs evs s s' : run evs s = Some s' → s_errs s' = false → s_errs s = false.
Proof.
  revert s. induction evs as [|ev evs IH]; intros s Hrun Herr; cbn in Hrun; [by simplify_eq|].
  apply bind_Some in Hrun as (s1 & He & Hrun). by eapply task_errs, IH.
Qed.

(** ** A step of a round *)

(** It wakes the first waker that it has collected, and keeps the others, unless an event
    cannot be delivered. *)
Lemma round_collects s :
  sys_ok s →
  wp (round_step (s_ph s)) (λ ph w',
    advances (s_w s) w' ∧
    ∀ k, k ∈ ph_wakers (s_ph s) →
      k ∈ ph_wakers ph ∨ w_woken w' = w_woken (s_w s) ++ [k] ∨
      (∃ tick evs ks x, s_ph s = Delivering tick evs ks ∧ ph = Idle (Err x))) (s_w s).
Proof.
  intros Hok.
  destruct (s_ph s) as [res|d ks|tick d ks|d ks|tick evs ks|tick [|ev evs] ks|[|k0 ks] res]
    eqn:Hph; cbn [round_step].
  - apply wp_ret. split; [by apply advances_same|by left].
  - wp_steps. apply bump_ticker_wp. wp_steps. split; [by apply advances_same|by left].
  - wp_steps. apply wp_env_call. wp_steps. split; [by apply advances_same|]. intros k Hk. left.
    destruct (env_wait _ _) as [[[n evs]|[]] e]; cbn; [by destruct (decide (n = 0))|done..].
  - apply wp_bind. case_decide.
    + wp_steps. split; [by apply advances_same|by left].
    + eapply wp_mono; [by apply process_timers_wp, ok_timers|]. cbn beta.
      intros [dur ks'] w1 (now & _ & _ & _ & Hks & _ & _ & [_ Hid] & _ & [_ _ Hh Hw]). wp_steps.
      split; [by apply advances_same|]. intros k Hk. left. cbn in Hks |- *. rewrite Hks.
      apply elem_of_app. by left.
  - apply wp_ret. split; [by apply advances_same|by left].
  - apply wp_ret. split; [by apply advances_same|by left].
  - apply wp_bind, react_event_wp; [by apply ok_sources| |].
    + intros _. apply wp_ret. split; [by apply advances_same|by left].
    + intros l src st ks' res e _ Hl _ Hd _. apply wp_ret. split; [by eapply advances_state|].
      intros k Hk. destruct res as [[]|x]; [left|right; right; by eauto 8].
      cbn. cbn in Hk. assert (ks' = (deliver_event tick ev (src_state src) ks).2) as ->
        by by rewrite Hd.
      apply elem_of_deliver_event. by left.
  - apply wp_ret. split; [by apply advances_same|]. intros k Hk. by apply elem_of_nil in Hk.
  - wp_steps. apply wp_wake. wp_steps. split; [split; [by eexists|done|eauto]|]. cbn.
    intros k [->|Hk]%elem_of_cons; [right; by left|by left].
Qed.

(** Every step carries the wakers on. *)
Lemma exec_round_onward s s' :
  sys_ok s → exec ERound s = Some s' → onward s (s_w s') (s_ph s') (s_errs s').
Proof.
  intros Hok He. pose proof (exec_guard _ _ _ He) as Hg. pose proof (task_errs _ _ _ He) as Herr.
  unfold exec in He. rewrite decide_True in He by done.
  apply (effect_inv _ _ _ _ _ (round_collects s Hok)) in He as (ph & w' & [[Hw _] Hks] & He).
  injection He as <-. split; cbn in *; [done|done|]. intros He' k m Hk Hm.
  destruct (Hks k Hk) as [?|[->|(tick & evs & ks & x & Hph & ->)]]; [by left| |].
  - right. rewrite drop_app_le by done. apply elem_of_app. right. by apply list_elem_of_singleton.
  - rewrite Hph in He'. by apply orb_false_iff in He' as [_ ?].
Qed.

Lemma exec_advances ev s s' : sys_ok s → exec ev s = Some s' → advances (s_w s) (s_w s').
Proof.
  intros Hok He. assert (ev ≠ ERound ∨ ev = ERound) as [Hev| ->] by (destruct ev; auto).
  { by eapply task_advances. }
  pose proof (exec_guard _ _ _ He). unfold exec in He. rewrite decide_True in He by done.
  apply (effect_inv _ _ _ _ _ (round_collects s Hok)) in He as (ph & w' & [Hw _] & He).
  by injection He as <-.
Qed.

Lemma exec_onward ev s s' :
  sys_ok s → exec ev s = Some s' → onward s (s_w s') (s_ph s') (s_errs s').
Proof.
  intros Hok He. pose proof (task_errs _ _ _ He) as Herr.
  destruct (exec_advances _ _ _ Hok He) as [Hw _].
  destruct ev; try (apply onward_same; [done|done|]; by rewrite (task_phase _ _ _ He)).
  - apply onward_same; [done|done|]. intros _. pose proof (exec_guard _ _ _ He) as Hg.
    cbn in Hg. destruct (s_ph s) as [res|?|?|?|?|?|?]; try done. by intros k ?%elem_of_nil.
  - by apply exec_round_onward.
Qed.

(** What has been collected, or woken since [n] wakes had been made, will have been. *)
Definition caught s (k : Waker) (n : nat) : Prop :=
  k ∈ ph_wakers (s_ph s) ∨ k ∈ drop n (w_woken (s_w s)).

Lemma run_caught evs s s' k n :
  sys_ok s → run evs s = Some s' → s_errs s' = false → (n ≤ length (w_woken (s_w s)))%nat →
  caught s k n → caught s' k n.
Proof.
  revert s. induction evs as [|ev evs IH]; intros s Hok Hrun Herr Hn Hk; cbn in Hrun.
  { by simplify_eq. }
  apply bind_Some in Hrun as (s1 & He & Hrun). pose proof (exec_onward _ _ _ Hok He) as Hon.
  pose proof (run_errs _ _ _ Hrun Herr) as Herr1. destruct (onward_woken _ _ _ _ Hon) as [ks Hks].
  apply (IH s1); [by eapply sys_ok_exec|done|done|rewrite Hks, length_app; lia|].
  destruct Hk as [Hk|Hk].
  - by apply (onward_collected _ _ _ _ Hon Herr1).
  - right. rewrite Hks, drop_app_le by done. apply elem_of_app. by left.
Qed.

(** ** Timers that are set *)

Lemma task_timers ev s s' :
  sys_ok s → exec ev s = Some s' →
  match ev with
  | EPushTimer when k =>
      w_id_generator (s_w s') = w_id_generator (s_w s) + 1 ∧
      of_timers (s_waits s') =
        <[(when, w_id_generator (s_w s)) := (k, length (w_woken (s_w s')))]> (of_timers (s_waits s))
  | ERemoveTimer when id => of_timers (s_waits s') = delete (when, id) (of_timers (s_waits s))
  | _ => of_timers (s_waits s') = of_timers (s_waits s)
  end.
Proof.
  intros Hok He. pose proof (exec_guard _ _ _ He) as Hg.
  assert (∀ when k, ev = EPushTimer when k →
    w_id_generator (s_w s') = w_id_generator (s_w s) + 1 ∧
    of_timers (s_waits s') =
      <[(when, w_id_generator (s_w s)) := (k, length (w_woken (s_w s')))]> (of_timers (s_waits s)))
    as Hins.
  { intros when k ->. unfold exec in He. rewrite decide_True in He by done.
    apply (effect_inv _ _ _ _ _ (push_timer_wp when k (s_w s) (inv_queue _ (ok_timers _ Hok))))
      in He as (id & w' & (-> & _ & _ & Hid & _ & _) & He). injection He as <-. cbn in *.
    pose proof (inv_id_pos _ (ok_timers _ Hok)). split; [|done].
    by rewrite Hid, usize_wrap_small by lia. }
  unfold exec in He. rewrite decide_True in He by done.
  destruct ev; cbn in He, Hg; try (by apply Hins);
    repeat match type of He with
    | (_ ≫= _) = Some _ => apply bind_Some in He as (? & _ & He)
    | context [let '(_, _) := ?p in _] => destruct p; cbn in He
    end; by injection He as <-.
Qed.

(** Their identifiers have been generated. *)
Definition ids_below s : Prop :=
  ∀ key x, of_timers (s_waits s) !! key = Some x → key.2 < w_id_generator (s_w s).

Lemma exec_ids ev s s' : sys_ok s → exec ev s = Some s' → ids_below s → ids_below s'.
Proof.
  intros Hok He Hids key x. pose proof (task_timers _ _ _ Hok He) as Ht.
  pose proof (adv_ids _ _ (exec_advances _ _ _ Hok He)) as Hle.
  assert (of_timers (s_waits s) !! key = Some x → key.2 < w_id_generator (s_w s')) as Hold.
  { intros Hk. specialize (Hids _ _ Hk). lia. }
  destruct ev as [| | | | | | |when k|when id| | | |]; try (rewrite Ht; exact Hold).
  - destruct Ht as [Hid ->]. intros [[<- _]|[_ Hk]]%lookup_insert_Some; [cbn; lia|by apply Hold].
  - rewrite Ht. intros [_ Hk]%lookup_delete_Some. by apply Hold.
Qed.

Lemma ids_reachable s : reachable s → ids_below s.
Proof.
  induction 1 as [e|s s' ev Hs IH He]; [by intros key x|].
  eapply exec_ids; [by apply sys_ok_reachable|done|done].
Qed.

(** A timer that is set stays set until it is removed. *)
Lemma run_timer evs s s' when id x :
  sys_ok s → ids_below s → run evs s = Some s' →
  of_timers (s_waits s) !! (when, id) = Some x → ERemoveTimer when id ∉ evs →
  ids_below s' ∧ of_timers (s_waits s') !! (when, id) = Some x.
Proof.
  revert s. induction evs as [|ev evs IH]; intros s Hok Hids Hrun Hk Hne; cbn in Hrun.
  { by simplify_eq. }
  apply bind_Some in Hrun as (s1 & He & Hrun). apply not_elem_of_cons in Hne as [Hne Hnes].
  apply (IH s1); [by eapply sys_ok_exec|by eapply exec_ids|done| |done].
  pose proof (task_timers _ _ _ Hok He) as Ht. pose proof (Hids _ _ Hk) as Hlt. cbn in Hlt.
  destruct ev as [| | | | | | |when' k'|when' id'| | | |]; try (by rewrite Ht).
  - destruct Ht as [_ ->]. rewrite lookup_insert_ne; [done|]. intros [= -> Hid]. lia.
  - rewrite Ht, lookup_delete_ne; [done|]. by intros [= -> ->].
Qed.

(** A round that starts when the timer is due wakes it by the end. *)
Lemma timer_wakes_ok s s1 s2 s3 when id k n timeout evs1 evs2 res :
  sys_ok s → ids_below s → of_timers (s_waits s) !! (when, id) = Some (k, n) →
  run evs1 s = Some s1 → ERemoveTimer when id ∉ evs1 →
  when ≤ env_time (w_env (s_w s1)) → exec (EReact timeout) s1 = Some s2 →
  run evs2 s2 = Some s3 → s_ph s3 = Idle res → s_errs s3 = false →
  k ∈ drop n (w_woken (s_w s3)).
Proof.
  intros Hok Hids Hk Hrun1 Hne Hdue He Hrun2 Hend Herr.
  destruct (run_timer _ _ _ _ _ _ Hok Hids Hrun1 Hk Hne) as [_ Hk1].
  pose proof (run_ok _ _ _ Hok Hrun1) as Hok1. pose proof (sys_ok_exec _ _ _ Hok1 He) as Hok2.
  destruct (wait_timer _ _ _ _ _ _ (ok_waits _ Hok1) _ _ _ Hk1) as [Hn Hwh].
  pose proof (run_errs _ _ _ Hrun2 Herr) as Herr2. pose proof (task_errs _ _ _ He Herr2) as Herr1.
  assert (∃ r, s_ph s1 = Idle r) as [r Hidle].
  { pose proof (exec_guard _ _ _ He) as Hg. cbn in Hg. destruct (s_ph s1); try done. by eexists. }
  destruct (react_collects s1 timeout r Hok1 Hidle) as (s2' & He' & Hw & _ & Hdue').
  assert (s2' = s2) as -> by congruence.
  assert (caught s3 k n) as [Hc|Hc]; [|by rewrite Hend in Hc; apply elem_of_nil in Hc|done].
  apply (run_caught evs2 s2); [done|done|done|by rewrite Hw|].
  destruct (Hwh Herr1) as [Hl|[Hc|Hc]].
  - left. by eapply Hdue'.
  - rewrite Hidle in Hc. by apply elem_of_nil in Hc.
  - right. by rewrite Hw.
Qed.

(** Who waits is recorded for the specifications: the steps do not depend on it. *)
Definition with_waits (ws : Waits) s : Sys :=
  mkSys (s_w s) (s_ph s) (s_futs s) ws (s_handles s) (s_adding s) (s_errs s) (s_log s).

Lemma exec_with_waits ev s s' ws :
  exec ev s = Some s' → ∃ ws', exec ev (with_waits ws s) = Some (with_waits ws' s').
Proof.
  intros He. pose proof (exec_guard _ _ _ He) as Hg.
  assert (guard ev (with_waits ws s)) as Hg' by by destruct ev.
  unfold exec in He |- *. rewrite decide_True in He by done. rewrite decide_True by done.
  destruct ev; cbn in He |- *;
    repeat match type of He with
    | (_ ≫= _) = Some _ => apply bind_Some in He as (? & ? & He)
    end;
    repeat match goal with H : _ = Some _ |- _ => rewrite H; clear H; cbn end;
    repeat match type of He with
    | context [let '(_, _) := ?p in _] => destruct p; cbn in He |- *
    end;
    repeat match goal with H : _ = Some _ |- _ => rewrite H; clear H; cbn end;
    first [injection He as <-; by eexists | idtac].
Qed.

Lemma run_with_waits evs s s' ws :
  run evs s = Some s' → ∃ ws', run evs (with_waits ws s) = Some (with_waits ws' s').
Proof.
  revert s ws. induction evs as [|ev evs IH]; intros s ws Hrun; cbn in Hrun |- *.
  { simplify_eq. by eexists. }
  apply bind_Some in Hrun as (s1 & He & Hrun).
  destruct (exec_with_waits _ _ _ ws He) as [ws1 He1]. rewrite He1. cbn. by apply IH.
Qed.

(** A timer that is in the store is woken, once a round has started when it is due. *)
Lemma live_timer_wakes s s1 s2 s3 when id k timeout evs1 evs2 res :
  sys_ok s → live_timers (s_w s) !! (when, id) = Some k → run evs1 s = Some s1 →
  ERemoveTimer when id ∉ evs1 → when ≤ env_time (w_env (s_w s1)) →
  exec (EReact timeout) s1 = Some s2 → run evs2 s2 = Some s3 → s_ph s3 = Idle res →
  s_errs s3 = false → k ∈ drop (length (w_woken (s_w s))) (w_woken (s_w s3)).
Proof.
  intros Hok Hl Hrun1 Hne Hdue He Hrun2 Hend Herr.
  set (ws := mkWaits ∅ ∅ {[(when, id) := (k, length (w_woken (s_w s)))]}).
  destruct (run_with_waits _ _ _ ws Hrun1) as [ws1 Hg1].
  destruct (exec_with_waits _ _ _ ws1 He) as [ws2 Hge].
  destruct (run_with_waits _ _ _ ws2 Hrun2) as [ws3 Hg2].
  assert (of_timers ws !! (when, id) = Some (k, length (w_woken (s_w s)))) as Hk
    by apply lookup_singleton_eq.
  refine (timer_wakes_ok (with_waits ws s) _ _ _ when id k _ timeout evs1 evs2 res
            _ _ Hk Hg1 Hne Hdue Hge Hg2 Hend Herr).
  - apply sys_ok_futs; [done|apply Hok|apply Hok|]. split; cbn; [done|done|].
    intros key k' n [<- [= <- <-]]%lookup_singleton_Some. split; [done|by left].
  - intros key x Hx. change (of_timers ws !! key = Some x) in Hx. cbn in Hx.
    apply lookup_singleton_Some in Hx as [<- _]. cbn.
    apply (inv_ids _ (ok_timers _ Hok) (when, id)). by rewrite Hl.
Qed.

(** ** Events on their way to a [poll_ready] *)

(** An event that is delivered collects the wakers of its directions. *)
Lemma round_delivers s :
  sys_ok s →
  wp (round_step (s_ph s)) (λ ph w',
    ∀ ev, ev ∈ in_flight (s_ph s) → ev ∈ in_flight ph ∨
      (∃ tick evs ks x, s_ph s = Delivering tick evs ks ∧ ph = Idle (Err x)) ∨
      ∀ l src d k, slab_map (w_sources (s_w s)) !! ev_key ev = Some l →
        w_heap (s_w s) !! l = Some src → ev_flag ev d = true →
        k ∈ dir_wakers (dir_get (src_state src) d) → k ∈ ph_wakers ph) (s_w s).
Proof.
  intros Hok. pose proof (round_collects s Hok) as (ph & w' & Hrun & _).
  destruct (s_ph s) as [res|d ks|tick d ks|d ks|tick evs ks|tick [|ev0 evs] ks|ks res] eqn:Hph;
    try (exists ph, w'; split; [done|]; by intros ev ?%elem_of_nil).
  - apply wp_ret. by left.
  - clear Hrun. cbn [round_step]. apply wp_bind, react_event_wp; [by apply ok_sources| |].
    + intros Hnone. apply wp_ret. intros ev [->|Hin]%elem_of_cons; [|by left].
      right. right. intros l src d k Hk. congruence.
    + intros l src st ks' res e Hk Hl _ Hd _. apply wp_ret.
      destruct res as [[]|x]; [|intros; right; left; by eauto 8].
      intros ev [->|Hin]%elem_of_cons; [|by left]. right. right.
      intros l1 src1 d k Hk1 Hl1 Hf Hw. assert (l1 = l) as -> by congruence.
      assert (src1 = src) as -> by congruence. cbn.
      assert (ks' = (deliver_event tick ev0 (src_state src) ks).2) as -> by by rewrite Hd.
      apply elem_of_deliver_event. right. by exists d.
Qed.

(** An event reports the direction [d] of the source [l]. *)
Definition announces s (ev : Event) (l : loc) (d : Dir) : Prop :=
  ev_flag ev d = true ∧ src_key <$> w_heap (s_w s) !! l = Some (ev_key ev).

(** The steps that end a wait of [poll_ready], or restart it. *)
Definition touches (l : loc) (d : Dir) (ev : Ev) : Prop :=
  match ev with
  | EPollReady l' d' _ => l' = l ∧ d' = d
  | ERemove l' => l' = l
  | _ => False
  end.

Lemma task_polls ev s s' l d x :
  exec ev s = Some s' → ¬ touches l d ev →
  of_polls (s_waits s) !! (l, d) = Some x → of_polls (s_waits s') !! (l, d) = Some x.
Proof.
  intros He Ht Hx. pose proof (exec_guard _ _ _ He) as Hg.
  unfold exec in He. rewrite decide_True in He by done.
  destruct ev as [raw|l'|l'|l' d' cx|id l' d'|id cx|id|when k|when id|c| |timeout|]; cbn in He, Hg, Ht;
    repeat match type of He with
    | (_ ≫= _) = Some _ => apply bind_Some in He as (? & _ & He)
    | context [let '(_, _) := ?p in _] => destruct p; cbn in He
    end; injection He as <-; try done; cbn.
  - apply map_lookup_filter_Some. split; [done|]. cbn. congruence.
  - assert ((l', d') ≠ (l, d)) as Hne by (by intros [= -> ->]; apply Ht).
    destruct p; cbn; [by rewrite lookup_delete_ne|by rewrite lookup_insert_ne].
Qed.

Lemma exec_announces ev s s' e l d :
  sys_ok s → exec ev s = Some s' → announces s e l d → announces s' e l d.
Proof.
  intros Hok He [Hf Hk]. split; [done|]. destruct (w_heap (s_w s) !! l) as [src|] eqn:Hl; [|done].
  destruct (adv_keys _ _ (exec_advances _ _ _ Hok He) _ _ Hl) as (src' & -> & Heq).
  cbn in Hk |- *. by rewrite Heq.
Qed.

(** The event is going to be delivered, or whoever waited is caught. *)
Definition underway s (ev : Event) (l : loc) (d : Dir) (k : Waker) (n : nat) : Prop :=
  (ev ∈ in_flight (s_ph s) ∧ announces s ev l d) ∨ caught s k n.

Lemma exec_underway e s s' ev l d k n :
  sys_ok s → exec e s = Some s' → s_errs s' = false → ¬ touches l d e →
  of_polls (s_waits s) !! (l, d) = Some (k, n) → underway s ev l d k n → underway s' ev l d k n.
Proof.
  intros Hok He Herr Ht Hk [[Hin Ha]|Hc].
  2:{ right. apply (run_caught [e] s); [done|cbn; by rewrite He|done| |done].
      by destruct (wait_poll _ _ _ _ _ _ (ok_waits _ Hok) _ _ _ _ Hk) as [_ [? _]]. }
  destruct (wait_poll _ _ _ _ _ _ (ok_waits _ Hok) _ _ _ _ Hk) as [Hh [Hn Hwh]].
  pose proof (exec_announces _ _ _ _ _ _ Hok He Ha) as Ha'.
  pose proof (exec_guard _ _ _ He) as Hg. pose proof (exec_onward _ _ _ Hok He) as Hon.
  destruct e as [| | | | | | | | | | |timeout|];
    try (left; split; [by rewrite (task_phase _ _ _ He)|done]).
  { cbn in Hg. destruct (s_ph s); try done. by apply elem_of_nil in Hin. }
  destruct (Hwh (task_errs _ _ _ He Herr)) as [(src & Hl & Hw)|Hc].
  2:{ right. apply (run_caught [ERound] s); [done|cbn; by rewrite He|done|done|done]. }
  unfold exec in He. rewrite decide_True in He by done.
  apply (effect_inv _ _ _ _ _ (round_delivers s Hok)) in He as (ph & w' & Hdel & He).
  injection He as <-. cbn in *.
  destruct (Hdel _ Hin) as [Hin'|[(tick & evs & ks & x & Hph & ->)|Hcol]].
  - by left.
  - rewrite Hph in Herr. by apply orb_false_iff in Herr as [_ ?].
  - right. left. cbn. destruct Ha as [Hf Hkey]. rewrite Hl in Hkey. injection Hkey as Hkey.
    destruct (ok_registered _ Hok l) as (src' & Hl' & Htab); [set_solver|].
    assert (src' = src) as -> by congruence. rewrite Hkey in Htab.
    apply (Hcol l src d k Htab Hl Hf). apply elem_of_dir_wakers. by left.
Qed.

Lemma run_polls evs s s' l d x :
  run evs s = Some s' → Forall (λ e, ¬ touches l d e) evs →
  of_polls (s_waits s) !! (l, d) = Some x → of_polls (s_waits s') !! (l, d) = Some x.
Proof.
  intros Hrun Hevs. revert s Hrun. induction Hevs as [|e evs He' Hevs IH]; intros s Hrun Hx;
    cbn in Hrun; [by simplify_eq|].
  apply bind_Some in Hrun as (s1 & He & Hrun). eapply IH; [done|by eapply task_polls].
Qed.

(** The waker of a [poll_ready] whose event has been reported, at the end of the round. *)
Lemma poll_wakes_ok s s' l d k n ev evs res :
  sys_ok s → of_polls (s_waits s) !! (l, d) = Some (k, n) →
  ev ∈ in_flight (s_ph s) → announces s ev l d → run evs s = Some s' →
  Forall (λ e, ¬ touches l d e) evs → s_ph s' = Idle res → s_errs s' = false →
  k ∈ drop n (w_woken (s_w s')).
Proof.
  intros Hok Hk Hin Ha Hrun Hevs Hend Herr.
  assert (underway s ev l d k n) as Hu by by left. clear Hin Ha.
  assert (underway s' ev l d k n) as [[Hin _]|[Hc|Hc]]; [|by rewrite Hend in Hin; apply elem_of_nil in Hin
    |by rewrite Hend in Hc; apply elem_of_nil in Hc|done].
  revert s Hok Hk Hrun Hu. induction Hevs as [|e evs He' Hevs IH]; intros s Hok Hk Hrun Hu; cbn in Hrun.
  { by simplify_eq. }
  apply bind_Some in Hrun as (s1 & He & Hrun). pose proof (run_errs _ _ _ Hrun Herr) as Herr1.
  apply (IH s1); [by eapply sys_ok_exec|by eapply task_polls|done|by eapply exec_underway].
Qed.
End wakes.
