(* ===== verification/Sleep.v ===== *)
(** How long a round sleeps (src/src/reactor.rs: [ReactorLock::react], [Reactor::insert_timer]),
    with tasks setting and removing timers in the meantime. *)
From S2P Require Import Prelude Std Deps Registration RefDeps World RefWorld Timers.
From S2P Require Import Source Reactor Ready System Steps Interleaving Progress Wakes.
Import System.

Section sleep.
Context {Slab Queue : Type → Type} {Reg Env : Type}.
Context `{SlabOps Slab, QueueOps Queue, EnvOps Env, RegOps Reg Env}.
Context `{!SlabLaws Slab, !QueueLaws Queue, !ClockLaws Env, !NotifyLaws Env, !RegLaws Reg Env}.
Context `{EqDecision Reg, CallOps Reg Env, !CallLaws Reg Env}.
Local Abbreviation World := (World Slab Queue Reg Env).
Local Abbreviation Sys := (Sys (Slab := Slab) (Queue := Queue) (Reg := Reg) (Env := Env)).
Local Abbreviation Ev := (Ev (Reg := Reg) (Env := Env)).
Implicit Types (w : World) (s : Sys).

(** A round that starts, and its steps. *)
Lemma react_stage timeout s s' :
  exec (EReact timeout) s = Some s' → stage (s_ph s') = 6%nat.
Proof.
  intros He. pose proof (exec_guard _ _ _ He). unfold exec in He.
  rewrite decide_True in He by done. apply bind_Some in He as ([ph w'] & Hr & He).
  injection He as <-. unfold effect in Hr. destruct (round_start _ _) as [[ph' w'']| |] eqn:Hs; [|done..].
  injection Hr as <- <-. unfold round_start, react_prepare in Hs. ret_inv Hs.
  destruct a. by injection Hs as <- _.
Qed.

Lemma round_stage s s' :
  exec ERound s = Some s' →
  stage (s_ph s) ≠ 0%nat ∧ (stage (s_ph s) = 6 → stage (s_ph s') = 5)%nat ∧
  (stage (s_ph s) ≤ 5 → stage (s_ph s') < 5)%nat.
Proof.
  intros He. pose proof (exec_guard _ _ _ He) as Hg. unfold exec in He.
  rewrite decide_True in He by done. apply bind_Some in He as ([ph w'] & Hr & He).
  injection He as <-. unfold effect in Hr.
  destruct (round_step _ _) as [[ph' w'']| |] eqn:Hs; [|done..]. injection Hr as <- <-.
  assert (∀ res, s_ph s ≠ Idle res) as Hph by (intros res Hph; cbn in Hg; by rewrite Hph in Hg).
  pose proof (round_step_before _ _ _ _ Hph Hs) as Hb. cbn [s_ph].
  destruct (s_ph s) as [res|d ks|tick d ks|d ks|tick evs ks|tick evs ks|ks res] eqn:Hp;
    [by edestruct Hph|..]; cbn in Hb |- *; (split_and!; [lia| |destruct Hb; cbn in *; lia]);
    [|lia..]. intros _. cbn in Hs. ret_inv Hs. by injection Hs as <- _.
Qed.

(** ** On the way to the poller *)

(** No other round starts. *)
Definition same_round (ev : Ev) : Prop := match ev with EReact _ => False | _ => True end.

Lemma round_over evs s s' :
  run evs s = Some s' → Forall same_round evs → (stage (s_ph s) < 5)%nat →
  (stage (s_ph s') < 5)%nat.
Proof.
  revert s. induction evs as [|ev evs IH]; intros s Hrun Hsame Hst; cbn in Hrun; [by simplify_eq|].
  apply bind_Some in Hrun as (s1 & He & Hrun). apply Forall_cons in Hsame as [Hev Hsame].
  apply (IH s1); [done|done|]. destruct ev; try (by rewrite (task_phase _ _ _ He)).
  apply (round_stage _ _ He). lia.
Qed.

(** The round will ask the poller to wait for [d], or is about to. *)
Definition to_wait (d : option Duration) s : Prop :=
  match s_ph s with Prepared d' _ | Bumped _ d' _ => d' = d | _ => False end.

Lemma to_wait_step d ev s s' :
  sys_ok s → exec ev s = Some s' → same_round ev → to_wait d s →
  (stage (s_ph s') < 5)%nat ∨
  to_wait d s' ∧ ∀ key k, live_timers (s_w s') !! key = Some k →
    live_timers (s_w s) !! key = Some k ∨ ev = EPushTimer key.1 k.
Proof.
  intros Hok He Hev Hd. unfold to_wait in Hd |- *. assert (ev = ERound ∨ ev ≠ ERound) as [->|Hne] by (destruct ev; auto).
  - destruct (s_ph s) as [|d' ks|tick d' ks| | | |] eqn:Hph; try done.
    + right. pose proof (exec_guard _ _ _ He) as Hg. unfold exec in He.
      rewrite decide_True, Hph in He by done. cbn in He. injection He as <-. cbn. split; [done|].
      intros key k Hk. by left.
    + left. apply (round_stage _ _ He). rewrite Hph. cbn. lia.
  - right. rewrite (task_phase _ _ _ He) by (destruct ev; done). split; [done|].
    intros key k. rewrite (proj2 (timer_step _ _ _ Hok He ltac:(by destruct ev) Hne)).
    destruct ev as [| | | | | | |when k'|when id| | | |]; cbn [store_after]; try (by left).
    + intros [[<- <-]|[_ Hk]]%lookup_insert_Some; [by right|by left].
    + intros [_ Hk]%lookup_delete_Some. by left.
Qed.

Lemma run_to_wait evs d s s' :
  sys_ok s → run evs s = Some s' → Forall same_round evs → to_wait d s →
  (5 ≤ stage (s_ph s'))%nat →
  to_wait d s' ∧ ∀ key k, live_timers (s_w s') !! key = Some k →
    live_timers (s_w s) !! key = Some k ∨ EPushTimer key.1 k ∈ evs.
Proof.
  revert s. induction evs as [|ev evs IH]; intros s Hok Hrun Hsame Hd Hst; cbn in Hrun.
  { simplify_eq. split; [done|]. by left. }
  apply bind_Some in Hrun as (s1 & He & Hrun). apply Forall_cons in Hsame as [Hev Hsame].
  destruct (to_wait_step _ _ _ _ Hok He Hev Hd) as [Hlow|[Hd1 Hl1]].
  { pose proof (round_over _ _ _ Hrun Hsame Hlow). lia. }
  destruct (IH s1) as [Hd' Hl']; [by eapply sys_ok_exec|done..|]. split; [done|].
  intros key k Hk. rewrite elem_of_cons. destruct (Hl' _ _ Hk) as [Hk1|]; [|by auto].
  destruct (Hl1 _ _ Hk1) as [|<-]; auto.
Qed.

(** What the start of a round has found out. *)
Lemma react_sleeps timeout s s1 :
  sys_ok s → exec (EReact timeout) s = Some s1 →
  ∃ d, to_wait d s1 ∧ (∀ t, timeout = Some t → ∃ d', d = Some d' ∧ d' ≤ t) ∧
    ∀ key, is_Some (live_timers (s_w s1) !! key) →
      ∃ d', d = Some d' ∧ env_time (w_env (s_w s1)) + d' ≤ key.1.
Proof.
  intros Hok He. pose proof (exec_guard _ _ _ He) as Hg. unfold exec in He.
  rewrite decide_True in He by done. unfold effect, round_start, mbind, M_bind in He.
  destruct (react_timeout timeout (s_w s) (ok_timers _ Hok)) as ([d ks] & w' & Hrun & Hd).
  rewrite Hrun in He. cbn in He. injection He as <-. exists d. split; [done|]. cbn in Hd |- *.
  destruct d as [d|]; [|destruct Hd as (-> & _ & ->)].
  - destruct Hd as [Ht Hl]. split; [by eauto|]. by eauto.
  - split; [done|]. intros key. rewrite lookup_empty. by intros [].
Qed.

(** A round never sleeps past a timer, whatever tasks do: from its start until it asks the
    poller, which it will not ask to wait longer than its caller allows, every timer that is
    set is due no sooner than a wait that starts now would end, or has been pushed since the
    round started, and then the task that pushed it notifies the poller next. *)
Theorem round_never_oversleeps (timeout : option Duration) (s s1 s2 : Sys) (evs : list Ev)
    (tick : Z) (d : option Duration) (ks : list Waker) (Hs : reachable s)
    (Hreact : exec (EReact timeout) s = Some s1) (Hrun : run evs s1 = Some s2)
    (Hsame : Forall same_round evs) (Hph : s_ph s2 = Bumped tick d ks) :
  (∀ t, timeout = Some t → ∃ d', d = Some d' ∧ d' ≤ t) ∧
  ∀ key k, live_timers (s_w s2) !! key = Some k →
    (∃ d', d = Some d' ∧ env_time (w_env (s_w s1)) + d' ≤ key.1) ∨ EPushTimer key.1 k ∈ evs.
Proof.
  pose proof (sys_ok_reachable _ Hs) as Hok. pose proof (sys_ok_exec _ _ _ Hok Hreact) as Hok1.
  destruct (react_sleeps _ _ _ Hok Hreact) as (d1 & Hd1 & Ht & Hl).
  destruct (run_to_wait _ _ _ _ Hok1 Hrun Hsame Hd1) as [Hd2 Hl2]; [by rewrite Hph; cbn; lia|].
  unfold to_wait in Hd2. rewrite Hph in Hd2. subst d1. split; [done|].
  intros key k Hk. destruct (Hl2 _ _ Hk) as [Hk1|]; [left|by right]. apply Hl. by eexists.
Qed.
End sleep.

(** * Witness: a timer is set, and another one while the round is about to ask the poller *)

Definition set_steps : list RefEv := [EPushTimer 5000 waker3].
Definition late_steps : list RefEv := [EPushTimer 3000 waker1; ERound].

Lemma set_reachable : reachable (state_of set_steps).
Proof. apply state_of_reachable. vm_compute. exact eq_refl. Qed.

Lemma late_ran :
  match exec (EReact (Some 9000)) (state_of set_steps) ≫= run late_steps with
  | Some s2 =>
      s_ph s2 = Bumped 1 (Some 3999) [] ∧
      live_timers (s_w s2) !! (5000, 1) = Some waker3 ∧
      live_timers (s_w s2) !! (3000, 2) = Some waker1
  | None => False
  end.
Proof. vm_compute. auto. Qed.

Lemma late_same_round : Forall same_round late_steps.
Proof. by repeat constructor. Qed.

(** The wait is over when the first timer is due; the second one is the inserted one. *)
Lemma round_never_oversleeps_witness :
  ∃ s1 s2, exec (EReact (Some 9000)) (state_of set_steps) = Some s1 ∧
    run late_steps s1 = Some s2 ∧ s_ph s2 = Bumped 1 (Some 3999) [] ∧
    env_time (w_env (s_w s1)) + 3999 ≤ 5000.
Proof.
  pose proof late_ran as Hran.
  destruct (exec (EReact (Some 9000)) (state_of set_steps)) as [s1|] eqn:Hreact; [|destruct Hran].
  cbn [mbind option_bind] in Hran.
  destruct (run late_steps s1) as [s2|] eqn:Hrun; [|destruct Hran].
  destruct Hran as (Hph & Hset & _).
  destruct (round_never_oversleeps (Some 9000) _ s1 s2 late_steps 1 (Some 3999) []
              set_reachable Hreact Hrun late_same_round Hph) as [_ Hall].
  exists s1, s2. split_and!; [done|done|done|].
  destruct (Hall _ _ Hset) as [(d' & Hd & Hle)|Hin].
  - injection Hd as <-. exact Hle.
  - exfalso. by repeat (apply elem_of_cons in Hin as [Hin|Hin]; [discriminate Hin|]);
      apply elem_of_nil in Hin.
Defined.
