(* ===== verification/Tasks.v ===== *)
(** Tasks in the interleaved system: a poll of the futures of [Async] (src/src/lib.rs:
    [read_with], [write_with] and their variants, the polls of [AsyncRead] and
    [AsyncWrite]) is a sequence of steps of its own, so what holds in every interleaving
    holds of the tasks that use them; and so is a poll of a [Timer]. *)
From S2P Require Import Prelude Std Deps Registration RefDeps World RefWorld Timers.
From S2P Require Import Source Reactor Ready Timer Async System Steps Interleaving Progress Wakes.
Import System Async.

Section tasks.
Context {Slab Queue : Type → Type} {Reg Env T : Type}.
Context `{SlabOps Slab, QueueOps Queue, EnvOps Env, RegOps Reg Env}.
Context `{!SlabLaws Slab, !QueueLaws Queue, !ClockLaws Env, !NotifyLaws Env, !RegLaws Reg Env}.
Context `{EqDecision Reg, CallOps Reg Env, !CallLaws Reg Env}.
Local Abbreviation World := (World Slab Queue Reg Env).
Local Abbreviation Sys := (Sys (Slab := Slab) (Queue := Queue) (Reg := Reg) (Env := Env)).
Local Abbreviation Ev := (Ev (Reg := Reg) (Env := Env)).
Implicit Types (w : World) (s : Sys) (a : Async T).

(** An operation on the handle calls the operating system, and closes nothing. *)
Definition calls_system {S R : Type} (op : T → S → Env → (io_result R * (T * S)) * Env) : Prop :=
  ∀ i x e, ∃ c, call_closes c = None ∧ (op i x e).2 = call_effect c e.

(** The steps a task takes for its future [id], in the direction [dir] of the source [l]. *)
Definition own_step (id : Z) (l : loc) (dir : Dir) (cx : Waker) (ev : Ev) : Prop :=
  match ev with
  | ECall _ => True
  | ENewFut id' l' dir' => id' = id ∧ l' = l ∧ dir' = dir
  | EPollFut id' cx' => id' = id ∧ cx' = cx
  | EDropFut id' => id' = id
  | _ => False
  end.

(** The future a task waits with is the future [id] of the system. *)
Definition task_fut s (id : Z) (dir : Dir) (l : loc) (st : WithFut) : Prop :=
  match st with
  | Awaiting polled fut =>
      polled = true ∧ s_futs s !! id = Some fut ∧ rd_source fut = l ∧ rd_dir fut = dir
  | Calling | Finished => s_futs s !! id = None
  end.

(** The steps of a poll of that future that answers [Pending]: it gives up the slot it
    waited in, calls the operation, and waits anew. *)
Definition with_steps (id : Z) (dir : Dir) (l : loc) (cx : Waker) (st : WithFut)
    (c : Call Reg Env) : list Ev :=
  match st with Awaiting _ _ => [EDropFut id] | _ => [] end ++
  [ECall c; ENewFut id l dir; EPollFut id cx].

(** The call [c] is what the operation [f] of the environment does at [e]. *)
Definition is_call {A : Type} (f : Env → A * Env) (c : Call Reg Env) (e : Env) : Prop :=
  call_closes c = None ∧ (f e).2 = call_effect c e.

(** What a task that only polls leaves alone. *)
Record aside s s' : Prop := {
  aside_phase : s_ph s' = s_ph s;
  aside_futs : s_futs s' = s_futs s;
  aside_handles : s_handles s' = s_handles s;
  aside_adding : s_adding s' = s_adding s;
  aside_errs : s_errs s' = s_errs s;
}.

Lemma aside_trans s s1 s' : aside s s1 → aside s1 s' → aside s s'.
Proof. intros [] []. split; congruence. Qed.

(** ** Steps *)

(** A step does not look at who waits, nor at what was delivered: two systems that agree
    otherwise go the same way. *)
Record agree s t : Prop := {
  agree_world : s_w t = s_w s;
  agree_aside : aside s t;
}.

Lemma exec_agree ev s t s' :
  agree s t → exec ev s = Some s' → ∃ t', exec ev t = Some t' ∧ agree s' t'.
Proof.
  intros Hag He. pose proof (exec_guard _ _ _ He) as Hg. unfold exec in He |- *.
  rewrite decide_True in He by done.
  destruct s as [w ph futs ws hs adding errs log], t as [w' ph' futs' ws' hs' adding' errs' log'].
  destruct Hag as [Hw [Hp Hf Hh Ha Herr]]. cbn in Hw, Hp, Hf, Hh, Ha, Herr. subst.
  assert (guard ev (mkSys w ph futs ws' hs adding errs log')) as Hg' by (destruct ev; exact Hg).
  rewrite decide_True by done. destruct ev; cbn in He |- *;
    repeat match type of He with
    | (_ ≫= _) = Some _ =>
        let Heq := fresh in apply bind_Some in He as (? & Heq & He); rewrite Heq; cbn [mbind option_bind]
    | context [let '(_, _) := ?p in _] => destruct p; cbn beta iota in He |- *
    end; injection He as <-; eexists; (split; [reflexivity|by split]).
Qed.

Lemma run_agree evs s t s' :
  agree s t → run evs s = Some s' → ∃ t', run evs t = Some t' ∧ agree s' t'.
Proof.
  revert s t. induction evs as [|ev evs IH]; intros s t Hag Hrun; cbn in Hrun |- *.
  { injection Hrun as <-. by exists t. }
  apply bind_Some in Hrun as (s1 & He & Hrun).
  destruct (exec_agree _ _ _ _ Hag He) as (t1 & -> & Hag1). by apply (IH s1).
Qed.

Lemma exec_call c s :
  call_closes c = None →
  ∃ s', exec (ECall c) s = Some s' ∧ s_w s' = set_env (call_effect c (w_env (s_w s))) (s_w s) ∧
    aside s s'.
Proof.
  intros Hc. eexists. unfold exec. rewrite decide_True by (cbn; by rewrite Hc). by split_and!.
Qed.

Lemma exec_new id l d s :
  l ∈ s_handles s → s_futs s !! id = None →
  ∃ s', exec (ENewFut id l d) s = Some s' ∧ s_w s' = s_w s ∧
    s_futs s' = <[id := ready l d]> (s_futs s) ∧ s_handles s' = s_handles s.
Proof. intros Hl Hid. eexists. unfold exec. rewrite decide_True by done. by split_and!. Qed.

Lemma exec_poll id cx s f r f' w' :
  s_futs s !! id = Some f → ready_poll f cx (s_w s) = Ret ((r, f'), w') →
  ∃ s', exec (EPollFut id cx) s = Some s' ∧ s_w s' = w' ∧
    s_futs s' = <[id := f']> (s_futs s) ∧ s_handles s' = s_handles s ∧
    of_futs (s_waits s') = wait_of r id cx w' (of_futs (s_waits s)).
Proof.
  intros Hf Hrun. eexists. unfold exec. rewrite decide_True by by eexists.
  rewrite Hf. cbn [mbind option_bind]. unfold effect. rewrite Hrun. by split_and!.
Qed.

Lemma exec_drop id s f :
  sys_ok s → s_futs s !! id = Some f →
  wp (ready_drop f) (λ _ w', ∃ s', exec (EDropFut id) s = Some s' ∧ s_w s' = w' ∧
    s_futs s' = delete id (s_futs s) ∧ s_handles s' = s_handles s ∧
    w_env w' = w_env (s_w s)) (s_w s).
Proof.
  intros Hok Hf.
  assert (wp (ready_drop f) (λ _ w', w_env w' = w_env (s_w s)) (s_w s)) as ([] & w' & Hrun & Henv).
  { by apply ready_drop_wp; [apply (fut_slot _ _ _ (ok_fut _ Hok _ _ Hf))|..]. }
  exists tt, w'. split; [done|]. eexists. unfold exec. rewrite decide_True by by eexists.
  rewrite Hf. cbn [mbind option_bind]. unfold effect. rewrite Hrun. by split_and!.
Qed.

Lemma wp_ret_of {A} (m : M World A) (Q : A → World → Prop) w x w' :
  m w = Ret (x, w') → Q x w' → wp m Q w.
Proof. intros Hm HQ. by exists x, w'. Qed.

(** ** [read_with] and its variants *)

Section with_poll.
Context {S R : Type} (op : T → S → Env → (io_result R * (T * S)) * Env).

(** What a poll has done, seen from the system. *)
Definition polled_steps_of s (id : Z) (dir : Dir) (l : loc) (cx : Waker) (st : WithFut)
    (c : Call Reg Env) (r : Poll (io_result R)) (st' : WithFut) w' : Prop :=
  ∃ evs s', run evs s = Some s' ∧ Forall (own_step id l dir cx) evs ∧ s_w s' = w' ∧
    s_handles s' = s_handles s ∧ task_fut s' id dir l st' ∧
    (r = Pending → evs = with_steps id dir l cx st c ∧
       of_futs (s_waits s') !! id = Some (cx, length (w_woken w'))).

Lemma calling_steps fuel dir a i x cx s id c :
  sys_ok s → source a ∈ s_handles s → io a = Some i → s_futs s !! id = None →
  is_call (op i x) c (w_env (s_w s)) →
  wp (with_poll (Datatypes.S (Datatypes.S fuel)) dir op a x Calling cx)
    (λ b w', polled_steps_of s id dir (source a) cx Calling c b.1 b.2.2 w') (s_w s).
Proof.
  intros Hok Hin Hi Hid [Hcl Hc]. cbn [with_poll]. apply wp_bind.
  eapply call_op_wp; [done|]. intros res i' x' e He.
  rewrite He in Hc. cbn in Hc. subst e.
  destruct (exec_call c s Hcl) as (s1 & He1 & Hw1 & [_ Hf1 Hh1 _ _]). rewrite <- Hw1.
  pose proof (sys_ok_exec _ _ _ Hok He1) as Hok1.
  assert (∀ r, polled_steps_of s id dir (source a) cx Calling c (Prelude.Ready r) Finished (s_w s1))
    as Hdone.
  { intros r. exists [ECall c], s1. cbn. rewrite He1. split_and!; try done.
    - by repeat constructor.
    - by rewrite Hf1. }
  destruct res as [r|[| |code]]; try (apply wp_ret; apply Hdone). clear Hdone.
  destruct (exec_new id (source a) dir s1) as (s2 & He2 & Hw2 & Hf2 & Hh2);
    [by rewrite Hh1|by rewrite Hf1|].
  pose proof (sys_ok_exec _ _ _ Hok1 He2) as Hok2.
  assert (s_futs s2 !! id = Some (ready (source a) dir)) as Hid2
    by (rewrite Hf2; apply lookup_insert_eq).
  destruct (ready_poll_ok s2 id _ cx Hok2 Hid2) as ([r f'] & w3 & Hrun & src & _ & Hnd & j & Hsl & _).
  destruct (exec_poll id cx s2 _ _ _ _ Hid2 Hrun) as (s3 & He3 & Hw3 & Hf3 & Hh3 & Hwait).
  pose proof (sys_ok_exec _ _ _ Hok2 He3) as Hok3.
  assert (s_futs s3 !! id = Some f') as Hid3 by (rewrite Hf3; apply lookup_insert_eq).
  assert (rd_source f' = source a ∧ rd_dir f' = dir) as [Hsrc Hdir].
  { cbn in Hsl. by destruct Hsl as [-> |[_ ->]]. }
  assert (run [ECall c; ENewFut id (source a) dir; EPollFut id cx] s = Some s3) as Hrun3
    by (cbn; rewrite He1; cbn; rewrite He2; cbn; by rewrite He3).
  assert (Forall (own_step id (source a) dir cx)
    [ECall c; ENewFut id (source a) dir; EPollFut id cx]) as Hown by by repeat constructor.
  assert (s_handles s3 = s_handles s) as Hh by congruence.
  cbn [with_poll optimistic_poll negb source]. apply wp_bind, wp_bind, wp_bind.
  rewrite <- Hw2. eapply wp_ret_of; [exact Hrun|].
  destruct r as [[[]|err]|]; cbn in Hnd.
  - destruct Hnd as [Hnd _]. by specialize (Hnd eq_refl).
  - do 2 apply wp_ret. apply wp_bind. rewrite <- Hw3.
    eapply wp_mono; [by apply exec_drop|]. intros [] w4 (s4 & He4 & <- & Hf4 & Hh4 & _).
    apply wp_ret. eexists _, s4. split_and!.
    + apply (run_app _ [EDropFut id] _ _ _ Hrun3). cbn. by rewrite He4.
    + apply Forall_app. split; [done|]. by repeat constructor.
    + done.
    + congruence.
    + cbn. rewrite Hf4. apply lookup_delete_eq.
    + done.
  - do 3 apply wp_ret. eexists _, s3. split_and!; try done. intros _. split; [done|].
    rewrite Hwait. cbn. by rewrite lookup_insert_eq.
Qed.

Lemma with_poll_steps dir a i x st cx s id c :
  sys_ok s → source a ∈ s_handles s → io a = Some i → st ≠ Finished →
  task_fut s id dir (source a) st → is_call (op i x) c (w_env (s_w s)) →
  wp (with_poll WITH_FUEL dir op a x st cx)
    (λ b w', polled_steps_of s id dir (source a) cx st c b.1 b.2.2 w') (s_w s).
Proof.
  intros Hok Hin Hi Hst Hfut Hcall. destruct st as [|polled f|]; [by eapply calling_steps| |done].
  destruct Hfut as (-> & Hf & Hsrc & Hdir). change WITH_FUEL with (Datatypes.S 2).
  set (fuel := 2%nat). cbn [with_poll optimistic_poll negb]. apply wp_bind, wp_ret, wp_bind.
  eapply wp_mono; [by apply exec_drop|]. intros [] w1 (s1 & He1 & <- & Hf1 & Hh1 & Henv).
  eapply wp_mono.
  { apply (calling_steps 0 dir a i x cx s1 id c).
    - by eapply sys_ok_exec.
    - by rewrite Hh1.
    - done.
    - rewrite Hf1. apply lookup_delete_eq.
    - by rewrite Henv. }
  intros b w' (evs & s' & Hrun & Hown & Hw & Hh & Hfut & Hwait).
  exists (EDropFut id :: evs), s'. cbn. rewrite He1. split_and!; try done.
  - by constructor.
  - congruence.
  - intros Hr. destruct (Hwait Hr) as [-> ?]. done.
Qed.

(** ** The polls of [AsyncRead] and [AsyncWrite] *)

Lemma exec_poll_ready l d cx s r w' :
  l ∈ s_handles s → poll_ready l d cx (s_w s) = Ret (r, w') →
  ∃ s', exec (EPollReady l d cx) s = Some s' ∧ s_w s' = w' ∧ s_handles s' = s_handles s ∧
    (failed r = false → aside s s') ∧
    of_polls (s_waits s') = wait_of r (l, d) cx w' (of_polls (s_waits s)).
Proof.
  intros Hl Hrun. eexists. unfold exec. rewrite decide_True by done.
  unfold effect. rewrite Hrun. split_and!; try done. intros Hr. cbn. split; try done. cbn.
  by rewrite Hr, orb_false_r.
Qed.

Context (Hop : calls_system op).

Definition poll_step (l : loc) (dir : Dir) (cx : Waker) (ev : Ev) : Prop :=
  ev = EPollReady l dir cx ∨ ∃ c, ev = ECall c.

(** What such a poll has done, seen from the system. *)
Definition io_steps_of s (dir : Dir) (l : loc) (cx : Waker) (r : Poll (io_result R)) w' : Prop :=
  ∃ evs s', run evs s = Some s' ∧
    Forall (poll_step l dir cx) evs ∧ s_w s' = w' ∧
    s_handles s' = s_handles s ∧
    (r = Pending → aside s s' ∧
       of_polls (s_waits s') !! (l, dir) = Some (cx, length (w_woken w'))).

Lemma io_poll_unfold fuel dir a i x cx w res i' x' e :
  io a = Some i → op i x (w_env w) = ((res, (i', x')), e) →
  io_poll (Datatypes.S fuel) dir op a x cx w =
  let a' := mkAsync (source a) (Some i') in
  match res with
  | Err WouldBlock =>
      (res ← poll_ready (source a) dir cx;
       match res with
       | Pending => mret (Pending, (a', x'))
       | Prelude.Ready (Err err) => mret (Prelude.Ready (Err err), (a', x'))
       | Prelude.Ready (Ok _) => io_poll fuel dir op a' x' cx
       end) (set_env e w)
  | res => Ret ((Prelude.Ready res, (a', x')), set_env e w)
  end.
Proof.
  intros Hi He. cbn [io_poll]. unfold call_op, get_ref, unwrap, env_call.
  rewrite Hi. unfold mbind, M_bind, mret, M_ret. rewrite He. by destruct res as [|[]].
Qed.

Lemma io_poll_steps fuel dir a i x cx s b w' :
  source a ∈ s_handles s → io a = Some i →
  io_poll fuel dir op a x cx (s_w s) = Ret (b, w') →
  io_steps_of s dir (source a) cx b.1 w'.
Proof.
  revert a i x s. induction fuel as [|fuel IH]; intros a i x s Hin Hi Hrun; [done|].
  destruct (op i x (w_env (s_w s))) as [[res [i' x']] e] eqn:He.
  rewrite (io_poll_unfold _ _ _ _ _ _ _ _ _ _ _ Hi He) in Hrun.
  destruct (Hop i x (w_env (s_w s))) as (c & Hcl & Hc). rewrite He in Hc. cbn in Hc. subst e.
  destruct (exec_call c s Hcl) as (s1 & He1 & Hw1 & Has1). pose proof (aside_handles _ _ Has1) as Hh1.
  rewrite <- Hw1 in Hrun.
  assert (∀ out, io_steps_of s dir (source a) cx (Prelude.Ready out) (s_w s1)) as Hdone.
  { intros out. exists [ECall c], s1. cbn. rewrite He1. split_and!; try done.
    apply Forall_singleton. right. by eexists. }
  destruct res as [v|[| |code]]; try (injection Hrun as <- <-; apply Hdone).
  apply bind_ret_inv in Hrun as (res & w2 & Hpoll & Hrun).
  destruct (exec_poll_ready (source a) dir cx s1 res w2) as (s2 & He2 & Hw2 & Hh2 & Has2 & Hwait);
    [by rewrite Hh1|done|].
  assert (run [ECall c; EPollReady (source a) dir cx] s = Some s2) as Hrun2
    by (cbn; rewrite He1; cbn; by rewrite He2).
  assert (Forall (poll_step (source a) dir cx)
    [ECall c; EPollReady (source a) dir cx]) as Hown.
  { apply Forall_cons. split; [right; by eexists|apply Forall_singleton; by left]. }
  destruct res as [[[]|err]|].
  - rewrite <- Hw2 in Hrun.
    destruct (IH (mkAsync (source a) (Some i')) i' x' s2) as (evs & s' & Hrun' & Hown' & Hw' & Hh' & Hwait');
      [by rewrite Hh2, Hh1|done|exact Hrun|].
    eexists _, s'. split_and!; [by eapply run_app| |done|congruence|].
    { by apply Forall_app. }
    intros Hr. destruct (Hwait' Hr) as [Has' Hw]. split; [|done].
    eapply aside_trans, Has'. by eapply aside_trans, Has2.
  - injection Hrun as <- <-. exists [ECall c; EPollReady (source a) dir cx], s2.
    split_and!; try done. congruence.
  - injection Hrun as <- <-. exists [ECall c; EPollReady (source a) dir cx], s2.
    split_and!; try done; [congruence|]. intros _. split; [by eapply aside_trans, Has2|].
    rewrite Hwait. cbn. by rewrite lookup_insert_eq.
Qed.
End with_poll.

(** ** Timers *)

Lemma exec_insert_timer t0 k s :
  sys_ok s → w_id_generator (s_w s) + 1 < USIZE_MOD →
  wp (insert_timer t0 k) (λ id w', id = w_id_generator (s_w s) ∧
    ∃ s', run [EPushTimer t0 k; ENotify] s = Some s' ∧ s_w s' = w' ∧
      of_timers (s_waits s') = <[(t0, id) := (k, length (w_woken w'))]> (of_timers (s_waits s)))
    (s_w s).
Proof.
  intros Hok Hg. unfold insert_timer. apply wp_bind.
  destruct (push_timer_wp t0 k (s_w s) (inv_queue _ (ok_timers _ Hok)))
    as (id & w1 & Hrun & Hid & _). exists id, w1. split; [done|].
  assert (wp notify (λ _ w', w_woken w' = w_woken w1) w1) as ([] & w' & Hn & Hwk)
    by by apply notify_wp.
  apply wp_bind. exists tt, w'. split; [done|]. apply wp_ret. split; [done|].
  eexists. split; [|split].
  - cbn [run]. unfold exec. rewrite decide_True by done. unfold effect. rewrite Hrun.
    cbn [mbind option_bind]. rewrite decide_True by done. cbn [s_w]. rewrite Hn. reflexivity.
  - done.
  - cbn. by rewrite Hwk.
Qed.

Lemma exec_remove_timer t0 id s :
  sys_ok s →
  wp (remove_timer t0 id) (λ _ w',
    ∃ s', exec (ERemoveTimer t0 id) s = Some s' ∧ s_w s' = w' ∧
      w_id_generator w' = w_id_generator (s_w s) ∧
      of_timers (s_waits s') = delete (t0, id) (of_timers (s_waits s))) (s_w s).
Proof.
  intros Hok.
  destruct (remove_timer_wp t0 id (s_w s) (inv_queue _ (ok_timers _ Hok)))
    as ([] & w' & Hrun & _ & _ & _ & Hid & _). exists tt, w'. split; [done|].
  eexists. unfold exec. rewrite decide_True by done. unfold effect. rewrite Hrun. by split_and!.
Qed.

(** The waker of a timer is that of a wait of the system. *)
Definition timer_waits s (t : Timer.Timer) : Prop :=
  ∀ key k, Timer.entry t = Some (key, k) → ∃ n, of_timers (s_waits s) !! key = Some (k, n).

(** The steps of a timer. *)
Definition timer_task_step (ev : Ev) : Prop :=
  match ev with ECall _ | EPushTimer _ _ | ENotify | ERemoveTimer _ _ => True | _ => False end.

(** Those of a poll of a timer for [t0] that answers [Pending]. *)
Definition timer_steps (t : Timer.Timer) (t0 : Instant) (cx : Waker) (c : Call Reg Env) : list Ev :=
  ECall c ::
  match Timer.id_and_waker t with
  | None => [EPushTimer t0 cx; ENotify]
  | Some (id, k) =>
      if will_wake k cx then [] else [ERemoveTimer t0 id; EPushTimer t0 cx; ENotify]
  end.

Lemma now_call_step s c :
  is_call env_now c (w_env (s_w s)) →
  wp now (λ _ w', ∃ s', exec (ECall c) s = Some s' ∧ s_w s' = w' ∧
    w_id_generator w' = w_id_generator (s_w s) ∧ s_waits s' = s_waits s) (s_w s).
Proof.
  intros [Hcl Hc]. apply wp_env_call. eexists.
  unfold exec.
  rewrite decide_True by (cbn; by rewrite Hcl). cbn. rewrite Hc. by split_and!.
Qed.

(** The end of a poll: the timer is registered anew. *)
Lemma rearm_steps evs s s1 t0 k (P : Z → World → Prop) :
  sys_ok s → run evs s = Some s1 → Forall timer_task_step evs →
  w_id_generator (s_w s1) + 1 < USIZE_MOD →
  (∀ id w' evs' s', evs' = evs ++ [EPushTimer t0 k; ENotify] → run evs' s = Some s' →
     Forall timer_task_step evs' → s_w s' = w' →
     (∃ n, of_timers (s_waits s') !! (t0, id) = Some (k, n)) → P id w') →
  wp (insert_timer t0 k) P (s_w s1).
Proof.
  intros Hok Hrun Hown Hg HP.
  eapply wp_mono; [by apply exec_insert_timer; [eapply run_ok|]|].
  intros id w' (-> & s' & He & Hw & Hwait). eapply HP.
  - done.
  - by apply (run_app _ _ _ _ _ Hrun).
  - apply Forall_app. by repeat constructor.
  - done.
  - rewrite Hwait, lookup_insert_eq. by eexists.
Qed.

Lemma poll_next_steps (t : Timer.Timer) cx s c :
  sys_ok s → w_id_generator (s_w s) + 1 < USIZE_MOD → is_call env_now c (w_env (s_w s)) →
  wp (Timer.poll_next t cx)
    (λ b w', ∃ evs s', run evs s = Some s' ∧ Forall timer_task_step evs ∧ s_w s' = w' ∧
       (timer_waits s t → timer_waits s' b.2) ∧
       (b.1 = Pending → ∀ t0, Timer.when t = Some t0 → evs = timer_steps t t0 cx c)) (s_w s).
Proof.
  intros Hok Hg Hnow. unfold Timer.poll_next.
  destruct (Timer.when t) as [t0|] eqn:Hwhen.
  2:{ apply wp_ret. by exists [], s. }
  apply wp_bind. eapply wp_mono; [by eapply now_call_step|].
  intros now w1 (s1 & He1 & <- & Hid1 & Hw1).
  assert (run [ECall c] s = Some s1) as Hrun1 by (cbn; by rewrite He1).
  assert (Forall timer_task_step [ECall c]) as Hown1 by by repeat constructor.
  pose proof (run_ok _ _ _ Hok Hrun1) as Hok1.
  (* the entry it has is removed *)
  assert (∀ id (Q : unit → World → Prop),
    (∀ evs s', evs = [ECall c; ERemoveTimer t0 id] → run evs s = Some s' →
       Forall timer_task_step evs → w_id_generator (s_w s') = w_id_generator (s_w s) → Q tt (s_w s')) →
    wp (remove_timer t0 id) Q (s_w s1)) as Hremove.
  { intros id Q HQ. eapply wp_mono; [by apply exec_remove_timer|].
    intros [] w2 (s2 & He2 & <- & Hid2 & _). apply (HQ _ s2 eq_refl).
    - cbn. rewrite He1. cbn. by rewrite He2.
    - by repeat constructor.
    - congruence. }
  destruct (decide (t0 ≤ now)).
  - apply wp_bind. eassert (∀ evs s', run evs s = Some s' → Forall timer_task_step evs →
      w_id_generator (s_w s') = w_id_generator (s_w s) → wp _ _ (s_w s')) as Hnext;
      [|destruct (Timer.id_and_waker t) as [[id k]|];
        [apply Hremove; intros evs s' _; exact (Hnext evs s')|by apply wp_ret, (Hnext [ECall c])]].
    intros evs s2 Hrun2 Hown2 Hid2. destruct (checked_add t0 (Timer.period t)) as [next|].
    + apply wp_bind. apply (rearm_steps evs s s2); [done|exact Hrun2|done|by rewrite Hid2|].
      intros id w' evs' s' _ Hrun' Hown' <- Hn. apply wp_ret. exists evs', s'.
      split_and!; try done. by intros _ ? ? [= <- <-].
    + apply wp_ret. by exists evs, s2.
  - destruct (Timer.id_and_waker t) as [[id k]|] eqn:Hentry; [destruct (will_wake k cx) eqn:Hww|]; cbn [negb].
    + apply wp_ret. exists [ECall c], s1. split_and!; try done.
      * intros Hwaits key k' Hk. rewrite Hw1. by apply Hwaits.
      * intros _ ? [= <-]. unfold timer_steps. by rewrite Hentry, Hww.
    + apply wp_bind, Hremove. intros evs s2 -> Hrun2 Hown2 Hid2. apply wp_bind.
      apply (rearm_steps [ECall c; ERemoveTimer t0 id] s s2); [done|exact Hrun2|done|by rewrite Hid2|].
      intros id' w' evs' s' -> Hrun' Hown' <- Hn. apply wp_ret. eexists _, s'.
      split_and!; [exact Hrun'|done|done|by intros _ ? ? [= <- <-]|].
      intros _ ? [= <-]. unfold timer_steps. by rewrite Hentry, Hww.
    + apply wp_bind. apply (rearm_steps [ECall c] s s1); [done|exact Hrun1|done|by rewrite Hid1|].
      intros id' w' evs' s' -> Hrun' Hown' <- Hn. apply wp_ret. eexists _, s'.
      split_and!; [exact Hrun'|done|done|by intros _ ? ? [= <- <-]|].
      intros _ ? [= <-]. unfold timer_steps. by rewrite Hentry.
Qed.

(** ** What a poll that answers [Pending] waits for *)

(** Until it is polled again or dropped: an event its direction is reported for wakes the
    task by the end of the round. *)
Definition wakes_on_event s1 (id : Z) (f : ReadyFut) (cx : Waker) (n : nat) : Prop :=
  ∀ evs1 s2 ev evs2 s3 res,
    run evs1 s1 = Some s2 → ev ∈ in_flight (s_ph s2) → reports s2 ev f →
    run evs2 s2 = Some s3 → s_ph s3 = Idle res → s_errs s3 = false →
    EDropFut id ∉ evs1 ++ evs2 → (∀ cx', EPollFut id cx' ∉ evs1 ++ evs2) →
    cx ∈ skipn n (w_woken (s_w s3)).

Lemma with_poll_wakes {S R : Type} (op : T → S → Env → (io_result R * (T * S)) * Env)
    dir a i x st cx s id c :
  sys_ok s → is_call (op i x) c (w_env (s_w s)) → source a ∈ s_handles s → io a = Some i →
  st ≠ Finished → task_fut s id dir (source a) st →
  wp (with_poll WITH_FUEL dir op a x st cx)
    (λ b w', b.1 = Pending →
       ∃ s1 f, run (with_steps id dir (source a) cx st c) s = Some s1 ∧
         Forall (own_step id (source a) dir cx) (with_steps id dir (source a) cx st c) ∧
         s_w s1 = w' ∧ s_futs s1 !! id = Some f ∧ rd_source f = source a ∧ rd_dir f = dir ∧
         wakes_on_event s1 id f cx (length (w_woken w'))) (s_w s).
Proof.
  intros Hok Hop Hin Hi Hst Hfut. eapply wp_mono; [by eapply with_poll_steps|].
  intros [r [[a' x'] st']] w' (evs & s1 & Hrun & Hown & Hw & _ & Hf & Hwait) Hr.
  destruct (Hwait Hr) as [-> Hwait']. clear Hwait. rename Hwait' into Hwait. cbn in Hf. pose proof (run_ok _ _ _ Hok Hrun) as Hok1.
  destruct (wait_fut _ _ _ _ _ _ (ok_waits _ Hok1) _ _ _ Hwait) as (f & Hid & _).
  destruct st' as [|polled f'|]; cbn in Hf; [congruence| |congruence].
  destruct Hf as (_ & Hid' & Hsrc & Hdir). rewrite Hid in Hid'. injection Hid' as <-.
  exists s1, f. split_and!; try done.
  intros evs1 s2 ev evs2 s3 res Hrun1 Hin2 Hrep Hrun2 Hend Herr Hdrop Hpoll.
  rewrite not_elem_of_app in Hdrop. destruct Hdrop as [Hd1 Hd2].
  destruct (run_stays evs1 s1 s2 id f ev Hok1 Hrun1 Hid Hd1) as (Hf2 & Hw2 & _).
  { intros cx' Hc. apply (Hpoll cx'), elem_of_app. by left. }
  apply (event_wakes_ok s2 s3 id cx _ f ev evs2 res); try done; [by eapply run_ok|by rewrite Hw2|].
  intros cx' Hc. apply (Hpoll cx'), elem_of_app. by right.
Qed.

(** A round that starts when the timer is due wakes the task by its end. *)
Definition wakes_on_time s1 (t0 : Instant) (id : Z) (cx : Waker) (n : nat) : Prop :=
  ∀ evs1 s2 timeout s3 evs2 s4 res,
    run evs1 s1 = Some s2 → ERemoveTimer t0 id ∉ evs1 →
    t0 ≤ env_time (w_env (s_w s2)) → exec (EReact timeout) s2 = Some s3 →
    run evs2 s3 = Some s4 → s_ph s4 = Idle res → s_errs s4 = false →
    cx ∈ skipn n (w_woken (s_w s4)).

Lemma poll_next_wakes (t : Timer.Timer) (t0 : Instant) cx s c :
  sys_ok s → w_id_generator (s_w s) + 1 < USIZE_MOD → Timer.timer_ok (s_w s) t →
  Timer.when t = Some t0 → is_call env_now c (w_env (s_w s)) →
  wp (Timer.poll_next t cx)
    (λ b w', b.1 = Pending →
       ∃ s1 id, run (timer_steps t t0 cx c) s = Some s1 ∧
         Forall timer_task_step (timer_steps t t0 cx c) ∧ s_w s1 = w' ∧
         Timer.entry b.2 = Some ((t0, id), cx) ∧
         wakes_on_time s1 t0 id cx (length (w_woken w'))) (s_w s).
Proof.
  intros Hok Hid Ht Ht0 Hnow.
  eapply wp_mono; [apply wp_and; [by apply (poll_next_steps t cx s c Hok Hid Hnow)|]|].
  { apply (Timer.poll_next_wp t cx (s_w s) (λ b w', b.1 = Pending →
      ∃ id, Timer.entry b.2 = Some ((t0, id), cx) ∧ live_timers w' !! (t0, id) = Some cx));
      [apply Hok|done|done|].
    intros now r t' w' Hp _ _ _ Hl _ _ _ Hr. cbn in Hr. subst r. unfold Timer.polled in Hp.
    rewrite Ht0 in Hp. case_decide; [by destruct Hp|]. destruct Hp as (_ & _ & id & He).
    exists id. split; [done|]. rewrite Hl. unfold Timer.with_entry. rewrite He.
    apply lookup_insert_eq. }
  intros b w' [(evs & s1 & Hrun & Hown & Hw & _ & Hevs) Hlive] Hr.
  specialize (Hevs Hr _ Ht0) as ->.
  destruct (Hlive Hr) as (id & He & Hl). exists s1, id. split_and!; [done..|].
  intros evs1 s2 timeout s3 evs2 s4 res Hrun1 Hne Hdue Hreact Hrun2 Hend Herr.
  rewrite <- Hw in Hl |- *.
  by eapply (live_timer_wakes s1); [eapply run_ok|..].
Qed.

(** * Properties *)

(** A poll of the future of [read_with] or [write_with] (and of their [_mut] variants) is a
    run of the system: it returns, and what it has done is what some steps of its own do,
    which poll or drop its future and call the operating system. If it answers [Pending],
    its future is one of those that wait, with the waker of this poll. *)
Theorem with_poll_refines {S R : Type} (dir : Dir)
    (op : T → S → Env → (io_result R * (T * S)) * Env) (a : Async T) (i : T) (x : S)
    (st : WithFut) (cx : Waker) (s : Sys) (id : Z) (Hs : reachable s)
    (Hop : calls_system op) (Hin : source a ∈ s_handles s) (Hi : io a = Some i)
    (Hst : st ≠ Finished) (Hfut : task_fut s id dir (source a) st) :
  wp (with_poll WITH_FUEL dir op a x st cx)
    (λ b w', let '(r, (_, _, st')) := b in
       ∃ evs s', run evs s = Some s' ∧ Forall (own_step id (source a) dir cx) evs ∧
         s_w s' = w' ∧ task_fut s' id dir (source a) st' ∧
         (r = Pending → of_futs (s_waits s') !! id = Some (cx, length (w_woken w')))) (s_w s).
Proof.
  destruct (Hop i x (w_env (s_w s))) as (c & Hcl & Hc).
  eapply wp_mono; [eapply (with_poll_steps _ _ _ _ _ _ _ _ _ c); try done; by apply sys_ok_reachable|].
  intros [r [[a' x'] st']] w' (evs & s' & Hrun & Hown & Hw & _ & Hf & Hwait).
  exists evs, s'. split_and!; try done. apply Hwait.
Qed.

(** So is a poll of [AsyncRead] or [AsyncWrite]: it returns, and has made one or two calls
    of the operating system and of [poll_ready]; if it answers [Pending], its direction is
    one of those that are waited for, with the waker of this poll. *)
Theorem io_poll_refines {S R : Type} (dir : Dir)
    (op : T → S → Env → (io_result R * (T * S)) * Env) (a : Async T) (i : T) (x : S)
    (cx : Waker) (s : Sys) (Hs : reachable s) (Hop : calls_system op)
    (Hin : source a ∈ s_handles s) (Hi : io a = Some i) :
  wp (io_poll IO_FUEL dir op a x cx)
    (λ b w', ∃ evs s', run evs s = Some s' ∧ Forall (poll_step (source a) dir cx) evs ∧
       s_w s' = w' ∧
       (b.1 = Pending →
        of_polls (s_waits s') !! (source a, dir) = Some (cx, length (w_woken w')))) (s_w s).
Proof.
  pose proof (sys_ok_reachable _ Hs) as Hok.
  destruct (ok_registered _ Hok (source a)) as (src & Hl & _); [set_solver|].
  destruct (io_poll_wp dir op a i x cx (s_w s) src Hi Hl) as (b & w' & Hrun & _).
  exists b, w'. split; [done|].
  destruct (io_poll_steps op Hop _ _ _ _ _ _ _ _ _ Hin Hi Hrun)
    as (evs & s' & Hrun' & Hown & Hw & _ & Hwait).
  exists evs, s'. split_and!; try done. apply Hwait.
Qed.

(** And so is a poll of a [Timer]: it returns, and has read the clock and set and removed
    timers; the waker of the timer, if it has one, is one of those that wait. *)
Theorem timer_poll_refines (t : Timer.Timer) (cx : Waker) (s : Sys) (Hs : reachable s)
    (Hid : w_id_generator (s_w s) + 1 < USIZE_MOD) (Ht : timer_waits s t)
    (Hnow : ∀ e, ∃ c, call_closes c = None ∧ call_effect c e = (env_now e).2) :
  wp (Timer.poll_next t cx)
    (λ b w', ∃ evs s', run evs s = Some s' ∧ Forall timer_task_step evs ∧ s_w s' = w' ∧
       timer_waits s' b.2) (s_w s).
Proof.
  destruct (Hnow (w_env (s_w s))) as (c & Hcl & Hc).
  eapply wp_mono; [by apply (poll_next_steps t cx s c); [apply sys_ok_reachable|..]|].
  intros b w' (evs & s' & Hrun & Hown & Hw & Hwaits & _). exists evs, s'. auto.
Qed.

(** C7 A task that reads or writes is woken when its handle is ready: after a poll of
    [read_with] or [write_with] that answers [Pending], which is the run [with_steps] of
    the system, whatever steps other tasks and rounds take, once the poller reports an event
    of its direction the task has been woken by the end of the round; provided that its
    future is neither polled again nor dropped before, and that the poller has not refused
    to modify an interest by then. *)
Theorem read_with_woken {S R : Type} (dir : Dir)
    (op : T → S → Env → (io_result R * (T * S)) * Env) (a : Async T) (i : T) (x : S)
    (st : WithFut) (cx : Waker) (s : Sys) (id : Z) (c : Call Reg Env) (Hs : reachable s)
    (Hop : is_call (op i x) c (w_env (s_w s))) (Hin : source a ∈ s_handles s) (Hi : io a = Some i)
    (Hst : st ≠ Finished) (Hfut : task_fut s id dir (source a) st) :
  wp (with_poll WITH_FUEL dir op a x st cx)
    (λ b w', b.1 = Pending →
       ∃ s1 f, run (with_steps id dir (source a) cx st c) s = Some s1 ∧ s_w s1 = w' ∧
         s_futs s1 !! id = Some f ∧ rd_source f = source a ∧ rd_dir f = dir ∧
         wakes_on_event s1 id f cx (length (w_woken w'))) (s_w s).
Proof.
  eapply wp_mono; [eapply with_poll_wakes; try done; by apply sys_ok_reachable|].
  intros b w' Hk Hr. destruct (Hk Hr) as (s1 & f & Hrun & _ & Hrest). by exists s1, f.
Qed.

(** C11 A task that polls [AsyncRead] or [AsyncWrite] is woken when its handle is ready: after
    a poll that answers [Pending], whatever steps other tasks and rounds take that do not
    poll the same direction or drop the adapter, once the poller reports an event of the
    direction the task has been woken by the end of the round, provided that the poller has
    not refused to modify an interest by then. The poll itself disturbs neither the round that runs nor the
    futures and adapters of others. *)
Theorem io_poll_woken {S R : Type} (dir : Dir)
    (op : T → S → Env → (io_result R * (T * S)) * Env) (a : Async T) (i : T) (x : S)
    (cx : Waker) (s : Sys) (Hs : reachable s) (Hop : calls_system op)
    (Hin : source a ∈ s_handles s) (Hi : io a = Some i) :
  wp (io_poll IO_FUEL dir op a x cx)
    (λ b w', b.1 = Pending →
       ∃ evs s1, run evs s = Some s1 ∧ Forall (poll_step (source a) dir cx) evs ∧
         s_w s1 = w' ∧ aside s s1 ∧
         ∀ evs1 s2 ev evs2 s3 res,
           run evs1 s1 = Some s2 → ev ∈ in_flight (s_ph s2) → announces s2 ev (source a) dir →
           run evs2 s2 = Some s3 → s_ph s3 = Idle res → s_errs s3 = false →
           Forall (λ e, ¬ touches (source a) dir e) (evs1 ++ evs2) →
           cx ∈ skipn (length (w_woken w')) (w_woken (s_w s3))) (s_w s).
Proof.
  pose proof (sys_ok_reachable _ Hs) as Hok.
  destruct (ok_registered _ Hok (source a)) as (src & Hl & _); [set_solver|].
  destruct (io_poll_wp dir op a i x cx (s_w s) src Hi Hl) as (b & w' & Hrun & _).
  exists b, w'. split; [done|]. intros Hr.
  destruct (io_poll_steps op Hop _ _ _ _ _ _ _ _ _ Hin Hi Hrun)
    as (evs & s1 & Hrun' & Hown & Hw & _ & Hwait). destruct (Hwait Hr) as [Has Hwait'].
  exists evs, s1. split_and!; [done..|].
  intros evs1 s2 ev evs2 s3 res Hrun1 Hin2 Ha Hrun2 Hend Herr [Ht1 Ht2]%Forall_app.
  pose proof (run_ok _ _ _ Hok Hrun') as Hok1.
  eapply (poll_wakes_ok s2); [by eapply run_ok|by eapply run_polls|done..].
Qed.

(** C12 A task that polls a [Timer] is woken in time: after a poll that answers [Pending],
    which is the run [timer_steps] of the system, its timer is in the store, and whatever
    steps other tasks and rounds take, once a round has started when the timer is due the
    task has been woken by the end of that round; provided that the timer is not removed
    before, and that the poller has not refused to modify an interest by then. *)
Theorem timer_poll_woken (t : Timer.Timer) (t0 : Instant) (cx : Waker) (s : Sys)
    (c : Call Reg Env) (Hs : reachable s) (Hid : w_id_generator (s_w s) + 1 < USIZE_MOD)
    (Ht : Timer.timer_ok (s_w s) t) (Ht0 : Timer.when t = Some t0)
    (Hnow : is_call env_now c (w_env (s_w s))) :
  wp (Timer.poll_next t cx)
    (λ b w', b.1 = Pending →
       ∃ s1 id, run (timer_steps t t0 cx c) s = Some s1 ∧ s_w s1 = w' ∧
         Timer.entry b.2 = Some ((t0, id), cx) ∧
         wakes_on_time s1 t0 id cx (length (w_woken w'))) (s_w s).
Proof.
  eapply wp_mono; [apply (poll_next_wakes t t0); try done; by apply sys_ok_reachable|].
  intros b w' Hk Hr. destruct (Hk Hr) as (s1 & id & Hrun & _ & Hrest). by exists s1, id.
Qed.
End tasks.

(** * Witnesses *)

(** The handle does not touch the environment: no time passes. *)
Lemma ref_answer_calls : calls_system (S := unit) ref_answer.
Proof.
  intros i x e. exists (inl 0%N). split; [done|]. unfold ref_answer. destruct e, (rh_answers i); cbn;
    unfold ref_advance; cbn; by rewrite N.add_0_r.
Qed.
Lemma ref_now_calls (e : RefEnv) :
  ∃ c, call_closes c = None ∧ call_effect c e = (env_now e).2.
Proof. by exists (inl (ref_drift e)). Qed.

(** A source is registered. *)
Definition adapter_steps : list RefEv := [EInsert (Unix.mkRegistration 7); EAdd 1%positive].

Lemma adapter_reachable : reachable (state_of adapter_steps).
Proof. apply state_of_reachable. vm_compute. exact eq_refl. Qed.
Lemma adapter_handle : 1%positive ∈ s_handles (state_of adapter_steps).
Proof. vm_compute. exact eq_refl. Qed.
Lemma adapter_no_fut : s_futs (state_of adapter_steps) !! 5 = None.
Proof. vm_compute. exact eq_refl. Qed.
Lemma adapter_ids : w_id_generator (s_w (state_of adapter_steps)) + 1 < USIZE_MOD.
Proof. vm_compute. exact eq_refl. Qed.

(** The operation would block: the task waits. *)
Lemma with_poll_refines_witness :
  ∃ b w' evs s', with_poll WITH_FUEL READ ref_answer (adapter []) tt Calling waker1
                 (s_w (state_of adapter_steps)) = Ret (b, w') ∧
    run evs (state_of adapter_steps) = Some s' ∧ s_w s' = w' ∧
    of_futs (s_waits s') !! 5 = Some (waker1, length (w_woken w')).
Proof.
  destruct (with_poll_refines READ ref_answer (adapter []) (mkRefHandle 7 []) tt Calling waker1
              (state_of adapter_steps) 5 adapter_reachable ref_answer_calls adapter_handle
              eq_refl ltac:(discriminate) adapter_no_fut)
    as ([r [[a' x'] st']] & w' & Hrun & evs & s' & Hevs & _ & Hw & _ & Hwait).
  exists (r, (a', x', st')), w', evs, s'. split_and!; [exact Hrun|exact Hevs|exact Hw|].
  apply Hwait. vm_compute in Hrun. by injection Hrun as <- _ _ _ _.
Defined.

Lemma io_poll_refines_witness :
  ∃ b w' evs s', io_poll IO_FUEL READ ref_answer (adapter []) tt waker1
                 (s_w (state_of adapter_steps)) = Ret (b, w') ∧
    run evs (state_of adapter_steps) = Some s' ∧ s_w s' = w' ∧
    of_polls (s_waits s') !! (1%positive, READ) = Some (waker1, length (w_woken w')).
Proof.
  destruct (io_poll_refines READ ref_answer (adapter []) (mkRefHandle 7 []) tt waker1
              (state_of adapter_steps) adapter_reachable ref_answer_calls adapter_handle eq_refl)
    as ([r [a' x']] & w' & Hrun & evs & s' & Hevs & _ & Hw & Hwait).
  exists (r, (a', x')), w', evs, s'. split_and!; [exact Hrun|exact Hevs|exact Hw|].
  apply Hwait. vm_compute in Hrun. by injection Hrun as <- _ _ _.
Defined.

(** A timer for an instant that has not come is set. *)
Lemma timer_poll_refines_witness :
  ∃ b w' evs s', Timer.poll_next (Timer.at_instant 5000) waker3 (s_w (state_of adapter_steps)) =
                 Ret (b, w') ∧
    run evs (state_of adapter_steps) = Some s' ∧ s_w s' = w' ∧
    ∃ n, of_timers (s_waits s') !! (5000, 1) = Some (waker3, n).
Proof.
  assert (timer_waits (state_of adapter_steps) (Timer.at_instant 5000)) as Ht
    by (intros key k Hk; discriminate Hk).
  destruct (timer_poll_refines (Timer.at_instant 5000) waker3 (state_of adapter_steps)
              adapter_reachable adapter_ids Ht ref_now_calls)
    as (b & w' & Hrun & evs & s' & Hevs & _ & Hw & Hwait).
  exists b, w', evs, s'. split_and!; [exact Hrun|exact Hevs|exact Hw|].
  apply Hwait. vm_compute in Hrun. by injection Hrun as <- _.
Defined.

(** The calls of the examples: the operation takes no time, reading the clock does. *)
Definition no_call : Call Unix.Registration RefEnv := inl 0%N.
Lemma answer_is_call (i : RefHandle) (e : RefEnv) : is_call (ref_answer i tt) no_call e.
Proof.
  split; [done|]. unfold ref_answer. destruct e, (rh_answers i); cbn;
    unfold ref_advance; cbn; by rewrite N.add_0_r.
Qed.
Lemma now_is_call (e : RefEnv) : is_call env_now (inl (ref_drift e)) e.
Proof. done. Qed.

(** The task waits; a round reports that the handle is readable, and wakes it. *)
Definition reads_example : RefSys :=
  state_of (adapter_steps ++ with_steps 5 READ 1%positive waker1 Calling no_call).
Definition reported : list RefEv := [EReact None; ERound; ERound].
Definition ended : list RefEv := replicate 5 ERound.

Lemma round_events e : e ∈ reported ++ ended → e = EReact None ∨ e = ERound.
Proof.
  unfold reported, ended. cbn. rewrite !elem_of_cons, elem_of_nil. intuition.
Qed.

Lemma reads_ran :
  run (with_steps 5 READ 1%positive waker1 Calling no_call) (state_of adapter_steps) =
  Some reads_example.
Proof. vm_compute. exact eq_refl. Qed.
Lemma reads_fut : s_futs reads_example !! 5 = Some (mkReady 1%positive READ (Some (0, 0)) (Some 0)).
Proof. vm_compute. exact eq_refl. Qed.

Definition reported_in (s : RefSys) : RefSys := default boot (run reported s).
Definition ended_in (s : RefSys) : RefSys := default boot (run ended (reported_in s)).

Lemma reads_reported :
  run reported reads_example = Some (reported_in reads_example) ∧
  in_flight (s_ph (reported_in reads_example)) = [mkEvent 0 true false] ∧
  run ended (reported_in reads_example) = Some (ended_in reads_example) ∧
  s_ph (ended_in reads_example) = Idle (Ok tt) ∧ s_errs (ended_in reads_example) = false.
Proof. vm_compute. split_and!; exact eq_refl. Qed.
Lemma reads_reports :
  reports (reported_in reads_example) (mkEvent 0 true false)
    (mkReady 1%positive READ (Some (0, 0)) (Some 0)).
Proof. vm_compute. split_and!; exact eq_refl. Qed.

Lemma read_with_woken_witness : waker1 ∈ w_woken (s_w (ended_in reads_example)).
Proof.
  destruct (read_with_woken READ ref_answer (adapter []) (mkRefHandle 7 []) tt Calling waker1
              (state_of adapter_steps) 5 no_call adapter_reachable (answer_is_call _ _) adapter_handle
              eq_refl ltac:(discriminate) adapter_no_fut) as (b & w' & Hrun & Hk).
  assert (b.1 = Pending ∧ w_woken w' = []) as [Hb Hw].
  { pose proof Hrun as Hc. vm_compute in Hc. by injection Hc as <- <-. }
  destruct (Hk Hb) as (s1 & f & Hs1 & _ & Hf & _ & _ & Hall).
  assert (s1 = reads_example) as -> by (pose proof reads_ran as Heq; cbn [source adapter] in Hs1; congruence).
  assert (f = mkReady 1%positive READ (Some (0, 0)) (Some 0)) as -> by (pose proof reads_fut; congruence).
  destruct reads_reported as (H1 & H2 & H3 & H4 & H5). rewrite Hw in Hall.
  refine (Hall _ _ (mkEvent 0 true false) _ _ _ H1 _ reads_reports H3 H4 H5 _ _).
  - rewrite H2. by left.
  - intros Hin. by destruct (round_events _ Hin).
  - intros cx' Hin. by destruct (round_events _ Hin).
Defined.

(** The same for a poll of [AsyncRead]. *)
Definition polls_example : RefSys :=
  state_of (adapter_steps ++ [ECall no_call; EPollReady 1%positive READ waker1]).

Lemma polls_reported :
  run reported polls_example = Some (reported_in polls_example) ∧
  in_flight (s_ph (reported_in polls_example)) = [mkEvent 0 true false] ∧
  run ended (reported_in polls_example) = Some (ended_in polls_example) ∧
  s_ph (ended_in polls_example) = Idle (Ok tt) ∧ s_errs (ended_in polls_example) = false ∧
  aside (state_of adapter_steps) polls_example.
Proof. vm_compute. split_and!; try exact eq_refl. by split. Qed.
Lemma polls_announces : announces (reported_in polls_example) (mkEvent 0 true false) 1%positive READ.
Proof. vm_compute. split_and!; exact eq_refl. Qed.

Lemma io_poll_woken_witness : waker1 ∈ w_woken (s_w (ended_in polls_example)).
Proof.
  destruct (io_poll_woken READ ref_answer (adapter []) (mkRefHandle 7 []) tt waker1
              (state_of adapter_steps) adapter_reachable ref_answer_calls adapter_handle eq_refl)
    as (b & w' & Hrun & Hk).
  assert (b.1 = Pending ∧ w_woken w' = [] ∧ w' = s_w polls_example) as (Hb & Hw & Hw').
  { pose proof Hrun as Hc. vm_compute in Hc. by injection Hc as <- <-. }
  destruct (Hk Hb) as (evs & s1 & _ & _ & Hs1 & Has & Hall). rewrite Hw in Hall.
  destruct polls_reported as (H1 & H2 & H3 & H4 & H5 & H6).
  assert (agree polls_example s1) as Hag.
  { split; [congruence|]. destruct Has, H6. split; congruence. }
  destruct (run_agree _ _ _ _ Hag H1) as (s2 & Hr1 & Hag1).
  destruct (run_agree _ _ _ _ Hag1 H3) as (s3 & Hr2 & [Hw3 [Hp3 _ _ _ He3]]).
  rewrite <- Hw3. destruct Hag1 as [Hw2 [Hp2 _ _ _ _]].
  refine (Hall _ _ (mkEvent 0 true false) _ _ _ Hr1 _ _ Hr2 (eq_trans Hp3 H4) (eq_trans He3 H5) _).
  - rewrite Hp2, H2. by left.
  - pose proof polls_announces as Ha. unfold announces in Ha |- *. by rewrite Hw2.
  - unfold reported, ended. repeat constructor; exact id.
Defined.

(** A timer is set, and a round starts after its time. *)
Definition timer_example : RefSys :=
  state_of (adapter_steps ++ timer_steps (Timer.at_instant 5000) 5000 waker3 (inl 1%N)).
Definition due_in (s : RefSys) : RefSys := default boot (run [ECall (inl 9000%N)] s).
Definition round_in (s : RefSys) : RefSys := default boot (exec (EReact None) (due_in s)).
Definition fired_in (s : RefSys) : RefSys := default boot (run (replicate 7 ERound) (round_in s)).

Lemma timer_fires :
  run (timer_steps (Timer.at_instant 5000) 5000 waker3 (inl (ref_drift (w_env (s_w (state_of adapter_steps))))))
    (state_of adapter_steps) = Some timer_example ∧
  run [ECall (inl 9000%N)] timer_example = Some (due_in timer_example) ∧
  5000 ≤ env_time (w_env (s_w (due_in timer_example))) ∧
  exec (EReact None) (due_in timer_example) = Some (round_in timer_example) ∧
  run (replicate 7 ERound) (round_in timer_example) = Some (fired_in timer_example) ∧
  s_ph (fired_in timer_example) = Idle (Ok tt) ∧ s_errs (fired_in timer_example) = false.
Proof. vm_compute. split_and!; try exact eq_refl. discriminate. Qed.

Lemma timer_poll_woken_witness : waker3 ∈ w_woken (s_w (fired_in timer_example)).
Proof.
  assert (Timer.timer_ok (s_w (state_of adapter_steps)) (Timer.at_instant 5000)) as Ht
    by (intros key k Hk; discriminate Hk).
  destruct (timer_poll_woken (Timer.at_instant 5000) 5000 waker3 (state_of adapter_steps) _
              adapter_reachable adapter_ids Ht eq_refl (now_is_call _)) as (b & w' & Hrun & Hk).
  assert (b.1 = Pending ∧ w_woken w' = []) as [Hb Hw].
  { pose proof Hrun as Hc. vm_compute in Hc. by injection Hc as <- <-. }
  destruct (Hk Hb) as (s1 & id & Hs1 & _ & _ & Hall). rewrite Hw in Hall.
  destruct timer_fires as (H0 & H1 & H2 & H3 & H4 & H5 & H6).
  assert (s1 = timer_example) as -> by congruence.
  refine (Hall _ _ _ _ _ _ _ H1 _ H2 H3 H4 H5 H6).
  by intros [Hc|Hc%elem_of_nil]%elem_of_cons.
Defined.
