(* ===== verification/Adapters.v ===== *)
(** The life of an adapter in the interleaved system (src/src/lib.rs: [Async::new],
    [new_nonblocking], [into_inner], [drop]): creating one and taking it apart are
    sequences of steps, as are the polls in between ([Tasks]). *)
From S2P Require Import Prelude Std Deps Registration RefDeps World RefWorld Timers.
From S2P Require Import Source Reactor Ready Async System Steps Interleaving Progress Tasks.
Import System Async.

Section adapters.
Context {Slab Queue : Type → Type} {Reg Env T : Type}.
Context `{SlabOps Slab, QueueOps Queue, EnvOps Env, RegOps Reg Env, RegNew Reg}.
Context `{!SlabLaws Slab, !QueueLaws Queue, !ClockLaws Env, !NotifyLaws Env, !RegLaws Reg Env}.
Context `{EqDecision Reg, CallOps Reg Env, !CallLaws Reg Env, HandleOps T Env}.
Local Abbreviation World := (World Slab Queue Reg Env).
Local Abbreviation Sys := (Sys (Slab := Slab) (Queue := Queue) (Reg := Reg) (Env := Env)).
Local Abbreviation Ev := (Ev (Reg := Reg) (Env := Env)).
Implicit Types (w : World) (s : Sys) (a : Async T) (reg : Reg).

(** Dropping the handle is a call that makes the poller forget no registration but the
    handle's own. *)
Definition closes_own (i : T) reg : Prop :=
  ∀ e, ∃ c, (∀ r, call_closes c = Some r → r = reg) ∧ call_effect c e = close i e.

(** ** Steps *)

(** A step of the task, which leaves the other adapters alone. *)
Record adapter_step (ev : Ev) s s' (handles adding : gset loc) : Prop := {
  as_exec : exec ev s = Some s';
  as_phase : s_ph s' = s_ph s;
  as_futs : s_futs s' = s_futs s;
  as_handles : s_handles s' = handles;
  as_adding : s_adding s' = adding;
  as_heap : ∀ l src, l ∈ s_handles s ∪ s_adding s → w_heap (s_w s) !! l = Some src →
    w_heap (s_w s') !! l = Some src;
}.

Lemma unused_kept s s' reg :
  sys_ok s → (∀ l src, l ∈ s_handles s ∪ s_adding s → w_heap (s_w s) !! l = Some src →
    w_heap (s_w s') !! l = Some src) →
  s_handles s' ∪ s_adding s' ⊆ s_handles s ∪ s_adding s → unused reg s → unused reg s'.
Proof.
  intros Hok Hheap Hsub Hun l Hl. apply Hsub in Hl as Hl'.
  destruct (ok_registered _ Hok _ Hl') as (src & Hsrc & _). specialize (Hun _ Hl').
  cbn beta in Hun |- *. rewrite Hsrc in Hun. by rewrite (Hheap _ _ Hl' Hsrc).
Qed.

Lemma exec_insert reg s :
  sys_ok s → sources_free (s_ph s) →
  wp (insert_io_entry reg) (λ l w', l ∉ s_handles s ∪ s_adding s ∧
    ∃ s', adapter_step (EInsert reg) s s' (s_handles s) ({[ l ]} ∪ s_adding s) ∧ s_w s' = w')
    (s_w s).
Proof.
  intros Hok Hfree.
  assert (wp (insert_io_entry reg) (λ l w', w_heap (s_w s) !! l = None ∧
    ∀ l', l' ≠ l → w_heap w' !! l' = w_heap (s_w s) !! l') (s_w s))
    as (l & w' & Hrun & Hnone & Hheap).
  { apply insert_io_entry_wp. intros l Hl. split; [done|]. intros l' Hne. cbn.
    by rewrite lookup_insert_ne. }
  assert (l ∉ s_handles s ∪ s_adding s) as Hl.
  { intros Hin. destruct (ok_registered _ Hok _ Hin) as (src & Hsrc & _). congruence. }
  exists l, w'. split; [done|]. split; [done|]. eexists. split; [split|].
  - unfold exec. rewrite decide_True by done. unfold effect. by rewrite Hrun.
  - done.
  - done.
  - done.
  - done.
  - cbn. intros l' src Hin Hsrc. rewrite Hheap; [done|]. intros ->. done.
  - done.
Qed.

Lemma exec_add l s :
  sys_ok s → l ∈ s_adding s →
  wp (insert_io_register l) (λ r w', ∃ s',
    adapter_step (EAdd l) s s'
      (match r with Ok _ => {[ l ]} ∪ s_handles s | Err _ => s_handles s end)
      (s_adding s ∖ {[ l ]}) ∧ s_w s' = w' ∧ match r with Ok l' => l' = l | Err _ => True end)
    (s_w s).
Proof.
  intros Hok Hl. destruct (ok_registered _ Hok l) as (src & Hsrc & Hk); [set_solver|].
  assert (wp (insert_io_register l) (λ r w', w_heap w' = w_heap (s_w s) ∧
    match r with Ok l' => l' = l | Err _ => True end) (s_w s)) as (r & w' & Hrun & Hh & Hr).
  { eapply insert_io_register_wp; [done..|]. intros [[]|x] e _; [by split|intros sl _; by split]. }
  exists r, w'. split; [done|]. eexists. split; [split|].
  - unfold exec. rewrite decide_True by done. unfold effect. by rewrite Hrun.
  - done.
  - done.
  - done.
  - done.
  - cbn. by rewrite Hh.
  - by split.
Qed.

Lemma exec_remove l s :
  sys_ok s → guard (ERemove l) s →
  wp (remove_io l) (λ _ w', ∃ s',
    adapter_step (ERemove l) s s' (s_handles s ∖ {[ l ]}) (s_adding s) ∧ s_w s' = w') (s_w s).
Proof.
  intros Hok Hg. pose proof Hg as (Hl & _ & _).
  destruct (ok_registered _ Hok l) as (src & Hsrc & Hk); [set_solver|].
  assert (wp (remove_io l) (λ _ w', w_heap w' = w_heap (s_w s)) (s_w s)) as (r & w' & Hrun & Hh)
    by by eapply remove_io_wp.
  exists r, w'. split; [done|]. eexists. split; [split|].
  - unfold exec. rewrite decide_True by done. unfold effect. by rewrite Hrun.
  - done.
  - done.
  - done.
  - done.
  - cbn. by rewrite Hh.
  - done.
Qed.

Lemma exec_close i reg s :
  closes_own i reg → unused reg s →
  wp (drop_io i) (λ _ w', ∃ c s',
    adapter_step (ECall c) s s' (s_handles s) (s_adding s) ∧ s_w s' = w' ∧
    w_env w' = close i (w_env (s_w s))) (s_w s).
Proof.
  intros Hclose Hun. destruct (Hclose (w_env (s_w s))) as (c & Hc & He).
  apply wp_env_call. exists c. eexists. split; [split|split; [|done]].
  - unfold exec. rewrite decide_True; [reflexivity|]. cbn.
    destruct (call_closes c) as [r|] eqn:Hr; [|done]. by rewrite (Hc _ eq_refl).
  - done.
  - done.
  - done.
  - done.
  - done.
  - cbn. by rewrite He.
Qed.

(** ** Sequences *)

(** What a task has done to its adapters. *)
Definition adapter_run s (evs : list Ev) s' (handles : gset loc) : Prop :=
  run evs s = Some s' ∧ s_handles s' = handles ∧ s_adding s' = s_adding s ∧
  s_ph s' = s_ph s ∧ s_futs s' = s_futs s.

Lemma adapter_run_nil s : adapter_run s [] s (s_handles s).
Proof. by split_and!. Qed.

(** A call that closes nothing. *)
Definition plain (ev : Ev) : Prop := ∃ c, ev = ECall c ∧ call_closes c = None.

(** What [adopt] has tried before it fails: to add the source. *)
Definition tried reg (evs : list Ev) : Prop := evs = [] ∨ ∃ l, evs = [EInsert reg; EAdd l].

Lemma adopt_steps reg i s :
  sys_ok s → sources_free (s_ph s) → unused reg s → closes_own i reg →
  wp (adopt reg i) (λ r w',
    match r with
    | Ok a => io a = Some i ∧ source a ∉ s_handles s ∧
              ∃ s', s_w s' = w' ∧
                adapter_run s [EInsert reg; EAdd (source a)] s' ({[ source a ]} ∪ s_handles s)
    | Err _ => ∃ l c s0 s', s_w s' = w' ∧ run [EInsert reg; EAdd l] s = Some s0 ∧
              adapter_run s ([EInsert reg; EAdd l] ++ [ECall c]) s' (s_handles s) ∧
              w_env w' = close i (w_env (s_w s0))
    end) (s_w s).
Proof.
  intros Hok Hfree Hun Hclose. unfold adopt, insert_io. apply wp_bind, wp_bind.
  eapply wp_mono; [by apply exec_insert|]. cbn beta.
  intros l w1 (Hl & s1 & [He1 Hp1 Hf1 Hh1 Ha1 Hheap1] & <-).
  pose proof (sys_ok_exec _ _ _ Hok He1) as Hok1.
  eapply wp_mono; [apply exec_add; [done|rewrite Ha1; set_solver]|]. cbn beta.
  intros r w2 (s2 & [He2 Hp2 Hf2 Hh2 Ha2 Hheap2] & <- & Hr).
  pose proof (sys_ok_exec _ _ _ Hok1 He2) as Hok2.
  assert (s_adding s2 = s_adding s) as Hadd by (rewrite Ha2, Ha1; set_solver).
  assert (run [EInsert reg; EAdd l] s = Some s2) as Hrun2 by (cbn; rewrite He1; cbn; by rewrite He2).
  destruct r as [l'|err].
  - subst l'. apply wp_ret. cbn [io source]. split_and!; [done|set_solver|]. exists s2. split; [done|].
    split_and!; try done; [by rewrite Hh2, Hh1|congruence..].
  - apply wp_bind. eapply wp_mono; [apply (exec_close i reg); [done|]|].
    + apply (unused_kept s); [done| |rewrite Hh2, Hh1, Hadd; set_solver|done].
      intros l' src Hin Hsrc. apply Hheap2; [rewrite Hh1, Ha1; set_solver|by apply Hheap1].
    + intros [] w3 (c & s3 & [He3 Hp3 Hf3 Hh3 Ha3 _] & <- & Henv). apply wp_ret.
      exists l, c, s2, s3. split_and!; [done|done| |done].
      split_and!; [|congruence..]. eapply run_app; [done|]. cbn. by rewrite He3.
Qed.

(** Setting a descriptor non-blocking makes one or two calls, which close nothing. *)
Definition plain_call (f : Env → Env) : Prop :=
  ∀ e, ∃ c : Call Reg Env, call_closes c = None ∧ call_effect c e = f e.

Lemma adapter_run_trans s evs s1 hs evs' s2 hs' :
  adapter_run s evs s1 hs → adapter_run s1 evs' s2 hs' → adapter_run s (evs ++ evs') s2 hs'.
Proof.
  intros (Hr1 & _ & Ha1 & Hp1 & Hf1) (Hr2 & Hh2 & Ha2 & Hp2 & Hf2).
  split_and!; [by eapply run_app|done|congruence..].
Qed.

Lemma plain_run f s :
  plain_call f → ∃ c s', adapter_run s [ECall c] s' (s_handles s) ∧ Forall plain [ECall c] ∧
    s_w s' = set_env (f (w_env (s_w s))) (s_w s).
Proof.
  intros Hf. destruct (Hf (w_env (s_w s))) as (c & Hc & He). exists c.
  assert (guard (ECall c) s) as Hg by (cbn; by rewrite Hc).
  eexists. split; [split|split].
  - cbn [run]. unfold exec. rewrite decide_True by done. reflexivity.
  - by split_and!.
  - apply Forall_singleton. by exists c.
  - cbn. by rewrite He.
Qed.

Record plain_fd `{FdOps Env} : Prop := {
  plain_fionbio : ∀ fd b, plain_call (λ e, (ioctl_fionbio fd b e).2);
  plain_getfl : ∀ fd, plain_call (λ e, (fcntl_getfl fd e).2);
  plain_setfl : ∀ fd f, plain_call (λ e, (fcntl_setfl fd f e).2);
}.

Lemma set_nonblocking_steps `{FdOps Env} use_ioctl fd s :
  plain_fd →
  wp (env_call (set_nonblocking use_ioctl fd)) (λ _ w', ∃ evs s',
    adapter_run s evs s' (s_handles s) ∧ Forall plain evs ∧ s_w s' = w' ∧
    w_heap w' = w_heap (s_w s)) (s_w s).
Proof.
  intros [Hio Hget Hset]. apply wp_env_call. unfold set_nonblocking. destruct use_ioctl.
  { destruct (plain_run _ s (Hio fd true)) as (c & s1 & Hr1 & Hc1 & Hw1). exists [ECall c], s1.
    by rewrite Hw1. }
  destruct (plain_run _ s (Hget fd)) as (c1 & s1 & Hr1 & Hc1 & Hw1).
  destruct (fcntl_getfl fd (w_env (s_w s))) as [[prev|err] e1] eqn:Hg; cbn in Hw1.
  2:{ exists [ECall c1], s1. by rewrite Hw1. }
  case_decide; [|exists [ECall c1], s1; by rewrite Hw1].
  destruct (plain_run _ s1 (Hset fd (Z.lor prev OFlags_NONBLOCK))) as (c2 & s2 & Hr2 & Hc2 & Hw2).
  exists ([ECall c1] ++ [ECall c2]), s2. pose proof Hr1 as (_ & Hh1 & _).
  split; [rewrite <- Hh1; by eapply adapter_run_trans|].
  split; [by apply Forall_app_2|]. by rewrite Hw2, Hw1.
Qed.

(** The adapter is registered under the descriptor of its handle. *)
Lemma new_registers `{FdOps Env} (use_ioctl : bool) (i : T) w :
  wp (new use_ioctl i) (λ r w', ∀ a, r = Ok a →
    src_registration <$> w_heap w' !! source a = Some (registration_new (as_raw i))) w.
Proof.
  unfold new. apply wp_bind, wp_env_call. destruct (set_nonblocking _ _ _) as [[[]|err] e].
  - cbn [fst snd]. apply adopt_wp.
    + intros l sl e' w' _ _ _ -> a [= <-]. cbn. by rewrite lookup_insert_eq.
    + intros err e' w' _ _ _ _ a [=].
  - apply wp_bind, drop_io_wp, wp_ret. intros a [=].
Qed.

(** What [Async::new] has done: [calls], and then [evs]. *)
Definition new_result reg i s (r : io_result (Async T)) (calls evs : list Ev) s' w' : Prop :=
  Forall plain calls ∧
  adapter_run s (calls ++ evs) s'
    (match r with Ok a => {[ source a ]} ∪ s_handles s | Err _ => s_handles s end) ∧
  s_w s' = w' ∧
  match r with
  | Ok a => evs = [EInsert reg; EAdd (source a)] ∧ io a = Some i ∧ source a ∉ s_handles s
  | Err _ => ∃ tries c s0, evs = tries ++ [ECall c] ∧ tried reg tries ∧
               run (calls ++ tries) s = Some s0 ∧ w_env w' = close i (w_env (s_w s0))
  end.

Lemma new_steps `{FdOps Env} (use_ioctl : bool) (i : T) s :
  sys_ok s → sources_free (s_ph s) → plain_fd → unused (registration_new (as_raw i)) s →
  closes_own i (registration_new (as_raw i)) →
  wp (new use_ioctl i) (λ r w', ∃ calls evs s',
    new_result (registration_new (as_raw i)) i s r calls evs s' w') (s_w s).
Proof.
  intros Hok Hfree Hfd Hun Hclose. set (reg := registration_new (as_raw i)) in *.
  unfold new. apply wp_bind. eapply wp_mono; [by apply set_nonblocking_steps|]. cbn beta.
  intros res w1 (calls & s1 & Hr1 & Hplain & <- & Hheap).
  pose proof Hr1 as (Hrun1 & Hh1 & Ha1 & Hp1 & Hf1). pose proof (run_ok _ _ _ Hok Hrun1) as Hok1.
  assert (unused reg s1) as Hun1.
  { apply (unused_kept s); [done|by rewrite Hheap|by rewrite Hh1, Ha1|done]. }
  destruct res as [[]|err].
  - unfold new_nonblocking. eapply wp_mono; [apply (adopt_steps reg); [done|by rewrite Hp1|done|done]|].
    intros [a|err] w' Hr.
    + destruct Hr as (Hi & Hnew & s' & Hw & Hr). rewrite Hh1 in Hnew, Hr.
      exists calls, [EInsert reg; EAdd (source a)], s'.
      split_and!; [done|by eapply adapter_run_trans|done..].
    + destruct Hr as (l & c & s0 & s' & Hw & Hrun0 & Hr & Henv). rewrite Hh1 in Hr.
      exists calls, ([EInsert reg; EAdd l] ++ [ECall c]), s'.
      split_and!; [done|by eapply adapter_run_trans|done|].
      exists [EInsert reg; EAdd l], c, s0. split_and!; [done|right; by exists l| |done].
      by eapply run_app.
  - apply wp_bind. eapply wp_mono; [by apply (exec_close i reg)|]. cbn beta.
    intros [] w2 (c & s2 & [He Hp2 Hf2 Hh Ha _] & <- & Henv). apply wp_ret.
    exists calls, [ECall c], s2. split_and!; [done| |done|].
    + eapply adapter_run_trans; [done|]. split_and!; [cbn; by rewrite He|congruence..].
    + exists [], c, s1. split_and!; [done|by left|by rewrite app_nil_r|done].
Qed.

(** Removing a source: its registration is no one's any more. *)
Lemma remove_unused l src s s1 :
  sys_ok s → guard (ERemove l) s → w_heap (s_w s) !! l = Some src →
  set_Forall (λ l, src_registration <$> w_heap (s_w s) !! l ≠ Some (src_registration src))
    (s_adding s) →
  adapter_step (ERemove l) s s1 (s_handles s ∖ {[ l ]}) (s_adding s) →
  unused (src_registration src) s1.
Proof.
  intros Hok Hg Hsrc Hown [_ _ _ Hh1 Ha1 Hheap] l' Hl. rewrite Hh1, Ha1 in Hl.
  assert (l' ∈ s_handles s ∪ s_adding s) as Hin by set_solver.
  destruct (ok_registered _ Hok _ Hin) as (src' & Hl' & _). rewrite (Hheap _ _ Hin Hl').
  intros [= Heq]. apply elem_of_union in Hl as [[Hlh Hne]%elem_of_difference|Hla].
  - apply Hne. apply elem_of_singleton.
    by eapply (handles_distinct s l' l); [done|done|apply Hg|..].
  - specialize (Hown _ Hla). cbn beta in Hown. rewrite Hl' in Hown. cbn in Hown. congruence.
Qed.

Lemma remove_steps l src s :
  sys_ok s → guard (ERemove l) s → w_heap (s_w s) !! l = Some src →
  let '(res, e) := reg_delete (src_registration src) (w_env (s_w s)) in
  wp (remove_io l) (λ r w1, r = res ∧ w_env w1 = e ∧ ∃ s1,
    adapter_step (ERemove l) s s1 (s_handles s ∖ {[ l ]}) (s_adding s) ∧ s_w s1 = w1) (s_w s).
Proof.
  intros Hok Hg Hsrc. destruct (reg_delete (src_registration src) (w_env (s_w s))) as [res e] eqn:Hdel.
  assert (slab_map (w_sources (s_w s)) !! src_key src = Some l) as Hkey.
  { destruct (ok_registered _ Hok l) as (src' & Hl & Hk); [pose proof Hg as [? _]; set_solver|]. congruence. }
  eapply wp_mono; [apply wp_and; [by apply exec_remove|]|].
  - eapply (remove_io_wp _ _ _ (λ r w1, r = res ∧ w_env w1 = e)); [done|done|].
    intros sl _. by rewrite Hdel.
  - intros r w1 [(s1 & Hs1 & Hw1) [-> He]]. split_and!; [done|done|by exists s1].
Qed.

(** Then the handle is closed. *)
Lemma remove_close_steps l i src s :
  sys_ok s → guard (ERemove l) s → w_heap (s_w s) !! l = Some src →
  set_Forall (λ l, src_registration <$> w_heap (s_w s) !! l ≠ Some (src_registration src))
    (s_adding s) → closes_own i (src_registration src) →
  let e := (reg_delete (src_registration src) (w_env (s_w s))).2 in
  ∀ s1, adapter_step (ERemove l) s s1 (s_handles s ∖ {[ l ]}) (s_adding s) → w_env (s_w s1) = e →
  wp (drop_io i) (λ _ w', ∃ c s', run [ERemove l; ECall c] s = Some s' ∧ s_w s' = w' ∧
    s_handles s' = s_handles s ∖ {[ l ]} ∧ call_effect c e = close i e ∧ w_env w' = close i e) (s_w s1).
Proof.
  intros Hok Hg Hsrc Hown Hclose e s1 Hs1 Henv. pose proof Hs1 as [He1 _ _ Hh1 _ _].
  eapply wp_mono; [by apply (exec_close i (src_registration src)); [|eapply remove_unused]|]. cbn beta.
  intros [] w2 (c & s2 & [He2 _ _ Hh2 _ _] & <- & Hc). rewrite Henv in Hc. exists c, s2.
  cbn [run]. rewrite He1. cbn [mbind option_bind]. rewrite He2.
  split_and!; [done|done|congruence| |done].
  rewrite <- Hc, <- Henv. unfold exec in He2. case_decide; [|done]. by injection He2 as <-.
Qed.

(** * Properties *)

(** C23 Creating an adapter is a run of the system, on every path: [Async::new] returns and has
    made some calls, which close nothing, and added a source; an adapter it returns is a new
    one, alive, registered under the descriptor of its handle; and if it fails, which is when
    it makes the descriptor non-blocking or when the poller refuses the source, no adapter
    is left, and the last thing it has done is to close the handle. *)
Theorem new_refines `{FdOps Env} (use_ioctl : bool) (i : T) (s : Sys) (Hs : reachable s)
    (Hfree : sources_free (s_ph s)) (Hfd : plain_fd)
    (Hun : unused (registration_new (as_raw i)) s)
    (Hclose : closes_own i (registration_new (as_raw i))) :
  wp (new use_ioctl i)
    (λ r w', ∃ calls evs s', Forall plain calls ∧ run (calls ++ evs) s = Some s' ∧ s_w s' = w' ∧
       s_adding s' = s_adding s ∧
       match r with
       | Ok a => evs = [EInsert (registration_new (as_raw i)); EAdd (source a)] ∧
                 io a = Some i ∧ source a ∉ s_handles s ∧
                 s_handles s' = {[ source a ]} ∪ s_handles s ∧
                 src_registration <$> w_heap w' !! source a = Some (registration_new (as_raw i))
       | Err _ => s_handles s' = s_handles s ∧
                  ∃ tries c s0, evs = tries ++ [ECall c] ∧
                    tried (registration_new (as_raw i)) tries ∧
                    run (calls ++ tries) s = Some s0 ∧
                    w_env w' = close i (w_env (s_w s0))
       end) (s_w s).
Proof.
  pose proof (sys_ok_reachable _ Hs) as Hok.
  eapply wp_mono; [apply wp_and; [by apply (new_steps use_ioctl i s)|apply (new_registers use_ioctl i)]|].
  intros r w' [(calls & evs & s' & Hplain & (Hrun & Hh & Ha & _) & Hw & Hr) Hreg].
  exists calls, evs, s'. split_and!; [done..|].
  destruct r as [a|]; [|by split]. destruct Hr as (? & ? & ?). split_and!; [done..|by apply Hreg].
Qed.

(** C24 So is its end: dropping an adapter, when no future borrows it, returns, and has removed
    the source, deregistered its descriptor, and then closed the handle; and [into_inner]
    gives the handle back, open, or, if the poller refuses, closes it and returns the error
    of the poller. *)
Theorem drop_refines (a : Async T) (i : T) (src : Source Slab Reg) (s : Sys) (Hs : reachable s)
    (Hi : io a = Some i) (Hg : guard (ERemove (source a)) s)
    (Hsrc : w_heap (s_w s) !! source a = Some src)
    (Hown : set_Forall (λ l, src_registration <$> w_heap (s_w s) !! l ≠ Some (src_registration src))
              (s_adding s))
    (Hclose : closes_own i (src_registration src)) :
  let '(res, e) := reg_delete (src_registration src) (w_env (s_w s)) in
  wp (drop a)
    (λ _ w', ∃ c s', run [ERemove (source a); ECall c] s = Some s' ∧ s_w s' = w' ∧
       s_handles s' = s_handles s ∖ {[ source a ]} ∧
       call_effect c e = close i e ∧ w_env w' = close i e) (s_w s) ∧
  wp (into_inner a)
    (λ r w', ∃ evs s', run (ERemove (source a) :: evs) s = Some s' ∧ s_w s' = w' ∧
       s_handles s' = s_handles s ∖ {[ source a ]} ∧
       match r with
       | Ok i' => res = Ok tt ∧ i' = i ∧ evs = [] ∧ w_env w' = e
       | Err err => res = Err err ∧ ∃ c, evs = [ECall c] ∧
                      call_effect c e = close i e ∧ w_env w' = close i e
       end) (s_w s).
Proof.
  pose proof (sys_ok_reachable _ Hs) as Hok.
  pose proof (remove_steps (source a) src s Hok Hg Hsrc) as Hremove.
  pose proof (remove_close_steps (source a) i src s Hok Hg Hsrc Hown Hclose) as Hcloses.
  destruct (reg_delete (src_registration src) (w_env (s_w s))) as [res e].
  split.
  - unfold drop. rewrite Hi. apply wp_bind. eapply wp_mono; [exact Hremove|]. cbn beta.
    intros r w1 (_ & Henv & s1 & Hs1 & <-). by apply Hcloses.
  - unfold into_inner. rewrite Hi. apply wp_bind, wp_ret, wp_bind. cbn [source].
    eapply wp_mono; [exact Hremove|]. cbn beta.
    intros r w1 (-> & Henv & s1 & Hs1 & <-). destruct res as [[]|err].
    + destruct Hs1 as [He1 _ _ Hh1 _ _]. apply wp_bind, wp_ret, wp_ret. exists [], s1. cbn. by rewrite He1.
    + apply wp_bind. eapply wp_mono; [by apply Hcloses|].
      intros [] w2 (c & s2 & Hrun & Hw & Hh & Hc & Hc'). apply wp_bind, wp_ret, wp_ret.
      exists [ECall c], s2. split_and!; [done..|]. by exists c.
Qed.
End adapters.

(** * Witnesses *)

Lemma ref_advance_0 (e : RefEnv) : ref_advance 0 e = e.
Proof. destruct e. unfold ref_advance. cbn. by rewrite N.add_0_r. Qed.

Lemma ref_closes_own (h : RefHandle) : closes_own h (Unix.mkRegistration (rh_fd h)).
Proof. intros e. exists (inr h). split; [by intros r [= <-]|done]. Qed.

Lemma ref_plain_fd : plain_fd (Reg := Unix.Registration) (Env := RefEnv).
Proof.
  split; intros; intros e; exists (inl 0%N); (split; [done|]); cbn; by rewrite ref_advance_0.
Qed.

Lemma boot_free : sources_free (s_ph boot).
Proof. exact I. Qed.
Lemma boot_unused : unused (Unix.mkRegistration 7) boot.
Proof. intros l Hl. set_solver. Qed.

(** A handle is adopted. *)
Lemma new_refines_witness :
  ∃ a w' calls s', new true (mkRefHandle 7 []) (s_w boot) = Ret (Ok a, w') ∧
    run (calls ++ [EInsert (Unix.mkRegistration 7); EAdd (source a)]) boot = Some s' ∧
    s_w s' = w' ∧ s_handles s' = {[ source a ]} ∪ s_handles boot.
Proof.
  destruct (new_refines true (mkRefHandle 7 []) boot (reach_initial _) boot_free ref_plain_fd
              boot_unused (ref_closes_own (mkRefHandle 7 [])))
    as (r & w' & Hrun & calls & evs & s' & _ & Hevs & Hw & _ & Hr).
  destruct r as [a|err]; [|exfalso; vm_compute in Hrun; discriminate Hrun].
  destruct Hr as (-> & _ & _ & Hh & _).
  exists a, w', calls, s'. split_and!; [exact Hrun|exact Hevs|exact Hw|exact Hh].
Defined.

Lemma adapter_guard : guard (ERemove 1%positive) (state_of adapter_steps).
Proof.
  split_and!; [apply adapter_handle|vm_compute; exact I|]. vm_compute. intros ? ? [=].
Qed.
Lemma adapter_adding : s_adding (state_of adapter_steps) = ∅.
Proof. vm_compute. exact eq_refl. Qed.
Lemma adapter_registered :
  ∃ src, w_heap (s_w (state_of adapter_steps)) !! 1%positive = Some src ∧
    src_registration src = Unix.mkRegistration 7.
Proof. eexists. split; vm_compute; exact eq_refl. Qed.

(** The adapter of the descriptor 7 is dropped: the poller forgets it, and it is closed. *)
Lemma drop_refines_witness :
  ∃ w' c s', drop (adapter []) (s_w (state_of adapter_steps)) = Ret (tt, w') ∧
    run [ERemove 1%positive; ECall c] (state_of adapter_steps) = Some s' ∧ s_w s' = w' ∧
    w_env w' = close (mkRefHandle 7 [])
      (reg_delete (Unix.mkRegistration 7) (w_env (s_w (state_of adapter_steps)))).2.
Proof.
  destruct adapter_registered as (src & Hsrc & Hreg).
  assert (closes_own (mkRefHandle 7 []) (src_registration src)) as Hclose
    by (rewrite Hreg; exact (ref_closes_own (mkRefHandle 7 []))).
  assert (set_Forall (λ l, src_registration <$> w_heap (s_w (state_of adapter_steps)) !! l ≠
                           Some (src_registration src)) (s_adding (state_of adapter_steps))) as Hown
    by (rewrite adapter_adding; intros l Hl; set_solver).
  pose proof (drop_refines (adapter []) (mkRefHandle 7 []) src (state_of adapter_steps)
              adapter_reachable eq_refl adapter_guard Hsrc Hown Hclose) as Hdrop.
  rewrite Hreg in Hdrop. destruct (reg_delete _ _) as [res e].
  destruct Hdrop as [([] & w' & Hrun & c & s' & Hevs & Hw & _ & _ & Henv) _].
  exists w', c, s'. split_and!; [exact Hrun|exact Hevs|exact Hw|exact Henv].
Defined.
