(* ===== verification/Runtime.v ===== *)
(** A thread in [block_on] and the reactor it drives (src/src/driver.rs, with
    src/src/reactor.rs): the transition systems of [Driver] and [System], composed. The
    rounds the thread waits for are rounds of the reactor, they run while the lock is held,
    and the wakers they wake unpark the thread. *)
From S2P Require Import Prelude Std Deps Registration RefDeps World RefWorld Timers.
From S2P Require Import Source Reactor Ready Timer Async System Steps Interleaving.
From S2P Require Import Progress Wakes Sleep Tasks Driver.
Import System.

Module Runtime.

(** * Definitions *)

(** Who takes a step: the thread in [block_on], or another one, which may have set its
    own [IO_POLLING]. *)
Inductive Who : Type := Here | There (io_polling : bool).

(** How the waker of [block_on] is called. *)
Definition wake_event (who : Who) : BlockOn.Ev :=
  match who with
  | Here => BlockOn.SelfWake
  | There true => BlockOn.ReactorWake
  | There false => BlockOn.Wake
  end.

Definition idle (ph : Phase) : Prop := match ph with Idle _ => True | _ => False end.
#[export] Instance idle_dec ph : Decision (idle ph).
Proof. destruct ph; apply _. Defined.

(** The thread is in the poller. *)
Definition in_wait (c : BlockOn.Pc) : Prop := c = BlockOn.Reacting ∨ c = BlockOn.Waiting.
(** It is back from the poller, in [react]. *)
Definition after_wait (c : BlockOn.Pc) : Prop :=
  c = BlockOn.ReactWaking ∨ c = BlockOn.Waking.

Section runtime.
  Context {Slab Queue : Type → Type} {Reg Env P : Type}.
  Context `{SlabOps Slab, QueueOps Queue, EnvOps Env, RegOps Reg Env, EqDecision Reg}.
  Context `{CallOps Reg Env, ParkerOps P}.
  Local Abbreviation World := (World Slab Queue Reg Env).
  Local Abbreviation Sys := (Sys (Slab := Slab) (Queue := Queue) (Reg := Reg) (Env := Env)).
  Local Abbreviation SysEv := (System.Ev (Reg := Reg) (Env := Env)).
  (** The waker [parker_and_waker] has made. *)
  Context (waker : Waker).

(** The reactor, the thread, and how many wakes had been made when the thread last began
    to poll its future. *)
Record Rt : Type := mkRt {
  rt_sys : Sys;
  rt_thread : BlockOn.State P;
  rt_polled : nat;
}.

Inductive Ev : Type :=
  | Step (choice : bool)                       (* the thread, outside of [react] *)
  | Task (who : Who) (e : SysEv)               (* a step of a task *)
  | React (who : Who) (timeout : option Duration)   (* a round starts *)
  | Round (who : Who)                          (* its next step *)
  | SelfWake                                   (* the future wakes its own task *)
  | Wake                                       (* another thread does: [unpark], *)
  | WakeCheck                                  (* it loads [io_blocked], *)
  | WakeNotify                                 (* and notifies the reactor *)
  | OtherLock
  | OtherUnlock.

(** The thread goes on by itself, unless it is in [react]. *)
Definition may_step (r : Rt) : Prop :=
  ¬ in_wait (BlockOn.pc (rt_thread r)) ∧
  (after_wait (BlockOn.pc (rt_thread r)) → idle (s_ph (rt_sys r))).

(** A task runs in the thread while it polls its future. *)
Definition may_task (who : Who) (e : SysEv) (r : Rt) : Prop :=
  match e with EReact _ | ERound => False | _ => True end ∧
  match who with Here => BlockOn.pc (rt_thread r) = BlockOn.Polling | There _ => True end.

(** [react] takes a [ReactorLock]; [block_on] calls it in two places. *)
Definition may_react (who : Who) (timeout : option Duration) (r : Rt) : Prop :=
  match who with
  | Here => (BlockOn.pc (rt_thread r) = BlockOn.Reacting ∧ timeout = Some (from_secs 0)) ∨
            (BlockOn.pc (rt_thread r) = BlockOn.Waiting ∧ timeout = None)
  | There _ => BlockOn.lock (rt_thread r) = BlockOn.Theirs
  end.

Definition may_round (who : Who) (r : Rt) : Prop :=
  BlockOn.lock (rt_thread r) =
    match who with Here => BlockOn.Mine | There _ => BlockOn.Theirs end.

#[global] Instance may_step_dec r : Decision (may_step r).
Proof. unfold may_step, in_wait, after_wait. apply _. Defined.
#[global] Instance may_task_dec who e r : Decision (may_task who e r).
Proof. unfold may_task. destruct who, e; apply _. Defined.
#[global] Instance may_react_dec who d r : Decision (may_react who d r).
Proof. unfold may_react. destruct who; apply _. Defined.
#[global] Instance may_round_dec who r : Decision (may_round who r).
Proof. unfold may_round. apply _. Defined.

(** A step that calls [Reactor::notify]. *)
Definition notifies (e : SysEv) : bool :=
  match e with ENotify => true | _ => false end.

(** How often a step calls the waker. *)
Definition times (w w' : World) : nat :=
  length (filter (eq waker) (drop (length (w_woken w)) (w_woken w'))).

Fixpoint repeated (e : BlockOn.Ev) (n : nat) (th : BlockOn.State P)
    : option (BlockOn.State P) :=
  match n with
  | O => Some th
  | S n => th ← BlockOn.exec e th; repeated e n th
  end.

(** What a step of the reactor does to the thread. *)
Definition woken_by (who : Who) (s s' : Sys) (th : BlockOn.State P)
    : option (BlockOn.State P) :=
  repeated (wake_event who) (times (s_w s) (s_w s')) th.

(** A round comes back from the poller, which forgets that it was notified. *)
Definition waited (who : Who) (ph : Phase) (th : BlockOn.State P)
    : option (BlockOn.State P) :=
  match ph, who with
  | Bumped _ _ _, Here => BlockOn.run false th
  | Bumped _ _ _, There _ => BlockOn.exec BlockOn.OtherReact th
  | _, _ => Some th
  end.

Definition exec (e : Ev) (r : Rt) : option Rt :=
  let s := rt_sys r in
  let th := rt_thread r in
  match e with
  | Step choice =>
      if decide (may_step r) then
        th ← BlockOn.run choice th;
        Some (mkRt s th (if decide (BlockOn.pc th = BlockOn.Polling)
                         then length (w_woken (s_w s)) else rt_polled r))
      else None
  | Task who e =>
      if decide (may_task who e r) then
        s' ← System.exec e s;
        th ← (if notifies e then BlockOn.exec BlockOn.OtherNotify th else Some th);
        th ← woken_by who s s' th;
        Some (mkRt s' th (rt_polled r))
      else None
  | React who timeout =>
      if decide (may_react who timeout r) then
        s ← System.exec (EReact timeout) s;
        Some (mkRt s th (rt_polled r))
      else None
  | Round who =>
      if decide (may_round who r) then
        th ← waited who (s_ph s) th;
        s' ← System.exec ERound s;
        th ← woken_by who s s' th;
        Some (mkRt s' th (rt_polled r))
      else None
  | SelfWake =>
      if decide (BlockOn.pc th = BlockOn.Polling) then
        th ← BlockOn.exec BlockOn.SelfWake th;
        Some (mkRt s th (rt_polled r))
      else None
  | Wake => th ← BlockOn.exec BlockOn.Wake th; Some (mkRt s th (rt_polled r))
  | WakeCheck => th ← BlockOn.exec BlockOn.WakeCheck th; Some (mkRt s th (rt_polled r))
  | WakeNotify =>
      th ← BlockOn.exec BlockOn.WakeNotify th;
      s ← System.exec ENotify s;
      Some (mkRt s th (rt_polled r))
  | OtherLock => th ← BlockOn.exec BlockOn.OtherLock th; Some (mkRt s th (rt_polled r))
  | OtherUnlock =>
      if decide (idle (s_ph s)) then
        th ← BlockOn.exec BlockOn.OtherUnlock th;
        Some (mkRt s th (rt_polled r))
      else None
  end.

Fixpoint run (evs : list Ev) (r : Rt) : option Rt :=
  match evs with
  | [] => Some r
  | e :: evs => r ← exec e r; run evs r
  end.

(** [block_on] is called, with a parker [p], while [n] other calls are active; a thread
    that is about to poll its future for the first time has not touched anything yet, so
    that it does not matter that no round runs. *)
Inductive reachable (n : Z) : Rt → Prop :=
  | reach_start s p : System.reachable s → idle (s_ph s) →
      reachable n (mkRt s (BlockOn.initial p n) (length (w_woken (s_w s))))
  | reach_next r r' e : reachable n r → exec e r = Some r' → reachable n r'.

(** The steps the thread takes: by itself, and when it is back from the poller. *)
Definition moves (e : Ev) (r : Rt) : bool :=
  match e, s_ph (rt_sys r) with
  | Step _, _ => true
  | Round Here, Bumped _ _ _ => true
  | _, _ => false
  end.

(** How many it takes in a run. *)
Fixpoint count_moves (evs : list Ev) (r : Rt) : nat :=
  match evs with
  | [] => 0
  | e :: evs =>
      (if moves e r then 1 else 0) +
      match exec e r with Some r' => count_moves evs r' | None => 0 end
  end.
End runtime.

(** * Invariant *)

Section inv.
  Context {Slab Queue : Type → Type} {Reg Env P : Type}.
  Context `{SlabOps Slab, QueueOps Queue, EnvOps Env, RegOps Reg Env, EqDecision Reg}.
  Context `{CallOps Reg Env, ParkerOps P, !ParkerLaws P}.
  Context (waker : Waker).
  Local Abbreviation Rt := (Rt (Slab := Slab) (Queue := Queue) (Reg := Reg) (Env := Env) (P := P)).

(** A round runs while the lock is held; when the thread holds it, the round is at the
    point where the thread is ([stage] counts the phases down, and 5 is the poller). *)
Definition round_ok (r : Rt) : Prop :=
  match BlockOn.lock (rt_thread r) with
  | BlockOn.Free => idle (s_ph (rt_sys r))
  | BlockOn.Mine =>
      ((5 ≤ stage (s_ph (rt_sys r)))%nat → in_wait (BlockOn.pc (rt_thread r))) ∧
      ((0 < stage (s_ph (rt_sys r)) < 5)%nat → after_wait (BlockOn.pc (rt_thread r)))
  | BlockOn.Theirs => True
  end.

Record rt_ok (n : Z) (r : Rt) : Prop := {
  rt_sys_ok : System.reachable (rt_sys r);
  rt_thread_ok : BlockOn.reachable n (rt_thread r);
  rt_round : round_ok r;
  rt_polled_le : (rt_polled r ≤ length (w_woken (s_w (rt_sys r))))%nat;
  rt_woken : waker ∈ drop (rt_polled r) (w_woken (s_w (rt_sys r))) →
    BlockOn.woken (rt_thread r) = true;
}.
End inv.

(** * Facts *)

Section facts.
Context {Slab Queue : Type → Type} {Reg Env P : Type}.
Context `{SlabOps Slab, QueueOps Queue, EnvOps Env, RegOps Reg Env}.
Context `{!SlabLaws Slab, !QueueLaws Queue, !ClockLaws Env, !NotifyLaws Env, !RegLaws Reg Env}.
Context `{EqDecision Reg, CallOps Reg Env, !CallLaws Reg Env, ParkerOps P, !ParkerLaws P}.
Context (waker : Waker).
Local Abbreviation Sys := (Sys (Slab := Slab) (Queue := Queue) (Reg := Reg) (Env := Env)).
Local Abbreviation Rt := (Rt (Slab := Slab) (Queue := Queue) (Reg := Reg) (Env := Env) (P := P)).
Implicit Types (s : Sys) (th : BlockOn.State P) (r : Rt).

(** What a step of another thread, or of a waker, leaves alone. *)
Record stays th th' : Prop := {
  stays_pc : BlockOn.pc th' = BlockOn.pc th;
  stays_lock : BlockOn.lock th' = BlockOn.lock th;
  stays_woken : BlockOn.woken th = true → BlockOn.woken th' = true;
}.

Lemma stays_refl th : stays th th.
Proof. by split. Qed.

Lemma stays_trans th th1 th2 : stays th th1 → stays th1 th2 → stays th th2.
Proof. intros [] []. split; [congruence|congruence|auto]. Qed.

Definition keeps_lock (e : BlockOn.Ev) : Prop :=
  match e with
  | BlockOn.Run _ | BlockOn.OtherLock | BlockOn.OtherUnlock => False
  | _ => True
  end.

Lemma thread_stays e th th' : keeps_lock e → BlockOn.exec e th = Some th' → stays th th'.
Proof.
  intros Hk He. destruct (BlockOn.unpark_eq th) as (p & _ & Hu).
  destruct e; cbn [BlockOn.exec] in He; try done; try rewrite Hu in He;
    repeat case_match; simplify_eq; by split.
Qed.

Lemma wake_event_keeps who : keeps_lock (wake_event who).
Proof. by destruct who as [|[]]. Qed.

Lemma exec_wake who th th' :
  BlockOn.exec (wake_event who) th = Some th' → BlockOn.woken th' = true.
Proof.
  destruct (BlockOn.unpark_eq th) as (p & _ & Hu).
  destruct who as [|[]]; cbn [wake_event BlockOn.exec]; rewrite Hu; intros He;
    repeat case_match; by simplify_eq.
Qed.

Lemma repeated_wake who m th th' n :
  BlockOn.reachable n th → repeated (wake_event who) m th = Some th' →
  BlockOn.reachable n th' ∧ stays th th' ∧ ((0 < m)%nat → BlockOn.woken th' = true).
Proof.
  revert th. induction m as [|m IH]; intros th Hth Hr; cbn in Hr.
  { simplify_eq. split_and!; [done|apply stays_refl|lia]. }
  apply bind_Some in Hr as (th1 & He & Hr).
  pose proof (thread_stays _ _ _ (wake_event_keeps who) He) as Hs1.
  destruct (IH th1) as (Hth' & Hs2 & _); [by eapply BlockOn.reach_step|done|].
  split_and!; [done|by eapply stays_trans|]. intros _.
  by apply (stays_woken _ _ Hs2), (exec_wake who th).
Qed.

Lemma idle_stage ph : idle ph ↔ stage ph = 0%nat.
Proof. by destruct ph. Qed.

(** The thread keeps its hands off the lock of another one. *)
Lemma run_theirs n choice th th' :
  BlockOn.inv n th → BlockOn.run choice th = Some th' →
  BlockOn.lock th = BlockOn.Theirs → BlockOn.lock th' = BlockOn.Theirs.
Proof.
  intros Hinv Hrun Hl. pose proof (BlockOn.inv_must_hold _ _ Hinv) as Hmust.
  unfold BlockOn.run, BlockOn.park_zero, BlockOn.park in Hrun.
  destruct (BlockOn.pc th); cbn in Hmust; try (specialize (Hmust eq_refl); congruence);
    repeat case_match; simplify_eq/=; congruence.
Qed.

(** It forgets that it was woken when it begins to poll. *)
Lemma run_woken choice th th' :
  BlockOn.run choice th = Some th' →
  BlockOn.pc th' = BlockOn.Polling ∨ BlockOn.woken th' = BlockOn.woken th.
Proof.
  intros Hrun. unfold BlockOn.run, BlockOn.park_zero, BlockOn.park in Hrun.
  destruct (BlockOn.pc th); repeat case_match; simplify_eq/=; auto.
Qed.

(** What the system wakes reaches the thread. *)
Lemma woken_step s s' th th1 th' polled :
  advances (s_w s) (s_w s') → (polled ≤ length (w_woken (s_w s)))%nat →
  (waker ∈ drop polled (w_woken (s_w s)) → BlockOn.woken th = true) →
  (BlockOn.woken th = true → BlockOn.woken th1 = true) →
  (BlockOn.woken th1 = true → BlockOn.woken th' = true) →
  ((0 < times waker (s_w s) (s_w s'))%nat → BlockOn.woken th' = true) →
  (polled ≤ length (w_woken (s_w s')))%nat ∧
  (waker ∈ drop polled (w_woken (s_w s')) → BlockOn.woken th' = true).
Proof.
  intros [[ks Hks] _ _] Hle Hold H01 H12 Hnew. unfold times in Hnew. rewrite Hks in Hnew |- *.
  rewrite drop_app_length in Hnew. split; [rewrite length_app; lia|].
  rewrite drop_app_le by done. intros Hin. apply elem_of_app in Hin as [Hin|Hin]; [auto|]. apply Hnew.
  assert (waker ∈ filter (eq waker) ks) as Hf by (apply list_elem_of_filter; by split).
  destruct (filter (eq waker) ks); [by apply elem_of_nil in Hf|cbn; lia].
Qed.

(** ** Each step keeps the invariant *)

Lemma own_step_ok n choice r r' : rt_ok waker n r → exec waker (Step choice) r = Some r' → rt_ok waker n r'.
Proof.
  intros [Hs Hth Hr Hle Hw] He. cbn [exec] in He. case_decide as Hmay; [|done].
  apply bind_Some in He as (th' & Hrun & He). injection He as <-. destruct Hmay as [Hnw Hidle].
  pose proof (BlockOn.inv_reachable _ _ Hth) as Hinv.
  split; cbn; [done|by eapply BlockOn.reach_step with (e := BlockOn.Run choice)| | |].
  - unfold round_ok in *. cbn. destruct (decide (idle (s_ph (rt_sys r)))) as [Hi|Hni].
    + apply idle_stage in Hi as Hst. rewrite Hst. destruct (BlockOn.lock th'); [done|lia|done].
    + assert (stage (s_ph (rt_sys r)) ≠ 0%nat) as Hst by by rewrite <- idle_stage.
      destruct (BlockOn.lock (rt_thread r)) eqn:Hl; [done| |].
      * destruct Hr as [Hr1 Hr2]. exfalso.
        destruct (decide (5 ≤ stage (s_ph (rt_sys r)))%nat); [by apply Hnw, Hr1|].
        apply Hni, Hidle, Hr2. lia.
      * by rewrite (run_theirs _ _ _ _ Hinv Hrun Hl).
  - by case_decide.
  - case_decide; [rewrite drop_all; by intros Hin%elem_of_nil|].
    destruct (run_woken _ _ _ Hrun) as [?| ->]; [done|exact Hw].
Qed.

Lemma round_ok_stays s' th' r p :
  stays (rt_thread r) th' → stage (s_ph s') = stage (s_ph (rt_sys r)) → round_ok r →
  round_ok (mkRt s' th' p).
Proof.
  intros [Hpc Hl _] Hst Hr. unfold round_ok in *. cbn. rewrite Hl, Hpc, Hst.
  destruct (BlockOn.lock (rt_thread r)); [|done|done].
  apply idle_stage. rewrite Hst. by apply idle_stage.
Qed.

Lemma task_ok n who e r r' : rt_ok waker n r → exec waker (Task who e) r = Some r' → rt_ok waker n r'.
Proof.
  intros [Hs Hth Hr Hle Hw] He. cbn [exec] in He. case_decide as Hmay; [|done].
  apply bind_Some in He as (s' & Hse & He). apply bind_Some in He as (th1 & Hn & He).
  apply bind_Some in He as (th' & Hwk & He). injection He as <-.
  pose proof (sys_ok_reachable _ Hs) as Hok.
  assert (BlockOn.reachable n th1 ∧ stays (rt_thread r) th1) as [Hth1 Hst1].
  { destruct (notifies e); [|simplify_eq; by split; [|apply stays_refl]].
    split; [by eapply BlockOn.reach_step|by eapply thread_stays, Hn]. }
  destruct (repeated_wake _ _ _ _ _ Hth1 Hwk) as (Hth' & Hst' & Hpos).
  destruct (woken_step (rt_sys r) s' (rt_thread r) th1 th' (rt_polled r)) as [Hle' Hw'];
    [by eapply exec_advances|done|done|apply Hst1|apply Hst'|exact Hpos|].
  split; cbn; [by eapply System.reach_step|done| |done|done].
  eapply round_ok_stays; [by eapply stays_trans| |done].
  f_equal. destruct Hmay as [Hev _].
  eapply task_phase; [done|intros d ->; exact Hev|intros ->; exact Hev].
Qed.

Lemma react_ok n who timeout r r' :
  rt_ok waker n r → exec waker (React who timeout) r = Some r' → rt_ok waker n r'.
Proof.
  intros [Hs Hth Hr Hle Hw] He. cbn [exec] in He. case_decide as Hmay; [|done].
  apply bind_Some in He as (s' & Hse & He). injection He as <-.
  pose proof (sys_ok_reachable _ Hs) as Hok. pose proof (react_stage _ _ _ Hse) as Hst.
  assert (w_woken (s_w s') = w_woken (s_w (rt_sys r))) as Hwk.
  { assert (∃ res, s_ph (rt_sys r) = Idle res) as [res Hi].
    { pose proof (exec_guard _ _ _ Hse) as Hg. cbn in Hg.
      destruct (s_ph (rt_sys r)); try done. by eexists. }
    destruct (react_collects _ timeout _ Hok Hi) as (s1 & He1 & Hw1 & _). congruence. }
  split; cbn; [by eapply System.reach_step|done| |by rewrite Hwk|by rewrite Hwk].
  unfold round_ok. cbn. rewrite Hst. destruct who; cbn in Hmay.
  - pose proof (BlockOn.inv_must_hold _ _ (BlockOn.inv_reachable _ _ Hth)) as Hmust.
    rewrite Hmust by (destruct Hmay as [[-> _]|[-> _]]; done).
    split; [|lia]. intros _. destruct Hmay as [[? _]|[? _]]; [by left|by right].
  - by rewrite Hmay.
Qed.

Lemma waited_ok n who r th1 :
  rt_ok waker n r → may_round who r → waited who (s_ph (rt_sys r)) (rt_thread r) = Some th1 →
  BlockOn.reachable n th1 ∧ BlockOn.lock th1 = BlockOn.lock (rt_thread r) ∧
  (BlockOn.woken (rt_thread r) = true → BlockOn.woken th1 = true) ∧
  (who = Here → stage (s_ph (rt_sys r)) = 5%nat → after_wait (BlockOn.pc th1)) ∧
  (stage (s_ph (rt_sys r)) ≠ 5%nat → BlockOn.pc th1 = BlockOn.pc (rt_thread r)).
Proof.
  intros [Hs Hth Hr Hle Hw] Hmay Hwt. unfold waited in Hwt. unfold may_round in Hmay.
  destruct (s_ph (rt_sys r)) eqn:Hph; try (simplify_eq; split_and!; by try (cbn; lia)).
  destruct who as [|b].
  - unfold round_ok in Hr. rewrite Hmay, Hph in Hr. destruct Hr as [Hr _].
    pose proof Hwt as Hrun. unfold BlockOn.run in Hrun.
    destruct (Hr ltac:(cbn; lia)) as [Hpc|Hpc]; rewrite Hpc in Hrun; injection Hrun as Heq;
      (split_and!; [by eapply BlockOn.reach_step with (e := BlockOn.Run false)| | |intros _ _|];
       rewrite <- Heq; cbn; [done|done| |by cbn]); [by left|by right].
  - assert (stays (rt_thread r) th1) as [Hpc Hl Hwk] by by eapply thread_stays, Hwt.
    split_and!; [by eapply BlockOn.reach_step|done|done|done|done].
Qed.

Lemma round_step_ok n who r r' :
  rt_ok waker n r → exec waker (Round who) r = Some r' → rt_ok waker n r'.
Proof.
  intros Hok He. cbn [exec] in He. case_decide as Hmay; [|done].
  apply bind_Some in He as (th1 & Hwt & He). apply bind_Some in He as (s' & Hse & He).
  apply bind_Some in He as (th' & Hwk & He). injection He as <-.
  destruct (waited_ok _ _ _ _ Hok Hmay Hwt) as (Hth1 & Hl1 & Hw1 & Haw & Hpc).
  destruct Hok as [Hs Hth Hr Hle Hw].
  destruct (repeated_wake _ _ _ _ _ Hth1 Hwk) as (Hth' & [Hpc' Hl' Hw'] & Hpos).
  destruct (woken_step (rt_sys r) s' (rt_thread r) th1 th' (rt_polled r)) as [Hle' Hwn];
    [by eapply exec_advances, Hse; apply sys_ok_reachable|done..|].
  destruct (round_stage _ _ Hse) as (Hst0 & Hst6 & Hst5).
  split; cbn; [by eapply System.reach_step|done| |done|done].
  unfold round_ok in *. cbn. rewrite Hl', Hl1, Hpc'. unfold may_round in Hmay.
  rewrite Hmay in Hr |- *. destruct who as [|b]; [|done]. destruct Hr as [Hr1 Hr2].
  destruct (decide (stage (s_ph (rt_sys r)) = 5%nat)) as [H5|H5].
  - split; [lia|]. intros _. by apply Haw.
  - rewrite Hpc by done.
    destruct (decide (stage (s_ph (rt_sys r)) ≤ 5)%nat) as [Hlt|Hgt]; split; intros ?; try lia.
    + apply Hr2. lia.
    + apply Hr1. lia.
    + assert (stage (s_ph (rt_sys r)) = 6%nat) as Hs6 by (destruct (s_ph (rt_sys r)); cbn in *; lia).
      specialize (Hst6 Hs6). lia.
Qed.

(** Steps of the thread's wakers, which leave the system alone. *)
Lemma other_ok n e th' r :
  rt_ok waker n r → keeps_lock e → BlockOn.exec e (rt_thread r) = Some th' →
  rt_ok waker n (mkRt (rt_sys r) th' (rt_polled r)).
Proof.
  intros [Hs Hth Hr Hle Hw] Hk He. pose proof (thread_stays _ _ _ Hk He) as Hst.
  split; cbn; [done|by eapply BlockOn.reach_step|by eapply round_ok_stays|done|].
  intros Hin. by apply Hst, Hw.
Qed.

Lemma notify_woken s s' :
  System.exec ENotify s = Some s' → w_woken (s_w s') = w_woken (s_w s).
Proof.
  intros He. unfold System.exec in He. rewrite decide_True in He by done.
  apply (effect_inv _ (λ _ w', w_woken w' = w_woken (s_w s))) in He as (a & w' & Hw & He);
    [by injection He as <-|by apply notify_wp].
Qed.

Lemma rt_ok_exec n e r r' : rt_ok waker n r → exec waker e r = Some r' → rt_ok waker n r'.
Proof.
  intros Hok He. destruct e as [choice|who e|who timeout|who| | | | | |];
    [by eapply own_step_ok|by eapply task_ok|by eapply react_ok|by eapply round_step_ok|..];
    cbn [exec] in He.
  - case_decide; [|done]. apply bind_Some in He as (th' & Hth & He). injection He as <-.
    by eapply other_ok, Hth.
  - apply bind_Some in He as (th' & Hth & He). injection He as <-. by eapply other_ok, Hth.
  - apply bind_Some in He as (th' & Hth & He). injection He as <-. by eapply other_ok, Hth.
  - apply bind_Some in He as (th' & Hth & He). apply bind_Some in He as (s' & Hse & He).
    injection He as <-. pose proof (other_ok n BlockOn.WakeNotify th' r Hok I Hth) as [Hs Hth' Hr Hle Hw].
    cbn in Hs, Hth', Hle, Hw. pose proof (notify_woken _ _ Hse) as Hwk.
    assert (s_ph s' = s_ph (rt_sys r)) as Hph by by eapply task_phase.
    split; cbn; rewrite ?Hwk; [by eapply System.reach_step|done| |done|done].
    unfold round_ok in *. cbn in Hr |- *. by rewrite Hph.
  - apply bind_Some in He as (th' & Hth & He). injection He as <-.
    destruct Hok as [Hs Hth0 Hr Hle Hw]. pose proof Hth as Hl. cbn in Hl.
    case_decide; [|done]. injection Hl as <-.
    split; cbn; try done. by eapply BlockOn.reach_step.
  - case_decide as Hi; [|done]. apply bind_Some in He as (th' & Hth & He). injection He as <-.
    destruct Hok as [Hs Hth0 Hr Hle Hw]. pose proof Hth as Hl. cbn in Hl.
    case_decide; [|done]. injection Hl as <-.
    split; cbn; try done. by eapply BlockOn.reach_step.
Qed.

Lemma rt_ok_reachable n r : reachable waker n r → rt_ok waker n r.
Proof.
  induction 1 as [s p Hs Hi|r r' e _ IH He]; [|by eapply rt_ok_exec].
  split; cbn; [done|constructor|done|done|]. rewrite drop_all. by intros ?%elem_of_nil.
Qed.

Lemma run_rt_reachable n evs r r' :
  reachable waker n r → run waker evs r = Some r' → reachable waker n r'.
Proof.
  revert r. induction evs as [|e evs IH]; intros r Hr Hrun; cbn in Hrun; [by simplify_eq|].
  apply bind_Some in Hrun as (r1 & He & Hrun). by eapply IH, Hrun; eapply reach_next.
Qed.

Lemma run_rt_ok n evs r r' : rt_ok waker n r → run waker evs r = Some r' → rt_ok waker n r'.
Proof.
  revert r. induction evs as [|e evs IH]; intros r Hok Hrun; cbn in Hrun; [by simplify_eq|].
  apply bind_Some in Hrun as (r1 & He & Hrun). by eapply IH, Hrun; eapply rt_ok_exec.
Qed.

(** ** What a run is for the reactor, and for the thread *)

(** The steps of the reactor. *)
Definition sys_step (e : Ev (Reg := Reg) (Env := Env))
    : list (System.Ev (Reg := Reg) (Env := Env)) :=
  match e with
  | Task _ e => [e]
  | React _ timeout => [EReact timeout]
  | Round _ => [ERound]
  | WakeNotify => [ENotify]
  | _ => []
  end.

Lemma exec_sys e r r' :
  exec waker e r = Some r' → System.run (sys_step e) (rt_sys r) = Some (rt_sys r').
Proof.
  intros He. destruct e; cbn in He |- *; try case_decide; try done;
    repeat match type of He with
    | (_ ≫= _) = Some _ => apply bind_Some in He as (? & ? & He)
    end; injection He as <-; cbn; try done;
    match goal with H : System.exec _ _ = Some _ |- _ => by rewrite H end.
Qed.

Lemma run_sys evs r r' :
  run waker evs r = Some r' → System.run (evs ≫= sys_step) (rt_sys r) = Some (rt_sys r').
Proof.
  revert r. induction evs as [|e evs IH]; intros r Hrun; cbn in Hrun; [by simplify_eq|].
  apply bind_Some in Hrun as (r1 & He & Hrun). cbn.
  eapply run_app; [by apply exec_sys|by apply IH].
Qed.

Lemma others_step e th th' :
  BlockOn.exec e th = Some th' → (∀ c, e ≠ BlockOn.Run c) → BlockOn.others th th'.
Proof. intros He Hne. apply rtc_once. by exists e. Qed.

#[local] Instance others_preorder : PreOrder (BlockOn.others (P := P)).
Proof. split; [intros th; apply rtc_refl|intros th1 th2 th3; unfold BlockOn.others; apply transitivity]. Qed.

Lemma repeated_others who m th th' :
  repeated (wake_event who) m th = Some th' → BlockOn.others th th'.
Proof.
  revert th. induction m as [|m IH]; intros th Hr; cbn in Hr; [by simplify_eq|].
  apply bind_Some in Hr as (th1 & He & Hr). etrans; [|by apply IH].
  apply (others_step (wake_event who)); [done|]. by destruct who as [|[]].
Qed.

(** A step is one of the thread, or of the others. *)
Lemma exec_thread e r r' :
  exec waker e r = Some r' →
  if moves e r then
    ∃ choice th, BlockOn.run choice (rt_thread r) = Some th ∧ BlockOn.others th (rt_thread r')
  else BlockOn.others (rt_thread r) (rt_thread r').
Proof.
  assert (∀ th, BlockOn.others th th) as Hrefl by (intros; apply rtc_refl).
  intros He. destruct e as [choice|who e|who timeout|who| | | | | |]; cbn [exec] in He;
    try (case_decide; [|done]);
    repeat match type of He with
    | (_ ≫= _) = Some _ => apply bind_Some in He as (? & ? & He)
    end; injection He as <-; cbn [moves rt_thread]; try done;
    try (by eapply others_step).
  - by eexists _, _.
  - etrans; [|by eapply repeated_others]. destruct (notifies e); [by eapply others_step|].
    by simplify_eq.
  - match goal with H : waited _ _ _ = Some _ |- _ => unfold waited in H; rename H into Hwt end.
    destruct who as [|b], (s_ph (rt_sys r)); try (simplify_eq; by eapply repeated_others).
    + eexists _, _. split; [done|]. by eapply repeated_others.
    + etrans; [by eapply others_step|by eapply repeated_others].
Qed.

Lemma polls_within_others k th th' :
  BlockOn.others th th' → BlockOn.polls_within k th → BlockOn.polls_within k th'.
Proof.
  destruct k as [|k]; [done|]. intros Hrtc Hp th0 choice Hth0. apply Hp. by etrans.
Qed.

(** ** Notifications of the poller *)








(** The thread takes a step that begins a poll of its future, or that completes. *)
Definition begins (e : Ev) r : Prop :=
  moves e r = true ∧ ∃ r', exec waker e r = Some r' ∧
    (BlockOn.pc (rt_thread r') = BlockOn.Polling ∨ BlockOn.pc (rt_thread r') = BlockOn.Completed).
Definition polls_in (evs : list (Ev (Reg := Reg) (Env := Env))) r : Prop :=
  ∃ evs1 e evs2 r1, evs = evs1 ++ e :: evs2 ∧ run waker evs1 r = Some r1 ∧ begins e r1.

Lemma polls_in_head e evs r : begins e r → polls_in (e :: evs) r.
Proof. intros Hb. by exists [], e, evs, r. Qed.

Lemma polls_in_cons e evs r r1 : exec waker e r = Some r1 → polls_in evs r1 → polls_in (e :: evs) r.
Proof.
  intros He (evs1 & e1 & evs2 & r2 & -> & Hrun & Hb). exists (e :: evs1), e1, evs2, r2.
  split_and!; [done| |done]. cbn. by rewrite He.
Qed.

Lemma polls_in_app_l evs evs' r : polls_in evs r → polls_in (evs ++ evs') r.
Proof.
  intros (evs1 & e & evs2 & r1 & -> & Hrun & Hb). exists evs1, e, (evs2 ++ evs'), r1.
  split_and!; [by rewrite <- app_assoc|done|done].
Qed.

Lemma polls_in_app_r evs evs' r r1 :
  run waker evs r = Some r1 → polls_in evs' r1 → polls_in (evs ++ evs') r.
Proof.
  revert r. induction evs as [|e evs IH]; intros r Hrun Hp; cbn in Hrun; [by simplify_eq|].
  apply bind_Some in Hrun as (r2 & He & Hrun). by eapply polls_in_cons, IH.
Qed.

(** It begins a poll when it has taken enough steps. *)
Lemma moves_poll n k evs r r' :
  rt_ok waker n r → BlockOn.polls_within k (rt_thread r) → run waker evs r = Some r' →
  (k ≤ count_moves waker evs r)%nat → polls_in evs r.
Proof.
  revert k r. induction evs as [|e evs IH]; intros k r Hok Hp Hrun Hk; cbn in Hrun, Hk.
  { by destruct k; [|lia]. }
  apply bind_Some in Hrun as (r1 & He & Hrun). rewrite He in Hk.
  pose proof (rt_ok_exec _ _ _ _ Hok He) as Hok1. pose proof (exec_thread _ _ _ He) as Hth.
  destruct (moves e r) eqn:Hm; cbn in Hk.
  2:{ eapply polls_in_cons; [done|]. eapply IH; [done|by eapply polls_within_others|done|done]. }
  destruct Hth as (choice & th & Hstep & Hothers). destruct k as [|k]; [done|].
  destruct (Hp (rt_thread r) choice) as (th' & Hstep' & Hth'); [apply rtc_refl|].
  assert (th' = th) as -> by congruence.
  assert (BlockOn.pc (rt_thread r1) = BlockOn.pc th) as Hpc.
  { eapply (BlockOn.inv_others n); [|done]. eapply BlockOn.inv_run; [|done].
    apply BlockOn.inv_reachable, Hok. }
  destruct Hth' as [Hp'|[Hp'|Hp']].
  - apply polls_in_head. split; [done|]. exists r1. rewrite Hpc. auto.
  - apply polls_in_head. split; [done|]. exists r1. rewrite Hpc. auto.
  - eapply polls_in_cons; [done|]. eapply IH; [done|by eapply polls_within_others|done|lia].
Qed.

Lemma run_finished choice th th' :
  BlockOn.run choice th = Some th' →
  BlockOn.pc th' = BlockOn.Polling ∨ BlockOn.pc th' = BlockOn.Completed ∨
  BlockOn.finished (BlockOn.pc th') = BlockOn.finished (BlockOn.pc th).
Proof.
  intros Hrun. unfold BlockOn.run, BlockOn.park_zero, BlockOn.park in Hrun.
  destruct (BlockOn.pc th); repeat case_match; simplify_eq/=; auto.
Qed.

Lemma exec_polled e r r' :
  exec waker e r = Some r' → rt_polled r' = rt_polled r ∨ BlockOn.pc (rt_thread r') = BlockOn.Polling.
Proof.
  intros He. destruct e; cbn [exec] in He; try (case_decide; [|done]);
    repeat match type of He with
    | (_ ≫= _) = Some _ => apply bind_Some in He as (? & ? & He)
    end; injection He as <-; cbn; auto.
  case_decide; auto.
Qed.

Lemma step_begins n e r r' :
  rt_ok waker n r → exec waker e r = Some r' →
  begins e r ∨ rt_polled r' = rt_polled r ∧
    BlockOn.finished (BlockOn.pc (rt_thread r')) = BlockOn.finished (BlockOn.pc (rt_thread r)).
Proof.
  intros Hok He. pose proof (exec_thread _ _ _ He) as Hth. unfold begins.
  pose proof (BlockOn.inv_reachable _ _ (rt_thread_ok _ _ _ Hok)) as Hinv.
  destruct (moves e r) eqn:Hm.
  - destruct Hth as (choice & th & Hstep & Hothers).
    destruct (BlockOn.inv_others n th (rt_thread r')) as (_ & Hpc & _); [by eapply BlockOn.inv_run|done|].
    destruct (run_finished _ _ _ Hstep) as [Hb|[Hb|Hb]]; rewrite <- Hpc in Hb.
    + left. split; [done|]. exists r'. auto.
    + left. split; [done|]. exists r'. auto.
    + destruct (exec_polled _ _ _ He); [by right|]. left. split; [done|]. exists r'. auto.
  - right. destruct (BlockOn.inv_others n _ _ Hinv Hth) as (_ & Hpc & _). rewrite Hpc.
    split; [|done]. destruct e; cbn [exec moves] in He, Hm; try discriminate Hm;
      try (case_decide; [|done]);
      repeat match type of He with
      | (_ ≫= _) = Some _ => apply bind_Some in He as (? & ? & He)
      end; by injection He as <-.
Qed.

(** Until then, it does not forget that it was woken. *)
Lemma run_begins n evs r r' :
  rt_ok waker n r → run waker evs r = Some r' →
  polls_in evs r ∨
  (rt_polled r' = rt_polled r ∧
   BlockOn.finished (BlockOn.pc (rt_thread r')) = BlockOn.finished (BlockOn.pc (rt_thread r))).
Proof.
  revert r. induction evs as [|e evs IH]; intros r Hok Hrun; cbn in Hrun.
  { simplify_eq. by right. }
  apply bind_Some in Hrun as (r1 & He & Hrun). pose proof (rt_ok_exec _ _ _ _ Hok He) as Hok1.
  destruct (step_begins _ _ _ _ Hok He) as [Hb|[Hp Hf]].
  { left. by apply polls_in_head. }
  destruct (IH r1 Hok1 Hrun) as [Hb|[Hp' Hf']].
  - left. by eapply polls_in_cons.
  - right. split; congruence.
Qed.

(** A thread whose task has been woken since its last poll began polls again. *)
Lemma woken_polls n m evs evs' r r1 r' :
  rt_ok waker n r → (rt_polled r ≤ m)%nat →
  BlockOn.finished (BlockOn.pc (rt_thread r)) = false → run waker evs r = Some r1 →
  waker ∈ drop m (w_woken (s_w (rt_sys r1))) → run waker evs' r1 = Some r' →
  (10 ≤ count_moves waker evs' r1)%nat → polls_in (evs ++ evs') r.
Proof.
  intros Hok Hm Hfin Hrun Hk Hrun' Hmoves. pose proof (run_rt_ok _ _ _ _ Hok Hrun) as Hok1.
  destruct (run_begins _ _ _ _ Hok Hrun) as [Hp|[Hp Hf]]; [by apply polls_in_app_l|].
  eapply polls_in_app_r; [done|]. eapply moves_poll; [done| |done|done].
  pose proof (BlockOn.inv_reachable _ _ (rt_thread_ok _ _ _ Hok1)) as Hinv.
  eapply BlockOn.polls_within_rank; [done|congruence| |].
  - apply (rt_woken _ _ _ Hok1). rewrite Hp.
    by eapply elem_of_drop_le.
  - pose proof (BlockOn.rank_le (BlockOn.pc (rt_thread r1))). lia.
Qed.

(** ** The steps that are possible *)

Lemma prepared_woken s s' :
  System.exec ERound s = Some s' → stage (s_ph s) = 6%nat → w_woken (s_w s') = w_woken (s_w s).
Proof.
  intros He Hst. pose proof (exec_guard _ _ _ He) as Hg. unfold System.exec in He.
  rewrite decide_True in He by done. destruct (s_ph s); try done.
  apply (effect_inv _ (λ _ w', w_woken w' = w_woken (s_w s))) in He as (ph & w' & Hw & He);
    [by injection He as <-|]. cbn [round_step]. wp_steps. apply bump_ticker_wp. by wp_steps.
Qed.

Lemma unpark_pc th : ∃ b th', BlockOn.unpark th = (b, th') ∧ BlockOn.pc th' = BlockOn.pc th.
Proof.
  destruct (BlockOn.unpark_eq th) as (p & _ & Hu). by eexists _, _.
Qed.

Definition can_wake th : Prop :=
  BlockOn.pc th = BlockOn.Polling ∨ after_wait (BlockOn.pc th).

Lemma repeated_self m th :
  can_wake th → ∃ th', repeated BlockOn.SelfWake m th = Some th' ∧ BlockOn.pc th' = BlockOn.pc th.
Proof.
  revert th. induction m as [|m IH]; intros th Hc; [by exists th|].
  destruct (unpark_pc th) as (b & th1 & Hu & Hpc). cbn [repeated BlockOn.exec].
  rewrite decide_True by (destruct Hc as [?|[?|?]]; auto). rewrite Hu. cbn [mbind option_bind].
  match goal with |- context [repeated _ m ?t] => set (th2 := t) end.
  assert (BlockOn.pc th2 = BlockOn.pc th) as Hpc2 by (unfold th2; by case_match).
  destruct (IH th2) as (th' & Hr & Hpc'); [by unfold can_wake; rewrite Hpc2|].
  exists th'. split; [done|congruence].
Qed.

Lemma run_possible th :
  BlockOn.pc th ≠ BlockOn.Returned →
  (∃ th', BlockOn.run false th = Some th') ∨
  (BlockOn.pc th = BlockOn.Parked ∨ BlockOn.pc th = BlockOn.ParkedHog) ∧
  BlockOn.token th = false.
Proof.
  intros Hpc. unfold BlockOn.run. destruct (BlockOn.pc th); try done; try (left; by eexists).
  - destruct (BlockOn.park_eq (BlockOn.ClearPolling false) th) as (p & _ & ->).
    destruct (BlockOn.token th); [left; by eexists|right; auto].
  - destruct (BlockOn.park_eq BlockOn.Polling th) as (p & _ & ->).
    destruct (BlockOn.token th); [left; by eexists|right; auto].
Qed.

Lemma run_rt_app evs evs' r r1 r2 :
  run waker evs r = Some r1 → run waker evs' r1 = Some r2 → run waker (evs ++ evs') r = Some r2.
Proof.
  revert r. induction evs as [|ev evs IH]; intros r; cbn; [by intros [= ->]|].
  destruct (exec waker ev r) as [r'|]; cbn; [apply IH|done].
Qed.

(** What the thread's future does to the reactor while it is polled, is a run. *)
Definition task_event (e : System.Ev (Reg := Reg) (Env := Env)) : Prop :=
  match e with EReact _ | ERound => False | _ => True end.

Lemma lift_task evs r s' :
  BlockOn.pc (rt_thread r) = BlockOn.Polling → Forall task_event evs →
  System.run evs (rt_sys r) = Some s' →
  ∃ th', run waker (Task Here <$> evs) r = Some (mkRt s' th' (rt_polled r)) ∧
    BlockOn.pc th' = BlockOn.Polling.
Proof.
  intros Hpc Hevs. revert r Hpc. induction Hevs as [|e evs He Hevs IH]; intros r Hpc Hrun; cbn in Hrun.
  { injection Hrun as <-. exists (rt_thread r). by destruct r. }
  apply bind_Some in Hrun as (s1 & Hse & Hrun).
  assert (∃ th1, (if notifies e then BlockOn.exec BlockOn.OtherNotify (rt_thread r)
                  else Some (rt_thread r)) = Some th1 ∧ BlockOn.pc th1 = BlockOn.Polling)
    as (th1 & Hn & Hpc1) by (destruct (notifies e); by eexists).
  destruct (repeated_self (times waker (s_w (rt_sys r)) (s_w s1)) th1) as (th2 & Hw & Hpc2);
    [by left|].
  destruct (IH (mkRt s1 th2 (rt_polled r))) as (th' & Hr' & Hpc'); [cbn; congruence|done|].
  exists th'. split; [|done]. cbn [fmap list_fmap run exec].
  rewrite decide_True by by split. rewrite Hse. cbn [mbind option_bind]. rewrite Hn.
  cbn [mbind option_bind]. unfold woken_by. cbn [wake_event]. rewrite Hw. exact Hr'.
Qed.

Lemma round_possible n r :
  rt_ok waker n r → BlockOn.lock (rt_thread r) = BlockOn.Mine → ¬ idle (s_ph (rt_sys r)) →
  w_ticker (s_w (rt_sys r)) + 1 < USIZE_MOD → ∃ r', exec waker (Round Here) r = Some r'.
Proof.
  intros Hok Hl Hni Ht. pose proof (sys_ok_reachable _ (rt_sys_ok _ _ _ Hok)) as Hsys.
  assert (guard ERound (rt_sys r)) as Hg by (cbn; destruct (s_ph (rt_sys r)); done).
  destruct (exec_good ERound _ Hsys Hg) as (s' & Hse & _).
  pose proof (rt_round _ _ _ Hok) as Hr. unfold round_ok in Hr. rewrite Hl in Hr.
  destruct Hr as [Hr1 Hr2].
  assert (∃ th1, waited Here (s_ph (rt_sys r)) (rt_thread r) = Some th1) as [th1 Hw].
  { unfold waited. destruct (s_ph (rt_sys r)); try by eexists.
    unfold BlockOn.run. destruct (Hr1 ltac:(cbn; lia)) as [-> | ->]; by eexists. }
  destruct (waited_ok _ Here _ _ Hok Hl Hw) as (_ & _ & _ & Haw & Hpc).
  assert (∃ th', woken_by waker Here (rt_sys r) s' th1 = Some th') as [th' Hwk].
  { unfold woken_by. destruct (decide (stage (s_ph (rt_sys r)) = 6%nat)) as [Hs6|Hs6].
    - assert (w_woken (s_w s') = w_woken (s_w (rt_sys r))) as Heq by by apply prepared_woken.
      unfold times. rewrite Heq, drop_all. by exists th1.
    - destruct (repeated_self (times waker (s_w (rt_sys r)) (s_w s')) th1) as (th' & Hth' & _);
        [|by exists th'].
      right. destruct (decide (stage (s_ph (rt_sys r)) = 5%nat)) as [Hs5|Hs5]; [by apply Haw|].
      rewrite Hpc by done. apply Hr2. destruct (s_ph (rt_sys r)); cbn in *; try done; lia. }
  eexists. cbn [exec]. rewrite decide_True by done. rewrite Hw. cbn [mbind option_bind].
  rewrite Hse. cbn [mbind option_bind]. rewrite Hwk. reflexivity.
Qed.

(** * Properties *)

(** C4 The composition is one of the reactor and of [block_on]: a run is, seen from the
    reactor, a run of its steps by tasks and rounds, and seen from the thread a run of
    [block_on]; and when the reactor has woken the waker of [block_on] since the thread
    last began to poll its future, the thread knows. So what holds of either holds of both
    together. *)
Theorem runtime_refines (n : Z) (evs : list Ev) r r'
    (Hr : reachable waker n r) (Hrun : run waker evs r = Some r') :
  System.reachable (rt_sys r') ∧ BlockOn.reachable n (rt_thread r') ∧
  System.run (evs ≫= sys_step) (rt_sys r) = Some (rt_sys r') ∧
  (waker ∈ drop (rt_polled r') (w_woken (s_w (rt_sys r'))) →
   BlockOn.woken (rt_thread r') = true).
Proof.
  pose proof (run_rt_ok _ _ _ _ (rt_ok_reachable _ _ Hr) Hrun) as [Hs Hth _ _ Hw].
  split_and!; [done|done|by apply run_sys|done].
Qed.

(** C15 A round runs only while a thread holds the lock of the reactor: none runs while the
    lock is free; one that runs while the thread polls its future or is parked is another
    thread's; and the thread's own is before the return of the poller exactly while the
    thread is in the poller. *)
Theorem round_has_lock (n : Z) r (Hr : reachable waker n r)
    (Hni : ¬ idle (s_ph (rt_sys r))) :
  BlockOn.lock (rt_thread r) ≠ BlockOn.Free ∧
  (BlockOn.pc (rt_thread r) = BlockOn.Polling ∨ BlockOn.pc (rt_thread r) = BlockOn.Parked ∨
   BlockOn.pc (rt_thread r) = BlockOn.ParkedHog → BlockOn.lock (rt_thread r) = BlockOn.Theirs) ∧
  (BlockOn.lock (rt_thread r) = BlockOn.Mine →
   in_wait (BlockOn.pc (rt_thread r)) ∧ (5 ≤ stage (s_ph (rt_sys r)))%nat ∨
   after_wait (BlockOn.pc (rt_thread r)) ∧ (stage (s_ph (rt_sys r)) < 5)%nat).
Proof.
  pose proof (rt_ok_reachable _ _ Hr) as [_ _ Hro _ _]. unfold round_ok in Hro.
  assert (stage (s_ph (rt_sys r)) ≠ 0%nat) as Hst by by rewrite <- idle_stage.
  destruct (BlockOn.lock (rt_thread r)); [done| |by split_and!].
  destruct Hro as [Hr1 Hr2].
  assert (in_wait (BlockOn.pc (rt_thread r)) ∧ (5 ≤ stage (s_ph (rt_sys r)))%nat ∨
          after_wait (BlockOn.pc (rt_thread r)) ∧ (stage (s_ph (rt_sys r)) < 5)%nat) as Hat.
  { destruct (decide (5 ≤ stage (s_ph (rt_sys r)))%nat); [left|right]; split; try lia;
      [by apply Hr1|apply Hr2; lia]. }
  split_and!; [done| |done]. unfold in_wait, after_wait in Hat. intuition congruence.
Qed.

(** C16 The thread is never stuck: until it has returned from [block_on], a step of its own is
    possible, or it is parked and no one has unparked it. *)
Theorem block_on_not_stuck (n : Z) r (Hr : reachable waker n r)
    (Hpc : BlockOn.pc (rt_thread r) ≠ BlockOn.Returned)
    (Ht : w_ticker (s_w (rt_sys r)) + 1 < USIZE_MOD) :
  (∃ e r', match e with Step _ | React Here _ | Round Here => True | _ => False end ∧
     exec waker e r = Some r') ∨
  ((BlockOn.pc (rt_thread r) = BlockOn.Parked ∨ BlockOn.pc (rt_thread r) = BlockOn.ParkedHog) ∧
   BlockOn.token (rt_thread r) = false).
Proof.
  pose proof (rt_ok_reachable _ _ Hr) as Hok.
  pose proof (BlockOn.inv_reachable _ _ (rt_thread_ok _ _ _ Hok)) as Hinv.
  pose proof (BlockOn.inv_must_hold _ _ Hinv) as Hmust.
  assert (∀ timeout, may_react Here timeout r → idle (s_ph (rt_sys r)) →
    ∃ r', exec waker (React Here timeout) r = Some r') as Hreact.
  { intros timeout Hmay Hi. cbn [exec]. rewrite decide_True by done.
    destruct (exec_good (EReact timeout) (rt_sys r)) as (s' & -> & _);
      [apply sys_ok_reachable, Hok|cbn; by destruct (s_ph (rt_sys r))|]. by eexists. }
  destruct (decide (may_step r)) as [Hmay|Hmay].
  - destruct (run_possible (rt_thread r) Hpc) as [(th' & Hrun)|Hparked]; [left|by right].
    exists (Step false). eexists. split; [done|]. cbn [exec]. rewrite decide_True by done.
    rewrite Hrun. reflexivity.
  - left. destruct (decide (idle (s_ph (rt_sys r)))) as [Hi|Hni].
    + assert (in_wait (BlockOn.pc (rt_thread r))) as [Hw|Hw].
      { destruct (decide (in_wait (BlockOn.pc (rt_thread r)))); [done|]. by destruct Hmay. }
      * destruct (Hreact (Some (from_secs 0))) as [r' He]; [unfold may_react; auto|done|].
        by exists (React Here (Some (from_secs 0))), r'.
      * destruct (Hreact None) as [r' He]; [unfold may_react; auto|done|]. by exists (React Here None), r'.
    + assert (BlockOn.lock (rt_thread r) = BlockOn.Mine) as Hl.
      { apply Hmust. unfold may_step, in_wait, after_wait in Hmay.
        destruct (BlockOn.pc (rt_thread r)); try done; by destruct Hmay; split;
          intros [?|?]. }
      destruct (round_possible _ _ Hok Hl Hni Ht) as [r' He]. by exists (Round Here), r'.
Qed.

(** What the steps [evs1], [evs2] and [evs3] make of the state [r1] of a thread that waits
    with the future [id] for a direction of its source: the poller reports an event of the
    direction in [evs1], the round ends with [evs2], and the thread has then begun to poll
    again before it has taken ten more steps. *)
Definition polls_on_event (id : Z) (f : ReadyFut) r1 : Prop :=
  ∀ evs1 r2 ev evs2 r3 res evs3 r4,
    run waker evs1 r1 = Some r2 → ev ∈ in_flight (s_ph (rt_sys r2)) →
    reports (rt_sys r2) ev f → run waker evs2 r2 = Some r3 →
    s_ph (rt_sys r3) = Idle res → s_errs (rt_sys r3) = false →
    EDropFut id ∉ (evs1 ++ evs2) ≫= sys_step →
    (∀ cx, EPollFut id cx ∉ (evs1 ++ evs2) ≫= sys_step) →
    run waker evs3 r3 = Some r4 → (10 ≤ count_moves waker evs3 r3)%nat →
    polls_in ((evs1 ++ evs2) ++ evs3) r1.

(** C1 A thread that blocks on a read or a write polls it again when the handle is ready: if a
    poll of [read_with] or [write_with] by a thread in [block_on] answers [Pending], which
    is the run [with_steps] of the thread's task, then whatever tasks, other threads and
    rounds do, once the poller has reported an event of its direction and the round has
    ended, the thread polls its future again before it has taken ten more steps; provided
    that the future that waits is neither polled again nor dropped before the round has
    ended, and that the poller has not refused to modify an interest by then. *)
Theorem block_on_reads {T S R : Type} (n : Z) (dir : Dir)
    (op : T → S → Env → (io_result R * (T * S)) * Env) (a : Async.Async T) (i : T) (x : S)
    (st : Async.WithFut) r (id : Z) (c : Call Reg Env) (Hr : reachable waker n r)
    (Hpc : BlockOn.pc (rt_thread r) = BlockOn.Polling)
    (Hop : is_call (op i x) c (w_env (s_w (rt_sys r))))
    (Hin : Async.source a ∈ s_handles (rt_sys r)) (Hi : Async.io a = Some i)
    (Hst : st ≠ Async.Finished) (Hfut : task_fut (rt_sys r) id dir (Async.source a) st) :
  wp (Async.with_poll Async.WITH_FUEL dir op a x st waker)
    (λ b w', b.1 = Pending →
       ∃ r1 f, run waker (Task Here <$> with_steps id dir (Async.source a) waker st c) r = Some r1 ∧
         s_w (rt_sys r1) = w' ∧ BlockOn.pc (rt_thread r1) = BlockOn.Polling ∧
         s_futs (rt_sys r1) !! id = Some f ∧
         rd_source f = Async.source a ∧ rd_dir f = dir ∧
         polls_on_event id f r1) (s_w (rt_sys r)).
Proof.
  pose proof (rt_ok_reachable _ _ Hr) as Hok.
  pose proof (sys_ok_reachable _ (rt_sys_ok _ _ _ Hok)) as Hsys.
  eapply wp_mono; [by eapply with_poll_wakes|]. intros b w' Hk Hb.
  destruct (Hk Hb) as (s1 & f & Hrun & Hown & <- & Hf & Hsrc & Hdir & Hwakes).
  assert (Forall task_event (with_steps id dir (Async.source a) waker st c)) as Htask
    by (eapply Forall_impl; [exact Hown|]; by intros []).
  destruct (lift_task _ _ _ Hpc Htask Hrun) as (th1 & Hrun1 & Hpc1).
  eexists _, f. split_and!; [exact Hrun1|done..|].
  intros evs1 r2 ev evs2 r3 res evs3 r4 Hr2 Hin2 Hrep Hr3 Hend Herr Hdrop Hpoll Hr4 Hmoves.
  pose proof (run_rt_ok _ _ _ _ Hok Hrun1) as Hok1.
  eapply (woken_polls n (length (w_woken (s_w s1)))); [exact Hok1|apply Hok1| | | |done|done].
  - cbn. by rewrite Hpc1.
  - by eapply run_rt_app.
  - rewrite bind_app in Hdrop, Hpoll.
    eapply (Hwakes (evs1 ≫= sys_step) _ ev (evs2 ≫= sys_step));
      [by eapply (run_sys _ (mkRt s1 _ _))|done|done|by eapply run_sys|done..].
Qed.

(** A thread that waits with the timer [id] for [t0]: any thread begins to react when it is
    due, and the round ends with [evs2]. *)
Definition polls_on_time (t0 : Instant) (id : Z) r1 : Prop :=
  ∀ evs1 r2 who timeout r3 evs2 r4 res evs3 r5,
    run waker evs1 r1 = Some r2 → ERemoveTimer t0 id ∉ evs1 ≫= sys_step →
    t0 ≤ env_time (w_env (s_w (rt_sys r2))) →
    exec waker (React who timeout) r2 = Some r3 → run waker evs2 r3 = Some r4 →
    s_ph (rt_sys r4) = Idle res → s_errs (rt_sys r4) = false →
    run waker evs3 r4 = Some r5 → (10 ≤ count_moves waker evs3 r4)%nat →
    polls_in ((evs1 ++ React who timeout :: evs2) ++ evs3) r1.

(** And a thread that blocks on a [Timer] polls it again in time: if a poll of the timer by a
    thread in [block_on] answers [Pending], then whatever tasks, other threads and rounds
    do, once any thread has begun to react when the timer is due and the round has ended,
    the thread polls its future again before it has taken ten more steps; provided that the
    timer is not removed before, and that the poller has not refused to modify an interest
    by then. *)
Theorem block_on_timer (n : Z) (t : Timer.Timer) (t0 : Instant) r (c : Call Reg Env)
    (Hr : reachable waker n r) (Hpc : BlockOn.pc (rt_thread r) = BlockOn.Polling)
    (Hid : w_id_generator (s_w (rt_sys r)) + 1 < USIZE_MOD)
    (Ht : Timer.timer_ok (s_w (rt_sys r)) t) (Ht0 : Timer.when t = Some t0)
    (Hnow : is_call env_now c (w_env (s_w (rt_sys r)))) :
  wp (Timer.poll_next t waker)
    (λ b w', b.1 = Pending →
       ∃ r1 id, run waker (Task Here <$> timer_steps t t0 waker c) r = Some r1 ∧
         s_w (rt_sys r1) = w' ∧ BlockOn.pc (rt_thread r1) = BlockOn.Polling ∧
         Timer.entry b.2 = Some ((t0, id), waker) ∧
         polls_on_time t0 id r1) (s_w (rt_sys r)).
Proof.
  pose proof (rt_ok_reachable _ _ Hr) as Hok.
  pose proof (sys_ok_reachable _ (rt_sys_ok _ _ _ Hok)) as Hsys.
  eapply wp_mono; [by apply (poll_next_wakes t t0)|]. intros b w' Hk Hb.
  destruct (Hk Hb) as (s1 & id & Hrun & Hown & <- & Hentry & Hwakes).
  assert (Forall task_event (timer_steps t t0 waker c)) as Htask
    by (eapply Forall_impl; [exact Hown|]; by intros []).
  destruct (lift_task _ _ _ Hpc Htask Hrun) as (th1 & Hrun1 & Hpc1).
  eexists _, id. split_and!; [exact Hrun1|done..|].
  intros evs1 r2 who timeout r3 evs2 r4 res evs3 r5 Hr2 Hne Hdue Hreact Hr4 Hend Herr Hr5 Hmoves.
  pose proof (run_rt_ok _ _ _ _ Hok Hrun1) as Hok1.
  eapply (woken_polls n (length (w_woken (s_w s1)))); [exact Hok1|apply Hok1| | | |done|done].
  - cbn. by rewrite Hpc1.
  - eapply run_rt_app; [done|]. cbn [run]. rewrite Hreact. done.
  - pose proof (exec_sys _ _ _ Hreact) as Hse. cbn in Hse.
    apply bind_Some in Hse as (s3 & Hse & [= ->]).
    eapply (Hwakes (evs1 ≫= sys_step) _ timeout _ (evs2 ≫= sys_step));
      [by eapply (run_sys _ (mkRt s1 _ _))|done|done|exact Hse|by eapply run_sys|done..].
Qed.

End facts.

(** * Witnesses *)

Abbreviation RefRt := (Rt (Slab := RefSlab) (Queue := RefQueue) (Reg := Unix.Registration)
  (Env := RefEnv) (P := bool)).
Abbreviation RefRtEv := (Ev (Reg := Unix.Registration) (Env := RefEnv)).

(** [block_on] is called when a source is registered, with the waker 1. *)
Definition called : RefRt :=
  mkRt (state_of adapter_steps) (BlockOn.initial false 0)
    (length (w_woken (s_w (state_of adapter_steps)))).

Lemma called_reachable : reachable waker1 0 called.
Proof. apply reach_start; [apply adapter_reachable|vm_compute; exact I]. Qed.

(** The poll has answered [Pending], and the thread goes to wait for I/O. *)
Definition waiting_run : list RefRtEv :=
  [Step false; Step false; Step false; Step false; Step false; Step false; React Here None].
Definition rt_after (evs : list RefRtEv) : RefRt := default called (run waker1 evs called).

Lemma waiting_ran : run waker1 waiting_run called = Some (rt_after waiting_run).
Proof. vm_compute. exact eq_refl. Qed.
Lemma waiting_rt_reachable : reachable waker1 0 (rt_after waiting_run).
Proof.
  exact (run_rt_reachable waker1 0 waiting_run called _ called_reachable waiting_ran).
Qed.
Lemma waiting_not_idle : ¬ idle (s_ph (rt_sys (rt_after waiting_run))).
Proof. vm_compute. exact id. Qed.
Lemma waiting_lock : BlockOn.lock (rt_thread (rt_after waiting_run)) = BlockOn.Mine.
Proof. vm_compute. exact eq_refl. Qed.

Lemma runtime_refines_witness :
  System.reachable (rt_sys (rt_after waiting_run)) ∧
  System.run [EReact None] (rt_sys called) = Some (rt_sys (rt_after waiting_run)).
Proof.
  destruct (runtime_refines waker1 0 waiting_run called _ called_reachable waiting_ran)
    as (Hs & _ & Hrun & _).
  split; [exact Hs|exact Hrun].
Defined.

(** The thread's own round is about to ask the poller. *)
Lemma round_has_lock_witness :
  in_wait (BlockOn.pc (rt_thread (rt_after waiting_run))) ∧
    (5 ≤ stage (s_ph (rt_sys (rt_after waiting_run))))%nat ∨
  after_wait (BlockOn.pc (rt_thread (rt_after waiting_run))) ∧
    (stage (s_ph (rt_sys (rt_after waiting_run))) < 5)%nat.
Proof.
  destruct (round_has_lock waker1 0 _ waiting_rt_reachable waiting_not_idle) as (_ & _ & Hm).
  apply Hm, waiting_lock.
Defined.

Lemma waiting_pc : BlockOn.pc (rt_thread (rt_after waiting_run)) = BlockOn.Waiting.
Proof. vm_compute. exact eq_refl. Qed.
Lemma waiting_rt_ticker : w_ticker (s_w (rt_sys (rt_after waiting_run))) + 1 < USIZE_MOD.
Proof. vm_compute. exact eq_refl. Qed.

(** It can go on, since it is not parked. *)
Lemma block_on_not_stuck_witness : ∃ e r', exec waker1 e (rt_after waiting_run) = Some r'.
Proof.
  assert (BlockOn.pc (rt_thread (rt_after waiting_run)) ≠ BlockOn.Returned) as Hpc
    by (rewrite waiting_pc; discriminate).
  destruct (block_on_not_stuck waker1 0 _ waiting_rt_reachable Hpc waiting_rt_ticker)
    as [(e & r' & _ & He)|[[Hp|Hp] _]].
  - exists e, r'. exact He.
  - rewrite waiting_pc in Hp. discriminate Hp.
  - rewrite waiting_pc in Hp. discriminate Hp.
Defined.

Lemma called_polling : BlockOn.pc (rt_thread called) = BlockOn.Polling.
Proof. exact eq_refl. Qed.

(** The thread waits, and its own round brings the event; it then polls again. *)
Definition goes (evs : list RefRtEv) (r : RefRt) : RefRt := default called (run waker1 evs r).
Definition event_run : list RefRtEv := waiting_run ++ [Round Here; Round Here].
Definition end_run : list RefRtEv := replicate 5 (Round Here).
Definition ten_steps : list RefRtEv := replicate 10 (Step false).
Definition reading : RefRt :=
  goes (Task Here <$> with_steps 5 READ 1%positive waker1 Async.Calling no_call) called.
Definition read_reported : RefRt := goes event_run reading.
Definition read_ended : RefRt := goes end_run read_reported.
Definition read_fut : ReadyFut := mkReady 1%positive READ (Some (0, 0)) (Some 0).

Lemma reading_ran :
  run waker1 (Task Here <$> with_steps 5 READ 1%positive waker1 Async.Calling no_call) called =
    Some reading ∧
  s_futs (rt_sys reading) !! 5 = Some read_fut ∧
  run waker1 event_run reading = Some read_reported ∧
  in_flight (s_ph (rt_sys read_reported)) = [mkEvent 0 true false] ∧
  run waker1 end_run read_reported = Some read_ended ∧
  s_ph (rt_sys read_ended) = Idle (Ok tt) ∧ s_errs (rt_sys read_ended) = false ∧
  run waker1 ten_steps read_ended = Some (goes ten_steps read_ended) ∧
  count_moves waker1 ten_steps read_ended = 10%nat.
Proof. vm_compute. split_and!; exact eq_refl. Qed.
Lemma reading_reports : reports (rt_sys read_reported) (mkEvent 0 true false) read_fut.
Proof. vm_compute. split_and!; exact eq_refl. Qed.

Lemma reading_steps (e : RefEv) :
  e ∈ (event_run ++ end_run) ≫= sys_step → e = EReact None ∨ e = ERound.
Proof.
  change (e ∈ ([EReact None; ERound; ERound; ERound; ERound; ERound; ERound; ERound] : list RefEv) →
    e = EReact None ∨ e = ERound).
  rewrite !elem_of_cons, elem_of_nil. intuition.
Qed.

Lemma block_on_reads_witness :
  polls_in waker1 ((event_run ++ end_run) ++ ten_steps) reading.
Proof.
  destruct (block_on_reads waker1 0 READ ref_answer (Async.adapter []) (mkRefHandle 7 []) tt Async.Calling
              called 5 no_call called_reachable called_polling (answer_is_call _ _) adapter_handle
              eq_refl ltac:(discriminate) adapter_no_fut) as (b & w' & Hrun & Hk).
  assert (b.1 = Pending) as Hb.
  { pose proof Hrun as Hc. vm_compute in Hc. by injection Hc as <- _. }
  destruct reading_ran as (H1 & H2 & H3 & H4 & H5 & H6 & H7 & H8 & H9).
  destruct (Hk Hb) as (r1 & f & Hr1 & _ & _ & Hf & _ & _ & Hall).
  assert (r1 = reading) as -> by (cbn [Async.source Async.adapter] in Hr1; congruence).
  assert (f = read_fut) as -> by congruence.
  refine (Hall _ _ (mkEvent 0 true false) _ _ _ _ _ H3 _ reading_reports H5 H6 H7 _ _ H8 _).
  - rewrite H4. by left.
  - intros Hin. by destruct (reading_steps _ Hin).
  - intros cx Hin. by destruct (reading_steps _ Hin).
  - rewrite H9. lia.
Defined.

(** It waits for a timer; time passes, and its own round finds the timer due. *)
Definition before_react : list RefRtEv :=
  [Step false; Step false; Step false; Step false; Step false; Step false].
Definition due_run : list RefRtEv := Task (There false) (ECall (inl 9000%N)) :: before_react.
Definition timing : RefRt :=
  goes (Task Here <$> timer_steps (Timer.at_instant 5000) 5000 waker1
          (inl (ref_drift (w_env (s_w (rt_sys called)))))) called.
Definition timing_due : RefRt := goes due_run timing.
Definition timing_react : RefRt := default called (exec waker1 (React Here None) timing_due).
Definition timing_ended : RefRt := goes (replicate 7 (Round Here)) timing_react.

Lemma timing_ran :
  run waker1 (Task Here <$> timer_steps (Timer.at_instant 5000) 5000 waker1
      (inl (ref_drift (w_env (s_w (rt_sys called)))))) called = Some timing ∧
  run waker1 due_run timing = Some timing_due ∧
  5000 ≤ env_time (w_env (s_w (rt_sys timing_due))) ∧
  exec waker1 (React Here None) timing_due = Some timing_react ∧
  run waker1 (replicate 7 (Round Here)) timing_react = Some timing_ended ∧
  s_ph (rt_sys timing_ended) = Idle (Ok tt) ∧ s_errs (rt_sys timing_ended) = false ∧
  run waker1 ten_steps timing_ended = Some (goes ten_steps timing_ended) ∧
  count_moves waker1 ten_steps timing_ended = 10%nat.
Proof. vm_compute. split_and!; try exact eq_refl. discriminate. Qed.

Lemma block_on_timer_witness :
  polls_in waker1 ((due_run ++ React Here None :: replicate 7 (Round Here)) ++ ten_steps) timing.
Proof.
  assert (Timer.timer_ok (s_w (rt_sys called)) (Timer.at_instant 5000)) as Ht
    by (intros key k Hk; discriminate Hk).
  destruct (block_on_timer waker1 0 (Timer.at_instant 5000) 5000 called _ called_reachable
              called_polling adapter_ids Ht eq_refl (now_is_call _)) as (b & w' & Hrun & Hk).
  assert (b.1 = Pending) as Hb.
  { pose proof Hrun as Hc. vm_compute in Hc. by injection Hc as <- _. }
  destruct timing_ran as (H1 & H2 & H3 & H4 & H5 & H6 & H7 & H8 & H9).
  destruct (Hk Hb) as (r1 & id & Hr1 & _ & _ & _ & Hall).
  assert (r1 = timing) as -> by congruence.
  refine (Hall _ _ _ _ _ _ _ _ _ _ H2 _ H3 H4 H5 H6 H7 H8 _).
  - change (ERemoveTimer 5000 id ∉ [ECall (inl 9000%N) : System.Ev]).
    by intros [He|He%elem_of_nil]%elem_of_cons.
  - rewrite H9. lia.
Defined.





End Runtime.
