(* ===== verification/Evolve.v ===== *)
(** What every step of [System] keeps: the clock does not go back; only a round that goes on
    from its start bumps the ticker; a source that exists keeps its registration and its key
    (src/src/reactor.rs). *)
From S2P Require Import Prelude Std Deps Registration RefDeps World RefWorld Timers.
From S2P Require Import Source Reactor Ready System Steps Interleaving.
Import System.

(** A relation between environments that all calls respect. *)
Class Evolves {Reg Env} (R : relation Env) `{EnvOps Env, RegOps Reg Env, CallOps Reg Env}
    : Prop := {
  evolves_pre :: PreOrder R;
  evolves_now : ∀ e, R e (env_now e).2;
  evolves_wait : ∀ e d, R e (env_wait e d).2;
  evolves_notify : ∀ e, R e (env_notify e).2;
  evolves_add : ∀ (r : Reg) e k, R e (reg_add r e k).2;
  evolves_modify : ∀ (r : Reg) e ev, R e (reg_modify r e ev).2;
  evolves_delete : ∀ (r : Reg) e, R e (reg_delete r e).2;
  evolves_call : ∀ (c : Call Reg Env) e, R e (call_effect c e);
}.

(** Time passes; and anything may happen. *)
Definition no_earlier {Env} `{ClockLaws Env} : relation Env := λ e e', env_time e ≤ env_time e'.
Definition anything {Env} : relation Env := λ _ _, True.

#[export] Instance later_evolves {Reg Env} `{ClockLaws Env, RegOps Reg Env, CallOps Reg Env}
    `{!MonotoneLaws Reg Env} : Evolves (Reg := Reg) no_earlier.
Proof.
  split; unfold no_earlier; intros.
  - split; [by intros e|]. intros e e1 e2 ??. by etrans.
  - destruct (env_now e) as [t e'] eqn:He. by destruct (env_now_spec _ _ _ He) as [-> ?].
  - apply env_wait_time.
  - apply env_notify_time.
  - apply reg_add_time.
  - apply reg_modify_time.
  - apply reg_delete_time.
  - apply call_time.
Qed.

#[export] Instance anything_evolves {Reg Env} `{EnvOps Env, RegOps Reg Env, CallOps Reg Env}
  : Evolves (Reg := Reg) (anything (Env := Env)).
Proof. by split. Qed.

Section evolving.
Context {Slab Queue : Type → Type} {Reg Env : Type}.
Context `{SlabOps Slab, QueueOps Queue, EnvOps Env, RegOps Reg Env}.
Context `{EqDecision Reg, CallOps Reg Env}.
Context (R : relation Env) `{!Evolves (Reg := Reg) R}.
Local Abbreviation World := (World Slab Queue Reg Env).
Implicit Types (w : World).

Record evolved w w' : Prop := {
  evolved_env : R (w_env w) (w_env w');
  evolved_ticker : w_ticker w' = w_ticker w;
  evolved_ids : ∀ l src, w_heap w !! l = Some src →
    ∃ src', w_heap w' !! l = Some src' ∧ src_id src' = src_id src;
}.

#[export] Instance evolved_preorder : PreOrder evolved.
Proof.
  split; [intros w; split; by eauto|]. intros w w1 w2 [He Ht Hi] [He' Ht' Hi'].
  split; [by etrans|congruence|]. intros l src Hl. destruct (Hi _ _ Hl) as (src1 & Hl1 & Hs1).
  destruct (Hi' _ _ Hl1) as (src2 & Hl2 & Hs2). exists src2. split; [done|congruence].
Qed.

Lemma evolved_same w w' :
  w_env w' = w_env w → w_ticker w' = w_ticker w → w_heap w' = w_heap w → evolved w w'.
Proof. intros He Ht Hh. split; rewrite ?He, ?Ht, ?Hh; by eauto. Qed.

(** A computation that does what every step may do. *)
Definition evolving {A} (m : M World A) : Prop := ∀ w a w', m w = Ret (a, w') → evolved w w'.

Lemma evolving_ret {A} (a : A) : evolving (mret a).
Proof. by intros w b w' [= _ ->]. Qed.

Lemma evolving_bind {A B} (m : M World A) (f : A → M World B) :
  evolving m → (∀ a, evolving (f a)) → evolving (m ≫= f).
Proof. intros Hm Hf w b w' Hrun. ret_inv Hrun. etrans; [by eapply Hm|by eapply Hf]. Qed.

Lemma evolving_gets {A} (f : World → A) : evolving (gets f).
Proof. by intros w a w' [= _ ->]. Qed.

Lemma evolving_modify (f : World → World) : (∀ w, evolved w (f w)) → evolving (modify f).
Proof. intros Hf w a w' [= _ <-]. apply Hf. Qed.

Lemma evolving_unwrap {A} (o : option A) : evolving (unwrap o).
Proof. destruct o; [apply evolving_ret|done]. Qed.

Lemma evolving_env_call {A} (f : Env → A * Env) : (∀ e, R e (f e).2) → evolving (env_call f).
Proof.
  intros Hf w a w'. unfold env_call. specialize (Hf (w_env w)).
  destruct (f (w_env w)). intros [= _ <-]. split; by eauto.
Qed.

Lemma evolving_store_state l st : evolving (store_state l st).
Proof.
  apply evolving_modify. intros w. split; [done|done|]. intros l' src Hl. cbn.
  destruct (decide (l = l')) as [<-|Hne].
  - rewrite lookup_alter_eq, Hl. cbn. by eexists.
  - rewrite lookup_alter_ne by done. by exists src.
Qed.

(** A new source is put where there was none. *)
Lemma evolving_insert_io_entry raw : evolving (insert_io_entry raw).
Proof.
  intros w a w' Hrun. unfold insert_io_entry in Hrun. cbn in Hrun. injection Hrun as _ <-.
  split; [done|done|]. intros l src Hl. cbn. rewrite lookup_insert_ne; [by exists src|].
  intros Heq. apply (is_fresh (dom (w_heap w))). rewrite Heq. by apply elem_of_dom_2 in Hl.
Qed.
End evolving.

(** Proves [evolving] of a body made of such steps. *)
Create HintDb evolving discriminated.
#[export] Hint Resolve evolving_ret evolving_gets evolving_unwrap evolving_store_state
  evolving_insert_io_entry : evolving.
Ltac evolve_call :=
  first [apply evolves_now | apply evolves_wait | apply evolves_notify | apply evolves_add
        | apply evolves_modify | apply evolves_delete].
Ltac evolve_step :=
  match goal with
  | |- evolving _ (mbind _ _) => apply evolving_bind; [exact _| |intros ?]
  | |- evolving _ (modify _) => apply evolving_modify; intros ?; apply evolved_same; first [exact _ | done]
  | |- evolving _ (env_call _) => apply evolving_env_call; intros ?; evolve_call
  | |- evolving _ (match ?x with _ => _ end) => destruct x
  | |- evolving _ (let _ := _ in _) => cbv zeta
  | |- evolving _ _ => solve [eauto with evolving typeclass_instances]
  end.
Ltac evolve := repeat evolve_step.

Section steps.
Context {Slab Queue : Type → Type} {Reg Env : Type}.
Context `{SlabOps Slab, QueueOps Queue, EnvOps Env, RegOps Reg Env}.
Context `{EqDecision Reg, CallOps Reg Env}.
Context (R : relation Env) `{!Evolves (Reg := Reg) R}.
Local Abbreviation World := (World Slab Queue Reg Env).
Local Abbreviation Sys := (Sys (Slab := Slab) (Queue := Queue) (Reg := Reg) (Env := Env)).
Local Abbreviation Ev := (Ev (Reg := Reg) (Env := Env)).
Local Abbreviation evolving := (evolving (Slab := Slab) (Queue := Queue) (Reg := Reg) (Env := Env) R).
Implicit Types (w : World) (s : Sys).

(** ** The operations *)

Lemma evolving_load_source l : evolving (load_source l).
Proof. unfold load_source. evolve. Qed.
Lemma evolving_now : evolving now.
Proof. unfold now. evolve. Qed.
Lemma evolving_wake k : evolving (wake k).
Proof. unfold wake. evolve. Qed.
#[local] Hint Resolve evolving_load_source evolving_now evolving_wake : evolving.

Lemma evolving_process_timer_ops : evolving process_timer_ops.
Proof.
  unfold process_timer_ops. evolve. generalize (Z.to_nat a0). intros n.
  induction n as [|n IH]; cbn [process_timer_ops_take]; evolve; try done.
  unfold apply_timer_op. evolve.
Qed.
#[local] Hint Resolve evolving_process_timer_ops : evolving.

Lemma evolving_push fuel op : evolving (push_timer_op fuel op).
Proof. induction fuel as [|fuel IH]; cbn [push_timer_op]; evolve; done. Qed.
Lemma evolving_notify : evolving notify.
Proof. unfold notify. evolve; done. Qed.
#[local] Hint Resolve evolving_push evolving_notify : evolving.

Lemma evolving_process_timers wakers : evolving (process_timers wakers).
Proof. unfold process_timers. evolve. Qed.
Lemma evolving_update_interest l st b : evolving (update_interest l st b).
Proof. unfold update_interest. evolve. Qed.
#[local] Hint Resolve evolving_process_timers evolving_update_interest : evolving.

Lemma evolving_poll_ready l d cx : evolving (poll_ready l d cx).
Proof. unfold poll_ready. evolve. Qed.
Lemma evolving_ready_poll f cx : evolving (ready_poll f cx).
Proof. unfold ready_poll. evolve. Qed.
Lemma evolving_ready_drop f : evolving (ready_drop f).
Proof. unfold ready_drop. evolve. Qed.
Lemma evolving_insert_io_register l : evolving (insert_io_register l).
Proof. unfold insert_io_register. evolve. Qed.
Lemma evolving_remove_io l : evolving (remove_io l).
Proof. unfold remove_io. evolve. Qed.
Lemma evolving_push_timer t k : evolving (push_timer t k).
Proof. unfold push_timer. evolve. Qed.
Lemma evolving_remove_timer t id : evolving (remove_timer t id).
Proof. unfold remove_timer. evolve. Qed.
Lemma evolving_round_start timeout : evolving (round_start timeout).
Proof. unfold round_start, react_prepare. evolve. Qed.
Lemma evolving_react_event tick ev wakers : evolving (react_event tick ev wakers).
Proof. unfold react_event. evolve. Qed.
#[local] Hint Resolve evolving_poll_ready evolving_ready_poll evolving_ready_drop
  evolving_insert_io_register evolving_remove_io evolving_push_timer evolving_remove_timer
  evolving_round_start evolving_react_event : evolving.

Lemma evolving_round_step ph : stage ph ≠ 6%nat → evolving (round_step ph).
Proof. intros Hph. destruct ph; try done; cbn [round_step]; evolve. Qed.

(** ** The steps *)

Lemma effect_evolving {A} (m : M World A) w p : evolving m → effect m w = Some p → evolved R w p.2.
Proof.
  intros Hm. unfold effect. destruct (m w) as [[a w']| |] eqn:Hrun; [|done..].
  intros [= <-]. by eapply Hm.
Qed.

(** A step evolves the world, or bumps the ticker for a round that has just started. *)
Lemma exec_evolves e s s' :
  exec e s = Some s' →
  evolved R (s_w s) (s_w s') ∨
  e = ERound ∧ stage (s_ph s) = 6%nat ∧ ∃ t, s_w s' = set_ticker t (s_w s).
Proof.
  intros He. unfold exec in He. case_decide as Hg; [|done]. destruct e.
  all: try match type of He with (_ !! _) ≫= _ = Some _ => apply bind_Some in He as (? & _ & He) end.
  all: try (apply bind_Some in He as ([? ?] & Heff & He)).
  all: try (left; apply effect_evolving in Heff; [|by eauto with evolving typeclass_instances]; try case_match; by simplify_eq).
  - left. by simplify_eq.
  - left. injection He as <-. split; [apply evolves_call|done|]. by eauto.
  - destruct (decide (stage (s_ph s) = 6%nat)) as [Hst|Hst]; [right|left].
    + split_and!; [done..|]. destruct (s_ph s); try done. unfold effect in Heff.
      cbn in Heff. injection Heff as <- <-. injection He as <-. by eexists.
    + apply effect_evolving in Heff; [|by apply evolving_round_step]. by simplify_eq.
Qed.

Lemma run_evolves evs s s' :
  run evs s = Some s' →
  R (w_env (s_w s)) (w_env (s_w s')) ∧
  ∀ l src, w_heap (s_w s) !! l = Some src →
    ∃ src', w_heap (s_w s') !! l = Some src' ∧ src_id src' = src_id src.
Proof.
  revert s. induction evs as [|e evs IH]; intros s Hrun; cbn in Hrun.
  { simplify_eq. split; [done|]. by eauto. }
  apply bind_Some in Hrun as (s1 & He & Hrun). destruct (IH _ Hrun) as [Henv Hids].
  destruct (exec_evolves _ _ _ He) as [[Henv1 _ Hids1]|(_ & _ & t & Hw)].
  - split; [by etrans|]. intros l src Hl. destruct (Hids1 _ _ Hl) as (src1 & Hl1 & Hs1).
    destruct (Hids _ _ Hl1) as (src2 & Hl2 & Hs2). exists src2. split; [done|congruence].
  - rewrite Hw in Henv, Hids. by split.
Qed.
End steps.

(** ** The clock *)

Section clock.
Context {Slab Queue : Type → Type} {Reg Env : Type}.
Context `{SlabOps Slab, QueueOps Queue, EnvOps Env, RegOps Reg Env}.
Context `{EqDecision Reg, CallOps Reg Env, !ClockLaws Env, !MonotoneLaws Reg Env}.
Local Abbreviation Sys := (Sys (Slab := Slab) (Queue := Queue) (Reg := Reg) (Env := Env)).
Implicit Types s : Sys.

(** A step leaves the ticker, unless it is the second one of a round. *)
Lemma exec_ticker e s s' :
  exec e s = Some s' →
  w_ticker (s_w s') = w_ticker (s_w s) ∨ e = ERound ∧ stage (s_ph s) = 6%nat.
Proof.
  intros He. destruct (exec_evolves anything _ _ _ He) as [[_ Ht _]|(-> & Hst & _)]; auto.
Qed.

Lemma run_time evs s s' :
  run evs s = Some s' → env_time (w_env (s_w s)) ≤ env_time (w_env (s_w s')).
Proof. intros Hrun. by destruct (run_evolves no_earlier _ _ _ Hrun) as [Ht _]. Qed.
End clock.
