(* ===== verification/Safe.v ===== *)
(** The trait [IoSafe] (src/src/lib.rs), what it is for, and the types that implement it:
    references, boxes, the types of the standard library that src/build.rs lets the crate
    name, and the wrapper of src/examples/windows-uds.rs. *)
From S2P Require Import Prelude Std Deps Registration RefDeps World RefWorld Timers.
From S2P Require Import Source Reactor Ready Async System Steps Interleaving Progress.
From S2P Require Import Tasks Adapters Evolve.
Import System Async.

Module Safe.

(** * The trait *)

Section trait.
  Context {Reg Env T : Type} `{CallOps Reg Env, HandleOps T Env}.

(** An operation that does not drop the source: the handle it leaves has the descriptor of
    the one it was given, which it has not closed. *)
Definition keeps_source {S R : Type} (op : T → S → Env → (io_result R * (T * S)) * Env) : Prop :=
  ∀ i x e, as_raw (op i x e).1.2.1 = as_raw i ∧
    ∃ c : Call Reg Env, call_closes c = None ∧ (op i x e).2 = call_effect c e.

(** [unsafe trait IoSafe]: the implementations of the I/O traits must not drop the source. *)
Class IoSafe `{ReadWriteOps T Env} : Prop := {
  safe_read : keeps_source rw_read;
  safe_read_vectored : keeps_source rw_read_vectored;
  safe_write : keeps_source rw_write;
  safe_write_vectored : keeps_source rw_write_vectored;
  safe_flush : keeps_source rw_flush;
}.

(** The operations of a shared reference [&T] cannot drop what is only borrowed. *)
Definition borrows {S R : Type} (op : T → S → Env → (io_result R * S) * Env) : Prop :=
  ∀ i x e, ∃ c : Call Reg Env, call_closes c = None ∧ (op i x e).2 = call_effect c e.

Class RefLaws `{RefReadWriteOps T Env} : Prop := {
  borrows_read : borrows ref_read;
  borrows_read_vectored : borrows ref_read_vectored;
  borrows_write : borrows ref_write;
  borrows_write_vectored : borrows ref_write_vectored;
  borrows_flush : borrows ref_flush;
}.
End trait.
Arguments IoSafe Reg Env T {_ _ _}.
Arguments RefLaws Reg Env T {_ _}.
Arguments keeps_source Reg {Env T _ _ S R} op.
Arguments borrows Reg {Env T _ S R} op.

(** * Implementations *)

(** ** References and boxes *)

(** [&T], [&mut T] and [Box<T>]: only the box owns the handle, and closes it. *)
Record Ref (T : Type) : Type := mkRef { ref_get : T }.
Record RefMut (T : Type) : Type := mkRefMut { ref_mut_get : T }.
Record Box (T : Type) : Type := mkBox { box_get : T }.
Arguments mkRef {T}. Arguments ref_get {T}.
Arguments mkRefMut {T}. Arguments ref_mut_get {T}.
Arguments mkBox {T}. Arguments box_get {T}.

(** An operation on what a type [U] contains. *)
Definition forward {Env T U S R : Type} (get : U → T) (mk : T → U)
    (op : T → S → Env → (io_result R * (T * S)) * Env)
    : U → S → Env → (io_result R * (U * S)) * Env :=
  λ u x e, let '((res, (i, x)), e) := op (get u) x e in ((res, (mk i, x)), e).

Section wrappers.
  Context {Env T : Type} `{HandleOps T Env}.

#[export] Instance Ref_handle : HandleOps (Ref T) Env :=
  {| as_raw := λ r, as_raw (ref_get r); close := λ _ e, e |}.
#[export] Instance RefMut_handle : HandleOps (RefMut T) Env :=
  {| as_raw := λ r, as_raw (ref_mut_get r); close := λ _ e, e |}.
#[export] Instance Box_handle : HandleOps (Box T) Env :=
  {| as_raw := λ b, as_raw (box_get b); close := λ b e, close (box_get b) e |}.

#[export] Instance Ref_rw `{RefReadWriteOps T Env} : ReadWriteOps (Ref T) Env := {|
  rw_read := by_ref (λ r, ref_read (ref_get r));
  rw_read_vectored := by_ref (λ r, ref_read_vectored (ref_get r));
  rw_write := by_ref (λ r, ref_write (ref_get r));
  rw_write_vectored := by_ref (λ r, ref_write_vectored (ref_get r));
  rw_flush := by_ref (λ r, ref_flush (ref_get r));
|}.
#[export] Instance RefMut_rw `{ReadWriteOps T Env} : ReadWriteOps (RefMut T) Env := {|
  rw_read := forward ref_mut_get mkRefMut rw_read;
  rw_read_vectored := forward ref_mut_get mkRefMut rw_read_vectored;
  rw_write := forward ref_mut_get mkRefMut rw_write;
  rw_write_vectored := forward ref_mut_get mkRefMut rw_write_vectored;
  rw_flush := forward ref_mut_get mkRefMut rw_flush;
|}.
#[export] Instance Box_rw `{ReadWriteOps T Env} : ReadWriteOps (Box T) Env := {|
  rw_read := forward box_get mkBox rw_read;
  rw_read_vectored := forward box_get mkBox rw_read_vectored;
  rw_write := forward box_get mkBox rw_write;
  rw_write_vectored := forward box_get mkBox rw_write_vectored;
  rw_flush := forward box_get mkBox rw_flush;
|}.
End wrappers.

Section wrapper_facts.
  Context {Reg Env T : Type} `{CallOps Reg Env, HandleOps T Env}.

Lemma forward_keeps {U S R} `{HandleOps U Env} (get : U → T) (mk : T → U)
    (op : T → S → Env → (io_result R * (T * S)) * Env) :
  (∀ u, as_raw u = as_raw (get u)) → (∀ i, get (mk i) = i) →
  keeps_source Reg op → keeps_source Reg (forward get mk op).
Proof.
  intros Hraw Hget Hop u x e. destruct (Hop (get u) x e) as (Hi & c & Hc & He). unfold forward.
  destruct (op (get u) x e) as [[res [i x']] e']. cbn in *.
  split; [by rewrite !Hraw, Hget|by exists c].
Qed.

Lemma by_ref_keeps {U S R} `{HandleOps U Env} (op : U → S → Env → (io_result R * S) * Env) :
  borrows Reg op → keeps_source Reg (by_ref op).
Proof.
  intros Hop u x e. destruct (Hop u x e) as (c & Hc & He). unfold by_ref.
  destruct (op u x e) as [[res x'] e']. cbn in *. split; [done|by exists c].
Qed.

#[export] Instance Ref_safe `{RefReadWriteOps T Env, !RefLaws Reg Env T} : IoSafe Reg Env (Ref T).
Proof.
  split; apply by_ref_keeps; intros r; [apply borrows_read|apply borrows_read_vectored
    |apply borrows_write|apply borrows_write_vectored|apply borrows_flush].
Qed.
#[export] Instance RefMut_safe `{ReadWriteOps T Env, !IoSafe Reg Env T} : IoSafe Reg Env (RefMut T).
Proof.
  split; (apply forward_keeps; [done|done|]); [apply safe_read|apply safe_read_vectored
    |apply safe_write|apply safe_write_vectored|apply safe_flush].
Qed.
#[export] Instance Box_safe `{ReadWriteOps T Env, !IoSafe Reg Env T} : IoSafe Reg Env (Box T).
Proof.
  split; (apply forward_keeps; [done|done|]); [apply safe_read|apply safe_read_vectored
    |apply safe_write|apply safe_write_vectored|apply safe_flush].
Qed.
End wrapper_facts.

(** ** Types of the standard library *)

(** Those the crate names. *)
Inductive StdType : Type :=
  | File | Stderr | Stdin | Stdout | StderrLock | StdinLock | StdoutLock | TcpStream
  | ChildStdin | ChildStdout | ChildStderr
  | UnixStream                    (* on Unix *)
  | PipeReader | PipeWriter.      (* unless [async_io_no_pipe] *)

(** The build script: [async_io_no_pipe] is set by a compiler older than 1.87, if its version
    is known. *)
Definition build_main (rustc : option (Z * Z)) : bool :=
  match rustc with
  | None => false
  | Some (major, minor) => negb ((1 <? major) || ((major =? 1) && (87 <=? minor)))
  end.

Definition io_safe_std (unix no_pipe : bool) (t : StdType) : bool :=
  match t with
  | UnixStream => unix
  | PipeReader | PipeWriter => negb no_pipe
  | _ => true
  end.

(** A value of such a type owns a descriptor, which its methods do not replace. *)
Record StdHandle : Type := mkStd { std_type : StdType; std_fd : Z }.

Class StdOps (Env : Type) : Type := {
  std_read : StdType → Z → list Z → Env → (io_result Z * list Z) * Env;
  std_read_vectored : StdType → Z → list (list Z) → Env → (io_result Z * list (list Z)) * Env;
  std_write : StdType → Z → list Z → Env → (io_result Z * list Z) * Env;
  std_write_vectored : StdType → Z → list (list Z) → Env → (io_result Z * list (list Z)) * Env;
  std_flush : StdType → Z → unit → Env → (io_result unit * unit) * Env;
  std_close : Z → Env → Env;
}.

Section std.
  Context {Reg Env : Type} `{CallOps Reg Env, StdOps Env}.

#[export] Instance Std_handle : HandleOps StdHandle Env :=
  {| as_raw := std_fd; close := λ h e, std_close (std_fd h) e |}.
#[export] Instance Std_rw : ReadWriteOps StdHandle Env := {|
  rw_read := by_ref (λ h, std_read (std_type h) (std_fd h));
  rw_read_vectored := by_ref (λ h, std_read_vectored (std_type h) (std_fd h));
  rw_write := by_ref (λ h, std_write (std_type h) (std_fd h));
  rw_write_vectored := by_ref (λ h, std_write_vectored (std_type h) (std_fd h));
  rw_flush := by_ref (λ h, std_flush (std_type h) (std_fd h));
|}.

(** They are calls of the operating system that close nothing. *)
Class StdLaws : Prop := {
  std_read_call : borrows Reg (λ h, std_read (std_type h) (std_fd h));
  std_read_vectored_call : borrows Reg (λ h, std_read_vectored (std_type h) (std_fd h));
  std_write_call : borrows Reg (λ h, std_write (std_type h) (std_fd h));
  std_write_vectored_call : borrows Reg (λ h, std_write_vectored (std_type h) (std_fd h));
  std_flush_call : borrows Reg (λ h, std_flush (std_type h) (std_fd h));
}.

#[export] Instance Std_safe `{!StdLaws} : IoSafe Reg Env StdHandle.
Proof.
  split; apply by_ref_keeps; [apply std_read_call|apply std_read_vectored_call
    |apply std_write_call|apply std_write_vectored_call|apply std_flush_call].
Qed.
End std.

(** ** The wrappers of the [windows-uds] example *)

(** [struct UnixListener(uds_windows::UnixListener)] and [struct UnixStream(..)], with
    [From] and [Deref]. *)
Record UdsListener (T : Type) : Type := uds_listener_from { uds_listener_deref : T }.
Record UdsStream (T : Type) : Type := uds_stream_from { uds_stream_deref : T }.
Arguments uds_listener_from {T}. Arguments uds_listener_deref {T}.
Arguments uds_stream_from {T}. Arguments uds_stream_deref {T}.

(** What [read_vectored] and [write_vectored] are by default: [read] and [write] of the first
    buffer that is not empty. *)
Fixpoint first_buffer (bufs : list (list Z)) : option (list (list Z) * list Z * list (list Z)) :=
  match bufs with
  | [] => None
  | [] :: bufs =>
      '(before, buf, after) ← first_buffer bufs;
      Some ([] :: before, buf, after)
  | buf :: bufs => Some ([], buf, bufs)
  end.

Definition default_vectored {T Env R : Type}
    (op : T → list Z → Env → (io_result R * (T * list Z)) * Env)
    : T → list (list Z) → Env → (io_result R * (T * list (list Z))) * Env :=
  λ i bufs e,
    match first_buffer bufs with
    | Some (before, buf, after) =>
        let '((res, (i, buf)), e) := op i buf e in ((res, (i, before ++ buf :: after)), e)
    | None => let '((res, (i, _)), e) := op i [] e in ((res, (i, bufs)), e)
    end.

Section uds.
  Context {Reg Env T : Type} `{CallOps Reg Env, HandleOps T Env, ReadWriteOps T Env}.

#[export] Instance UdsListener_handle : HandleOps (UdsListener T) Env :=
  {| as_raw := λ l, as_raw (uds_listener_deref l); close := λ l e, close (uds_listener_deref l) e |}.
#[export] Instance UdsStream_handle : HandleOps (UdsStream T) Env :=
  {| as_raw := λ s, as_raw (uds_stream_deref s); close := λ s e, close (uds_stream_deref s) e |}.

Definition uds_read := forward (Env := Env) uds_stream_deref (uds_stream_from (T := T)) rw_read.
Definition uds_write := forward (Env := Env) uds_stream_deref (uds_stream_from (T := T)) rw_write.
Definition uds_flush := forward (Env := Env) uds_stream_deref (uds_stream_from (T := T)) rw_flush.

#[export] Instance UdsStream_rw : ReadWriteOps (UdsStream T) Env := {|
  rw_read := uds_read;
  rw_read_vectored := default_vectored uds_read;
  rw_write := uds_write;
  rw_write_vectored := default_vectored uds_write;
  rw_flush := uds_flush;
|}.

(** The stream of [uds_windows] has no method that replaces its socket. *)
Class UdsLaws : Prop := {
  uds_read_keeps : keeps_source (T := T) Reg rw_read;
  uds_write_keeps : keeps_source (T := T) Reg rw_write;
  uds_flush_keeps : keeps_source (T := T) Reg rw_flush;
}.

Lemma default_vectored_keeps {U R} `{HandleOps U Env}
    (op : U → list Z → Env → (io_result R * (U * list Z)) * Env) :
  keeps_source Reg op → keeps_source Reg (default_vectored op).
Proof.
  intros Hop i bufs e. unfold default_vectored.
  destruct (first_buffer bufs) as [[[before buf] after]|]; [set (b := buf)|set (b := [])];
    destruct (Hop i b e) as (Hi & c & Hc & He); destruct (op i b e) as [[res [i' buf']] e'];
    cbn in *; (split; [done|by exists c]).
Qed.

#[export] Instance UdsStream_safe `{!UdsLaws} : IoSafe Reg Env (UdsStream T).
Proof.
  split; try apply default_vectored_keeps; (apply forward_keeps; [done|done|]);
    [apply uds_read_keeps|apply uds_read_keeps|apply uds_write_keeps|apply uds_write_keeps
    |apply uds_flush_keeps].
Qed.
End uds.

(** * The life of an adapter *)

(** The methods of [AsyncRead] and [AsyncWrite]. *)
Inductive IoCall : Type :=
  | PollRead (buf : list Z)
  | PollReadVectored (bufs : list (list Z))
  | PollWrite (buf : list Z)
  | PollWriteVectored (bufs : list (list Z))
  | PollFlush
  | PollClose.

Section life.
Context {Slab Queue : Type → Type} {Reg Env T : Type}.
Context `{SlabOps Slab, QueueOps Queue, EnvOps Env, RegOps Reg Env, RegNew Reg}.
Context `{EqDecision Reg, CallOps Reg Env, HandleOps T Env, ReadWriteOps T Env}.
Local Abbreviation World := (World Slab Queue Reg Env).
Local Abbreviation Sys := (Sys (Slab := Slab) (Queue := Queue) (Reg := Reg) (Env := Env)).
Local Abbreviation Ev := (Ev (Reg := Reg) (Env := Env)).

(** The adapter after a poll. *)
Definition call_poll (c : IoCall) (a : Async T) (cx : Waker) : M World (Async T) :=
  match c with
  | PollRead buf => '(_, (a, _)) ← poll_read a buf cx; mret a
  | PollReadVectored bufs => '(_, (a, _)) ← poll_read_vectored a bufs cx; mret a
  | PollWrite buf => '(_, (a, _)) ← poll_write a buf cx; mret a
  | PollWriteVectored bufs => '(_, (a, _)) ← poll_write_vectored a bufs cx; mret a
  | PollFlush => '(_, (a, _)) ← poll_flush a tt cx; mret a
  | PollClose => '(_, (a, _)) ← poll_close a tt cx; mret a
  end.

(** An adapter that is polled while other things happen, of which dropping it is none. *)
Inductive life (a0 : Async T) (s0 : Sys) : Async T → Sys → Prop :=
  | life_start : life a0 s0 a0 s0
  | life_others a s evs s' :
      life a0 s0 a s → run evs s = Some s' → ERemove (source a) ∉ evs → life a0 s0 a s'
  | life_poll a s c cx a' evs s' :
      life a0 s0 a s → call_poll c a cx (s_w s) = Ret (a', s_w s') →
      run evs s = Some s' → (∃ dir, Forall (poll_step (source a) dir cx) evs) →
      life a0 s0 a' s'.

(** The adapter is alive, its handle has the descriptor [fd], and the source is registered
    under it. *)
Definition held (a : Async T) (fd : Z) (s : Sys) : Prop :=
  source a ∈ s_handles s ∧ (∃ i, io a = Some i ∧ as_raw i = fd) ∧
  ∃ src, w_heap (s_w s) !! source a = Some src ∧ src_registration src = registration_new fd.
End life.

(** * Facts *)

Section facts.
Context {Slab Queue : Type → Type} {Reg Env T : Type}.
Context `{SlabOps Slab, QueueOps Queue, EnvOps Env, RegOps Reg Env, RegNew Reg}.
Context `{!SlabLaws Slab, !QueueLaws Queue, !ClockLaws Env, !NotifyLaws Env, !RegLaws Reg Env}.
Context `{EqDecision Reg, CallOps Reg Env, !CallLaws Reg Env, HandleOps T Env}.
Local Abbreviation World := (World Slab Queue Reg Env).
Local Abbreviation Sys := (Sys (Slab := Slab) (Queue := Queue) (Reg := Reg) (Env := Env)).
Local Abbreviation Ev := (Ev (Reg := Reg) (Env := Env)).
Implicit Types (s : Sys) (a : Async T).

(** An adapter stays alive until it is removed. *)
Lemma run_handles evs s s' l :
  run evs s = Some s' → ERemove l ∉ evs → l ∈ s_handles s → l ∈ s_handles s'.
Proof.
  revert s. induction evs as [|ev evs IH]; intros s Hrun Hne Hl; cbn in Hrun; [by simplify_eq|].
  apply bind_Some in Hrun as (s1 & He & Hrun). apply not_elem_of_cons in Hne as [Hev Hne].
  apply (IH s1); [done|done|]. unfold exec in He. case_decide; [|done]. destruct ev.
  all: try match type of He with (_ !! _) ≫= _ = Some _ => apply bind_Some in He as (? & _ & He) end.
  all: try (apply bind_Some in He as ([? ?] & _ & He)).
  all: repeat case_match; simplify_eq; cbn; set_solver.
Qed.

Lemma held_run a fd evs s s' :
  held a fd s → run evs s = Some s' → ERemove (source a) ∉ evs → held a fd s'.
Proof.
  intros (Hin & Hio & src & Hl & Hreg) Hrun Hne. split; [by eapply run_handles|]. split; [done|].
  destruct (run_evolves anything _ _ _ Hrun) as [_ Hids].
  destruct (Hids _ _ Hl) as (src' & Hl' & Hid). exists src'. split; [done|].
  unfold src_id in Hid. congruence.
Qed.

(** Calls that keep the source keep its descriptor. *)
Lemma op_calls_raw {S R} (op : T → S → Env → (io_result R * (T * S)) * Env) n i x e res i' x' e' :
  keeps_source Reg op → op_calls op n i x e res i' x' e' → as_raw i' = as_raw i.
Proof.
  intros Hop. induction 1 as [i x e res i' x' e' He|n i x e i1 x1 e1 res i' x' e' He _ IH];
    destruct (Hop i x e) as [Hi _]; rewrite He in Hi; cbn in Hi; congruence.
Qed.

Lemma poll_step_keeps (l : loc) dir cx (evs : list Ev) :
  Forall (poll_step l dir cx) evs → ERemove l ∉ evs.
Proof. intros Hall Hin. rewrite Forall_forall in Hall. by destruct (Hall _ Hin) as [|[c ?]]. Qed.

(** What a poll leaves. *)
Definition poll_held fd s (l : loc) cx (a' : Async T) (w' : World) : Prop :=
  source a' = l ∧ (∃ i, io a' = Some i ∧ as_raw i = fd) ∧
  ∃ evs s' dir, run evs s = Some s' ∧ Forall (poll_step l dir cx) evs ∧ s_w s' = w'.

Lemma io_poll_held {S R} dir (op : T → S → Env → (io_result R * (T * S)) * Env) a x cx fd s :
  keeps_source Reg op → held a fd s →
  wp (io_poll IO_FUEL dir op a x cx) (λ b w', poll_held fd s (source a) cx b.2.1 w') (s_w s).
Proof.
  intros Hop (Hin & (i & Hi & Hraw) & src & Hl & _).
  destruct (io_poll_wp dir op a i x cx (s_w s) src Hi Hl) as ([r [a' x']] & w' & Hrun & n & Hp & _).
  destruct Hp as (res & i' & e' & Hcalls & -> & _). exists (r, (mkAsync (source a) (Some i'), x')), w'.
  split; [done|]. split; [done|]. split.
  { exists i'. split; [done|]. rewrite <- Hraw. by eapply op_calls_raw. }
  destruct (io_poll_steps op (λ i x e, proj2 (Hop i x e)) _ _ _ _ _ _ _ _ _ Hin Hi Hrun)
    as (evs & s' & Hrun' & Hsteps & Hw & _).
  by exists evs, s', dir.
Qed.

Context `{ReadWriteOps T Env, !IoSafe Reg Env T}.

Lemma call_poll_held c a cx fd s :
  held a fd s → wp (call_poll c a cx) (poll_held fd s (source a) cx) (s_w s).
Proof.
  intros Hh. destruct c; cbn [call_poll]; apply wp_bind;
    (eapply wp_mono; [apply io_poll_held; [|exact Hh]|intros [? [? ?]] ? ?; by apply wp_ret]);
    [apply safe_read|apply safe_read_vectored|apply safe_write|apply safe_write_vectored
    |apply safe_flush|apply safe_flush].
Qed.

Lemma life_held a0 s0 fd a s :
  life a0 s0 a s → sys_ok s0 → held a0 fd s0 → sys_ok s ∧ held a fd s ∧ source a = source a0.
Proof.
  intros Hlife Hok0 Hh0. induction Hlife as [|a s evs s' _ IH Hrun Hne|a s c cx a' evs s' _ IH Hp Hrun [dir Hsteps]];
    [done| |]; destruct IH as (Hok & Hh & Hsrc).
  - split_and!; [by eapply run_ok|by eapply held_run|done].
  - destruct (wp_det _ _ _ _ _ (call_poll_held c a cx fd s Hh) Hp) as (Hsrc' & Hio & _).
    destruct (held_run _ _ _ _ _ Hh Hrun (poll_step_keeps _ _ _ _ Hsteps)) as (Hin & _ & Hreg).
    split_and!; [by eapply run_ok| |congruence]. unfold held. by rewrite Hsrc'.
Qed.

(** * Properties *)

(** C18 What [IoSafe] is for: if the I/O operations of a handle keep their source, then through
    any polls of [AsyncRead] and [AsyncWrite], and whatever tasks and rounds do in between,
    the adapter stays registered under the descriptor its handle had when it was created; a
    poll is always possible; and when the adapter is dropped the descriptor that is
    deregistered is the one that is closed, as it is the one [into_inner] gives back. *)
Theorem io_safe_life (a0 : Async T) (s0 : Sys) (fd : Z) (a : Async T) (s : Sys)
    (Hs0 : reachable s0) (Hheld : held a0 fd s0) (Hlife : life a0 s0 a s) :
  held a fd s ∧ source a = source a0 ∧
  (∀ c cx, wp (call_poll c a cx) (λ a' w', ∃ s', s_w s' = w' ∧ life a0 s0 a' s') (s_w s)) ∧
  wp (drop a) (λ _ w', ∃ i, io a = Some i ∧ as_raw i = fd ∧
    w_env w' = close i (reg_delete (registration_new fd : Reg) (w_env (s_w s))).2) (s_w s) ∧
  wp (into_inner a) (λ r _, ∀ i, r = Ok i → as_raw i = fd) (s_w s).
Proof.
  destruct (life_held _ _ fd _ _ Hlife (sys_ok_reachable _ Hs0) Hheld) as (Hok & Hh & Hsrc).
  pose proof Hh as (Hin & (i & Hi & Hraw) & src & Hl & Hreg).
  destruct (ok_registered _ Hok (source a)) as (src' & Hl' & Hk); [set_solver|].
  assert (src' = src) as -> by congruence. split_and!; [done|done| | |].
  - intros c cx. destruct (call_poll_held c a cx fd s Hh) as (a' & w' & Hp & Hheld').
    pose proof Hheld' as (_ & _ & evs & s' & dir & Hrun & Hsteps & Hw). exists a', w'.
    split; [done|]. exists s'. split; [done|].
    eapply (life_poll _ _ a s c cx a' evs s'); [done|by rewrite Hw|done|by exists dir].
  - eapply async_drop_wp; [done..|]. intros w' _ Henv _. exists i. rewrite Henv, Hreg. done.
  - eapply into_inner_wp; [done..|]. intros r w' _ _. destruct (reg_delete _ _) as [res e].
    intros Hr i' ->. destruct Hr as (_ & -> & _). done.
Qed.
End facts.

(** * Witnesses *)

(** Handles of the reference environment keep their source: a call is one of no time. *)
Lemma ref_answer_keeps {S : Type} : keeps_source (S := S) Unix.Registration ref_answer.
Proof.
  intros i x e. unfold ref_answer.
  destruct (rh_answers i) as [|r l]; (split; [done|]); exists (inl 0%N); (split; [done|]);
    symmetry; apply ref_advance_0.
Qed.

#[export] Instance RefHandle_rw : ReadWriteOps RefHandle RefEnv := {|
  rw_read := ref_answer;
  rw_read_vectored := ref_answer;
  rw_write := ref_answer;
  rw_write_vectored := ref_answer;
  rw_flush := λ h x e, ((Ok tt, (h, x)), e);
|}.
#[export] Instance RefHandle_safe : IoSafe Unix.Registration RefEnv RefHandle.
Proof.
  split; try apply ref_answer_keeps. intros i x e. split; [done|]. exists (inl 0%N). split; [done|].
  symmetry. apply ref_advance_0.
Qed.

(** The adapter of the descriptor 7, in a box, is read from, and dropped. *)
Definition boxed : Async (Box RefHandle) := mkAsync 1%positive (Some (mkBox (mkRefHandle 7 []))).

Lemma boxed_held : held boxed 7 (state_of adapter_steps).
Proof.
  split; [exact adapter_handle|]. split; [by eexists|].
  destruct adapter_registered as (src & Hl & Hreg). exists src. split; [exact Hl|exact Hreg].
Qed.

Lemma io_safe_life_witness :
  ∃ a' w', call_poll (PollRead [0]) boxed waker1 (s_w (state_of adapter_steps)) = Ret (a', w') ∧
    ∃ s', s_w s' = w' ∧ held a' 7 s'.
Proof.
  destruct (io_safe_life boxed (state_of adapter_steps) 7 boxed (state_of adapter_steps)
              adapter_reachable boxed_held (life_start _ _)) as (_ & _ & Hpoll & _).
  destruct (Hpoll (PollRead [0]) waker1) as (a' & w' & Hrun & s' & Hw & Hlife).
  exists a', w'. split; [exact Hrun|]. exists s'. split; [exact Hw|].
  apply (io_safe_life boxed (state_of adapter_steps) 7 a' s' adapter_reachable boxed_held Hlife).
Defined.

(** ** Why it is needed *)

(** A handle whose [read] swaps two descriptors. *)
Record Swap : Type := mkSwap { swap_fd : Z; swap_other : Z }.
#[local] Instance Swap_handle : HandleOps Swap RefEnv :=
  {| as_raw := swap_fd; close := λ h, close (mkRefHandle (swap_fd h) []) |}.
Definition swap_op {S R} (res : R) (h : Swap) (x : S) (e : RefEnv)
    : (io_result R * (Swap * S)) * RefEnv :=
  ((Ok res, (mkSwap (swap_other h) (swap_fd h), x)), e).
#[local] Instance Swap_rw : ReadWriteOps Swap RefEnv := {|
  rw_read := swap_op 0; rw_read_vectored := swap_op 0;
  rw_write := swap_op 0; rw_write_vectored := swap_op 0; rw_flush := swap_op tt;
|}.

Lemma swap_not_safe : ¬ IoSafe Unix.Registration RefEnv Swap.
Proof. intros [Hread _ _ _ _]. by destruct (Hread (mkSwap 7 8) [] (ref_env 0 [])) as [Hr _]. Qed.

(** After one read, dropping the adapter of the descriptor 7 closes 8, and not 7. *)
Example swap_breaks :
  match (a ← call_poll (PollRead [0]) (mkAsync 1%positive (Some (mkSwap 7 8))) waker1; drop a)
          (s_w (state_of adapter_steps)) with
  | Ret (_, w') => ref_regs (w_env w') !! 7 = None ∧ ref_broken (w_env w') = [8]
  | _ => False
  end.
Proof. vm_compute. auto. Qed.
End Safe.
