(* ===== verification/Background.v ===== *)
(** The "async-io" thread at work (src/src/driver.rs: [main_loop], with [block_on] and
    src/src/reactor.rs): [MainLoop], one atomic step at a time, beside a thread in
    [block_on] and the reactor of [Runtime]. When no one else reacts, it does, so that a
    timer fires even if no thread is there to wait for it. *)
From S2P Require Import Prelude Std Deps Registration RefDeps World RefWorld Timers.
From S2P Require Import Source Reactor Ready Timer Async System Steps Interleaving.
From S2P Require Import Progress Wakes Sleep Tasks Driver Runtime Evolve.
Import System.

Module Background.
#[local] Existing Instance Runtime.idle_dec.

(** * Definitions *)

(** Where [main_loop] is. *)
Inductive Pc : Type :=
  | Ticker                          (* [Reactor::get().ticker()] *)
  | Lock                            (* [try_lock()], or [lock()] after ten sleeps *)
  | Reacting                        (* it has the lock: [react(None)] *)
  | Waiting                         (* [react] runs *)
  | Unlock                          (* the end of the scope of [reactor_lock] *)
  | Backoff                         (* [BLOCK_ON_COUNT.load()] *)
  | Parked (delay : Duration)       (* [park_timeout(delay)] *)
  | Notified (delay : Duration).    (* unparked before the end of [delay] *)

#[export] Instance Pc_eq_dec : EqDecision Pc.
Proof. solve_decision. Defined.

(** It has the lock of the reactor. *)
Definition holds (c : Pc) : Prop :=
  match c with Reacting | Waiting | Unlock => True | _ => False end.
#[export] Instance holds_dec c : Decision (holds c).
Proof. destruct c; apply _. Defined.

(** It is about to sleep, or asleep. *)
Definition sleepy (c : Pc) : bool :=
  match c with Unlock | Backoff | Parked _ => true | _ => false end.

Section background.
  Context {Slab Queue : Type → Type} {Reg Env P : Type}.
  Context `{SlabOps Slab, QueueOps Queue, EnvOps Env, RegOps Reg Env, EqDecision Reg}.
  Context `{CallOps Reg Env, ParkerOps P}.
  Local Abbreviation Rt := (Runtime.Rt (Slab := Slab) (Queue := Queue) (Reg := Reg) (Env := Env) (P := P)).
  Local Abbreviation RtEv := (Runtime.Ev (Reg := Reg) (Env := Env)).
  Local Abbreviation rt_sys := Runtime.rt_sys.
  Local Abbreviation rt_thread := Runtime.rt_thread.
  (** The waker of [block_on]. *)
  Context (waker : Waker).

(** The others; the thread, with its local variables and its parker; what it did in the
    iterations it has completed, and whether it has reacted in this one. *)
Record Bt : Type := mkBt {
  bt_rt : Rt;
  bt_loop : MainLoop.State;
  bt_pc : Pc;
  bt_parker : P;
  bt_dids : list MainLoop.Did;
  bt_reacted : bool;
}.

Definition set_rt (r : Rt) (b : Bt) : Bt :=
  mkBt r (bt_loop b) (bt_pc b) (bt_parker b) (bt_dids b) (bt_reacted b).
Definition set_loop (st : MainLoop.State) (b : Bt) : Bt :=
  mkBt (bt_rt b) st (bt_pc b) (bt_parker b) (bt_dids b) (bt_reacted b).
Definition go (c : Pc) (b : Bt) : Bt :=
  mkBt (bt_rt b) (bt_loop b) c (bt_parker b) (bt_dids b) (bt_reacted b).
Definition set_parker (p : P) (b : Bt) : Bt :=
  mkBt (bt_rt b) (bt_loop b) (bt_pc b) p (bt_dids b) (bt_reacted b).
Definition reacts (b : Bt) : Bt :=
  mkBt (bt_rt b) (bt_loop b) (bt_pc b) (bt_parker b) (bt_dids b) true.
(** An iteration ends. *)
Definition next (sleep : option Duration) (b : Bt) : Bt :=
  mkBt (bt_rt b) (bt_loop b) Ticker (bt_parker b)
    (bt_dids b ++ [MainLoop.mkDid (bt_reacted b) sleep]) false.

(** [unparker().unpark()] *)
Definition unpark (b : Bt) : Bt := set_parker (pk_unpark (bt_parker b)).2 b.

Definition ticker (b : Bt) : Z := w_ticker (s_w (rt_sys (bt_rt b))).

(** The thread's next step; [None] when it waits for the lock, or for the end of its
    round. A sleep may end at any time. *)
Definition main (b : Bt) : option Bt :=
  let st := bt_loop b in
  match bt_pc b with
  | Ticker =>
      Some (if MainLoop.last_tick st =? ticker b then go Lock b
            else go Backoff (set_loop (MainLoop.mkState (ticker b) (MainLoop.sleeps st)) b))
  | Lock =>
      match BlockOn.lock (rt_thread (bt_rt b)) with
      | BlockOn.Free =>
          r ← Runtime.exec waker Runtime.OtherLock (bt_rt b);
          Some (go Reacting (set_rt r b))
      | _ => if 10 <=? MainLoop.sleeps st then None else Some (go Backoff b)
      end
  | Reacting =>
      r ← Runtime.exec waker (Runtime.React (Runtime.There false) None) (bt_rt b);
      Some (go Waiting (reacts (set_rt r b)))
  | Waiting =>
      if decide (Runtime.idle (s_ph (rt_sys (bt_rt b))))
      then Some (go Unlock (set_loop (MainLoop.mkState (ticker b) 0) b))
      else None
  | Unlock =>
      r ← Runtime.exec waker Runtime.OtherUnlock (bt_rt b);
      Some (go Backoff (set_rt r b))
  | Backoff =>
      Some (if 0 <? BlockOn.count (rt_thread (bt_rt b))
            then go (Parked (from_micros (MainLoop.delay_us (MainLoop.sleeps st)))) b
            else next None b)
  | Parked delay =>
      let '(notified, p) := pk_park_zero (bt_parker b) in
      let b := set_parker p b in
      Some (if notified then go (Notified delay) b
            else next (Some delay)
                   (set_loop (MainLoop.mkState (MainLoop.last_tick st) (MainLoop.sleeps st + 1)) b))
  | Notified delay => Some (next (Some delay) (set_loop (MainLoop.mkState (ticker b) 0) b))
  end.

Inductive Ev : Type :=
  | Main                (* the thread takes its next step *)
  | MainRound           (* its round goes on *)
  | Other (e : RtEv)    (* the thread in [block_on], the tasks, the other threads *)
  | Unpark.             (* another call of [block_on] returns, or stops hogging *)

(** The lock is not taken from the thread. *)
Definition may_other (e : RtEv) (b : Bt) : Prop :=
  match e with
  | Runtime.React (Runtime.There _) _ | Runtime.Round (Runtime.There _) | Runtime.OtherUnlock =>
      ¬ holds (bt_pc b)
  | _ => True
  end.
#[global] Instance may_other_dec e b : Decision (may_other e b).
Proof. destruct e as [| |[]|[]| | | | | |]; apply _. Defined.

(** A step of [block_on] that unparks the thread. *)
Definition unparks (e : RtEv) (r : Rt) : bool :=
  match e with
  | Runtime.Step _ =>
      bool_decide (BlockOn.pc (rt_thread r) = BlockOn.UnparkMain ∨
                   BlockOn.pc (rt_thread r) = BlockOn.Completed)
  | _ => false
  end.

Definition exec (e : Ev) (b : Bt) : option Bt :=
  match e with
  | Main => main b
  | MainRound =>
      if decide (bt_pc b = Waiting) then
        r ← Runtime.exec waker (Runtime.Round (Runtime.There false)) (bt_rt b);
        Some (set_rt r b)
      else None
  | Other e =>
      if decide (may_other e b) then
        r ← Runtime.exec waker e (bt_rt b);
        Some ((if unparks e (bt_rt b) then unpark else id) (set_rt r b))
      else None
  | Unpark => Some (unpark b)
  end.

Fixpoint run (evs : list Ev) (b : Bt) : option Bt :=
  match evs with
  | [] => Some b
  | e :: evs => b ← exec e b; run evs b
  end.

(** The thread is spawned. *)
Definition spawned (r : Rt) : Bt := mkBt r MainLoop.initial Ticker pk_new [] false.

Inductive reachable (n : Z) : Bt → Prop :=
  | reach_start r : Runtime.reachable waker n r → reachable n (spawned r)
  | reach_next b b' e : reachable n b → exec e b = Some b' → reachable n b'.

(** What a step is for [Runtime]. *)
Definition rt_step (e : Ev) (b : Bt) : list RtEv :=
  match e with
  | Main =>
      match bt_pc b with
      | Lock =>
          if decide (BlockOn.lock (rt_thread (bt_rt b)) = BlockOn.Free)
          then [Runtime.OtherLock] else []
      | Reacting => [Runtime.React (Runtime.There false) None]
      | Unlock => [Runtime.OtherUnlock]
      | _ => []
      end
  | MainRound => [Runtime.Round (Runtime.There false)]
  | Other e => [e]
  | Unpark => []
  end.

Fixpoint trace (evs : list Ev) (b : Bt) : list RtEv :=
  match evs with
  | [] => []
  | e :: evs => rt_step e b ++ match exec e b with Some b => trace evs b | None => [] end
  end.

(** How many steps the thread takes, and how often it is unparked. *)
Fixpoint count_main (evs : list Ev) : Z :=
  match evs with
  | [] => 0
  | e :: evs => (match e with Main => 1 | _ => 0 end) + count_main evs
  end.

Definition unparking (e : Ev) (b : Bt) : bool :=
  match e with Unpark => true | Other e => unparks e (bt_rt b) | _ => false end.

Fixpoint count_unparks (evs : list Ev) (b : Bt) : Z :=
  match evs with
  | [] => 0
  | e :: evs =>
      (if unparking e b then 1 else 0) +
      match exec e b with Some b => count_unparks evs b | None => 0 end
  end.

(** ** What the iterations find *)

(** What the thread's next step reads, in the iteration that has found [o] so far: the tick,
    whether the lock is free, the tick after its round, [BLOCK_ON_COUNT], whether it is
    unparked, and the tick after that. *)
Definition finds (b : Bt) (o : MainLoop.Obs) : MainLoop.Obs :=
  let 'MainLoop.mkObs tick try_lock tick_reacted count notified tick_notified := o in
  match bt_pc b with
  | Ticker => MainLoop.mkObs (ticker b) false 0 0 false 0
  | Lock =>
      MainLoop.mkObs tick (bool_decide (BlockOn.lock (rt_thread (bt_rt b)) = BlockOn.Free))
        tick_reacted count notified tick_notified
  | Waiting => MainLoop.mkObs tick try_lock (ticker b) count notified tick_notified
  | Backoff =>
      MainLoop.mkObs tick try_lock tick_reacted (BlockOn.count (rt_thread (bt_rt b)))
        notified tick_notified
  | Parked _ =>
      MainLoop.mkObs tick try_lock tick_reacted count (pk_park_zero (bt_parker b)).1 tick_notified
  | Notified _ => MainLoop.mkObs tick try_lock tick_reacted count notified (ticker b)
  | Reacting | Unlock => o
  end.

(** What has been found after a step. *)
Definition found (e : Ev) (b : Bt) (o : MainLoop.Obs) : MainLoop.Obs :=
  match e with Main => finds b o | _ => o end.

(** The step ends an iteration: the next one begins with [ticker()]. *)
Definition ends (e : Ev) (b' : Bt) : bool :=
  match e with Main => bool_decide (bt_pc b' = Ticker) | _ => false end.

(** What the iterations that a run completes have found, each step of theirs in the state in
    which it was taken. *)
Fixpoint observed (evs : list Ev) (b : Bt) (o : MainLoop.Obs) : list MainLoop.Obs :=
  match evs with
  | [] => []
  | e :: evs =>
      match exec e b with
      | Some b' =>
          (if ends e b' then [found e b o] else []) ++ observed evs b' (found e b o)
      | None => []
      end
  end.

(** Nothing yet. *)
Definition nothing : MainLoop.Obs := MainLoop.mkObs 0 false 0 0 false 0.

(** ** Rounds *)

(** Some thread begins a round of [react]. *)
Definition begins (e : Ev) (b : Bt) : bool :=
  existsb (λ e, match e with Runtime.React _ _ => true | _ => false end) (rt_step e b).

End background.

(** * Invariant *)

Section inv.
  Context {Slab Queue : Type → Type} {Reg Env P : Type}.
  Context `{SlabOps Slab, QueueOps Queue, EnvOps Env, RegOps Reg Env, EqDecision Reg}.
  Context `{CallOps Reg Env, ParkerOps P, !ParkerLaws P}.
  Context (waker : Waker).
  Local Abbreviation Bt := (Bt (Slab := Slab) (Queue := Queue) (Reg := Reg) (Env := Env) (P := P)).

(** An iteration that started with the variables [st0] and has found [o] so far is one of
    [MainLoop.iteration], as far as it has come. *)
Definition partly (c : Pc) (o : MainLoop.Obs) (st0 st : MainLoop.State) (reacted : bool) : Prop :=
  match c with
  | Ticker => st = st0 ∧ reacted = false
  | Lock => st = st0 ∧ reacted = false ∧ MainLoop.last_tick st0 = MainLoop.obs_tick o
  | Reacting | Waiting =>
      st = st0 ∧ reacted = bool_decide (c = Waiting) ∧
      MainLoop.last_tick st0 = MainLoop.obs_tick o ∧ MainLoop.obs_try_lock o = true
  | Unlock | Backoff => MainLoop.drive o st0 = (reacted, st)
  | Parked d =>
      MainLoop.drive o st0 = (reacted, st) ∧ 0 < MainLoop.obs_block_on_count o ∧
      d = from_micros (MainLoop.delay_us (MainLoop.sleeps st))
  | Notified d =>
      MainLoop.drive o st0 = (reacted, st) ∧ 0 < MainLoop.obs_block_on_count o ∧
      d = from_micros (MainLoop.delay_us (MainLoop.sleeps st)) ∧ MainLoop.obs_notified o = true
  end.

Record bt_ok (n : Z) (b : Bt) : Prop := {
  bt_reachable : Runtime.reachable waker n (bt_rt b);
  bt_lock : holds (bt_pc b) → BlockOn.lock (Runtime.rt_thread (bt_rt b)) = BlockOn.Theirs;
  bt_idle : bt_pc b = Reacting ∨ bt_pc b = Unlock → Runtime.idle (s_ph (Runtime.rt_sys (bt_rt b)));
  bt_sleeps : 0 ≤ MainLoop.sleeps (bt_loop b);
}.

(** How many steps the thread takes, at most, before it reacts if no one else does: up to
    ten sleeps are left, five steps each, and eleven more after each time it is unparked;
    the tick may be one it has not seen, or change when a round that has started goes on. *)
Definition token (b : Bt) : bool := pk_token (bt_parker b).

Definition steps_left (c : Pc) : Z :=
  match c with
  | Reacting => 0 | Lock => 1 | Ticker => 2 | Notified _ => 3 | Parked _ => 4 | Backoff => 5
  | Unlock => 6 | Waiting => 7
  end.

Definition sleeps_left (b : Bt) : Z :=
  let n := MainLoop.sleeps (bt_loop b) in
  match bt_pc b with
  | Notified _ => 10
  | Waiting => 9
  | c => Z.max 0 (10 - (if sleepy c then n + 1 else n))
  end.

Definition unseen (b : Bt) : bool :=
  match bt_pc b with
  | Notified _ | Waiting => false
  | _ => negb (MainLoop.last_tick (bt_loop b) =? ticker b)
  end.

Definition starting (b : Bt) : bool := bool_decide (stage (s_ph (Runtime.rt_sys (bt_rt b))) = 6%nat).

Definition rank (b : Bt) : Z :=
  5 * (sleeps_left b + 11 * Z.b2z (token b) + Z.b2z (unseen b) + Z.b2z (starting b)) +
  steps_left (bt_pc b).

(** Enough steps for the thread to react, if it is not unparked. *)
Definition ENOUGH : Z := 122.
End inv.

(** * Facts *)

Section facts.
Context {Slab Queue : Type → Type} {Reg Env P : Type}.
Context `{SlabOps Slab, QueueOps Queue, EnvOps Env, RegOps Reg Env}.
Context `{!SlabLaws Slab, !QueueLaws Queue, !ClockLaws Env, !NotifyLaws Env, !RegLaws Reg Env}.
Context `{EqDecision Reg, CallOps Reg Env, !CallLaws Reg Env, !MonotoneLaws Reg Env}.
Context `{ParkerOps P, !ParkerLaws P}.
Context (waker : Waker).
Local Abbreviation Rt := (Runtime.Rt (Slab := Slab) (Queue := Queue) (Reg := Reg) (Env := Env) (P := P)).
Local Abbreviation RtEv := (Runtime.Ev (Reg := Reg) (Env := Env)).
Local Abbreviation Bt := (Bt (Slab := Slab) (Queue := Queue) (Reg := Reg) (Env := Env) (P := P)).
Local Abbreviation Ev := (Ev (Reg := Reg) (Env := Env)).
Implicit Types (r : Rt) (b : Bt).

Lemma main_loop_snoc os o st :
  MainLoop.main_loop (os ++ [o]) st =
  let '(ds, st) := MainLoop.main_loop os st in
  let '(d, st) := MainLoop.iteration o st in (ds ++ [d], st).
Proof.
  revert st. induction os as [|o' os IH]; intros st; cbn [app MainLoop.main_loop].
  { by destruct (MainLoop.iteration o st). }
  destruct (MainLoop.iteration o' st) as [d st1]. rewrite IH.
  destruct (MainLoop.main_loop os st1) as [ds st2]. by destruct (MainLoop.iteration o st2).
Qed.

(** ** Steps of the others *)

(** While another thread has the lock, the rest of the system does not begin rounds. *)
Lemma exec_theirs n e r r' :
  Runtime.rt_ok waker n r → BlockOn.lock (Runtime.rt_thread r) = BlockOn.Theirs →
  Runtime.exec waker e r = Some r' →
  match e with
  | Runtime.React (Runtime.There _) _ | Runtime.Round (Runtime.There _) | Runtime.OtherUnlock => False
  | _ => True
  end →
  BlockOn.lock (Runtime.rt_thread r') = BlockOn.Theirs ∧
  s_ph (Runtime.rt_sys r') = s_ph (Runtime.rt_sys r).
Proof.
  intros Hok Hl He Hwho. pose proof (Runtime.rt_thread_ok _ _ _ Hok) as Hth.
  pose proof (BlockOn.inv_reachable _ _ Hth) as Hinv.
  pose proof (BlockOn.inv_must_hold _ _ Hinv) as Hmust.
  assert (∀ ev th', Runtime.keeps_lock ev → BlockOn.exec ev (Runtime.rt_thread r) = Some th' →
    BlockOn.lock th' = BlockOn.Theirs) as Hstays.
  { intros ev th' Hk Hev. by rewrite (Runtime.stays_lock _ _ (Runtime.thread_stays _ _ _ Hk Hev)). }
  destruct e as [choice|who e|[|io] timeout|[|io]| | | | | |]; cbn [Runtime.exec] in He; try done.
  - case_decide; [|done]. apply bind_Some in He as (th' & Hrun & He). injection He as <-.
    split; [|done]. by eapply Runtime.run_theirs.
  - case_decide as Hmay; [|done]. apply bind_Some in He as (s' & Hse & He).
    apply bind_Some in He as (th1 & Hn & He). apply bind_Some in He as (th' & Hwk & He).
    injection He as <-. destruct Hmay as [Hev _]. cbn. split.
    + assert (BlockOn.reachable n th1 ∧ BlockOn.lock th1 = BlockOn.Theirs) as [Hth1 Hl1].
      { destruct (Runtime.notifies e); [|by simplify_eq].
        split; [by eapply BlockOn.reach_step|by eapply Hstays, Hn]. }
      destruct (Runtime.repeated_wake _ _ _ _ _ Hth1 Hwk) as (_ & [_ -> _] & _). done.
    + eapply task_phase; [done|intros d ->; exact Hev|intros ->; exact Hev].
  - case_decide as Hmay; [|done]. cbn in Hmay.
    rewrite Hmust in Hl; [done|]. by destruct Hmay as [[-> _]|[-> _]].
  - case_decide as Hmay; [|done]. unfold Runtime.may_round in Hmay. congruence.
  - case_decide; [|done]. apply bind_Some in He as (th' & Hev & He). injection He as <-.
    split; [|done]. by eapply Hstays, Hev.
  - apply bind_Some in He as (th' & Hev & He). injection He as <-.
    split; [|done]. by eapply Hstays, Hev.
  - apply bind_Some in He as (th' & Hev & He). injection He as <-.
    split; [|done]. by eapply Hstays, Hev.
  - apply bind_Some in He as (th' & Hev & He). apply bind_Some in He as (s' & Hse & He).
    injection He as <-. split; [by eapply Hstays, Hev|]. by eapply task_phase.
  - cbn [BlockOn.exec] in He. by rewrite Hl in He.
Qed.

(** ** The invariant is kept *)

Lemma spawned_ok n r : Runtime.reachable waker n r → bt_ok waker n (spawned r).
Proof. intros Hr. split; cbn; [done|done|by intros []|done]. Qed.

Lemma main_ok n b b' : bt_ok waker n b → main waker b = Some b' → bt_ok waker n b'.
Proof.
  intros Hbt He. pose proof Hbt as [Hr Hl Hi Hs].
  pose proof (Runtime.rt_ok_reachable waker _ _ Hr) as Hok.
  unfold main in He. destruct (bt_pc b) as [| | | | | |d|d] eqn:Hpc.
  - case_match; injection He as <-; (split; cbn; [done|done|by intros []|done]).
  - destruct (BlockOn.lock (Runtime.rt_thread (bt_rt b))) eqn:Hlk;
      [|case_match; [done|]; injection He as <-; split; cbn; [done|done|by intros []|done]..].
    apply bind_Some in He as (r' & He & Hb). injection Hb as <-.
    assert (Runtime.reachable waker n r') as Hr' by by eapply Runtime.reach_next.
    cbn in He. rewrite Hlk in He. cbn in He. injection He as <-.
    split; cbn; [done|done| |done]. intros _.
    pose proof (Runtime.rt_round _ _ _ Hok) as Hro. unfold Runtime.round_ok in Hro. by rewrite Hlk in Hro.
  - apply bind_Some in He as (r' & He & Hb). injection Hb as <-.
    split; cbn; [by eapply Runtime.reach_next| |by intros []|done].
    intros _. cbn [Runtime.exec] in He. case_decide; [|done].
    apply bind_Some in He as (s' & _ & He). injection He as <-. by apply Hl.
  - case_decide as Hidle; [|done]. injection He as <-.
    split; cbn; [done|by intros; apply Hl|done|done].
  - apply bind_Some in He as (r' & He & Hb). injection Hb as <-.
    split; cbn; [by eapply Runtime.reach_next|done|by intros []|done].
  - case_match; injection He as <-; split; cbn; try done; by intros [].
  - destruct (pk_park_zero (bt_parker b)) as [[] p]; injection He as <-;
      split; cbn; try done; solve [by intros []|lia].
  - injection He as <-. split; cbn; try done; by intros [].
Qed.

(** The others leave the thread where it is. *)
Lemma set_rt_ok n b r' :
  bt_ok waker n b → Runtime.reachable waker n r' →
  (holds (bt_pc b) → BlockOn.lock (Runtime.rt_thread r') = BlockOn.Theirs) →
  (bt_pc b = Reacting ∨ bt_pc b = Unlock → Runtime.idle (s_ph (Runtime.rt_sys r'))) →
  bt_ok waker n (set_rt r' b).
Proof. by intros [Hr Hl Hi Hs] Hr' Hl' Hi'. Qed.

Lemma set_parker_ok n b p : bt_ok waker n b → bt_ok waker n (set_parker p b).
Proof. by intros []. Qed.

Lemma bt_ok_exec n e b b' : bt_ok waker n b → exec waker e b = Some b' → bt_ok waker n b'.
Proof.
  intros Hbt He. pose proof Hbt as [Hr Hl Hi Hs].
  pose proof (Runtime.rt_ok_reachable waker _ _ Hr) as Hok.
  destruct e as [| |e|]; cbn [exec] in He.
  - by eapply main_ok.
  - case_decide as Hpc; [|done]. apply bind_Some in He as (r' & He & Hb). injection Hb as <-.
    apply set_rt_ok; [done|by eapply Runtime.reach_next| |rewrite Hpc; by intros []].
    intros Hh. cbn [Runtime.exec] in He. case_decide; [|done].
    apply bind_Some in He as (th1 & Hwt & He). apply bind_Some in He as (s' & Hse & He).
    apply bind_Some in He as (th' & Hwk & He). injection He as <-.
    destruct (Runtime.waited_ok waker _ _ _ _ Hok ltac:(done) Hwt) as (Hth1 & Hl1 & _).
    destruct (Runtime.repeated_wake _ _ _ _ _ Hth1 Hwk) as (_ & [_ Hl2 _] & _). cbn.
    rewrite Hl2, Hl1. by apply Hl.
  - case_decide as Hmay; [|done]. apply bind_Some in He as (r' & He & Hb). injection Hb as <-.
    assert (bt_ok waker n (set_rt r' b)) as Hok'; [|destruct (unparks _ _); [by apply set_parker_ok|done]].
    assert (holds (bt_pc b) → BlockOn.lock (Runtime.rt_thread r') = BlockOn.Theirs ∧
      s_ph (Runtime.rt_sys r') = s_ph (Runtime.rt_sys (bt_rt b))) as Hkeep.
    { intros Hh. eapply exec_theirs; [done|by apply Hl|done|].
      destruct e as [| |[]|[]| | | | | |]; try done; by destruct Hmay. }
    apply set_rt_ok; [done|by eapply Runtime.reach_next|by intros; apply Hkeep|].
    intros Hh. destruct Hkeep as [_ ->]; [by destruct Hh as [-> | ->]|by apply Hi].
  - injection He as <-. by apply set_parker_ok.
Qed.

Lemma bt_ok_reachable n b : reachable waker n b → bt_ok waker n b.
Proof. induction 1; [by apply spawned_ok|by eapply bt_ok_exec]. Qed.

Lemma run_bt_ok n evs b b' : bt_ok waker n b → run waker evs b = Some b' → bt_ok waker n b'.
Proof.
  revert b. induction evs as [|e evs IH]; intros b Hok Hrun; cbn in Hrun; [by simplify_eq|].
  apply bind_Some in Hrun as (b1 & He & Hrun). by eapply IH, Hrun; eapply bt_ok_exec.
Qed.

(** ** What a run is for [Runtime] *)

Lemma exec_rt e b b' :
  exec waker e b = Some b' → Runtime.run waker (rt_step e b) (bt_rt b) = Some (bt_rt b').
Proof.
  intros He. destruct e as [| |e|]; cbn [exec rt_step] in *.
  - unfold main in He. destruct (bt_pc b) as [| | | | | |d|d]; cbn [Runtime.run].
    + by case_match; injection He as <-.
    + destruct (BlockOn.lock (Runtime.rt_thread (bt_rt b))) eqn:Hl.
      * rewrite decide_True by done. apply bind_Some in He as (r & He & Hb). injection Hb as <-.
        cbn [Runtime.run]. by rewrite He.
      * rewrite decide_False by done. case_match; [done|]. by injection He as <-.
      * rewrite decide_False by done. case_match; [done|]. by injection He as <-.
    + apply bind_Some in He as (r & He & Hb). injection Hb as <-. by rewrite He.
    + case_decide; [|done]. by injection He as <-.
    + apply bind_Some in He as (r & He & Hb). injection Hb as <-. by rewrite He.
    + by case_match; injection He as <-.
    + by destruct (pk_park_zero (bt_parker b)) as [[] p]; injection He as <-.
    + by injection He as <-.
  - case_decide; [|done]. apply bind_Some in He as (r & He & Hb). injection Hb as <-.
    cbn [Runtime.run]. by rewrite He.
  - case_decide; [|done]. apply bind_Some in He as (r & He & Hb). injection Hb as <-.
    cbn [Runtime.run]. rewrite He. by destruct (unparks _ _).
  - by injection He as <-.
Qed.

Lemma run_rt evs b b' :
  run waker evs b = Some b' → Runtime.run waker (trace waker evs b) (bt_rt b) = Some (bt_rt b').
Proof.
  revert b. induction evs as [|e evs IH]; intros b Hrun; cbn in Hrun; [by simplify_eq|].
  apply bind_Some in Hrun as (b1 & He & Hrun). cbn [trace]. rewrite He.
  eapply Runtime.run_rt_app; [by apply exec_rt|by apply IH].
Qed.

(** ** What an iteration finds is what it goes by *)

(** A step of the thread is one of the iteration, with what the step has found. *)
Lemma main_finds b b' o st0 :
  partly (bt_pc b) o st0 (bt_loop b) (bt_reacted b) → main waker b = Some b' →
  let o' := finds b o in
  if decide (bt_pc b' = Ticker) then
    ∃ d, MainLoop.iteration o' st0 = (d, bt_loop b') ∧ bt_dids b' = bt_dids b ++ [d] ∧
      bt_reacted b' = false
  else bt_dids b' = bt_dids b ∧ partly (bt_pc b') o' st0 (bt_loop b') (bt_reacted b').
Proof.
  intros Hp He. destruct o as [tick tl tr cnt nt tn]. unfold finds, main in *.
  destruct (bt_pc b) as [| | | | | |d|d] eqn:Hpc; cbn in Hp.
  - destruct Hp as [<- Hre]. destruct (MainLoop.last_tick (bt_loop b) =? ticker b) eqn:Ht;
      injection He as <-; cbn; (split; [done|]).
    + by apply Z.eqb_eq in Ht.
    + unfold MainLoop.drive. cbn. by rewrite Ht, Hre.
  - destruct Hp as (<- & Hre & <-). destruct (BlockOn.lock (Runtime.rt_thread (bt_rt b))) eqn:Hlk.
    + apply bind_Some in He as (r' & He & Hb). injection Hb as <-. cbn. by rewrite Hre.
    + destruct (10 <=? MainLoop.sleeps (bt_loop b)) eqn:Hten; [done|]. injection He as <-. cbn.
      split; [done|]. unfold MainLoop.drive. cbn -[Z.leb]. by rewrite Z.eqb_refl, Hten, Hre.
    + destruct (10 <=? MainLoop.sleeps (bt_loop b)) eqn:Hten; [done|]. injection He as <-. cbn.
      split; [done|]. unfold MainLoop.drive. cbn -[Z.leb]. by rewrite Z.eqb_refl, Hten, Hre.
  - apply bind_Some in He as (r' & He & Hb). injection Hb as <-. cbn. by destruct Hp as (<- & _ & <- & ->).
  - destruct Hp as (<- & Hre & <- & ->). case_decide; [|done]. injection He as <-. cbn.
    split; [done|]. unfold MainLoop.drive. cbn -[Z.leb]. rewrite Z.eqb_refl, Hre.
    by destruct (10 <=? _).
  - apply bind_Some in He as (r' & He & Hb). by injection Hb as <-.
  - unfold MainLoop.drive in Hp. cbn -[Z.leb] in Hp.
    destruct (0 <? BlockOn.count (Runtime.rt_thread (bt_rt b))) eqn:Hc; injection He as <-; cbn.
    + split; [done|]. unfold MainLoop.drive. cbn -[Z.leb]. split_and!; [done|lia|done].
    + eexists. unfold MainLoop.iteration, MainLoop.drive. cbn -[Z.leb]. rewrite Hp.
      unfold MainLoop.backoff. cbn -[Z.ltb]. by rewrite Hc.
  - destruct Hp as (Hp & Hc & ->). apply Z.ltb_lt in Hc as Hc'. unfold MainLoop.drive in Hp. cbn -[Z.leb] in Hp.
    destruct (pk_park_zero (bt_parker b)) as [[] p]; injection He as <-; cbn.
    + split; [done|]. unfold MainLoop.drive. cbn -[Z.leb]. by split_and!.
    + eexists. unfold MainLoop.iteration, MainLoop.drive. cbn -[Z.leb]. rewrite Hp.
      unfold MainLoop.backoff. cbn -[Z.ltb]. by rewrite Hc'.
  - destruct Hp as (Hp & Hc & -> & ->). apply Z.ltb_lt in Hc. unfold MainLoop.drive in Hp. cbn -[Z.leb] in Hp.
    injection He as <-. cbn. eexists. unfold MainLoop.iteration, MainLoop.drive. cbn -[Z.leb].
    rewrite Hp. unfold MainLoop.backoff. cbn -[Z.ltb]. by rewrite Hc.
Qed.

(** The others leave its variables alone. *)
Lemma exec_local e b b' :
  exec waker e b = Some b' → e ≠ Main →
  bt_pc b' = bt_pc b ∧ bt_loop b' = bt_loop b ∧ bt_dids b' = bt_dids b ∧
  bt_reacted b' = bt_reacted b.
Proof.
  intros He Hne. destruct e as [| |e|]; cbn [exec] in He; [done|..].
  - case_decide; [|done]. apply bind_Some in He as (r & _ & Hr). by injection Hr as <-.
  - case_decide; [|done]. apply bind_Some in He as (r & _ & Hr). injection Hr as <-.
    by destruct (unparks _ _).
  - by injection He as <-.
Qed.

Lemma observed_run evs b b' os o st0 :
  MainLoop.main_loop os MainLoop.initial = (bt_dids b, st0) →
  partly (bt_pc b) o st0 (bt_loop b) (bt_reacted b) → run waker evs b = Some b' →
  ∃ st o', MainLoop.main_loop (os ++ observed waker evs b o) MainLoop.initial = (bt_dids b', st) ∧
    partly (bt_pc b') o' st (bt_loop b') (bt_reacted b').
Proof.
  revert b os o st0. induction evs as [|e evs IH]; intros b os o st0 Hos Hp Hrun; cbn in Hrun.
  { simplify_eq. exists st0, o. cbn. by rewrite app_nil_r. }
  apply bind_Some in Hrun as (b1 & He & Hrun). cbn [observed]. rewrite He.
  assert (e = Main ∨ e ≠ Main) as [->|Hne] by (destruct e; auto).
  - pose proof (main_finds _ _ _ _ Hp He) as Hf. cbn [ends found] in *. case_decide as Hpc.
    + rewrite bool_decide_eq_true_2 by done. destruct Hf as (d & Hit & Hd & Hre).
      rewrite app_assoc. eapply (IH b1); [|by rewrite Hpc|done].
      by rewrite main_loop_snoc, Hos, Hit, Hd.
    + rewrite bool_decide_eq_false_2 by done. destruct Hf as [Hd Hp']. cbn [app].
      eapply (IH b1); [by rewrite Hd|done|done].
  - destruct (exec_local _ _ _ He Hne) as (Hpc & Hlo & Hd & Hre).
    replace (ends e b1) with false by by destruct e. replace (found e b o) with o by by destruct e.
    cbn [app]. eapply (IH b1); [by rewrite Hd|by rewrite Hpc, Hlo, Hre|done].
Qed.

(** ** Time passes *)

(** The tick changes only when a round that has started goes on. *)
Lemma rt_clock e r r' :
  Runtime.exec waker e r = Some r' → (∀ who timeout, e ≠ Runtime.React who timeout) →
  let s := Runtime.rt_sys r in let s' := Runtime.rt_sys r' in
  w_ticker (s_w s') = w_ticker (s_w s) ∧ (stage (s_ph s') = 6%nat → stage (s_ph s) = 6%nat) ∨
  stage (s_ph s) = 6%nat ∧ stage (s_ph s') ≠ 6%nat.
Proof.
  intros He Hne s s'. pose proof (Runtime.exec_sys _ _ _ _ He) as Hs. fold s s' in Hs.
  assert (Runtime.sys_step e = [] ∨ Runtime.sys_step e = [ERound] ∨
    ∃ e0, Runtime.sys_step e = [e0] ∧ Runtime.task_event e0) as [Heq|[Heq|(e0 & Heq & He0)]].
  { destruct e as [|who e0|who timeout|who| | | | | |]; cbn; auto; [|by edestruct Hne|].
    - right; right. exists e0. split; [done|]. cbn [Runtime.exec] in He. case_decide as Hm; [|done].
      by destruct Hm as [Hm _], e0.
    - right; right. by eexists. }
  - rewrite Heq in Hs. cbn in Hs. injection Hs as ->. by left.
  - rewrite Heq in Hs. cbn in Hs. apply bind_Some in Hs as (s1 & Hs & [= ->]).
    destruct (round_stage _ _ Hs) as (_ & H65 & H5).
    destruct (exec_ticker _ _ _ Hs) as [Ht|[_ Hst]].
    + destruct (decide (stage (s_ph s) = 6%nat)) as [H6|H6]; [right; lia|left]. split; [done|].
      destruct (s_ph s); cbn in *; lia.
    + right. lia.
  - rewrite Heq in Hs. cbn in Hs. apply bind_Some in Hs as (s1 & Hs & [= ->]). left.
    rewrite (task_phase _ _ _ Hs) by (destruct e0; done). split; [|done].
    destruct (exec_ticker _ _ _ Hs) as [Ht|[-> _]]; [done|by destruct He0].
Qed.

Lemma rank_set_rt e b r' :
  Runtime.exec waker e (bt_rt b) = Some r' → (∀ who timeout, e ≠ Runtime.React who timeout) →
  rank (set_rt r' b) ≤ rank b.
Proof.
  intros He Hne. destruct (rt_clock _ _ _ He Hne) as [[Ht Hs]|[Hs Hs']].
  - assert (Z.b2z (starting (set_rt r' b)) ≤ Z.b2z (starting b)) as Hst.
    { unfold starting. cbn. repeat case_bool_decide; cbn; lia. }
    unfold rank, unseen, ticker, token, sleeps_left. cbn. rewrite Ht.
    unfold starting in *. cbn in *. lia.
  - assert (starting b = true ∧ starting (set_rt r' b) = false) as [Hst Hst'].
    { unfold starting. cbn. by rewrite bool_decide_eq_true, bool_decide_eq_false. }
    unfold rank. rewrite Hst, Hst'. unfold token, sleeps_left. cbn.
    destruct (unseen _), (unseen _); cbn; lia.
Qed.

Lemma rank_unpark b : rank (unpark b) ≤ rank b + 55.
Proof.
  unfold rank, token, unseen, starting, sleeps_left, ticker, unpark. cbn.
  rewrite pk_unpark_token. destruct (pk_token (bt_parker b)); cbn; lia.
Qed.

Lemma active n b :
  bt_ok waker n b → 0 ≤ n → BlockOn.pc (Runtime.rt_thread (bt_rt b)) ≠ BlockOn.Returned →
  0 < BlockOn.count (Runtime.rt_thread (bt_rt b)).
Proof.
  intros Hbt Hn Hpc. pose proof (Runtime.rt_ok_reachable waker _ _ (bt_reachable _ _ _ Hbt)) as Hok.
  rewrite (BlockOn.inv_count n), decide_False; [lia|done|].
  apply BlockOn.inv_reachable, Hok.
Qed.

(** Each step of the thread brings it closer to a round. *)
Lemma main_rank n b b' :
  bt_ok waker n b → 0 < BlockOn.count (Runtime.rt_thread (bt_rt b)) →
  main waker b = Some b' → bt_pc b ≠ Reacting → rank b' < rank b.
Proof.
  intros [Hr Hl Hi Hs] Hc He Hne.
  unfold main in He. destruct (bt_pc b) as [| | | | | |d|d] eqn:Hpc; try done.
  - destruct (MainLoop.last_tick (bt_loop b) =? ticker b) eqn:Ht; injection He as <-;
      unfold rank, unseen, starting, sleeps_left, ticker, token in *; cbn;
      rewrite Hpc, ?Ht, ?Z.eqb_refl; cbn; lia.
  - assert ((if 10 <=? MainLoop.sleeps (bt_loop b) then None else Some (go Backoff b)) = Some b' →
      rank b' < rank b) as Hfail.
    { destruct (10 <=? MainLoop.sleeps (bt_loop b)) eqn:Hten; [done|]. intros [= <-].
      apply Z.leb_gt in Hten. unfold rank, unseen, starting, sleeps_left, ticker, token in *. cbn.
      rewrite Hpc. cbn. lia. }
    destruct (BlockOn.lock (Runtime.rt_thread (bt_rt b))) eqn:Hlk; [|by auto..].
    apply bind_Some in He as (r' & He & Hb). injection Hb as <-.
    eapply Z.lt_le_trans, (rank_set_rt Runtime.OtherLock); [|done|done].
    unfold rank, unseen, starting, sleeps_left, ticker, token in *. cbn. rewrite Hpc. cbn. lia.
  - case_decide as Hidle; [|done]. injection He as <-. apply Runtime.idle_stage in Hidle.
    unfold rank, unseen, starting, sleeps_left, ticker, token in *. cbn.
    rewrite Hpc, Z.eqb_refl. cbn. lia.
  - apply bind_Some in He as (r' & He & Hb). injection Hb as <-.
    eapply Z.lt_le_trans, (rank_set_rt Runtime.OtherUnlock); [|done|done].
    unfold rank, unseen, starting, sleeps_left, ticker, token in *. cbn. rewrite Hpc. cbn. lia.
  - rewrite (proj2 (Z.ltb_lt _ _) Hc) in He. injection He as <-.
    unfold rank, unseen, starting, sleeps_left, ticker, token in *. cbn. rewrite Hpc. cbn. lia.
  - pose proof (pk_park_result (bt_parker b)) as Hres. pose proof (pk_park_token (bt_parker b)) as Htok.
    destruct (pk_park_zero (bt_parker b)) as [hit p]. cbn in Hres, Htok. subst hit.
    destruct (pk_token (bt_parker b)) eqn:Htk; injection He as <-;
      unfold rank, unseen, starting, sleeps_left, ticker, token in *; cbn;
      rewrite Hpc, Htok, Htk; cbn; [|lia].
    destruct (negb _); cbn; lia.
  - injection He as <-. unfold rank, unseen, starting, sleeps_left, ticker, token in *. cbn.
    rewrite Hpc, Z.eqb_refl. cbn. lia.
Qed.

Lemma step_rank n e b b' :
  bt_ok waker n b → 0 < BlockOn.count (Runtime.rt_thread (bt_rt b)) →
  exec waker e b = Some b' → begins e b = false →
  rank b' + (match e with Main => 1 | _ => 0 end) ≤ rank b + 55 * Z.b2z (unparking e b).
Proof.
  intros Hbt Hc He Hb. destruct e as [| |e|]; cbn [exec unparking] in *.
  - assert (rank b' < rank b); [|cbn; lia]. eapply main_rank; [done|done|done|].
    intros Hpc. unfold begins in Hb. cbn in Hb. by rewrite Hpc in Hb.
  - case_decide; [|done]. apply bind_Some in He as (r & He & Hr). injection Hr as <-.
    pose proof (rank_set_rt _ b _ He ltac:(done)). cbn. lia.
  - case_decide; [|done]. apply bind_Some in He as (r & He & Hr). injection Hr as <-.
    assert (∀ who timeout, e ≠ Runtime.React who timeout) as Hne
      by (intros who timeout ->; unfold begins in Hb; discriminate Hb).
    pose proof (rank_set_rt _ b _ He Hne). destruct (unparks e (bt_rt b)); cbn; [|lia].
    pose proof (rank_unpark (set_rt r b)). lia.
  - injection He as <-. pose proof (rank_unpark b). cbn. lia.
Qed.

Lemma rank_bounds n b : bt_ok waker n b → 0 ≤ rank b ≤ ENOUGH.
Proof.
  intros [_ _ _ Hs]. unfold rank, ENOUGH, sleeps_left.
  destruct (token b), (unseen b), (starting b), (bt_pc b); cbn; lia.
Qed.

(** A call that has returned stays so. *)
Lemma returned_stays evs r r' n :
  Runtime.rt_ok waker n r → Runtime.run waker evs r = Some r' →
  BlockOn.pc (Runtime.rt_thread r) = BlockOn.Returned →
  BlockOn.pc (Runtime.rt_thread r') = BlockOn.Returned.
Proof.
  revert r. induction evs as [|e evs IH]; intros r Hok Hrun Hpc; cbn in Hrun; [by simplify_eq|].
  apply bind_Some in Hrun as (r1 & He & Hrun).
  eapply (IH r1); [by eapply Runtime.rt_ok_exec|done|].
  pose proof (Runtime.exec_thread _ _ _ _ He) as Hth. destruct (Runtime.moves e r).
  - destruct Hth as (choice & th & Hth & _). unfold BlockOn.run in Hth. by rewrite Hpc in Hth.
  - destruct (BlockOn.inv_others n _ _ (BlockOn.inv_reachable _ _ (Runtime.rt_thread_ok _ _ _ Hok)) Hth)
      as (_ & -> & _). done.
Qed.

(** Some thread begins a round in a run. *)
Definition begins_in (evs : list Ev) b : Prop :=
  ∃ evs1 e evs2 b1, evs = evs1 ++ e :: evs2 ∧ run waker evs1 b = Some b1 ∧ begins e b1 = true ∧
    is_Some (exec waker e b1).

Lemma begins_or_rank n evs b b' :
  bt_ok waker n b → 0 ≤ n → run waker evs b = Some b' →
  BlockOn.pc (Runtime.rt_thread (bt_rt b')) ≠ BlockOn.Returned →
  begins_in evs b ∨ rank b' + count_main evs ≤ rank b + 55 * count_unparks waker evs b.
Proof.
  intros Hbt Hn. revert b Hbt. induction evs as [|e evs IH]; intros b Hbt Hrun Hpc.
  { cbn in Hrun |- *. simplify_eq. right. lia. }
  pose proof (run_rt _ _ _ Hrun) as Hrt.
  pose proof (Runtime.rt_ok_reachable waker _ _ (bt_reachable _ _ _ Hbt)) as Hok.
  cbn [run] in Hrun. apply bind_Some in Hrun as (b1 & He & Hrun).
  destruct (begins e b) eqn:Hb; [left; by exists [], e, evs, b|].
  assert (0 < BlockOn.count (Runtime.rt_thread (bt_rt b))) as Hc.
  { eapply active; [done|done|]. intros Hret. by apply Hpc, (returned_stays _ _ _ _ Hok Hrt). }
  pose proof (step_rank _ _ _ _ Hbt Hc He Hb) as Hstep.
  destruct (IH b1) as [(evs1 & e1 & evs2 & b2 & -> & Hrun1 & Hb2 & Hex)|Hle]; [by eapply bt_ok_exec|done|done| |].
  - left. exists (e :: evs1), e1, evs2, b2. split_and!; [done| |done..]. cbn. by rewrite He.
  - right. cbn [count_main count_unparks]. rewrite He. destruct (unparking e b), e; cbn in *; lia.
Qed.

(** ** Runs, cut and joined *)

Lemma run_app_inv evs1 evs2 b b' :
  run waker (evs1 ++ evs2) b = Some b' →
  ∃ b1, run waker evs1 b = Some b1 ∧ run waker evs2 b1 = Some b'.
Proof.
  revert b. induction evs1 as [|e evs1 IH]; intros b Hrun; cbn in Hrun; [by exists b|].
  apply bind_Some in Hrun as (b1 & He & Hrun). destruct (IH _ Hrun) as (b2 & Hr1 & Hr2).
  exists b2. split; [|done]. cbn. by rewrite He.
Qed.

Lemma run_join evs1 evs2 b b1 b2 :
  run waker evs1 b = Some b1 → run waker evs2 b1 = Some b2 → run waker (evs1 ++ evs2) b = Some b2.
Proof.
  revert b. induction evs1 as [|e evs1 IH]; intros b; cbn; [by intros [= ->]|].
  destruct (exec waker e b) as [b'|]; cbn; [apply IH|done].
Qed.

Lemma trace_app evs1 evs2 b b1 :
  run waker evs1 b = Some b1 →
  trace waker (evs1 ++ evs2) b = trace waker evs1 b ++ trace waker evs2 b1.
Proof.
  revert b. induction evs1 as [|e evs1 IH]; intros b Hrun; cbn in Hrun; [by simplify_eq|].
  apply bind_Some in Hrun as (b2 & He & Hrun). cbn [app trace]. rewrite He, (IH _ Hrun).
  by rewrite app_assoc.
Qed.

Lemma begins_react e b b' :
  begins e b = true → exec waker e b = Some b' →
  ∃ who timeout, rt_step e b = [Runtime.React who timeout] ∧
    Runtime.exec waker (Runtime.React who timeout) (bt_rt b) = Some (bt_rt b').
Proof.
  intros Hb He. pose proof (exec_rt _ _ _ He) as Hrt. unfold begins in Hb.
  assert (∃ who timeout, rt_step e b = [Runtime.React who timeout]) as (who & timeout & Heq).
  { destruct e as [| |e|]; cbn in Hb |- *; try done.
    - destruct (bt_pc b); cbn in Hb |- *; try done; [|by eexists _, _].
      revert Hb. case_decide; intros Hb; discriminate Hb.
    - destruct e; try done. by eexists _, _. }
  exists who, timeout. split; [done|]. rewrite Heq in Hrt. cbn [Runtime.run] in Hrt.
  by apply bind_Some in Hrt as (r & He' & [= ->]).
Qed.

(** What the future of [block_on] does while it is polled. *)
Lemma lift_others evs r1 b :
  Runtime.run waker (Runtime.Task Runtime.Here <$> evs) (bt_rt b) = Some r1 →
  run waker (Other ∘ Runtime.Task Runtime.Here <$> evs) b = Some (set_rt r1 b).
Proof.
  revert b. induction evs as [|e evs IH]; intros b Hrun.
  { cbn in Hrun. injection Hrun as <-. by destruct b. }
  cbn [fmap list_fmap Runtime.run] in Hrun. apply bind_Some in Hrun as (r & He & Hrun).
  rewrite fmap_cons. cbn [compose run exec]. rewrite decide_True by done.
  rewrite He. cbn [mbind option_bind]. exact (IH (set_rt r b) Hrun).
Qed.

Lemma tasks_pc n evs r r1 :
  Runtime.rt_ok waker n r → Runtime.run waker (Runtime.Task Runtime.Here <$> evs) r = Some r1 →
  BlockOn.pc (Runtime.rt_thread r1) = BlockOn.pc (Runtime.rt_thread r).
Proof.
  revert r. induction evs as [|e evs IH]; intros r Hok Hrun.
  { cbn in Hrun. by injection Hrun as <-. }
  cbn [fmap list_fmap Runtime.run] in Hrun. apply bind_Some in Hrun as (r2 & He & Hrun).
  rewrite (IH r2); [|by eapply Runtime.rt_ok_exec|done].
  pose proof (BlockOn.inv_reachable _ _ (Runtime.rt_thread_ok _ _ _ Hok)) as Hinv.
  pose proof (Runtime.exec_thread _ _ _ _ He) as Hth. cbn [Runtime.moves] in Hth.
  by destruct (BlockOn.inv_others n _ _ Hinv Hth) as (_ & ? & _).
Qed.

(** A step of the thread is possible, unless it waits for the lock. *)
Lemma wake_possible m th :
  ∃ th', Runtime.repeated (BlockOn.Wake) m th = Some th'.
Proof.
  revert th. induction m as [|m IH]; intros th; [by exists th|]. cbn [Runtime.repeated BlockOn.exec].
  destruct (BlockOn.unpark th) as [[] th1]; apply IH.
Qed.

Lemma main_round_possible n b :
  bt_ok waker n b → bt_pc b = Waiting → ¬ Runtime.idle (s_ph (Runtime.rt_sys (bt_rt b))) →
  ticker b + 1 < USIZE_MOD → ∃ b', exec waker MainRound b = Some b'.
Proof.
  intros Hbt Hpc Hni Ht. pose proof (bt_lock _ _ _ Hbt) as Hl. rewrite Hpc in Hl. specialize (Hl I).
  pose proof (Runtime.rt_ok_reachable waker _ _ (bt_reachable _ _ _ Hbt)) as Hok.
  pose proof (sys_ok_reachable _ (Runtime.rt_sys_ok _ _ _ Hok)) as Hsys.
  assert (guard ERound (Runtime.rt_sys (bt_rt b))) as Hg
    by (cbn; destruct (s_ph (Runtime.rt_sys (bt_rt b))); done).
  destruct (exec_good ERound _ Hsys Hg) as (s' & Hse & _).
  assert (∃ th1, Runtime.waited (Runtime.There false) (s_ph (Runtime.rt_sys (bt_rt b)))
    (Runtime.rt_thread (bt_rt b)) = Some th1) as [th1 Hw].
  { unfold Runtime.waited. destruct (s_ph _); try by eexists.
    cbn [BlockOn.exec]. rewrite decide_True by done. by eexists. }
  destruct (wake_possible (Runtime.times waker (s_w (Runtime.rt_sys (bt_rt b))) (s_w s')) th1)
    as [th' Hth'].
  eexists. cbn [exec]. rewrite decide_True by done. cbn [Runtime.exec].
  rewrite decide_True by done. rewrite Hw. cbn [mbind option_bind]. rewrite Hse.
  cbn [mbind option_bind]. unfold Runtime.woken_by. cbn [Runtime.wake_event]. rewrite Hth'.
  reflexivity.
Qed.

(** * Properties *)

(** C6 The "async-io" thread runs [main_loop]: whatever the others do in between, one
    atomic step of it after the other amounts to the iterations of the sequential
    definition, with what the steps of each found when they were taken ([observed]: the
    ticks, whether the lock was free, [BLOCK_ON_COUNT], whether it was unparked), that is:
    how it has reacted and slept is how [MainLoop.main_loop] would have, and so are its
    variables at the start of an iteration; its rounds, and its uses of the lock, are steps
    that the composition of [block_on] and the reactor allows other threads. *)
Theorem background_refines (n : Z) (evs : list Ev) r b'
    (Hr : Runtime.reachable waker n r) (Hrun : run waker evs (spawned r) = Some b') :
  Runtime.reachable waker n (bt_rt b') ∧
  Runtime.run waker (trace waker evs (spawned r)) r = Some (bt_rt b') ∧
  ∃ st, MainLoop.main_loop (observed waker evs (spawned r) nothing) MainLoop.initial =
      (bt_dids b', st) ∧
    (bt_pc b' = Ticker → bt_loop b' = st).
Proof.
  pose proof (run_bt_ok _ _ _ _ (spawned_ok _ _ Hr) Hrun) as [Hr' _ _ _].
  split_and!; [done|by apply (run_rt _ (spawned r))|].
  destruct (observed_run evs (spawned r) b' [] nothing MainLoop.initial) as (st & o & Hos & Hp);
    [done|done|done|].
  exists st. split; [done|]. intros Hpc. rewrite Hpc in Hp. apply Hp.
Qed.

(** C17 The "async-io" thread is never stuck, and never in the way: it can take a step or its
    round can, unless it waits in [lock()] for the lock that another thread has; and it
    keeps the lock only from [try_lock] to the end of its round, never while it sleeps. *)
Theorem main_loop_not_stuck (n : Z) b (Hb : reachable waker n b)
    (Ht : ticker b + 1 < USIZE_MOD) :
  (∃ e b', (e = Main ∨ e = MainRound) ∧ exec waker e b = Some b') ∨
  (bt_pc b = Lock ∧ 10 ≤ MainLoop.sleeps (bt_loop b) ∧
   BlockOn.lock (Runtime.rt_thread (bt_rt b)) ≠ BlockOn.Free).
Proof.
  pose proof (bt_ok_reachable _ _ Hb) as Hbt. pose proof Hbt as [Hr Hl Hi Hs].
  pose proof (Runtime.rt_ok_reachable waker _ _ Hr) as Hok.
  pose proof (sys_ok_reachable _ (Runtime.rt_sys_ok _ _ _ Hok)) as Hsys.
  destruct (bt_pc b) as [| | | | | |d|d] eqn:Hpc;
    try (left; exists Main; eexists; split; [by left|]; cbn [exec]; unfold main; rewrite Hpc; reflexivity).
  - destruct (BlockOn.lock (Runtime.rt_thread (bt_rt b))) eqn:Hlk.
    + left. exists Main. eexists. split; [by left|]. cbn [exec]. unfold main. rewrite Hpc, Hlk.
      cbn [Runtime.exec BlockOn.exec]. rewrite decide_True by done. reflexivity.
    + destruct (10 <=? MainLoop.sleeps (bt_loop b)) eqn:Hten; [right; split_and!; [done|lia|done]|].
      left. exists Main. eexists. split; [by left|]. cbn [exec]. unfold main. rewrite Hpc, Hlk, Hten. reflexivity.
    + destruct (10 <=? MainLoop.sleeps (bt_loop b)) eqn:Hten; [right; split_and!; [done|lia|done]|].
      left. exists Main. eexists. split; [by left|]. cbn [exec]. unfold main. rewrite Hpc, Hlk, Hten. reflexivity.
  - left. destruct (exec_good (EReact None) (Runtime.rt_sys (bt_rt b))) as (s' & Hse & _);
      [done|specialize (Hi (or_introl eq_refl)); cbn; by destruct (s_ph _)|].
    exists Main. eexists. split; [by left|]. cbn [exec]. unfold main. rewrite Hpc. cbn [Runtime.exec].
    rewrite decide_True by (cbn; by apply Hl). rewrite Hse. reflexivity.
  - left. destruct (decide (Runtime.idle (s_ph (Runtime.rt_sys (bt_rt b))))) as [Hidle|Hni].
    + exists Main. eexists. split; [by left|]. cbn [exec]. unfold main. rewrite Hpc, decide_True by done.
      reflexivity.
    + destruct (main_round_possible _ _ Hbt Hpc Hni Ht) as [b' He]. exists MainRound, b'. auto.
  - left. exists Main. eexists. split; [by left|]. cbn [exec]. unfold main. rewrite Hpc. cbn [Runtime.exec].
    rewrite decide_True by (apply Hi; by right). cbn [BlockOn.exec].
    rewrite decide_True by (by apply Hl). reflexivity.
  - left. destruct (pk_park_zero (bt_parker b)) as [[] p] eqn:Hpk; exists Main; eexists;
      (split; [by left|]); cbn [exec]; unfold main; rewrite Hpc, Hpk; reflexivity.
Qed.

(** C5 The reactor is driven: as long as a call of [block_on] is active, some thread begins a
    round of [react] before the "async-io" thread has taken 122 more of its steps (and 55
    more for each time it is unparked), whatever the others do meanwhile. *)
Theorem someone_reacts (n : Z) (evs : list Ev) b b'
    (Hb : reachable waker n b) (Hn : 0 ≤ n) (Hrun : run waker evs b = Some b')
    (Hpc : BlockOn.pc (Runtime.rt_thread (bt_rt b')) ≠ BlockOn.Returned)
    (Henough : ENOUGH + 55 * count_unparks waker evs b < count_main evs) :
  ∃ evs1 e evs2 b1, evs = evs1 ++ e :: evs2 ∧ run waker evs1 b = Some b1 ∧ begins e b1 = true.
Proof.
  pose proof (bt_ok_reachable _ _ Hb) as Hbt.
  destruct (begins_or_rank _ _ _ _ Hbt Hn Hrun Hpc) as [(evs1 & e & evs2 & b1 & ? & ? & ? & _)|Hle].
  - by exists evs1, e, evs2, b1.
  - pose proof (rank_bounds _ _ Hbt). pose proof (rank_bounds _ _ (run_bt_ok _ _ _ _ Hbt Hrun)). lia.
Qed.

(** A thread in [block_on] waits with the timer [id] for [t0], and the "async-io" thread
    takes enough steps in [evs2] once the timer is due; then no round is running. *)
Definition driven_on_time (t0 : Instant) (id : Z) b1 : Prop :=
  ∀ evs1 b2 evs2 b3 res evs3 b4,
    run waker evs1 b1 = Some b2 → t0 ≤ env_time (w_env (s_w (Runtime.rt_sys (bt_rt b2)))) →
    run waker evs2 b2 = Some b3 → ENOUGH + 55 * count_unparks waker evs2 b2 < count_main evs2 →
    s_ph (Runtime.rt_sys (bt_rt b3)) = Idle res → s_errs (Runtime.rt_sys (bt_rt b3)) = false →
    ERemoveTimer t0 id ∉ trace waker (evs1 ++ evs2) b1 ≫= Runtime.sys_step →
    run waker evs3 b3 = Some b4 →
    (10 ≤ Runtime.count_moves waker (trace waker evs3 b3) (bt_rt b3))%nat →
    Runtime.polls_in waker (trace waker ((evs1 ++ evs2) ++ evs3) b1) (bt_rt b1).

(** C2 A timer that a thread blocks on fires, whether or not anyone waits for it: if a poll of a
    [Timer] by a thread in [block_on] answers [Pending], which is the run [timer_steps] of
    the thread's task, then whatever tasks, other threads and rounds do, once the timer is
    due, the "async-io" thread has taken enough steps and no round is running, the thread
    polls its future again before it has taken ten more steps; provided that the timer is
    not removed before, and that the poller has not refused to modify an interest by
    then. *)
Theorem block_on_timer_driven (n : Z) (t : Timer.Timer) (t0 : Instant) b (c : Call Reg Env)
    (Hb : reachable waker n b) (Hn : 0 ≤ n)
    (Hpc : BlockOn.pc (Runtime.rt_thread (bt_rt b)) = BlockOn.Polling)
    (Hid : w_id_generator (s_w (Runtime.rt_sys (bt_rt b))) + 1 < USIZE_MOD)
    (Ht : Timer.timer_ok (s_w (Runtime.rt_sys (bt_rt b))) t) (Ht0 : Timer.when t = Some t0)
    (Hnow : is_call env_now c (w_env (s_w (Runtime.rt_sys (bt_rt b))))) :
  wp (Timer.poll_next t waker)
    (λ o w', o.1 = Pending →
       ∃ b1 id, run waker (Other ∘ Runtime.Task Runtime.Here <$> timer_steps t t0 waker c) b = Some b1 ∧
         s_w (Runtime.rt_sys (bt_rt b1)) = w' ∧ Timer.entry o.2 = Some ((t0, id), waker) ∧
         driven_on_time t0 id b1)
    (s_w (Runtime.rt_sys (bt_rt b))).
Proof.
  pose proof (bt_ok_reachable _ _ Hb) as Hbt.
  eapply wp_mono; [by apply (Runtime.block_on_timer waker n t t0); [apply Hbt|..]|].
  intros o w' Hk Ho. destruct (Hk Ho) as (r1 & id & Hrun & Hw & _ & Hentry & Hpolls).
  exists (set_rt r1 b), id. split_and!; [by apply lift_others|done|done|].
  intros evs1 b2 evs2 b3 res evs3 b4 Hr2 Hdue Hr3 Henough Hend Herr Hrem Hr4 Hmoves.
  pose proof (run_bt_ok _ _ _ _ Hbt (lift_others _ _ _ Hrun)) as Hbt1.
  pose proof (run_bt_ok _ _ _ _ Hbt1 Hr2) as Hbt2.
  pose proof (Runtime.rt_ok_reachable waker _ _ (bt_reachable _ _ _ Hbt1)) as Hok1.
  assert (run waker (evs1 ++ evs2) (set_rt r1 b) = Some b3) as Hr23 by by eapply run_join.
  rewrite (trace_app _ _ _ _ Hr23).
  destruct (decide (BlockOn.pc (Runtime.rt_thread (bt_rt b3)) = BlockOn.Returned)) as [Hret|Hact].
  { apply Runtime.polls_in_app_l.
    destruct (Runtime.run_begins waker n _ _ _ Hok1 (run_rt _ _ _ Hr23)) as [|[_ Hf]]; [done|].
    exfalso. rewrite Hret in Hf. cbn in Hf.
    pose proof (Runtime.rt_ok_reachable waker _ _ (bt_reachable _ _ _ Hbt)) as Hok.
    rewrite (tasks_pc _ _ _ _ Hok Hrun), Hpc in Hf. discriminate Hf. }
  destruct (begins_or_rank _ _ _ _ Hbt2 Hn Hr3 Hact) as [Hbeg|Hle].
  2:{ pose proof (rank_bounds _ _ Hbt2). pose proof (rank_bounds _ _ (run_bt_ok _ _ _ _ Hbt2 Hr3)). lia. }
  destruct Hbeg as (evsa & e & evsb & ba & -> & Hra & Hbe & bb & Hexec).
  destruct (run_app_inv evsa (e :: evsb) _ _ Hr3) as (ba' & Hra' & Hr3').
  assert (ba' = ba) as -> by congruence. cbn [run] in Hr3'. rewrite Hexec in Hr3'.
  destruct (begins_react _ _ _ Hbe Hexec) as (who & timeout & Hstep & Hreact).
  assert (run waker (evs1 ++ evsa) (set_rt r1 b) = Some ba) as Hr2a by by eapply run_join.
  assert (trace waker (evs1 ++ evsa ++ e :: evsb) (set_rt r1 b) =
    trace waker (evs1 ++ evsa) (set_rt r1 b) ++ Runtime.React who timeout :: trace waker evsb bb)
    as Htrace by (rewrite app_assoc, (trace_app _ _ _ _ Hr2a); cbn [trace]; by rewrite Hstep, Hexec).
  rewrite Htrace in Hrem |- *. rewrite bind_app in Hrem.
  eapply (Hpolls _ (bt_rt ba) who timeout (bt_rt bb) _ (bt_rt b3) res _ (bt_rt b4));
    [by apply (run_rt _ (set_rt r1 b))| | |done|by apply run_rt|done|done|by apply run_rt|done].
  - intros Hin. apply Hrem, elem_of_app. by left.
  - etrans; [exact Hdue|]. eapply run_time, Runtime.run_sys, run_rt, Hra.
Qed.

(** Steps of the thread alone. *)
Definition own (e : Ev) : Prop := e = Main ∨ e = MainRound.

Lemma own_unparks evs b : Forall own evs → count_unparks waker evs b = 0.
Proof.
  intros Hown. revert b. induction Hown as [|e evs [-> | ->] _ IH]; intros b; [done|..];
    cbn [count_unparks unparking]; destruct (exec waker _ b); try done; by rewrite IH.
Qed.

Lemma own_removes t0 id evs b :
  Forall own evs → ERemoveTimer t0 id ∉ trace waker evs b ≫= Runtime.sys_step.
Proof.
  intros Hown. revert b. induction Hown as [|e evs He _ IH]; intros b; [by intros ?%elem_of_nil|].
  cbn [trace]. rewrite bind_app, not_elem_of_app. split.
  - destruct He as [-> | ->]; cbn [rt_step]; [|by intros [?|?%elem_of_nil]%elem_of_cons].
    destruct (bt_pc b); cbn; try case_decide; cbn; try (by intros ?%elem_of_nil);
      by intros [?|?%elem_of_nil]%elem_of_cons.
  - destruct (exec waker e b); [apply IH|by intros ?%elem_of_nil].
Qed.
End facts.

(** * Witnesses *)

Abbreviation RefBt := (Bt (Slab := RefSlab) (Queue := RefQueue) (Reg := Unix.Registration)
  (Env := RefEnv) (P := bool)).
Abbreviation RefBtEv := (Ev (Reg := Unix.Registration) (Env := RefEnv)).

(** The thread is spawned when [block_on] is called. *)
Definition beside : RefBt := spawned Runtime.called.

Lemma beside_reachable : reachable waker1 0 beside.
Proof. apply reach_start, Runtime.called_reachable. Qed.

(** It finds the lock free, reacts (the first round delivers an event), and sleeps. *)
Definition cycle (rounds : nat) : list RefBtEv :=
  [Main; Main; Main] ++ replicate rounds MainRound ++ [Main; Main; Main; Main].
Definition cycles_from (rounds n : nat) : list RefBtEv :=
  cycle rounds ++ mjoin (replicate n (cycle 4)).
Abbreviation cycles := (cycles_from 6).
Definition after_cycles (n : nat) : RefBt := default beside (run waker1 (cycles n) beside).

Lemma cycle_own rounds : Forall own (cycle rounds).
Proof.
  repeat apply Forall_app_2; [|by apply Forall_replicate; right|];
    repeat (apply Forall_cons; split; [by left|]); apply Forall_nil_2.
Qed.

Lemma cycles_own rounds n : Forall own (cycles_from rounds n).
Proof.
  apply Forall_app_2; [apply cycle_own|]. induction n as [|n IH]; [done|].
  apply Forall_app_2; [apply cycle_own|exact IH].
Qed.

Example cycles_did :
  bt_dids (after_cycles 1) =
  [MainLoop.mkDid true (Some (from_micros 50)); MainLoop.mkDid true (Some (from_micros 50))].
Proof. vm_compute. exact eq_refl. Qed.
Lemma cycles_ran : run waker1 (cycles 20) beside = Some (after_cycles 20).
Proof. vm_compute. exact eq_refl. Qed.

(** Each found the tick it had seen, the lock free, one call of [block_on], and slept. *)
Example cycles_observed :
  observed waker1 (cycles 1) beside nothing =
  [MainLoop.mkObs 0 true 1 1 false 0; MainLoop.mkObs 1 true 2 1 false 0].
Proof. vm_compute. exact eq_refl. Qed.

Lemma background_refines_witness :
  ∃ st, MainLoop.main_loop (observed waker1 (cycles 20) beside nothing) MainLoop.initial =
      (bt_dids (after_cycles 20), st) ∧
    bt_loop (after_cycles 20) = st.
Proof.
  destruct (background_refines waker1 0 (cycles 20) Runtime.called _ Runtime.called_reachable cycles_ran)
    as (_ & _ & st & Hos & Hst).
  exists st. split; [exact Hos|]. apply Hst. vm_compute. exact eq_refl.
Defined.

Lemma main_loop_not_stuck_witness :
  ∃ e b', (e = Main ∨ e = MainRound) ∧ exec waker1 e beside = Some b'.
Proof.
  destruct (main_loop_not_stuck waker1 0 beside beside_reachable) as [Hstep|(Hpc & _)].
  - vm_compute. exact eq_refl.
  - exact Hstep.
  - discriminate Hpc.
Defined.

(** Within 147 steps, some thread has begun a round. *)
Lemma someone_reacts_witness :
  ∃ evs1 e evs2 b1, cycles 20 = evs1 ++ e :: evs2 ∧ run waker1 evs1 beside = Some b1 ∧
    begins e b1 = true.
Proof.
  apply (someone_reacts waker1 0 (cycles 20) beside _ beside_reachable ltac:(lia) cycles_ran).
  - vm_compute. discriminate.
  - rewrite (own_unparks waker1 _ beside (cycles_own 6 20)). vm_compute. exact eq_refl.
Defined.

(** The timer of [block_on_timer_witness], which no one but the "async-io" thread
    processes: 147 steps of it are enough; then the thread in [block_on] takes ten. *)
Definition goes (evs : list RefBtEv) (b : RefBt) : RefBt := default beside (run waker1 evs b).
Definition set_timer : list RefBtEv :=
  Other ∘ Runtime.Task Runtime.Here <$>
    timer_steps (Timer.at_instant 5000) 5000 waker1
      (inl (ref_drift (w_env (s_w (Runtime.rt_sys (bt_rt beside)))))).
Definition time_passes : list RefBtEv :=
  [Other (Runtime.Task (Runtime.There false) (ECall (inl 9000%N)))].
Definition driven : RefBt := goes set_timer beside.
Definition driven_due : RefBt := goes time_passes driven.
Definition fire : list RefBtEv := cycles_from 7 20.
Definition driven_fired : RefBt := goes (fire) driven_due.
Definition ten_steps : list RefBtEv :=
  Other <$>
    (replicate 4 (Runtime.Step false) ++
     Runtime.React Runtime.Here (Some (from_secs 0)) :: replicate 4 (Runtime.Round Runtime.Here) ++
     replicate 5 (Runtime.Step false)).

Lemma driven_ran :
  run waker1 set_timer beside = Some driven ∧
  run waker1 time_passes driven = Some driven_due ∧
  5000 ≤ env_time (w_env (s_w (Runtime.rt_sys (bt_rt driven_due)))) ∧
  run waker1 (fire) driven_due = Some driven_fired ∧
  s_ph (Runtime.rt_sys (bt_rt driven_fired)) = Idle (Ok tt) ∧
  s_errs (Runtime.rt_sys (bt_rt driven_fired)) = false ∧
  run waker1 ten_steps driven_fired = Some (goes ten_steps driven_fired) ∧
  Runtime.count_moves waker1 (trace waker1 ten_steps driven_fired) (bt_rt driven_fired) = 10%nat.
Proof. vm_compute. split_and!; try exact eq_refl. discriminate. Qed.

Lemma block_on_timer_driven_witness :
  Runtime.polls_in waker1 (trace waker1 ((time_passes ++ fire) ++ ten_steps) driven) (bt_rt driven).
Proof.
  assert (Timer.timer_ok (s_w (Runtime.rt_sys (bt_rt beside))) (Timer.at_instant 5000)) as Ht
    by (intros key k Hk; discriminate Hk).
  destruct (block_on_timer_driven waker1 0 (Timer.at_instant 5000) 5000 beside _ beside_reachable
              ltac:(lia) Runtime.called_polling adapter_ids Ht eq_refl (now_is_call _)) as (o & w' & Hrun & Hk).
  assert (o.1 = Pending) as Ho.
  { pose proof Hrun as Hc. vm_compute in Hc. by injection Hc as <- _. }
  destruct (Hk Ho) as (b1 & id & Hb1 & _ & _ & Hall).
  destruct driven_ran as (H1 & H2 & H3 & H4 & H5 & H6 & H7 & H8).
  assert (b1 = driven) as -> by (unfold set_timer in H1; congruence).
  refine (Hall _ _ _ _ _ _ _ H2 H3 H4 _ H5 H6 _ H7 _).
  - rewrite (own_unparks waker1 _ driven_due (cycles_own 7 20)). vm_compute. exact eq_refl.
  - pose proof H2 as He. cbn [time_passes run] in He.
    apply bind_Some in He as (b2' & He & [= ->]). unfold time_passes. cbn [app trace].
    rewrite He, bind_app, not_elem_of_app. split; [|apply own_removes, cycles_own].
    by intros [Hc|Hc%elem_of_nil]%elem_of_cons.
  - rewrite H8. lia.
Defined.
End Background.
